(* ===== verification/_CoqProject ===== *)
-Q . S2P
Prelude.v
GoLib.v
GoNet.v
GoCrypto.v
GoJson.v
K8s.v
Api.v
Effects.v
Hoare.v
External.v
Concrete.v
Utils.v
Conditions.v
StatefulSetOps.v
ConfigMap.v
QuorumHelpers.v
Quorum.v
Secret.v
Services.v
StatefulSetHash.v
StatefulSet.v
Scraper.v
PodMonitors.v
Ingresses.v
HttpRoute.v
Controller.v
Main.v
Footprint.v
Server.v
ObjectStore.v
UtilsTheory.v
ClusterTheory.v
QuorumTheory.v
QuorumEvidence.v
QuorumSpec.v
NodesTheory.v
SafetyTheory.v
ConfigMapTheory.v
StatefulSetTheory.v
PartsTheory.v
Rbac.v
ControllerTheory.v
RequeueTheory.v
PhaseTheory.v
MainTheory.v
Convergence.v
Bootstrap.v
PanicTheory.v
QuorumRounds.v
CostTheory.v
