(* ===== verification/Prelude.v ===== *)
(** * A verified model of the Typesense operator

    The operator (src/internal/controller, src/api/v1alpha1, Go) keeps Typesense
    clusters on Kubernetes in the state their custom resource asks for.  One
    round of [Reconcile] reads the resource and runs nine parts in order: the
    admin key (Secret), the nodes list (ConfigMap), the two Services, the Ingress
    with its reverse proxy, the HTTP routes, the scraper CronJobs, the PodMonitor,
    the StatefulSet, and the quorum, which asks every node for its raft status
    and its health and scales the StatefulSet down or up.  An error of a part is
    recorded in the status and ends the round.  The parts share no state in
    memory except the resource itself; they interact through the objects on the
    API server.  This library translates all of that code and proves theorems
    about the translation.

    ** How the code is modelled

    Go functions without effects are Rocq functions ([string]s are byte strings,
    [int] and [int32] are [Z] with [int64] and [int32] for the conversions that
    can wrap, maps are [gmap]s, optional pointers are [option]s, [(T, error)] is
    [result T]).  Nil dereferences and indices out of range are the outcome
    [Panicked].  A function that talks to the outside (API server, nodes, log and
    discovery endpoints, clock, random source) is a [prog]: a tree of calls, each
    with a continuation for every answer.  Nothing is assumed of the answers, so
    a theorem [wlp p Q] is about every execution of [p]: all failures, all stale
    or concurrently changed objects.  [run] executes a program against an
    environment, and [wlp_run] transfers the theorems to its runs.  Repeated
    rounds are runs against an environment of the class [ApiServer], which states
    what the API server documents: [after h p w Q] is a theorem about the run of
    [p] from the state [w].  Other clients do not write in between.

    ** Files

    - [Prelude]: machine integers, generic list and map lemmas, the tactic
      [bool_to_prop], the hint databases [golib] and [effects].
    - [GoLib], [GoNet], [GoCrypto], [GoJson]: what the sources use of Go's
      standard library (strings, strconv, sort, net, regexp, base64, sha256,
      encoding/json), executable, with the lemmas the components need.
    - [K8s], [Api]: API objects cut down to the fields the code mentions, and the
      custom resource with its accessors (src/api/v1alpha1).
    - [Effects], [Hoare]: errors, outcomes, calls, programs, executions; proof
      rules ([wlp_steps], [calls_auto]).
    - [External], [Concrete]: the class [Libs] of third-party functions, which
      are parameters; the documented laws of [SetStatusCondition] and
      [SetControllerReference], [LibsLaws]; an instance of both on which the
      witnesses compute.
    - one file per source file of src/internal/controller: [Utils] (utils.go,
      constants.go), [Conditions] (condition_types.go, helpers.go),
      [StatefulSetOps] and [StatefulSet] (statefulset.go; the former holds the
      operations the quorum reconciler calls), [ConfigMap], [QuorumHelpers]
      (quorum_helpers.go, quorum_types.go, server_errors.go), [Quorum],
      [Secret], [Services], [StatefulSetHash], [Scraper], [PodMonitors],
      [Ingresses], [HttpRoute], [Controller].  Definitions keep the names of the
      source; a long function is cut into stages that are runs of its lines.
    - [Main]: src/cmd/main.go, the flags, the TLS options and the order of the
      calls that set up the process, with [SetupWithManager] and the event filter
      of controller.go.
    - [Server], [ObjectStore]: the laws of the API server and rules for runs; an
      instance that stores objects.
    - [Footprint]: which writes a program can make; [Rbac]: the permission
      markers as tables, the request each call makes, and that it is granted.
    - the quorum: [QuorumTheory] (scaling as seen in a trace, readiness gates),
      [QuorumEvidence] (what the calls of a round show of the nodes, the lag
      threshold and the gates, each read off the trace in one way only) and
      [QuorumSpec] (the abstract specification, what shows a situation, the
      refinement and its consequences).
    - theorems on one round: [UtilsTheory], [ClusterTheory], [NodesTheory],
      [SafetyTheory], [ConfigMapTheory], [StatefulSetTheory], [PartsTheory],
      [ControllerTheory], [RequeueTheory] (what a round returns), [PhaseTheory]
      (which phases it reports), [PanicTheory] (where it can panic), [CostTheory]
      (how many calls it makes), [MainTheory].
    - theorems on rounds against a server: [Convergence] (services, admin key),
      [Bootstrap] (the first round of a cluster), [QuorumRounds] (sizes of the
      StatefulSet, with and without incremental recovery).

    ** What is shown

    - Quorum: the calls of a round show one situation, for which the abstract
      specification owes one verdict, and the reconciler does what that verdict
      allows, or it gives up early for a reason that its calls show (C1); the
      StatefulSet is scaled only after calls that show why, at most once and
      changing nothing else, and the answer [QuorumReady] has evidence (C2, C3);
      the classification of the cluster (C5); the sizes the StatefulSet can take
      over any number of rounds when recovery is not incremental (C6); how many
      calls a round makes (C17); unschedulable pods go first (C18); the readiness
      gates (C22).  Nodes (C20, C21): statuses are read back exactly, health is
      taken only from a node's own word.
    - Nodes list (C8 to C10): what is written, when, and that it is what is read;
      bootstrap lists.
    - StatefulSet (C11, C12): what is built is well formed, an update settles.
    - The loop: the cluster is reported ready only with evidence of the same
      round (C4); a catalogue of the answers after which a round can panic (C7);
      every request is permitted, but for those through the proxy of the API
      server (C13); the parts of the first round create a cluster without options
      (C15); the phases of a round form a small language (C16); what a round
      returns, with the source of its delay (C19, C28).
    - Supporting objects (C14, C23 to C27, C32): services converge, the admin key
      is chosen once, what is created, deleted and left alone; comparison of
      volumes.
    - The process (C29, C30): the calls it makes and how it ends, for all
      answers; what the TLS options make of the two servers.
    - Defects (C31, C33 to C40): sizes beyond the specification, names that
      collide, states the code cannot leave, panics; each is a theorem about the
      code as it is written.

    Theorems without a number support these or state smaller facts.

    ** Bounds and fuel

    The only fuel of the model is that of the standard library's loops.
    [blank_str] uses the length of its argument, each rune taking a byte.
    [parse_json] uses twice the length plus two, and [parse_json_fuel] proves
    that it never runs out; the IPv6 loop reads at most eight groups.  Loops of
    the operator are structural ([fold_prog], [for_err]).  Programs are finite
    trees, so every handler terminates once its calls return; [CostTheory] bounds
    the number of calls of a quorum round by the lists it is answered with.

    ** What is not modelled

    Generated deep copies and the scheme builders (values are immutable here),
    log lines, tests, manifests.  In [Main] the manager, the certificate watchers
    and the clients are third-party: what is done to them is a list of calls, and
    [zap]'s flags are foreign.  Contexts and timeouts appear as errors of calls.
    The scheduling of rounds by controller-runtime is outside, and so are the
    StatefulSet controller and the kubelets: [QuorumRounds] lets the rounds follow
    each other without changes in between, theorems on one round allow any.
    [Eventf] carries the message it is given, without the expansion of verbs.
    The client's decoding of an answer into the caller's variable is modelled by
    returning the object answered.

    ** Possible extensions

    In this order: convergence of the other parts (scrapers, PodMonitor, Ingress,
    StatefulSet) against [ApiServer]; a server on which other controllers change
    pods and status between rounds, and recovery of the quorum on it; routes of
    different clusters whose names collide; a bound on the calls of the whole
    loop. *)
From stdpp Require Export base decidable option list gmap strings pretty sorting.
From Stdlib Require Export ZArith Lia.

(** ** Machine integers

    Go's [int32] and [int64] are two's complement: a conversion or an
    arithmetic result outside the range wraps around.  The platform [int] is
    64 bits wide. *)
Definition wrap (w : Z) (z : Z) : Z :=
  (z + 2 ^ (w - 1)) `mod` 2 ^ w - 2 ^ (w - 1).
Definition int32 (z : Z) : Z := wrap 32 z.
Definition int64 (z : Z) : Z := wrap 64 z.

Definition in_int32 (z : Z) : Prop := (-2147483648 ≤ z ≤ 2147483647)%Z.
Definition in_int64 (z : Z) : Prop :=
  (-9223372036854775808 ≤ z ≤ 9223372036854775807)%Z.

Lemma int32_id z : in_int32 z → int32 z = z.
Proof. unfold in_int32, int32, wrap. intros. rewrite Z.mod_small; lia. Qed.

Lemma int64_id z : in_int64 z → int64 z = z.
Proof. unfold in_int64, int64, wrap. intros. rewrite Z.mod_small; lia. Qed.

Lemma int32_range z : in_int32 (int32 z).
Proof.
  unfold in_int32, int32, wrap.
  pose proof (Z.mod_pos_bound (z + 2 ^ (32 - 1)) (2 ^ 32)). lia.
Qed.

Lemma int64_range z : in_int64 (int64 z).
Proof.
  unfold in_int64, int64, wrap.
  pose proof (Z.mod_pos_bound (z + 2 ^ (64 - 1)) (2 ^ 64)). lia.
Qed.

(** ** Automation shared by the components *)

(** [golib]: facts about strings, lists and integers; [effects]: which calls the
    handlers make. *)
Create HintDb golib discriminated.
Create HintDb effects.
#[export] Hint Resolve int32_range int64_range : golib.

(** Turns boolean tests of the hypotheses and the goal into propositions. *)
Ltac bool_to_prop :=
  repeat match goal with
  | H : String.eqb _ _ = true |- _ => apply String.eqb_eq in H
  | H : String.eqb _ _ = false |- _ => apply String.eqb_neq in H
  | H : (_ =? _)%Z = true |- _ => apply Z.eqb_eq in H
  | H : (_ =? _)%Z = false |- _ => apply Z.eqb_neq in H
  | H : (_ <? _)%Z = true |- _ => apply Z.ltb_lt in H
  | H : (_ <? _)%Z = false |- _ => apply Z.ltb_ge in H
  | H : (_ <=? _)%Z = true |- _ => apply Z.leb_le in H
  | H : (_ <=? _)%Z = false |- _ => apply Z.leb_gt in H
  | H : (_ && _)%bool = true |- _ => apply andb_true_iff in H; destruct H
  | H : (_ && _)%bool = false |- _ => apply andb_false_iff in H
  | H : (_ || _)%bool = true |- _ => apply orb_true_iff in H
  | H : (_ || _)%bool = false |- _ => apply orb_false_iff in H; destruct H
  | H : negb _ = true |- _ => apply negb_true_iff in H
  | H : negb _ = false |- _ => apply negb_false_iff in H
  | H : bool_decide _ = true |- _ => apply bool_decide_eq_true in H
  | H : bool_decide _ = false |- _ => apply bool_decide_eq_false in H
  end.

(** ** Lists and maps *)

(** A sorted permutation of the values is unique, so sums and counts over the
    values of a map do not depend on the iteration order. *)
Lemma foldl_permutation {A B} (f : B → A → B) (l1 l2 : list A) b :
  (∀ b x y, f (f b x) y = f (f b y) x) → l1 ≡ₚ l2 → foldl f b l1 = foldl f b l2.
Proof.
  intros Hf Hp. revert b.
  induction Hp as [|x l1 l2 Hp IH|x y l|l1 l2 l3 H1 IH1 H2 IH2]; intros b; simpl; auto.
  - by rewrite Hf.
  - by rewrite IH1, IH2.
Qed.

Lemma existsb_false_Forall {A} (f : A → bool) l :
  existsb f l = false ↔ Forall (λ x, f x = false) l.
Proof.
  induction l as [|x l IH]; simpl; [done|].
  rewrite orb_false_iff, IH, Forall_cons. done.
Qed.

Lemma existsb_true_Exists {A} (f : A → bool) l :
  existsb f l = true ↔ Exists (λ x, f x = true) l.
Proof.
  induction l as [|x l IH]; simpl; [by split; [|intros ?%Exists_nil]|].
  rewrite orb_true_iff, IH, Exists_cons. done.
Qed.

Lemma NoDup_sublist {A} (l1 l2 : list A) : l1 `sublist_of` l2 → NoDup l2 → NoDup l1.
Proof.
  induction 1 as [|x l1 l2 H IH|x l1 l2 H IH]; rewrite ?NoDup_cons; [done| |naive_solver].
  intros [Hx Hl]. split; [|auto]. intros Hin. apply Hx. by eapply elem_of_sublist.
Qed.

Lemma filter_fmap_list {A B} (f : A → B) (P : B → Prop) `{∀ b, Decision (P b)} (l : list A) :
  filter P (f <$> l) = f <$> filter (λ a, P (f a)) l.
Proof.
  induction l as [|a l IH]; [done|]. rewrite fmap_cons, !filter_cons.
  repeat case_decide; try done; rewrite ?fmap_cons; by rewrite IH.
Qed.

Section Maps.
Context {A : Type}.
Implicit Types m : gmap string A.

Lemma map_to_list_filter_perm (P : string * A → Prop) `{∀ kv, Decision (P kv)} m :
  map_to_list (filter P m) ≡ₚ filter P (map_to_list m).
Proof.
  rewrite map_filter_alt. apply map_to_list_to_map.
  eapply NoDup_sublist; [apply fmap_sublist, sublist_filter|apply NoDup_fst_map_to_list].
Qed.

(** Counting the values of a map *)
Lemma size_filter_values (P : A → Prop) `{∀ a, Decision (P a)} m :
  size (filter (λ kv, P kv.2) m) = length (filter P (map_to_list m).*2).
Proof.
  rewrite <-length_map_to_list, map_to_list_filter_perm.
  by rewrite filter_fmap_list, length_fmap.
Qed.
End Maps.
