(* ===== verification/GoLib.v ===== *)
(** * The pieces of Go's standard library the operator uses

    Go strings are byte sequences and so are Rocq's [string]s (lists of 8-bit
    [ascii]).  This file translates the functions of [strings], [strconv],
    [sort] and [regexp] that the sources under src/internal call, each with the
    behaviour its documentation states, errors included, and proves the facts
    the components rely on: splitting inverts joining, printed numbers are free
    of separators, sorting permutes.  Every function is executable. *)
From S2P Require Import Prelude.
From Stdlib Require Import Ascii.
From Stdlib Require String.


#[local] Arguments String.append : simpl nomatch.
#[local] Arguments Ascii.eqb : simpl never.

(** ** Package [strings] *)
Section Strings.

(** [strings.Contains] *)
Fixpoint contains_str (s sub : string) : bool :=
  String.prefix sub s ||
  match s with
  | EmptyString => false
  | String _ s' => contains_str s' sub
  end.

(** [strings.Index], [None] for -1 *)
Fixpoint index_str (s sub : string) : option nat :=
  if String.prefix sub s then Some 0
  else match s with
       | EmptyString => None
       | String _ s' => S <$> index_str s' sub
       end.

(** [strings.LastIndex], [None] for -1 *)
Fixpoint last_index_str (s sub : string) : option nat :=
  match s with
  | EmptyString => if String.prefix sub s then Some 0 else None
  | String _ s' =>
      match last_index_str s' sub with
      | Some i => Some (S i)
      | None => if String.prefix sub s then Some 0 else None
      end
  end.

(** The slice expressions [s[n:]] and [s[:n]], for [n] within the string *)
Fixpoint drop_str (n : nat) (s : string) : string :=
  match n, s with
  | S n', String _ s' => drop_str n' s'
  | _, _ => s
  end.
Fixpoint take_str (n : nat) (s : string) : string :=
  match n, s with
  | S n', String c s' => String c (take_str n' s')
  | _, _ => ""
  end.

(** [strings.Split] with a separator of one byte (every call site uses a comma):
    always at least one field. *)
Fixpoint split_on (c : ascii) (s : string) : list string :=
  match s with
  | EmptyString => [""]
  | String a s' =>
      if Ascii.eqb a c then "" :: split_on c s'
      else match split_on c s' with
           | x :: xs => String a x :: xs
           | [] => [String a ""]
           end
  end.

(** [strings.Join] *)
Definition join_str (l : list string) (sep : string) : string :=
  String.concat sep l.

(** [strings.Replace] for a non-empty [old]; [limit = None] replaces every
    non-overlapping occurrence ([strings.ReplaceAll], or [n < 0]). *)
Fixpoint replace_go (old new : string) (limit : option nat) (skip : nat)
    (s : string) : string :=
  match s with
  | EmptyString => ""
  | String c s' =>
      match skip with
      | S k => replace_go old new limit k s'
      | O =>
          match limit with
          | Some O => String c (replace_go old new limit 0 s')
          | _ =>
              if String.prefix old s
              then new +:+ replace_go old new (pred <$> limit)
                     (pred (String.length old)) s'
              else String c (replace_go old new limit 0 s')
          end
      end
  end.
Definition replace_str (s old new : string) (limit : option nat) : string :=
  replace_go old new limit 0 s.

(** [strings.TrimPrefix] *)
Definition trim_prefix (s p : string) : string :=
  if String.prefix p s then drop_str (String.length p) s else s.

(** [unicode.IsSpace] on the rune that starts [s], read as UTF-8: the rest of
    the string after that rune, if it is white space. *)
Definition space_rune (s : string) : option string :=
  let b a := Z.of_nat (nat_of_ascii a) in
  match s with
  | String c1 s1 =>
      if (9 <=? b c1)%Z && (b c1 <=? 13)%Z || (b c1 =? 32)%Z then Some s1
      else match s1 with
      | String c2 s2 =>
          if (b c1 =? 0xC2)%Z && ((b c2 =? 0x85)%Z || (b c2 =? 0xA0)%Z) then Some s2
          else match s2 with
          | String c3 s3 =>
              if (b c1 =? 0xE1)%Z && (b c2 =? 0x9A)%Z && (b c3 =? 0x80)%Z
                 || (b c1 =? 0xE2)%Z && (b c2 =? 0x80)%Z
                    && ((0x80 <=? b c3)%Z && (b c3 <=? 0x8A)%Z
                        || (b c3 =? 0xA8)%Z || (b c3 =? 0xA9)%Z || (b c3 =? 0xAF)%Z)
                 || (b c1 =? 0xE2)%Z && (b c2 =? 0x81)%Z && (b c3 =? 0x9F)%Z
                 || (b c1 =? 0xE3)%Z && (b c2 =? 0x80)%Z && (b c3 =? 0x80)%Z
              then Some s3 else None
          | EmptyString => None
          end
      | EmptyString => None
      end
  | EmptyString => None
  end.

(** [strings.TrimSpace(s) == ""]: every rune is white space.  The fuel is the
    length, each rune takes at least one byte. *)
Fixpoint blank_go (fuel : nat) (s : string) : bool :=
  match s with
  | EmptyString => true
  | String _ _ =>
      match fuel, space_rune s with
      | S f, Some s' => blank_go f s'
      | _, _ => false
      end
  end.
Definition blank_str (s : string) : bool := blank_go (String.length s) s.

End Strings.

(** ** Package [strconv] *)
Section Strconv.

(** [strconv.Itoa], and the verb [%d] *)
Definition itoa (z : Z) : string := pretty z.

(** [strconv.FormatBool] *)
Definition format_bool (b : bool) : string := if b then "true" else "false".

Inductive num_error := ErrSyntax | ErrRange.

Definition digit_val (c : ascii) : option Z :=
  let n := Z.of_nat (nat_of_ascii c) in
  if (48 <=? n)%Z && (n <=? 57)%Z then Some (n - 48)%Z else None.

Definition max_uint64 : Z := 2 ^ 64 - 1.
Definition uint_cutoff : Z := max_uint64 / 10 + 1.

(** The digit loop of [strconv.ParseUint] in base 10: a range error is returned
    as soon as the value overflows, before later bytes are looked at. *)
Fixpoint parse_uint_loop (n : Z) (s : string) : Z * option num_error :=
  match s with
  | EmptyString => (n, None)
  | String c s' =>
      match digit_val c with
      | None => (0%Z, Some ErrSyntax)
      | Some d =>
          if (uint_cutoff <=? n)%Z then (max_uint64, Some ErrRange)
          else if (max_uint64 <? n * 10 + d)%Z then (max_uint64, Some ErrRange)
          else parse_uint_loop (n * 10 + d) s'
      end
  end.
Definition parse_uint (s : string) : Z * option num_error :=
  match s with
  | EmptyString => (0%Z, Some ErrSyntax)
  | _ => parse_uint_loop 0 s
  end.

(** [strconv.Atoi]: on a range error the value is the nearest [int]. *)
Definition atoi (s : string) : Z * option num_error :=
  let '(neg, s') :=
    match s with
    | String c s' =>
        if Ascii.eqb c "+" then (false, s')
        else if Ascii.eqb c "-" then (true, s')
        else (false, s)
    | EmptyString => (false, s)
    end in
  match parse_uint s' with
  | (_, Some ErrSyntax) => (0%Z, Some ErrSyntax)
  | (un, e) =>
      if negb neg && (2 ^ 63 <=? un)%Z then (2 ^ 63 - 1, Some ErrRange)%Z
      else if neg && (2 ^ 63 <? un)%Z then (- 2 ^ 63, Some ErrRange)%Z
      else ((if neg then - un else un)%Z, e)
  end.

(** [strconv.ParseBool]; the value is [false] on an error. *)
Definition parse_bool (s : string) : bool * option num_error :=
  if decide (s ∈ ["1"; "t"; "T"; "TRUE"; "true"; "True"]) then (true, None)
  else if decide (s ∈ ["0"; "f"; "F"; "FALSE"; "false"; "False"]) then (false, None)
  else (false, Some ErrSyntax).

End Strconv.

(** ** Package [sort] *)

(** Byte-wise order on strings, as Go's [<=] *)
Definition str_le (x y : string) : Prop := String.leb x y = true.
#[export] Instance str_le_dec : RelDecision str_le.
Proof. intros x y. unfold str_le. apply _. Defined.

(** [sort.Strings] *)
Definition sort_strings (l : list string) : list string := merge_sort str_le l.

(** The byte order is a total order. *)
#[export] Instance str_le_total : Total str_le.
Proof. intros x y. apply String.leb_total. Qed.
#[export] Instance str_le_antisymm : AntiSymm (=) str_le.
Proof. intros x y. apply String.leb_antisym. Qed.
Lemma str_le_cons c s d t :
  str_le (String c s) (String d t) ↔
  (N_of_ascii c < N_of_ascii d)%N ∨ (c = d ∧ str_le s t).
Proof.
  unfold str_le, String.leb. simpl. unfold Ascii.compare.
  destruct (N.compare_spec (N_of_ascii c) (N_of_ascii d)) as [H|H|H].
  - apply (f_equal ascii_of_N) in H. rewrite !ascii_N_embedding in H. subst.
    split; [by right|]. intros [?|[_ ?]]; [lia|done].
  - split; [by left|done].
  - split; [done|]. intros [?|[-> _]]; lia.
Qed.
#[export] Instance str_le_trans : Transitive str_le.
Proof.
  intros x. induction x as [|c x IH]; intros [|d y] [|e z]; try done.
  rewrite !str_le_cons. intros [?|[-> ?]] [?|[-> ?]]; try (left; lia). right. eauto.
Qed.

Lemma sort_strings_Permutation l : sort_strings l ≡ₚ l.
Proof. apply merge_sort_Permutation. Qed.

(** ** Bytes of a string *)
Fixpoint has_char (c : ascii) (s : string) : bool :=
  match s with
  | EmptyString => false
  | String a s' => Ascii.eqb a c || has_char c s'
  end.

(** The bytes [%d] can print. *)
Definition is_num_char (c : ascii) : bool :=
  match digit_val c with Some _ => true | None => Ascii.eqb c "-" end.

(** *** Append *)
Lemma str_app_nil_r (s : string) : s +:+ "" = s.
Proof. induction s; simpl; congruence. Qed.

Lemma str_app_assoc (a b c : string) : (a +:+ b) +:+ c = a +:+ b +:+ c.
Proof. induction a; simpl; congruence. Qed.

Lemma length_str_app a b :
  String.length (a +:+ b) = String.length a + String.length b.
Proof. induction a; simpl; congruence. Qed.

Lemma drop_str_app a b : drop_str (String.length a) (a +:+ b) = b.
Proof. induction a as [|c a IH]; [by destruct b|done]. Qed.
Lemma str_app_inj_l (a b c : string) : a +:+ b = a +:+ c → b = c.
Proof. induction a; simpl; [done|]. intros [=]. auto. Qed.

Lemma has_char_app c a b : has_char c (a +:+ b) = has_char c a || has_char c b.
Proof. induction a; simpl; [done|]. by rewrite IHa, orb_assoc. Qed.

(** *** Prefix and substring tests *)
Lemma prefix_app (a b : string) : String.prefix a (a +:+ b) = true.
Proof.
  induction a as [|c a IH]; [by destruct b|]. simpl.
  destruct (Ascii.ascii_dec c c); congruence.
Qed.

Lemma prefix_app_inv (a s : string) :
  String.prefix a s = true → ∃ b, s = a +:+ b.
Proof.
  revert s. induction a as [|c a IH]; intros s; [by exists s|].
  destruct s as [|c' s]; simpl; [done|].
  destruct (Ascii.ascii_dec c c') as [->|]; [|done].
  intros [b ->]%IH. by exists b.
Qed.

(** A substring test is an occurrence between a prefix and a suffix. *)
Lemma contains_str_spec (s sub : string) :
  contains_str s sub = true ↔ ∃ a b, s = a +:+ sub +:+ b.
Proof.
  split.
  - induction s as [|c s IH]; simpl; intros H.
    + exists "", "". by destruct sub.
    + apply orb_true_iff in H as [H|H].
      * change (String.prefix sub (String c s) = true) in H.
        apply prefix_app_inv in H as [b H]. by exists "", b.
      * destruct (IH H) as (a & b & ->). by exists (String c a), b.
  - intros (a & b & ->). induction a as [|c a IH]; simpl.
    + pose proof (prefix_app sub b) as Hp.
      destruct (sub +:+ b); unfold contains_str; fold contains_str; by rewrite Hp.
    + by rewrite IH, orb_true_r.
Qed.

Lemma contains_str_char s sub c :
  has_char c sub = true → has_char c s = false → contains_str s sub = false.
Proof.
  intros Hsub Hs. apply not_true_is_false. intros (a & b & ->)%contains_str_spec.
  rewrite !has_char_app, Hsub, orb_true_r in Hs. done.
Qed.

(** *** Splitting and joining *)
Lemma split_on_ne c s : split_on c s ≠ [].
Proof. destruct s; simpl; repeat case_match; done. Qed.

Lemma split_on_atom c s : has_char c s = false → split_on c s = [s].
Proof.
  induction s as [|a s IH]; [done|]. simpl. intros [Ha Hs]%orb_false_iff.
  by rewrite Ha, (IH Hs).
Qed.

Lemma split_on_cons c x s :
  has_char c x = false → split_on c (x +:+ String c s) = x :: split_on c s.
Proof.
  induction x as [|a x IH]; simpl.
  - intros _. by rewrite Ascii.eqb_refl.
  - intros [Ha Hx]%orb_false_iff. by rewrite Ha, (IH Hx).
Qed.

(** [Split] undoes [Join] on fields free of the separator. *)
Lemma split_on_join c l :
  l ≠ [] → Forall (λ x, has_char c x = false) l →
  split_on c (join_str l (String c "")) = l.
Proof.
  unfold join_str. intros Hne Hl. induction Hl as [|x l Hx Hl IH]; [done|].
  destruct l as [|y l]; simpl; [by apply split_on_atom|].
  rewrite (split_on_cons c x _ Hx). f_equal. by apply IH.
Qed.

(** [Join] undoes [Split]. *)
Lemma join_split_on c s : join_str (split_on c s) (String c "") = s.
Proof.
  unfold join_str. induction s as [|a s IH]; [done|]. simpl.
  pose proof (split_on_ne c s). destruct (Ascii.eqb a c) eqn:E.
  - apply Ascii.eqb_eq in E as ->. destruct (split_on c s); [done|].
    by rewrite <- IH.
  - destruct (split_on c s) as [|x xs] eqn:Es; [done|].
    rewrite <- IH. by destruct xs.
Qed.

(** *** Printed integers *)
Lemma pretty_N_char_val x :
  (x < 10)%N → digit_val (pretty_N_char x) = Some (Z.of_N x).
Proof.
  intros. assert (x = 0 ∨ x = 1 ∨ x = 2 ∨ x = 3 ∨ x = 4 ∨ x = 5 ∨ x = 6
    ∨ x = 7 ∨ x = 8 ∨ x = 9)%N as Hx by lia.
  by repeat destruct Hx as [->|Hx]; [done..|subst].
Qed.

Lemma pretty_N_go_num c x s :
  has_char c (pretty_N_go x s) = true → is_num_char c = true ∨ has_char c s = true.
Proof.
  revert s. induction (N.lt_wf_0 x) as [x _ IH]; intros s.
  assert (x = 0 ∨ 0 < x)%N as [->|Hx] by lia; [rewrite pretty_N_go_0; auto|].
  rewrite pretty_N_go_step by done. intros [?|H]%IH; [by left| |by apply N.div_lt].
  simpl in H. apply orb_true_iff in H as [H|H]; [left|by right].
  apply Ascii.eqb_eq in H as <-. unfold is_num_char.
  by rewrite pretty_N_char_val by (by apply N.mod_lt).
Qed.

(** A printed integer holds digits and a sign only. *)
Lemma itoa_num c z : is_num_char c = false → has_char c (itoa z) = false.
Proof.
  intros Hc. apply not_true_is_false. intros H.
  assert (∀ x : N, has_char c (pretty x) = true → False) as HN.
  { intros x. unfold pretty, pretty_N. case_decide.
    - simpl. rewrite orb_false_r. intros <-%Ascii.eqb_eq. done.
    - intros [?|?]%pretty_N_go_num; simpl in *; congruence. }
  destruct z as [|p|p]; unfold itoa, pretty, pretty_Z in H.
  - simpl in H. rewrite orb_false_r in H. apply Ascii.eqb_eq in H as <-. done.
  - by apply (HN (Npos p)).
  - change (Ascii.eqb "-" c || has_char c (pretty (Npos p)) = true) in H.
    apply orb_true_iff in H as [H|H]; [|by apply (HN (Npos p))].
    by apply Ascii.eqb_eq in H as <-.
Qed.

#[export] Instance itoa_inj : Inj (=) (=) itoa := pretty_Z_inj.

Lemma parse_uint_loop_pretty (x : N) s :
  (Z.of_N x ≤ max_uint64)%Z →
  parse_uint_loop 0 (pretty_N_go x s) = parse_uint_loop (Z.of_N x) s.
Proof.
  revert s. induction (N.lt_wf_0 x) as [x _ IH]; intros s Hx.
  assert (x = 0 ∨ 0 < x)%N as [->|Hpos] by lia; [by rewrite pretty_N_go_0|].
  rewrite pretty_N_go_step by done.
  rewrite IH; [|by apply N.div_lt|].
  2:{ rewrite N2Z.inj_div. simpl. apply Z.div_le_upper_bound; lia. }
  simpl. rewrite pretty_N_char_val by (by apply N.mod_lt).
  rewrite N2Z.inj_div, N2Z.inj_mod by done. simpl (Z.of_N 10).
  unfold uint_cutoff, max_uint64 in *.
  pose proof (Z.div_mod (Z.of_N x) 10 ltac:(lia)) as Hdm.
  pose proof (Z.mod_pos_bound (Z.of_N x) 10 ltac:(lia)) as Hmb.
  assert (Z.of_N x `div` 10 < (2 ^ 64 - 1) `div` 10 + 1)%Z as Hc.
  { pose proof (Z.div_le_mono (Z.of_N x) (2 ^ 64 - 1) 10). lia. }
  rewrite (proj2 (Z.leb_gt _ _)) by done.
  replace (Z.of_N x `div` 10 * 10 + Z.of_N x `mod` 10)%Z with (Z.of_N x) by lia.
  rewrite (proj2 (Z.ltb_ge _ _)) by lia. done.
Qed.

Lemma parse_uint_pretty (x : N) :
  (Z.of_N x ≤ max_uint64)%Z → parse_uint (pretty x) = (Z.of_N x, None).
Proof.
  intros Hx. unfold pretty, pretty_N. case_decide; [by subst|].
  pose proof (parse_uint_loop_pretty x "" Hx) as H'. simpl in H'.
  unfold parse_uint. destruct (pretty_N_go x "") eqn:E; [|done].
  simpl in H'. injection H'. lia.
Qed.

(** [Atoi] reads back what [Itoa] prints, for every platform [int]. *)
Lemma atoi_itoa z : in_int64 z → atoi (itoa z) = (z, None).
Proof.
  unfold in_int64. intros Hz.
  assert (∀ p : positive, (Zpos p ≤ 2 ^ 63)%Z →
    parse_uint (pretty (Npos p)) = (Zpos p, None)) as HN.
  { intros p Hp. apply parse_uint_pretty. unfold max_uint64. lia. }
  destruct z as [|p|p]; [done| |].
  - pose proof (HN p ltac:(lia)) as Hp. unfold atoi.
    pose proof (itoa_num "+" (Zpos p) eq_refl) as Hplus.
    change (itoa (Zpos p)) with (pretty (Npos p)) in *.
    destruct (pretty (Npos p)) as [|c s] eqn:E; [done|].
    simpl in Hplus. apply orb_false_iff in Hplus as [-> _].
    destruct (Ascii.eqb c "-") eqn:Ec.
    { apply Ascii.eqb_eq in Ec as ->. done. }
    rewrite Hp. cbn -[Z.pow].
    rewrite (proj2 (Z.leb_gt _ _)) by lia. done.
  - pose proof (HN p ltac:(lia)) as Hp. unfold atoi, itoa.
    change (pretty (Zneg p)) with (String "-" (pretty (Npos p))).
    cbv beta iota. rewrite (Ascii.eqb_refl "-"). change (Ascii.eqb "-" "+") with false.
    cbv beta iota zeta. rewrite Hp. cbn -[Z.pow].
    rewrite (proj2 (Z.ltb_ge _ _)) by lia. done.
Qed.
