(* ===== verification/GoNet.v ===== *)
(** * IP addresses and the IPv4 prefix pattern

    [net.ParseIP] and [net.IP.String] as the Go standard library implements
    them (through [netip.ParseAddr] and RFC 5952 printing), and the regular
    expression [ip4Prefix] of src/internal/controller/utils.go, matched by a
    small backtracking matcher. *)
From S2P Require Import Prelude GoLib.
From Stdlib Require Import Ascii.
From Stdlib Require String.

(** ** Addresses *)

(** A [net.IP]: nil, or its sixteen bytes (IPv4 is stored as [::ffff:a.b.c.d],
    the form [net.ParseIP] returns). *)
Definition IP := option (list Z).

(** One decimal octet: digits only, no leading zero, at most 255. *)
Fixpoint octet_go (acc : Z) (s : string) : option Z :=
  match s with
  | EmptyString => Some acc
  | String c s' =>
      match digit_val c with
      | Some d => if (255 <? acc * 10 + d)%Z then None
                  else octet_go (acc * 10 + d) s'
      | None => None
      end
  end.
Definition octet (s : string) : option Z :=
  match s with
  | EmptyString => None
  | String c EmptyString => digit_val c
  | String c _ => if Ascii.eqb c "0" then None else octet_go 0 s
  end.

(** [netip.parseIPv4Fields] *)
Definition parse_ipv4_fields (s : string) : option (list Z) :=
  match split_on "." s with
  | [a; b; c; d] =>
      a ← octet a; b ← octet b; c ← octet c; d ← octet d; Some [a; b; c; d]
  | _ => None
  end.

Definition hex_val (c : ascii) : option Z :=
  let n := Z.of_nat (nat_of_ascii c) in
  if (48 <=? n)%Z && (n <=? 57)%Z then Some (n - 48)%Z
  else if (97 <=? n)%Z && (n <=? 102)%Z then Some (n - 87)%Z
  else if (65 <=? n)%Z && (n <=? 70)%Z then Some (n - 55)%Z
  else None.

(** The hexadecimal group at the start of [s]: its value, its number of digits
    and the rest; [None] when it has more than four digits. *)
Fixpoint hex_group (off : nat) (acc : Z) (s : string) : option (Z * nat * string) :=
  match s with
  | String c s' =>
      match hex_val c with
      | Some d => if (3 <? off)%nat then None
                  else hex_group (S off) (acc * 16 + d) s'
      | None => Some (acc, off, s)
      end
  | EmptyString => Some (acc, off, s)
  end.

(** The group loop of [netip.parseIPv6]; [bytes] holds what is parsed so far
    and [ell] the position of the ellipsis.  At most eight groups are read. *)
Fixpoint ipv6_loop (fuel : nat) (bytes : list Z) (ell : option nat) (s : string)
    : option (list Z * option nat) :=
  match fuel with
  | O => if String.eqb s "" then Some (bytes, ell) else None
  | S f =>
      if (16 <=? length bytes)%nat
      then (if String.eqb s "" then Some (bytes, ell) else None)
      else
      '(acc, off, rest) ← hex_group 0 0 s;
      if (off =? 0)%nat then None
      else match rest with
      | EmptyString => Some (bytes ++ [acc / 256; acc mod 256]%Z, ell)
      | String c rest' =>
          if Ascii.eqb c "." then
            if (match ell with None => true | Some _ => false end)
               && negb (length bytes =? 12)%nat then None
            else if (16 <? length bytes + 4)%nat then None
            else v4 ← parse_ipv4_fields s; Some (bytes ++ v4, ell)
          else if negb (Ascii.eqb c ":") then None
          else
            let bytes' := bytes ++ [acc / 256; acc mod 256]%Z in
            match rest' with
            | EmptyString => None
            | String c2 rest2 =>
                if Ascii.eqb c2 ":" then
                  match ell with
                  | Some _ => None
                  | None =>
                      if String.eqb rest2 "" then Some (bytes', Some (length bytes'))
                      else ipv6_loop f bytes' (Some (length bytes')) rest2
                  end
                else ipv6_loop f bytes' ell rest'
            end
      end
  end.

Definition parse_ipv6 (s : string) : option (list Z) :=
  '(bytes, ell) ←
    (if String.prefix "::" s then
       if String.eqb s "::" then Some ([], Some 0)
       else ipv6_loop 8 [] (Some 0) (drop_str 2 s)
     else ipv6_loop 8 [] None s);
  match ell with
  | Some e =>
      if (length bytes <? 16)%nat
      then Some (take e bytes ++ replicate (16 - length bytes) 0%Z ++ drop e bytes)
      else None
  | None => if (length bytes =? 16)%nat then Some bytes else None
  end.

(** The first of ['.'], [':'] and ['%'] in [s] decides the syntax; an address
    with a zone is refused by [net.ParseIP]. *)
Fixpoint addr_kind (s : string) : option bool :=
  match s with
  | EmptyString => None
  | String c s' =>
      if Ascii.eqb c "." then Some true
      else if Ascii.eqb c ":" then Some false
      else if Ascii.eqb c "%" then None
      else addr_kind s'
  end.

Definition v4_in_6 : list Z := [0;0;0;0;0;0;0;0;0;0;255;255]%Z.

(** [net.ParseIP] *)
Definition ParseIP (s : string) : IP :=
  match addr_kind s with
  | Some true => v4 ← parse_ipv4_fields s; Some (v4_in_6 ++ v4)
  | Some false => if has_char "%" s then None else parse_ipv6 s
  | None => None
  end.

Definition hex_digit (d : Z) : ascii :=
  ascii_of_nat (Z.to_nat (if (d <? 10)%Z then 48 + d else 87 + d)).
Definition hex16 (v : Z) : string :=
  let d3 := (v / 4096)%Z in let d2 := (v / 256 mod 16)%Z in
  let d1 := (v / 16 mod 16)%Z in let d0 := (v mod 16)%Z in
  (if (4096 <=? v)%Z then String (hex_digit d3) "" else "")
  +:+ (if (256 <=? v)%Z then String (hex_digit d2) "" else "")
  +:+ (if (16 <=? v)%Z then String (hex_digit d1) "" else "")
  +:+ String (hex_digit d0) "".

Fixpoint groups16 (l : list Z) : list Z :=
  match l with
  | a :: b :: l' => (a * 256 + b)%Z :: groups16 l'
  | _ => []
  end.

(** Length of the run of zero groups at the start *)
Fixpoint zero_run (l : list Z) : nat :=
  match l with
  | 0%Z :: l' => S (zero_run l')
  | _ => 0
  end.
(** First longest run of at least two zero groups: its start and end *)
Fixpoint best_run (i : nat) (l : list Z) (best : nat * nat) : nat * nat :=
  match l with
  | [] => best
  | _ :: l' =>
      let n := zero_run l in
      best_run (S i) l'
        (if (2 <=? n)%nat && (snd best - fst best <? n)%nat then (i, i + n) else best)
  end.
Fixpoint print_groups (i : nat) (zs ze : nat) (l : list Z) : string :=
  match l with
  | [] => ""
  | v :: l' =>
      if (zs <=? i)%nat && (i <? ze)%nat
      then (if (i =? zs)%nat then "::" else "") +:+ print_groups (S i) zs ze l'
      else (if (0 <? i)%nat && negb (i =? ze)%nat then ":" else "")
           +:+ hex16 v +:+ print_groups (S i) zs ze l'
  end.

(** [net.IP.String] *)
Definition IP_String (ip : IP) : string :=
  match ip with
  | None => "<nil>"
  | Some bytes =>
      if decide (take 12 bytes = v4_in_6)
      then join_str (itoa <$> drop 12 bytes) "."
      else let gs := groups16 bytes in
           let '(zs, ze) := best_run 0 gs (0, 0) in
           print_groups 0 zs ze gs
  end.

Example ip_v4 : IP_String (ParseIP "10.0.12.255") = "10.0.12.255".
Proof. vm_compute. reflexivity. Qed.
Example ip_v4_bad : ParseIP "10.0.012.255" = None ∧ ParseIP "10.0.256.1" = None ∧ ParseIP "10.0.1" = None.
Proof. vm_compute. done. Qed.
Example ip_v6 :
  IP_String (ParseIP "FE80:0:0:0:0202:B3FF:FE1E:8329") = "fe80::202:b3ff:fe1e:8329"
  ∧ IP_String (ParseIP "::1") = "::1" ∧ IP_String (ParseIP "::") = "::"
  ∧ IP_String (ParseIP "1:0:0:2:0:0:0:3") = "1:0:0:2::3"
  ∧ IP_String (ParseIP "::ffff:1.2.3.4") = "1.2.3.4"
  ∧ IP_String (ParseIP "2001:db8::") = "2001:db8::"
  ∧ ParseIP "1::2::3" = None ∧ ParseIP "fe80::1%eth0" = None
  ∧ ParseIP "1:2:3:4:5:6:7:8:9" = None ∧ ParseIP "1:2:3:4:5:6:7::8" = None.
Proof. vm_compute. repeat split. Qed.

(** ** Regular expressions

    Just enough of [regexp] for the one pattern of the operator: classes,
    sequence, alternation, option and counted repetition.  [rests r s] lists
    what can remain of [s] after a match of [r] at its start, so that
    [MatchString] of a pattern anchored by [^] is non-emptiness. *)
Inductive regex :=
| RClass (p : ascii → bool)
| RSeq (r1 r2 : regex)
| RAlt (r1 r2 : regex)
| ROpt (r : regex)
| RRep (n : nat) (r : regex).

Fixpoint iter_rests (f : string → list string) (n : nat) (s : string) : list string :=
  match n with
  | O => [s]
  | S n' => f s ≫= iter_rests f n'
  end.
Fixpoint rests (r : regex) (s : string) : list string :=
  match r with
  | RClass p => match s with
                | String c s' => if p c then [s'] else []
                | EmptyString => []
                end
  | RSeq r1 r2 => rests r1 s ≫= rests r2
  | RAlt r1 r2 => rests r1 s ++ rests r2 s
  | ROpt r => rests r s ++ [s]
  | RRep n r => iter_rests (rests r) n s
  end.
Definition match_start (r : regex) (s : string) : bool :=
  match rests r s with [] => false | _ => true end.

Definition RChar (c : ascii) : regex := RClass (λ a, Ascii.eqb a c).
Definition RRange (lo hi : ascii) : regex :=
  RClass (λ a, (nat_of_ascii lo <=? nat_of_ascii a)%nat
               && (nat_of_ascii a <=? nat_of_ascii hi)%nat).
