(* ===== verification/GoCrypto.v ===== *)
(** * crypto/sha256 and encoding/base64

    The two standard-library encoders the operator applies: SHA-256 (FIPS
    180-4) printed in hexadecimal, over 32-bit words held in [Z], and base64
    with the standard alphabet and padding.  Both are executable and checked on
    published test vectors. *)
From S2P Require Import Prelude.
From Stdlib Require Import Ascii.
From Stdlib Require String.

(** ** Base64 *)
Definition b64_alphabet : string :=
  "ABCDEFGHIJKLMNOPQRSTUVWXYZabcdefghijklmnopqrstuvwxyz0123456789+/".
Definition b64_char (v : Z) : string :=
  String.substring (Z.to_nat v) 1 b64_alphabet.

(** [base64.StdEncoding.EncodeToString] *)
Fixpoint base64_encode (bytes : list Z) : string :=
  match bytes with
  | [] => ""
  | [a] => b64_char (a / 4) +:+ b64_char (a mod 4 * 16) +:+ "=="
  | [a; b] =>
      b64_char (a / 4) +:+ b64_char (a mod 4 * 16 + b / 16)
      +:+ b64_char (b mod 16 * 4) +:+ "="
  | a :: b :: c :: rest =>
      b64_char (a / 4) +:+ b64_char (a mod 4 * 16 + b / 16)
      +:+ b64_char (b mod 16 * 4 + c / 64) +:+ b64_char (c mod 64)
      +:+ base64_encode rest
  end%Z.

(** ** SHA-256 *)
Definition w32 (z : Z) : Z := Z.land z 0xffffffff.
Definition rotr (n x : Z) : Z := Z.lor (Z.shiftr x n) (w32 (Z.shiftl x (32 - n))).

(** The constants, by their definition in FIPS 180-4: 32 bits after the point of
    the cube roots, and of the square roots, of the first primes. *)
Definition is_prime (n : nat) : bool :=
  forallb (λ d, negb (Nat.eqb (n mod d) 0)) (seq 2 (n - 2)).
Definition primes_below (n : nat) : list Z :=
  Z.of_nat <$> filter (λ k, is_prime k = true) (seq 2 (n - 2)).
(** The largest [r] below [2 ^ bits] whose cube is at most [z], bit by bit *)
Fixpoint cube_root (bits : nat) (r z : Z) : Z :=
  match bits with
  | O => r
  | S b =>
      let r' := (r + 2 ^ Z.of_nat b)%Z in
      cube_root b (if (r' ^ 3 <=? z)%Z then r' else r) z
  end.
Definition sha_k : list Z :=
  Eval vm_compute in (λ p, w32 (cube_root 36 0 (p * 2 ^ 96))) <$> primes_below 312.
Definition sha_h0 : list Z :=
  Eval vm_compute in (λ p, w32 (Z.sqrt (p * 2 ^ 64))) <$> primes_below 20.

(** The message schedule, newest word first: sixteen words of the block, then
    [n] more. *)
Fixpoint sha_schedule (n : nat) (ws : list Z) : list Z :=
  match n with
  | O => ws
  | S n' =>
      let w i := nth i ws 0%Z in
      let s0 := Z.lxor (Z.lxor (rotr 7 (w 14)) (rotr 18 (w 14))) (Z.shiftr (w 14) 3) in
      let s1 := Z.lxor (Z.lxor (rotr 17 (w 1)) (rotr 19 (w 1))) (Z.shiftr (w 1) 10) in
      sha_schedule n' (w32 (Z.add (Z.add (w 15) s0) (Z.add (w 6) s1)) :: ws)
  end.

Definition sha_round (st : list Z) (kw : Z * Z) : list Z :=
  match st with
  | [a; b; c; d; e; f; g; h] =>
      let s1 := Z.lxor (Z.lxor (rotr 6 e) (rotr 11 e)) (rotr 25 e) in
      let ch := Z.lxor (Z.land e f) (Z.land (Z.lxor e 0xffffffff) g) in
      let t1 := (h + s1 + ch + kw.1 + kw.2)%Z in
      let s0 := Z.lxor (Z.lxor (rotr 2 a) (rotr 13 a)) (rotr 22 a) in
      let maj := Z.lxor (Z.lxor (Z.land a b) (Z.land a c)) (Z.land b c) in
      [w32 (t1 + s0 + maj)%Z; a; b; c; w32 (d + t1)%Z; e; f; g]
  | _ => st
  end.

Fixpoint words_of (bytes : list Z) : list Z :=
  match bytes with
  | a :: b :: c :: d :: rest => (a * 16777216 + b * 65536 + c * 256 + d)%Z :: words_of rest
  | _ => []
  end.

Fixpoint sha_blocks (n : nat) (h : list Z) (words : list Z) : list Z :=
  match n with
  | O => h
  | S n' =>
      let ws := reverse (sha_schedule 48 (reverse (take 16 words))) in
      let h' := foldl sha_round h (zip sha_k ws) in
      sha_blocks n' (zip_with (λ x y, w32 (x + y)%Z) h h') (drop 16 words)
  end.

Definition be_bytes (n : nat) (v : Z) : list Z :=
  (λ i, Z.land (Z.shiftr v (8 * Z.of_nat i)) 255) <$> reverse (seq 0 n).

Fixpoint string_bytes (s : string) : list Z :=
  match s with
  | EmptyString => []
  | String c s' => Z.of_nat (nat_of_ascii c) :: string_bytes s'
  end.

(** [sha256.Sum256] *)
Definition sha256 (msg : list Z) : list Z :=
  let len := length msg in
  let pad := Nat.modulo (119 - Nat.modulo len 64) 64 in
  let m := msg ++ [0x80%Z] ++ replicate pad 0%Z ++ be_bytes 8 (8 * Z.of_nat len) in
  sha_blocks (Nat.div (length m) 64) sha_h0 (words_of m) ≫= be_bytes 4.

Definition hex_byte (b : Z) : string :=
  let d v := String (ascii_of_nat (Z.to_nat (if (v <? 10)%Z then 48 + v else 87 + v))) "" in
  d (b / 16)%Z +:+ d (b mod 16)%Z.

(** [fmt.Sprintf("%x", sha256.Sum256([]byte(s)))] *)
Definition sha256_hex (s : string) : string :=
  String.concat "" (hex_byte <$> sha256 (string_bytes s)).

Example sha256_abc :
  sha256_hex "abc" = "ba7816bf8f01cfea414140de5dae2223b00361a396177a9cb410ff61f20015ad"
  ∧ sha256_hex "" = "e3b0c44298fc1c149afbf4c8996fb92427ae41e4649b934ca495991b7852b855"
  ∧ sha256_hex "abcdbcdecdefdefgefghfghighijhijkijkljklmklmnlmnomnopnopq"
    = "248d6a61d20638b8e5c026930c3e6039a33ce45964ff2167f6ecedd419db06c1".
Proof. vm_compute. done. Qed.
Example base64_vectors :
  base64_encode (string_bytes "foobar") = "Zm9vYmFy"
  ∧ base64_encode (string_bytes "fooba") = "Zm9vYmE="
  ∧ base64_encode (string_bytes "foob") = "Zm9vYg==".
Proof. vm_compute. done. Qed.
