(* ===== verification/GoJson.v ===== *)
(** * encoding/json, decoding into flat structs

    [json.Unmarshal] as the operator uses it: the whole input is checked
    against the JSON grammar, then the members of a top-level object are stored
    into the fields they name.  Field names match exactly or up to case folding;
    unknown members are skipped, [null] leaves a scalar field alone, a member of
    the wrong type makes the call fail after the others are stored. *)
From S2P Require Import Prelude GoLib.
From Stdlib Require Import Ascii.
From Stdlib Require String.

Inductive json :=
| JNull
| JBool (b : bool)
| JNum (literal : string)
| JStr (s : string)
| JArr
| JObj (members : list (string * json)).

(** The outcome of a parser: a value and the rest of the input, a syntax error,
    or exhausted fuel (which [parse_json] never lets happen). *)
Inductive parsed (A : Type) := Parsed (a : A) (rest : string) | BadSyntax | NoFuel.
Arguments Parsed {A} a rest.
Arguments BadSyntax {A}.
Arguments NoFuel {A}.

Definition byte_val (c : ascii) : Z := Z.of_nat (nat_of_ascii c).
Definition byte_of (z : Z) : ascii := ascii_of_nat (Z.to_nat z).

Fixpoint skip_ws (s : string) : string :=
  match s with
  | String c s' =>
      if (byte_val c =? 32)%Z || (byte_val c =? 9)%Z || (byte_val c =? 10)%Z || (byte_val c =? 13)%Z
      then skip_ws s' else s
  | EmptyString => ""
  end.

(** ** Strings *)

Definition hexdig (c : ascii) : option Z :=
  let n := byte_val c in
  if (48 <=? n)%Z && (n <=? 57)%Z then Some (n - 48)%Z
  else if (97 <=? n)%Z && (n <=? 102)%Z then Some (n - 87)%Z
  else if (65 <=? n)%Z && (n <=? 70)%Z then Some (n - 55)%Z
  else None.

(** Four hexadecimal digits *)
Definition u4 (s : string) : option (Z * string) :=
  match s with
  | String a (String b (String c (String d s'))) =>
      a ← hexdig a; b ← hexdig b; c ← hexdig c; d ← hexdig d;
      Some (((a * 16 + b) * 16 + c) * 16 + d, s')%Z
  | _ => None
  end.

(** UTF-8 encoding of a rune *)
Definition utf8 (r : Z) : string :=
  let c z := String (byte_of z) "" in
  if (r <? 0x80)%Z then c r
  else if (r <? 0x800)%Z then c (0xC0 + r / 64)%Z +:+ c (0x80 + r mod 64)%Z
  else if (r <? 0x10000)%Z then
    c (0xE0 + r / 4096)%Z +:+ c (0x80 + r / 64 mod 64)%Z +:+ c (0x80 + r mod 64)%Z
  else c (0xF0 + r / 262144)%Z +:+ c (0x80 + r / 4096 mod 64)%Z
       +:+ c (0x80 + r / 64 mod 64)%Z +:+ c (0x80 + r mod 64)%Z.
Definition replacement : string := utf8 0xFFFD.
Definition is_surrogate (r : Z) : bool := (0xD800 <=? r)%Z && (r <=? 0xDFFF)%Z.

(** The length of the valid UTF-8 sequence at the start of [s], 0 if there is
    none *)
Definition utf8_len (s : string) : nat :=
  let cont c := (0x80 <=? byte_val c)%Z && (byte_val c <=? 0xBF)%Z in
  match s with
  | EmptyString => 0
  | String a s1 =>
      let x := byte_val a in
      if (x <? 0x80)%Z then 1
      else match s1 with
      | EmptyString => 0
      | String b s2 =>
          if (0xC2 <=? x)%Z && (x <=? 0xDF)%Z then (if cont b then 2 else 0)
          else match s2 with
          | EmptyString => 0
          | String c s3 =>
              let lo := if (x =? 0xE0)%Z then 0xA0%Z else if (x =? 0xF0)%Z then 0x90%Z else 0x80%Z in
              let hi := if (x =? 0xED)%Z then 0x9F%Z else if (x =? 0xF4)%Z then 0x8F%Z else 0xBF%Z in
              if negb ((lo <=? byte_val b)%Z && (byte_val b <=? hi)%Z) then 0
              else if (0xE0 <=? x)%Z && (x <=? 0xEF)%Z then (if cont c then 3 else 0)
              else if (0xF0 <=? x)%Z && (x <=? 0xF4)%Z then
                match s3 with
                | String d _ => if cont c && cont d then 4 else 0
                | EmptyString => 0
                end
              else 0
          end
      end
  end.

(** The rest of a string literal after its opening quote: the value decoded so
    far is [acc], reversed by pieces. *)
Fixpoint parse_string (fuel : nat) (acc : list string) (s : string) : parsed string :=
  match fuel with
  | O => NoFuel
  | S f =>
      match s with
      | EmptyString => BadSyntax
      | String c s' =>
          let x := byte_val c in
          if (x =? 34)%Z then Parsed (String.concat "" (reverse acc)) s'
          else if (x <? 32)%Z then BadSyntax
          else if negb (x =? 92)%Z then
            match utf8_len s with
            | O => parse_string f (replacement :: acc) s'
            | n => parse_string f (take_str n s :: acc) (drop_str n s)
            end
          else match s' with
          | EmptyString => BadSyntax
          | String e s'' =>
              let y := byte_val e in
              let lit z := parse_string f (String (byte_of z) "" :: acc) s'' in
              if (y =? 34)%Z || (y =? 92)%Z || (y =? 47)%Z then lit y
              else if (y =? 98)%Z then lit 8%Z
              else if (y =? 102)%Z then lit 12%Z
              else if (y =? 110)%Z then lit 10%Z
              else if (y =? 114)%Z then lit 13%Z
              else if (y =? 116)%Z then lit 9%Z
              else if (y =? 117)%Z then
                match u4 s'' with
                | None => BadSyntax
                | Some (r, rest) =>
                    if negb (is_surrogate r) then parse_string f (utf8 r :: acc) rest
                    else
                      match rest with
                      | String b1 (String b2 rest2) =>
                          match (if (byte_val b1 =? 92)%Z && (byte_val b2 =? 117)%Z
                                 then u4 rest2 else None) with
                          | Some (r2, rest3) =>
                              if (r <? 0xDC00)%Z && (0xDC00 <=? r2)%Z && (r2 <=? 0xDFFF)%Z
                              then parse_string f
                                     (utf8 ((r - 0xD800) * 1024 + (r2 - 0xDC00) + 0x10000)%Z :: acc)
                                     rest3
                              else parse_string f (replacement :: acc) rest
                          | None => parse_string f (replacement :: acc) rest
                          end
                      | _ => parse_string f (replacement :: acc) rest
                      end
                end
              else BadSyntax
          end
      end
  end.

(** ** Numbers *)
Definition is_digit (c : ascii) : bool :=
  match digit_val c with Some _ => true | None => false end.
Fixpoint span_digits (s : string) : string * string :=
  match s with
  | String c s' =>
      if is_digit c then let '(d, r) := span_digits s' in (String c d, r) else ("", s)
  | EmptyString => ("", "")
  end.

(** A number literal and what follows it *)
Definition parse_number (s : string) : parsed string :=
  let '(sign, s1) := match s with
                     | String c s' => if Ascii.eqb c "-" then ("-", s') else ("", s)
                     | EmptyString => ("", s)
                     end in
  let '(int, s2) := match s1 with
                    | String c s' => if Ascii.eqb c "0" then ("0", s') else span_digits s1
                    | EmptyString => ("", "")
                    end in
  if String.eqb int "" then BadSyntax
  else
    let '(frac, s3, ok) :=
      match s2 with
      | String c s' =>
          if Ascii.eqb c "." then
            let '(d, r) := span_digits s' in
            ("." +:+ d, r, negb (String.eqb d ""))
          else ("", s2, true)
      | EmptyString => ("", s2, true)
      end in
    if negb ok then BadSyntax
    else
      match s3 with
      | String c s' =>
          if Ascii.eqb c "e" || Ascii.eqb c "E" then
            let '(sg, s4) :=
              match s' with
              | String c' s'' => if Ascii.eqb c' "+" || Ascii.eqb c' "-"
                                 then (String c' "", s'') else ("", s')
              | EmptyString => ("", s')
              end in
            let '(d, r) := span_digits s4 in
            if String.eqb d "" then BadSyntax
            else Parsed (sign +:+ int +:+ frac +:+ String c "" +:+ sg +:+ d) r
          else Parsed (sign +:+ int +:+ frac) s3
      | EmptyString => Parsed (sign +:+ int +:+ frac) ""
      end.

(** ** Values *)
Definition expect (lit : string) (v : json) (s : string) : parsed json :=
  if String.prefix lit s then Parsed v (drop_str (String.length lit) s) else BadSyntax.

(** Elements of arrays are checked and dropped: no struct here has a slice. *)
Fixpoint parse_value (fuel : nat) (s : string) : parsed json :=
  match fuel with
  | O => NoFuel
  | S f =>
      let s := skip_ws s in
      match s with
      | EmptyString => BadSyntax
      | String c s' =>
          if Ascii.eqb c "{" then
            match skip_ws s' with
            | String "}" rest => Parsed (JObj []) rest
            | _ => parse_members f [] s'
            end
          else if Ascii.eqb c "[" then
            match skip_ws s' with
            | String "]" rest => Parsed JArr rest
            | _ => parse_elements f s'
            end
          else if (byte_val c =? 34)%Z then
            match parse_string f [] s' with
            | Parsed str rest => Parsed (JStr str) rest
            | BadSyntax => BadSyntax
            | NoFuel => NoFuel
            end
          else if Ascii.eqb c "t" then expect "true" (JBool true) s
          else if Ascii.eqb c "f" then expect "false" (JBool false) s
          else if Ascii.eqb c "n" then expect "null" JNull s
          else match parse_number s with
               | Parsed n rest => Parsed (JNum n) rest
               | BadSyntax => BadSyntax
               | NoFuel => NoFuel
               end
      end
  end
with parse_elements (fuel : nat) (s : string) : parsed json :=
  match fuel with
  | O => NoFuel
  | S f =>
      match parse_value f s with
      | Parsed _ rest =>
          match skip_ws rest with
          | String c rest' =>
              if Ascii.eqb c "," then parse_elements f rest'
              else if Ascii.eqb c "]" then Parsed JArr rest'
              else BadSyntax
          | EmptyString => BadSyntax
          end
      | other => other
      end
  end
with parse_members (fuel : nat) (acc : list (string * json)) (s : string) : parsed json :=
  match fuel with
  | O => NoFuel
  | S f =>
      match skip_ws s with
      | String q s' =>
          if negb (byte_val q =? 34)%Z then BadSyntax
          else match parse_string f [] s' with
          | BadSyntax => BadSyntax
          | NoFuel => NoFuel
          | Parsed key rest =>
              match skip_ws rest with
              | String c rest' =>
                  if negb (Ascii.eqb c ":") then BadSyntax
                  else match parse_value f rest' with
                  | Parsed v rest2 =>
                      match skip_ws rest2 with
                      | String c2 rest3 =>
                          if Ascii.eqb c2 "," then parse_members f (acc ++ [(key, v)]) rest3
                          else if Ascii.eqb c2 "}" then Parsed (JObj (acc ++ [(key, v)])) rest3
                          else BadSyntax
                      | EmptyString => BadSyntax
                      end
                  | other => other
                  end
              | EmptyString => BadSyntax
              end
          end
      | EmptyString => BadSyntax
      end
  end.

(** One value and nothing but white space after it.  A call of [parse_value]
    and one of its helpers together read at least one byte, so twice the length
    is enough fuel. *)
Definition parse_json (s : string) : option json :=
  match parse_value (2 * String.length s + 2) s with
  | Parsed v rest => if String.eqb (skip_ws rest) "" then Some v else None
  | _ => None
  end.

(** ** Storing into a struct *)

(** [foldName]: ASCII letters to upper case, and the two other runes that fold
    to a letter. *)
Fixpoint fold_name (s : string) : string :=
  match s with
  | EmptyString => ""
  | String a s1 =>
      let up c := let x := byte_val c in
                  if (97 <=? x)%Z && (x <=? 122)%Z then byte_of (x - 32) else c in
      match s1 with
      | String b s2 =>
          if (byte_val a =? 0xC5)%Z && (byte_val b =? 0xBF)%Z
          then String "S" (fold_name s2)
          else match s2 with
               | String c s3 =>
                   if (byte_val a =? 0xE2)%Z && (byte_val b =? 0x84)%Z && (byte_val c =? 0xAA)%Z
                   then String "K" (fold_name s3)
                   else String (up a) (fold_name s1)
               | EmptyString => String (up a) (fold_name s1)
               end
      | EmptyString => String (up a) ""
      end
  end.

(** The fields of a struct: a name and how a value is stored ([None] for a value
    of the wrong type) *)
Definition fields (A : Type) := list (string * (json → A → option A)).

Definition find_field {A} (fs : fields A) (key : string) : option (json → A → option A) :=
  match list_find (λ f, f.1 = key) fs with
  | Some (_, f) => Some f.2
  | None => (λ p, p.2.2) <$> list_find (λ f, fold_name f.1 = fold_name key) fs
  end.

(** The struct after all the members, and whether a type error occurred *)
Fixpoint store {A} (fs : fields A) (ms : list (string * json)) (a : A) (bad : bool) : A * bool :=
  match ms with
  | [] => (a, bad)
  | (key, v) :: ms' =>
      match find_field fs key with
      | None => store fs ms' a bad
      | Some set =>
          match set v a with
          | Some a' => store fs ms' a' bad
          | None => store fs ms' a true
          end
      end
  end.

(** [json.Unmarshal(data, &v)] with [v] zero: the struct when the error is nil *)
Definition unmarshal {A} (fs : fields A) (zero : A) (data : string) : option A :=
  match parse_json data with
  | Some (JObj ms) =>
      match store fs ms zero false with
      | (a, false) => Some a
      | (_, true) => None
      end
  | Some JNull => Some zero
  | _ => None
  end.

(** Field types *)
Definition int_field {A} (set : Z → A → A) : json → A → option A := λ v a,
  match v with
  | JNull => Some a
  | JNum lit => match atoi lit with (n, None) => Some (set n a) | _ => None end
  | _ => None
  end.
Definition string_field {A} (set : string → A → A) : json → A → option A := λ v a,
  match v with JNull => Some a | JStr s => Some (set s a) | _ => None end.
Definition bool_field {A} (set : bool → A → A) : json → A → option A := λ v a,
  match v with JNull => Some a | JBool b => Some (set b a) | _ => None end.
Definition string_ptr_field {A} (set : option string → A → A) : json → A → option A := λ v a,
  match v with JNull => Some (set None a) | JStr s => Some (set (Some s) a) | _ => None end.
