(* ===== verification/K8s.v ===== *)
(** * The Kubernetes objects the operator reads and writes

    The types of k8s.io/api, the Gateway API and the Prometheus operator, cut
    down to the fields the sources mention.  They are third-party data types:
    a field the operator never looks into is kept in a [Rest] component that is
    only copied and compared.  [Quantity] and [Rest] are parameters, as is the
    parser of quantities; maps are [gmap]s, so a nil map and an empty one
    coincide, which is also how [equality.Semantic.DeepEqual] sees them, and so
    do nil and empty slices unless the code distinguishes them (then the field
    is an [option]). *)
From S2P Require Import Prelude.

(** Third-party types that are opaque to the operator.  [Quantity] stands for
    quantities up to numeric value, as [Semantic.DeepEqual] compares them. *)
Class K8s := {
  Quantity : Type;
  Quantity_eq_dec :: EqDecision Quantity;
  MustParse : string → Quantity;
  Rest : Type;
  Rest_eq_dec :: EqDecision Rest;
  rest_zero : Rest;
}.

(** [equality.Semantic.DeepEqual] on the values of this model *)
Definition DeepEqual {A} `{EqDecision A} (x y : A) : bool := bool_decide (x = y).

Abbreviation smap := (gmap string string).
(** [m[k]] for a map of strings: the empty string when absent *)
Definition map_get (m : smap) (k : string) : string := default "" (m !! k).

(** ** Metadata *)
Record ObjectKey := { key_Namespace : string; key_Name : string }.
#[export] Instance ObjectKey_eq_dec : EqDecision ObjectKey.
Proof. solve_decision. Defined.

Record OwnerReference := { or_Kind : string; or_Name : string; or_Controller : bool }.

Record ObjectMeta := {
  om_Name : string;
  om_Namespace : string;
  om_Labels : smap;
  om_Annotations : smap;
  om_OwnerReferences : list OwnerReference;
  om_DeletionTimestamp : option string;
  om_Generation : Z;
}.
Definition meta_zero : ObjectMeta :=
  {| om_Name := ""; om_Namespace := ""; om_Labels := ∅; om_Annotations := ∅;
     om_OwnerReferences := []; om_DeletionTimestamp := None; om_Generation := 0 |}.

(** [client.ObjectKeyFromObject] *)
Definition key_of (m : ObjectMeta) : ObjectKey :=
  {| key_Namespace := om_Namespace m; key_Name := om_Name m |}.

(** Assignments [o.Annotations = a] *)
Definition set_om_Annotations (a : smap) (m : ObjectMeta) : ObjectMeta :=
  {| om_Name := om_Name m; om_Namespace := om_Namespace m;
     om_Labels := om_Labels m; om_Annotations := a;
     om_OwnerReferences := om_OwnerReferences m;
     om_DeletionTimestamp := om_DeletionTimestamp m;
     om_Generation := om_Generation m |}.
Definition set_om_Labels (l : smap) (m : ObjectMeta) : ObjectMeta :=
  {| om_Name := om_Name m; om_Namespace := om_Namespace m;
     om_Labels := l; om_Annotations := om_Annotations m;
     om_OwnerReferences := om_OwnerReferences m;
     om_DeletionTimestamp := om_DeletionTimestamp m;
     om_Generation := om_Generation m |}.

(** [metav1.Condition] *)
Record Condition := {
  c_Type : string; c_Status : string; c_Reason : string; c_Message : string;
  c_LastTransitionTime : string;
}.
(** A literal [metav1.Condition{Type:, Status:, Reason:, Message:}] *)
Definition mk_condition (type status reason message : string) : Condition :=
  {| c_Type := type; c_Status := status; c_Reason := reason;
     c_Message := message; c_LastTransitionTime := "" |}.

(** ** Configuration objects *)
Record Secret := {
  sec_meta : ObjectMeta; sec_Type : string; sec_Immutable : option bool;
  sec_Data : smap;
}.
Record ConfigMap := { cm_meta : ObjectMeta; cm_Data : smap }.
Definition set_cm_Data (d : smap) (cm : ConfigMap) : ConfigMap :=
  {| cm_meta := cm_meta cm; cm_Data := d |}.
Definition set_cm_meta (m : ObjectMeta) (cm : ConfigMap) : ConfigMap :=
  {| cm_meta := m; cm_Data := cm_Data cm |}.
Definition cm_zero : ConfigMap := {| cm_meta := meta_zero; cm_Data := ∅ |}.

(** ** Networking objects *)
Record ServicePort := {
  sp_Name : string; sp_Protocol : string; sp_Port : Z; sp_TargetPort : Z;
}.
Record Service := {
  svc_meta : ObjectMeta; svc_Type : string; svc_ClusterIP : string;
  svc_PublishNotReadyAddresses : bool; svc_Selector : smap;
  svc_Ports : list ServicePort;
}.

Record Endpoint := {
  ep_Addresses : list string;
  ep_TargetRef : option string; (** the [Kind] of the referenced object *)
}.
Record EndpointSlice := { eps_meta : ObjectMeta; eps_Endpoints : list Endpoint }.

Record IngressPath := {
  ip_Path : string; ip_PathType : option string;
  ip_BackendService : string; ip_BackendPort : Z;
}.
Record IngressRule := { ir_Host : string; ir_Paths : option (list IngressPath) }.
Record IngressTLS := { tls_Hosts : list string; tls_SecretName : string }.
Record Ingress := {
  ing_meta : ObjectMeta; ing_IngressClassName : option string;
  ing_TLS : list IngressTLS; ing_Rules : list IngressRule;
}.

Record ParentReference := {
  pr_Group : option string; pr_Kind : option string;
  pr_Namespace : option string; pr_Name : string;
  pr_SectionName : option string;
}.
#[export] Instance ParentReference_eq_dec : EqDecision ParentReference.
Proof. solve_decision. Defined.
Record HTTPPathMatch := { pm_Type : option string; pm_Value : option string }.
Record HTTPBackendRef := {
  br_Group : option string; br_Kind : option string; br_Name : string;
  br_Namespace : option string; br_Port : option Z; br_Weight : option Z;
}.
Record HTTPRouteRule := {
  rr_Matches : list (option HTTPPathMatch); (** the [Path] of each match *)
  rr_BackendRefs : list HTTPBackendRef;
}.
Record HTTPRoute := {
  hr_meta : ObjectMeta; hr_ParentRefs : list ParentReference;
  hr_Hostnames : list string; hr_Rules : list HTTPRouteRule;
}.
Record ReferenceGrantFrom := { rgf_Group : string; rgf_Kind : string; rgf_Namespace : string }.
Record ReferenceGrantTo := { rgt_Group : string; rgt_Kind : string; rgt_Name : option string }.
Record ReferenceGrant := {
  rg_meta : ObjectMeta; rg_From : list ReferenceGrantFrom; rg_To : list ReferenceGrantTo;
}.

Record PodMetricsEndpoint := {
  pme_Port : string; pme_Path : string; pme_Interval : string; pme_Scheme : string;
}.
Record PodMonitor := {
  pmon_meta : ObjectMeta; pmon_Selector : smap; pmon_MatchNames : list string;
  pmon_Endpoints : list PodMetricsEndpoint;
}.

(** ** Pods *)
Record PodCondition := {
  pc_Type : string; pc_Status : string; pc_Reason : string; pc_Message : string;
}.
Record Pod := {
  pod_meta : ObjectMeta; pod_Phase : string; pod_PodIP : string;
  pod_Conditions : list PodCondition;
}.
Definition set_pod_meta (m : ObjectMeta) (p : Pod) : Pod :=
  {| pod_meta := m; pod_Phase := pod_Phase p; pod_PodIP := pod_PodIP p;
     pod_Conditions := pod_Conditions p |}.
Definition set_pod_Conditions (c : list PodCondition) (p : Pod) : Pod :=
  {| pod_meta := pod_meta p; pod_Phase := pod_Phase p; pod_PodIP := pod_PodIP p;
     pod_Conditions := c |}.

Inductive EnvValueFrom :=
| SecretKeyRef (name key : string)
| FieldRef (path : string).
Record EnvVar := { ev_Name : string; ev_Value : string; ev_ValueFrom : option EnvValueFrom }.
Definition env (name value : string) : EnvVar :=
  {| ev_Name := name; ev_Value := value; ev_ValueFrom := None |}.
Definition env_from (name : string) (f : EnvValueFrom) : EnvVar :=
  {| ev_Name := name; ev_Value := ""; ev_ValueFrom := Some f |}.
Record EnvFromSource := { efs_ConfigMapRef : option string; efs_SecretRef : option string }.

Record ContainerPort := { cp_Name : string; cp_ContainerPort : Z }.

Section Pods.
Context `{K : K8s}.

Record ResourceRequirements := {
  rq_Limits : gmap string Quantity; rq_Requests : gmap string Quantity; rq_rest : Rest;
}.
#[export] Instance ResourceRequirements_eq_dec : EqDecision ResourceRequirements.
Proof. solve_decision. Defined.

Record SecurityContext := { sc_ReadOnlyRootFilesystem : option bool; sc_rest : Rest }.
#[export] Instance SecurityContext_eq_dec : EqDecision SecurityContext.
Proof. solve_decision. Defined.

Record PodSecurityContext := {
  psc_RunAsUser : option Z; psc_FSGroup : option Z; psc_RunAsGroup : option Z;
  psc_RunAsNonRoot : option bool; psc_rest : Rest;
}.
#[export] Instance PodSecurityContext_eq_dec : EqDecision PodSecurityContext.
Proof. solve_decision. Defined.

Record ConfigMapVolumeSource := {
  cmv_Name : string; cmv_DefaultMode : option Z; cmv_rest : Rest;
}.
#[export] Instance ConfigMapVolumeSource_eq_dec : EqDecision ConfigMapVolumeSource.
Proof. solve_decision. Defined.

Record Volume := {
  vol_Name : string; vol_ConfigMap : option ConfigMapVolumeSource;
  vol_PersistentVolumeClaim : option string; vol_rest : Rest;
}.
#[export] Instance Volume_eq_dec : EqDecision Volume.
Proof. solve_decision. Defined.

Record VolumeMount := {
  vm_Name : string; vm_MountPath : string; vm_SubPath : string;
  vm_ReadOnly : bool; vm_rest : Rest;
}.
#[export] Instance VolumeMount_eq_dec : EqDecision VolumeMount.
Proof. solve_decision. Defined.

Record LabelSelector := { ls_MatchLabels : smap; ls_MatchExpressions : Rest }.
(** A literal [&metav1.LabelSelector{MatchLabels: m}] *)
Definition match_labels (m : smap) : LabelSelector :=
  {| ls_MatchLabels := m; ls_MatchExpressions := rest_zero |}.

Record TopologySpreadConstraint := {
  tsc_LabelSelector : option LabelSelector; tsc_rest : Rest;
}.

Record Container := {
  ct_Name : string; ct_Image : string; ct_ImagePullPolicy : string;
  ct_SecurityContext : option SecurityContext;
  ct_Ports : list ContainerPort; ct_Env : list EnvVar; ct_EnvFrom : list EnvFromSource;
  ct_Resources : ResourceRequirements; ct_VolumeMounts : list VolumeMount;
}.

Record PodSpec := {
  ps_SecurityContext : option PodSecurityContext;
  ps_TerminationGracePeriodSeconds : option Z;
  ps_ReadinessGates : list string;
  ps_PriorityClassName : string;
  ps_ImagePullSecrets : list string;
  ps_RestartPolicy : string;
  ps_Containers : list Container;
  ps_Affinity : option Rest;
  ps_NodeSelector : smap;
  ps_Tolerations : list Rest;
  ps_TopologySpreadConstraints : list TopologySpreadConstraint;
  ps_Volumes : list Volume;
}.
Record PodTemplateSpec := { pt_meta : ObjectMeta; pt_Spec : PodSpec }.
Definition set_pt_meta (m : ObjectMeta) (t : PodTemplateSpec) : PodTemplateSpec :=
  {| pt_meta := m; pt_Spec := pt_Spec t |}.

(** ** Workloads *)
Record PersistentVolumeClaim := {
  pvc_meta : ObjectMeta; pvc_AccessModes : list string;
  pvc_Requests : gmap string Quantity; pvc_StorageClassName : option string;
}.
Record StatefulSetSpec := {
  ss_ServiceName : string;
  ss_PodManagementPolicy : string;
  ss_Replicas : option Z;
  ss_Selector : option LabelSelector;
  ss_Template : PodTemplateSpec;
  ss_VolumeClaimTemplates : list PersistentVolumeClaim;
}.
Record StatefulSetStatus := { st_Replicas : Z; st_ReadyReplicas : Z }.
Record StatefulSet := {
  sts_meta : ObjectMeta; sts_Spec : StatefulSetSpec; sts_Status : StatefulSetStatus;
}.
Definition set_ss_Replicas (r : option Z) (s : StatefulSetSpec) : StatefulSetSpec :=
  {| ss_ServiceName := ss_ServiceName s; ss_PodManagementPolicy := ss_PodManagementPolicy s;
     ss_Replicas := r; ss_Selector := ss_Selector s; ss_Template := ss_Template s;
     ss_VolumeClaimTemplates := ss_VolumeClaimTemplates s |}.
Definition set_ss_Template (t : PodTemplateSpec) (s : StatefulSetSpec) : StatefulSetSpec :=
  {| ss_ServiceName := ss_ServiceName s; ss_PodManagementPolicy := ss_PodManagementPolicy s;
     ss_Replicas := ss_Replicas s; ss_Selector := ss_Selector s; ss_Template := t;
     ss_VolumeClaimTemplates := ss_VolumeClaimTemplates s |}.
Definition set_sts_Spec (s : StatefulSetSpec) (x : StatefulSet) : StatefulSet :=
  {| sts_meta := sts_meta x; sts_Spec := s; sts_Status := sts_Status x |}.
Definition set_sts_meta (m : ObjectMeta) (x : StatefulSet) : StatefulSet :=
  {| sts_meta := m; sts_Spec := sts_Spec x; sts_Status := sts_Status x |}.
(** [sts.Spec.Template.Annotations] and its assignment *)
Definition template_annotations (x : StatefulSet) : smap :=
  om_Annotations (pt_meta (ss_Template (sts_Spec x))).
Definition set_template_annotations (a : smap) (x : StatefulSet) : StatefulSet :=
  set_sts_Spec
    (set_ss_Template
       (set_pt_meta (set_om_Annotations a (pt_meta (ss_Template (sts_Spec x))))
          (ss_Template (sts_Spec x)))
       (sts_Spec x)) x.

Record Deployment := {
  dep_meta : ObjectMeta; dep_Replicas : option Z; dep_Selector : option LabelSelector;
  dep_Template : PodTemplateSpec;
}.
Record CronJob := {
  cj_meta : ObjectMeta; cj_ConcurrencyPolicy : string;
  cj_SuccessfulJobsHistoryLimit : option Z; cj_FailedJobsHistoryLimit : option Z;
  cj_Schedule : string; cj_BackoffLimit : option Z; cj_Template : PodTemplateSpec;
}.
End Pods.
