(* ===== verification/Api.v ===== *)
(** * The custom resource (src/api/v1alpha1)

    [TypesenseCluster], its specification and status, field by field, and the
    accessor methods of the specification, which fill in a default when an
    optional part is absent. *)
From S2P Require Import Prelude K8s.

(** ** Specification types *)

Record GatewayParentRef := {
  gp_Name : string; gp_Namespace : option string; gp_SectionName : option string;
}.

Record HttpRouteSpec := {
  hs_Enabled : bool;
  hs_Name : string;
  hs_ParentRef : GatewayParentRef;
  hs_Hostnames : list string;
  hs_Path : string;
  hs_PathType : option string;
  hs_Labels : smap;
  hs_Annotations : smap;
  hs_ReferenceGrant : option bool;
}.

Record DocSearchScraperSpec := {
  ds_Name : string; ds_Image : string; ds_Config : string; ds_Schedule : string;
  ds_AuthConfiguration : option string; (** the [Name] of the reference *)
}.

(** [GetScraperAuthConfiguration] *)
Definition GetScraperAuthConfiguration (s : DocSearchScraperSpec) : list EnvFromSource :=
  match ds_AuthConfiguration s with
  | Some name => [{| efs_ConfigMapRef := None; efs_SecretRef := Some name |}]
  | None => []
  end.

Section Types.
Context `{K : K8s}.

Record ReadOnlyRootFilesystemSpec := {
  ro_SecurityContext : option SecurityContext;
  ro_Volumes : list Volume;
  ro_VolumeMounts : list VolumeMount;
}.

Record IngressSpec := {
  is_Referer : option string;
  is_Host : string;
  is_HttpDirectives : option string;
  is_ServerDirectives : option string;
  is_LocationDirectives : option string;
  is_ClusterIssuer : option string;
  is_IngressClassName : string;
  is_ServiceAnnotations : smap;
  is_Annotations : smap;
  is_TLSSecretName : option string;
  is_Resources : option ResourceRequirements;
  is_Image : string;
  is_ReadOnlyRootFilesystem : option ReadOnlyRootFilesystemSpec;
  is_Path : string;
  is_PathType : option string;
}.

Record MetricsExporterSpec := {
  me_Release : string;
  me_Image : string;
  me_IntervalInSeconds : Z;
  me_Resources : option ResourceRequirements;
  me_LogLevel : Z;
}.

Record HealthCheckSpec := {
  hc_Image : string;
  hc_Resources : option ResourceRequirements;
  hc_LogLevel : Z;
}.

Record SecurityContextSpec := {
  scs_PodSecurityContext : option PodSecurityContext;
  scs_TypesenseSecurityContext : option SecurityContext;
  scs_HealthcheckSecurityContext : option SecurityContext;
  scs_MetricsSecurityContext : option SecurityContext;
}.

Record StorageSpec := {
  sto_Size : Quantity;
  sto_StorageClassName : string;
  sto_AccessMode : string;
  sto_Annotations : smap;
}.

(** [HttpRoutes] and [Scrapers] are options: the code tells a nil slice from an
    empty one.  References are the [Name] they carry. *)
Record TypesenseClusterSpec := {
  Image : string;
  ImagePullSecrets : list string;
  AdminApiKey : option string;
  Replicas : Z;
  ApiPort : Z;
  PeeringPort : Z;
  HealthProbeTimeoutInMilliseconds : Z;
  ResetPeersOnError : bool;
  EnableCors : bool;
  CorsDomains : option string;
  ForceResetPeersConfigOnUpdate : bool;
  Resources : option ResourceRequirements;
  Affinity : option Rest;
  NodeSelector : smap;
  Tolerations : list Rest;
  AdditionalServerConfiguration : option string;
  ServiceAnnotations : smap;
  StatefulSetAnnotations : smap;
  PodAnnotations : smap;
  PodsInheritStatefulSetAnnotations : bool;
  Storage : option StorageSpec;
  IngressOf : option IngressSpec;
  HttpRoutes : option (list HttpRouteSpec);
  Scrapers : option (list DocSearchScraperSpec);
  Metrics : option MetricsExporterSpec;
  HealthCheck : option HealthCheckSpec;
  TopologySpreadConstraints : list TopologySpreadConstraint;
  PriorityClassName : option string;
  SecurityContextOf : option SecurityContextSpec;
  IgnoreAnnotationsFromExternalMutations : list string;
  IncrementalQuorumRecovery : bool;
  PodManagementPolicy : option string;
  TerminationGracePeriodSeconds : option Z;
}.

Record TypesenseClusterStatus := { Conditions : list Condition; Phase : string }.

Record TypesenseCluster := {
  ts_meta : ObjectMeta;
  Spec : TypesenseClusterSpec;
  Status : TypesenseClusterStatus;
}.
Definition ts_Name (ts : TypesenseCluster) : string := om_Name (ts_meta ts).
Definition ts_Namespace (ts : TypesenseCluster) : string := om_Namespace (ts_meta ts).
Definition set_Status (st : TypesenseClusterStatus) (ts : TypesenseCluster) : TypesenseCluster :=
  {| ts_meta := ts_meta ts; Spec := Spec ts; Status := st |}.

(** Assignments to [ts.Spec.Ingress] and [ts.Spec] *)
Definition set_IngressOf (i : option IngressSpec) (s : TypesenseClusterSpec)
    : TypesenseClusterSpec :=
  {| Image := Image s;
     ImagePullSecrets := ImagePullSecrets s;
     AdminApiKey := AdminApiKey s;
     Replicas := Replicas s;
     ApiPort := ApiPort s;
     PeeringPort := PeeringPort s;
     HealthProbeTimeoutInMilliseconds := HealthProbeTimeoutInMilliseconds s;
     ResetPeersOnError := ResetPeersOnError s;
     EnableCors := EnableCors s;
     CorsDomains := CorsDomains s;
     ForceResetPeersConfigOnUpdate := ForceResetPeersConfigOnUpdate s;
     Resources := Resources s;
     Affinity := Affinity s;
     NodeSelector := NodeSelector s;
     Tolerations := Tolerations s;
     AdditionalServerConfiguration := AdditionalServerConfiguration s;
     ServiceAnnotations := ServiceAnnotations s;
     StatefulSetAnnotations := StatefulSetAnnotations s;
     PodAnnotations := PodAnnotations s;
     PodsInheritStatefulSetAnnotations := PodsInheritStatefulSetAnnotations s;
     Storage := Storage s;
     IngressOf := i;
     HttpRoutes := HttpRoutes s;
     Scrapers := Scrapers s;
     Metrics := Metrics s;
     HealthCheck := HealthCheck s;
     TopologySpreadConstraints := TopologySpreadConstraints s;
     PriorityClassName := PriorityClassName s;
     SecurityContextOf := SecurityContextOf s;
     IgnoreAnnotationsFromExternalMutations := IgnoreAnnotationsFromExternalMutations s;
     IncrementalQuorumRecovery := IncrementalQuorumRecovery s;
     PodManagementPolicy := PodManagementPolicy s;
     TerminationGracePeriodSeconds := TerminationGracePeriodSeconds s |}.
Definition set_Spec (s : TypesenseClusterSpec) (ts : TypesenseCluster) : TypesenseCluster :=
  {| ts_meta := ts_meta ts; Spec := s; Status := Status ts |}.

(** ** Accessors *)

(** A [ResourceRequirements] literal with CPU and memory limits and requests *)
Definition cpu_memory (lcpu lmem rcpu rmem : string) : ResourceRequirements :=
  {| rq_Limits := <["cpu" := MustParse lcpu]> {["memory" := MustParse lmem]};
     rq_Requests := <["cpu" := MustParse rcpu]> {["memory" := MustParse rmem]};
     rq_rest := rest_zero |}.

Definition GetResources (s : TypesenseClusterSpec) : ResourceRequirements :=
  match Resources s with
  | Some r => r
  | None => cpu_memory "1000m" "512Mi" "100m" "256Mi"
  end.

Definition GetAdditionalServerConfiguration (s : TypesenseClusterSpec) : list EnvFromSource :=
  match AdditionalServerConfiguration s with
  | Some name => [{| efs_ConfigMapRef := Some name; efs_SecretRef := None |}]
  | None => []
  end.

Definition GetCorsDomains (s : TypesenseClusterSpec) : string :=
  match CorsDomains s with None => "" | Some d => d end.

(** The range variable is a copy, so the constraints of the specification keep
    their own selector. *)
Definition GetTopologySpreadConstraints (s : TypesenseClusterSpec) (labels : smap)
    : list TopologySpreadConstraint :=
  (λ tsc, match tsc_LabelSelector tsc with
          | None => {| tsc_LabelSelector := Some (match_labels labels);
                       tsc_rest := tsc_rest tsc |}
          | Some _ => tsc
          end) <$> TopologySpreadConstraints s.

Definition GetPodManagementPolicy (s : TypesenseClusterSpec) : string :=
  match PodManagementPolicy s with Some p => p | None => "Parallel" end.

Definition GetTerminationGracePeriodSeconds (s : TypesenseClusterSpec) : Z :=
  match TerminationGracePeriodSeconds s with Some n => n | None => 5 end.

Definition GetReverseProxyResources (s : IngressSpec) : ResourceRequirements :=
  match is_Resources s with
  | Some r => r
  | None => cpu_memory "150m" "64Mi" "100m" "32Mi"
  end.

Definition GetMetricsExporterSpecs (s : TypesenseClusterSpec) : MetricsExporterSpec :=
  match Metrics s with
  | Some m => m
  | None =>
      {| me_Release := "promstack";
         me_Image := "quay.io/akyriako/typesense-prometheus-exporter:0.1.9";
         me_IntervalInSeconds := 15; me_Resources := None; me_LogLevel := 0 |}
  end.

Definition GetMetricsExporterResources (s : TypesenseClusterSpec) : ResourceRequirements :=
  match Metrics s with
  | Some {| me_Resources := Some r |} => r
  | _ => cpu_memory "100m" "64Mi" "100m" "32Mi"
  end.

Definition GetHealthCheckSidecarSpecs (s : TypesenseClusterSpec) : HealthCheckSpec :=
  match HealthCheck s with
  | Some h => h
  | None =>
      {| hc_Image := "quay.io/akyriako/typesense-healthcheck:0.1.8";
         hc_Resources := None; hc_LogLevel := 0 |}
  end.

Definition GetHealthCheckSidecarResources (s : TypesenseClusterSpec) : ResourceRequirements :=
  match HealthCheck s with
  | Some {| hc_Resources := Some r |} => r
  | _ => cpu_memory "100m" "64Mi" "100m" "32Mi"
  end.

Definition GetPodSecurityContext (s : TypesenseClusterSpec) : option PodSecurityContext :=
  match SecurityContextOf s with
  | Some {| scs_PodSecurityContext := Some c |} => Some c
  | _ => Some {| psc_RunAsUser := Some 10000%Z; psc_FSGroup := Some 2000%Z;
                 psc_RunAsGroup := Some 3000%Z; psc_RunAsNonRoot := Some true;
                 psc_rest := rest_zero |}
  end.

Definition GetTypesenseSecurityContext (s : TypesenseClusterSpec) : option SecurityContext :=
  match SecurityContextOf s with
  | None => None
  | Some c => scs_TypesenseSecurityContext c
  end.

Definition GetHealthcheckSecurityContext (s : TypesenseClusterSpec) : option SecurityContext :=
  match SecurityContextOf s with
  | None => None
  | Some c => scs_HealthcheckSecurityContext c
  end.

Definition GetMetricsSecurityContext (s : TypesenseClusterSpec) : option SecurityContext :=
  match SecurityContextOf s with
  | None => None
  | Some c => scs_MetricsSecurityContext c
  end.

Definition GetStorage (s : TypesenseClusterSpec) : StorageSpec :=
  match Storage s with
  | Some st => st
  | None =>
      {| sto_Size := MustParse "100Mi"; sto_StorageClassName := "standard";
         sto_AccessMode := "ReadWriteOnce"; sto_Annotations := ∅ |}
  end.
End Types.
