(* ===== verification/Effects.v ===== *)
(** * Effects: calls to the outside, programs, executions

    The operator runs against services it does not control: the Kubernetes API
    server, the discovery endpoint, the Typesense nodes' HTTP interface, the
    clock.  A handler is modelled as a [prog]: a tree whose nodes are the calls
    it makes, each with a continuation for every possible answer.  The answers
    are not fixed by the model, so a statement about every execution of a
    handler ([exec], [wlp]) holds for any behaviour of those services,
    failures and concurrent changes included.  [run] executes a program
    against a concrete environment. *)
From S2P Require Import Prelude K8s Api.

(** ** Go errors *)
Inductive StatusReason := NotFound | AlreadyExists | Conflict | OtherReason.

(** A Go [error]: an API status, a message ([errors.New], [fmt.Errorf]), a
    wrapped error ([fmt.Errorf("m: %w", err)], [errors.Wrap(err, m)]) or the
    aggregate of several. *)
Inductive error :=
| ApiError (reason : StatusReason) (msg : string)
| Errorf (msg : string)
| Wrap (msg : string) (cause : error)
| Aggregate (errs : list error).

(** [apierrors.IsNotFound]: wrapping does not hide the status. *)
Fixpoint IsNotFound (e : error) : bool :=
  match e with
  | ApiError NotFound _ => true
  | Wrap _ c => IsNotFound c
  | _ => false
  end.

(** [err.Error()]; an aggregate prints its messages between brackets. *)
Fixpoint error_string (e : error) : string :=
  match e with
  | ApiError _ m => m
  | Errorf m => m
  | Wrap m c => m +:+ ": " +:+ error_string c
  | Aggregate [x] => error_string x
  | Aggregate l => "[" +:+ String.concat ", " (error_string <$> l) +:+ "]"
  end.

(** [utilerrors.NewAggregate]: nil for an empty list *)
Definition NewAggregate (errs : list error) : option error :=
  match errs with [] => None | _ => Some (Aggregate errs) end.

Inductive result (A : Type) := Ok (a : A) | Err (e : error).
Arguments Ok {A} a.
Arguments Err {A} e.

(** The error of a call whose value is ignored *)
Definition err_of {A} (r : result A) : option error :=
  match r with Err e => Some e | Ok _ => None end.

(** Wrap an error if there is one *)
Definition wrap_error (msg : string) (e : option error) : option error :=
  match e with Some e => Some (Wrap msg e) | None => None end.

(** The outcome of running Go code: a value or a run-time panic. *)
Inductive outcome (A : Type) := Done (a : A) | Panicked (why : string).
Arguments Done {A} a.
Arguments Panicked {A} why.

#[export] Instance outcome_ret : MRet outcome := λ A a, Done a.
#[export] Instance outcome_bind : MBind outcome := λ A B f o,
  match o with Done a => f a | Panicked w => Panicked w end.

(** [*p] *)
Definition deref {A} (p : option A) : outcome A :=
  match p with Some a => Done a | None => Panicked "nil pointer dereference" end.
(** [l[i]] *)
Definition index {A} (l : list A) (i : nat) : outcome A :=
  match l !! i with Some a => Done a | None => Panicked "index out of range" end.

(** [c || rest], or [if c { return true }] followed by [rest] *)
Definition or_else (c rest : outcome bool) : outcome bool :=
  b ← c; if (b : bool) then mret true else rest.
(** [l[0] = x] *)
Definition set_first {A} (x : A) (l : list A) : outcome (list A) :=
  match l with _ :: t => Done (x :: t) | [] => Panicked "index out of range" end.

(** ** Kinds of API objects *)
Inductive kind :=
| KSecret | KConfigMap | KService | KStatefulSet | KPod | KEndpointSlice
| KIngress | KDeployment | KCronJob | KPodMonitor | KHTTPRoute
| KReferenceGrant | KTypesenseCluster.
#[export] Instance kind_eq_dec : EqDecision kind.
Proof. solve_decision. Defined.

(** [client.ListOptions]: [None] lists every namespace; the labels are those of
    [labels.SelectorFromSet]. *)
Record ListOptions := { lo_Namespace : option string; lo_Labels : smap }.

(** The answer to an HTTP request; reading the body can fail. *)
Record HttpResponse := { hr_StatusCode : Z; hr_Body : result string }.

Section Calls.
Context `{K : K8s}.

Definition objT (k : kind) : Type :=
  match k with
  | KSecret => Secret
  | KConfigMap => ConfigMap
  | KService => Service
  | KStatefulSet => StatefulSet
  | KPod => Pod
  | KEndpointSlice => EndpointSlice
  | KIngress => Ingress
  | KDeployment => Deployment
  | KCronJob => CronJob
  | KPodMonitor => PodMonitor
  | KHTTPRoute => HTTPRoute
  | KReferenceGrant => ReferenceGrant
  | KTypesenseCluster => TypesenseCluster
  end.

(** The calls of a handler.  [Create], [Update], [Patch] and [StatusPatch]
    answer with the object as the server stored it, which the client decodes
    into the caller's variable; [Patch] and [StatusPatch] carry the copy given
    to [client.MergeFrom] and the modified object. *)
Inductive call : Type → Type :=
| Get (k : kind) (key : ObjectKey) : call (result (objT k))
| ListObjs (k : kind) (opts : ListOptions) : call (result (list (objT k)))
| Create (k : kind) (o : objT k) : call (result (objT k))
| Update (k : kind) (o : objT k) : call (result (objT k))
| Patch (k : kind) (orig o : objT k) : call (result (objT k))
| StatusPatch (k : kind) (orig o : objT k) : call (result (objT k))
| Delete (k : kind) (o : objT k) (propagation : option string) : call (option error)
| Eventf (ts : TypesenseCluster) (eventtype reason message : string) : call unit
| Now : call string                       (* time.Now().Format(time.RFC3339) *)
| RandRead (n : Z) : call (result (list Z))
| HTTPClientFor : call (option error)
| HttpGet (timeout : Z) (url : string) (headers : list (string * string))
    : call (result HttpResponse)
| GetLogs (ns pod container : string) (tail : Z) : call (result string)
| ServerVersion : call (result string)
| ServerGroups : call (result (list string)).

(** ** Programs *)
Inductive prog (A : Type) :=
| Ret (a : A)
| Panic (why : string)
| Vis (X : Type) (c : call X) (k : X → prog A).
Arguments Ret {A} a.
Arguments Panic {A} why.
Arguments Vis {A X} c k.

Fixpoint prog_bind_go {A B} (f : A → prog B) (p : prog A) : prog B :=
  match p with
  | Ret a => f a
  | Panic w => Panic w
  | Vis c k => Vis c (λ x, prog_bind_go f (k x))
  end.
#[global] Instance prog_ret : MRet prog := λ A a, Ret a.
#[global] Instance prog_bind : MBind prog := λ A B f p, prog_bind_go f p.

(** One call *)
Definition trigger {X} (c : call X) : prog X := Vis c (λ x, Ret x).
(** Go code without calls, which may panic *)
Definition lift {A} (o : outcome A) : prog A :=
  match o with Done a => Ret a | Panicked w => Panic w end.

(** Run a call and keep its error only *)
Definition only_err {A} (p : prog (result A)) : prog (option error) :=
  r ← p; mret (err_of r).

(** A [for ... range] loop without early exit, threading a state *)
Fixpoint fold_prog {A S} (f : S → A → prog S) (s : S) (l : list A) : prog S :=
  match l with
  | [] => mret s
  | a :: l' => s' ← f s a; fold_prog f s' l'
  end.

(** A [for ... range] loop whose body may return an error, which leaves it *)
Fixpoint for_err {A} (f : A → prog (option error)) (l : list A) : prog (option error) :=
  match l with
  | [] => mret None
  | a :: l' =>
      e ← f a;
      match e with
      | Some e => mret (Some e)
      | None => for_err f l'
      end
  end.

(** ** Executions *)

(** A call together with the answer it got *)
Inductive event := Ev (X : Type) (c : call X) (x : X).
Arguments Ev {X} c x.
Definition trace := list event.

(** [exec p tr o]: [p] can make the calls of [tr], receiving the answers
    recorded there, and end with [o]. *)
Inductive exec {A} : prog A → trace → outcome A → Prop :=
| exec_ret a : exec (Ret a) [] (Done a)
| exec_panic w : exec (Panic w) [] (Panicked w)
| exec_vis X (c : call X) k x tr o :
    exec (k x) tr o → exec (Vis c k) (Ev c x :: tr) o.

(** The weakest condition under which every execution satisfies [Q] *)
Fixpoint wlp {A} (p : prog A) (Q : trace → outcome A → Prop) : Prop :=
  match p with
  | Ret a => Q [] (Done a)
  | Panic w => Q [] (Panicked w)
  | Vis c k => ∀ x, wlp (k x) (λ tr o, Q (Ev c x :: tr) o)
  end.

Lemma wlp_exec {A} (p : prog A) Q :
  wlp p Q ↔ ∀ tr o, exec p tr o → Q tr o.
Proof.
  split.
  - intros H tr o He. revert Q H. induction He; simpl; intros Q H; auto.
    by apply (IHHe (λ tr o, Q (Ev c x :: tr) o)), H.
  - revert Q. induction p as [a|w|X c k IH]; simpl; intros Q H.
    + apply H. constructor.
    + apply H. constructor.
    + intros x. apply IH. intros. apply H. by constructor.
Qed.

Lemma wlp_mono {A} (p : prog A) (Q Q' : trace → outcome A → Prop) :
  wlp p Q → (∀ tr o, Q tr o → Q' tr o) → wlp p Q'.
Proof. rewrite !wlp_exec. eauto. Qed.

Lemma wlp_and {A} (p : prog A) (Q Q' : trace → outcome A → Prop) :
  wlp p Q → wlp p Q' → wlp p (λ tr o, Q tr o ∧ Q' tr o).
Proof. rewrite !wlp_exec. eauto. Qed.

Lemma wlp_bind {A B} (p : prog A) (f : A → prog B) Q :
  wlp p (λ tr o, match o with
                 | Done a => wlp (f a) (λ tr' o', Q (tr ++ tr') o')
                 | Panicked w => Q tr (Panicked w)
                 end) →
  wlp (p ≫= f) Q.
Proof.
  revert Q. unfold mbind, prog_bind.
  induction p as [a|w|X c k IH]; simpl; auto.
Qed.

(** The cut rule: prove a postcondition of the first part, use it in the rest. *)
Lemma wlp_bind_cut {A B} (p : prog A) (f : A → prog B) Q R :
  wlp p R →
  (∀ tr a, R tr (Done a) → wlp (f a) (λ tr' o, Q (tr ++ tr') o)) →
  (∀ tr w, R tr (Panicked w) → Q tr (Panicked w)) →
  wlp (p ≫= f) Q.
Proof.
  intros Hp Hf Hw. apply wlp_bind. eapply wlp_mono; [exact Hp|].
  intros tr [a|w]; auto.
Qed.

(** *** The answers determine an execution *)

(** [execs] reads an execution off the program. *)
Fixpoint execs {A} (p : prog A) (tr : trace) (o : outcome A) : Prop :=
  match p with
  | Ret a => tr = [] ∧ o = Done a
  | Panic w => tr = [] ∧ o = Panicked w
  | Vis c k => ∃ x tr', tr = Ev c x :: tr' ∧ execs (k x) tr' o
  end.
Lemma exec_execs {A} (p : prog A) tr o : exec p tr o → execs p tr o.
Proof. induction 1; simpl; [done|done|by eexists _, _]. Qed.

(** The answer of an event, if the event is a call like [c] *)
Definition of_kind (F : kind → Type) (k k' : kind) (x : F k') : option (F k) :=
  match decide (k' = k) with left E => Some (eq_rect k' F x k E) | right _ => None end.
Definition answer_to {X} (c : call X) (e : event) : option X :=
  let '@Ev Y c' x := e in
  match c in call X, c' in call Y return Y → option X with
  | Get k _, Get k' _ | Create k _, Create k' _ | Update k _, Update k' _
  | Patch k _ _, Patch k' _ _ | StatusPatch k _ _, StatusPatch k' _ _ =>
      of_kind (λ k, result (objT k)) k k'
  | ListObjs k _, ListObjs k' _ => of_kind (λ k, result (list (objT k))) k k'
  | Delete _ _ _, Delete _ _ _ | Eventf _ _ _ _, Eventf _ _ _ _ | Now, Now
  | RandRead _, RandRead _ | HTTPClientFor, HTTPClientFor | HttpGet _ _ _, HttpGet _ _ _
  | GetLogs _ _ _ _, GetLogs _ _ _ _ | ServerVersion, ServerVersion
  | ServerGroups, ServerGroups => Some
  | _, _ => λ _, None
  end x.
Lemma of_kind_same F k (x : F k) : of_kind F k k x = Some x.
Proof.
  unfold of_kind. destruct (decide (k = k)) as [E|]; [|done].
  by rewrite (Eqdep_dec.UIP_dec kind_eq_dec E eq_refl).
Qed.
Lemma answer_to_same {X} (c : call X) x : answer_to c (Ev c x) = Some x.
Proof. destruct c; try exact (of_kind_same _ _ _); done. Qed.

Lemma exec_det {A} (p : prog A) tr o tr' o' rest rest' :
  exec p tr o → exec p tr' o' → tr ++ rest = tr' ++ rest' → tr = tr' ∧ o = o'.
Proof.
  intros H%exec_execs H'%exec_execs. revert tr tr' H H'.
  induction p as [a|w|X c k IH]; simpl; [by intros ?? [-> ->] [-> ->]..|].
  intros tr tr' (x & t & -> & H) (x' & t' & -> & H') E.
  assert (x = x') as <-.
  { apply (f_equal (λ l, head l ≫= answer_to c)) in E. cbn [app head mbind option_bind] in E.
    rewrite !answer_to_same in E. congruence. }
  apply (f_equal tail) in E as Et. cbn [app tail] in Et.
  destruct (IH x t t' H H' Et) as [-> ->]. done.
Qed.

(** Invariants of the calls made: [P] of every event, whatever the outcome. *)
Definition all_events {A} (P : event → Prop) (p : prog A) : Prop :=
  wlp p (λ tr _, Forall P tr).

Lemma all_events_ret {A} P (a : A) : all_events P (mret a).
Proof. constructor. Qed.

Lemma all_events_lift {A} P (o : outcome A) : all_events P (lift o).
Proof. destruct o; constructor. Qed.

Lemma all_events_trigger {X} P (c : call X) :
  (∀ x, P (Ev c x)) → all_events P (trigger c).
Proof. intros H x. repeat constructor. apply H. Qed.

Lemma all_events_bind {A B} P (p : prog A) (f : A → prog B) :
  all_events P p → (∀ a, all_events P (f a)) → all_events P (p ≫= f).
Proof.
  intros Hp Hf. eapply wlp_bind_cut; [exact Hp| |done].
  intros tr a Htr. eapply wlp_mono; [apply Hf|].
  intros tr' ? Htr'. by apply Forall_app.
Qed.

Lemma all_events_fold {A S} P (f : S → A → prog S) s l :
  (∀ s a, a ∈ l → all_events P (f s a)) → all_events P (fold_prog f s l).
Proof.
  revert s. induction l as [|a l IH]; intros s H; [apply all_events_ret|].
  simpl. apply all_events_bind; [apply H; set_solver|].
  intros s'. apply IH. set_solver.
Qed.

Lemma all_events_for_err {A} P (f : A → prog (option error)) l :
  (∀ a, a ∈ l → all_events P (f a)) → all_events P (for_err f l).
Proof.
  induction l as [|a l IH]; intros H; [apply all_events_ret|].
  simpl. apply all_events_bind; [apply H; set_solver|].
  intros [e|]; [apply all_events_ret|]. apply IH. set_solver.
Qed.

Lemma all_events_mono {A} (P P' : event → Prop) (p : prog A) :
  all_events P p → (∀ e, P e → P' e) → all_events P' p.
Proof.
  intros H HP. eapply wlp_mono; [exact H|]. simpl. intros tr ? Htr.
  by eapply Forall_impl.
Qed.

(** ** Running against an environment *)
Definition environment (W : Type) := ∀ X, call X → W → X * W.

Fixpoint run {W A} (h : environment W) (p : prog A) (w : W)
    : outcome A * trace * W :=
  match p with
  | Ret a => (Done a, [], w)
  | Panic s => (Panicked s, [], w)
  | Vis c k =>
      let '(x, w') := h _ c w in
      let '(o, tr, w'') := run h (k x) w' in
      (o, Ev c x :: tr, w'')
  end.

(** A run is one of the executions. *)
Lemma run_exec {W A} (h : environment W) (p : prog A) w :
  let '(o, tr, _) := run h p w in exec p tr o.
Proof.
  revert w. induction p as [a|s|X c k IH]; intros w; simpl; [constructor..|].
  destruct (h X c w) as [x w']. specialize (IH x w').
  destruct (run h (k x) w') as [[o tr] w'']. by constructor.
Qed.

Lemma wlp_run {W A} (h : environment W) (p : prog A) w Q :
  wlp p Q → let '(o, tr, _) := run h p w in Q tr o.
Proof.
  intros H. pose proof (run_exec h p w) as He.
  destruct (run h p w) as [[o tr] w']. by eapply wlp_exec in He.
Qed.

(** ** The writes of an execution *)

(** What a handler changes in the cluster, or reports, in order. *)
Inductive write :=
| WCreate (k : kind) (o : objT k)
| WUpdate (k : kind) (o : objT k)
| WPatch (k : kind) (orig o : objT k)
| WStatusPatch (k : kind) (orig o : objT k)
| WDelete (k : kind) (o : objT k)
| WEvent (ts : TypesenseCluster) (eventtype reason message : string).

Definition write_of (e : event) : option write :=
  match e with
  | Ev c _ =>
      match c with
      | Create k o => Some (WCreate k o)
      | Update k o => Some (WUpdate k o)
      | Patch k orig o => Some (WPatch k orig o)
      | StatusPatch k orig o => Some (WStatusPatch k orig o)
      | Delete k o _ => Some (WDelete k o)
      | Eventf ts t r m => Some (WEvent ts t r m)
      | _ => None
      end
  end.
Definition writes (tr : trace) : list write := omap write_of tr.

Definition write_kind (w : write) : option kind :=
  match w with
  | WCreate k _ | WUpdate k _ | WPatch k _ _ | WStatusPatch k _ _ | WDelete k _ => Some k
  | WEvent _ _ _ _ => None
  end.

Lemma writes_app tr1 tr2 : writes (tr1 ++ tr2) = writes tr1 ++ writes tr2.
Proof. apply omap_app. Qed.

(** Every write satisfies [P]. *)
Definition writes_only {A} (P : write → Prop) (p : prog A) : Prop :=
  all_events (λ e, ∀ w, write_of e = Some w → P w) p.

Lemma writes_only_Forall {A} P (p : prog A) :
  writes_only P p ↔ wlp p (λ tr _, Forall P (writes tr)).
Proof.
  unfold writes_only, all_events. rewrite !wlp_exec.
  assert (∀ tr, Forall (λ e, ∀ w, write_of e = Some w → P w) tr ↔ Forall P (writes tr)) as E.
  { intros tr. unfold writes. induction tr as [|e tr IH]; [done|].
    rewrite Forall_cons, IH. simpl. destruct (write_of e) as [w|].
    - rewrite Forall_cons. naive_solver.
    - naive_solver. }
  by setoid_rewrite E.
Qed.
End Calls.

Arguments Ret {K A} a.
Arguments Panic {K A} why.
Arguments Vis {K A X} c k.
Arguments Ev {K X} c x.
