(* ===== verification/Hoare.v ===== *)
(** * Proof rules and automation for programs

    Rules for [wlp] in the shape the handlers have (calls, Go statements, loops)
    and the tactics that apply them: [wlp_steps] executes a program
    symbolically, [calls_auto] proves that every call of a program satisfies a
    predicate. *)
From S2P Require Import Prelude K8s Api Effects.

Section Rules.
Context `{K : K8s}.

Lemma wlp_ret {A} (a : A) Q : Q [] (Done a) → wlp (mret a) Q.
Proof. done. Qed.
Lemma wlp_ret_bind {A B} (a : A) (f : A → prog B) Q : wlp (f a) Q → wlp (mret a ≫= f) Q.
Proof. done. Qed.
Lemma wlp_trigger {X} (c : call X) Q : (∀ x, Q [Ev c x] (Done x)) → wlp (trigger c) Q.
Proof. done. Qed.
Lemma wlp_trigger_bind {X B} (c : call X) (f : X → prog B) Q :
  (∀ x, wlp (f x) (λ tr o, Q (Ev c x :: tr) o)) → wlp (trigger c ≫= f) Q.
Proof. done. Qed.
Lemma wlp_lift_bind {A B} (o : outcome A) (f : A → prog B) Q :
  (∀ a, o = Done a → wlp (f a) Q) → (∀ w, o = Panicked w → Q [] (Panicked w)) →
  wlp (lift o ≫= f) Q.
Proof. destruct o; simpl; auto. Qed.
Lemma wlp_lift {A} (o : outcome A) Q : Q [] o → wlp (lift o) Q.
Proof. by destruct o. Qed.

Lemma wlp_bind_inv {A B} (p : prog A) (f : A → prog B) Q :
  wlp (p ≫= f) Q →
  wlp p (λ tr o, match o with
                 | Done a => wlp (f a) (λ tr' o', Q (tr ++ tr') o')
                 | Panicked w => Q tr (Panicked w)
                 end).
Proof.
  unfold mbind, prog_bind.
  revert Q. induction p as [a|w|X c k IH]; simpl; intros Q H; [exact H|exact H|].
  intros x. apply (IH x (λ tr o, Q (Ev c x :: tr) o)), H.
Qed.

Lemma wlp_assoc {A B C} (p : prog A) (f : A → prog B) (g : B → prog C) Q :
  wlp (p ≫= λ x, f x ≫= g) Q → wlp ((p ≫= f) ≫= g) Q.
Proof.
  unfold mbind, prog_bind. revert Q.
  induction p as [a|w|X c k IH]; simpl; auto.
Qed.

(** A loop invariant on the trace so far and the state; [J] holds of a panic. *)
Lemma wlp_fold {A S} (f : S → A → prog S) (I : list A → trace → S → Prop)
    (J : trace → string → Prop) l s :
  I [] [] s →
  (∀ done a rest tr s, l = done ++ a :: rest → I done tr s →
     wlp (f s a) (λ tr' o, match o with
                           | Done s' => I (done ++ [a]) (tr ++ tr') s'
                           | Panicked w => J (tr ++ tr') w
                           end)) →
  wlp (fold_prog f s l) (λ tr o, match o with
                                 | Done s' => I l tr s'
                                 | Panicked w => J tr w
                                 end).
Proof.
  intros H0 Hf.
  assert (∀ done rest tr s, l = done ++ rest → I done tr s →
    wlp (fold_prog f s rest) (λ tr' o, match o with
      | Done s' => I l (tr ++ tr') s' | Panicked w => J (tr ++ tr') w end)) as G.
  { clear s H0. intros done rest. revert done.
    induction rest as [|a rest IH]; intros done tr s -> HI; simpl.
    - by rewrite !app_nil_r.
    - apply wlp_bind. eapply wlp_mono; [by eapply Hf|]. simpl.
      intros tr' [s'|w]; [|done]. intros HI'.
      specialize (IH (done ++ [a]) (tr ++ tr') s').
      eapply wlp_mono; [apply IH; [by rewrite <-app_assoc|done]|].
      intros tr'' [?|?]; simpl; by rewrite <-app_assoc. }
  apply (G [] l [] s); auto.
Qed.

(** The same for a loop that an error leaves *)
Lemma wlp_for_err {A} (f : A → prog (option error)) (I : list A → trace → Prop)
    (E : trace → error → Prop) (J : trace → string → Prop) l :
  I [] [] →
  (∀ done a rest tr, l = done ++ a :: rest → I done tr →
     wlp (f a) (λ tr' o, match o with
                         | Done None => I (done ++ [a]) (tr ++ tr')
                         | Done (Some e) => E (tr ++ tr') e
                         | Panicked w => J (tr ++ tr') w
                         end)) →
  wlp (for_err f l) (λ tr o, match o with
                             | Done None => I l tr
                             | Done (Some e) => E tr e
                             | Panicked w => J tr w
                             end).
Proof.
  intros H0 Hf.
  assert (∀ done rest tr, l = done ++ rest → I done tr →
    wlp (for_err f rest) (λ tr' o, match o with
      | Done None => I l (tr ++ tr') | Done (Some e) => E (tr ++ tr') e
      | Panicked w => J (tr ++ tr') w end)) as G.
  { intros done rest. revert done.
    induction rest as [|a rest IH]; intros done tr -> HI; simpl.
    - by rewrite !app_nil_r.
    - apply wlp_bind. eapply wlp_mono; [by eapply Hf|]. simpl.
      intros tr' [[e|]|w]; [by simpl; rewrite app_nil_r| |done]. intros HI'.
      specialize (IH (done ++ [a]) (tr ++ tr')).
      eapply wlp_mono; [apply IH; [by rewrite <-app_assoc|done]|].
      intros tr'' [[?|]|?]; simpl; by rewrite <-app_assoc. }
  apply (G [] l []); auto.
Qed.

Lemma all_events_only_err {A} P (p : prog (result A)) :
  all_events P p → all_events P (only_err p).
Proof. intros H. apply all_events_bind; [done|]. intros. apply all_events_ret. Qed.

Lemma all_events_lift_bind {A B} P (o : outcome A) (f : A → prog B) :
  (∀ a, o = Done a → all_events P (f a)) → all_events P (lift o ≫= f).
Proof. intros H. destruct o; [by apply H|constructor]. Qed.

Lemma writes_only_mono {A} (P P' : write → Prop) (p : prog A) :
  writes_only P p → (∀ w, P w → P' w) → writes_only P' p.
Proof. intros H HP. eapply all_events_mono; [exact H|]. simpl. eauto. Qed.

Lemma writes_nil (tr : trace) : writes tr = [] ↔ Forall (λ e, write_of e = None) tr.
Proof.
  unfold writes. induction tr as [|e tr IH]; simpl; [done|].
  rewrite Forall_cons, <-IH. destruct (write_of e); naive_solver.
Qed.

Lemma elem_of_writes (tr : trace) w : w ∈ writes tr ↔ ∃ e, e ∈ tr ∧ write_of e = Some w.
Proof. unfold writes. by rewrite list_elem_of_omap. Qed.
End Rules.

(** Programs are taken apart by the rules, not by computation. *)
#[global] Arguments wlp {K A} p Q : simpl never.
#[global] Arguments prog_bind {K A B} f p : simpl never.
#[global] Arguments trigger {K X} c : simpl never.

(** ** Symbolic execution *)

(** Case analysis that keeps the equation when there is one *)
Ltac case_on x := first [is_var x; destruct x | destruct x eqn:?].
(** Rewrites with the equations case analysis left. *)
Ltac rewrite_eqs :=
  repeat match goal with H : ?a = ?b |- context [?a] => rewrite H end.

Ltac wlp_step :=
  lazymatch goal with
  | |- wlp (mret _) _ => apply wlp_ret
  | |- wlp (mret _ ≫= _) _ => apply wlp_ret_bind
  | |- wlp (trigger _) _ => apply wlp_trigger; intros ?
  | |- wlp (trigger _ ≫= _) _ => apply wlp_trigger_bind; intros ?
  | |- wlp (lift _) _ => apply wlp_lift
  | |- wlp (lift _ ≫= _) _ => apply wlp_lift_bind; intros ??
  | |- wlp ((_ ≫= _) ≫= _) _ => apply wlp_assoc
  | |- wlp (match ?x with _ => _ end) _ => case_on x
  | |- wlp (match ?x with _ => _ end ≫= _) _ => case_on x
  | |- wlp (let _ := _ in _) _ => cbv zeta
  end; cbv beta.
Ltac wlp_steps := repeat wlp_step.

(** [only_err p] is a bind. *)
#[export] Hint Unfold only_err : effects.

(** ** Calls of a program *)

Ltac calls_step tac :=
  lazymatch goal with
  | |- writes_only _ _ => unfold writes_only
  | |- all_events _ (mret _) => apply all_events_ret
  | |- all_events _ (Panic _) => constructor
  | |- all_events _ (lift _) => apply all_events_lift
  | |- all_events _ (trigger _) => apply all_events_trigger; intros ?; tac
  | |- all_events _ (only_err _) => apply all_events_only_err
  | |- all_events _ (lift _ ≫= _) => apply all_events_lift_bind; intros ??
  | |- all_events _ (_ ≫= _) => apply all_events_bind; [|intros ?]
  | |- all_events _ (fold_prog _ _ _) => apply all_events_fold; intros ???
  | |- all_events _ (for_err _ _) => apply all_events_for_err; intros ??
  | |- all_events _ (match ?x with _ => _ end) => destruct x eqn:?
  | |- all_events _ (let _ := _ in _) => cbv zeta
  end; cbv beta.
(** [tac] proves the predicate of one call; sub-programs are solved from the
    hint database [effects]. *)
Ltac calls_auto tac :=
  repeat (calls_step tac); auto with effects.
