(* ===== verification/External.v ===== *)
(** * Third-party functions

    The library functions the operator calls whose code is not in the
    repository, as the fields of one class.  Nothing is assumed of them here;
    [LibsLaws] states the documented behaviour some theorems rely on. *)
From S2P Require Import Prelude K8s Api Effects.

(** The struct [specsHashInput] of [buildStatefulSetHash], which is what
    [hashstructure.Hash] is given. *)
Record SpecsHashInput `{K : K8s} := {
  StsSpecAnnotations : smap;
  PodSpecTemplate : PodSpec;
  TypesenseContainerResources : string;
  MetricsContainerResources : string;
  HealthcheckContainerResources : string;
  AdditionalConfigurationData : option (gmap string smap);
}.

Class Libs `{K : K8s} := {
  (** [ctrl.SetControllerReference(owner, controlled, scheme)]: the metadata of
      the controlled object with the owner reference added, or an error *)
  SetControllerReference : kind → ObjectMeta → ObjectMeta → result ObjectMeta;
  (** [meta.SetStatusCondition]; the first argument is the time it reads *)
  SetStatusCondition : string → list Condition → Condition → list Condition;
  (** [cases.Title(language.Und, cases.NoLower).String] *)
  Title : string → string;
  (** [version.ParseGeneric] and [AtLeast] of k8s.io/apimachinery *)
  Version : Type;
  ParseGeneric : string → result Version;
  AtLeast : Version → Version → bool;
  (** [hashstructure.Hash(_, FormatV2, nil)] *)
  HashStructure : SpecsHashInput → result Z;
  (** [json.Marshal] of resource requirements (their quantities marshal
      themselves) *)
  MarshalResources : ResourceRequirements → string;
  (** [rest.Request.URL().String()] of the pod proxy request built from a
      namespace, a name and a suffix *)
  ProxyURL : string → string → string → string;
  (** [url.JoinPath] and the URL check of [http.NewRequestWithContext] *)
  JoinPath : string → string → result string;
  NewRequest : string → option error;
}.

(** Documented behaviour.  [meta.SetStatusCondition] "sets the corresponding
    condition in conditions to newCondition": the condition of that type is
XX
    [JoinPath] are left free. *)
Class LibsLaws `{L : Libs} : Prop := {
  SetStatusCondition_found now pre c post new :
    c_Type c = c_Type new →
    Forall (λ d, c_Type d ≠ c_Type new) pre →
    ∃ c', SetStatusCondition now (pre ++ c :: post) new = pre ++ c' :: post
      ∧ c_Type c' = c_Type new ∧ c_Status c' = c_Status new
      ∧ c_Reason c' = c_Reason new ∧ c_Message c' = c_Message new;
  SetStatusCondition_absent now conds new :
    Forall (λ d, c_Type d ≠ c_Type new) conds →
    ∃ c', SetStatusCondition now conds new = conds ++ [c']
      ∧ c_Type c' = c_Type new ∧ c_Status c' = c_Status new
      ∧ c_Reason c' = c_Reason new ∧ c_Message c' = c_Message new;
  SetControllerReference_keeps k owner m m' :
    SetControllerReference k owner m = Ok m' →
    om_Name m' = om_Name m ∧ om_Namespace m' = om_Namespace m
    ∧ om_Labels m' = om_Labels m ∧ om_Annotations m' = om_Annotations m;
  SetControllerReference_fresh k owner m :
    om_OwnerReferences m = [] → om_Namespace m = om_Namespace owner →
    ∃ m', SetControllerReference k owner m = Ok m';
}.
