(* ===== verification/Concrete.v ===== *)
(** * A concrete instance of the parameters

    Quantities as their text, a list implementation of [SetStatusCondition]
    that satisfies [LibsLaws], simple stand-ins for the other library functions,
    and a cluster: what the witnesses evaluate the model on. *)
From S2P Require Import Prelude GoLib K8s Api Effects External.

Definition concreteK : K8s :=
  {| Quantity := string; MustParse := id; Rest := unit; rest_zero := () |}.

(** [meta.SetStatusCondition]: replace in place, or append; the transition time
    changes with the status. *)
Definition set_condition (now : string) (new : Condition) (old : option Condition) : Condition :=
  {| c_Type := c_Type new; c_Status := c_Status new; c_Reason := c_Reason new;
     c_Message := c_Message new;
     c_LastTransitionTime :=
       match old with
       | Some c => if String.eqb (c_Status c) (c_Status new) then c_LastTransitionTime c else now
       | None => now
       end |}.
Fixpoint set_status_condition (now : string) (conds : list Condition) (new : Condition)
    : list Condition :=
  match conds with
  | [] => [set_condition now new None]
  | c :: cs =>
      if String.eqb (c_Type c) (c_Type new) then set_condition now new (Some c) :: cs
      else c :: set_status_condition now cs new
  end.

(** The kind of the owner, as the scheme names it *)
Definition owner_reference (k : kind) (owner : ObjectMeta) : OwnerReference :=
  {| or_Kind := match k with KTypesenseCluster => "TypesenseCluster" | _ => "Ingress" end;
     or_Name := om_Name owner; or_Controller := true |}.

Definition concreteL : @Libs concreteK :=
  {| SetControllerReference k owner m :=
       Ok {| om_Name := om_Name m; om_Namespace := om_Namespace m; om_Labels := om_Labels m;
             om_Annotations := om_Annotations m;
             om_OwnerReferences := om_OwnerReferences m ++ [owner_reference k owner];
             om_DeletionTimestamp := om_DeletionTimestamp m; om_Generation := om_Generation m |};
     SetStatusCondition := set_status_condition;
     Title := id;
     Version := string; ParseGeneric := Ok; AtLeast a b := bool_decide (str_le b a);
     HashStructure shi := Ok (Z.of_nat (length (ps_Containers (PodSpecTemplate shi))));
     MarshalResources _ := "{}";
     ProxyURL ns name suffix := "https://kubernetes/" +:+ ns +:+ "/" +:+ name +:+ "/" +:+ suffix;
     JoinPath base path := Ok (base +:+ path);
     NewRequest _ := None |}.

#[local] Existing Instance concreteK.
#[local] Existing Instance concreteL.

Lemma concrete_laws : LibsLaws.
Proof.
  split.
  - intros now pre c post new Hc Hpre. exists (set_condition now new (Some c)).
    split; [|done]. simpl. induction Hpre as [|d pre Hd _ IH]; simpl.
    + by rewrite (proj2 (String.eqb_eq _ _) Hc).
    + by rewrite (proj2 (String.eqb_neq _ _) Hd), IH.
  - intros now conds new H. exists (set_condition now new None).
    split; [|done]. simpl. induction H as [|d conds Hd _ IH]; simpl; [done|].
    by rewrite (proj2 (String.eqb_neq _ _) Hd), IH.
  - by intros k owner m m' [= <-].
  - intros k owner m _ _. by eexists.
Qed.

(** A cluster of [n] replicas named [name] in the namespace [search] *)
Definition demo_spec (n : Z) : TypesenseClusterSpec :=
  {| Image := "typesense/typesense:29.0"; ImagePullSecrets := []; AdminApiKey := None;
     Replicas := n; ApiPort := 8108; PeeringPort := 8107;
     HealthProbeTimeoutInMilliseconds := 500; ResetPeersOnError := true; EnableCors := true;
     CorsDomains := None; ForceResetPeersConfigOnUpdate := false; Resources := None;
     Affinity := None; NodeSelector := ∅; Tolerations := [];
     AdditionalServerConfiguration := None; ServiceAnnotations := ∅;
     StatefulSetAnnotations := ∅; PodAnnotations := ∅;
     PodsInheritStatefulSetAnnotations := false;
     Storage := Some {| sto_Size := "1Gi"; sto_StorageClassName := "standard";
                        sto_AccessMode := "ReadWriteOnce"; sto_Annotations := ∅ |};
     IngressOf := None; HttpRoutes := None; Scrapers := None; Metrics := None;
     HealthCheck := None; TopologySpreadConstraints := []; PriorityClassName := None;
     SecurityContextOf := None; IgnoreAnnotationsFromExternalMutations := [];
     IncrementalQuorumRecovery := false; PodManagementPolicy := None;
     TerminationGracePeriodSeconds := None |}.
Definition demo_ts (name : string) (n : Z) (reason : string) : TypesenseCluster :=
  {| ts_meta := {| om_Name := name; om_Namespace := "search"; om_Labels := ∅;
                   om_Annotations := ∅; om_OwnerReferences := [];
                   om_DeletionTimestamp := None; om_Generation := 1 |};
     Spec := demo_spec n;
     Status := {| Conditions := [mk_condition "Ready" "True" reason ""]; Phase := reason |} |}.
