(* ===== verification/Utils.v ===== *)
(** * src/internal/controller/utils.go and the name formats

    Names, labels and metadata of the objects the operator creates; the string
    and map helpers the reconcilers share. *)
From S2P Require Import Prelude GoLib GoNet GoCrypto K8s Api Effects External.
From Stdlib Require Import Ascii.
From Stdlib Require String.

(** ** Name formats (typesensecluster_constants.go) *)
Definition ClusterNodesConfigMap (name : string) : string := name +:+ "-nodeslist".
Definition ClusterAdminApiKeySecret (name : string) : string := name +:+ "-admin-key".
Definition ClusterAdminApiKeySecretKeyName : string := "typesense-api-key".
Definition ClusterHeadlessService (name : string) : string := name +:+ "-sts-svc".
Definition ClusterRestService (name : string) : string := name +:+ "-svc".
Definition ClusterStatefulSet (name : string) : string := name +:+ "-sts".
Definition ClusterAppLabel (name : string) : string := name +:+ "-sts".
Definition ClusterReverseProxyAppLabel (name : string) : string := name +:+ "-rp".
Definition ClusterReverseProxyIngress (name : string) : string := name +:+ "-reverse-proxy".
Definition ClusterReverseProxyConfigMap (name : string) : string := name +:+ "-reverse-proxy-config".
Definition ClusterReverseProxy (name : string) : string := name +:+ "-reverse-proxy".
Definition ClusterReverseProxyService (name : string) : string := name +:+ "-reverse-proxy-svc".
Definition ClusterHttpRoute (name route : string) : string := name +:+ "-" +:+ route.
Definition ClusterHttpRouteReferenceGrant (name route : string) : string :=
  name +:+ "-" +:+ route +:+ "-reference-grant".
Definition ClusterPrometheusExporterDeployment (name : string) : string :=
  name +:+ "-prometheus-exporter".
Definition ClusterMetricsPodMonitorAppLabel (name : string) : string := name +:+ "-sts".
Definition ClusterMetricsPodMonitor (name : string) : string := name +:+ "-podmonitor".
Definition ClusterScraperCronJob (name : string) : string := name +:+ "-scraper".
Definition ClusterScraperCronJobContainer (name : string) : string :=
  name +:+ "-docsearch-scraper".

(** ** Tokens *)
Definition letters : string :=
  "abcdefghijklmnopqrstuvwxyzABCDEFGHIJKLMNOPQRSTUVWXYZ0123456789".

Section Tokens.
Context `{K : K8s}.

Definition generateToken : prog (result string) :=
  r ← trigger (RandRead 256);
  match r with
  | Err e => mret (Err e)
  | Ok token => mret (Ok (base64_encode token))
  end.

Definition generateSecureRandomString (length : Z) : prog (result string) :=
  r ← trigger (RandRead length);
  match r with
  | Err e => mret (Err e)
  | Ok bytes =>
      mret (Ok (String.concat "" ((λ b,
        String.substring (Z.to_nat (b mod Z.of_nat (String.length letters))) 1 letters)
        <$> bytes)))
  end.
End Tokens.

(** ** Labels and metadata *)

(** Later maps win; the result is nil when every map is empty. *)
Definition mergeLabels (maps : list smap) : smap :=
  foldl (λ merged m, m ∪ merged) ∅ maps.

Definition getMergedLabels (def scoped : smap) : smap := mergeLabels [def; scoped].

(** [maps.Copy(dst, src)] *)
Definition maps_Copy (dst src : smap) : smap := src ∪ dst.

Section Meta.
Context `{K : K8s}.

Definition getDefaultLabels (ts : TypesenseCluster) : smap :=
  <["app.kubernetes.io/managed-by" := "typesense-operator"]>
  (<["app.kubernetes.io/name" := "typesense"]>
   {["app.kubernetes.io/instance" := ts_Name ts]}).

Definition getLabels (ts : TypesenseCluster) : smap :=
  {["app" := ClusterAppLabel (ts_Name ts)]}.

(** The literal [metav1.ObjectMeta{Name:, Namespace:, Labels:, Annotations:}] *)
Definition mk_meta (name ns : string) (labels annotations : smap) : ObjectMeta :=
  {| om_Name := name; om_Namespace := ns; om_Labels := labels;
     om_Annotations := annotations; om_OwnerReferences := [];
     om_DeletionTimestamp := None; om_Generation := 0 |}.

Definition getObjectMeta (ts : TypesenseCluster) (name : option string)
    (annotations : smap) : ObjectMeta :=
  let name := match name with None => ts_Name ts | Some n => n end in
  mk_meta name (ts_Namespace ts)
    (getMergedLabels (getDefaultLabels ts) (getLabels ts)) annotations.

Definition getReverseProxyLabels (ts : TypesenseCluster) : smap :=
  {["app" := ClusterReverseProxyAppLabel (ts_Name ts)]}.

Definition getReverseProxyObjectMeta (ts : TypesenseCluster) (name : option string)
    (annotations : smap) : ObjectMeta :=
  let name := match name with None => ts_Name ts | Some n => n end in
  mk_meta name (ts_Namespace ts)
    (getMergedLabels (getDefaultLabels ts) (getReverseProxyLabels ts)) annotations.

Definition getPodMonitorLabels (ts : TypesenseCluster) : smap :=
  {["app" := ClusterMetricsPodMonitorAppLabel (ts_Name ts)]}.

Definition getPodMonitorObjectMeta (ts : TypesenseCluster) (name : option string)
    (annotations : smap) : ObjectMeta :=
  let name := match name with None => ts_Name ts | Some n => n end in
  mk_meta name (ts_Namespace ts)
    (getMergedLabels (getDefaultLabels ts) (getPodMonitorLabels ts)) annotations.

Definition getHttpRouteLabels (ts : TypesenseCluster) (spec : HttpRouteSpec) : smap :=
  let route :=
    <["app" := ClusterAppLabel (ts_Name ts)]>
    {["route" := ClusterHttpRoute (ts_Name ts) (hs_Name spec)]} in
  let defaults := getDefaultLabels ts in
  mergeLabels [defaults; route].

Definition getHttpRouteObjectMeta (ts : TypesenseCluster) (spec : HttpRouteSpec)
    (name : option string) (labels annotations : smap) : ObjectMeta :=
  let name := match name with None => ts_Name ts | Some n => n end in
  mk_meta name (ts_Namespace ts)
    (mergeLabels [getHttpRouteLabels ts spec; labels]) annotations.

(** The namespace of the parent is dereferenced unconditionally. *)
Definition getReferenceGrantObjectMeta (ts : TypesenseCluster) (spec : HttpRouteSpec)
    : outcome ObjectMeta :=
  ns ← deref (gp_Namespace (hs_ParentRef spec));
  mret (mk_meta (ClusterHttpRouteReferenceGrant (ts_Name ts) (hs_Name spec)) ns
          (getHttpRouteLabels ts spec) ∅).

(** ** Small helpers *)
Definition minDelayPerReplicaFactor : Z := 1.
Definition maxDelayPerReplicaFactor : Z := 3.
Definition getDelayPerReplicaFactor (size : Z) : Z :=
  if (size =? 0)%Z then minDelayPerReplicaFactor
  else if (size <=? maxDelayPerReplicaFactor)%Z then size
  else maxDelayPerReplicaFactor.

(** The position of the first occurrence; [None] is the answer [(-1, false)]. *)
Fixpoint contains (values : list string) (value : string) : option nat :=
  match values with
  | [] => None
  | v :: vs => if String.eqb v value then Some 0 else S <$> contains vs value
  end.

(** ** Volumes

    [normalizeVolumes] copies the slice, but each copy points to the same
    [ConfigMapVolumeSource] as the original, so clearing [DefaultMode] changes
    the volumes it was given.  The result is the sorted copy and the volumes as
    the caller finds them afterwards. *)
Definition clear_default_mode (v : Volume) : Volume :=
  {| vol_Name := vol_Name v;
     vol_ConfigMap := (λ cm, {| cmv_Name := cmv_Name cm; cmv_DefaultMode := None;
                                cmv_rest := cmv_rest cm |}) <$> vol_ConfigMap v;
     vol_PersistentVolumeClaim := vol_PersistentVolumeClaim v;
     vol_rest := vol_rest v |}.

#[export] Instance by_vol_Name_dec : RelDecision (λ v w : Volume, str_le (vol_Name v) (vol_Name w)).
Proof. intros v w. apply _. Defined.
#[export] Instance by_vm_Name_dec : RelDecision (λ v w : VolumeMount, str_le (vm_Name v) (vm_Name w)).
Proof. intros v w. apply _. Defined.

Definition normalizeVolumes (vols : list Volume) : list Volume * list Volume :=
  let mutated := clear_default_mode <$> vols in
  (merge_sort (λ v w, str_le (vol_Name v) (vol_Name w)) mutated, mutated).

Definition normalizeVolumeMounts (mounts : list VolumeMount) : list VolumeMount :=
  merge_sort (λ v w, str_le (vm_Name v) (vm_Name w)) mounts.

(** The verdict, then the desired and the existing volumes after the call *)
Definition needsSyncVolumes (desired existing : list Volume)
    : bool * list Volume * list Volume :=
  let '(d, desired') := normalizeVolumes desired in
  let '(e, existing') := normalizeVolumes existing in
  (negb (DeepEqual d e), desired', existing').

Definition needsSyncMounts (desired existing : list VolumeMount) : bool :=
  negb (DeepEqual (normalizeVolumeMounts desired) (normalizeVolumeMounts existing)).
End Meta.

(** ** Strings and maps *)

(** The pattern [25[0-5]|2[0-4]\d|[01]?\d?\d] *)
Definition octet_re : regex :=
  RAlt (RSeq (RChar "2") (RSeq (RChar "5") (RRange "0" "5")))
  (RAlt (RSeq (RChar "2") (RSeq (RRange "0" "4") (RRange "0" "9")))
        (RSeq (ROpt (RRange "0" "1")) (RSeq (ROpt (RRange "0" "9")) (RRange "0" "9")))).
Definition ip4Prefix : regex :=
  RSeq (RRep 3 (RSeq octet_re (RChar "."))) octet_re.

Definition hasIP4Prefix (s : string) : bool := match_start ip4Prefix s.

Definition toTitle `{L : Libs} (s : string) : string := Title s.

(** Drops the keys that contain one of the filters as a substring. *)
Definition filterMap (m : smap) (filters : list string) : smap :=
  filter (λ kv, existsb (contains_str kv.1) filters = false) m.

Definition getImageTag (image : string) : string :=
  match last_index_str image ":" with
  | None => image
  | Some pos => drop_str (pos + 1) image
  end.
