(* ===== verification/Conditions.v ===== *)
(** * Status conditions and shared helpers

    src/internal/controller/typesensecluster_helpers.go (status patches,
    discovery queries) and typesensecluster_condition_types.go (the [Ready]
    condition of a cluster).  A handler that receives the cluster by pointer
    returns it as it is afterwards. *)
From S2P Require Import Prelude K8s Api Effects External.

(** ** Condition reasons *)
Definition ConditionTypeReady : string := "Ready".
Definition ConditionReasonReconciliationInProgress : string := "ReconciliationInProgress".
Definition ConditionReasonSecretNotReady : string := "SecretNotReady".
Definition ConditionReasonConfigMapNotReady : string := "ConfigMapNotReady".
Definition ConditionReasonServicesNotReady : string := "ServicesNotReady".
Definition ConditionReasonIngressNotReady : string := "IngressNotReady".
Definition ConditionReasonHttpRouteNotReady : string := "HttpRouteNotReady".
Definition ConditionReasonScrapersNotReady : string := "ScrapersNotReady".
Definition ConditionReasonMetricsExporterNotReady : string := "MetricsExporterNotReady".
Definition ConditionReasonQuorumStateUnknown : string := "QuorumStateUnknown".
Definition ConditionReasonQuorumReady : string := "QuorumReady".
Definition ConditionReasonQuorumNotReady : string := "QuorumNotReady".
Definition ConditionReasonQuorumNotReadyWaitATerm : string := "QuorumNotReadyWaitATerm".
Definition ConditionReasonQuorumDowngraded : string := "QuorumDowngraded".
Definition ConditionReasonQuorumUpgraded : string := "QuorumUpgraded".
Definition ConditionReasonQuorumPurged : string := "QuorumPurged".
Definition ConditionReasonQuorumNeedsAttentionMemoryOrDiskIssue : string :=
  "QuorumNeedsAttentionMemoryOrDiskIssue".
Definition ConditionReasonQuorumNeedsAttentionClusterIsLagging : string :=
  "QuorumNeedsAttentionClusterIsLagging".
Definition ConditionReasonQuorumQueuedWrites : string := "QuorumQueuedWrites".
Definition ConditionReasonStatefulSetNotReady : string := "StatefulSetNotReady".
Definition InitReconciliationMessage : string := "Starting reconciliation".

Section Conditions.
Context `{L : Libs}.

(** ** Status patches *)

(** The status is changed in the caller's object before the request; on success
    the object becomes the server's answer. *)
Definition patchStatus (ts : TypesenseCluster)
    (patcher : TypesenseClusterStatus → TypesenseClusterStatus)
    : prog (TypesenseCluster * option error) :=
  let orig := ts in
  let ts := set_Status (patcher (Status ts)) ts in
  r ← trigger (StatusPatch KTypesenseCluster orig ts);
  match r with
  | Err e => mret (ts, Some e)
  | Ok ts' => mret (ts', None)
  end.

(** The patcher of the three setters: the [Ready] condition and the phase *)
Definition ready_patcher (now status reason message phase : string)
    (st : TypesenseClusterStatus) : TypesenseClusterStatus :=
  {| Conditions := SetStatusCondition now (Conditions st)
                     (mk_condition ConditionTypeReady status reason message);
     Phase := phase |}.

Definition initConditions (ts : TypesenseCluster)
    : prog (TypesenseCluster * option error) :=
  if decide (Conditions (Status ts) = []) then
    now ← trigger Now;
    patchStatus ts
      (ready_patcher now "Unknown" ConditionReasonReconciliationInProgress
         InitReconciliationMessage "Bootstrapping")
  else mret (ts, None).

Definition setConditionNotReady (ts : TypesenseCluster) (reason : string) (err : error)
    : prog (TypesenseCluster * option error) :=
  now ← trigger Now;
  patchStatus ts (ready_patcher now "False" reason (error_string err) reason).

Definition setConditionReady (ts : TypesenseCluster) (reason : string)
    : prog (TypesenseCluster * option error) :=
  now ← trigger Now;
  patchStatus ts (ready_patcher now "True" reason "Cluster is Ready" reason).

(** The first condition, if it is the [Ready] one; no condition is a panic. *)
Definition getConditionReady (ts : TypesenseCluster) : outcome (option Condition) :=
  condition ← index (Conditions (Status ts)) 0;
  mret (if decide (c_Type condition = ConditionTypeReady) then Some condition else None).

(** ** Discovery *)

(** The answer, the version found and the error *)
Definition IsFeatureSupported (minimum : string) : prog (bool * string * option error) :=
  info ← trigger ServerVersion;
  match info with
  | Err e => mret (false, "", Some e)
  | Ok git =>
      match ParseGeneric git with
      | Err e => mret (false, git, Some e)
      | Ok ver =>
          match ParseGeneric ("v" +:+ minimum) with
          | Err e => mret (false, git, Some e)
          | Ok req => mret (AtLeast ver req, git, None)
          end
      end
  end.

Definition IsApiGroupDeployed (apiGroup : string) : prog (bool * option error) :=
  r ← trigger ServerGroups;
  match r with
  | Err e => mret (false, Some e)
  | Ok groups => mret (bool_decide (apiGroup ∈ groups), None)
  end.

(** ** Lemmas *)

(** A [Ready] condition with the given status and reason *)
Definition is_ready_condition (status reason message : string) (c : Condition) : Prop :=
  c_Type c = ConditionTypeReady ∧ c_Status c = status
  ∧ c_Reason c = reason ∧ c_Message c = message.

(** Types of conditions are unique in a well-formed status. *)
Definition conditions_wf (l : list Condition) : Prop := NoDup (c_Type <$> l).

(** The [Ready] condition comes first, the shape [getConditionReady] expects. *)
Definition ready_first (ts : TypesenseCluster) : Prop :=
  ∃ c rest, Conditions (Status ts) = c :: rest ∧ c_Type c = ConditionTypeReady.

Lemma getConditionReady_ready_first ts :
  ready_first ts → ∃ c, getConditionReady ts = Done (Some c)
    ∧ head (Conditions (Status ts)) = Some c.
Proof.
  intros (c & rest & E & Hc). exists c. unfold getConditionReady, index. rewrite E.
  cbn. by rewrite decide_True.
Qed.

Section Laws.
Context `{!LibsLaws}.

Lemma ready_patcher_head now status reason message phase st :
  Conditions st = [] ∨ (∃ c rest, Conditions st = c :: rest ∧ c_Type c = ConditionTypeReady) →
  ∃ c rest, Conditions (ready_patcher now status reason message phase st) = c :: rest
    ∧ is_ready_condition status reason message c ∧ rest = tail (Conditions st).
Proof.
  intros [E|(c & rest & E & Hc)]; unfold ready_patcher, is_ready_condition; simpl; rewrite E.
  - destruct (SetStatusCondition_absent now []
      (mk_condition ConditionTypeReady status reason message)) as (c' & E' & ?); [constructor|].
    rewrite E'. by exists c', [].
  - destruct (SetStatusCondition_found now [] c rest
      (mk_condition ConditionTypeReady status reason message)) as (c' & E' & ?);
      [done|constructor|].
    simpl in E'. rewrite E'. by exists c', rest.
Qed.
End Laws.
End Conditions.
