(* ===== verification/StatefulSetOps.v ===== *)
(** * Operations on the StatefulSet and its pods

    The part of src/internal/controller/typesensecluster_statefulset.go that
    the quorum and ConfigMap reconcilers call: reading the StatefulSet afresh,
    scaling it, purging its pods, and finding and restarting the pods that
    cannot be scheduled. *)
From S2P Require Import Prelude GoLib K8s Api Effects External Utils Conditions.

(** [corev1.PodScheduled], [corev1.ConditionFalse] and
    [corev1.PodReasonUnschedulable] *)
Definition unschedulable_cond (cond : PodCondition) : bool :=
  String.eqb (pc_Type cond) "PodScheduled" && String.eqb (pc_Status cond) "False"
  && String.eqb (pc_Reason cond) "Unschedulable".
Definition PodPending : string := "Pending".

Section Ops.
Context `{L : Libs}.

Definition GetFreshStatefulSet (key : ObjectKey) : prog (result StatefulSet) :=
  trigger (Get KStatefulSet key).

(** The pods of a StatefulSet: its namespace, the labels of its selector *)
Definition list_pods (sts : StatefulSet) : prog (result (list Pod)) :=
  sel ← lift (deref (ss_Selector (sts_Spec sts)));
  trigger (ListObjs KPod {| lo_Namespace := Some (om_Namespace (sts_meta sts));
                            lo_Labels := ls_MatchLabels sel |}).

Definition with_replicas (n : Z) (sts : StatefulSet) : StatefulSet :=
  set_sts_Spec (set_ss_Replicas (Some n) (sts_Spec sts)) sts.

Definition ScaleStatefulSet (key : ObjectKey) (desiredReplicas : Z)
    : prog (option error) :=
  r ← GetFreshStatefulSet key;
  match r with
  | Err e => mret (Some e)
  | Ok sts =>
      if decide (ss_Replicas (sts_Spec sts) = Some desiredReplicas) then mret None
      else
        u ← trigger (Update KStatefulSet (with_replicas desiredReplicas sts));
        match u with
        | Err e => mret (Some e)
        | Ok _ => mret None
        end
  end.

Definition PurgeStatefulSetPods (sts : StatefulSet) (ts : TypesenseCluster)
    : prog (option error) :=
  r ← list_pods sts;
  match r with
  | Err e => mret (Some e)
  | Ok pods =>
      e ← for_err (λ pod, trigger (Delete KPod pod None)) pods;
      match e with
      | Some e => mret (Some e)
      | None =>
          trigger (Eventf ts "Warning" ConditionReasonQuorumPurged
                     (toTitle "quorum has been purged"));;
          mret None
      end
  end.

(** A pod appears once per matching condition. *)
Definition unscheduled_entries (pod : Pod) : list Pod :=
  if decide (pod_Phase pod = PodPending)
  then (λ _, pod) <$> filter (λ c, unschedulable_cond c = true) (pod_Conditions pod)
  else [].

Definition GetUnscheduledPods (sts : StatefulSet) : prog (result (list Pod)) :=
  r ← list_pods sts;
  match r with
  | Err e => mret (Err e)
  | Ok pods => mret (Ok (pods ≫= unscheduled_entries))
  end.

(** The loop over the pods: one deletion per matching condition; the flag says
    whether some deletion succeeded. *)
Definition delete_unscheduled (removedAny : bool) (pod : Pod) : prog bool :=
  if decide (pod_Phase pod = PodPending) then
    fold_prog (λ (removedAny : bool) (cond : PodCondition),
      if unschedulable_cond cond then
        err ← trigger (Delete KPod pod (Some "Background"));
        mret (if removedAny then true
              else match err with None => true | Some _ => false end)
      else mret removedAny) removedAny (pod_Conditions pod)
  else mret removedAny.

Definition RestartUnscheduledPods (pods : list Pod) (ts : TypesenseCluster)
    : prog (option error) :=
  removedAny ← fold_prog delete_unscheduled false pods;
  (if removedAny : bool then
     trigger (Eventf ts "Warning" ConditionReasonStatefulSetNotReady
                (toTitle "removed unscheduled pods"))
   else mret tt);;
  mret None.

Definition RestartAllUnscheduledPods (sts : StatefulSet) (ts : TypesenseCluster)
    : prog (option error) :=
  r ← list_pods sts;
  match r with
  | Err e => mret (Some e)
  | Ok pods =>
      removedAny ← fold_prog delete_unscheduled false pods;
      (if removedAny : bool then
         trigger (Eventf ts "Warning" ConditionReasonStatefulSetNotReady
                    (toTitle "removed unscheduled pods"))
       else mret tt);;
      mret None
  end.
End Ops.
