(* ===== verification/ConfigMap.v ===== *)
(** * The nodes-list ConfigMap (typesensecluster_configmap.go)

    The ConfigMap mounted into every Typesense pod: under [nodes] the raft
    endpoints the cluster should use, under [fallback] the bootstrap endpoints
    built from host names.  [getNodes] computes the former from the endpoint
    slices of the headless service; [updateConfigMap] writes both when they
    changed. *)
From S2P Require Import Prelude GoLib GoNet K8s Api Effects External Utils Conditions.
From S2P Require Import StatefulSetOps.
From Stdlib Require Import Ascii.
From Stdlib Require String.

Definition forceConfigMapUpdateAnnotationKey : string :=
  "ts.opentelekomcloud.com/forced-configmap-update-time".
Definition nodeNameLenLimit : Z := 64.

(** ["%s:%d:%d"] *)
Definition raft_endpoint (host : string) (peeringPort apiPort : Z) : string :=
  host +:+ ":" +:+ itoa peeringPort +:+ ":" +:+ itoa apiPort.

Section ConfigMaps.
Context `{L : Libs}.

Definition configMapObjectKey (ts : TypesenseCluster) : ObjectKey :=
  {| key_Namespace := ts_Namespace ts; key_Name := ClusterNodesConfigMap (ts_Name ts) |}.
Definition stsObjectKey (ts : TypesenseCluster) : ObjectKey :=
  {| key_Namespace := ts_Namespace ts; key_Name := ClusterStatefulSet (ts_Name ts) |}.

(** ** The list of nodes *)

Definition fallback_node_name (ts : TypesenseCluster) (i : nat) : string :=
  ts_Name ts +:+ "-sts-" +:+ itoa (Z.of_nat i) +:+ "." +:+ ts_Name ts +:+ "-sts-svc".

(** The loop of the closure [getFallbackNodes] *)
Fixpoint fallback_loop (ts : TypesenseCluster) (idx : list nat) (nodes : list string)
    : result (list string) :=
  match idx with
  | [] => Ok nodes
  | i :: idx' =>
      let nodeName := fallback_node_name ts i in
      if (nodeNameLenLimit <? Z.of_nat (String.length nodeName))%Z
      then Err (Errorf ("raft error: node name should not exceed "
                        +:+ itoa nodeNameLenLimit +:+ " characters: " +:+ nodeName))
      else fallback_loop ts idx'
             (nodes ++ [raft_endpoint nodeName (PeeringPort (Spec ts)) (ApiPort (Spec ts))])
  end.
Definition getFallbackNodes (ts : TypesenseCluster) (nodes : list string)
    : result (list string) :=
  fallback_loop ts (seq 0 (Z.to_nat (Replicas (Spec ts)))) nodes.

(** A pending pod with an [Unschedulable] condition counts once. *)
Definition is_unscheduled (pod : Pod) : bool :=
  bool_decide (pod_Phase pod = PodPending) && existsb unschedulable_cond (pod_Conditions pod).

Definition live_ip (pod : Pod) : bool :=
  match om_DeletionTimestamp (pod_meta pod) with None => true | Some _ => false end
  && (String.eqb (pod_Phase pod) "Running" || String.eqb (pod_Phase pod) PodPending)
  && negb (String.eqb (pod_PodIP pod) "").

Definition live_endpoint (liveIPs : gset string) (ep : Endpoint) : bool :=
  bool_decide (ep_TargetRef ep = Some "Pod")
  && match ep_Addresses ep with
     | ip :: _ => bool_decide (ip ∈ liveIPs)
     | [] => false
     end.

Definition getEndpointSlicesForStatefulSet (sts : StatefulSet)
    : prog (result (list EndpointSlice)) :=
  let svcName := ss_ServiceName (sts_Spec sts) in
  let namespace := om_Namespace (sts_meta sts) in
  sliceList ← trigger (ListObjs KEndpointSlice
    {| lo_Namespace := Some namespace;
       lo_Labels := {["kubernetes.io/service-name" := svcName]} |});
  match sliceList with
  | Err e => mret (Err e)
  | Ok slices =>
      podList ← list_pods sts;
      match podList with
      | Err e => mret (Err e)
      | Ok pods =>
          let liveIPs : gset string :=
            list_to_set (pod_PodIP <$> filter (λ p, live_ip p = true) pods) in
          mret (Ok (filter (λ s, existsb (live_endpoint liveIPs) (eps_Endpoints s) = true)
                      slices))
      end
  end.

(** The endpoints of the slices: the first address of each, if any *)
Definition endpoint_nodes (ts : TypesenseCluster) (eps : list EndpointSlice) : list string :=
  s ← eps; e ← eps_Endpoints s;
  match ep_Addresses e with
  | addr :: _ => [raft_endpoint addr (PeeringPort (Spec ts)) (ApiPort (Spec ts))]
  | [] => []
  end.

Definition getNodes (ts : TypesenseCluster) (replicas : Z) (bootstrapping : bool)
    : prog (result (list string)) :=
  if bootstrapping then mret (getFallbackNodes ts [])
  else
    r ← GetFreshStatefulSet (stsObjectKey ts);
    match r with
    | Err e =>
        if negb (IsNotFound e) then mret (Err e)
        else
          (* stsExists = false: unscheduledPods and targetReplicas are replicas *)
          let unscheduledPods := replicas in
          let targetReplicas := replicas in
          if (unscheduledPods =? targetReplicas)%Z then mret (getFallbackNodes ts [])
          else lift (Panicked "nil pointer dereference")
    | Ok sts =>
        r ← list_pods sts;
        match r with
        | Err _ => mret (getFallbackNodes ts [])
        | Ok pods =>
            let unscheduledPods :=
              int32 (Z.of_nat (length (filter (λ p, is_unscheduled p = true) pods))) in
            let targetReplicas := default 1%Z (ss_Replicas (sts_Spec sts)) in
            if (unscheduledPods =? targetReplicas)%Z then mret (getFallbackNodes ts [])
            else
              r ← getEndpointSlicesForStatefulSet sts;
              match r with
              | Err e => mret (Err e)
              | Ok eps => mret (Ok (endpoint_nodes ts eps))
              end
        end
    end.

(** ** Creating and updating the ConfigMap *)

Definition nodes_data (nodes fallback : list string) : smap :=
  <["nodes" := join_str nodes ","]> {["fallback" := join_str fallback ","]}.

Definition createConfigMap (key : ObjectKey) (ts : TypesenseCluster)
    : prog (result ConfigMap) :=
  r ← getNodes ts (Replicas (Spec ts)) true;
  match r with
  | Err e => mret (Err e)
  | Ok nodes =>
      let cm := {| cm_meta := getObjectMeta ts (Some (key_Name key)) ∅;
                   cm_Data := nodes_data nodes nodes |} in
      match SetControllerReference KTypesenseCluster (ts_meta ts) (cm_meta cm) with
      | Err e => mret (Err e)
      | Ok m => trigger (Create KConfigMap (set_cm_meta m cm))
      end
  end.

Definition deleteConfigMap (cm : ConfigMap) : prog (option error) :=
  trigger (Delete KConfigMap cm None).

(** The ConfigMap, the number of nodes, whether it was written, the error *)
Definition updateConfigMap (ts : TypesenseCluster) (cm : ConfigMap)
    (replicas : option Z) (resizeOp : bool)
    : prog (option ConfigMap * Z * bool * option error) :=
  r ← trigger (Get KStatefulSet (stsObjectKey ts));
  match r with
  | Err err =>
      if IsNotFound err then
        d ← deleteConfigMap cm;
        match d with
        | Some e => mret (None, 0%Z, false, Some e)
        | None => mret (None, 0%Z, false, Some err)
        end
      else mret (None, 0%Z, false, Some err)
  | Ok _ =>
      let replicas := default (Replicas (Spec ts)) replicas in
      r ← getNodes ts replicas false;
      match r with
      | Err e => mret (None, 0%Z, false, Some e)
      | Ok nodes =>
          r ← getNodes ts replicas true;
          match r with
          | Err e => mret (None, 0%Z, false, Some e)
          | Ok fallback =>
              let availableNodes := Z.of_nat (length nodes) in
              if (availableNodes =? 0)%Z
              then mret (None, 0%Z, false, Some (Errorf "empty quorum configuration"))
              else
                let desired := set_cm_Data (nodes_data nodes fallback) cm in
                if negb (String.eqb (map_get (cm_Data cm) "nodes")
                                    (map_get (cm_Data desired) "nodes"))
                   || negb (String.eqb (map_get (cm_Data cm) "fallback")
                                       (map_get (cm_Data desired) "fallback"))
                then
                  u ← trigger (Update KConfigMap desired);
                  match u with
                  | Err e => mret (None, 0%Z, false, Some e)
                  | Ok desired => mret (Some desired, availableNodes, true, None)
                  end
                else mret (Some desired, availableNodes, false, None)
          end
      end
  end.

(** [nil] after a creation, otherwise whether the ConfigMap was rewritten *)
Definition ReconcileConfigMap (ts : TypesenseCluster)
    : prog (option bool * option error) :=
  let key := configMapObjectKey ts in
  r ← trigger (Get KConfigMap key);
  match r with
  | Err err =>
      if IsNotFound err then
        c ← createConfigMap key ts;
        match c with
        | Err e => mret (None, Some e)
        | Ok _ => mret (None, None)
        end
      else mret (None, Some err)
  | Ok cm =>
      '(_, _, updated, err) ← updateConfigMap ts cm None false;
      match err with
      | Some e => mret (Some false, Some e)
      | None => mret (Some updated, None)
      end
  end.

(** ** Forcing the pods to see an update *)

Definition force_annotation (now : string) (pod : Pod) : Pod :=
  set_pod_meta (set_om_Annotations
    (<[forceConfigMapUpdateAnnotationKey := now]> (om_Annotations (pod_meta pod)))
    (pod_meta pod)) pod.

Definition forcePodsConfigMapUpdate (ts : TypesenseCluster) : prog (option error) :=
  r ← trigger (ListObjs KPod {| lo_Namespace := Some (ts_Namespace ts);
                                lo_Labels := getLabels ts |});
  match r with
  | Err e => mret (Some e)
  | Ok pods =>
      errs ← fold_prog (λ (errs : list error) (pod : Pod),
        match om_DeletionTimestamp (pod_meta pod) with
        | Some _ => mret errs
        | None =>
            now ← trigger Now;
            p ← trigger (Patch KPod pod (force_annotation now pod));
            match p with
            | Err e => mret (errs ++ [Wrap ("pod " +:+ om_Name (pod_meta pod)) e])
            | Ok _ => mret errs
            end
        end) [] pods;
      mret (NewAggregate errs)
  end.

(** ** Names *)

Definition ports_suffix (ts : TypesenseCluster) : string :=
  ":" +:+ itoa (PeeringPort (Spec ts)) +:+ ":" +:+ itoa (ApiPort (Spec ts)).

Definition getNodeEndpoint (ts : TypesenseCluster) (raftNodeEndpoint : string) : string :=
  if hasIP4Prefix raftNodeEndpoint
  then replace_str raftNodeEndpoint (ports_suffix ts) "" (Some 1)
  else
    let node := replace_str raftNodeEndpoint (ports_suffix ts) "" (Some 1) in
    node +:+ "." +:+ ts_Name ts +:+ "-sts-svc." +:+ ts_Namespace ts
    +:+ ".svc.cluster.local".

(** [strings.SplitN(s, ":", 2)[0]] *)
Definition before_colon (s : string) : string :=
  match index_str s ":" with Some i => take_str i s | None => s end.

Definition getShortName (raftNodeEndpoint : string) : string :=
  let host := before_colon raftNodeEndpoint in
  if hasIP4Prefix host then host
  else match index_str host "." with
       | Some idx => take_str idx host
       | None => host
       end.

(** Whether some node of the list still is a bootstrap (host name) endpoint *)
Definition hasBootstrapValues (ts : TypesenseCluster) (cm : ConfigMap) : result bool :=
  match cm_Data cm !! "nodes" with
  | None | Some "" => Err (Errorf "configmap is missing 'nodes' key")
  | Some rawNodeslist =>
      Ok (existsb (λ node, contains_str node (ClusterStatefulSet (ts_Name ts)))
            (split_on "," rawNodeslist))
  end.
End ConfigMaps.
