(* ===== verification/QuorumHelpers.v ===== *)
(** * Node and cluster state (typesensecluster_quorum_helpers.go,
      typesensecluster_quorum_types.go, typesensecluster_server_errors.go)

    How the operator learns the state of each Typesense node over HTTP, how it
    classifies the raft cluster from those states, and which quorum the nodes
    list and the pods describe. *)
From S2P Require Import Prelude GoLib GoNet GoJson K8s Api Effects External Utils Conditions.
From S2P Require Import StatefulSetOps ConfigMap.
From Stdlib Require Import Ascii.
From Stdlib Require String.

(** ** Types *)
Definition LeaderState : string := "LEADER".
Definition FollowerState : string := "FOLLOWER".
Definition CandidateState : string := "CANDIDATE".
Definition NotReadyState : string := "NOT_READY".
Definition ErrorState : string := "ERROR".
Definition UnreachableState : string := "UNREACHABLE".

Record NodeStatus := { CommittedIndex : Z; QueuedWrites : Z; State : string }.
Definition NodeStatus_zero : NodeStatus :=
  {| CommittedIndex := 0; QueuedWrites := 0; State := "" |}.
Definition with_State (s : string) (n : NodeStatus) : NodeStatus :=
  {| CommittedIndex := CommittedIndex n; QueuedWrites := QueuedWrites n; State := s |}.
(** [NodeStatus{State: s}] *)
Definition node_state (s : string) : NodeStatus := with_State s NodeStatus_zero.

(** The [json] tags of [NodeStatus] *)
Definition NodeStatus_fields : fields NodeStatus :=
  [("committed_index", int_field (λ z n, {| CommittedIndex := z; QueuedWrites := QueuedWrites n; State := State n |}));
   ("queued_writes", int_field (λ z n, {| CommittedIndex := CommittedIndex n; QueuedWrites := z; State := State n |}));
   ("state", string_field with_State)].

Inductive ClusterStatus :=
| ClusterStatusOK | ClusterStatusSplitBrain | ClusterStatusNotReady
| ClusterStatusElectionDeadlock.
#[export] Instance ClusterStatus_eq_dec : EqDecision ClusterStatus.
Proof. solve_decision. Defined.

Definition OutOfMemory : string := "OUT_OF_MEMORY".
Definition OutOfDisk : string := "OUT_OF_DISK".

Record NodeHealth := { health_Ok : bool; ResourceError : option string }.
Definition NodeHealth_zero : NodeHealth := {| health_Ok := false; ResourceError := None |}.
Definition NodeHealth_fields : fields NodeHealth :=
  [("ok", bool_field (λ b h, {| health_Ok := b; ResourceError := ResourceError h |}));
   ("resource_error", string_ptr_field (λ e h, {| health_Ok := health_Ok h; ResourceError := e |}))].

Record NodeEndpoint := { PodName : string; NodeIP : IP }.

Record Quorum := {
  MinRequiredNodes : Z;
  AvailableNodes : Z;
  Nodes : gmap string IP;
  NodesListConfigMap : ConfigMap;
}.

(** ** Server errors that require a pod to be terminated *)
Definition ErrFailedToStartPeeringState : string := "Failed to start peering state".
Definition ErrCannotTruncateLogsBeforeAppliedID : string :=
  "Can't truncate logs before _applied_id".
Definition ErrorsRequirePodTermination : list string :=
  [ErrFailedToStartPeeringState; ErrCannotTruncateLogsBeforeAppliedID].

Definition HealthyWriteLagKey : string := "TYPESENSE_HEALTHY_WRITE_LAG".
Definition HealthyWriteLagDefaultValue : Z := 500.
Definition HealthyReadLagKey : string := "TYPESENSE_HEALTHY_READ_LAG".
Definition HealthyReadLagDefaultValue : Z := 1000.

(** The fields of the reconciler that steer it; its clients are the calls. *)
Record Reconciler := { InCluster : bool }.

(** Every error of the list is non-nil here. *)
Definition inspectPodLogs (logs : string) (errs : list string) : bool :=
  existsb (contains_str logs) errs.

(** ** Classification of the cluster *)

(** Go's integer division truncates toward zero. *)
Definition getMinimumRequiredNodes (availableNodes : Z) : Z :=
  Z.quot (availableNodes - 1) 2 + 1.

(** The loop of [getClusterStatus]: leaders and nodes not ready so far *)
Definition count_states (acc : Z * Z) (st : NodeStatus) : Z * Z :=
  let '(leaderNodes, notReadyNodes) := acc in
  (if String.eqb (State st) LeaderState then leaderNodes + 1 else leaderNodes,
   if String.eqb (State st) NotReadyState || String.eqb (State st) UnreachableState
   then notReadyNodes + 1 else notReadyNodes)%Z.

Definition getClusterStatus (nodesStatus : gmap string NodeStatus) : ClusterStatus :=
  let availableNodes := Z.of_nat (size nodesStatus) in
  let minRequiredNodes := getMinimumRequiredNodes availableNodes in
  let '(leaderNodes, notReadyNodes) :=
    foldl count_states (0, 0)%Z (map_to_list nodesStatus).*2 in
  if (1 <? leaderNodes)%Z then ClusterStatusSplitBrain
  else if (leaderNodes =? 0)%Z then
    if (availableNodes <=? 1)%Z then ClusterStatusNotReady
    else if (availableNodes =? notReadyNodes)%Z then ClusterStatusNotReady
    else ClusterStatusElectionDeadlock
  else if (leaderNodes =? 1)%Z then
    if (availableNodes - notReadyNodes <? minRequiredNodes)%Z then ClusterStatusNotReady
    else ClusterStatusOK
  else ClusterStatusNotReady.

Section Helpers.
Context `{L : Libs} (r : Reconciler).

(** ** Talking to the nodes *)

(** The client is its timeout, in nanoseconds. *)
Definition getHttpClient (ts : TypesenseCluster) : prog (result Z) :=
  let timeout := int64 (HealthProbeTimeoutInMilliseconds (Spec ts) * 1000000) in
  if InCluster r then mret (Ok timeout)
  else
    e ← trigger HTTPClientFor;
    match e with
    | Some e => mret (Err e)
    | None => mret (Ok timeout)
    end.

Definition buildUrl (node : NodeEndpoint) (ts : TypesenseCluster) (port : Z) (path : string)
    : result string :=
  if negb (InCluster r) then
    Ok (ProxyURL (ts_Namespace ts) (getShortName (PodName node) +:+ ":" +:+ itoa port)
          (trim_prefix path "/"))
  else
    let host := getNodeEndpoint ts (IP_String (NodeIP node)) in
    JoinPath ("http://" +:+ host +:+ ":" +:+ itoa port) path.

Definition getNodeStatus (httpClient : Z) (node : NodeEndpoint) (ts : TypesenseCluster)
    (secret : Secret) (logs : string) : prog (NodeStatus * option error) :=
  match buildUrl node ts (ApiPort (Spec ts)) "/status" with
  | Err _ => mret (node_state UnreachableState, None)
  | Ok u =>
      match NewRequest u with
      | Some _ => mret (node_state ErrorState, None)
      | None =>
          let apiKey := map_get (sec_Data secret) ClusterAdminApiKeySecretKeyName in
          resp ← trigger (HttpGet httpClient u [("x-typesense-api-key", apiKey)]);
          match resp with
          | Err _ => mret (node_state UnreachableState, None)
          | Ok resp =>
              match hr_Body resp with
              | Err _ => mret (node_state ErrorState, None)
              | Ok body =>
                  match unmarshal NodeStatus_fields NodeStatus_zero body with
                  | None => mret (node_state ErrorState, None)
                  | Some nodeStatus =>
                      let nodeStatus :=
                        if String.eqb (State nodeStatus) "" then with_State ErrorState nodeStatus
                        else nodeStatus in
                      let nodeStatus :=
                        if inspectPodLogs logs ErrorsRequirePodTermination
                        then with_State ErrorState nodeStatus else nodeStatus in
                      mret (nodeStatus, None)
                  end
              end
          end
      end
  end.

Definition getNodeHealth (httpClient : Z) (node : NodeEndpoint) (ts : TypesenseCluster)
    (logs : string) : prog (NodeHealth * option error) :=
  match buildUrl node ts (ApiPort (Spec ts)) "/health" with
  | Err err => mret (NodeHealth_zero, Some err)
  | Ok u =>
      match NewRequest u with
      | Some _ => mret (NodeHealth_zero, None)
      | None =>
          resp ← trigger (HttpGet httpClient u []);
          match resp with
          | Err _ => mret (NodeHealth_zero, None)
          | Ok resp =>
              match hr_Body resp with
              | Err _ => mret (NodeHealth_zero, None)
              | Ok body =>
                  match unmarshal NodeHealth_fields NodeHealth_zero body with
                  | None => mret (NodeHealth_zero, None)
                  | Some nodeHealth =>
                      let contains := inspectPodLogs logs ErrorsRequirePodTermination in
                      mret (if health_Ok nodeHealth && contains
                            then {| health_Ok := false; ResourceError := ResourceError nodeHealth |}
                            else nodeHealth, None)
                  end
              end
          end
      end
  end.

Definition getPodLogs (node : NodeEndpoint) (namespace : string)
    : prog (string * option error) :=
  raw ← trigger (GetLogs namespace (PodName node) "typesense" 50);
  match raw with
  | Err e => mret ("", Some e)
  | Ok s => mret (s, None)
  end.

(** ** The quorum *)

(** The loop over the pods: those whose raft endpoint the list names *)
Definition add_quorum_node (ts : TypesenseCluster) (nodes : list string) (qn : gmap string IP)
    (pod : Pod) : gmap string IP :=
  if String.eqb (pod_PodIP pod) "" then qn
  else match contains nodes (raft_endpoint (pod_PodIP pod) (PeeringPort (Spec ts))
                               (ApiPort (Spec ts))) with
       | Some _ => <[om_Name (pod_meta pod) := ParseIP (pod_PodIP pod)]> qn
       | None => qn
       end.
Definition quorum_nodes (ts : TypesenseCluster) (nodes : list string) (pods : list Pod)
    : gmap string IP := foldl (add_quorum_node ts nodes) ∅ pods.

Definition getQuorum (ts : TypesenseCluster) (sts : StatefulSet) : prog (result Quorum) :=
  let configMapName := ClusterNodesConfigMap (ts_Name ts) in
  c ← trigger (Get KConfigMap (configMapObjectKey ts));
  match c with
  | Err err => mret (Err err)
  | Ok cm =>
      let missing := Err (Errorf ("configmap " +:+ configMapName +:+ " is missing 'nodes' key")) in
      match cm_Data cm !! "nodes" with
      | None => mret missing
      | Some rawNodes =>
          if blank_str rawNodes then mret missing
          else
            let nodes := split_on "," rawNodes in
            let availableNodes := Z.of_nat (length nodes) in
            let minRequiredNodes := getMinimumRequiredNodes (st_Replicas (sts_Status sts)) in
            p ← list_pods sts;
            match p with
            | Err err => mret (Err err)
            | Ok pods =>
                mret (Ok {| MinRequiredNodes := minRequiredNodes;
                            AvailableNodes := availableNodes;
                            Nodes := quorum_nodes ts nodes pods;
                            NodesListConfigMap := cm |})
            end
      end
  end.

(** ** Lag thresholds *)

Definition additional_config_key (ts : TypesenseCluster) (name : string) : ObjectKey :=
  {| key_Namespace := ts_Namespace ts; key_Name := name |}.

(** [getHealthyWriteLagThreshold] and [getHealthyReadLagThreshold] differ in the
    key and the default only. *)
Definition lag_threshold (key : string) (dflt : Z) (ts : TypesenseCluster) : prog Z :=
  match AdditionalServerConfiguration (Spec ts) with
  | None => mret dflt
  | Some configMapName =>
      c ← trigger (Get KConfigMap (additional_config_key ts configMapName));
      match c with
      | Err _ => mret dflt
      | Ok cm =>
          let value := map_get (cm_Data cm) key in
          if String.eqb value "" then mret dflt
          else match atoi value with
               | (_, Some _) => mret dflt
               | (lag, None) => mret lag
               end
      end
  end.
Definition getHealthyWriteLagThreshold (ts : TypesenseCluster) : prog Z :=
  lag_threshold HealthyWriteLagKey HealthyWriteLagDefaultValue ts.
Definition getHealthyReadLagThreshold (ts : TypesenseCluster) : prog Z :=
  lag_threshold HealthyReadLagKey HealthyReadLagDefaultValue ts.

(** Read and write threshold; here the value [Atoi] returns beside an error is
    used. *)
Definition getHealthyLagThresholds (ts : TypesenseCluster) : prog (Z * Z) :=
  match AdditionalServerConfiguration (Spec ts) with
  | None => mret (HealthyReadLagDefaultValue, HealthyWriteLagDefaultValue)
  | Some configMapName =>
      c ← trigger (Get KConfigMap (additional_config_key ts configMapName));
      match c with
      | Err _ => mret (HealthyReadLagDefaultValue, HealthyWriteLagDefaultValue)
      | Ok cm =>
          let or_default v d := if String.eqb v "" then itoa d else v in
          let readValue :=
            or_default (map_get (cm_Data cm) HealthyReadLagKey) HealthyReadLagDefaultValue in
          let writeValue :=
            or_default (map_get (cm_Data cm) HealthyWriteLagKey) HealthyWriteLagDefaultValue in
          mret (fst (atoi readValue), fst (atoi writeValue))
      end
  end.
End Helpers.
