(* ===== verification/Quorum.v ===== *)
(** * The quorum reconciler (typesensecluster_quorum.go)

    [ReconcileQuorum] reads the nodes list and the pods, asks every node for
    its raft status and its health, classifies the cluster, publishes the
    readiness gate of every pod, and decides whether the StatefulSet has to be
    scaled down to a single node, up again, or left alone.  Its body is cut
    into the stages below; each stage is a run of consecutive lines. *)
From S2P Require Import Prelude GoLib GoNet K8s Api Effects External Utils Conditions.
From S2P Require Import StatefulSetOps ConfigMap QuorumHelpers.
From Stdlib Require Import Ascii.
From Stdlib Require String.

Definition QuorumReadinessGateCondition : string := "RaftQuorumReady".

Definition nodeHealthy : string := "NodeHealthy".
Definition nodeNotHealthy : string := "NodeNotHealthy".
Definition nodeNotRecoverable : string := "NodeNotRecoverable".

(** The condition, the size and the error every quorum operation returns *)
Definition quorum_result : Type := string * Z * option error.
Definition not_ready (e : error) : quorum_result :=
  (ConditionReasonQuorumNotReady, 0%Z, Some e).

Section Quorum.
Context `{L : Libs} (r : Reconciler).

(** ** Readiness gates *)

Definition is_resource_error (h : NodeHealth) : bool :=
  match ResourceError h with
  | Some e => String.eqb e OutOfMemory || String.eqb e OutOfDisk
  | None => false
  end.

(** The assignments are kept in the order of the source: what the resource
    branch assigns to the reason is assigned again below it. *)
Definition gate_condition (nodeStatus : NodeStatus) (health : NodeHealth)
    (err : option error) : PodCondition :=
  let conditionReason := nodeHealthy in
  let conditionMessage := "node's role is now: " +:+ State nodeStatus in
  let conditionStatus := "True" in
  let '(conditionReason, conditionMessage, conditionStatus) :=
    match err with
    | Some _ => (nodeNotHealthy, conditionMessage, "False")
    | None =>
        if negb (health_Ok health) then
          let '(conditionReason, conditionMessage, conditionStatus) :=
            if is_resource_error health then
              (nodeNotRecoverable,
               "node is failing: " +:+ default "" (ResourceError health), "False")
            else (conditionReason, conditionMessage, conditionStatus) in
          let conditionReason := nodeNotHealthy in
          let conditionStatus := "False" in
          (conditionReason, conditionMessage, conditionStatus)
        else (conditionReason, conditionMessage, conditionStatus)
    end in
  {| pc_Type := QuorumReadinessGateCondition; pc_Status := conditionStatus;
     pc_Reason := conditionReason; pc_Message := conditionMessage |}.

Definition calculatePodReadinessGate (httpClient : Z) (node : NodeEndpoint)
    (nodeStatus : NodeStatus) (ts : TypesenseCluster) (logs : string) : prog PodCondition :=
  '(health, err) ← getNodeHealth r httpClient node ts logs;
  mret (gate_condition nodeStatus health err).

(** The loop over the conditions of the pod: the first one of the type is
    replaced, later ones are dropped. *)
Definition replace_condition (condition : PodCondition)
    (acc : bool * list PodCondition) (c : PodCondition) : bool * list PodCondition :=
  let '(found, updated) := acc in
  if String.eqb (pc_Type c) (pc_Type condition)
  then (true, if found then updated else updated ++ [condition])
  else (found, updated ++ [c]).
Definition updated_conditions (condition : PodCondition) (conds : list PodCondition)
    : list PodCondition :=
  let '(found, updated) := foldl (replace_condition condition) (false, []) conds in
  if (found : bool) then updated else updated ++ [condition].

Definition updatePodReadinessGate (podObjectKey : ObjectKey) (condition : PodCondition)
    : prog (option error) :=
  p ← trigger (Get KPod podObjectKey);
  match p with
  | Err _ => mret None
  | Ok pod =>
      u ← trigger (StatusPatch KPod pod
             (set_pod_Conditions (updated_conditions condition (pod_Conditions pod)) pod));
      match u with
      | Err e => mret (Some e)
      | Ok _ => mret None
      end
  end.

(** ** Scaling *)

Definition downgradeQuorum (ts : TypesenseCluster) (cm : ConfigMap) (stsObjectKey : ObjectKey)
    (healthyNodes minRequiredNodes : Z) : prog quorum_result :=
  g ← GetFreshStatefulSet stsObjectKey;
  match g with
  | Err err => mret (not_ready err)
  | Ok sts =>
      let desiredReplicas := 1%Z in
      err ← ScaleStatefulSet stsObjectKey desiredReplicas;
      match err with
      | Some err => mret (not_ready err)
      | None =>
          err ← (if (healthyNodes =? 0)%Z && (minRequiredNodes =? 1)%Z
                 then PurgeStatefulSetPods sts ts else mret None);
          match err with
          | Some err => mret (not_ready err)
          | None =>
              '(_, size, updated, err) ← updateConfigMap ts cm (Some desiredReplicas) true;
              match err with
              | Some err => mret (not_ready err)
              | None =>
                  (if (updated : bool) && ForceResetPeersConfigOnUpdate (Spec ts)
                   then _ ← forcePodsConfigMapUpdate ts; mret tt else mret tt);;
                  mret (ConditionReasonQuorumDowngraded, size, None)
              end
          end
      end
  end.

Definition upgrade_size (ts : TypesenseCluster) (sts : StatefulSet) : Z :=
  if IncrementalQuorumRecovery (Spec ts) then int32 (st_Replicas (sts_Status sts) + 1)
  else Replicas (Spec ts).

Definition upgradeQuorum (ts : TypesenseCluster) (cm : ConfigMap) (stsObjectKey : ObjectKey)
    : prog quorum_result :=
  g ← GetFreshStatefulSet stsObjectKey;
  match g with
  | Err err => mret (not_ready err)
  | Ok sts =>
      let size := upgrade_size ts sts in
      err ← ScaleStatefulSet stsObjectKey size;
      match err with
      | Some err => mret (not_ready err)
      | None =>
          '(_, _, updated, err) ← updateConfigMap ts cm (Some size) true;
          match err with
          | Some err => mret (not_ready err)
          | None =>
              (if (updated : bool) && ForceResetPeersConfigOnUpdate (Spec ts)
               then _ ← forcePodsConfigMapUpdate ts; mret tt else mret tt);;
              mret (ConditionReasonQuorumUpgraded, size, None)
          end
      end
  end.

(** ** The stages of [ReconcileQuorum] *)

(** The nodes of the quorum, in the order of their names *)
Definition node_endpoints (quorum : Quorum) : list NodeEndpoint :=
  (λ key, {| PodName := key; NodeIP := default None (Nodes quorum !! key) |})
  <$> sort_strings (map_to_list (Nodes quorum)).*1.

Definition gather_logs (ts : TypesenseCluster) (nodeEndpoints : list NodeEndpoint)
    : prog smap :=
  fold_prog (λ (logs : smap) ne,
    '(l, _) ← getPodLogs ne (ts_Namespace ts);
    mret (<[PodName ne := l]> logs)) ∅ nodeEndpoints.

(** Queued writes (the largest count reported) and the status of every node *)
Definition gather_status (httpClient : Z) (ts : TypesenseCluster) (secret : Secret)
    (logs : smap) (nodeEndpoints : list NodeEndpoint) : prog (Z * gmap string NodeStatus) :=
  fold_prog (λ (acc : Z * gmap string NodeStatus) ne,
    '(status, _) ← getNodeStatus r httpClient ne ts secret (map_get logs (PodName ne));
    let '(queuedWrites, nodesStatus) := acc in
    mret (if (0 <? QueuedWrites status)%Z && (queuedWrites <? QueuedWrites status)%Z
          then QueuedWrites status else queuedWrites,
          <[PodName ne := status]> nodesStatus)) (0%Z, ∅) nodeEndpoints.

(** The pod a node's readiness gate is written to *)
Definition gate_pod_key (ts : TypesenseCluster) (key : string) : ObjectKey :=
  let podPrefix := ClusterStatefulSet (ts_Name ts) in
  let podIndex := replace_str key (podPrefix +:+ "-") "" None in
  {| key_Namespace := ts_Namespace ts; key_Name := podPrefix +:+ "-" +:+ podIndex |}.

(** [nodesStatus[key]]: the zero value for an absent key *)
Definition status_of (nodesStatus : gmap string NodeStatus) (key : string) : NodeStatus :=
  default NodeStatus_zero (nodesStatus !! key).

(** Whether some node is not recoverable, and the health of every node; an
    error of a status patch ends the loop. *)
Fixpoint update_gates (httpClient : Z) (ts : TypesenseCluster)
    (nodesStatus : gmap string NodeStatus) (logs : smap)
    (clusterNeedsAttention : bool) (nodesHealth : gmap string bool)
    (nodeEndpoints : list NodeEndpoint) : prog (result (bool * gmap string bool)) :=
  match nodeEndpoints with
  | [] => mret (Ok (clusterNeedsAttention, nodesHealth))
  | ne :: rest =>
      let key := PodName ne in
      condition ← calculatePodReadinessGate httpClient ne (status_of nodesStatus key) ts
                    (map_get logs key);
      let clusterNeedsAttention :=
        if String.eqb (pc_Reason condition) nodeNotRecoverable then true
        else clusterNeedsAttention in
      let nodesHealth :=
        <[key := (parse_bool (pc_Status condition)).1]> nodesHealth in
      err ← updatePodReadinessGate (gate_pod_key ts key) condition;
      match err with
      | Some err => mret (Err err)
      | None => update_gates httpClient ts nodesStatus logs clusterNeedsAttention nodesHealth rest
      end
  end.

Definition count_healthy (nodesHealth : gmap string bool) : Z :=
  Z.of_nat (length (filter (λ kv, kv.2 = true) (map_to_list nodesHealth))).

(** Both branches that downgrade first look for bootstrap entries in the list. *)
Definition downgrade_unless_bootstrapping (ts : TypesenseCluster) (quorum : Quorum)
    (stsObjectKey : ObjectKey) (healthyNodes minRequiredNodes : Z) : prog quorum_result :=
  match hasBootstrapValues ts (NodesListConfigMap quorum) with
  | Err err => mret (not_ready err)
  | Ok true => mret (ConditionReasonQuorumNotReadyWaitATerm, 0%Z, None)
  | Ok false =>
      downgradeQuorum ts (NodesListConfigMap quorum) stsObjectKey healthyNodes minRequiredNodes
  end.

(** What follows [if clusterStatus == ClusterStatusNotReady] *)
Definition conclude (ts : TypesenseCluster) (sts : StatefulSet) (quorum : Quorum)
    (stsObjectKey : ObjectKey) (clusterStatus : ClusterStatus) (queuedWrites healthyNodes : Z)
    : prog quorum_result :=
  upgrade ← (if decide (clusterStatus = ClusterStatusOK) then
               n ← lift (deref (ss_Replicas (sts_Spec sts)));
               mret (n <? Replicas (Spec ts))%Z
             else mret false);
  if (upgrade : bool) then
    if (0 <? queuedWrites)%Z then mret (ConditionReasonQuorumQueuedWrites, 0%Z, None)
    else upgradeQuorum ts (NodesListConfigMap quorum) stsObjectKey
  else if (healthyNodes <? MinRequiredNodes quorum)%Z
  then mret (ConditionReasonQuorumNotReady, 0%Z, None)
  else mret (ConditionReasonQuorumReady, 0%Z, None).

(** The decision once the health of the nodes is known *)
Definition evaluate_quorum (ts : TypesenseCluster) (sts : StatefulSet) (quorum : Quorum)
    (stsObjectKey : ObjectKey) (clusterStatus : ClusterStatus)
    (nodesStatus : gmap string NodeStatus) (queuedWrites healthyWriteLagThreshold : Z)
    (nodesHealth : gmap string bool) : prog quorum_result :=
  let minRequiredNodes := MinRequiredNodes quorum in
  let availableNodes := AvailableNodes quorum in
  let healthyNodes := count_healthy nodesHealth in
  if (healthyWriteLagThreshold <? queuedWrites)%Z && (0 <? healthyNodes)%Z
  then mret (ConditionReasonQuorumNeedsAttentionClusterIsLagging, 0%Z, None)
  else
    let rest := conclude ts sts quorum stsObjectKey clusterStatus queuedWrites healthyNodes in
    match clusterStatus with
    | ClusterStatusElectionDeadlock =>
        downgrade_unless_bootstrapping ts quorum stsObjectKey
          (int32 healthyNodes) (int32 minRequiredNodes)
    | ClusterStatusNotReady =>
        if (availableNodes =? 1)%Z then
          let podName := ClusterStatefulSet (ts_Name ts) +:+ "-" +:+ itoa 0 in
          let state := State (status_of nodesStatus podName) in
          if String.eqb state ErrorState || String.eqb state UnreachableState then
            err ← PurgeStatefulSetPods sts ts;
            match err with
            | Some err => mret (not_ready err)
            | None => mret (ConditionReasonQuorumNotReady, 0%Z, None)
            end
          else mret (ConditionReasonQuorumNotReadyWaitATerm, 0%Z, None)
        else if (healthyNodes <? minRequiredNodes)%Z
        then mret (ConditionReasonQuorumNotReadyWaitATerm, 0%Z, None)
        else rest
    | _ => rest
    end.

(** From the collection of the logs to the end *)
Definition reconcile_nodes (ts : TypesenseCluster) (secret : Secret) (stsObjectKey : ObjectKey)
    (sts : StatefulSet) (quorum : Quorum) (httpClient healthyWriteLagThreshold : Z)
    : prog quorum_result :=
  let nodeEndpoints := node_endpoints quorum in
  logs ← gather_logs ts nodeEndpoints;
  '(queuedWrites, nodesStatus) ← gather_status httpClient ts secret logs nodeEndpoints;
  let clusterStatus := getClusterStatus nodesStatus in
  if decide (clusterStatus = ClusterStatusSplitBrain) then
    downgrade_unless_bootstrapping ts quorum stsObjectKey
      (st_ReadyReplicas (sts_Status sts)) (int32 (MinRequiredNodes quorum))
  else
    g ← update_gates httpClient ts nodesStatus logs false ∅ nodeEndpoints;
    match g with
    | Err err => mret (not_ready err)
    | Ok (clusterNeedsAttention, nodesHealth) =>
        if (clusterNeedsAttention : bool)
        then mret (ConditionReasonQuorumNeedsAttentionMemoryOrDiskIssue, 0%Z, None)
        else evaluate_quorum ts sts quorum stsObjectKey clusterStatus nodesStatus
               queuedWrites healthyWriteLagThreshold nodesHealth
    end.

Definition ReconcileQuorum (ts : TypesenseCluster) (secret : Secret) (stsObjectKey : ObjectKey)
    : prog quorum_result :=
  g ← GetFreshStatefulSet stsObjectKey;
  match g with
  | Err err => mret (not_ready err)
  | Ok sts =>
      q ← getQuorum ts sts;
      match q with
      | Err err => mret (not_ready err)
      | Ok quorum =>
          u ← GetUnscheduledPods sts;
          (match u with
           | Ok ((_ :: _) as unscheduledPods) =>
               _ ← RestartUnscheduledPods unscheduledPods ts; mret tt
           | _ => mret tt
           end);;
          if (AvailableNodes quorum <? MinRequiredNodes quorum)%Z
          then mret (ConditionReasonStatefulSetNotReady, 0%Z, None)
          else
            h ← getHttpClient r ts;
            match h with
            | Err err => mret (not_ready err)
            | Ok httpClient =>
                healthyWriteLagThreshold ← getHealthyWriteLagThreshold ts;
                reconcile_nodes ts secret stsObjectKey sts quorum httpClient
                  healthyWriteLagThreshold
            end
      end
  end.
End Quorum.
