(* ===== verification/Secret.v ===== *)
(** * The admin API key (typesensecluster_secret.go) *)
From S2P Require Import Prelude K8s Api Effects External Utils.

Section Secrets.
Context `{L : Libs}.

Definition getAdminApiKeyObjectKey (ts : TypesenseCluster) : ObjectKey :=
  match AdminApiKey (Spec ts) with
  | Some name => {| key_Namespace := ts_Namespace ts; key_Name := name |}
  | None => {| key_Namespace := ts_Namespace ts;
               key_Name := ClusterAdminApiKeySecret (ts_Name ts) |}
  end.

Definition createAdminApiKey (key : ObjectKey) (ts : TypesenseCluster) : prog (result Secret) :=
  t ← generateToken;
  match t with
  | Err e => mret (Err e)
  | Ok token =>
      let secret := {| sec_meta := getObjectMeta ts (Some (key_Name key)) ∅;
                       sec_Type := "Opaque"; sec_Immutable := Some true;
                       sec_Data := {[ClusterAdminApiKeySecretKeyName := token]} |} in
      match SetControllerReference KTypesenseCluster (ts_meta ts) (sec_meta secret) with
      | Err e => mret (Err e)
      | Ok m =>
          trigger (Create KSecret
            {| sec_meta := m; sec_Type := sec_Type secret;
               sec_Immutable := sec_Immutable secret; sec_Data := sec_Data secret |})
      end
  end.

Definition ReconcileSecret (ts : TypesenseCluster) : prog (result Secret) :=
  let key := getAdminApiKeyObjectKey ts in
  r ← trigger (Get KSecret key);
  match r with
  | Ok secret => mret (Ok secret)
  | Err err =>
      if IsNotFound err && bool_decide (AdminApiKey (Spec ts) = None)
      then createAdminApiKey key ts
      else mret (Err err)
  end.
End Secrets.
