(* ===== verification/Services.v ===== *)
(** * The services (typesensecluster_services.go)

    The headless service of the StatefulSet and the service clients use. *)
From S2P Require Import Prelude K8s Api Effects External Utils.

Section Services.
Context `{L : Libs}.

Definition http_port (ts : TypesenseCluster) : ServicePort :=
  {| sp_Name := "http"; sp_Protocol := ""; sp_Port := int32 (ApiPort (Spec ts));
     sp_TargetPort := 8108 |}.
Definition healthcheck_port : ServicePort :=
  {| sp_Name := "healthcheck"; sp_Protocol := ""; sp_Port := 8808; sp_TargetPort := 8808 |}.

Definition set_svc_meta (m : ObjectMeta) (s : Service) : Service :=
  {| svc_meta := m; svc_Type := svc_Type s; svc_ClusterIP := svc_ClusterIP s;
     svc_PublishNotReadyAddresses := svc_PublishNotReadyAddresses s;
     svc_Selector := svc_Selector s; svc_Ports := svc_Ports s |}.
Definition set_svc_Ports (ports : list ServicePort) (s : Service) : Service :=
  {| svc_meta := svc_meta s; svc_Type := svc_Type s; svc_ClusterIP := svc_ClusterIP s;
     svc_PublishNotReadyAddresses := svc_PublishNotReadyAddresses s;
     svc_Selector := svc_Selector s; svc_Ports := ports |}.

(** [svc.Spec.Ports[0].Port] and the assignment to it *)
Definition first_port (s : Service) : outcome Z := p ← index (svc_Ports s) 0; mret (sp_Port p).
Definition set_first_port (port : Z) (s : Service) : outcome Service :=
  match svc_Ports s with
  | p :: ports =>
      Done (set_svc_Ports ({| sp_Name := sp_Name p; sp_Protocol := sp_Protocol p;
                              sp_Port := port; sp_TargetPort := sp_TargetPort p |} :: ports) s)
  | [] => Panicked "index out of range"
  end.

Definition createHeadlessService (key : ObjectKey) (ts : TypesenseCluster)
    : prog (result Service) :=
  let svc := {| svc_meta := getObjectMeta ts (Some (key_Name key)) ∅;
                svc_Type := ""; svc_ClusterIP := "None";
                svc_PublishNotReadyAddresses := true; svc_Selector := getLabels ts;
                svc_Ports := [http_port ts] |} in
  match SetControllerReference KTypesenseCluster (ts_meta ts) (svc_meta svc) with
  | Err e => mret (Err e)
  | Ok m => trigger (Create KService (set_svc_meta m svc))
  end.

Definition updateHeadlessService (headless : Service) (ts : TypesenseCluster)
    : prog (option error) :=
  headless' ← lift (set_first_port (int32 (ApiPort (Spec ts))) headless);
  only_err (trigger (Patch KService headless headless')).

Definition createService (key : ObjectKey) (ts : TypesenseCluster) : prog (result Service) :=
  let svc := {| svc_meta := getObjectMeta ts (Some (key_Name key)) (ServiceAnnotations (Spec ts));
                svc_Type := "ClusterIP"; svc_ClusterIP := "";
                svc_PublishNotReadyAddresses := false; svc_Selector := getLabels ts;
                svc_Ports := [http_port ts; healthcheck_port] |} in
  match SetControllerReference KTypesenseCluster (ts_meta ts) (svc_meta svc) with
  | Err e => mret (Err e)
  | Ok m => trigger (Create KService (set_svc_meta m svc))
  end.

Definition updateService (svc : Service) (ts : TypesenseCluster) : prog (option error) :=
  svc' ← lift (set_first_port (int32 (ApiPort (Spec ts))) svc);
  let svc' := set_svc_meta
    (set_om_Annotations (ServiceAnnotations (Spec ts)) (svc_meta svc')) svc' in
  only_err (trigger (Patch KService svc svc')).

Definition deleteService (svc : Service) : prog (option error) :=
  trigger (Delete KService svc None).

Definition headlessObjectKey (ts : TypesenseCluster) : ObjectKey :=
  {| key_Namespace := ts_Namespace ts; key_Name := ClusterHeadlessService (ts_Name ts) |}.
Definition svcObjectKey (ts : TypesenseCluster) : ObjectKey :=
  {| key_Namespace := ts_Namespace ts; key_Name := ClusterRestService (ts_Name ts) |}.

Definition reconcile_headless (ts : TypesenseCluster) : prog (option error) :=
  g ← trigger (Get KService (headlessObjectKey ts));
  match g with
  | Err err =>
      if IsNotFound err then
        only_err (createHeadlessService (headlessObjectKey ts) ts)
      else mret (Some err)
  | Ok headless =>
      port ← lift (first_port headless);
      if (int32 (ApiPort (Spec ts)) =? port)%Z then mret None
      else updateHeadlessService headless ts
  end.

(** A service without the health check port is deleted and created again; the
    comparison that follows still looks at the deleted one. *)
Definition reconcile_rest (ts : TypesenseCluster) : prog (option error) :=
  g ← trigger (Get KService (svcObjectKey ts));
  match g with
  | Err err =>
      if IsNotFound err then
        only_err (createService (svcObjectKey ts) ts)
      else mret (Some err)
  | Ok svc =>
      err ← (if (length (svc_Ports svc) <? 2)%nat then
               d ← deleteService svc;
               match d with
               | Some e => mret (Some e)
               | None =>
                   only_err (createService (svcObjectKey ts) ts)
               end
             else mret None);
      match err with
      | Some e => mret (Some e)
      | None =>
          port ← lift (first_port svc);
          if negb (int32 (ApiPort (Spec ts)) =? port)%Z
             || negb (DeepEqual (om_Annotations (svc_meta svc)) (ServiceAnnotations (Spec ts)))
          then updateService svc ts
          else mret None
      end
  end.

Definition ReconcileServices (ts : TypesenseCluster) : prog (option error) :=
  err ← reconcile_headless ts;
  match err with
  | Some e => mret (Some e)
  | None => reconcile_rest ts
  end.
End Services.
