(* ===== verification/StatefulSetHash.v ===== *)
(** * When the StatefulSet differs from the specification
      (typesensecluster_statefulset_hash.go)

    The two predicates that decide whether the StatefulSet is replaced or
    scaled, and the hash of the pod template that the first one compares.  They
    dereference pointers and index slices, so they live in [outcome]. *)
From S2P Require Import Prelude GoLib GoCrypto K8s Api Effects External Utils Conditions.

Definition hashAnnotationKey : string := "ts.opentelekomcloud.com/pod-template-hash".
Definition readLagAnnotationKey : string := "ts.opentelekomcloud.com/read-lag-threshold".
Definition writeLagAnnotationKey : string := "ts.opentelekomcloud.com/write-lag-threshold".
Definition restartPodsAnnotationKey : string := "kubectl.kubernetes.io/restartedAt".
Definition rancherDomainAnnotationKey : string := "cattle.io".

Definition SpecReplicasChanged : string := "SpecReplicasChanged".
Definition HashAnnotationChanged : string := "HashAnnotationChanged".
Definition PodAnnotationsChanged : string := "PodAnnotationsChanged".
Definition StatefulSetAnnotationsChanged : string := "StatefulSetAnnotationsChanged".
Definition PodSecurityContextChanged : string := "PodSecurityContextChanged".
Definition InvalidContainerCount : string := "InvalidContainerCount".
Definition ContainerSecurityContextChanged : string := "ContainerSecurityContextChanged".
Definition SpecTypesenseVersionChanged : string := "SpecTypesenseVersionChanged".

Section Hash.
Context `{L : Libs}.

Definition containers (sts : StatefulSet) : list Container :=
  ps_Containers (pt_Spec (ss_Template (sts_Spec sts))).

(** [*sts.Spec.Replicas != ts.Spec.Replicas && (reason != A || reason != B)] *)
Definition replicas_changed (sts : StatefulSet) (ts : TypesenseCluster) (condition : Condition)
    : outcome bool :=
  n ← deref (ss_Replicas (sts_Spec sts));
  mret (negb (n =? Replicas (Spec ts))%Z
        && (negb (String.eqb (c_Reason condition) ConditionReasonQuorumDowngraded)
            || negb (String.eqb (c_Reason condition) ConditionReasonQuorumQueuedWrites))).

(** The security context of container [i] against the desired one *)
Definition container_context_changed (sts : StatefulSet) (i : nat)
    (desired : option SecurityContext) : outcome bool :=
  c ← index (containers sts) i;
  mret (negb (DeepEqual (ct_SecurityContext c) desired)).

(** One [if] of [shouldUpdateStatefulSet] that sets [update] *)
Definition trigger_if (changed : bool) (name : string) (acc : bool * list string)
    : bool * list string :=
  if changed then (true, acc.2 ++ [name]) else acc.

Definition sts_filters (ts : TypesenseCluster) : list string :=
  rancherDomainAnnotationKey :: IgnoreAnnotationsFromExternalMutations (Spec ts).
Definition pod_filters (ts : TypesenseCluster) : list string :=
  restartPodsAnnotationKey :: rancherDomainAnnotationKey
  :: IgnoreAnnotationsFromExternalMutations (Spec ts).

(** [update], [scaleOnly] and the triggers; [desired] is nil when it could not
    be built. *)
Definition shouldUpdateStatefulSet (sts : StatefulSet) (desired : option StatefulSet)
    (ts : TypesenseCluster) : outcome (bool * bool * list string) :=
  condition ← getConditionReady ts;
  match condition with
  | None => mret (false, false, [])
  | Some condition =>
      scaleOnly ← replicas_changed sts ts condition;
      let acc := (false, if (scaleOnly : bool) then [SpecReplicasChanged] else []) in
      desired ← deref desired;
      let acc := trigger_if
        (negb (String.eqb (map_get (template_annotations sts) hashAnnotationKey)
                          (map_get (template_annotations desired) hashAnnotationKey)))
        HashAnnotationChanged acc in
      let stsAnnotations := filterMap (om_Annotations (sts_meta sts)) (sts_filters ts) in
      let podAnnotations := filterMap (template_annotations sts) (pod_filters ts) in
      let acc := trigger_if (negb (DeepEqual podAnnotations (template_annotations desired)))
        PodAnnotationsChanged acc in
      let acc := trigger_if
        (negb (DeepEqual stsAnnotations (om_Annotations (sts_meta desired))))
        StatefulSetAnnotationsChanged acc in
      let acc := trigger_if
        (negb (DeepEqual (ps_SecurityContext (pt_Spec (ss_Template (sts_Spec sts))))
                         (GetPodSecurityContext (Spec ts))))
        PodSecurityContextChanged acc in
      let acc := trigger_if (length (containers sts) <? 3)%nat InvalidContainerCount acc in
      c0 ← container_context_changed sts 0 (GetTypesenseSecurityContext (Spec ts));
      let acc := trigger_if c0 ContainerSecurityContextChanged acc in
      c1 ← container_context_changed sts 1 (GetMetricsSecurityContext (Spec ts));
      let acc := trigger_if c1 ContainerSecurityContextChanged acc in
      c2 ← container_context_changed sts 2 (GetHealthcheckSecurityContext (Spec ts));
      let acc := trigger_if c2 ContainerSecurityContextChanged acc in
      mret (acc.1, scaleOnly, acc.2)
  end.

Definition shouldEmergencyUpdateStatefulSet (sts : StatefulSet) (ts : TypesenseCluster)
    : outcome bool :=
  condition ← getConditionReady ts;
  match condition with
  | None => mret false
  | Some condition =>
      or_else (replicas_changed sts ts condition)
      (or_else (c ← index (containers sts) 0;
                mret (negb (DeepEqual (ct_Resources c) (GetResources (Spec ts)))))
      (or_else (mret (negb (DeepEqual (ps_SecurityContext (pt_Spec (ss_Template (sts_Spec sts))))
                                      (GetPodSecurityContext (Spec ts)))))
      (or_else (mret (length (containers sts) <? 3)%nat)
      (or_else (container_context_changed sts 0 (GetTypesenseSecurityContext (Spec ts)))
      (or_else (container_context_changed sts 1 (GetMetricsSecurityContext (Spec ts)))
      (or_else (container_context_changed sts 2 (GetHealthcheckSecurityContext (Spec ts)))
      (mret false)))))))
  end.

(** ** The hash of the pod template *)

(** The loop over the environment sources: the data of every ConfigMap named *)
Fixpoint additional_conf_data (ts : TypesenseCluster) (acs : list EnvFromSource)
    (data : gmap string smap) : prog (result (gmap string smap)) :=
  match acs with
  | [] => mret (Ok data)
  | ac :: rest =>
      match efs_ConfigMapRef ac with
      | None => additional_conf_data ts rest data
      | Some name =>
          c ← trigger (Get KConfigMap {| key_Namespace := ts_Namespace ts; key_Name := name |});
          match c with
          | Err e => mret (Err e)
          | Ok cm => additional_conf_data ts rest (<[om_Name (cm_meta cm) := cm_Data cm]> data)
          end
      end
  end.

(** Deleting a key of a nil map is a no-op, so the template is hashed with the
    annotations it has. *)
Definition buildStatefulSetHash (sts : StatefulSet) (ts : TypesenseCluster)
    : prog (result string) :=
  d ← additional_conf_data ts (GetAdditionalServerConfiguration (Spec ts)) ∅;
  match d with
  | Err e => mret (Err e)
  | Ok additionalConfData =>
      c0 ← lift (index (containers sts) 0);
      c1 ← lift (index (containers sts) 1);
      c2 ← lift (index (containers sts) 2);
      let shi :=
        {| StsSpecAnnotations := template_annotations sts;
           PodSpecTemplate := pt_Spec (ss_Template (sts_Spec sts));
           TypesenseContainerResources := MarshalResources (ct_Resources c0);
           MetricsContainerResources := MarshalResources (ct_Resources c1);
           HealthcheckContainerResources := MarshalResources (ct_Resources c2);
           AdditionalConfigurationData := Some additionalConfData |} in
      match HashStructure shi with
      | Err e => mret (Err e)
      | Ok h => mret (Ok (sha256_hex (itoa h)))
      end
  end.
End Hash.
