(* ===== verification/StatefulSet.v ===== *)
(** * The StatefulSet reconciler (typesensecluster_statefulset.go)

    Building the StatefulSet a cluster should have, creating it, and replacing
    or scaling the existing one. *)
From S2P Require Import Prelude GoLib GoCrypto K8s Api Effects External Utils Conditions.
From S2P Require Import StatefulSetOps ConfigMap QuorumHelpers Quorum Secret StatefulSetHash.

Definition metricsPort : Z := 9100.

Section StatefulSets.
Context `{L : Libs}.

(** ** The desired StatefulSet *)

(** [for k, v := range src { dst[k] = v }] *)
Definition buildPodAnnotations (ts : TypesenseCluster) (readLag writeLag : Z) : smap :=
  let podAnnotations :=
    maps_Copy (<[writeLagAnnotationKey := itoa writeLag]> {[readLagAnnotationKey := itoa readLag]})
      (PodAnnotations (Spec ts)) in
  if PodsInheritStatefulSetAnnotations (Spec ts)
  then maps_Copy podAnnotations (StatefulSetAnnotations (Spec ts))
  else podAnnotations.

Definition api_key_env (ts : TypesenseCluster) : EnvVar :=
  env_from "TYPESENSE_API_KEY"
    (SecretKeyRef (key_Name (getAdminApiKeyObjectKey ts)) ClusterAdminApiKeySecretKeyName).

Definition volume_mount (name path : string) (ro : bool) : VolumeMount :=
  {| vm_Name := name; vm_MountPath := path; vm_SubPath := ""; vm_ReadOnly := ro;
     vm_rest := rest_zero |}.

Definition typesense_container (ts : TypesenseCluster) : Container :=
  {| ct_Name := "typesense";
     ct_Image := Image (Spec ts);
     ct_ImagePullPolicy := "IfNotPresent";
     ct_SecurityContext := GetTypesenseSecurityContext (Spec ts);
     ct_Ports := [{| cp_Name := "http"; cp_ContainerPort := int32 (ApiPort (Spec ts)) |}];
     ct_Env :=
       [api_key_env ts;
        env "TYPESENSE_NODES" "/usr/share/typesense/nodes";
        env "TYPESENSE_DATA_DIR" "/usr/share/typesense/data";
        env "TYPESENSE_API_PORT" (itoa (ApiPort (Spec ts)));
        env "TYPESENSE_PEERING_PORT" (itoa (PeeringPort (Spec ts)));
        env_from "TYPESENSE_PEERING_ADDRESS" (FieldRef "status.podIP");
        env "TYPESENSE_ENABLE_CORS" (format_bool (EnableCors (Spec ts)));
        env "TYPESENSE_CORS_DOMAINS" (GetCorsDomains (Spec ts));
        env "TYPESENSE_RESET_PEERS_ON_ERROR" (format_bool (ResetPeersOnError (Spec ts)))];
     ct_EnvFrom := GetAdditionalServerConfiguration (Spec ts);
     ct_Resources := GetResources (Spec ts);
     ct_VolumeMounts :=
       [volume_mount "nodeslist" "/usr/share/typesense" false;
        volume_mount "data" "/usr/share/typesense/data" false] |}.

Definition metrics_container (ts : TypesenseCluster) : Container :=
  {| ct_Name := "metrics-exporter";
     ct_Image := me_Image (GetMetricsExporterSpecs (Spec ts));
     ct_ImagePullPolicy := "IfNotPresent";
     ct_SecurityContext := GetMetricsSecurityContext (Spec ts);
     ct_Ports := [{| cp_Name := "metrics"; cp_ContainerPort := metricsPort |}];
     ct_Env :=
       [api_key_env ts;
        env "LOG_LEVEL" (itoa (me_LogLevel (GetMetricsExporterSpecs (Spec ts))));
        env "TYPESENSE_PROTOCOL" "http";
        env "TYPESENSE_HOST" "localhost";
        env "TYPESENSE_PORT" (itoa (ApiPort (Spec ts)));
        env "METRICS_PORT" (itoa metricsPort);
        env "TYPESENSE_CLUSTER" (ts_Name ts)];
     ct_EnvFrom := [];
     ct_Resources := GetMetricsExporterResources (Spec ts);
     ct_VolumeMounts := [] |}.

Definition healthcheck_container (ts : TypesenseCluster) : Container :=
  {| ct_Name := "healthcheck";
     ct_Image := hc_Image (GetHealthCheckSidecarSpecs (Spec ts));
     ct_ImagePullPolicy := "IfNotPresent";
     ct_SecurityContext := GetHealthcheckSecurityContext (Spec ts);
     ct_Ports := [{| cp_Name := "healthcheck"; cp_ContainerPort := 8808 |}];
     ct_Env :=
       [api_key_env ts;
        env "LOG_LEVEL" (itoa (hc_LogLevel (GetHealthCheckSidecarSpecs (Spec ts))));
        env "TYPESENSE_PROTOCOL" "http";
        env "TYPESENSE_API_PORT" (itoa (ApiPort (Spec ts)));
        env "TYPESENSE_PEERING_PORT" (itoa (PeeringPort (Spec ts)));
        env "HEALTHCHECK_PORT" (itoa 8808);
        env "TYPESENSE_NODES" "/usr/share/typesense/fallback";
        env "CLUSTER_NAMESPACE" (ts_Namespace ts)];
     ct_EnvFrom := [];
     ct_Resources := GetHealthCheckSidecarResources (Spec ts);
     ct_VolumeMounts := [volume_mount "nodeslist" "/usr/share/typesense" true] |}.

Definition pod_volumes (ts : TypesenseCluster) : list Volume :=
  [{| vol_Name := "nodeslist";
      vol_ConfigMap := Some {| cmv_Name := ClusterNodesConfigMap (ts_Name ts);
                               cmv_DefaultMode := None; cmv_rest := rest_zero |};
      vol_PersistentVolumeClaim := None; vol_rest := rest_zero |};
   {| vol_Name := "data"; vol_ConfigMap := None;
      vol_PersistentVolumeClaim := Some "data"; vol_rest := rest_zero |}].

Definition pod_spec (ts : TypesenseCluster) : PodSpec :=
  {| ps_SecurityContext := GetPodSecurityContext (Spec ts);
     ps_TerminationGracePeriodSeconds := Some (GetTerminationGracePeriodSeconds (Spec ts));
     ps_ReadinessGates := [QuorumReadinessGateCondition];
     ps_PriorityClassName := default "" (PriorityClassName (Spec ts));
     ps_ImagePullSecrets := ImagePullSecrets (Spec ts);
     ps_RestartPolicy := "";
     ps_Containers := [typesense_container ts; metrics_container ts; healthcheck_container ts];
     ps_Affinity := Affinity (Spec ts);
     ps_NodeSelector := NodeSelector (Spec ts);
     ps_Tolerations := Tolerations (Spec ts);
     ps_TopologySpreadConstraints := GetTopologySpreadConstraints (Spec ts) (getLabels ts);
     ps_Volumes := pod_volumes ts |}.

(** The storage class is the address of a field of [Spec.Storage], which may be
    nil: the default of [GetStorage] does not reach it. *)
Definition data_claim (ts : TypesenseCluster) : outcome PersistentVolumeClaim :=
  storage ← deref (Storage (Spec ts));
  mret {| pvc_meta := mk_meta "data" "" (getLabels ts) (sto_Annotations (GetStorage (Spec ts)));
          pvc_AccessModes := [sto_AccessMode (GetStorage (Spec ts))];
          pvc_Requests := {["storage" := sto_Size (GetStorage (Spec ts))]};
          pvc_StorageClassName := Some (sto_StorageClassName storage) |}.

(** The composite literal, before the hash is added *)
Definition sts_literal (key : ObjectKey) (ts : TypesenseCluster) (podAnnotations : smap)
    : outcome StatefulSet :=
  claim ← data_claim ts;
  mret {| sts_meta := getObjectMeta ts (Some (key_Name key))
                        (maps_Copy ∅ (StatefulSetAnnotations (Spec ts)));
          sts_Spec :=
            {| ss_ServiceName := ClusterHeadlessService (ts_Name ts);
               ss_PodManagementPolicy :=
                 if String.eqb (GetPodManagementPolicy (Spec ts)) "OrderedReady"
                 then "OrderedReady" else "Parallel";
               ss_Replicas := Some (Replicas (Spec ts));
               ss_Selector := Some (match_labels (getLabels ts));
               ss_Template := {| pt_meta := getObjectMeta ts (Some (key_Name key)) podAnnotations;
                                 pt_Spec := pod_spec ts |};
               ss_VolumeClaimTemplates := [claim] |};
          sts_Status := {| st_Replicas := 0; st_ReadyReplicas := 0 |} |}.

Definition set_hash_annotation (hash : string) (sts : StatefulSet) : StatefulSet :=
  set_template_annotations (<[hashAnnotationKey := hash]> (template_annotations sts)) sts.

Definition buildStatefulSet (key : ObjectKey) (ts : TypesenseCluster)
    : prog (result StatefulSet) :=
  '(readLagThreshold, writeLagThreshold) ← getHealthyLagThresholds ts;
  sts ← lift (sts_literal key ts (buildPodAnnotations ts readLagThreshold writeLagThreshold));
  h ← buildStatefulSetHash sts ts;
  match h with
  | Err e => mret (Err e)
  | Ok base16Hash => mret (Ok (set_hash_annotation base16Hash sts))
  end.

(** ** Creation and update *)

Definition createStatefulSet (key : ObjectKey) (ts : TypesenseCluster)
    : prog (result StatefulSet) :=
  b ← buildStatefulSet key ts;
  match b with
  | Err e => mret (Err e)
  | Ok sts =>
      match SetControllerReference KTypesenseCluster (ts_meta ts) (sts_meta sts) with
      | Err e => mret (Err e)
      | Ok m => trigger (Create KStatefulSet (set_sts_meta m sts))
      end
  end.

(** What [updateStatefulSet] makes of the StatefulSet before the patch.  The
    template of [sts] shares its annotations with [desired], so the hash read
    back from [desired] is the one already there; [desired] is not used again. *)
Definition updated_sts (now : string) (sts desired : StatefulSet) : StatefulSet :=
  let sts := set_sts_Spec (sts_Spec desired) sts in
  let sts := set_sts_meta
    (set_om_Annotations (om_Annotations (sts_meta desired)) (sts_meta sts)) sts in
  let sts := set_template_annotations
    (<[restartPodsAnnotationKey := now]> (template_annotations sts)) sts in
  set_template_annotations
    (<[hashAnnotationKey := map_get (template_annotations sts) hashAnnotationKey]>
       (template_annotations sts)) sts.

Definition updateStatefulSet (sts desired : StatefulSet) : prog (result StatefulSet) :=
  now ← trigger Now;
  trigger (Patch KStatefulSet sts (updated_sts now sts desired)).

(** What [logLagThresholds] reports after a round: the read and the write
    threshold.  It is the only effect of that call, so [ReconcileStatefulSet]
    below leaves the call out. *)
Definition logLagThresholds (sts : StatefulSet) : string * string :=
  let read := map_get (template_annotations sts) readLagAnnotationKey in
  let write := map_get (template_annotations sts) writeLagAnnotationKey in
  let read := if String.eqb read "" then itoa HealthyReadLagDefaultValue else read in
  let write := if String.eqb write "" then itoa HealthyWriteLagDefaultValue else write in
  (read, write).

(** ** [ReconcileStatefulSet] *)

Definition skipConditions : list string :=
  [ConditionReasonQuorumDowngraded;
   ConditionReasonQuorumUpgraded;
   ConditionReasonQuorumNeedsAttentionMemoryOrDiskIssue;
   ConditionReasonQuorumNotReady;
   ConditionReasonStatefulSetNotReady;
   ConditionReasonReconciliationInProgress;
   ConditionReasonQuorumNotReadyWaitATerm].

(** The StatefulSet (nil beside an error), whether it was updated, the error *)
Definition sts_result : Type := option StatefulSet * bool * option error.

(** The nodes-list ConfigMap; an error leaves the empty object. *)
Definition get_nodes_cm (ts : TypesenseCluster) : prog ConfigMap :=
  c ← trigger (Get KConfigMap (configMapObjectKey ts));
  mret (match c with Ok cm => cm | Err _ => cm_zero end).

Definition force_if_updated (ts : TypesenseCluster) (updated : bool) : prog unit :=
  if updated && ForceResetPeersConfigOnUpdate (Spec ts)
  then _ ← forcePodsConfigMapUpdate ts; mret tt else mret tt.

(** The branch [update && !scaleOnly] *)
Definition apply_update (ts : TypesenseCluster) (sts desiredSts : StatefulSet)
    : prog sts_result :=
  c ← lift (index (containers sts) 0);
  d ← lift (index (containers desiredSts) 0);
  let oldImage := getImageTag (ct_Image c) in
  let newImage := getImageTag (ct_Image d) in
  (if String.eqb oldImage newImage then mret tt
   else trigger (Eventf ts "Normal" "TypesenseVersionUpdate"
          ("Scheduled update from " +:+ oldImage +:+ " to " +:+ newImage)));;
  u ← updateStatefulSet sts desiredSts;
  match u with
  | Err err => mret (None, false, Some err)
  | Ok updatedSts =>
      cm ← get_nodes_cm ts;
      '(_, _, updated, _) ← updateConfigMap ts cm (ss_Replicas (sts_Spec updatedSts)) true;
      force_if_updated ts updated;;
      mret (Some updatedSts, true, None)
  end.

(** The branch [!update && scaleOnly] *)
Definition apply_scale (stsObjectKey : ObjectKey) (ts : TypesenseCluster)
    (desiredSts : option StatefulSet) : prog sts_result :=
  let size := Replicas (Spec ts) in
  err ← ScaleStatefulSet stsObjectKey size;
  match err with
  | Some err => mret (desiredSts, true, Some err)
  | None =>
      cm ← get_nodes_cm ts;
      '(_, _, updated, err) ← updateConfigMap ts cm (Some size) true;
      match err with
      | Some err => mret (desiredSts, true, Some err)
      | None =>
          force_if_updated ts updated;;
          mret (desiredSts, true, None)
      end
  end.

(** What is done to an existing StatefulSet; an error of [buildStatefulSet] is
    only logged, and leaves [desiredSts] nil. *)
Definition reconcile_existing (stsObjectKey : ObjectKey) (ts : TypesenseCluster)
    (sts : StatefulSet) : prog sts_result :=
  let unchanged := (Some sts, false, None) in
  condition ← lift (getConditionReady ts);
  match condition with
  | None => mret unchanged
  | Some condition =>
      emergencyUpdateRequired ← lift (shouldEmergencyUpdateStatefulSet sts ts);
      if bool_decide (contains skipConditions (c_Reason condition) = None)
         || (emergencyUpdateRequired : bool)
      then
        b ← buildStatefulSet stsObjectKey ts;
        let desiredSts := match b with Ok d => Some d | Err _ => None end in
        '(update, scaleOnly, _) ← lift (shouldUpdateStatefulSet sts desiredSts ts);
        if (update : bool) && negb scaleOnly then
          d ← lift (deref desiredSts); apply_update ts sts d
        else if negb update && (scaleOnly : bool) then apply_scale stsObjectKey ts desiredSts
        else mret unchanged
      else mret unchanged
  end.

Definition ReconcileStatefulSet (ts : TypesenseCluster) : prog sts_result :=
  g ← trigger (Get KStatefulSet (stsObjectKey ts));
  match g with
  | Err err =>
      if IsNotFound err then
        c ← createStatefulSet (stsObjectKey ts) ts;
        match c with
        | Err e => mret (None, false, Some e)
        | Ok sts => mret (Some sts, false, None)
        end
      else mret (None, false, Some err)
  | Ok sts => reconcile_existing (stsObjectKey ts) ts sts
  end.
End StatefulSets.
