(* ===== verification/Scraper.v ===== *)
(** * The DocSearch scrapers (typesensecluster_scraper.go)

    One CronJob per scraper of the specification; CronJobs of scrapers that are
    gone are deleted, changed ones are deleted and created again. *)
From S2P Require Import Prelude GoLib K8s Api Effects External Utils Secret.

Section Scrapers.
Context `{L : Libs}.

Definition scraperObjectKey (ts : TypesenseCluster) (s : DocSearchScraperSpec) : ObjectKey :=
  {| key_Namespace := ts_Namespace ts; key_Name := ClusterScraperCronJob (ds_Name s) |}.

Definition inSpecs (cronJobName : string) (scrapers : list DocSearchScraperSpec) : bool :=
  existsb (λ s, String.eqb cronJobName (ClusterScraperCronJob (ds_Name s))) scrapers.

Definition set_cj_meta (m : ObjectMeta) (c : CronJob) : CronJob :=
  {| cj_meta := m; cj_ConcurrencyPolicy := cj_ConcurrencyPolicy c;
     cj_SuccessfulJobsHistoryLimit := cj_SuccessfulJobsHistoryLimit c;
     cj_FailedJobsHistoryLimit := cj_FailedJobsHistoryLimit c;
     cj_Schedule := cj_Schedule c; cj_BackoffLimit := cj_BackoffLimit c;
     cj_Template := cj_Template c |}.

Definition scraper_container (ts : TypesenseCluster) (s : DocSearchScraperSpec) : Container :=
  {| ct_Name := ClusterScraperCronJobContainer (ds_Name s);
     ct_Image := ds_Image s;
     ct_ImagePullPolicy := "";
     ct_SecurityContext := None;
     ct_Ports := [];
     ct_Env :=
       [env "CONFIG" (ds_Config s);
        env_from "TYPESENSE_API_KEY"
          (SecretKeyRef (key_Name (getAdminApiKeyObjectKey ts)) ClusterAdminApiKeySecretKeyName);
        env "TYPESENSE_HOST" (ClusterRestService (ts_Name ts));
        env "TYPESENSE_PORT" (itoa (ApiPort (Spec ts)));
        env "TYPESENSE_PROTOCOL" "http"];
     ct_EnvFrom := GetScraperAuthConfiguration s;
     ct_Resources := cpu_memory "1024m" "512Mi" "128m" "112Mi";
     ct_VolumeMounts := [] |}.

Definition scraper_cronjob (key : ObjectKey) (ts : TypesenseCluster) (s : DocSearchScraperSpec)
    : CronJob :=
  {| cj_meta := getObjectMeta ts (Some (key_Name key)) ∅;
     cj_ConcurrencyPolicy := "Forbid";
     cj_SuccessfulJobsHistoryLimit := Some 1%Z;
     cj_FailedJobsHistoryLimit := Some 1%Z;
     cj_Schedule := ds_Schedule s;
     cj_BackoffLimit := Some 0%Z;
     cj_Template :=
       {| pt_meta := meta_zero;
          pt_Spec :=
            {| ps_SecurityContext := None; ps_TerminationGracePeriodSeconds := None;
               ps_ReadinessGates := []; ps_PriorityClassName := "";
               ps_ImagePullSecrets := ImagePullSecrets (Spec ts);
               ps_RestartPolicy := "Never"; ps_Containers := [scraper_container ts s];
               ps_Affinity := None; ps_NodeSelector := ∅; ps_Tolerations := [];
               ps_TopologySpreadConstraints := []; ps_Volumes := [] |} |} |}.

Definition createScraper (key : ObjectKey) (ts : TypesenseCluster) (s : DocSearchScraperSpec)
    : prog (option error) :=
  let scraper := scraper_cronjob key ts s in
  match SetControllerReference KTypesenseCluster (ts_meta ts) (cj_meta scraper) with
  | Err e => mret (Some e)
  | Ok m =>
      only_err (trigger (Create KCronJob (set_cj_meta m scraper)))
  end.

Definition deleteScraper (scraper : CronJob) : prog (option error) :=
  trigger (Delete KCronJob scraper None).

(** Only [CONFIG] variables count; any one that differs is a change. *)
Definition config_changed (env : list EnvVar) (s : DocSearchScraperSpec) : bool :=
  existsb (λ e, String.eqb (ev_Name e) "CONFIG" && negb (String.eqb (ev_Value e) (ds_Config s)))
    env.

Definition scraper_changed (cronjob : CronJob) (s : DocSearchScraperSpec) : outcome bool :=
  container ← index (ps_Containers (pt_Spec (cj_Template cronjob))) 0;
  mret (negb (String.eqb (cj_Schedule cronjob) (ds_Schedule s))
        || negb (String.eqb (ct_Image container) (ds_Image s))
        || config_changed (ct_Env container) s).

(** The body of the loop over the scrapers of the specification *)
Definition reconcile_scraper (ts : TypesenseCluster) (s : DocSearchScraperSpec)
    : prog (option error) :=
  let key := scraperObjectKey ts s in
  g ← trigger (Get KCronJob key);
  match g with
  | Err err => if IsNotFound err then createScraper key ts s else mret (Some err)
  | Ok cronjob =>
      hasChanged ← lift (scraper_changed cronjob s);
      if (hasChanged : bool) then
        err ← deleteScraper cronjob;
        match err with
        | Some err => mret (Some err)
        | None => createScraper key ts s
        end
      else mret None
  end.

Definition obsolete_scraper (ts : TypesenseCluster) (cronjob : CronJob) : bool :=
  match Scrapers (Spec ts) with
  | None => true
  | Some scrapers => negb (inSpecs (om_Name (cj_meta cronjob)) scrapers)
  end.

Definition ReconcileScraper (ts : TypesenseCluster) : prog (option error) :=
  l ← trigger (ListObjs KCronJob {| lo_Namespace := Some (ts_Namespace ts);
                                    lo_Labels := getLabels ts |});
  match l with
  | Err err => mret (Some err)
  | Ok cronjobs =>
      err ← for_err (λ c, if obsolete_scraper ts c then deleteScraper c else mret None) cronjobs;
      match err with
      | Some err => mret (Some err)
      | None =>
          match Scrapers (Spec ts) with
          | None => mret None
          | Some scrapers => for_err (reconcile_scraper ts) scrapers
          end
      end
  end.
End Scrapers.
