(* ===== verification/PodMonitors.v ===== *)
(** * The PodMonitor of the metrics exporter (typesensecluster_podmonitor.go) *)
From S2P Require Import Prelude GoLib K8s Api Effects External Utils Conditions.

Definition prometheusApiGroup : string := "monitoring.coreos.com".

Section PodMonitors.
Context `{L : Libs}.

Definition podMonitorObjectKey (ts : TypesenseCluster) : ObjectKey :=
  {| key_Namespace := ts_Namespace ts; key_Name := ClusterMetricsPodMonitor (ts_Name ts) |}.

Definition exporter_interval (m : MetricsExporterSpec) : string :=
  itoa (me_IntervalInSeconds m) +:+ "s".

Definition set_pmon_meta (m : ObjectMeta) (p : PodMonitor) : PodMonitor :=
  {| pmon_meta := m; pmon_Selector := pmon_Selector p;
     pmon_MatchNames := pmon_MatchNames p; pmon_Endpoints := pmon_Endpoints p |}.

(** [ts.Spec.Metrics] is not nil where this is called. *)
Definition createMetricsExporterPodMonitor (key : ObjectKey) (ts : TypesenseCluster)
    (metrics : MetricsExporterSpec) : prog (option error) :=
  let objectMeta := getPodMonitorObjectMeta ts (Some (key_Name key)) ∅ in
  let objectMeta := set_om_Labels (<["release" := me_Release metrics]> (om_Labels objectMeta))
                      objectMeta in
  let podMonitor :=
    {| pmon_meta := objectMeta;
       pmon_Selector := getLabels ts;
       pmon_MatchNames := [ts_Namespace ts];
       pmon_Endpoints := [{| pme_Port := "metrics"; pme_Path := "/metrics";
                             pme_Interval := exporter_interval metrics;
                             pme_Scheme := "http" |}] |} in
  match SetControllerReference KTypesenseCluster (ts_meta ts) (pmon_meta podMonitor) with
  | Err e => mret (Some e)
  | Ok m =>
      only_err (trigger (Create KPodMonitor (set_pmon_meta m podMonitor)))
  end.

Definition deleteMetricsExporterPodMonitor (podMonitor : PodMonitor) : prog (option error) :=
  trigger (Delete KPodMonitor podMonitor None).

Definition deleteMetricsExporterDeployment (deployment : Deployment) : prog (option error) :=
  trigger (Delete KDeployment deployment None).

(** [&appsv1.Deployment{}] *)
Definition dep_zero : Deployment :=
  {| dep_meta := meta_zero; dep_Replicas := None; dep_Selector := None;
     dep_Template :=
       {| pt_meta := meta_zero;
          pt_Spec :=
            {| ps_SecurityContext := None; ps_TerminationGracePeriodSeconds := None;
               ps_ReadinessGates := []; ps_PriorityClassName := "";
               ps_ImagePullSecrets := []; ps_RestartPolicy := ""; ps_Containers := [];
               ps_Affinity := None; ps_NodeSelector := ∅; ps_Tolerations := [];
               ps_TopologySpreadConstraints := []; ps_Volumes := [] |} |} |}.

(** Only a [NotFound] says that the deployment does not exist: after another
    error of the read, the empty object is deleted. *)
Definition deleteMetricsExporterServiceMonitor (ts : TypesenseCluster) : prog unit :=
  let delete deployment := (_ ← deleteMetricsExporterDeployment deployment; mret tt) in
  g ← trigger (Get KDeployment
        {| key_Namespace := ts_Namespace ts;
           key_Name := ClusterPrometheusExporterDeployment (ts_Name ts) |});
  match g with
  | Err err => if IsNotFound err then mret tt else delete dep_zero
  | Ok deployment => delete deployment
  end.

Definition podmonitor_changed (metrics : MetricsExporterSpec) (podMonitor : PodMonitor)
    : outcome bool :=
  if negb (String.eqb (me_Release metrics) (map_get (om_Labels (pmon_meta podMonitor)) "release"))
  then mret true
  else
    e ← index (pmon_Endpoints podMonitor) 0;
    mret (negb (String.eqb (exporter_interval metrics) (pme_Interval e))).

Definition reconcile_podmonitor (ts : TypesenseCluster) : prog (option error) :=
  g ← trigger (Get KPodMonitor (podMonitorObjectKey ts));
  match g, Metrics (Spec ts) with
  | Err err, metrics =>
      if IsNotFound err then
        match metrics with
        | None => mret None
        | Some metrics => createMetricsExporterPodMonitor (podMonitorObjectKey ts) ts metrics
        end
      else mret (Some err)
  | Ok podMonitor, None => deleteMetricsExporterPodMonitor podMonitor
  | Ok podMonitor, Some metrics =>
      changed ← lift (podmonitor_changed metrics podMonitor);
      if (changed : bool) then
        err ← deleteMetricsExporterPodMonitor podMonitor;
        match err with
        | Some err => mret (Some err)
        | None => createMetricsExporterPodMonitor (podMonitorObjectKey ts) ts metrics
        end
      else mret None
  end.

Definition ReconcilePodMonitor (ts : TypesenseCluster) : prog (option error) :=
  deleteMetricsExporterServiceMonitor ts;;
  '(deployed, err) ← IsApiGroupDeployed prometheusApiGroup;
  match err with
  | Some _ => mret None
  | None => if (deployed : bool) then reconcile_podmonitor ts else mret None
  end.
End PodMonitors.
