(* ===== verification/Ingresses.v ===== *)
(** * The reverse proxy (typesensecluster_ingress.go)

    An Ingress in front of an nginx Deployment, with the ConfigMap that holds
    the nginx configuration and a NodePort Service. *)
From S2P Require Import Prelude GoLib K8s Api Effects External Utils Services StatefulSetHash.
From Stdlib Require Import Ascii.
From Stdlib Require String.

Definition clusterIssuerAnnotationKey : string := "cert-manager.io/cluster-issuer".

(** ** The nginx configuration *)

Definition nl : string := String (ascii_of_nat 10) "".
Definition tab : string := String (ascii_of_nat 9) "".
Definition tabs (n : nat) : string := String.concat "" (replicate n tab).

(** [fmt.Sprintf(referer, s)] *)
Definition referer (s : string) : string :=
  "valid_referers server_names " +:+ s +:+ ";" +:+ nl
  +:+ tabs 5 +:+ "if ($invalid_referer) {" +:+ nl
  +:+ tabs 4 +:+ "  " +:+ tabs 2 +:+ "return 403;" +:+ nl
  +:+ tabs 5 +:+ "}".

(** [{{- if .X}} indent {{.X}} {{- end}}]: the dashes trim the space before the
    action, so the value is preceded by the text inside the [if] only. *)
Definition directive (indent value : string) : string :=
  if String.eqb value "" then "" else nl +:+ indent +:+ value.

(** The template [confTemplate] executed on its six fields *)
Definition confTemplate (HttpDirectives ServerDirectives LocationDirectives Referer
    ServiceName ServicePort : string) : string :=
  "events {}" +:+ nl
  +:+ tabs 2 +:+ "http {"
  +:+ directive (tabs 2 +:+ "  ") HttpDirectives +:+ nl
  +:+ tabs 2 +:+ "  server {" +:+ nl
  +:+ tabs 3 +:+ "listen 80;"
  +:+ directive (tabs 3) Referer
  +:+ directive (tabs 3) ServerDirectives +:+ nl
  +:+ tabs 3 +:+ "location / {" +:+ nl
  +:+ tabs 3 +:+ "  proxy_pass http://" +:+ ServiceName +:+ "-svc:" +:+ ServicePort +:+ "/;" +:+ nl
  +:+ tabs 3 +:+ "  proxy_pass_request_headers on;"
  +:+ directive (tabs 3 +:+ "  ") LocationDirectives +:+ nl
  +:+ tabs 3 +:+ "}" +:+ nl
  +:+ tabs 2 +:+ "  }" +:+ nl
  +:+ tabs 2 +:+ "}".

(** [strings.ReplaceAll(s, ";", ";\n")] of an optional directive *)
Definition directives (d : option string) : string :=
  match d with Some d => replace_str d ";" (";" +:+ nl) None | None => "" end.

Section Ingresses.
Context `{L : Libs}.

(** Parsing the constant template and executing it on strings cannot fail. *)
Definition getIngressNginxConf (ts : TypesenseCluster) : string :=
  let ig := IngressOf (Spec ts) in
  confTemplate (directives (ig ≫= is_HttpDirectives)) (directives (ig ≫= is_ServerDirectives))
    (directives (ig ≫= is_LocationDirectives))
    (match ig ≫= is_Referer with Some r => referer r | None => "" end)
    (ts_Name ts) (itoa (ApiPort (Spec ts))).

(** ** The Ingress *)

Definition set_ing_meta (m : ObjectMeta) (i : Ingress) : Ingress :=
  {| ing_meta := m; ing_IngressClassName := ing_IngressClassName i;
     ing_TLS := ing_TLS i; ing_Rules := ing_Rules i |}.

Definition tls_required (igs : IngressSpec) : bool :=
  match is_ClusterIssuer igs, is_TLSSecretName igs with Some _, None => true | _, _ => false end.

Definition ingress_annotations (igs : IngressSpec) : smap :=
  maps_Copy
    (match is_ClusterIssuer igs with
     | Some issuer => {[clusterIssuerAnnotationKey := issuer]}
     | None => ∅
     end) (is_Annotations igs).

Definition ingress_tls_secret (ts : TypesenseCluster) (igs : IngressSpec) : string :=
  match is_TLSSecretName igs, is_ClusterIssuer igs with
  | Some name, _ => name
  | None, Some issuer => ts_Name ts +:+ "-reverse-proxy-" +:+ issuer +:+ "-certificate-tls"
  | None, None => ""
  end.

(** [ts.Spec.Ingress] is not nil where these are called; they get it as [igs]. *)
Definition createIngress (key : ObjectKey) (ts : TypesenseCluster) (igs : IngressSpec)
    : prog (result Ingress) :=
  if tls_required igs
  then mret (Err (Errorf "tls secret name is required, skipping ingress creation"))
  else
    let ingress :=
      {| ing_meta := getObjectMeta ts (Some (key_Name key)) (ingress_annotations igs);
         ing_IngressClassName := Some (is_IngressClassName igs);
         ing_TLS := [{| tls_Hosts := [is_Host igs]; tls_SecretName := ingress_tls_secret ts igs |}];
         ing_Rules :=
           [{| ir_Host := is_Host igs;
               ir_Paths :=
                 Some [{| ip_Path := is_Path igs; ip_PathType := is_PathType igs;
                          ip_BackendService := ClusterReverseProxyService (ts_Name ts);
                          ip_BackendPort := 80 |}] |}] |} in
    match SetControllerReference KTypesenseCluster (ts_meta ts) (ing_meta ingress) with
    | Err e => mret (Err e)
    | Ok m => trigger (Create KIngress (set_ing_meta m ingress))
    end.

(** The assignments of [updateIngress]: the first rule, its first path, the
    annotations, the first TLS entry *)
Definition updated_ingress (ig : Ingress) (ts : TypesenseCluster) (igs : IngressSpec)
    : outcome Ingress :=
  rule ← index (ing_Rules ig) 0;
  paths ← deref (ir_Paths rule);
  path ← index paths 0;
  tls ← index (ing_TLS ig) 0;
  paths ← set_first {| ip_Path := is_Path igs; ip_PathType := is_PathType igs;
                       ip_BackendService := ip_BackendService path;
                       ip_BackendPort := ip_BackendPort path |} paths;
  rules ← set_first {| ir_Host := is_Host igs; ir_Paths := Some paths |} (ing_Rules ig);
  tlss ← set_first {| tls_Hosts := tls_Hosts tls; tls_SecretName := ingress_tls_secret ts igs |}
           (ing_TLS ig);
  mret {| ing_meta := set_om_Annotations (ingress_annotations igs) (ing_meta ig);
          ing_IngressClassName := Some (is_IngressClassName igs);
          ing_TLS := tlss; ing_Rules := rules |}.

Definition updateIngress (ig : Ingress) (ts : TypesenseCluster) (igs : IngressSpec)
    : prog (result Ingress) :=
  if tls_required igs
  then mret (Err (Errorf "tls secret name is required, skipping ingress update"))
  else
    ig' ← lift (updated_ingress ig ts igs);
    trigger (Patch KIngress ig ig').

Definition deleteIngress (ig : Ingress) : prog (option error) :=
  trigger (Delete KIngress ig None).

Definition getIngressAnnotations (ig : Ingress) (ts : TypesenseCluster) : smap :=
  filterMap (om_Annotations (ing_meta ig))
    (clusterIssuerAnnotationKey :: rancherDomainAnnotationKey
     :: IgnoreAnnotationsFromExternalMutations (Spec ts)).

(** The disjunction that decides on an update, with its short circuits *)
Definition ingress_changed (ig : Ingress) (ts : TypesenseCluster) (igs : IngressSpec)
    : outcome bool :=
  let first_path := (rule ← index (ing_Rules ig) 0; paths ← deref (ir_Paths rule); index paths 0) in
  or_else (rule ← index (ing_Rules ig) 0; mret (negb (String.eqb (is_Host igs) (ir_Host rule))))
  (or_else (mret (match is_ClusterIssuer igs with
                  | Some issuer =>
                      negb (String.eqb issuer
                        (map_get (om_Annotations (ing_meta ig)) clusterIssuerAnnotationKey))
                  | None => false
                  end))
  (or_else (mret (negb (DeepEqual (is_Annotations igs) (getIngressAnnotations ig ts))))
  (or_else (match is_TLSSecretName igs with
            | Some name => tls ← index (ing_TLS ig) 0; mret (negb (String.eqb name (tls_SecretName tls)))
            | None => mret false
            end)
  (or_else (class ← deref (ing_IngressClassName ig);
            mret (negb (String.eqb (is_IngressClassName igs) class)))
  (or_else (path ← first_path; mret (negb (String.eqb (is_Path igs) (ip_Path path))))
  (want ← deref (is_PathType igs);
   path ← first_path;
   have ← deref (ip_PathType path);
   mret (negb (String.eqb want have)))))))).

Definition ingressObjectKey (ts : TypesenseCluster) : ObjectKey :=
  {| key_Namespace := ts_Namespace ts; key_Name := ClusterReverseProxyIngress (ts_Name ts) |}.

(** ** The ConfigMap *)

Definition ingressConfigMapKey (ts : TypesenseCluster) : ObjectKey :=
  {| key_Namespace := ts_Namespace ts; key_Name := ClusterReverseProxyConfigMap (ts_Name ts) |}.

Definition createIngressConfigMap (key : ObjectKey) (ts : TypesenseCluster) (ig : Ingress)
    : prog (result ConfigMap) :=
  let icm := {| cm_meta := getReverseProxyObjectMeta ts (Some (key_Name key)) ∅;
                cm_Data := {["nginx.conf" := getIngressNginxConf ts]} |} in
  match SetControllerReference KIngress (ing_meta ig) (cm_meta icm) with
  | Err e => mret (Err e)
  | Ok m => trigger (Create KConfigMap (set_cm_meta m icm))
  end.

Definition updateIngressConfigMap (cm : ConfigMap) (ts : TypesenseCluster)
    : prog (result ConfigMap) :=
  trigger (Update KConfigMap (set_cm_Data {["nginx.conf" := getIngressNginxConf ts]} cm)).

Definition shouldUpdateIngressConfigMap (cm : ConfigMap) (ts : TypesenseCluster) : bool :=
  negb (String.eqb (map_get (cm_Data cm) "nginx.conf") (getIngressNginxConf ts)).

(** Whether the ConfigMap was updated *)
Definition reconcile_ingress_configmap (ts : TypesenseCluster) (ig : Ingress) : prog (result bool) :=
  g ← trigger (Get KConfigMap (ingressConfigMapKey ts));
  match g with
  | Err err =>
      if IsNotFound err then
        c ← createIngressConfigMap (ingressConfigMapKey ts) ts ig;
        mret (match c with Err e => Err e | Ok _ => Ok false end)
      else mret (Err err)
  | Ok cm =>
      if shouldUpdateIngressConfigMap cm ts then
        u ← updateIngressConfigMap cm ts;
        mret (match u with Err e => Err e | Ok _ => Ok true end)
      else mret (Ok false)
  end.

(** ** The Deployment *)

Definition getDefaultReverseProxyVolumes (tsClusterName : string) : list Volume :=
  [{| vol_Name := "nginx-config";
      vol_ConfigMap := Some {| cmv_Name := ClusterReverseProxyConfigMap tsClusterName;
                               cmv_DefaultMode := None; cmv_rest := rest_zero |};
      vol_PersistentVolumeClaim := None; vol_rest := rest_zero |}].
Definition getDefaultReverseProxyVolumeMounts : list VolumeMount :=
  [{| vm_Name := "nginx-config"; vm_MountPath := "/etc/nginx/nginx.conf";
      vm_SubPath := "nginx.conf"; vm_ReadOnly := false; vm_rest := rest_zero |}].

(** The security context of a read-only root filesystem *)
Definition ro_context (ro : ReadOnlyRootFilesystemSpec) : SecurityContext :=
  match ro_SecurityContext ro with
  | Some c => c
  | None => {| sc_ReadOnlyRootFilesystem := Some true; sc_rest := rest_zero |}
  end.
Definition proxy_volumes (ts : TypesenseCluster) (igs : IngressSpec) : list Volume :=
  getDefaultReverseProxyVolumes (ts_Name ts)
  ++ match is_ReadOnlyRootFilesystem igs with Some ro => ro_Volumes ro | None => [] end.
Definition proxy_mounts (igs : IngressSpec) : list VolumeMount :=
  getDefaultReverseProxyVolumeMounts
  ++ match is_ReadOnlyRootFilesystem igs with Some ro => ro_VolumeMounts ro | None => [] end.

Definition proxy_deployment (key : ObjectKey) (ts : TypesenseCluster) (igs : IngressSpec)
    : Deployment :=
  {| dep_meta := getReverseProxyObjectMeta ts (Some (key_Name key)) ∅;
     dep_Replicas := Some 3%Z;
     dep_Selector := Some (match_labels (getReverseProxyLabels ts));
     dep_Template :=
       {| pt_meta := mk_meta "" "" (getReverseProxyLabels ts) ∅;
          pt_Spec :=
            {| ps_SecurityContext := None; ps_TerminationGracePeriodSeconds := None;
               ps_ReadinessGates := []; ps_PriorityClassName := "";
               ps_ImagePullSecrets := ImagePullSecrets (Spec ts); ps_RestartPolicy := "";
               ps_Containers :=
                 [{| ct_Name := ClusterReverseProxy (ts_Name ts); ct_Image := is_Image igs;
                     ct_ImagePullPolicy := "";
                     ct_SecurityContext := ro_context <$> is_ReadOnlyRootFilesystem igs;
                     ct_Ports := [{| cp_Name := ""; cp_ContainerPort := 80 |}];
                     ct_Env := []; ct_EnvFrom := [];
                     ct_Resources := GetReverseProxyResources igs;
                     ct_VolumeMounts := proxy_mounts igs |}];
               ps_Affinity := None; ps_NodeSelector := ∅; ps_Tolerations := [];
               ps_TopologySpreadConstraints := []; ps_Volumes := proxy_volumes ts igs |} |} |}.

Definition set_dep_meta (m : ObjectMeta) (d : Deployment) : Deployment :=
  {| dep_meta := m; dep_Replicas := dep_Replicas d; dep_Selector := dep_Selector d;
     dep_Template := dep_Template d |}.

Definition createIngressDeployment (key : ObjectKey) (ts : TypesenseCluster) (igs : IngressSpec)
    (ig : Ingress) : prog (result Deployment) :=
  let deployment := proxy_deployment key ts igs in
  match SetControllerReference KIngress (ing_meta ig) (dep_meta deployment) with
  | Err e => mret (Err e)
  | Ok m => trigger (Create KDeployment (set_dep_meta m deployment))
  end.

(** The parts of the Deployment that are kept in sync: its first container and
    its volumes *)
Record ProxyPod := { px_Container : Container; px_Volumes : list Volume }.

Definition set_ct_Resources (q : ResourceRequirements) (c : Container) : Container :=
  {| ct_Name := ct_Name c; ct_Image := ct_Image c; ct_ImagePullPolicy := ct_ImagePullPolicy c;
     ct_SecurityContext := ct_SecurityContext c; ct_Ports := ct_Ports c; ct_Env := ct_Env c;
     ct_EnvFrom := ct_EnvFrom c; ct_Resources := q; ct_VolumeMounts := ct_VolumeMounts c |}.
Definition set_ct_Image (i : string) (c : Container) : Container :=
  {| ct_Name := ct_Name c; ct_Image := i; ct_ImagePullPolicy := ct_ImagePullPolicy c;
     ct_SecurityContext := ct_SecurityContext c; ct_Ports := ct_Ports c; ct_Env := ct_Env c;
     ct_EnvFrom := ct_EnvFrom c; ct_Resources := ct_Resources c;
     ct_VolumeMounts := ct_VolumeMounts c |}.
Definition set_ct_SecurityContext (s : option SecurityContext) (c : Container) : Container :=
  {| ct_Name := ct_Name c; ct_Image := ct_Image c; ct_ImagePullPolicy := ct_ImagePullPolicy c;
     ct_SecurityContext := s; ct_Ports := ct_Ports c; ct_Env := ct_Env c;
     ct_EnvFrom := ct_EnvFrom c; ct_Resources := ct_Resources c;
     ct_VolumeMounts := ct_VolumeMounts c |}.
Definition set_ct_VolumeMounts (v : list VolumeMount) (c : Container) : Container :=
  {| ct_Name := ct_Name c; ct_Image := ct_Image c; ct_ImagePullPolicy := ct_ImagePullPolicy c;
     ct_SecurityContext := ct_SecurityContext c; ct_Ports := ct_Ports c; ct_Env := ct_Env c;
     ct_EnvFrom := ct_EnvFrom c; ct_Resources := ct_Resources c; ct_VolumeMounts := v |}.

(** The pod of a Deployment, and the Deployment with a changed pod *)
Definition proxy_pod (d : Deployment) : outcome ProxyPod :=
  c ← index (ps_Containers (pt_Spec (dep_Template d))) 0;
  mret {| px_Container := c; px_Volumes := ps_Volumes (pt_Spec (dep_Template d)) |}.
Definition with_proxy_pod (p : ProxyPod) (annotations : smap) (d : Deployment) : Deployment :=
  let s := pt_Spec (dep_Template d) in
  {| dep_meta := dep_meta d; dep_Replicas := dep_Replicas d; dep_Selector := dep_Selector d;
     dep_Template :=
       {| pt_meta := set_om_Annotations annotations (pt_meta (dep_Template d));
          pt_Spec :=
            {| ps_SecurityContext := ps_SecurityContext s;
               ps_TerminationGracePeriodSeconds := ps_TerminationGracePeriodSeconds s;
               ps_ReadinessGates := ps_ReadinessGates s;
               ps_PriorityClassName := ps_PriorityClassName s;
               ps_ImagePullSecrets := ps_ImagePullSecrets s;
               ps_RestartPolicy := ps_RestartPolicy s;
               ps_Containers := px_Container p :: tail (ps_Containers s);
               ps_Affinity := ps_Affinity s; ps_NodeSelector := ps_NodeSelector s;
               ps_Tolerations := ps_Tolerations s;
               ps_TopologySpreadConstraints := ps_TopologySpreadConstraints s;
               ps_Volumes := px_Volumes p |} |} |}.

Definition sync_resources (igs : IngressSpec) (p : ProxyPod) : bool * ProxyPod :=
  let desired := GetReverseProxyResources igs in
  if DeepEqual desired (ct_Resources (px_Container p)) then (false, p)
  else (true, {| px_Container := set_ct_Resources desired (px_Container p);
                 px_Volumes := px_Volumes p |}).
Definition sync_image (igs : IngressSpec) (p : ProxyPod) : bool * ProxyPod :=
  if DeepEqual (is_Image igs) (ct_Image (px_Container p)) then (false, p)
  else (true, {| px_Container := set_ct_Image (is_Image igs) (px_Container p);
                 px_Volumes := px_Volumes p |}).

(** The [ReadOnlyRootFilesystem] block: the flag, the pod, and the volumes of
    the specification, which [needsSyncVolumes] changes as well. *)
Definition sync_volumes (ts : TypesenseCluster) (ro : ReadOnlyRootFilesystemSpec) (p : ProxyPod)
    : bool * ProxyPod * ReadOnlyRootFilesystemSpec :=
  let defaults := getDefaultReverseProxyVolumes (ts_Name ts) in
  let '(sync, desired', existing') := needsSyncVolumes (defaults ++ ro_Volumes ro) (px_Volumes p) in
  (sync,
   {| px_Container := px_Container p; px_Volumes := if (sync : bool) then desired' else existing' |},
   {| ro_SecurityContext := ro_SecurityContext ro;
      ro_Volumes := drop (length defaults) desired';
      ro_VolumeMounts := ro_VolumeMounts ro |}).

Definition sync_readonly (ts : TypesenseCluster) (igs : IngressSpec) (p : ProxyPod)
    : bool * ProxyPod * option ReadOnlyRootFilesystemSpec :=
  match is_ReadOnlyRootFilesystem igs with
  | None =>
      match ct_SecurityContext (px_Container p) with
      | None => (false, p, None)
      | Some _ =>
          (true, {| px_Container :=
                      set_ct_VolumeMounts getDefaultReverseProxyVolumeMounts
                        (set_ct_SecurityContext None (px_Container p));
                    px_Volumes := getDefaultReverseProxyVolumes (ts_Name ts) |}, None)
      end
  | Some ro =>
      let securityContext := ro_context ro in
      let '(b1, p) :=
        if DeepEqual (Some securityContext) (ct_SecurityContext (px_Container p)) then (false, p)
        else (true, {| px_Container :=
                         set_ct_SecurityContext (Some securityContext) (px_Container p);
                       px_Volumes := px_Volumes p |}) in
      let '(b2, p, ro') := sync_volumes ts ro p in
      let desiredMounts := getDefaultReverseProxyVolumeMounts ++ ro_VolumeMounts ro in
      let '(b3, p) :=
        if needsSyncMounts desiredMounts (ct_VolumeMounts (px_Container p))
        then (true, {| px_Container := set_ct_VolumeMounts desiredMounts (px_Container p);
                       px_Volumes := px_Volumes p |})
        else (false, p) in
      (b1 || b2 || b3, p, Some ro')
  end.

(** The cluster as the caller finds it after its volumes were normalised *)
Definition set_ReadOnlyRootFilesystem (ro : option ReadOnlyRootFilesystemSpec) (s : IngressSpec)
    : IngressSpec :=
  {| is_Referer := is_Referer s; is_Host := is_Host s; is_HttpDirectives := is_HttpDirectives s;
     is_ServerDirectives := is_ServerDirectives s;
     is_LocationDirectives := is_LocationDirectives s; is_ClusterIssuer := is_ClusterIssuer s;
     is_IngressClassName := is_IngressClassName s; is_ServiceAnnotations := is_ServiceAnnotations s;
     is_Annotations := is_Annotations s; is_TLSSecretName := is_TLSSecretName s;
     is_Resources := is_Resources s; is_Image := is_Image s; is_ReadOnlyRootFilesystem := ro;
     is_Path := is_Path s; is_PathType := is_PathType s |}.

Definition deploymentObjectKey (ts : TypesenseCluster) : ObjectKey :=
  {| key_Namespace := ts_Namespace ts; key_Name := ClusterReverseProxy (ts_Name ts) |}.

(** The specification as mutated, and the error *)
Definition reconcile_ingress_deployment (ts : TypesenseCluster) (igs : IngressSpec) (ig : Ingress)
    (configMapUpdated : bool) : prog (IngressSpec * option error) :=
  g ← trigger (Get KDeployment (deploymentObjectKey ts));
  match g with
  | Err err =>
      if IsNotFound err then
        err ← only_err (createIngressDeployment (deploymentObjectKey ts) ts igs ig);
        mret (igs, err)
      else mret (igs, Some err)
  | Ok deployment =>
      p ← lift (proxy_pod deployment);
      let '(resources, p) := sync_resources igs p in
      let '(image, p) := sync_image igs p in
      let '(readonly, p, ro) := sync_readonly ts igs p in
      let igs := set_ReadOnlyRootFilesystem ro igs in
      if configMapUpdated || resources || image || readonly then
        now ← trigger Now;
        let annotations :=
          <[restartPodsAnnotationKey := now]> (om_Annotations (pt_meta (dep_Template deployment))) in
        err ← only_err (trigger (Update KDeployment (with_proxy_pod p annotations deployment)));
        mret (igs, err)
      else mret (igs, None)
  end.

(** ** The Service *)

Definition createIngressService (key : ObjectKey) (ts : TypesenseCluster) (igs : IngressSpec)
    (ig : Ingress) : prog (result Service) :=
  let service :=
    {| svc_meta := getReverseProxyObjectMeta ts (Some (key_Name key)) (is_ServiceAnnotations igs);
       svc_Type := "NodePort"; svc_ClusterIP := ""; svc_PublishNotReadyAddresses := false;
       svc_Selector := getReverseProxyLabels ts;
       svc_Ports := [{| sp_Name := "http"; sp_Protocol := "TCP"; sp_Port := 80;
                        sp_TargetPort := 80 |}] |} in
  match SetControllerReference KIngress (ing_meta ig) (svc_meta service) with
  | Err e => mret (Err e)
  | Ok m => trigger (Create KService (set_svc_meta m service))
  end.

Definition updateIngressService (svc : Service) (ts : TypesenseCluster) (igs : IngressSpec)
    : prog (option error) :=
  only_err (trigger (Patch KService svc
    (set_svc_meta (set_om_Annotations (is_ServiceAnnotations igs) (svc_meta svc)) svc))).

Definition ingressServiceKey (ts : TypesenseCluster) : ObjectKey :=
  {| key_Namespace := ts_Namespace ts; key_Name := ClusterReverseProxyService (ts_Name ts) |}.

Definition reconcile_ingress_service (ts : TypesenseCluster) (igs : IngressSpec) (ig : Ingress)
    : prog (option error) :=
  g ← trigger (Get KService (ingressServiceKey ts));
  match g with
  | Err err =>
      if IsNotFound err
      then only_err (createIngressService (ingressServiceKey ts) ts igs ig)
      else mret (Some err)
  | Ok service =>
      if DeepEqual (om_Annotations (svc_meta service)) (is_ServiceAnnotations igs) then mret None
      else updateIngressService service ts igs
  end.

(** ** [ReconcileIngress] *)

(** Everything behind the Ingress once it is in place *)
Definition reconcile_proxy (ts : TypesenseCluster) (igs : IngressSpec) (ig : Ingress)
    : prog (IngressSpec * option error) :=
  c ← reconcile_ingress_configmap ts ig;
  match c with
  | Err err => mret (igs, Some err)
  | Ok configMapUpdated =>
      '(igs, err) ← reconcile_ingress_deployment ts igs ig configMapUpdated;
      match err with
      | Some err => mret (igs, Some err)
      | None =>
          err ← reconcile_ingress_service ts igs ig;
          mret (igs, err)
      end
  end.

(** The Ingress to work with: created, updated or as it is *)
Definition reconcile_ingress_object (ts : TypesenseCluster) (igs : IngressSpec)
    (existing : option Ingress) : prog (result Ingress) :=
  match existing with
  | None => createIngress (ingressObjectKey ts) ts igs
  | Some ig =>
      changed ← lift (ingress_changed ig ts igs);
      if (changed : bool) then updateIngress ig ts igs else mret (Ok ig)
  end.

(** The cluster is returned as it is afterwards: its read-only volumes may have
    lost their [DefaultMode]. *)
Definition ReconcileIngress (ts : TypesenseCluster) : prog (TypesenseCluster * option error) :=
  let spec := IngressOf (Spec ts) in
  let proceed existing :=
    match spec, HttpRoutes (Spec ts) with
    | Some igs, None =>
        o ← reconcile_ingress_object ts igs existing;
        match o with
        | Err err => mret (ts, Some err)
        | Ok ig =>
            '(igs, err) ← reconcile_proxy ts igs ig;
            mret (set_Spec (set_IngressOf (Some igs) (Spec ts)) ts, err)
        end
    | _, _ => mret (ts, None)
    end in
  g ← trigger (Get KIngress (ingressObjectKey ts));
  match g with
  | Err err => if IsNotFound err then proceed None else mret (ts, Some err)
  | Ok ig =>
      match spec, HttpRoutes (Spec ts) with
      | Some _, None => proceed (Some ig)
      | _, _ => err ← deleteIngress ig; mret (ts, err)
      end
  end.
End Ingresses.
