(* ===== verification/HttpRoute.v ===== *)
(** * HTTP routes and reference grants (typesensecluster_httproute.go) *)
From S2P Require Import Prelude GoLib K8s Api Effects External Utils Conditions StatefulSetHash.
From S2P Require Import Ingresses.

Definition minimumSupportedVersionForGateway : string := "1.26.0".
Definition gatewayApiGroup : string := "gateway.networking.k8s.io".

Section HttpRoutes.
Context `{L : Libs}.

(** ** Fields and their assignment *)

Definition hr_zero : HTTPRoute :=
  {| hr_meta := meta_zero; hr_ParentRefs := []; hr_Hostnames := []; hr_Rules := [] |}.
Definition set_hr_meta (m : ObjectMeta) (h : HTTPRoute) : HTTPRoute :=
  {| hr_meta := m; hr_ParentRefs := hr_ParentRefs h; hr_Hostnames := hr_Hostnames h;
     hr_Rules := hr_Rules h |}.

(** [httpRoute.Spec.Rules[0].Matches[0].Path], a pointer that is followed *)
Definition first_path (h : HTTPRoute) : outcome HTTPPathMatch :=
  rule ← index (hr_Rules h) 0;
  m ← index (rr_Matches rule) 0;
  deref m.

(** [Rules[0].Matches[0].Path.Value = v; ....Path.Type = t] *)
Definition set_first_path (p : HTTPPathMatch) (h : HTTPRoute) : outcome (list HTTPRouteRule) :=
  rule ← index (hr_Rules h) 0;
  m ← index (rr_Matches rule) 0;
  _ ← deref m;
  matches ← set_first (Some p) (rr_Matches rule);
  set_first {| rr_Matches := matches; rr_BackendRefs := rr_BackendRefs rule |} (hr_Rules h).

(** ** Building routes and grants *)

Definition httpRouteObjectKey (ts : TypesenseCluster) (spec : HttpRouteSpec) : ObjectKey :=
  {| key_Namespace := ts_Namespace ts; key_Name := ClusterHttpRoute (ts_Name ts) (hs_Name spec) |}.

Definition getGatewayParentRef (spec : HttpRouteSpec) (ts : TypesenseCluster) : ParentReference :=
  {| pr_Group := None; pr_Kind := None;
     pr_Namespace := Some (default (ts_Namespace ts) (gp_Namespace (hs_ParentRef spec)));
     pr_Name := gp_Name (hs_ParentRef spec);
     pr_SectionName := gp_SectionName (hs_ParentRef spec) |}.

Definition http_route (key : ObjectKey) (spec : HttpRouteSpec) (ts : TypesenseCluster) : HTTPRoute :=
  {| hr_meta := getHttpRouteObjectMeta ts spec (Some (key_Name key))
                  (maps_Copy ∅ (hs_Labels spec)) (maps_Copy ∅ (hs_Annotations spec));
     hr_ParentRefs := [getGatewayParentRef spec ts];
     hr_Hostnames := hs_Hostnames spec;
     hr_Rules :=
       [{| rr_Matches := [Some {| pm_Type := hs_PathType spec; pm_Value := Some (hs_Path spec) |}];
           rr_BackendRefs :=
             [{| br_Group := Some ""; br_Kind := Some "Service";
                 br_Name := ClusterRestService (ts_Name ts);
                 br_Namespace := Some (ts_Namespace ts);
                 br_Port := Some (int32 (ApiPort (Spec ts))); br_Weight := Some 1%Z |}] |}] |}.

Definition createHttpRoute (key : ObjectKey) (spec : HttpRouteSpec) (ts : TypesenseCluster)
    : prog (result HTTPRoute) :=
  let httpRoute := http_route key spec ts in
  match SetControllerReference KTypesenseCluster (ts_meta ts) (hr_meta httpRoute) with
  | Err e => mret (Err e)
  | Ok m => trigger (Create KHTTPRoute (set_hr_meta m httpRoute))
  end.

Definition deleteHttpRoute (httpRoute : HTTPRoute) : prog (option error) :=
  trigger (Delete KHTTPRoute httpRoute None).

Definition updated_route (spec : HttpRouteSpec) (httpRoute : HTTPRoute) (ts : TypesenseCluster)
    : outcome HTTPRoute :=
  parents ← set_first (getGatewayParentRef spec ts) (hr_ParentRefs httpRoute);
  rules ← set_first_path {| pm_Type := hs_PathType spec; pm_Value := Some (hs_Path spec) |}
            httpRoute;
  mret {| hr_meta := set_om_Annotations (maps_Copy ∅ (hs_Annotations spec)) (hr_meta httpRoute);
          hr_ParentRefs := parents; hr_Hostnames := hs_Hostnames spec; hr_Rules := rules |}.

Definition updateHttpRoute (spec : HttpRouteSpec) (httpRoute : HTTPRoute) (ts : TypesenseCluster)
    : prog (result HTTPRoute) :=
  httpRoute' ← lift (updated_route spec httpRoute ts);
  trigger (Patch KHTTPRoute httpRoute httpRoute').

Definition route_filters (ts : TypesenseCluster) : list string :=
  clusterIssuerAnnotationKey :: rancherDomainAnnotationKey
  :: IgnoreAnnotationsFromExternalMutations (Spec ts).
Definition getHttpRouteAnnotations (httpRoute : HTTPRoute) (ts : TypesenseCluster) : smap :=
  filterMap (om_Annotations (hr_meta httpRoute)) (route_filters ts).

(** The method of the reconciler, which calls the function of the same name *)
Definition getHttpRouteLabels_of (httpRoute : HTTPRoute) (spec : HttpRouteSpec)
    (ts : TypesenseCluster) : smap :=
  let filters := (map_to_list (getHttpRouteLabels ts spec)).*1 in
  filterMap (om_Labels (hr_meta httpRoute)) filters.

Definition createReferenceGrant (spec : HttpRouteSpec) (ts : TypesenseCluster)
    : prog (result ReferenceGrant) :=
  m ← lift (getReferenceGrantObjectMeta ts spec);
  trigger (Create KReferenceGrant
    {| rg_meta := m;
       rg_From := [{| rgf_Group := gatewayApiGroup; rgf_Kind := "HTTPRoute";
                      rgf_Namespace := ts_Namespace ts |}];
       rg_To := [{| rgt_Group := gatewayApiGroup; rgt_Kind := "Gateway";
                    rgt_Name := Some (gp_Name (hs_ParentRef spec)) |}] |}).

Definition deleteReferenceGrant (rg : ReferenceGrant) : prog (option error) :=
  trigger (Delete KReferenceGrant rg None).

Definition updateReferenceGrant (spec : HttpRouteSpec) (ts : TypesenseCluster)
    : prog (option error) :=
  namespace ← lift (deref (gp_Namespace (hs_ParentRef spec)));
  g ← trigger (Get KReferenceGrant
        {| key_Namespace := namespace;
           key_Name := ClusterHttpRouteReferenceGrant (ts_Name ts) (hs_Name spec) |});
  match g with
  | Err err =>
      if negb (IsNotFound err) then mret (Some err)
      else
        wanted ← lift (deref (hs_ReferenceGrant spec));
        if (wanted : bool) then only_err (createReferenceGrant spec ts)
        else mret None
  | Ok referenceGrant =>
      wanted ← lift (deref (hs_ReferenceGrant spec));
      if (wanted : bool) then mret None
      else deleteReferenceGrant referenceGrant
  end.

(** ** Orphans *)

Definition has_route_spec (ts : TypesenseCluster) (name : string) : bool :=
  existsb (λ d, String.eqb name (ClusterHttpRoute (ts_Name ts) (hs_Name d)))
    (default [] (HttpRoutes (Spec ts))).

Definition deleteOrphanedHttpRoutes (ts : TypesenseCluster) : prog (option error) :=
  l ← trigger (ListObjs KHTTPRoute {| lo_Namespace := Some (ts_Namespace ts);
                                      lo_Labels := getLabels ts |});
  match l with
  | Err e => mret (Some (Wrap "failed to list http routes" e))
  | Ok routes =>
      for_err (λ eroute,
        if has_route_spec ts (om_Name (hr_meta eroute)) then mret None
        else
          err ← deleteHttpRoute eroute;
          mret (wrap_error "deleting http route failed" err)) routes
  end.

Definition grant_has_cluster (rg : ReferenceGrant) (clusters : list TypesenseCluster) : bool :=
  existsb (λ c, String.eqb (map_get (om_Labels (rg_meta rg)) "app") (ClusterAppLabel (ts_Name c)))
    clusters.

Definition deleteOrphanedReferenceGrants : prog (option error) :=
  l ← trigger (ListObjs KReferenceGrant
        {| lo_Namespace := None;
           lo_Labels := {["app.kubernetes.io/managed-by" := "typesense-operator"]} |});
  match l with
  | Err e => mret (Some (Wrap "failed to list reference grants" e))
  | Ok grants =>
      c ← trigger (ListObjs KTypesenseCluster {| lo_Namespace := None; lo_Labels := ∅ |});
      match c with
      | Err e => mret (Some (Wrap "failed to list typesense clusters" e))
      | Ok clusters =>
          for_err (λ rg,
            if grant_has_cluster rg clusters then mret None
            else
              err ← deleteReferenceGrant rg;
              mret (wrap_error "deleting reference grant failed" err)) grants
      end
  end.

(** ** One route of the specification *)

(** [!enabled]: the grants labelled with the route's name go, then the route.
    For a route that does not exist [httpRoute] is the empty object. *)
Definition disable_route (httpRoute : HTTPRoute) : prog (option error) :=
  l ← trigger (ListObjs KReferenceGrant
        {| lo_Namespace := None; lo_Labels := {["route" := om_Name (hr_meta httpRoute)]} |});
  match l with
  | Err e => mret (Some (Wrap "failed to list reference grants" e))
  | Ok grants =>
      fold_prog (λ _ rg, _ ← deleteReferenceGrant rg; mret tt) tt grants;;
      err ← deleteHttpRoute httpRoute;
      mret (wrap_error "deleting http route failed" err)
  end.

(** The disjunction that decides on an update; [path] and [pathType] are read
    before it. *)
Definition route_changed (spec : HttpRouteSpec) (httpRoute : HTTPRoute) (ts : TypesenseCluster)
    : outcome bool :=
  p ← first_path httpRoute;
  path ← deref (pm_Value p);
  let parentRef :=
    {| pr_Group := Some gatewayApiGroup; pr_Kind := Some "Gateway";
       pr_Namespace := gp_Namespace (hs_ParentRef spec);
       pr_Name := gp_Name (hs_ParentRef spec);
       pr_SectionName := gp_SectionName (hs_ParentRef spec) |} in
  or_else (mret (negb (DeepEqual (hs_Hostnames spec) (hr_Hostnames httpRoute))))
  (or_else (mret (negb (DeepEqual (hs_Labels spec) (getHttpRouteLabels_of httpRoute spec ts))))
  (or_else (mret (negb (DeepEqual (hs_Annotations spec) (getHttpRouteAnnotations httpRoute ts))))
  (or_else (ref ← index (hr_ParentRefs httpRoute) 0; mret (negb (DeepEqual parentRef ref)))
  (or_else (mret (negb (String.eqb (hs_Path spec) path)))
  (want ← deref (hs_PathType spec);
   have ← deref (pm_Type p);
   mret (negb (String.eqb want have))))))).

Definition reconcile_existing_route (ts : TypesenseCluster) (spec : HttpRouteSpec)
    (httpRoute : HTTPRoute) : prog (option error) :=
  err ← (if negb (hs_Enabled spec) then disable_route httpRoute else mret None);
  match err with
  | Some err => mret (Some err)
  | None =>
      changed ← lift (route_changed spec httpRoute ts);
      err ← (if (changed : bool) then only_err (updateHttpRoute spec httpRoute ts)
             else mret None);
      match err with
      | Some err => mret (Some err)
      | None => updateReferenceGrant spec ts
      end
  end.

Definition create_new_route (ts : TypesenseCluster) (spec : HttpRouteSpec) : prog (option error) :=
  c ← createHttpRoute (httpRouteObjectKey ts spec) spec ts;
  match c with
  | Err err => mret (Some err)
  | Ok _ =>
      wanted ← lift (deref (hs_ReferenceGrant spec));
      if (wanted : bool) then only_err (createReferenceGrant spec ts) else mret None
  end.

Definition reconcile_route (ts : TypesenseCluster) (spec : HttpRouteSpec) : prog (option error) :=
  g ← trigger (Get KHTTPRoute (httpRouteObjectKey ts spec));
  match g with
  | Err err =>
      if IsNotFound err then
        if hs_Enabled spec then create_new_route ts spec
        else reconcile_existing_route ts spec hr_zero
      else mret (Some err)
  | Ok httpRoute => reconcile_existing_route ts spec httpRoute
  end.

Definition ReconcileHttpRoute (ts : TypesenseCluster) : prog (option error) :=
  '(supported, _, err) ← IsFeatureSupported minimumSupportedVersionForGateway;
  match err with
  | Some err => mret (Some err)
  | None =>
      if negb supported then mret None
      else
        '(deployed, err) ← IsApiGroupDeployed gatewayApiGroup;
        match err, (deployed : bool) with
        | None, true =>
            err ← deleteOrphanedHttpRoutes ts;
            match err with
            | Some err => mret (Some err)
            | None =>
                err ← deleteOrphanedReferenceGrants;
                match err with
                | Some err => mret (Some err)
                | None => for_err (reconcile_route ts) (default [] (HttpRoutes (Spec ts)))
                end
            end
        | _, _ => mret None
        end
  end.
End HttpRoutes.
