(* ===== verification/Controller.v ===== *)
(** * The reconciliation loop (typesensecluster_controller.go)

    [Reconcile] runs the reconcilers of the parts one after the other.  The
    first that fails ends the round: the cluster is marked not ready with the
    part's reason and the error is returned.  Durations are nanoseconds. *)
From S2P Require Import Prelude GoLib K8s Api Effects External Utils Conditions StatefulSetOps.
From S2P Require Import ConfigMap QuorumHelpers Quorum Secret Services StatefulSetHash.
From S2P Require Import StatefulSet Scraper PodMonitors Ingresses HttpRoute.

Definition Second : Z := 1000000000.
Definition configMapRequeuePeriod : Z := 120 * Second.
Definition reconcileRequeuePeriod : Z := 60 * Second.
Definition bootstrapRequeuePeriod : Z := 15 * Second.

(** [reconcileRequeuePeriod + time.Duration(seconds) * time.Second] *)
Definition requeue_after (terminationGracePeriodSeconds : Z) : Z :=
  int64 (reconcileRequeuePeriod + int64 (terminationGracePeriodSeconds * Second)).

(** [ctrl.Result.RequeueAfter] and the error *)
Definition reconcile_result : Type := Z * option error.

Section Controller.
Context `{L : Libs} (r : Reconciler).

(** The first lines of every error branch: record the reason, keep the error *)
Definition fail (ts : TypesenseCluster) (reason : string) (err : error) : prog reconcile_result :=
  '(_, cerr) ← setConditionNotReady ts reason err;
  mret (0%Z, Some (match cerr with
                   | Some cerr => Wrap (error_string cerr) err
                   | None => err
                   end)).

(** A part whose reconciler only returns an error, and what follows it *)
Definition phase (ts : TypesenseCluster) (reason : string) (part : prog (option error))
    (next : prog reconcile_result) : prog reconcile_result :=
  err ← part;
  match err with
  | Some err => fail ts reason err
  | None => next
  end.

(** ** Reporting the quorum *)

Definition attention_message (condition : string) : string :=
  "cluster needs manual administrative attention: "
  +:+ (if String.eqb condition ConditionReasonQuorumNeedsAttentionClusterIsLagging
       then "queued_writes > healthyWriteLagThreshold" else "")
  +:+ (if String.eqb condition ConditionReasonQuorumNeedsAttentionMemoryOrDiskIssue
       then "out of memory or disk" else "").

(** The condition goes to the status, with a warning event. *)
Definition report_not_ready (ts : TypesenseCluster) (condition : string) (err : error)
    (next : TypesenseCluster → prog reconcile_result) : prog reconcile_result :=
  '(ts, cerr) ← setConditionNotReady ts condition err;
  match cerr with
  | Some cerr => mret (0%Z, Some cerr)
  | None =>
      trigger (Eventf ts "Warning" condition (toTitle (error_string err)));;
      next ts
  end.

Definition report_quorum (ts : TypesenseCluster) (condition : string) (err : option error)
    (requeueAfter : Z) : prog reconcile_result :=
  let completed := mret (requeueAfter, None) in
  if contains_str condition "QuorumNeedsAttention" then
    report_not_ready ts condition (Errorf (attention_message condition)) (λ _, completed)
  else if negb (String.eqb condition ConditionReasonQuorumReady) then
    report_not_ready ts condition (default (Errorf "quorum is not ready") err) (λ _, completed)
  else
    c ← lift (index (Conditions (Status ts)) 0);
    let report := negb (String.eqb (c_Status c) "True") in
    '(ts, cerr) ← setConditionReady ts condition;
    match cerr with
    | Some cerr => mret (0%Z, Some cerr)
    | None =>
        (if report then trigger (Eventf ts "Normal" condition (toTitle "quorum is ready"))
         else mret tt);;
        completed
    end.

(** The quorum is reconciled and reported; an error of the quorum only shows in
    the status. *)
Definition quorum_phase (ts : TypesenseCluster) (secret : Secret) (sts : StatefulSet)
    (requeueAfter : Z) : prog reconcile_result :=
  '(condition, _, err) ← ReconcileQuorum r ts secret (key_of (sts_meta sts));
  report_quorum ts condition err requeueAfter.

(** What follows the StatefulSet *)
Definition finish (ts : TypesenseCluster) (secret : Secret) (configMapUpdated : option bool)
    (sts : StatefulSet) : prog reconcile_result :=
  grace ← lift (deref (ps_TerminationGracePeriodSeconds (pt_Spec (ss_Template (sts_Spec sts)))));
  match configMapUpdated with
  | None => mret (bootstrapRequeuePeriod, None)
  | Some false => quorum_phase ts secret sts (requeue_after grace)
  | Some true =>
      _ ← forcePodsConfigMapUpdate ts;
      report_not_ready ts ConditionReasonQuorumNotReadyWaitATerm
        (Errorf "wait on configmap updates")
        (λ ts, quorum_phase ts secret sts configMapRequeuePeriod)
  end.

Definition statefulset_phase (ts : TypesenseCluster) (secret : Secret)
    (configMapUpdated : option bool) : prog reconcile_result :=
  '(sts, _, err) ← ReconcileStatefulSet ts;
  match err with
  | Some err => fail ts ConditionReasonStatefulSetNotReady err
  | None => sts ← lift (deref sts); finish ts secret configMapUpdated sts
  end.

(** ** [Reconcile] *)

(** The parts, from the secret on *)
Definition reconcile_parts (ts : TypesenseCluster) : prog reconcile_result :=
  s ← ReconcileSecret ts;
  match s with
  | Err err => fail ts ConditionReasonSecretNotReady err
  | Ok secret =>
      '(configMapUpdated, err) ← ReconcileConfigMap ts;
      match err with
      | Some err => fail ts ConditionReasonConfigMapNotReady err
      | None =>
          phase ts ConditionReasonServicesNotReady (ReconcileServices ts)
            ('(ts, err) ← ReconcileIngress ts;
             phase ts ConditionReasonIngressNotReady (mret err)
               (phase ts ConditionReasonHttpRouteNotReady (ReconcileHttpRoute ts)
                 (phase ts ConditionReasonScrapersNotReady (ReconcileScraper ts)
                   (phase ts ConditionReasonMetricsExporterNotReady (ReconcilePodMonitor ts)
                     (statefulset_phase ts secret configMapUpdated)))))
      end
  end.

Definition Reconcile (req : ObjectKey) : prog reconcile_result :=
  g ← trigger (Get KTypesenseCluster req);
  match g with
  | Err err => mret (0%Z, if IsNotFound err then None else Some err)
  | Ok ts =>
      '(ts, err) ← initConditions ts;
      match err with
      | Some err => mret (0%Z, Some err)
      | None => reconcile_parts ts
      end
  end.

(** ** The event filter of the watch *)

(** [eventFilters]: creations pass (the predicate has no [CreateFunc]), updates
    pass when the generation changed, deletions when their state is known. *)
Definition update_passes (old new : ObjectMeta) : bool :=
  negb (om_Generation old =? om_Generation new)%Z.
Definition delete_passes (deleteStateUnknown : bool) : bool := negb deleteStateUnknown.
End Controller.
