(* ===== verification/Main.v ===== *)
(** * The process entry point (src/cmd/main.go)

    Command-line flags, the TLS options of the two servers, and the order in
    which the process sets up the manager, registers the reconciler and starts.
    The manager, the certificate watchers and the clients are third-party code:
    what [main] does to them is a list of calls whose answers are an argument. *)
From S2P Require Import Prelude GoLib K8s Api Effects Controller.
From Stdlib Require Import Ascii.
From Stdlib Require String.

(** ** Package [path/filepath] *)

(** One component of a path being cleaned; the components kept so far are in
    reverse order. *)
Definition clean_component (rooted : bool) (kept : list string) (c : string) : list string :=
  if String.eqb c "" || String.eqb c "." then kept
  else if String.eqb c ".." then
    match kept with
    | [] => if rooted then [] else [".."]
    | last :: before => if String.eqb last ".." then ".." :: kept else before
    end
  else c :: kept.
(** [filepath.Clean] *)
Definition Clean (path : string) : string :=
  let rooted := String.prefix "/" path in
  let kept := rev (foldl (clean_component rooted) [] (split_on "/" path)) in
  match rooted, kept with
  | true, _ => "/" +:+ join_str kept "/"
  | false, [] => "."
  | false, _ => join_str kept "/"
  end.
(** [filepath.Join(dir, name)] *)
Definition Join (dir name : string) : string :=
  if String.eqb dir "" then if String.eqb name "" then "" else Clean name
  else Clean (dir +:+ "/" +:+ name).

(** ** Flags

    A flag is bound to a variable of [main]; the variables are kept by the name
    of their flag. *)
Record Flags := { strings : gmap string string; bools : gmap string bool }.

(** The flags with their defaults *)
Definition string_flags : list (string * string) :=
  [("metrics-bind-address", "0"); ("health-probe-bind-address", ":8081");
   ("webhook-cert-path", ""); ("webhook-cert-name", "tls.crt"); ("webhook-cert-key", "tls.key");
   ("metrics-cert-path", ""); ("metrics-cert-name", "tls.crt"); ("metrics-cert-key", "tls.key")].
Definition bool_flags : list (string * bool) :=
  [("leader-elect", false); ("metrics-secure", true); ("enable-http2", false)].
Definition default_flags : Flags :=
  {| strings := list_to_map string_flags; bools := list_to_map bool_flags |}.

Definition string_var (name : string) (f : Flags) : string := default "" (strings f !! name).
Definition bool_var (name : string) (f : Flags) : bool := default false (bools f !! name).
Definition metricsAddr : Flags → string := string_var "metrics-bind-address".
Definition probeAddr : Flags → string := string_var "health-probe-bind-address".
Definition webhookCertPath : Flags → string := string_var "webhook-cert-path".
Definition webhookCertName : Flags → string := string_var "webhook-cert-name".
Definition webhookCertKey : Flags → string := string_var "webhook-cert-key".
Definition metricsCertPath : Flags → string := string_var "metrics-cert-path".
Definition metricsCertName : Flags → string := string_var "metrics-cert-name".
Definition metricsCertKey : Flags → string := string_var "metrics-cert-key".
Definition enableLeaderElection : Flags → bool := bool_var "leader-elect".
Definition secureMetrics : Flags → bool := bool_var "metrics-secure".
Definition enableHTTP2 : Flags → bool := bool_var "enable-http2".

(** Flags that other packages register ([zap.Options.BindFlags], the
    [kubeconfig] flag of controller-runtime): whether they are boolean, and
    whether they accept a value *)
Class ForeignFlags := {
  foreign_is_bool : string → option bool;
  foreign_accepts : string → string → bool;
}.

Inductive flag_kind := FString | FBool | FForeign (is_bool : bool).

(** The outcome of [flag.Parse] with [ExitOnError] *)
Inductive parsed := Parsed (f : Flags) | HelpAsked | BadUsage.

Section Flags.
Context `{FF : ForeignFlags}.

(** [f.formal[name]] *)
Definition formal (name : string) : option flag_kind :=
  if decide (name ∈ string_flags.*1) then Some FString
  else if decide (name ∈ bool_flags.*1) then Some FBool
  else FForeign <$> foreign_is_bool name.

Definition is_bool_flag (k : flag_kind) : bool :=
  match k with FString => false | FBool => true | FForeign b => b end.

(** [flag.Value.Set(value)], [None] for an error *)
Definition set_flag (k : flag_kind) (name value : string) (f : Flags) : option Flags :=
  match k with
  | FString => Some {| strings := <[name := value]> (strings f); bools := bools f |}
  | FBool =>
      match parse_bool value with
      | (b, None) => Some {| strings := strings f; bools := <[name := b]> (bools f) |}
      | (_, Some _) => None
      end
  | FForeign _ => if foreign_accepts name value then Some f else None
  end.

(** A token that starts with a minus: the text after one or two minuses. [None]
    ends the flags. *)
Definition flag_token (s : string) : option string :=
  match s with
  | String "-" (String "-" rest) => if String.eqb rest "" then None else Some rest
  | String "-" rest => if String.eqb rest "" then None else Some rest
  | _ => None
  end.
(** [name=value], where the equals sign is not the first character *)
Definition split_flag (token : string) : string * option string :=
  match index_str token "=" with
  | Some i => (take_str i token, Some (drop_str (S i) token))
  | None => (token, None)
  end.

Fixpoint parse_flags (args : list string) (f : Flags) : parsed :=
  match args with
  | [] => Parsed f
  | s :: args' =>
      match flag_token s with
      | None => Parsed f
      | Some token =>
          if String.prefix "-" token || String.prefix "=" token then BadUsage
          else
            let '(name, value) := split_flag token in
            match formal name with
            | None => if decide (name ∈ ["help"; "h"]) then HelpAsked else BadUsage
            | Some k =>
                match value with
                | Some value =>
                    match set_flag k name value f with
                    | Some f' => parse_flags args' f'
                    | None => BadUsage
                    end
                | None =>
                    if is_bool_flag k then
                      match set_flag k name "true" f with
                      | Some f' => parse_flags args' f'
                      | None => BadUsage
                      end
                    else
                      match args' with
                      | [] => BadUsage
                      | value :: args'' =>
                          match set_flag k name value f with
                          | Some f' => parse_flags args'' f'
                          | None => BadUsage
                          end
                      end
                end
            end
      end
  end.
End Flags.

(** ** TLS options *)

(** [tls.Config], cut down to what the options set; a certificate watcher is
    known by the two files it watches. *)
Record CertWatcher := { watched_cert : string; watched_key : string }.
Record TLSConfig := { NextProtos : list string; GetCertificate : option CertWatcher }.
Definition tls_zero : TLSConfig := {| NextProtos := []; GetCertificate := None |}.

Definition disableHTTP2 (c : TLSConfig) : TLSConfig :=
  {| NextProtos := ["http/1.1"]; GetCertificate := GetCertificate c |}.
Definition use_certificate (w : CertWatcher) (c : TLSConfig) : TLSConfig :=
  {| NextProtos := NextProtos c; GetCertificate := Some w |}.

(** The first [append] leaves a slice without spare capacity, so the appends of
    the two servers do not share an element: lists are faithful. *)
Definition tlsOpts (f : Flags) : list (TLSConfig → TLSConfig) :=
  if enableHTTP2 f then [] else [disableHTTP2].
Definition server_opts (f : Flags) (w : option CertWatcher) : list (TLSConfig → TLSConfig) :=
  tlsOpts f ++ match w with Some w => [use_certificate w] | None => [] end.

(** What a server does with its options: it applies them in order. *)
Definition apply_opts (opts : list (TLSConfig → TLSConfig)) (c : TLSConfig) : TLSConfig :=
  foldl (λ c opt, opt c) c opts.

(** ** The calls of the process *)

Record ManagerOptions := {
  mo_MetricsBindAddress : string; mo_SecureServing : bool;
  mo_MetricsTLSOpts : list (TLSConfig → TLSConfig);
  mo_FilterProvider : bool;  (** [filters.WithAuthenticationAndAuthorization] is set *)
  mo_WebhookTLSOpts : list (TLSConfig → TLSConfig);
  mo_HealthProbeBindAddress : string;
  mo_LeaderElection : bool; mo_LeaderElectionID : string;
}.

(** [SetupWithManager]: the watched kind and the name of the controller; the
    predicates are [event_passes] below. *)
Record ControllerSetup := { cs_For : kind; cs_Name : string; cs_InCluster : bool }.

Inductive setup_call :=
| AddToScheme (group : string)
| NewCertWatcher (w : CertWatcher)
| GetConfigOrDie
| NewManager (o : ManagerOptions)
| NewClientSet
| StatFile (path : string)
| CompleteController (s : ControllerSetup)
| AddRunnable (w : CertWatcher)
| AddHealthzCheck (name : string)
| AddReadyzCheck (name : string)
| StartManager.

(** How the process ends *)
Inductive ending := ExitCode (code : Z) | InitPanic.

(** A computation of the process: given the answers, the calls made and either
    an end or a value *)
Definition proc (A : Type) : Type :=
  (setup_call → option error) → list setup_call * (ending + A).
#[export] Instance proc_ret : MRet proc := λ A a _, ([], inr a).
#[export] Instance proc_bind : MBind proc := λ A B f p answers,
  match p answers with
  | (calls, inl e) => (calls, inl e)
  | (calls, inr a) => let '(calls', r) := f a answers in (calls ++ calls', r)
  end.
Definition do_call (c : setup_call) : proc (option error) :=
  λ answers, ([c], inr (answers c)).
Definition stop {A} (e : ending) : proc A := λ _, ([], inl e).
(** [if err != nil { os.Exit(1) }] *)
Definition or_exit (c : setup_call) : proc unit :=
  e ← do_call c;
  match e with Some _ => stop (ExitCode 1) | None => mret tt end.

(** ** [init] and [main] *)

Definition scheme_groups : list string :=
  ["k8s.io/client-go"; "gateway.networking.k8s.io/v1"; "gateway.networking.k8s.io/v1beta1";
   "monitoring.coreos.com/v1"; "discovery.k8s.io/v1"; "ts.opentelekomcloud.com/v1alpha1"].
(** [utilruntime.Must] panics on an error. *)
Fixpoint add_groups (groups : list string) : proc unit :=
  match groups with
  | [] => mret tt
  | g :: gs =>
      e ← do_call (AddToScheme g);
      match e with Some _ => stop InitPanic | None => add_groups gs end
  end.
Definition init : proc unit := add_groups scheme_groups.

(** [if len(path) > 0 { certwatcher.New(...) }] *)
Definition cert_watcher (path name key : string) : proc (option CertWatcher) :=
  if (0 <? String.length path)%nat then
    let w := {| watched_cert := Join path name; watched_key := Join path key |} in
    or_exit (NewCertWatcher w);; mret (Some w)
  else mret None.

Definition tokenFile : string := "/var/run/secrets/kubernetes.io/serviceaccount/token".
Definition isInCluster : proc bool :=
  e ← do_call (StatFile tokenFile);
  mret (match e with None => true | Some _ => false end).

Definition manager_options (f : Flags) (webhook metrics : option CertWatcher)
    : ManagerOptions :=
  {| mo_MetricsBindAddress := metricsAddr f; mo_SecureServing := secureMetrics f;
     mo_MetricsTLSOpts := server_opts f metrics;
     mo_FilterProvider := secureMetrics f;
     mo_WebhookTLSOpts := server_opts f webhook;
     mo_HealthProbeBindAddress := probeAddr f;
     mo_LeaderElection := enableLeaderElection f;
     mo_LeaderElectionID := "9cf0818f.opentelekomcloud.com" |}.

Definition SetupWithManager (inCluster : bool) : proc unit :=
  or_exit (CompleteController {| cs_For := KTypesenseCluster;
                                 cs_Name := "typesense-kubernetes-operator";
                                 cs_InCluster := inCluster |}).

(** [if watcher != nil { mgr.Add(watcher) }] *)
Definition add_watcher (w : option CertWatcher) : proc unit :=
  match w with Some w => or_exit (AddRunnable w) | None => mret tt end.

(** [main] after the flags *)
Definition run_manager (f : Flags) : proc unit :=
  webhook ← cert_watcher (webhookCertPath f) (webhookCertName f) (webhookCertKey f);
  metrics ← cert_watcher (metricsCertPath f) (metricsCertName f) (metricsCertKey f);
  or_exit GetConfigOrDie;;
  or_exit (NewManager (manager_options f webhook metrics));;
  or_exit NewClientSet;;
  inCluster ← isInCluster;
  SetupWithManager inCluster;;
  add_watcher metrics;;
  add_watcher webhook;;
  or_exit (AddHealthzCheck "healthz");;
  or_exit (AddReadyzCheck "readyz");;
  or_exit StartManager.

(** The process: [init], then [main] with its arguments; the flag package exits
    with 0 after printing the help and with 2 on a bad command line. *)
Definition main `{FF : ForeignFlags} (args : list string) : proc unit :=
  init;;
  match parse_flags args default_flags with
  | Parsed f => run_manager f
  | HelpAsked => stop (ExitCode 0)
  | BadUsage => stop (ExitCode 2)
  end.

(** ** The events that reach the reconciler *)

Inductive watch_event :=
| CreateEvent (new : ObjectMeta)
| UpdateEvent (old new : ObjectMeta)
| DeleteEvent (unknown : bool)
| GenericEvent.
(** [predicate.Funcs]: an event without a function passes. *)
Definition event_passes (e : watch_event) : bool :=
  match e with
  | CreateEvent _ | GenericEvent => true
  | UpdateEvent old new => update_passes old new
  | DeleteEvent unknown => delete_passes unknown
  end.
