(* ===== verification/Footprint.v ===== *)
(** * Footprints: which writes a program can make

    [footprint l p]: every write of [p] has one of the tags of [l], a verb and
    the kind of object.  The lemmas about the shared operations are in the hint
    database [effects]; [footprint_auto] combines them. *)
From S2P Require Import Prelude GoLib K8s Api Effects Hoare External Utils Conditions.
From S2P Require Import StatefulSetOps ConfigMap QuorumHelpers Quorum.

Inductive verb := VCreate | VUpdate | VPatch | VStatusPatch | VDelete | VEvent.
#[export] Instance verb_eq_dec : EqDecision verb.
Proof. solve_decision. Defined.
Definition tag : Type := verb * option kind.

Section Footprints.
Context `{L : Libs}.

Definition write_tag (w : write) : tag :=
  match w with
  | WCreate k _ => (VCreate, Some k)
  | WUpdate k _ => (VUpdate, Some k)
  | WPatch k _ _ => (VPatch, Some k)
  | WStatusPatch k _ _ => (VStatusPatch, Some k)
  | WDelete k _ => (VDelete, Some k)
  | WEvent _ _ _ _ => (VEvent, None)
  end.

Definition tag_allowed (l : list tag) (w : write) : bool := bool_decide (write_tag w ∈ l).
Definition footprint {A} (l : list tag) (p : prog A) : Prop :=
  writes_only (λ w, tag_allowed l w = true) p.

(** The objects sent in updates of StatefulSets, in order *)
Definition sts_updates (tr : trace) : list StatefulSet :=
  omap (λ w, match w with WUpdate KStatefulSet o => Some o | _ => None end) (writes tr).
(** The other writes of ConfigMaps and StatefulSets *)
Definition pods_deleted (tr : trace) : list Pod :=
  omap (λ w, match w with WDelete KPod o => Some o | _ => None end) (writes tr).

Lemma sts_updates_app tr1 tr2 : sts_updates (tr1 ++ tr2) = sts_updates tr1 ++ sts_updates tr2.
Proof. unfold sts_updates. by rewrite writes_app, omap_app. Qed.
Lemma pods_deleted_app tr1 tr2 : pods_deleted (tr1 ++ tr2) = pods_deleted tr1 ++ pods_deleted tr2.
Proof. unfold pods_deleted. by rewrite writes_app, omap_app. Qed.

(** A footprint read as a property of the writes *)
Lemma footprint_wlp {A} l (p : prog A) :
  footprint l p → wlp p (λ tr _, Forall (λ w, tag_allowed l w = true) (writes tr)).
Proof. intros H. by apply writes_only_Forall. Qed.

Lemma footprint_mono {A} l l' (p : prog A) :
  footprint l p → bool_decide (Forall (λ t, t ∈ l') l) = true → footprint l' p.
Proof.
  intros H Hl. apply bool_decide_eq_true in Hl. rewrite Forall_forall in Hl.
  eapply writes_only_mono; [exact H|]. unfold tag_allowed. intros w.
  rewrite !bool_decide_eq_true. apply Hl.
Qed.

Lemma footprint_sts_updates l tr :
  bool_decide ((VUpdate, Some KStatefulSet) ∈ l) = false →
  Forall (λ w, tag_allowed l w = true) (writes tr) → sts_updates tr = [].
Proof.
  intros Hl%bool_decide_eq_false H. unfold sts_updates.
  induction H as [|w ws Hw H IH]; [done|]. simpl.
  destruct w as [k o|k o|k orig o|k orig o|k o|ts t reason m]; simpl; auto.
  unfold tag_allowed in Hw. simpl in Hw. apply bool_decide_eq_true in Hw.
  destruct k; done.
Qed.

Lemma footprint_no_sts {A} l (p : prog A) :
  footprint l p → bool_decide ((VUpdate, Some KStatefulSet) ∈ l) = false →
  wlp p (λ tr _, sts_updates tr = []).
Proof.
  intros H Hl. eapply wlp_mono; [by apply footprint_wlp|].
  cbv beta. intros tr _ H0. by eapply footprint_sts_updates.
Qed.

Lemma footprint_nil {A} (p : prog A) : footprint [] p → wlp p (λ tr _, writes tr = []).
Proof.
  intros H. eapply wlp_mono; [by apply footprint_wlp|].
  cbv beta. intros tr _ Hw. destruct (writes tr) as [|w ws]; [done|].
  apply Forall_cons in Hw as [Hw _]. done.
Qed.
End Footprints.

(** One call: a read, or a write whose tag is in the list *)
Ltac tag_solve := intros ? [=]; subst; vm_compute; reflexivity.
Ltac footprint_auto := unfold footprint; calls_auto tag_solve.

Section Operations.
Context `{L : Libs} (r : Reconciler).

Lemma fp_list_pods l sts : footprint l (list_pods sts).
Proof. unfold list_pods. footprint_auto. Qed.
Lemma fp_GetUnscheduledPods l sts : footprint l (GetUnscheduledPods sts).
Proof. unfold GetUnscheduledPods. footprint_auto; apply fp_list_pods. Qed.
Lemma fp_GetFreshStatefulSet l key : footprint l (GetFreshStatefulSet key).
Proof. unfold GetFreshStatefulSet. footprint_auto. Qed.
Lemma fp_getQuorum l ts sts : footprint l (getQuorum ts sts).
Proof. unfold getQuorum. footprint_auto; apply fp_list_pods. Qed.
Lemma fp_getHttpClient l ts : footprint l (getHttpClient r ts).
Proof. unfold getHttpClient. footprint_auto. Qed.
Lemma fp_getHealthyWriteLagThreshold l ts : footprint l (getHealthyWriteLagThreshold ts).
Proof. unfold getHealthyWriteLagThreshold, lag_threshold. footprint_auto. Qed.
Lemma fp_getHealthyLagThresholds l ts : footprint l (getHealthyLagThresholds ts).
Proof. unfold getHealthyLagThresholds. footprint_auto. Qed.
Lemma fp_gather_logs l ts nes : footprint l (gather_logs ts nes).
Proof. unfold gather_logs, getPodLogs. footprint_auto. Qed.
Lemma fp_getNodes l ts n b : footprint l (getNodes ts n b).
Proof.
  unfold getNodes, getEndpointSlicesForStatefulSet.
  footprint_auto; first [apply fp_list_pods | apply fp_GetFreshStatefulSet].
Qed.

Definition pod_deletion : list tag := [(VDelete, Some KPod); (VEvent, None)].
Lemma fp_PurgeStatefulSetPods sts ts : footprint pod_deletion (PurgeStatefulSetPods sts ts).
Proof. unfold PurgeStatefulSetPods. footprint_auto. apply fp_list_pods. Qed.
Lemma fp_RestartUnscheduledPods pods ts :
  footprint pod_deletion (RestartUnscheduledPods pods ts).
Proof. unfold RestartUnscheduledPods, delete_unscheduled. footprint_auto. Qed.

Definition cm_update : list tag := [(VUpdate, Some KConfigMap); (VDelete, Some KConfigMap)].
Lemma fp_updateConfigMap ts cm n b : footprint cm_update (updateConfigMap ts cm n b).
Proof. unfold updateConfigMap, deleteConfigMap. footprint_auto; apply fp_getNodes. Qed.
Lemma fp_forcePodsConfigMapUpdate ts :
  footprint [(VPatch, Some KPod)] (forcePodsConfigMapUpdate ts).
Proof. unfold forcePodsConfigMapUpdate. footprint_auto. Qed.
End Operations.
