(* ===== verification/Server.v ===== *)
(** * The API server as an environment

    The API server is not part of the repository.  [ApiServer] states what it
    documents: it keeps objects by kind and key, a read answers with the object
    kept, an accepted write changes the object it names and nothing else, and
    what is kept of an object that was sent ([stored]) has the fields that were
    sent; fields left empty may be filled in.  Writes may be refused.  No other
    client writes while a handler runs.  [after] gives the rules to reason about
    runs against such an environment; [object_store] is an instance. *)
From S2P Require Import Prelude K8s Api Effects Hoare External.

#[export] Instance ServicePort_eq_dec : EqDecision ServicePort.
Proof. solve_decision. Defined.

Section Objects.
Context `{K : K8s}.

Definition meta_of (k : kind) : objT k → ObjectMeta :=
  match k with
  | KSecret => sec_meta
  | KConfigMap => cm_meta
  | KService => svc_meta
  | KStatefulSet => sts_meta
  | KPod => pod_meta
  | KEndpointSlice => eps_meta
  | KIngress => ing_meta
  | KDeployment => dep_meta
  | KCronJob => cj_meta
  | KPodMonitor => pmon_meta
  | KHTTPRoute => hr_meta
  | KReferenceGrant => rg_meta
  | KTypesenseCluster => ts_meta
  end.
Definition obj_key (k : kind) (o : objT k) : ObjectKey := key_of (meta_of k o).

(** The kind whose objects a call may change *)
Definition written_kind {X} (c : call X) : option kind :=
  match c with
  | Create k _ | Update k _ | Patch k _ _ | StatusPatch k _ _ | Delete k _ _ => Some k
  | _ => None
  end.

(** The objects a list call selects *)
Definition selected (opts : ListOptions) (m : ObjectMeta) : Prop :=
  (∀ ns, lo_Namespace opts = Some ns → om_Namespace m = ns)
  ∧ lo_Labels opts ⊆ om_Labels m.

(** The fields of an object the server keeps as they were sent *)
Definition meta_kept (m m' : ObjectMeta) : Prop :=
  key_of m' = key_of m ∧ om_Labels m' = om_Labels m ∧ om_Annotations m' = om_Annotations m.
Definition port_kept (p p' : ServicePort) : Prop :=
  sp_Name p' = sp_Name p ∧ sp_Port p' = sp_Port p ∧ sp_TargetPort p' = sp_TargetPort p.
Definition container_kept (c c' : Container) : Prop :=
  ct_Name c' = ct_Name c ∧ ct_Image c' = ct_Image c ∧ ct_Env c' = ct_Env c.
Definition grace_period (o : StatefulSet) : option Z :=
  ps_TerminationGracePeriodSeconds (pt_Spec (ss_Template (sts_Spec o))).
Definition kept (k : kind) : objT k → objT k → Prop :=
  match k with
  | KSecret => λ o o', sec_Data o' = sec_Data o ∧ sec_Immutable o' = sec_Immutable o
  | KConfigMap => λ o o', cm_Data o' = cm_Data o
  | KService => λ o o', Forall2 port_kept (svc_Ports o) (svc_Ports o')
  | KStatefulSet => λ o o', ss_Replicas (sts_Spec o') = ss_Replicas (sts_Spec o)
      ∧ ∀ g, grace_period o = Some g → grace_period o' = Some g
  | KCronJob => λ o o', cj_Schedule o' = cj_Schedule o
      ∧ Forall2 container_kept (ps_Containers (pt_Spec (cj_Template o)))
          (ps_Containers (pt_Spec (cj_Template o')))
  | KPodMonitor => λ o o', pmon_Endpoints o' = pmon_Endpoints o
  | _ => λ _ _, True
  end.

(** A JSON merge patch of the difference of two maps, applied to a third *)
Definition merged_map (orig o cur : smap) (k : string) : option string :=
  if decide (orig !! k = o !! k) then cur !! k else o !! k.
(** ... and of a list, which is replaced as a whole *)
Definition merged_list {A} (orig o cur res : list A) (same : A → A → Prop) : Prop :=
  (orig = o → res = cur) ∧ (orig ≠ o → Forall2 same o res).

Class ApiServer {W : Type} (h : environment W) := {
  objects : W → ∀ k, ObjectKey → option (objT k);
  objects_key w k key o : objects w k key = Some o → obj_key k o = key;
  (** one object was written, removed ([None]), or nothing changed *)
  same_objects (w w' : W) : Prop := ∀ k key, objects w' k key = objects w k key;
  changed (w w' : W) (k : kind) (key : ObjectKey) (v : option (objT k)) : Prop :=
    objects w' k key = v
    ∧ (∀ key', key' ≠ key → objects w' k key' = objects w k key')
    ∧ ∀ k' key', k' ≠ k → objects w' k' key' = objects w k' key';
  srv_get w k key : let '(x, w') := h _ (Get k key) w in
    same_objects w w' ∧
    match objects w k key with
    | Some o => x = Ok o
    | None => ∃ e, x = Err e ∧ IsNotFound e = true
    end;
  srv_list w k opts : let '(x, w') := h _ (ListObjs k opts) w in
    same_objects w w' ∧
    ∀ l, x = Ok l → NoDup (obj_key k <$> l)
      ∧ ∀ o, o ∈ l ↔ objects w k (obj_key k o) = Some o ∧ selected opts (meta_of k o);
  srv_create w k o : let '(x, w') := h _ (Create k o) w in
    match x with
    | Ok o' => objects w k (obj_key k o) = None
        ∧ meta_kept (meta_of k o) (meta_of k o') ∧ kept k o o'
        ∧ changed w w' k (obj_key k o) (Some o')
    | Err _ => same_objects w w'
    end;
  srv_update w k o : let '(x, w') := h _ (Update k o) w in
    match x with
    | Ok o' => is_Some (objects w k (obj_key k o))
        ∧ meta_kept (meta_of k o) (meta_of k o') ∧ kept k o o'
        ∧ changed w w' k (obj_key k o) (Some o')
    | Err _ => same_objects w w'
    end;
  (** a merge patch: metadata key by key, the ports of a service as a whole *)
  srv_patch w k orig o : let '(x, w') := h _ (Patch k orig o) w in
    match x with
    | Ok o' => ∃ cur, objects w k (obj_key k o) = Some cur
        ∧ key_of (meta_of k o') = obj_key k o
        ∧ (∀ a, om_Annotations (meta_of k o') !! a =
             merged_map (om_Annotations (meta_of k orig)) (om_Annotations (meta_of k o))
               (om_Annotations (meta_of k cur)) a)
        ∧ (match k as k return objT k → objT k → objT k → objT k → Prop with
           | KService => λ orig o cur o',
               merged_list (svc_Ports orig) (svc_Ports o) (svc_Ports cur) (svc_Ports o') port_kept
           | _ => λ _ _ _ _, True
           end orig o cur o')
        ∧ (cur = orig → kept k o o')
        ∧ changed w w' k (obj_key k o) (Some o')
    | Err _ => same_objects w w'
    end;
  (** objects without finalizers and grace period are removed at once *)
  srv_delete w k o pp : let '(x, w') := h _ (Delete k o pp) w in
    match x with
    | None => k ≠ KPod → is_Some (objects w k (obj_key k o))
        ∧ changed w w' k (obj_key k o) None
    | Some _ => same_objects w w'
    end;
  (** everything else, status patches and deletions of pods included, leaves the
      objects of other kinds alone *)
  srv_frame w X (c : call X) k key :
    written_kind c ≠ Some k → objects (h _ c w).2 k key = objects w k key;
}.

(** A server that refuses no write it could carry out *)
Class Accepting {W : Type} (h : environment W) {S : ApiServer h} : Prop := {
  acc_create w k o : objects w k (obj_key k o) = None → ∃ o', (h _ (Create k o) w).1 = Ok o';
  acc_update w k o : is_Some (objects w k (obj_key k o)) → ∃ o', (h _ (Update k o) w).1 = Ok o';
  acc_patch w k orig o :
    is_Some (objects w k (obj_key k o)) → ∃ o', (h _ (Patch k orig o) w).1 = Ok o';
  acc_delete w k o pp :
    is_Some (objects w k (obj_key k o)) → (h _ (Delete k o pp) w).1 = None;
  acc_list w k opts : ∃ l, (h _ (ListObjs k opts) w).1 = Ok l;
}.
End Objects.

(** ** Reasoning about runs *)
Section After.
Context `{K : K8s} {W : Type} (h : environment W).

Definition after {A} (p : prog A) (w : W) (Q : trace → outcome A → W → Prop) : Prop :=
  let '(o, tr, w') := run h p w in Q tr o w'.

Lemma after_run {A} (p : prog A) w (Q : trace → outcome A → W → Prop) :
  Q (run h p w).1.2 (run h p w).1.1 (run h p w).2 → after p w Q.
Proof. unfold after. by destruct (run h p w) as [[o tr] w']. Qed.
Lemma after_mono {A} (p : prog A) w (Q Q' : trace → outcome A → W → Prop) :
  after p w Q → (∀ tr o w', Q tr o w' → Q' tr o w') → after p w Q'.
Proof. unfold after. destruct (run h p w) as [[o tr] w']. auto. Qed.
Lemma after_and {A} (p : prog A) w (Q Q' : trace → outcome A → W → Prop) :
  after p w Q → after p w Q' → after p w (λ tr o w', Q tr o w' ∧ Q' tr o w').
Proof. unfold after. by destruct (run h p w) as [[o tr] w']. Qed.
(** What holds of every execution holds of the run. *)
Lemma after_wlp {A} (p : prog A) w (Q : trace → outcome A → Prop) :
  wlp p Q → after p w (λ tr o _, Q tr o).
Proof. intros H. apply (wlp_run h p w) in H. unfold after. by destruct (run h p w) as [[o tr] w']. Qed.

Lemma after_ret {A} (a : A) w (Q : trace → outcome A → W → Prop) :
  Q [] (Done a) w → after (mret a) w Q.
Proof. done. Qed.
Lemma after_ret_bind {A B} (a : A) (f : A → prog B) w Q : after (f a) w Q → after (mret a ≫= f) w Q.
Proof. done. Qed.
Lemma after_trigger {X} (c : call X) w (Q : trace → outcome X → W → Prop) :
  (∀ x w', h _ c w = (x, w') → Q [Ev c x] (Done x) w') → after (trigger c) w Q.
Proof. unfold after, trigger. simpl. destruct (h _ c w) as [x w']. auto. Qed.
Lemma after_trigger_bind {X B} (c : call X) (f : X → prog B) w Q :
  (∀ x w', h _ c w = (x, w') → after (f x) w' (λ tr o w'', Q (Ev c x :: tr) o w'')) →
  after (trigger c ≫= f) w Q.
Proof.
  unfold after, trigger, mbind, prog_bind. simpl. destruct (h _ c w) as [x w'] eqn:E.
  intros H. specialize (H x w' eq_refl). simpl in H. by destruct (run h (f x) w') as [[o tr] w''].
Qed.
Lemma after_bind {A B} (p : prog A) (f : A → prog B) w Q :
  after p w (λ tr o w', match o with
                        | Done a => after (f a) w' (λ tr' o' w'', Q (tr ++ tr') o' w'')
                        | Panicked s => Q tr (Panicked s) w'
                        end) →
  after (p ≫= f) w Q.
Proof.
  unfold after, mbind, prog_bind. revert w Q.
  induction p as [a|s|X c k IH]; intros w Q; simpl; [done|done|].
  destruct (h X c w) as [x w']. specialize (IH x w').
  destruct (run h (k x) w') as [[o tr] w'']. intros H.
  specialize (IH (λ tr, Q (Ev c x :: tr))). simpl in IH.
  destruct (run h (prog_bind_go f (k x)) w') as [[o' tr'] w3]. by apply IH.
Qed.
Lemma after_cut {A B} (p : prog A) (f : A → prog B) w Q (R : trace → outcome A → W → Prop) :
  after p w R →
  (∀ tr a w', R tr (Done a) w' → after (f a) w' (λ tr' o w'', Q (tr ++ tr') o w'')) →
  (∀ tr s w', R tr (Panicked s) w' → Q tr (Panicked s) w') →
  after (p ≫= f) w Q.
Proof.
  intros Hp Hf Hs. apply after_bind. eapply after_mono; [exact Hp|].
  intros tr [a|s] w'; auto.
Qed.
Lemma after_lift_bind {A B} (o : outcome A) (f : A → prog B) w Q :
  (∀ a, o = Done a → after (f a) w Q) → (∀ s, o = Panicked s → Q [] (Panicked s) w) →
  after (lift o ≫= f) w Q.
Proof. destruct o as [a|s]; intros H1 H2; [by apply H1|by apply H2]. Qed.
Lemma after_assoc {A B C} (p : prog A) (f : A → prog B) (g : B → prog C) w Q :
  after (p ≫= λ x, f x ≫= g) w Q → after ((p ≫= f) ≫= g) w Q.
Proof.
  unfold after, mbind, prog_bind.
  revert w Q. induction p as [a|s|X c k IH]; intros w Q; simpl; auto.
  destruct (h X c w) as [x w']. specialize (IH x w').
  destruct (run h (prog_bind_go _ (k x)) w') as [[o tr] w''] eqn:E1.
  intros H. specialize (IH (λ tr, Q (Ev c x :: tr)) H).
  destruct (run h (prog_bind_go g (prog_bind_go f (k x))) w') as [[o' tr'] w3]. exact IH.
Qed.

(** [n] rounds of a handler *)
Fixpoint rounds {A} (n : nat) (p : prog A) : prog unit :=
  match n with
  | O => mret tt
  | S n => _ ← p; rounds n p
  end.

Lemma after_rounds {A} (p : prog A) (I : W → Prop) (P : trace → Prop) n w :
  P [] → (∀ tr tr', P tr → P tr' → P (tr ++ tr')) →
  (∀ w, I w → after p w (λ tr o w', P tr ∧ I w' ∧ ∃ a, o = Done a)) →
  I w → after (rounds n p) w (λ tr o w', P tr ∧ I w' ∧ o = Done tt).
Proof.
  intros H0 Happ Hp. revert w. induction n as [|n IH]; intros w Hw; simpl.
  { by apply after_ret. }
  eapply after_cut; [by apply Hp| |by intros ??? (_ & _ & ? & ?)].
  intros tr a w' (Htr & Hw' & _). eapply after_mono; [by apply IH|].
  intros tr' o w'' (Htr' & ? & ?). auto.
Qed.
End After.

Section Laws.
Context `{K : K8s} {W : Type} (h : environment W) {S : ApiServer h}.

(** The same objects of one kind *)
Definition same_kind (k : kind) (w w' : W) : Prop :=
  ∀ key, objects w' k key = objects w k key.

#[global] Instance same_kind_equiv k : Equivalence (same_kind k).
Proof. unfold same_kind. split; [done|by intros ????|intros ?????? ; etrans; eauto]. Qed.

Lemma same_objects_kind k w w' : same_objects w w' → same_kind k w w'.
Proof. intros H key. apply H. Qed.

Lemma written_kind_write {X} (c : call X) (x : X) k :
  (∀ v, write_of (Ev c x) = Some v → write_kind v ≠ Some k) → written_kind c ≠ Some k.
Proof. destruct c; simpl; try done; intros H; exact (H _ eq_refl). Qed.

(** The objects of a kind are left alone by a run that does not write them. *)
Lemma run_frame {A} (p : prog A) k w :
  writes_only (λ v, write_kind v ≠ Some k) p → after h p w (λ _ _ w', same_kind k w w').
Proof.
  unfold after. revert w. induction p as [a|s|X c f IH]; intros w H; simpl; [done|done|].
  destruct (h X c w) as [x w'] eqn:E. unfold writes_only, all_events in *.
  assert (written_kind c ≠ Some k
    ∧ wlp (f x) (λ tr _, Forall (λ e, ∀ v, write_of e = Some v → write_kind v ≠ Some k) tr))
    as [Hc Hf].
  { specialize (H x). split.
    - pose proof (run_exec h (f x) w') as He. destruct (run h (f x) w') as [[o tr] w''].
      pose proof (proj1 (wlp_exec _ _) H _ _ He) as Hf. apply Forall_cons in Hf as [Hf _].
      by eapply written_kind_write.
    - eapply wlp_mono; [exact H|]. by intros tr _ [_ ?]%Forall_cons. }
  specialize (IH x w' Hf). destruct (run h (f x) w') as [[o tr] w''].
  rewrite <-IH. intros key. pose proof (srv_frame w X c k key Hc) as F. by rewrite E in F.
Qed.

(** The laws, for the steps of a run *)
Lemma get_step k key w x w' :
  h _ (Get k key) w = (x, w') →
  same_objects w w' ∧ (objects w k key = None ∧ (∃ e, x = Err e ∧ IsNotFound e = true)
                       ∨ ∃ o, objects w k key = Some o ∧ x = Ok o).
Proof.
  intros E. pose proof (srv_get w k key) as H. rewrite E in H. destruct H as [Hs H].
  split; [done|]. destruct (objects w k key) as [o|]; [right; by exists o|by left].
Qed.
Lemma create_step k o w x w' :
  h _ (Create k o) w = (x, w') →
  (∃ e, x = Err e ∧ same_objects w w')
  ∨ ∃ o', x = Ok o' ∧ objects w k (obj_key k o) = None
      ∧ meta_kept (meta_of k o) (meta_of k o') ∧ kept k o o'
      ∧ changed w w' k (obj_key k o) (Some o').
Proof.
  intros E. pose proof (srv_create w k o) as H. rewrite E in H.
  destruct x as [o'|e]; [right; by exists o'|left; by exists e].
Qed.
Lemma delete_step k o pp w x w' :
  h _ (Delete k o pp) w = (x, w') → k ≠ KPod →
  (∃ e, x = Some e ∧ same_objects w w')
  ∨ x = None ∧ is_Some (objects w k (obj_key k o)) ∧ changed w w' k (obj_key k o) None.
Proof.
  intros E Hk. pose proof (srv_delete w k o pp) as H. rewrite E in H.
  destruct x as [e|]; [left; by exists e|right]. split; [done|auto].
Qed.
Lemma other_step {X} (c : call X) k key w x w' :
  h _ c w = (x, w') → written_kind c ≠ Some k → objects w' k key = objects w k key.
Proof. intros E Hc. pose proof (srv_frame w X c k key Hc) as H. by rewrite E in H. Qed.
End Laws.

Section AcceptedWrites.
Context `{K : K8s} {W : Type} (h : environment W) {S : ApiServer h} {Acc : Accepting h}.

Lemma create_accepted k o w x w' :
  h _ (Create k o) w = (x, w') → objects w k (obj_key k o) = None →
  ∃ o', x = Ok o' ∧ meta_kept (meta_of k o) (meta_of k o') ∧ kept k o o'
    ∧ changed w w' k (obj_key k o) (Some o').
Proof.
  intros E Hn. destruct (acc_create w k o Hn) as [o' Ho]. rewrite E in Ho. simpl in Ho.
  destruct (create_step h k o w x w' E) as [(e & -> & _)|(o'' & -> & _ & ? & ? & ?)]; [done|].
  by exists o''.
Qed.
Lemma delete_accepted k o pp w x w' :
  h _ (Delete k o pp) w = (x, w') → k ≠ KPod → is_Some (objects w k (obj_key k o)) →
  x = None ∧ changed w w' k (obj_key k o) None.
Proof.
  intros E Hk Hs. pose proof (acc_delete w k o pp Hs) as Ho. rewrite E in Ho. simpl in Ho.
  destruct (delete_step h k o pp w x w' E Hk) as [(e & -> & _)|(-> & _ & ?)]; done.
Qed.
Lemma patch_accepted k orig o w x w' cur :
  h _ (Patch k orig o) w = (x, w') → objects w k (obj_key k o) = Some cur →
  ∃ o', x = Ok o' ∧ key_of (meta_of k o') = obj_key k o
    ∧ (∀ a, om_Annotations (meta_of k o') !! a =
         merged_map (om_Annotations (meta_of k orig)) (om_Annotations (meta_of k o))
           (om_Annotations (meta_of k cur)) a)
    ∧ (match k as k return objT k → objT k → objT k → objT k → Prop with
       | KService => λ orig o cur o',
           merged_list (svc_Ports orig) (svc_Ports o) (svc_Ports cur) (svc_Ports o') port_kept
       | _ => λ _ _ _ _, True
       end orig o cur o')
    ∧ changed w w' k (obj_key k o) (Some o').
Proof.
  intros E Hc. destruct (acc_patch w k orig o) as [o' Ho]; [by eexists|].
  rewrite E in Ho. simpl in Ho. subst x.
  pose proof (srv_patch w k orig o) as H. rewrite E in H.
  destruct H as (cur' & Hc' & ? & ? & ? & _ & ?). rewrite Hc in Hc'. injection Hc' as <-.
  by exists o'.
Qed.
End AcceptedWrites.

(** The steps of a creation against a server that accepts it: the name is free,
    the object is created *)
Section Creation.
Context `{K : K8s} {W : Type} (h : environment W) {S : ApiServer h} {Acc : Accepting h}.

(** Only objects of the kind [k] changed. *)
Definition only (k : kind) (w w' : W) : Prop := ∀ k', k' ≠ k → same_kind h k' w w'.

Lemma only_same k w w' : same_objects w w' → only k w w'.
Proof. intros H k' _ key. apply H. Qed.
Lemma only_trans k w1 w2 w3 : only k w1 w2 → only k w2 w3 → only k w1 w3.
Proof. intros H1 H2 k' Hk. by etrans; [apply H1|apply H2]. Qed.
Lemma only_changed k key v w w' : changed w w' k key v → only k w w'.
Proof. intros (_ & _ & H) k' Hk key'. by apply H. Qed.

Lemma after_get_missing {B} k key (f : result (objT k) → prog B) w Q :
  objects w k key = None →
  (∀ e w', IsNotFound e = true → same_objects w w' →
     after h (f (Err e)) w' (λ tr o w'', Q (Ev (Get k key) (Err e) :: tr) o w'')) →
  after h (trigger (Get k key) ≫= f) w Q.
Proof.
  intros Hn H. apply after_trigger_bind. intros x w' E.
  apply (get_step h) in E as [Hs [[_ (e & -> & He)]|(o & Ho & _)]]; [by apply H|congruence].
Qed.
Lemma after_create k o w (Q : trace → outcome (result (objT k)) → W → Prop) :
  objects w k (obj_key k o) = None →
  (∀ o' w', meta_kept (meta_of k o) (meta_of k o') → kept k o o' →
     changed w w' k (obj_key k o) (Some o') → Q [Ev (Create k o) (Ok o')] (Done (Ok o')) w') →
  after h (trigger (Create k o)) w Q.
Proof.
  intros Hn H. apply after_trigger. intros x w' E.
  apply (create_accepted h) in E as (o' & -> & ? & ? & ?); [by apply H|done].
Qed.
(** A call that writes no object *)
Lemma after_other {X B} (c : call X) (f : X → prog B) w Q :
  (∀ k, written_kind c ≠ Some k) →
  (∀ x w', h _ c w = (x, w') → same_objects w w' →
     after h (f x) w' (λ tr o w'', Q (Ev c x :: tr) o w'')) →
  after h (trigger c ≫= f) w Q.
Proof.
  intros Hc H. apply after_trigger_bind. intros x w' E. apply H; [done|].
  intros k key. by eapply (other_step h c).
Qed.
End Creation.
