(* ===== verification/ObjectStore.v ===== *)
(** * A store of objects that satisfies the laws of the API server

    The concrete environment on which the witnesses about runs are evaluated:
    maps from keys to objects, merge patches computed field by field, fixed
    answers for the calls that are not about objects. *)
From S2P Require Import Prelude K8s Api Effects Hoare External Server.

#[export] Instance ObjectKey_countable : Countable ObjectKey.
Proof.
  refine (inj_countable' (λ k, (key_Namespace k, key_Name k))
            (λ p, {| key_Namespace := p.1; key_Name := p.2 |}) _).
  by intros [].
Defined.

Section Store.
Context `{K : K8s}.

Record store := { st_objects : ∀ k, gmap ObjectKey (objT k) }.
Definition empty_store : store := {| st_objects _ := ∅ |}.

(** Writing the map of one kind *)
Definition set_objects (k : kind) (m : gmap ObjectKey (objT k)) (w : store) : store :=
  {| st_objects k' :=
       match decide (k = k') with
       | left e => eq_rect k (λ k, gmap ObjectKey (objT k)) m k' e
       | right _ => st_objects w k'
       end |}.
Definition put (k : kind) (o : objT k) (w : store) : store :=
  set_objects k (<[obj_key k o := o]> (st_objects w k)) w.
Definition remove (k : kind) (key : ObjectKey) (w : store) : store :=
  set_objects k (delete key (st_objects w k)) w.

(** An object is found under its own key only. *)
Definition find (w : store) (k : kind) (key : ObjectKey) : option (objT k) :=
  o ← st_objects w k !! key; if decide (obj_key k o = key) then Some o else None.

Definition with_meta (k : kind) : ObjectMeta → objT k → objT k :=
  match k with
  | KSecret => λ m o, {| sec_meta := m; sec_Type := sec_Type o; sec_Immutable := sec_Immutable o;
                         sec_Data := sec_Data o |}
  | KConfigMap => λ m o, {| cm_meta := m; cm_Data := cm_Data o |}
  | KService => λ m o, {| svc_meta := m; svc_Type := svc_Type o; svc_ClusterIP := svc_ClusterIP o;
      svc_PublishNotReadyAddresses := svc_PublishNotReadyAddresses o;
      svc_Selector := svc_Selector o; svc_Ports := svc_Ports o |}
  | KStatefulSet => λ m o, set_sts_meta m o
  | KPod => λ m o, set_pod_meta m o
  | KEndpointSlice => λ m o, {| eps_meta := m; eps_Endpoints := eps_Endpoints o |}
  | KIngress => λ m o, {| ing_meta := m; ing_IngressClassName := ing_IngressClassName o;
                          ing_TLS := ing_TLS o; ing_Rules := ing_Rules o |}
  | KDeployment => λ m o, {| dep_meta := m; dep_Replicas := dep_Replicas o;
                             dep_Selector := dep_Selector o; dep_Template := dep_Template o |}
  | KCronJob => λ m o, {| cj_meta := m; cj_ConcurrencyPolicy := cj_ConcurrencyPolicy o;
      cj_SuccessfulJobsHistoryLimit := cj_SuccessfulJobsHistoryLimit o;
      cj_FailedJobsHistoryLimit := cj_FailedJobsHistoryLimit o;
      cj_Schedule := cj_Schedule o; cj_BackoffLimit := cj_BackoffLimit o;
      cj_Template := cj_Template o |}
  | KPodMonitor => λ m o, {| pmon_meta := m; pmon_Selector := pmon_Selector o;
      pmon_MatchNames := pmon_MatchNames o; pmon_Endpoints := pmon_Endpoints o |}
  | KHTTPRoute => λ m o, {| hr_meta := m; hr_ParentRefs := hr_ParentRefs o;
      hr_Hostnames := hr_Hostnames o; hr_Rules := hr_Rules o |}
  | KReferenceGrant => λ m o, {| rg_meta := m; rg_From := rg_From o; rg_To := rg_To o |}
  | KTypesenseCluster => λ m o, {| ts_meta := m; Spec := Spec o; Status := Status o |}
  end.
Lemma meta_of_with_meta k m o : meta_of k (with_meta k m o) = m.
Proof. by destruct k. Qed.

(** The difference of two maps, applied to a third *)
Definition merge_map (orig o cur : smap) : smap :=
  map_imap (λ k v, if decide (orig !! k = o !! k) then Some v else None) cur
  ∪ map_imap (λ k v, if decide (orig !! k = o !! k) then None else Some v) o.
Lemma lookup_merge_map orig o cur k :
  merge_map orig o cur !! k = merged_map orig o cur k.
Proof.
  unfold merge_map, merged_map. rewrite lookup_union, !map_lookup_imap. case_decide as E.
  - destruct (cur !! k) as [v|]; simpl; rewrite ?decide_True by done;
      destruct (o !! k); simpl; rewrite ?decide_True by done; done.
  - destruct (cur !! k) as [v|]; simpl; rewrite ?decide_False by done;
      destruct (o !! k); simpl; rewrite ?decide_False by done; done.
Qed.

Definition merge_meta (orig o cur : ObjectMeta) : ObjectMeta :=
  {| om_Name := om_Name o; om_Namespace := om_Namespace o; om_Labels := om_Labels o;
     om_Annotations :=
       merge_map (om_Annotations orig) (om_Annotations o) (om_Annotations cur);
     om_OwnerReferences := om_OwnerReferences o;
     om_DeletionTimestamp := om_DeletionTimestamp cur; om_Generation := om_Generation cur |}.
(** The annotations of every kind and the ports of services are merged, the
    rest is taken from the object that was sent. *)
Definition merge_fields (k : kind) : objT k → objT k → objT k → objT k :=
  match k with
  | KService => λ orig o cur,
      {| svc_meta := svc_meta o; svc_Type := svc_Type o; svc_ClusterIP := svc_ClusterIP o;
         svc_PublishNotReadyAddresses := svc_PublishNotReadyAddresses o;
         svc_Selector := svc_Selector o;
         svc_Ports := if decide (svc_Ports orig = svc_Ports o) then svc_Ports cur
                      else svc_Ports o |}
  | _ => λ orig o cur, o
  end.
Definition merge_object (k : kind) (orig o cur : objT k) : objT k :=
  with_meta k (merge_meta (meta_of k orig) (meta_of k o) (meta_of k cur))
    (merge_fields k orig o cur).

Definition not_found : error := ApiError NotFound "not found".
Definition exists_already : error := ApiError AlreadyExists "already exists".

Definition selectedb (opts : ListOptions) (m : ObjectMeta) : bool :=
  match lo_Namespace opts with Some ns => String.eqb (om_Namespace m) ns | None => true end
  && bool_decide (lo_Labels opts ⊆ om_Labels m).

(** Answers to the calls that are not about objects *)
Context (other : ∀ X, call X → X).

Definition object_store : environment store := λ X c,
  match c in call X return store → X * store with
  | Get k key => λ w,
      (match find w k key with Some o => Ok o | None => Err not_found end, w)
  | ListObjs k opts => λ w,
      (Ok (filter (λ o, selectedb opts (meta_of k o) = true)
             (omap (λ key, find w k key) (map_to_list (st_objects w k)).*1)), w)
  | Create k o => λ w,
      match find w k (obj_key k o) with
      | Some _ => (Err exists_already, w)
      | None => (Ok o, put k o w)
      end
  | Update k o => λ w,
      match find w k (obj_key k o) with
      | Some _ => (Ok o, put k o w)
      | None => (Err not_found, w)
      end
  | Patch k orig o => λ w,
      match find w k (obj_key k o) with
      | Some cur => (Ok (merge_object k orig o cur), put k (merge_object k orig o cur) w)
      | None => (Err not_found, w)
      end
  | StatusPatch k orig o => λ w,
      match find w k (obj_key k o) with
      | Some cur => (Ok o, put k o w)
      | None => (Err not_found, w)
      end
  | Delete k o _ => λ w,
      match find w k (obj_key k o) with
      | Some _ => (None, remove k (obj_key k o) w)
      | None => (Some not_found, w)
      end
  | c => λ w, (other _ c, w)
  end.

(** ** The laws *)

Lemma find_set k m w k' key :
  find (set_objects k m w) k' key =
  match decide (k = k') with
  | left e => o ← (eq_rect k (λ k, gmap ObjectKey (objT k)) m k' e) !! key;
              if decide (obj_key k' o = key) then Some o else None
  | right _ => find w k' key
  end.
Proof. unfold find, set_objects. simpl. by destruct (decide (k = k')). Qed.
Lemma find_other k m w k' key : k' ≠ k → find (set_objects k m w) k' key = find w k' key.
Proof. intros H. rewrite find_set. by destruct (decide (k = k')). Qed.
Lemma find_set_same k m w key :
  find (set_objects k m w) k key =
  (o ← m !! key; if decide (obj_key k o = key) then Some o else None).
Proof.
  rewrite find_set. destruct (decide (k = k)) as [e|]; [|done].
  by rewrite (Eqdep_dec.UIP_dec kind_eq_dec e eq_refl).
Qed.
Lemma find_put k o w : find (put k o w) k (obj_key k o) = Some o.
Proof. unfold put. rewrite find_set_same, lookup_insert_eq. simpl. by rewrite decide_True. Qed.
Lemma find_put_ne k o w key : key ≠ obj_key k o → find (put k o w) k key = find w k key.
Proof. intros H. unfold put. rewrite find_set_same. unfold find. by rewrite lookup_insert_ne. Qed.
Lemma find_remove k key w : find (remove k key w) k key = None.
Proof. unfold remove. rewrite find_set_same. by rewrite lookup_delete_eq. Qed.
Lemma find_remove_ne k key w key' :
  key' ≠ key → find (remove k key w) k key' = find w k key'.
Proof. intros H. unfold remove. rewrite find_set_same. unfold find. by rewrite lookup_delete_ne. Qed.
Lemma find_key w k key o : find w k key = Some o → obj_key k o = key.
Proof.
  unfold find. destruct (st_objects w k !! key) as [o'|]; [|done]. simpl.
  case_decide; [by intros [= <-]|done].
Qed.

Lemma selectedb_spec opts m : selectedb opts m = true ↔ selected opts m.
Proof.
  unfold selectedb, selected. rewrite andb_true_iff, bool_decide_eq_true.
  destruct (lo_Namespace opts) as [ns|].
  - rewrite String.eqb_eq. naive_solver.
  - naive_solver.
Qed.

Lemma obj_key_merge k orig o cur : obj_key k (merge_object k orig o cur) = obj_key k o.
Proof. unfold obj_key, merge_object. by rewrite meta_of_with_meta. Qed.

Lemma kept_refl k o : kept k o o.
Proof.
  destruct k; try done; simpl.
  - apply Forall_Forall2_diag, Forall_forall. done.
  - split; [done|]. apply Forall_Forall2_diag, Forall_forall. done.
Qed.

Lemma kept_merge k orig o : kept k o (merge_object k orig o orig).
Proof.
  destruct k; simpl; try (split; done); try done.
  - assert ((if decide (svc_Ports orig = svc_Ports o) then svc_Ports orig else svc_Ports o)
      = svc_Ports o) as -> by by case_decide.
    apply Forall_Forall2_diag, Forall_forall. done.
  - split; [done|]. apply Forall_Forall2_diag, Forall_forall. done.
Qed.

Lemma store_listed w k opts :
  let l := filter (λ o, selectedb opts (meta_of k o) = true)
             (omap (λ key, find w k key) (map_to_list (st_objects w k)).*1) in
  NoDup (obj_key k <$> l)
  ∧ ∀ o, o ∈ l ↔ find w k (obj_key k o) = Some o ∧ selected opts (meta_of k o).
Proof.
  intros l. split.
  - assert (∀ keys, NoDup keys → NoDup (obj_key k <$> omap (λ key, find w k key) keys)
      ∧ ∀ key, key ∈ (obj_key k <$> omap (λ key, find w k key) keys) → key ∈ keys) as Hk.
    { induction 1 as [|key keys Hn Hd [IH1 IH2]]; [split; [constructor|done]|]. simpl.
      destruct (find w k key) as [o|] eqn:E; simpl; [|split; [done|intros; right; auto]].
      rewrite (find_key _ _ _ _ E). split; [constructor; auto|].
      intros key' [->|Hin]%elem_of_cons; [by left|right; auto]. }
    unfold l. eapply NoDup_sublist; [apply fmap_sublist, sublist_filter|].
    apply Hk, NoDup_fst_map_to_list.
  - intros o. unfold l. rewrite list_elem_of_filter, selectedb_spec, list_elem_of_omap. split.
    + intros [Hs (key & _ & Hf)]. by rewrite (find_key _ _ _ _ Hf).
    + intros [Hf Hs]. split; [done|]. exists (obj_key k o). split; [|done].
      unfold find in Hf. destruct (st_objects w k !! obj_key k o) as [o'|] eqn:E; [|done].
      apply list_elem_of_fmap. exists (obj_key k o, o'). split; [done|].
      by apply elem_of_map_to_list.
Qed.

#[export] Program Instance store_server : ApiServer object_store := { objects := find }.
Next Obligation. intros w k key o. apply find_key. Qed.
Next Obligation.
  intros w k key. simpl. split; [done|].
  destruct (find w k key) as [o|]; [done|]. by exists not_found.
Qed.
Next Obligation.
  intros w k opts. simpl. split; [done|]. intros l [= <-]. apply store_listed.
Qed.
Next Obligation.
  intros w k o. simpl. destruct (find w k (obj_key k o)) as [o'|] eqn:E; [done|].
  split_and!; try done; [apply kept_refl|apply find_put| |].
  - intros key' Hk. by apply find_put_ne.
  - intros k' key' Hk. by apply find_other.
Qed.
Next Obligation.
  intros w k o. simpl. destruct (find w k (obj_key k o)) as [o'|] eqn:E; [|done].
  split_and!; try done; [apply kept_refl|apply find_put| |].
  - intros key' Hk. by apply find_put_ne.
  - intros k' key' Hk. by apply find_other.
Qed.
Next Obligation.
  intros w k orig o. simpl. destruct (find w k (obj_key k o)) as [cur|] eqn:E; [|done].
  exists cur. split_and!; [done|apply (obj_key_merge k)| | | | | |].
  - intros a. unfold merge_object. rewrite meta_of_with_meta. simpl. apply lookup_merge_map.
  - destruct k; try done. split; simpl.
    + intros Heq. by rewrite decide_True.
    + intros Hne. rewrite decide_False by done. apply Forall_Forall2_diag, Forall_forall. done.
  - intros ->. apply kept_merge.
  - rewrite <-(obj_key_merge k orig o cur). apply find_put.
  - intros key' Hk. apply find_put_ne. by rewrite obj_key_merge.
  - intros k' key' Hk. by apply find_other.
Qed.
Next Obligation.
  intros w k o pp. simpl. destruct (find w k (obj_key k o)) as [o'|] eqn:E; [|done].
  intros _. split_and!; [by eexists|apply find_remove| |].
  - intros key' Hk. by apply find_remove_ne.
  - intros k' key' Hk. by apply find_other.
Qed.
Next Obligation.
  intros w X c k key. destruct c; simpl; try done; intros Hk;
    lazymatch goal with |- context [find ?w ?k0 (obj_key ?k0 ?o)] =>
      destruct (find w k0 (obj_key k0 o)); simpl; try done
    end; apply find_other; congruence.
Qed.

#[export] Instance store_accepting : Accepting object_store.
Proof.
  split; simpl.
  - intros w k o ->. by eexists.
  - intros w k o [o' ->]. by eexists.
  - intros w k orig o [o' ->]. by eexists.
  - intros w k o pp [o' ->]. done.
  - intros w k opts. by eexists.
Qed.
End Store.
