(* ===== verification/UtilsTheory.v ===== *)
(** * Theorems on the shared helpers (Utils)

    Filtering of annotations, merging of labels, names and image tags. *)
From S2P Require Import Prelude GoLib GoNet K8s Api Effects External Concrete Utils.
From Stdlib Require Import Ascii.
From Stdlib Require String.

#[local] Arguments String.append : simpl nomatch.
#[local] Arguments Ascii.eqb : simpl never.

(** ** Filtered maps *)

(** No key of the map contains one of the filters. *)
Definition unfiltered (m : smap) (filters : list string) : Prop :=
  map_Forall (λ k _, existsb (contains_str k) filters = false) m.

Lemma filterMap_id m fs : unfiltered m fs → filterMap m fs = m.
Proof.
  intros H. unfold filterMap. apply map_filter_id. intros k v Hk. by eapply H.
Qed.
Lemma filterMap_insert_hit k v m fs :
  existsb (contains_str k) fs = true → m !! k = None → filterMap (<[k := v]> m) fs = filterMap m fs.
Proof.
  intros H Hk. unfold filterMap. rewrite map_filter_insert_False by (simpl; congruence).
  by rewrite delete_id.
Qed.
Lemma filterMap_unfiltered m fs : unfiltered (filterMap m fs) fs.
Proof. intros k v Hk. by apply map_lookup_filter_Some in Hk as [_ Hk]. Qed.

Lemma contains_str_refl s : contains_str s s = true.
Proof. apply contains_str_spec. exists "", "". by rewrite str_app_nil_r. Qed.

Lemma DeepEqual_refl {A} `{EqDecision A} (x : A) : DeepEqual x x = true.
Proof. by apply bool_decide_eq_true. Qed.

Definition unfiltered_dec (m : smap) (fs : list string) : bool :=
  forallb (λ kv, negb (existsb (contains_str kv.1) fs)) (map_to_list m).
Lemma unfiltered_dec_spec m fs : unfiltered_dec m fs = true ↔ unfiltered m fs.
Proof.
  unfold unfiltered_dec, unfiltered. rewrite forallb_forall, map_Forall_to_list, Forall_forall.
  setoid_rewrite list_elem_of_In. split.
  - intros H [k v] Hin. by apply H in Hin as ?%negb_true_iff.
  - intros H [k v] Hin. apply negb_true_iff. by apply (H (k, v)).
Qed.


(** ** Image tags *)

Lemma last_index_app a b :
  has_char ":" b = false → last_index_str (a +:+ String ":" b) ":" = Some (String.length a).
Proof.
  intros Hb. assert (∀ s, has_char ":" s = false → last_index_str s ":" = None) as Hn.
  { induction s as [|c s IH]; [done|]. cbn [has_char]. intros [Hc Hs]%orb_false_iff.
    cbn [last_index_str]. rewrite (IH Hs).
    assert (String.prefix ":" (String c s) = false) as ->; [|done].
    apply not_true_is_false. intros [t [= -> _]]%prefix_app_inv. done. }
  induction a as [|c a IH]; simpl; [|by rewrite IH].
  rewrite (Hn _ Hb). by destruct b.
Qed.

(** [getImageTag] is what follows the last colon: the tag of an image that
    has one, but for an image without a tag whose registry names a port it is
    the port with the path. *)
Theorem getImageTag_last_colon prefix suffix :
  has_char ":" suffix = false → getImageTag (prefix +:+ ":" +:+ suffix) = suffix.
Proof.
  intros H. unfold getImageTag. change (":" +:+ suffix) with (String ":" suffix).
  rewrite last_index_app by done. change (String ":" suffix) with (":" +:+ suffix).
  replace (prefix +:+ ":" +:+ suffix) with ((prefix +:+ ":") +:+ suffix) by apply str_app_assoc.
  replace (String.length prefix + 1) with (String.length (prefix +:+ ":"))
    by (rewrite length_str_app; done).
  apply drop_str_app.
Qed.
Lemma getImageTag_last_colon_witness :
  getImageTag "typesense/typesense:29.0" = "29.0"
  ∧ getImageTag "registry:5000/typesense" = "5000/typesense".
Proof.
  split.
  - exact (getImageTag_last_colon "typesense/typesense" "29.0" eq_refl).
  - exact (getImageTag_last_colon "registry" "5000/typesense" eq_refl).
Defined.

(** ** Volumes *)

Section Volumes.
Context `{K : K8s}.

(** Sorting by distinct names gives the same list for every order. *)
Lemma merge_sort_by_name_unique {A} (f : A → string)
    `{∀ v w, Decision (str_le (f v) (f w))} (l1 l2 : list A) :
  NoDup (f <$> l1) → l1 ≡ₚ l2 →
  merge_sort (λ v w, str_le (f v) (f w)) l1 = merge_sort (λ v w, str_le (f v) (f w)) l2.
Proof.
  intros Hnd Hp.
  assert (Transitive (λ v w, str_le (f v) (f w))) by (intros x y z; apply str_le_trans).
  assert (Total (λ v w, str_le (f v) (f w))) by (intros x y; apply str_le_total).
  apply (StronglySorted_unique_strong (λ v w, str_le (f v) (f w))).
  - intros x y Hx Hy Hxy Hyx. rewrite merge_sort_Permutation in Hx, Hy. rewrite <-Hp in Hy.
    assert (f x = f y) as E by by apply str_le_antisymm.
    apply list_elem_of_lookup in Hx as [i Hi], Hy as [j Hj].
    assert (i = j) as ->.
    { eapply NoDup_lookup; [exact Hnd| |]; rewrite list_lookup_fmap.
      - by rewrite Hi.
      - rewrite Hj. simpl. by rewrite E. }
    congruence.
  - by apply StronglySorted_merge_sort.
  - by apply StronglySorted_merge_sort.
  - by rewrite !merge_sort_Permutation.
Qed.

(** C32 Volumes are compared as sets: for volumes with distinct names,
    [needsSyncVolumes] finds no difference exactly when the existing volumes are
    a reordering of the wanted ones, up to their default modes. *)
Theorem needsSyncVolumes_order desired existing :
  NoDup (vol_Name <$> desired) →
  (needsSyncVolumes desired existing).1.1 = false
  ↔ clear_default_mode <$> desired ≡ₚ clear_default_mode <$> existing.
Proof.
  intros Hnd. unfold needsSyncVolumes, normalizeVolumes. simpl.
  rewrite negb_false_iff. unfold DeepEqual. rewrite bool_decide_eq_true. split.
  - intros E. rewrite <-(merge_sort_Permutation (λ v w, str_le (vol_Name v) (vol_Name w))
      (clear_default_mode <$> desired)), E. by rewrite merge_sort_Permutation.
  - intros Hp. apply (merge_sort_by_name_unique vol_Name); [|done].
    by rewrite <-list_fmap_compose.
Qed.
End Volumes.

(** Two volumes in either order, one of them with a default mode *)
Section Witnesses.
#[local] Existing Instance concreteK.

Definition demo_volume (name : string) (mode : option Z) : Volume :=
  {| vol_Name := name;
     vol_ConfigMap := Some {| cmv_Name := name; cmv_DefaultMode := mode; cmv_rest := () |};
     vol_PersistentVolumeClaim := None; vol_rest := () |}.

Lemma needsSyncVolumes_order_witness :
  (needsSyncVolumes [demo_volume "a" None; demo_volume "b" None]
     [demo_volume "b" (Some 420%Z); demo_volume "a" None]).1.1 = false.
Proof.
  apply (needsSyncVolumes_order [demo_volume "a" None; demo_volume "b" None]
    [demo_volume "b" (Some 420%Z); demo_volume "a" None]).
  - apply (bool_decide_unpack _). by vm_compute.
  - apply Permutation_swap.
Defined.
End Witnesses.
