(* ===== verification/ClusterTheory.v ===== *)
(** * Theorems on the classification of the cluster (QuorumHelpers)

    What [getMinimumRequiredNodes] and [getClusterStatus] decide, and what the
    status and the health of a node are read from. *)
From S2P Require Import Prelude GoLib GoNet GoJson K8s Api Effects Hoare External Utils.
From S2P Require Import Conditions StatefulSetOps ConfigMap QuorumHelpers Quorum.

(** ** Minimum of required nodes *)

Lemma min_required_pos n :
  (0 < n)%Z → getMinimumRequiredNodes n = ((n + 1) / 2)%Z.
Proof.
  intros H. unfold getMinimumRequiredNodes.
  rewrite Z.quot_div_nonneg by lia. replace (n + 1)%Z with (n - 1 + 1 * 2)%Z by lia.
  rewrite Z.div_add by lia. done.
Qed.

(** [getMinimumRequiredNodes] is between half of the nodes and all of them;
    it is a majority exactly for an odd number of nodes: for an even number it
    is one half, which two disjoint groups of nodes can reach. *)
Theorem getMinimumRequiredNodes_majority n :
  (0 < n)%Z →
  (n ≤ 2 * getMinimumRequiredNodes n ∧ getMinimumRequiredNodes n ≤ n)%Z
  ∧ (Z.odd n = true ↔ n < 2 * getMinimumRequiredNodes n)%Z
  ∧ (Z.even n = true ↔ 2 * getMinimumRequiredNodes n = n)%Z.
Proof.
  intros Hn. rewrite min_required_pos by done.
  pose proof (Z.div_mod (n + 1) 2 ltac:(lia)) as E.
  pose proof (Z.mod_pos_bound (n + 1) 2 ltac:(lia)) as B.
  rewrite <-(Z.negb_even n), Z.even_spec, negb_true_iff, <-not_true_iff_false, Z.even_spec.
  unfold Z.Even. repeat split; try lia.
  - intros Ho. destruct (Z.eq_dec ((n + 1) `mod` 2) 0); [lia|].
    exfalso. apply Ho. exists ((n + 1) / 2)%Z. lia.
  - intros ? [m ->]. lia.
  - intros [m ->]. lia.
  - intros. exists ((n + 1) / 2)%Z. lia.
Qed.
Lemma getMinimumRequiredNodes_majority_witness :
  (0 < 4)%Z ∧ (Z.even 4 = true ↔ 2 * getMinimumRequiredNodes 4 = 4)%Z.
Proof. split; [lia|]. apply (getMinimumRequiredNodes_majority 4). lia. Defined.

(** ** Cluster status *)

(** The nodes of a status map in a given state *)
Definition nodes_in (state : string) (m : gmap string NodeStatus) : nat :=
  size (filter (λ kv, State kv.2 = state) m).
(** The nodes [getClusterStatus] counts as not ready *)
Definition unready_nodes (m : gmap string NodeStatus) : nat :=
  size (filter (λ kv, State kv.2 = NotReadyState ∨ State kv.2 = UnreachableState) m).

Lemma foldl_count_states l a b :
  foldl count_states (a, b) l =
  (a + Z.of_nat (length (filter (λ s, State s = LeaderState) l)),
   b + Z.of_nat (length (filter (λ s, State s = NotReadyState ∨ State s = UnreachableState) l)))%Z.
Proof.
  revert a b. induction l as [|s l IH]; intros a b; simpl; [f_equal; lia|].
  rewrite IH. rewrite !filter_cons.
  destruct (String.eqb_spec (State s) LeaderState) as [E|E];
    destruct (String.eqb_spec (State s) NotReadyState) as [E'|E'];
    destruct (String.eqb_spec (State s) UnreachableState) as [E''|E''];
    rewrite ?(decide_True (P := State s = LeaderState)) by done;
    rewrite ?(decide_False (P := State s = LeaderState)) by done;
    repeat case_decide; try tauto; simpl; f_equal; lia.
Qed.

Lemma cluster_counts m :
  foldl count_states (0, 0)%Z (map_to_list m).*2 =
  (Z.of_nat (nodes_in LeaderState m), Z.of_nat (unready_nodes m)).
Proof.
  rewrite foldl_count_states. unfold nodes_in, unready_nodes.
  rewrite !Z.add_0_l. do 2 f_equal; symmetry.
  - exact (size_filter_values (λ s, State s = LeaderState) m).
  - exact (size_filter_values
      (λ s, State s = NotReadyState ∨ State s = UnreachableState) m).
Qed.
Lemma nodes_in_size s m : nodes_in s m ≤ size m.
Proof. apply map_size_filter. Qed.

Lemma cluster_status_counts m :
  (getClusterStatus m = ClusterStatusSplitBrain ↔ 2 ≤ nodes_in LeaderState m)
  ∧ (getClusterStatus m = ClusterStatusOK ↔
       nodes_in LeaderState m = 1
       ∧ (getMinimumRequiredNodes (Z.of_nat (size m))
          ≤ Z.of_nat (size m) - Z.of_nat (unready_nodes m))%Z)
  ∧ (getClusterStatus m = ClusterStatusElectionDeadlock ↔
       nodes_in LeaderState m = 0 ∧ 2 ≤ size m ∧ unready_nodes m ≠ size m).
Proof.
  unfold getClusterStatus. rewrite cluster_counts.
  repeat case_match; bool_to_prop; repeat split; intros; try done; lia.
Qed.

(** C5 The status depends only on the numbers of nodes, leaders and nodes not
    ready: two leaders are a split brain; the cluster is OK with exactly one
    leader and [getMinimumRequiredNodes] nodes that are ready; without a leader
    it is deadlocked when it has several nodes and one of them is up; it is not
    ready otherwise. *)
Theorem getClusterStatus_spec m :
  (getClusterStatus m = ClusterStatusSplitBrain ↔ 2 ≤ nodes_in LeaderState m)
  ∧ (getClusterStatus m = ClusterStatusOK ↔
       nodes_in LeaderState m = 1
       ∧ (getMinimumRequiredNodes (Z.of_nat (size m))
          ≤ Z.of_nat (size m) - Z.of_nat (unready_nodes m))%Z)
  ∧ (getClusterStatus m = ClusterStatusElectionDeadlock ↔
       nodes_in LeaderState m = 0 ∧ 2 ≤ size m ∧ unready_nodes m ≠ size m).
Proof. apply cluster_status_counts. Qed.
