(* ===== verification/QuorumTheory.v ===== *)
(** * Observations on the quorum reconciler (Quorum)

    What the theorems on [ReconcileQuorum] observe in a trace, and the readiness
    gates that it writes. *)
From S2P Require Import Prelude GoLib GoNet GoJson K8s Api Effects Hoare External Utils.
From S2P Require Import Conditions StatefulSetOps ConfigMap QuorumHelpers Quorum Footprint.
From S2P Require Import ClusterTheory.

Section Observations.
Context `{L : Libs}.

(** ** What the nodes answered *)

(** The body of an answered request *)
Definition http_body (e : event) : option string :=
  match e with
  | Ev (HttpGet _ _ _) (Ok resp) =>
      match hr_Body resp with Ok body => Some body | Err _ => None end
  | _ => None
  end.

(** An answer to a health request (which carries no header) that says [ok] *)
Definition healthy_answer (e : event) : bool :=
  match e with
  | Ev (HttpGet _ _ []) _ =>
      match http_body e with
      | Some body =>
          match unmarshal NodeHealth_fields NodeHealth_zero body with
          | Some h => health_Ok h
          | None => false
          end
      | None => false
      end
  | _ => false
  end.
Definition healthy_answers (tr : trace) : nat := length (filter (λ e, healthy_answer e = true) (tr : list event)).

Lemma healthy_answers_app tr1 tr2 :
  healthy_answers (tr1 ++ tr2) = healthy_answers tr1 + healthy_answers tr2.
Proof. unfold healthy_answers. by rewrite filter_app, length_app. Qed.

(** ** Calls that leave the StatefulSet alone *)
Definition quiet (tr : trace) : Prop := sts_updates tr = [].
Lemma quiet_app tr1 tr2 : quiet tr1 → quiet tr2 → quiet (tr1 ++ tr2).
Proof. unfold quiet. rewrite sts_updates_app. by intros -> ->. Qed.

(** ** Scaling *)

Definition fetched (key : ObjectKey) (tr : trace) (sts : StatefulSet) : Prop :=
  Ev (Get KStatefulSet key) (Ok sts) ∈ tr.
(** One update, of a StatefulSet that was read, to [n] replicas it had not *)
Definition scaled_to (key : ObjectKey) (n : Z) (tr : trace) : Prop :=
  ∃ sts, fetched key tr sts ∧ ss_Replicas (sts_Spec sts) ≠ Some n
    ∧ sts_updates tr = [with_replicas n sts].

Lemma fetched_app key tr1 tr2 sts :
  fetched key tr1 sts ∨ fetched key tr2 sts → fetched key (tr1 ++ tr2) sts.
Proof. unfold fetched. rewrite elem_of_app. done. Qed.
Lemma scaled_to_l key n tr1 tr2 : scaled_to key n tr1 → quiet tr2 → scaled_to key n (tr1 ++ tr2).
Proof.
  intros (sts & Hf & Hn & E) Hq. exists sts. rewrite sts_updates_app, E, Hq.
  split; [by apply fetched_app; left|done].
Qed.
Lemma scaled_to_r key n tr1 tr2 : quiet tr1 → scaled_to key n tr2 → scaled_to key n (tr1 ++ tr2).
Proof.
  intros Hq (sts & Hf & Hn & E). exists sts. rewrite sts_updates_app, E, Hq.
  split; [by apply fetched_app; right|done].
Qed.

(** A program that makes no StatefulSet update, in the form the rules use *)
Lemma quiet_footprint {A} l (p : prog A) :
  footprint l p → bool_decide ((VUpdate, Some KStatefulSet) ∈ l) = false →
  wlp p (λ tr _, quiet tr).
Proof. apply footprint_no_sts. Qed.

(** Cutting at a sub-program that leaves the StatefulSet alone *)
Lemma wlp_bind_quiet {A B} l (p : prog A) (f : A → prog B) Q :
  footprint l p → bool_decide ((VUpdate, Some KStatefulSet) ∈ l) = false →
  (∀ tr a, quiet tr → wlp (f a) (λ tr' o, Q (tr ++ tr') o)) →
  (∀ tr w, quiet tr → Q tr (Panicked w)) →
  wlp (p ≫= f) Q.
Proof.
  intros Hp Hl Hf Hw. eapply wlp_bind_cut; [by eapply quiet_footprint| |]; auto.
Qed.

(** The only writes of StatefulSets are updates. *)
Definition updates_only (v : write) : Prop :=
  match v with WUpdate KStatefulSet _ => True | _ => write_kind v ≠ Some KStatefulSet end.

Ltac no_sts := intros ? [=]; subst; done.
Lemma update_gates_updates_only r hc ts ns logs b nh nes :
  writes_only updates_only (update_gates r hc ts ns logs b nh nes).
Proof.
  revert b nh. induction nes as [|ne nes IH]; intros b nh; cbn [update_gates];
    unfold calculatePodReadinessGate, getNodeHealth, updatePodReadinessGate;
    calls_auto no_sts; apply IH.
Qed.
Lemma ReconcileQuorum_updates_only r ts secret key :
  writes_only updates_only (ReconcileQuorum r ts secret key).
Proof.
  unfold ReconcileQuorum, getQuorum, GetUnscheduledPods, RestartUnscheduledPods,
    delete_unscheduled, getHttpClient, getHealthyWriteLagThreshold, lag_threshold,
    reconcile_nodes, gather_logs, getPodLogs, gather_status, getNodeStatus, evaluate_quorum,
    conclude, downgrade_unless_bootstrapping, downgradeQuorum, upgradeQuorum,
    updateConfigMap, deleteConfigMap, getNodes, getEndpointSlicesForStatefulSet,
    ScaleStatefulSet, PurgeStatefulSetPods, forcePodsConfigMapUpdate, GetFreshStatefulSet,
    list_pods.
  calls_auto no_sts; apply update_gates_updates_only.
Qed.
End Observations.

(** ** Readiness gates *)

Lemma foldl_replace_true c l acc :
  foldl (replace_condition c) (true, acc) l =
  (true, acc ++ filter (λ d, pc_Type d ≠ pc_Type c) l).
Proof.
  revert acc. induction l as [|d l IH]; intros acc; simpl; [by rewrite app_nil_r|].
  rewrite filter_cons. destruct (String.eqb_spec (pc_Type d) (pc_Type c)); rewrite IH.
  - by rewrite decide_False by naive_solver.
  - rewrite decide_True by done. by rewrite <-app_assoc.
Qed.

Lemma updated_conditions_absent c l :
  Forall (λ d, pc_Type d ≠ pc_Type c) l → updated_conditions c l = l ++ [c].
Proof.
  intros H. unfold updated_conditions.
  assert (∀ acc, foldl (replace_condition c) (false, acc) l = (false, acc ++ l)) as ->.
  { induction H as [|d l Hd H IH]; intros acc; simpl; [by rewrite app_nil_r|].
    rewrite (proj2 (String.eqb_neq _ _) Hd), IH. by rewrite <-app_assoc. }
  done.
Qed.

Lemma updated_conditions_found c pre d post :
  Forall (λ d, pc_Type d ≠ pc_Type c) pre → pc_Type d = pc_Type c →
  updated_conditions c (pre ++ d :: post) =
  pre ++ c :: filter (λ d, pc_Type d ≠ pc_Type c) post.
Proof.
  intros H Hd. unfold updated_conditions.
  assert (∀ acc, foldl (replace_condition c) (false, acc) (pre ++ d :: post) =
    (true, acc ++ pre ++ c :: filter (λ d, pc_Type d ≠ pc_Type c) post)) as ->.
  { induction H as [|x pre Hx H IH]; intros acc; simpl.
    - rewrite Hd, String.eqb_refl, foldl_replace_true. by rewrite <-app_assoc.
    - rewrite (proj2 (String.eqb_neq _ _) Hx), IH. by rewrite <-app_assoc. }
  done.
Qed.

Lemma split_at_first {A} (P : A → Prop) `{∀ a, Decision (P a)} (l : list A) :
  Forall (λ a, ¬ P a) l ∨ ∃ pre a post, l = pre ++ a :: post ∧ Forall (λ a, ¬ P a) pre ∧ P a.
Proof.
  induction l as [|a l [IH|(pre & b & post & -> & Hp & Hb)]]; [by left| |].
  - destruct (decide (P a)); [right; by exists [], a, l|left; by constructor].
  - right. destruct (decide (P a)); [by exists [], a, (pre ++ b :: post)|].
    exists (a :: pre), b, post. split_and!; try done. by constructor.
Qed.

(** C22 The conditions written by [updatePodReadinessGate] contain the new
    condition exactly once and nothing else of its type; the conditions of other
    types are kept, in their order; writing the same condition again changes
    nothing. *)
Theorem updated_conditions_spec c l :
  filter (λ d, pc_Type d = pc_Type c) (updated_conditions c l) = [c]
  ∧ filter (λ d, pc_Type d ≠ pc_Type c) (updated_conditions c l) =
    filter (λ d, pc_Type d ≠ pc_Type c) l
  ∧ updated_conditions c (updated_conditions c l) = updated_conditions c l.
Proof.
  assert (∀ k, Forall (λ d, pc_Type d ≠ pc_Type c) k →
    filter (λ d, pc_Type d = pc_Type c) k = []
    ∧ filter (λ d, pc_Type d ≠ pc_Type c) k = k) as Hk.
  { induction 1 as [|d k Hd _ [IH1 IH2]]; [done|].
    by rewrite !filter_cons, decide_False, decide_True, IH1, IH2. }
  destruct (split_at_first (λ d, pc_Type d = pc_Type c) l)
    as [H|(pre & d & post & -> & Hp & Hd)].
  - rewrite (updated_conditions_absent _ _ H). destruct (Hk _ H) as [E1 E2].
    rewrite (updated_conditions_found c l c []) by done.
    rewrite !filter_app, E1, E2, !filter_cons. cbn [filter list_filter].
    rewrite decide_True, decide_False by naive_solver. by rewrite app_nil_r.
  - rewrite (updated_conditions_found _ _ _ _ Hp Hd).
    rewrite (updated_conditions_found c pre c) by done.
    set (rest := filter (λ d, pc_Type d ≠ pc_Type c) post).
    assert (Forall (λ d, pc_Type d ≠ pc_Type c) rest) as Hr.
    { apply Forall_forall. intros x Hx. by apply list_elem_of_filter in Hx as [? _]. }
    destruct (Hk _ Hp) as [E1 E2], (Hk _ Hr) as [E3 E4].
    rewrite !filter_app, !filter_cons, E1, E2, E3, E4.
    rewrite (decide_True (P := pc_Type c = pc_Type c)) by done.
    rewrite (decide_False (P := pc_Type c ≠ pc_Type c)) by naive_solver.
    by rewrite (decide_False (P := pc_Type d ≠ pc_Type c)) by naive_solver.
Qed.
