(* ===== verification/QuorumEvidence.v ===== *)
(** * What the calls of the quorum reconciler show (Quorum, QuorumHelpers)

    Predicates on traces that say, request by request, what a round has learnt:
    the replies of the nodes in the order they are asked, the lag threshold, the
    readiness gates that were published.  They mention no loop and no map of the
    code, and each determines what it reads off the trace ([polled_unique] and
    the lemmas it is applied to), so that a trace shows one thing only. *)
From S2P Require Import Prelude GoLib GoNet GoJson K8s Api Effects Hoare External Utils.
From S2P Require Import Conditions StatefulSetOps ConfigMap QuorumHelpers Quorum Footprint.
From S2P Require Import ClusterTheory QuorumTheory.
From Stdlib Require Import Ascii.
From Stdlib Require String.

(** ** Traces piece by piece *)
(** A relation whose piece of the trace and value are determined by the item and
    the trace it starts *)
Definition reads_off `{K : K8s} {X} (shows : X → trace → Prop) : Prop :=
  ∀ x y tr tr' t t', shows x tr → shows y tr' → tr ++ t = tr' ++ t' →
    x = y ∧ tr = tr' ∧ t = t'.

Section Polled.
Context `{K : K8s} {A X : Type}.

(** Every item of a list in turn shows a value in its own piece of the trace. *)
Inductive polled (shows : A → X → trace → Prop) : list A → list X → trace → Prop :=
| polled_nil : polled shows [] [] []
| polled_cons a x tr l xs tr' :
    shows a x tr → polled shows l xs tr' → polled shows (a :: l) (x :: xs) (tr ++ tr').

Lemma polled_length shows l xs tr : polled shows l xs tr → length xs = length l.
Proof. induction 1; simpl; congruence. Qed.

Lemma polled_mono (shows shows' : A → X → trace → Prop) l xs tr :
  (∀ a x tr, a ∈ l → shows a x tr → shows' a x tr) →
  polled shows l xs tr → polled shows' l xs tr.
Proof.
  intros H. induction 1 as [|a x tr l xs tr' Ha _ IH]; constructor.
  - apply H; [by left|done].
  - apply IH. intros b y tr0 Hb. apply H. by right.
Qed.

Lemma polled_unique shows l :
  (∀ a, a ∈ l → reads_off (shows a)) → reads_off (polled shows l).
Proof.
  intros H xs ys tr tr' t t' Hx. revert ys tr' t t'.
  induction Hx as [|a x tr l xs tr2 Ha _ IH]; intros ys tr' t t' Hy; inversion Hy as [|b y t1 l' ys' t2 Hb Hys]; subst; [done|].
  rewrite <-!(assoc_L (++)). intros E.
  destruct (H a ltac:(by left) _ _ _ _ _ _ Ha Hb E) as (-> & -> & E').
  destruct (IH (λ b Hb, H b (list_elem_of_further _ _ _ Hb)) _ _ _ _ Hys E') as (-> & -> & ->).
  done.
Qed.

(** A loop whose body shows one value per item and adds it to the state *)
Lemma wlp_fold_polled {S} (f : S → A → prog S) (add : S → A → X → S)
    (shows : A → X → trace → Prop) l s :
  (∀ s a, a ∈ l → wlp (f s a) (λ tr o, ∃ x, o = Done (add s a x) ∧ shows a x tr)) →
  wlp (fold_prog f s l) (λ tr o, ∃ xs,
    o = Done (foldl (λ s ax, add s ax.1 ax.2) s (zip l xs)) ∧ polled shows l xs tr).
Proof.
  revert s. induction l as [|a l IH]; intros s H; simpl.
  { apply wlp_ret. exists []. split; [done|constructor]. }
  eapply wlp_bind_cut; [apply H; by left| |by intros ?? (? & ? & ?)].
  intros tr s' (x & [= ->] & Hx). eapply wlp_mono.
  { apply IH. intros s' b Hb. apply H. by right. }
  cbv beta. intros tr' o (xs & -> & Hxs). exists (x :: xs). split; [done|by constructor].
Qed.
End Polled.

Section Unique.
Context `{K : K8s}.

Lemma polled_fmap {A B X} (f : B → A) (shows : A → X → trace → Prop) l xs tr :
  polled (λ b, shows (f b)) l xs tr ↔ polled shows (f <$> l) xs tr.
Proof.
  split.
  - induction 1; csimpl; by constructor.
  - remember (f <$> l) as l' eqn:E. intros H. revert l E.
    induction H as [|a x tr l' xs tr' Ha _ IH]; intros [|b l]; try done; [constructor|].
    intros [= -> ->]. constructor; auto.
Qed.

Lemma reads_off_bind {X Y Z} (P : X → trace → Prop) (R : X → Y → trace → Prop) (f : X → Y → Z) :
  reads_off P → (∀ x, reads_off (R x)) →
  reads_off (λ z tr, ∃ x y tr1 tr2, P x tr1 ∧ R x y tr2 ∧ z = f x y ∧ tr = tr1 ++ tr2).
Proof.
  intros HP HR z z' tr tr' t t' (x & y & t1 & t2 & Hx & Hy & -> & ->)
    (x' & y' & t1' & t2' & Hx' & Hy' & -> & ->). rewrite <-!(assoc_L (++)). intros E.
  destruct (HP _ _ _ _ _ _ Hx Hx' E) as (-> & -> & E').
  by destruct (HR _ _ _ _ _ _ _ Hy Hy' E') as (-> & -> & ->).
Qed.
End Unique.

(** ** Maps with distinct names *)
Section Names.
Context {V : Type}.
Implicit Types (names : list string) (vs : list V) (k : string).

Lemma foldl_insert_names names vs :
  NoDup names → length vs = length names →
  foldl (λ (m : gmap string V) nv, <[nv.1 := nv.2]> m) ∅ (zip names vs)
  = list_to_map (zip names vs).
Proof.
  intros Hn Hl.
  assert ((zip names vs).*1 = names) as E by (apply fst_zip; lia).
  rewrite <-E in Hn. clear E. generalize dependent (zip names vs). intros l Hn.
  induction l as [|[k v] l IH] using rev_ind; [done|].
  rewrite foldl_snoc. rewrite fmap_app in Hn. apply NoDup_app in Hn as (Hn & Hk & _).
  rewrite list_to_map_snoc; [|intros H; by apply (Hk _ H); left]. by rewrite <-IH.
Qed.

Lemma map_values_names names vs :
  NoDup names → length vs = length names →
  (map_to_list (list_to_map (zip names vs) : gmap string V)).*2 ≡ₚ vs.
Proof.
  intros Hn Hl. rewrite map_to_list_to_map by by rewrite fst_zip by lia.
  by rewrite snd_zip by lia.
Qed.

Lemma lookup_names names vs k v :
  NoDup names → length vs = length names →
  (list_to_map (zip names vs) : gmap string V) !! k = Some v ↔ (k, v) ∈ zip names vs.
Proof.
  intros Hn Hl. symmetry. apply elem_of_list_to_map. by rewrite fst_zip by lia.
Qed.

Lemma count_names (P : V → Prop) `{∀ v, Decision (P v)} names vs :
  NoDup names → length vs = length names →
  length (filter P (map_to_list (list_to_map (zip names vs) : gmap string V)).*2)
  = length (filter P vs).
Proof. intros Hn Hl. by rewrite map_values_names. Qed.

Lemma size_names names vs :
  NoDup names → length vs = length names →
  size (list_to_map (zip names vs) : gmap string V) = length vs.
Proof.
  intros Hn Hl. rewrite <-length_map_to_list, <-(length_fmap snd). by rewrite map_values_names.
Qed.
End Names.

Lemma zip_fmap_l {A B X} (f : A → B) (l : list A) (xs : list X) :
  zip (f <$> l) xs = (λ ax, (f ax.1, ax.2)) <$> zip l xs.
Proof. revert xs. induction l; intros [|x xs]; csimpl; f_equal; auto. Qed.

(** ** What a node's replies say *)

(** The status a reply stands for, given the node's logs *)
Definition status_read (logs : string) (answer : result HttpResponse) : NodeStatus :=
  match answer with
  | Err _ => node_state UnreachableState
  | Ok resp =>
      match hr_Body resp with
      | Err _ => node_state ErrorState
      | Ok body =>
          match unmarshal NodeStatus_fields NodeStatus_zero body with
          | None => node_state ErrorState
          | Some d =>
              if String.eqb (State d) "" || inspectPodLogs logs ErrorsRequirePodTermination
              then with_State ErrorState d else d
          end
      end
  end.

(** Whether a reply says that the node is healthy, given its logs *)
Definition health_read (logs : string) (answer : result HttpResponse) : bool :=
  match answer with
  | Err _ => false
  | Ok resp =>
      match hr_Body resp with
      | Err _ => false
      | Ok body =>
          match unmarshal NodeHealth_fields NodeHealth_zero body with
          | None => false
          | Some h => health_Ok h && negb (inspectPodLogs logs ErrorsRequirePodTermination)
          end
      end
  end.

(** The write lag tolerated: the value of the additional server configuration,
    if it can be read and is a number *)
Definition lag_read (answer : result ConfigMap) : Z :=
  match answer with
  | Err _ => HealthyWriteLagDefaultValue
  | Ok cm =>
      match atoi (map_get (cm_Data cm) HealthyWriteLagKey) with
      | (lag, None) => lag
      | (_, Some _) => HealthyWriteLagDefaultValue
      end
  end.

(** The answers an event carries *)
Section Answers.
Context `{K : K8s}.
Definition http_answer (e : event) : option (result HttpResponse) :=
  match e with Ev (HttpGet _ _ _) a => Some a | _ => None end.
Definition logs_answer (e : event) : option (result string) :=
  match e with Ev (GetLogs _ _ _ _) a => Some a | _ => None end.
Definition client_answer (e : event) : option (option error) :=
  match e with Ev HTTPClientFor a => Some a | _ => None end.
Definition delete_answer (e : event) : option (option error) :=
  match e with Ev (Delete _ _ _) a => Some a | _ => None end.
Definition cm_answer (e : event) : option (result ConfigMap) :=
  match e with Ev (Get KConfigMap _) a => Some a | _ => None end.
Definition sts_answer (e : event) : option (result StatefulSet) :=
  match e with Ev (Get KStatefulSet _) a => Some a | _ => None end.
Definition pod_answer (e : event) : option (result Pod) :=
  match e with Ev (Get KPod _) a => Some a | _ => None end.
Definition pods_answer (e : event) : option (result (list Pod)) :=
  match e with Ev (ListObjs KPod _) a => Some a | _ => None end.
Definition patch_answer (e : event) : option (result Pod) :=
  match e with Ev (StatusPatch KPod _ _) a => Some a | _ => None end.

Lemma cons_inj_events (e e' : event) t t' : e :: t = e' :: t' → e = e' ∧ t = t'.
Proof. by intros [= -> ->]. Qed.
End Answers.
(** [E] equates two events whose answer [f] gives. *)
Ltac read_answer f E :=
  let Ha := fresh "Ha" in pose proof (f_equal f E) as Ha; cbn in Ha;
  first [discriminate Ha | injection Ha as ->].

Section Readings.
Context `{L : Libs} (r : Reconciler).
Context (ts : TypesenseCluster) (secret : Secret) (key : ObjectKey) (client : Z).

(** [url u]: the address a node is asked at; a node without one is not asked. *)
Definition request_url (node : NodeEndpoint) (path : string) : option string :=
  match buildUrl r node ts (ApiPort (Spec ts)) path with
  | Err _ => None
  | Ok u => match NewRequest u with Some _ => None | None => Some u end
  end.
(** The status of a node that could not be asked *)
Definition unasked_status (node : NodeEndpoint) : NodeStatus :=
  match buildUrl r node ts (ApiPort (Spec ts)) "/status" with
  | Err _ => node_state UnreachableState
  | Ok _ => node_state ErrorState
  end.

(** The last lines of the log of a node's container *)
Inductive logs_shown (node : NodeEndpoint) : string → trace → Prop :=
| logs_are answer :
    logs_shown node (match answer with Ok logs => logs | Err _ => "" end)
      [Ev (GetLogs (ts_Namespace ts) (PodName node) "typesense" 50) answer].

(** The status of a node: the reply to one authenticated request *)
Inductive status_shown : NodeEndpoint * string → NodeStatus → trace → Prop :=
| status_unasked node logs :
    request_url node "/status" = None → status_shown (node, logs) (unasked_status node) []
| status_answered node logs u answer :
    request_url node "/status" = Some u →
    status_shown (node, logs) (status_read logs answer)
      [Ev (HttpGet client u [("x-typesense-api-key",
         map_get (sec_Data secret) ClusterAdminApiKeySecretKeyName)]) answer].

(** The health of a node: the reply to one request without a key *)
Inductive health_shown : NodeEndpoint * string → bool → trace → Prop :=
| health_unasked node logs :
    request_url node "/health" = None → health_shown (node, logs) false []
| health_answered node logs u answer :
    request_url node "/health" = Some u →
    health_shown (node, logs) (health_read logs answer) [Ev (HttpGet client u []) answer].

(** The readiness gate of the node's pod is set to its health, if the pod is
    there; [published] is the outcome of the patch. *)
Inductive gate_published (node : NodeEndpoint) (healthy : bool) : option error → trace → Prop :=
| gate_no_pod e :
    gate_published node healthy None [Ev (Get KPod (gate_pod_key ts (PodName node))) (Err e)]
| gate_patched pod condition answer :
    pc_Type condition = QuorumReadinessGateCondition →
    pc_Status condition = (if healthy then "True" else "False") →
    gate_published node healthy (err_of answer)
      [Ev (Get KPod (gate_pod_key ts (PodName node))) (Ok pod);
       Ev (StatusPatch KPod pod
             (set_pod_Conditions (updated_conditions condition (pod_Conditions pod)) pod)) answer].

Definition gate_outcome (published : option error) (node : NodeEndpoint * string)
    (healthy : bool) (tr : trace) : Prop :=
  ∃ tr1 tr2, health_shown node healthy tr1 ∧ gate_published node.1 healthy published tr2
    ∧ tr = tr1 ++ tr2.
(** The health was read and its gate is up to date. *)
Definition gate_shown : NodeEndpoint * string → bool → trace → Prop := gate_outcome None.

(** The threshold, read from the additional server configuration if there is one *)
Inductive lag_shown : Z → trace → Prop :=
| lag_default :
    AdditionalServerConfiguration (Spec ts) = None → lag_shown HealthyWriteLagDefaultValue []
| lag_configured name answer :
    AdditionalServerConfiguration (Spec ts) = Some name →
    lag_shown (lag_read answer) [Ev (Get KConfigMap (additional_config_key ts name)) answer].

(** Out of the cluster a client for the requests is made first. *)
Definition client_made (tr : trace) : Prop :=
  tr = if InCluster r then [] else [Ev HTTPClientFor None].

(** The list of the pods and the deletion of those that cannot be scheduled *)
Definition deletions (pods : list Pod) : list Pod :=
  (pods ≫= unscheduled_entries) ≫= unscheduled_entries.
Definition deletion_events (pods : list Pod) (answers : list (option error)) : trace :=
  zip_with (λ pod answer, Ev (Delete KPod pod (Some "Background")) answer) pods answers.
Definition some_deleted (answers : list (option error)) : bool :=
  existsb (λ answer, match answer with None => true | Some _ => false end) answers.
Definition pod_options (sts : StatefulSet) : ListOptions :=
  {| lo_Namespace := Some (om_Namespace (sts_meta sts));
     lo_Labels := default ∅ (ls_MatchLabels <$> ss_Selector (sts_Spec sts)) |}.
Inductive restarted (sts : StatefulSet) : trace → Prop :=
| restarted_unlisted e : restarted sts [Ev (ListObjs KPod (pod_options sts)) (Err e)]
| restarted_listed pods answers :
    length answers = length (deletions pods) →
    restarted sts (Ev (ListObjs KPod (pod_options sts)) (Ok pods)
      :: deletion_events (deletions pods) answers
      ++ (if some_deleted answers
          then [Ev (Eventf ts "Warning" ConditionReasonStatefulSetNotReady
                      (toTitle "removed unscheduled pods")) tt] else [])).


(** *** Each of them is read off the trace *)

Lemma logs_reads_off node : reads_off (logs_shown node).
Proof.
  intros x y tr tr' t t' [a] [b] [E ->]%cons_inj_events. by read_answer logs_answer E.
Qed.
Lemma status_reads_off nl : reads_off (status_shown nl).
Proof.
  intros x y tr tr' t t' [n l Hu|n l u a Hu] Hy; inversion Hy; simplify_eq; [done|].
  intros [E ->]%cons_inj_events. by read_answer http_answer E.
Qed.
Lemma health_reads_off nl : reads_off (health_shown nl).
Proof.
  intros x y tr tr' t t' [n l Hu|n l u a Hu] Hy; inversion Hy; simplify_eq; [done|].
  intros [E ->]%cons_inj_events. by read_answer http_answer E.
Qed.
Lemma gate_published_reads_off node healthy : reads_off (gate_published node healthy).
Proof.
  intros x y tr tr' t t' [e|pod c a _ _] [e'|pod' c' a' _ _] [E Et]%cons_inj_events;
    read_answer pod_answer E; [done|].
  apply cons_inj_events in Et as [E' ->]. rewrite E'. by read_answer patch_answer E'.
Qed.
Lemma gate_reads_off nl : reads_off (gate_shown nl).
Proof.
  intros b b' tr tr' t t' (t1 & t2 & Hh & Hg & ->) (t1' & t2' & Hh' & Hg' & ->).
  rewrite <-!(assoc_L (++)). intros E.
  destruct (health_reads_off _ _ _ _ _ _ _ Hh Hh' E) as (-> & -> & E').
  by destruct (gate_published_reads_off _ _ _ _ _ _ _ _ Hg Hg' E') as (_ & -> & ->).
Qed.
Lemma lag_reads_off : reads_off lag_shown.
Proof.
  intros x y tr tr' t t' [Hn|n a Hn] [Hn'|n' a' Hn']; simplify_eq; [done|].
  intros [E ->]%cons_inj_events. by read_answer cm_answer E.
Qed.
Lemma client_reads_off : reads_off (λ (_ : unit), client_made).
Proof. intros [] [] tr tr' t t' -> ->. by intros ?%app_inv_head. Qed.

Lemma deletion_events_reads_off pods answers answers' t t' :
  length answers = length pods → length answers' = length pods →
  deletion_events pods answers ++ t = deletion_events pods answers' ++ t' →
  answers = answers' ∧ t = t'.
Proof.
  revert answers answers'. induction pods as [|p pods IH];
    intros [|a answers] [|a' answers'] [=] [=] E; [done|].
  apply cons_inj_events in E as [E Et]. read_answer delete_answer E.
  by destruct (IH answers answers') as [-> ->].
Qed.
Lemma restarted_reads_off sts : reads_off (λ (_ : unit), restarted sts).
Proof.
  intros [] [] tr tr' t t' [e|pods l Hl] [e'|pods' l' Hl']; rewrite <-?app_comm_cons;
    intros [E Et]%cons_inj_events; read_answer pods_answer E; [by simpl in Et|].
  rewrite <-!(assoc_L (++)) in Et.
  apply deletion_events_reads_off in Et as [-> Et]; [|done|done].
  apply app_inv_head in Et as ->. done.
Qed.

(** *** The stages of the code make them *)

Lemma getNodeStatus_shows node logs :
  wlp (getNodeStatus r client node ts secret logs) (λ tr o,
    ∃ s, o = Done (s, None) ∧ status_shown (node, logs) s tr).
Proof.
  unfold getNodeStatus. destruct (buildUrl r node ts (ApiPort (Spec ts)) "/status") as [u|e] eqn:Eu.
  2: { apply wlp_ret. eexists. split; [done|].
       replace (node_state UnreachableState) with (unasked_status node)
         by (unfold unasked_status; by rewrite Eu).
       apply status_unasked. unfold request_url. by rewrite Eu. }
  destruct (NewRequest u) as [e|] eqn:En.
  { apply wlp_ret. eexists. split; [done|].
    replace (node_state ErrorState) with (unasked_status node)
      by (unfold unasked_status; by rewrite Eu).
    apply status_unasked. unfold request_url. by rewrite Eu, En. }
  assert (request_url node "/status" = Some u) as Hu by (unfold request_url; by rewrite Eu, En).
  apply wlp_trigger_bind. intros answer.
  apply (wlp_mono _ (λ tr o, tr = [] ∧ o = Done (status_read logs answer, None))).
  { unfold status_read. wlp_steps; split; try done; rewrite_eqs; try done.
    all: by destruct (String.eqb (State _) ""), (inspectPodLogs logs ErrorsRequirePodTermination). }
  intros tr o [-> ->]. eexists. split; [done|]. by apply status_answered.
Qed.

Lemma calculatePodReadinessGate_shows node status logs :
  wlp (calculatePodReadinessGate r client node status ts logs) (λ tr o,
    ∃ c healthy, o = Done c ∧ health_shown (node, logs) healthy tr
      ∧ pc_Type c = QuorumReadinessGateCondition
      ∧ pc_Status c = (if (healthy : bool) then "True" else "False")
      ∧ pc_Reason c ≠ nodeNotRecoverable).
Proof.
  assert (∀ err h tr, health_shown (node, logs)
      (match err with Some _ => false | None => health_Ok h end) tr →
    ∃ c healthy, Done (gate_condition status h err) = Done c
      ∧ health_shown (node, logs) healthy tr
      ∧ pc_Type c = QuorumReadinessGateCondition
      ∧ pc_Status c = (if healthy : bool then "True" else "False")
      ∧ pc_Reason c ≠ nodeNotRecoverable) as Hgate.
  { intros err h tr Hh. eexists _, _. split; [done|]. split; [exact Hh|].
    unfold gate_condition. by destruct err, (health_Ok h), (is_resource_error h). }
  unfold calculatePodReadinessGate, getNodeHealth.
  destruct (buildUrl r node ts (ApiPort (Spec ts)) "/health") as [u|e] eqn:Eu.
  2: { apply wlp_ret_bind, wlp_ret. apply Hgate. apply health_unasked.
       unfold request_url. by rewrite Eu. }
  destruct (NewRequest u) as [e|] eqn:En.
  { apply wlp_ret_bind, wlp_ret. apply Hgate. apply health_unasked.
    unfold request_url. by rewrite Eu, En. }
  assert (request_url node "/health" = Some u) as Hu by (unfold request_url; by rewrite Eu, En).
  apply wlp_assoc, wlp_trigger_bind. intros answer.
  eapply (wlp_bind_cut _ _ _ (λ tr o, tr = [] ∧ ∃ h, o = Done (h, None)
    ∧ health_Ok h = health_read logs answer)).
  - unfold health_read. wlp_steps; split; try done; eexists; (split; [done|]); rewrite_eqs; try done.
    all: generalize (inspectPodLogs logs ErrorsRequirePodTermination);
      by intros []; destruct (health_Ok n) eqn:?.
  - intros tr [h err] [-> (h' & [= -> ->] & E)]. apply wlp_ret, Hgate. rewrite E.
    by apply health_answered.
  - by intros tr w [_ (? & ? & _)].
Qed.

Lemma updatePodReadinessGate_shows node healthy c :
  pc_Type c = QuorumReadinessGateCondition →
  pc_Status c = (if (healthy : bool) then "True" else "False") →
  wlp (updatePodReadinessGate (gate_pod_key ts (PodName node)) c) (λ tr o,
    ∃ published, o = Done published ∧ gate_published node healthy published tr).
Proof.
  intros Ht Hs. unfold updatePodReadinessGate. apply wlp_trigger_bind. intros [pod|e].
  2: { apply wlp_ret. eexists. split; [done|constructor]. }
  apply wlp_trigger_bind. intros answer. cbv beta.
  apply (wlp_mono _ (λ tr o, tr = [] ∧ o = Done (err_of answer))); [by destruct answer|].
  intros tr o [-> ->]. eexists. split; [done|]. by constructor.
Qed.

(** The loop over the gates ends at the first that could not be published. *)
Inductive gates_failed (nodes : list (NodeEndpoint * string)) (e : error) : trace → Prop :=
| gates_failed_at before node after healths healthy tr1 tr2 :
    nodes = before ++ node :: after → polled gate_shown before healths tr1 →
    gate_outcome (Some e) node healthy tr2 → gates_failed nodes e (tr1 ++ tr2).

Lemma gates_failed_later node nodes e healthy tr tr' :
  gate_shown node healthy tr → gates_failed nodes e tr' → gates_failed (node :: nodes) e (tr ++ tr').
Proof.
  intros Hn [before n after healths b tr1 tr2 -> Hp Hb]. rewrite (assoc_L (++)).
  eapply (gates_failed_at _ _ (node :: before)); [done|by constructor|done].
Qed.

Lemma update_gates_shows m logs attention nh nodes :
  (∀ node l, (node, l) ∈ nodes → map_get logs (PodName node) = l) →
  wlp (update_gates r client ts m logs attention nh nodes.*1) (λ tr o,
    (∃ healths, polled gate_shown nodes healths tr
       ∧ o = Done (Ok (attention,
               foldl (λ nh nb, <[nb.1 := nb.2]> nh) nh (zip (PodName <$> nodes.*1) healths))))
    ∨ ∃ e, gates_failed nodes e tr ∧ o = Done (Err e)).
Proof.
  revert nh. induction nodes as [|[node l] nodes IH]; intros nh Hlogs.
  { apply wlp_ret. left. exists []. split; [constructor|done]. }
  cbn [fmap list_fmap fst update_gates]. rewrite (Hlogs node l) by by left.
  eapply wlp_bind_cut; [apply calculatePodReadinessGate_shows| |by intros ?? (? & ? & ? & _)].
  intros tr1 c (c' & healthy & [= <-] & Hh & Ht & Hs & Hr).
  rewrite (proj2 (String.eqb_neq _ _) Hr), Hs.
  eapply wlp_bind_cut; [by apply (updatePodReadinessGate_shows node healthy)| |by intros ?? (? & ? & _)].
  intros tr2 err (published & [= ->] & Hg).
  assert (gate_outcome published (node, l) healthy (tr1 ++ tr2)) as Hgate by by exists tr1, tr2.
  destruct published as [e|].
  { apply wlp_ret. right. exists e. split; [|done]. rewrite app_nil_r.
    by eapply (gates_failed_at _ _ [] _ _ [] _ []); [|constructor|]. }
  eapply wlp_mono; [apply IH; intros n' l' H'; apply Hlogs; by right|]. cbv beta.
  intros tr3 o [(healths & Hp & ->)|(e & Hf & ->)]; rewrite (assoc_L (++)).
  - left. exists (healthy :: healths). split; [by constructor|]. cbn. by destruct healthy.
  - right. exists e. split; [|done]. by eapply gates_failed_later.
Qed.

(** The logs and the statuses, as maps on the names of the nodes *)
Lemma gather_logs_shows nodes :
  NoDup (PodName <$> nodes) →
  wlp (gather_logs ts nodes) (λ tr o, ∃ logs,
    polled logs_shown nodes logs tr
    ∧ o = Done (list_to_map (zip (PodName <$> nodes) logs))).
Proof.
  intros Hn. unfold gather_logs. eapply wlp_mono.
  { apply (wlp_fold_polled _ (λ (m : smap) node l, <[PodName node := l]> m) logs_shown).
    intros m node _. unfold getPodLogs. wlp_steps; eexists; (split; [done|]).
    - exact (logs_are node (Ok a)).
    - exact (logs_are node (Err e)). }
  cbv beta. intros tr o (logs & -> & Hp). exists logs. split; [done|]. f_equal.
  rewrite <-foldl_insert_names; [|done|by rewrite length_fmap, (polled_length _ _ _ _ Hp)].
  by rewrite zip_fmap_l, foldl_fmap.
Qed.

(** The largest number of writes queued *)
Definition most_queued (statuses : list NodeStatus) : Z :=
  foldr Z.max 0%Z (QueuedWrites <$> statuses).

Lemma foldl_queued statuses q :
  (0 ≤ q)%Z →
  foldl (λ q s, if (0 <? QueuedWrites s)%Z && (q <? QueuedWrites s)%Z then QueuedWrites s else q)
    q statuses = Z.max q (most_queued statuses).
Proof.
  unfold most_queued. revert q. induction statuses as [|s l IH]; intros q Hq; csimpl; [lia|].
  rewrite IH; destruct (Z.ltb_spec 0 (QueuedWrites s)), (Z.ltb_spec q (QueuedWrites s)); cbn [andb]; lia.
Qed.

Lemma gather_status_shows logs nodes :
  NoDup (PodName <$> nodes.*1) →
  (∀ node l, (node, l) ∈ nodes → map_get logs (PodName node) = l) →
  wlp (gather_status r client ts secret logs nodes.*1) (λ tr o, ∃ statuses,
    polled status_shown nodes statuses tr
    ∧ o = Done (most_queued statuses, list_to_map (zip (PodName <$> nodes.*1) statuses))).
Proof.
  intros Hn Hlogs. unfold gather_status.
  set (add := λ (acc : Z * gmap string NodeStatus) (node : NodeEndpoint) status,
    (if (0 <? QueuedWrites status)%Z && (acc.1 <? QueuedWrites status)%Z
     then QueuedWrites status else acc.1, <[PodName node := status]> acc.2)).
  eapply wlp_mono.
  { apply (wlp_fold_polled _ add (λ node, status_shown (node, map_get logs (PodName node)))).
    intros [q m] node _. eapply wlp_bind_cut; [apply getNodeStatus_shows| |by intros ?? (? & ? & _)].
    intros tr [s err] (s' & [= -> ->] & Hs). apply wlp_ret. rewrite app_nil_r. by exists s'. }
  cbv beta. intros tr o (statuses & -> & Hp). exists statuses.
  assert (polled status_shown nodes statuses tr) as Hp'.
  { apply polled_fmap in Hp. eapply polled_mono; [|exact Hp].
    intros [node l] s tr' Hin. cbn. by rewrite (Hlogs _ _ Hin). }
  split; [done|]. f_equal.
  pose proof (polled_length _ _ _ _ Hp') as Hl.
  replace (most_queued statuses) with (Z.max 0 (most_queued (zip nodes.*1 statuses).*2)).
  2: { rewrite snd_zip by (rewrite length_fmap; lia).
       assert (0 ≤ most_queued statuses)%Z; [|lia].
       unfold most_queued. clear. induction statuses; csimpl; lia. }
  rewrite <-foldl_insert_names by (rewrite ?length_fmap; done || lia).
  rewrite (zip_fmap_l PodName nodes.*1), <-foldl_queued by done.
  generalize (zip nodes.*1 statuses) (∅ : gmap string NodeStatus). clear.
  assert (∀ l q (m : gmap string NodeStatus),
    foldl (λ s ax, add s ax.1 ax.2) (q, m) l =
    (foldl (λ q s, if (0 <? QueuedWrites s)%Z && (q <? QueuedWrites s)%Z then QueuedWrites s else q)
       q l.*2,
     foldl (λ m nv, <[nv.1 := nv.2]> m) m ((λ ax, (PodName ax.1, ax.2)) <$> l))) as H; [|done].
  induction l as [|[node s] l IH]; intros q m; [done|]. cbn. apply IH.
Qed.

Lemma getHealthyWriteLagThreshold_shows :
  wlp (getHealthyWriteLagThreshold ts) (λ tr o, ∃ lag, o = Done lag ∧ lag_shown lag tr).
Proof.
  unfold getHealthyWriteLagThreshold, lag_threshold.
  destruct (AdditionalServerConfiguration (Spec ts)) as [name|] eqn:E.
  2: { apply wlp_ret. eexists. split; [done|]. by constructor. }
  apply wlp_trigger_bind. intros answer.
  apply (wlp_mono _ (λ tr o, tr = [] ∧ o = Done (lag_read answer))).
  - destruct answer as [cm|]; [|by apply wlp_ret]. cbv zeta. unfold lag_read.
    destruct (String.eqb_spec (map_get (cm_Data cm) HealthyWriteLagKey) "") as [->|_]; [done|].
    by destruct (atoi _) as [lag [err|]].
  - intros tr o [-> ->]. eexists. split; [done|]. by constructor.
Qed.

Lemma delete_unscheduled_shows removed pod :
  wlp (delete_unscheduled removed pod) (λ tr o, ∃ answers,
    length answers = length (unscheduled_entries pod)
    ∧ tr = deletion_events (unscheduled_entries pod) answers
    ∧ o = Done (removed || some_deleted answers)).
Proof.
  unfold delete_unscheduled, unscheduled_entries.
  destruct (decide (pod_Phase pod = PodPending)).
  2: { apply wlp_ret. exists []. simpl. by rewrite orb_false_r. }
  revert removed. induction (pod_Conditions pod) as [|c l IH]; intros removed; cbn [fold_prog].
  { apply wlp_ret. exists []. simpl. by rewrite orb_false_r. }
  rewrite filter_cons. destruct (unschedulable_cond c) eqn:Ec.
  - apply wlp_assoc, wlp_trigger_bind. intros answer. apply wlp_ret_bind.
    eapply wlp_mono; [apply IH|]. cbv beta. intros tr o (answers & Hl & -> & ->).
    exists (answer :: answers). rewrite decide_True by done. csimpl. split; [by rewrite Hl|].
    split; [done|]. by destruct removed, answer.
  - rewrite decide_False by done. apply IH.
Qed.

Lemma deletion_events_app pods pods' answers answers' :
  length answers = length pods →
  deletion_events (pods ++ pods') (answers ++ answers')
  = deletion_events pods answers ++ deletion_events pods' answers'.
Proof. intros H. apply zip_with_app. by rewrite H. Qed.

Lemma delete_all_shows removed pods :
  wlp (fold_prog delete_unscheduled removed pods) (λ tr o, ∃ answers,
    length answers = length (pods ≫= unscheduled_entries)
    ∧ tr = deletion_events (pods ≫= unscheduled_entries) answers
    ∧ o = Done (removed || some_deleted answers)).
Proof.
  revert removed. induction pods as [|pod pods IH]; intros removed; cbn [fold_prog].
  { apply wlp_ret. exists []. simpl. by rewrite orb_false_r. }
  rewrite bind_cons.
  eapply wlp_bind_cut; [apply delete_unscheduled_shows| |by intros ?? (? & ? & ? & ?)].
  intros tr removed' (answers & Hl & -> & [= ->]).
  eapply wlp_mono; [apply IH|]. cbv beta. intros tr' o (answers' & Hl' & -> & ->).
  exists (answers ++ answers'). rewrite !length_app, deletion_events_app by done.
  split; [lia|]. split; [done|]. unfold some_deleted. rewrite existsb_app. by rewrite orb_assoc.
Qed.

(** The pods that cannot be scheduled are deleted: the two stages of the code *)
Lemma GetUnscheduledPods_shows sts :
  ss_Selector (sts_Spec sts) ≠ None →
  wlp (GetUnscheduledPods sts) (λ tr o, ∃ u, o = Done u
    ∧ match u with
      | Ok entries => ∃ pods, tr = [Ev (ListObjs KPod (pod_options sts)) (Ok pods)]
          ∧ entries = pods ≫= unscheduled_entries
      | Err e => tr = [Ev (ListObjs KPod (pod_options sts)) (Err e)]
      end).
Proof.
  intros Hsel. unfold GetUnscheduledPods, list_pods, pod_options.
  destruct (ss_Selector (sts_Spec sts)) as [sel|]; [|done]. apply wlp_assoc, wlp_ret_bind.
  apply wlp_trigger_bind. intros [pods|e]; apply wlp_ret; eexists; (split; [done|]); [by exists pods|done].
Qed.

Lemma restart_shows sts tr u :
  match u with
  | Ok entries => ∃ pods, tr = [Ev (ListObjs KPod (pod_options sts)) (Ok pods)]
      ∧ entries = pods ≫= unscheduled_entries
  | Err e => tr = [Ev (ListObjs KPod (pod_options sts)) (Err e)]
  end →
  wlp (match u with
       | Ok ((_ :: _) as pods) => _ ← RestartUnscheduledPods pods ts; mret tt
       | _ => mret tt
       end) (λ tr' o, o = Done tt ∧ restarted sts (tr ++ tr')).
Proof.
  destruct u as [entries|e].
  2: { intros ->. apply wlp_ret. split; [done|constructor]. }
  intros (pods & -> & Hentries). destruct entries as [|p entries].
  { apply wlp_ret. split; [done|]. pose proof (restarted_listed sts pods []) as H.
    unfold deletions in H. rewrite <-Hentries in H. by apply H. }
  unfold RestartUnscheduledPods. apply wlp_assoc.
  eapply wlp_bind_cut; [apply delete_all_shows| |by intros ?? (? & ? & ? & ?)].
  intros tr removed (answers & Hl & -> & [= ->]). rewrite Hentries in *.
  pose proof (restarted_listed sts pods answers Hl) as H. cbn [orb].
  destruct (some_deleted answers).
  - apply wlp_assoc, wlp_trigger_bind. intros []. apply wlp_ret_bind, wlp_ret. by split.
  - apply wlp_assoc, wlp_ret_bind, wlp_ret_bind, wlp_ret. by split.
Qed.

(** *** The quorum *)

Definition nodes_listed (cm : ConfigMap) : Prop :=
  ∃ raw, cm_Data cm !! "nodes" = Some raw ∧ blank_str raw = false.
(** The quorum that a StatefulSet, a nodes list and its pods describe *)
Definition quorum_read (sts : StatefulSet) (cm : ConfigMap) (pods : list Pod) : Quorum :=
  let nodes := split_on "," (map_get (cm_Data cm) "nodes") in
  {| MinRequiredNodes := getMinimumRequiredNodes (st_Replicas (sts_Status sts));
     AvailableNodes := Z.of_nat (length nodes);
     Nodes := quorum_nodes ts nodes pods;
     NodesListConfigMap := cm |}.

Definition list_error : error :=
  Errorf ("configmap " +:+ ClusterNodesConfigMap (ts_Name ts) +:+ " is missing 'nodes' key").

(** Reading the quorum: what was read, or why it could not be *)
Inductive quorum_shown (sts : StatefulSet) : outcome (result Quorum) → trace → Prop :=
| no_nodes_list e :
    quorum_shown sts (Done (Err e)) [Ev (Get KConfigMap (configMapObjectKey ts)) (Err e)]
| empty_nodes_list cm :
    ¬ nodes_listed cm →
    quorum_shown sts (Done (Err list_error)) [Ev (Get KConfigMap (configMapObjectKey ts)) (Ok cm)]
| no_selector cm w :
    nodes_listed cm → ss_Selector (sts_Spec sts) = None →
    quorum_shown sts (Panicked w) [Ev (Get KConfigMap (configMapObjectKey ts)) (Ok cm)]
| no_pods cm e :
    nodes_listed cm → ss_Selector (sts_Spec sts) ≠ None →
    quorum_shown sts (Done (Err e))
      [Ev (Get KConfigMap (configMapObjectKey ts)) (Ok cm);
       Ev (ListObjs KPod (pod_options sts)) (Err e)]
| quorum_listed cm pods :
    ss_Selector (sts_Spec sts) ≠ None → nodes_listed cm →
    quorum_shown sts (Done (Ok (quorum_read sts cm pods)))
      [Ev (Get KConfigMap (configMapObjectKey ts)) (Ok cm);
       Ev (ListObjs KPod (pod_options sts)) (Ok pods)].

Lemma getQuorum_shows sts :
  wlp (getQuorum ts sts) (λ tr o, quorum_shown sts o tr).
Proof.
  unfold getQuorum. apply wlp_trigger_bind. intros [cm|e]; [|apply wlp_ret; constructor].
  cbv zeta. destruct (cm_Data cm !! "nodes") as [raw|] eqn:En.
  2: { apply wlp_ret. constructor. intros (? & ? & ?). congruence. }
  destruct (blank_str raw) eqn:Eb.
  { apply wlp_ret. constructor. intros (? & ? & ?). congruence. }
  assert (nodes_listed cm) as Hl by by exists raw.
  unfold list_pods. destruct (ss_Selector (sts_Spec sts)) as [sel|] eqn:Es.
  2: { apply wlp_assoc. apply wlp_exec. intros tr o He. inversion He; subst. by constructor. }
  assert (ss_Selector (sts_Spec sts) ≠ None) as Hs by congruence.
  apply wlp_assoc, wlp_ret_bind, wlp_trigger_bind.
  assert (raw = map_get (cm_Data cm) "nodes") as Er by (unfold map_get; by rewrite En).
  assert ({| lo_Namespace := Some (om_Namespace (sts_meta sts)); lo_Labels := ls_MatchLabels sel |}
    = pod_options sts) as Eo by (unfold pod_options; by rewrite Es).
  intros [pods|e]; apply wlp_ret; rewrite Eo.
  - rewrite Er. by apply quorum_listed.
  - by apply no_pods.
Qed.

Lemma node_endpoints_NoDup q : NoDup (PodName <$> node_endpoints q).
Proof.
  unfold node_endpoints. rewrite <-list_fmap_compose.
  rewrite (list_fmap_id (A := string)) by done.
  rewrite sort_strings_Permutation. apply NoDup_fst_map_to_list.
Qed.
Lemma quorum_reads_off sts : reads_off (λ o tr, ∃ q, o = Done (Ok q) ∧ quorum_shown sts o tr).
Proof.
  intros o o' tr tr' t t' (q & -> & H) (q' & -> & H').
  inversion H as [| | | |cm pods _ _]; inversion H' as [| | | |cm' pods' _ _]; subst.
  intros [E Et]%cons_inj_events. read_answer cm_answer E.
  apply cons_inj_events in Et as [E' ->]. by read_answer pods_answer E'.
Qed.

(** *** They leave the StatefulSet alone *)
Lemma quiet_cons e tr : quiet [e] → quiet tr → quiet (e :: tr).
Proof. apply (quiet_app [e]). Qed.
Lemma polled_quiet {A X} (shows : A → X → trace → Prop) l xs tr :
  (∀ a x tr, shows a x tr → quiet tr) → polled shows l xs tr → quiet tr.
Proof. intros H. induction 1; [done|]. apply quiet_app; eauto. Qed.
Lemma deletion_events_quiet pods answers : quiet (deletion_events pods answers).
Proof. revert answers. induction pods; intros [|answer answers]; try done. by apply quiet_cons. Qed.
Lemma restarted_quiet sts tr : restarted sts tr → quiet tr.
Proof.
  intros [e|pods answers _]; [done|]. apply quiet_cons; [done|].
  apply quiet_app; [apply deletion_events_quiet|]. by destruct (some_deleted answers).
Qed.
Lemma client_quiet tr : client_made tr → quiet tr.
Proof. intros ->. by destruct (InCluster r). Qed.
Lemma lag_quiet lag tr : lag_shown lag tr → quiet tr.
Proof. by intros []. Qed.
Lemma quorum_quiet sts o tr : quorum_shown sts o tr → quiet tr.
Proof. by intros []. Qed.
Lemma logs_quiet node logs tr : logs_shown node logs tr → quiet tr.
Proof. by intros []. Qed.
Lemma status_quiet nl s tr : status_shown nl s tr → quiet tr.
Proof. by intros []. Qed.
Lemma gate_quiet published nl b tr : gate_outcome published nl b tr → quiet tr.
Proof. intros (tr1 & tr2 & [] & [] & ->); done. Qed.
End Readings.
