(* ===== verification/QuorumSpec.v ===== *)
(** * What the quorum reconciler promises: an abstract specification

    A round of the quorum reconciler is described without requests, maps or
    loops: the [Situation] it finds, the [verdict] it owes ([decides]: one rule
    per case, whose guards do not depend on the order of the tests in the code)
    and the [effect] a verdict may have.  [ReconcileQuorum_refines] shows that
    every execution of the code is such a step. *)
From S2P Require Import Prelude GoLib GoNet GoJson K8s Api Effects Hoare External Utils.
From S2P Require Import Conditions StatefulSetOps ConfigMap QuorumHelpers Quorum Footprint.
From S2P Require Import ClusterTheory QuorumTheory QuorumEvidence.
From Stdlib Require Import Ascii.
From Stdlib Require String.

(** ** Situations *)
Record Situation := {
  si_nodes : nat;             (** nodes asked for their status *)
  si_leaders : nat;           (** ... that are leaders *)
  si_unready : nat;           (** ... that are not ready or unreachable *)
  si_queued : Z;              (** the largest number of writes queued *)
  si_threshold : Z;           (** the number of queued writes that is tolerated *)
  si_healthy : Z;             (** nodes whose health check succeeded *)
  si_required : Z;            (** the minimum of required nodes *)
  si_available : Z;           (** nodes of the nodes list *)
  si_ready : Z;               (** ready replicas of the StatefulSet *)
  si_current : option Z;      (** replicas of the StatefulSet *)
  si_target : Z;              (** replicas of the specification *)
  si_bootstrapping : option bool;  (** bootstrap entries on the list; [None]: no list *)
  si_first_lost : bool;       (** the first node is in error or unreachable *)
}.

Inductive verdict :=
| Answer (reason : string)   (** report a state, change nothing *)
| NoList                     (** the nodes list cannot be read *)
| Crash                      (** the StatefulSet has no number of replicas *)
| Downgrade (purge : bool)   (** scale to one node, perhaps deleting the pods *)
| Upgrade                    (** scale up *)
| Purge.                     (** delete the pods *)

Section Spec.
Context (s : Situation).

(** The four states of a cluster *)
Definition split : Prop := 2 ≤ si_leaders s.
Definition elected : Prop :=
  si_leaders s = 1
  ∧ (getMinimumRequiredNodes (Z.of_nat (si_nodes s))
     ≤ Z.of_nat (si_nodes s) - Z.of_nat (si_unready s))%Z.
Definition deadlocked : Prop :=
  si_leaders s = 0 ∧ 2 ≤ si_nodes s ∧ si_unready s ≠ si_nodes s.
Definition unsettled : Prop := ¬ split ∧ ¬ elected ∧ ¬ deadlocked.

(** Healthy nodes that do not catch up with their writes *)
Definition stalled : Prop := (si_threshold s < si_queued s ∧ 0 < si_healthy s)%Z.
(** A majority is lost for good, so the cluster has to start from one node. *)
Definition broken : Prop := split ∨ (deadlocked ∧ ¬ stalled).

Definition purge_if (healthy : Z) : bool :=
  bool_decide (healthy = 0%Z ∧ int32 (si_required s) = 1%Z).

Inductive decides : verdict → Prop :=
| dec_no_list : broken → si_bootstrapping s = None → decides NoList
| dec_bootstrapping :
    broken → si_bootstrapping s = Some true →
    decides (Answer ConditionReasonQuorumNotReadyWaitATerm)
| dec_split :
    split → si_bootstrapping s = Some false → decides (Downgrade (purge_if (si_ready s)))
| dec_deadlock :
    deadlocked → ¬ stalled → si_bootstrapping s = Some false →
    decides (Downgrade (purge_if (int32 (si_healthy s))))
| dec_stalled :
    ¬ split → stalled → decides (Answer ConditionReasonQuorumNeedsAttentionClusterIsLagging)
| dec_lost :
    unsettled → ¬ stalled → si_available s = 1%Z → si_first_lost s = true → decides Purge
| dec_wait_first :
    unsettled → ¬ stalled → si_available s = 1%Z → si_first_lost s = false →
    decides (Answer ConditionReasonQuorumNotReadyWaitATerm)
| dec_wait :
    unsettled → ¬ stalled → si_available s ≠ 1%Z → (si_healthy s < si_required s)%Z →
    decides (Answer ConditionReasonQuorumNotReadyWaitATerm)
| dec_crash : elected → ¬ stalled → si_current s = None → decides Crash
| dec_drain n :
    elected → ¬ stalled → si_current s = Some n → (n < si_target s)%Z → (0 < si_queued s)%Z →
    decides (Answer ConditionReasonQuorumQueuedWrites)
| dec_upgrade n :
    elected → ¬ stalled → si_current s = Some n → (n < si_target s)%Z → (si_queued s ≤ 0)%Z →
    decides Upgrade
| dec_not_enough n :
    elected → ¬ stalled → si_current s = Some n → (si_target s ≤ n)%Z →
    (si_healthy s < si_required s)%Z →
    decides (Answer ConditionReasonQuorumNotReady)
| dec_ready n :
    elected → ¬ stalled → si_current s = Some n → (si_target s ≤ n)%Z →
    (si_required s ≤ si_healthy s)%Z →
    decides (Answer ConditionReasonQuorumReady)
| dec_ready_unsettled :
    unsettled → ¬ stalled → si_available s ≠ 1%Z → (si_required s ≤ si_healthy s)%Z →
    decides (Answer ConditionReasonQuorumReady).

#[local] Instance split_dec : Decision split.
Proof. unfold split. apply _. Defined.
#[local] Instance elected_dec : Decision elected.
Proof. unfold elected. apply _. Defined.
#[local] Instance deadlocked_dec : Decision deadlocked.
Proof. unfold deadlocked. apply _. Defined.
#[local] Instance stalled_dec : Decision stalled.
Proof. unfold stalled. apply _. Defined.

Lemma states_disjoint :
  (split → ¬ elected ∧ ¬ deadlocked) ∧ (elected → ¬ deadlocked).
Proof. unfold split, elected, deadlocked. lia. Qed.

(** The specification is a function: in every situation exactly one verdict
    is owed. *)
Theorem decides_functional :
  (∃ v, decides v) ∧ ∀ v v', decides v → decides v' → v = v'.
Proof.
  destruct states_disjoint as [Hsplit Helected]. split.
  - destruct (decide split) as [Hs|Hs].
    { destruct (si_bootstrapping s) as [[]|] eqn:Eb; eexists;
        [eapply dec_bootstrapping|eapply dec_split|eapply dec_no_list]; try done; by left. }
    destruct (decide stalled) as [Hst|Hst]; [by eexists; eapply dec_stalled|].
    destruct (decide deadlocked) as [Hd|Hd].
    { destruct (si_bootstrapping s) as [[]|] eqn:Eb; eexists;
        [eapply dec_bootstrapping|eapply dec_deadlock|eapply dec_no_list]; try done; by right. }
    destruct (Z_lt_le_dec (si_healthy s) (si_required s)) as [Hh|Hh],
      (decide elected) as [He|He].
    all: try (destruct (si_current s) as [n|] eqn:Ec; [|by eexists; eapply dec_crash];
      destruct (Z_lt_le_dec n (si_target s)), (Z_lt_le_dec 0 (si_queued s))).
    all: try (eexists; first [by eapply dec_drain | by eapply dec_upgrade
                             | by eapply dec_not_enough | by eapply dec_ready]).
    all: assert unsettled as Hu by by split_and!.
    all: destruct (decide (si_available s = 1%Z)), (si_first_lost s) eqn:Ef;
      eexists; first [by eapply dec_lost | by eapply dec_wait_first | by eapply dec_wait
                     | by eapply dec_ready_unsettled].
  - intros v v' Hv Hv'.
    destruct Hv; destruct Hv'; try done; exfalso; unfold broken, unsettled in *;
      simplify_eq; first [tauto | lia | congruence].
Qed.
End Spec.

(** ** Effects *)
Section Effects.
Context `{L : Libs} (r : Reconciler).

(** The StatefulSet was seen with [n] replicas, or an update to [n] accepted. *)
Definition at_size (key : ObjectKey) (n : Z) (tr : trace) : Prop :=
  (∃ sts, fetched key tr sts ∧ ss_Replicas (sts_Spec sts) = Some n)
  ∨ ∃ sts sts', Ev (Update KStatefulSet (with_replicas n sts)) (Ok sts') ∈ tr.

(** The StatefulSet could not be read or updated. *)
Definition size_failed (key : ObjectKey) (tr : trace) : Prop :=
  ∃ e, Ev (Get KStatefulSet key) (Err e) ∈ tr ∨ ∃ sts, Ev (Update KStatefulSet sts) (Err e) ∈ tr.

(** An operation that scales to [n]: it updates the StatefulSet at most once, to
    [n] replicas; the size is reached unless a call on the StatefulSet failed; it
    answers [QuorumNotReady] with an error, or [reason] without one once the size
    is reached. *)
Definition scales (key : ObjectKey) (n : Z) (reason : string) (tr : trace)
    (o : outcome quorum_result) : Prop :=
  (sts_updates tr = [] ∨ scaled_to key n tr)
  ∧ (at_size key n tr ∨ size_failed key tr)
  ∧ match o with
    | Done (c, size, e) =>
        (c = ConditionReasonQuorumNotReady ∧ is_Some e)
        ∨ (c = reason ∧ e = None ∧ at_size key n tr)
    | Panicked _ => True
    end.

(** The pods that were listed have been deleted, and no other. *)
Definition purged (tr : trace) : Prop :=
  ∃ opts pods, Ev (ListObjs KPod opts) (Ok pods) ∈ tr ∧ pods_deleted tr = pods.
Definition purge_failed (tr : trace) : Prop :=
  ∃ e, (∃ opts, Ev (ListObjs KPod opts) (Err e) ∈ tr)
    ∨ ∃ pod, Ev (Delete KPod pod None) (Some e) ∈ tr.

(** What a verdict may do: the calls that follow the decision, and the answer *)
Definition effect (ts : TypesenseCluster) (key : ObjectKey) (v : verdict) (tr : trace)
    (o : outcome quorum_result) : Prop :=
  match v with
  | Answer reason => tr = [] ∧ o = Done (reason, 0%Z, None)
  | NoList => tr = [] ∧ ∃ e, o = Done (not_ready e)
  | Crash => tr = [] ∧ ∃ w, o = Panicked w
  | Downgrade purge =>
      scales key 1 ConditionReasonQuorumDowngraded tr o
      ∧ (if purge
         then ∀ size, o = Done (ConditionReasonQuorumDowngraded, size, None) → purged tr
         else pods_deleted tr = [])
  | Upgrade => pods_deleted tr = []
      ∧ ((∃ e, tr = [Ev (Get KStatefulSet key) (Err e)] ∧ o = Done (not_ready e))
         ∨ ∃ sts, fetched key tr sts
             ∧ scales key (upgrade_size ts sts) ConditionReasonQuorumUpgraded tr o)
  | Purge => sts_updates tr = []
      ∧ ((purged tr ∧ o = Done (ConditionReasonQuorumNotReady, 0%Z, None))
         ∨ (purge_failed tr ∧ ∃ e, o = Done (not_ready e)))
  end.

Lemma at_size_app key n tr1 tr2 : at_size key n tr1 ∨ at_size key n tr2 → at_size key n (tr1 ++ tr2).
Proof.
  unfold at_size, fetched. setoid_rewrite elem_of_app.
  intros [[(sts & ? & ?)|(sts & sts' & ?)]|[(sts & ? & ?)|(sts & sts' & ?)]]; eauto 6.
Qed.

Lemma size_failed_app key tr1 tr2 :
  size_failed key tr1 ∨ size_failed key tr2 → size_failed key (tr1 ++ tr2).
Proof.
  unfold size_failed. setoid_rewrite elem_of_app.
  intros [(e & [?|(sts & ?)])|(e & [?|(sts & ?)])]; exists e; eauto.
Qed.

(** The part of [scales] that does not depend on the answer *)
Definition attempted (key : ObjectKey) (n : Z) (tr : trace) : Prop :=
  (quiet tr ∨ scaled_to key n tr) ∧ (at_size key n tr ∨ size_failed key tr).
Lemma attempted_l key n tr1 tr2 : attempted key n tr1 → quiet tr2 → attempted key n (tr1 ++ tr2).
Proof.
  intros [[H|H] Ha] Hq; (split; [|]).
  1: left; by apply quiet_app. 2: right; by apply scaled_to_l.
  all: destruct Ha; [left; apply at_size_app|right; apply size_failed_app]; by left.
Qed.
Lemma attempted_cons key n e tr : quiet [e] → attempted key n tr → attempted key n (e :: tr).
Proof.
  intros Hq [H Ha]. change (e :: tr) with ([e] ++ tr). split.
  - destruct H; [left; by apply quiet_app|right; by apply scaled_to_r].
  - destruct Ha; [left; apply at_size_app|right; apply size_failed_app]; by right.
Qed.

Lemma scales_failed key n reason tr e : attempted key n tr → scales key n reason tr (Done (not_ready e)).
Proof. intros [H1 H2]. split_and!; [done|done|]. left. by split; [|eexists]. Qed.
Lemma scales_panic key n reason tr w : attempted key n tr → scales key n reason tr (Panicked w).
Proof. by intros [H1 H2]. Qed.
Lemma scales_done key n reason tr size : attempted key n tr → at_size key n tr →
  scales key n reason tr (Done (reason, size, None)).
Proof. intros [H1 H2] Ha. split_and!; [done|done|]. by right. Qed.
Lemma scales_cons key n reason e tr o :
  quiet [e] → scales key n reason tr o → scales key n reason (e :: tr) o.
Proof.
  intros Hq (H1 & H2 & H3).
  destruct (attempted_cons key n e tr Hq (conj H1 H2)) as [H1' H2']. split_and!; try done.
  destruct o as [[[c size] err]|w]; [|done]. destruct H3 as [?|(? & ? & ?)]; [by left|right].
  split_and!; try done. apply (at_size_app _ _ [e]). by right.
Qed.

Lemma ScaleStatefulSet_reaches key n :
  wlp (ScaleStatefulSet key n) (λ tr o, attempted key n tr ∧ (o = Done None → at_size key n tr)).
Proof.
  unfold ScaleStatefulSet, GetFreshStatefulSet. apply wlp_trigger_bind. intros [sts|e].
  2: { apply wlp_ret. split; [|by intros [=]]. split; [by left|]. right. exists e. left. by left. }
  destruct (decide _) as [Hn|Hn].
  { apply wlp_ret. assert (at_size key n [Ev (Get KStatefulSet key) (Ok sts)]) as Ha
      by (left; exists sts; split; [by left|done]). split; [|done]. split; [by left|by left]. }
  apply wlp_trigger_bind.
  assert (∀ a, scaled_to key n [Ev (Get KStatefulSet key) (Ok sts);
    Ev (Update KStatefulSet (with_replicas n sts)) a]) as Hs.
  { intros a. exists sts. split; [by left|done]. }
  intros [sts'|e]; apply wlp_ret.
  - assert (at_size key n [Ev (Get KStatefulSet key) (Ok sts);
      Ev (Update KStatefulSet (with_replicas n sts)) (Ok sts')]) as Ha.
    { right. exists sts, sts'. right. by left. }
    split; [|done]. split; [right; apply Hs|by left].
  - split; [|by intros [=]]. split; [right; apply Hs|]. right. exists e. right.
    eexists. right. by left.
Qed.

(** The nodes list is published once the size is reached. *)
Lemma publish_spec key n cond ts cm m (size : Z → Z) tr :
  attempted key n tr → at_size key n tr →
  wlp ('(_, s, updated, err) ← updateConfigMap ts cm m true;
       match err with
       | Some err => mret (not_ready err)
       | None =>
           (if (updated : bool) && ForceResetPeersConfigOnUpdate (Spec ts)
            then _ ← forcePodsConfigMapUpdate ts; mret tt else mret tt);;
           mret (cond, size s, None)
       end) (λ tr' o, scales key n cond (tr ++ tr') o).
Proof.
  intros Hs Ha.
  eapply wlp_bind_quiet; [apply fp_updateConfigMap|done| |].
  2: { intros tr1 w Hq. by apply scales_panic, attempted_l. }
  intros tr1 [[[c s] updated] [err|]] Hq.
  { apply wlp_ret. rewrite app_nil_r. by apply scales_failed, attempted_l. }
  eapply wlp_bind_quiet with (l := [(VPatch, Some KPod)]); [|done| |].
  { destruct (_ && _)%bool; footprint_auto. apply fp_forcePodsConfigMapUpdate. }
  - intros tr2 [] Hq2. apply wlp_ret. rewrite app_nil_r. apply scales_done.
    + by apply attempted_l; [|apply quiet_app].
    + apply at_size_app. by left.
  - intros tr2 w Hq2. apply scales_panic. by apply attempted_l; [|apply quiet_app].
Qed.

Lemma downgradeQuorum_scales ts cm key healthy required :
  wlp (downgradeQuorum ts cm key healthy required)
    (scales key 1 ConditionReasonQuorumDowngraded).
Proof.
  unfold downgradeQuorum. apply wlp_trigger_bind. intros [sts|e].
  2: { apply wlp_ret, scales_failed. split; [by left|]. right. exists e. left. by left. }
  eapply (wlp_mono _ (scales key 1 ConditionReasonQuorumDowngraded)).
  2: { intros tr o. by apply scales_cons. }
  eapply wlp_bind_cut; [apply ScaleStatefulSet_reaches| |].
  2: { intros tr w [H _]. by apply scales_panic. }
  intros tr [e|] [H Ha].
  { apply wlp_ret. rewrite app_nil_r. by apply scales_failed. }
  eapply wlp_bind_quiet with (l := pod_deletion); [|done| |].
  { destruct (_ && _)%bool; [apply fp_PurgeStatefulSetPods|apply all_events_ret]. }
  2: { intros tr' w Hq. by apply scales_panic, attempted_l. }
  intros tr' [e|] Hq.
  { apply wlp_ret. rewrite app_nil_r. by apply scales_failed, attempted_l. }
  eapply wlp_mono; [apply (publish_spec key 1 ConditionReasonQuorumDowngraded ts cm _ (λ s, s)
    (tr ++ tr') (attempted_l _ _ _ _ H Hq))|].
  - apply at_size_app. left. by apply Ha.
  - intros tr'' o. by rewrite (assoc_L (++)).
Qed.

Lemma upgradeQuorum_scales ts cm key :
  wlp (upgradeQuorum ts cm key) (λ tr o,
    (∃ e, tr = [Ev (Get KStatefulSet key) (Err e)] ∧ o = Done (not_ready e))
    ∨ ∃ sts, fetched key tr sts
        ∧ scales key (upgrade_size ts sts) ConditionReasonQuorumUpgraded tr o).
Proof.
  unfold upgradeQuorum. apply wlp_trigger_bind. intros [sts|e].
  2: { apply wlp_ret. left. by exists e. }
  set (n := upgrade_size ts sts).
  eapply (wlp_mono _ (scales key n ConditionReasonQuorumUpgraded)).
  2: { intros tr o H. right. exists sts. split; [by left|by apply scales_cons]. }
  eapply wlp_bind_cut; [apply ScaleStatefulSet_reaches| |].
  2: { intros tr w [H _]. by apply scales_panic. }
  intros tr [e|] [H Ha].
  { apply wlp_ret. rewrite app_nil_r. by apply scales_failed. }
  eapply wlp_mono; [apply (publish_spec key n ConditionReasonQuorumUpgraded ts cm _ (λ _, n)
    tr H)|].
  - by apply Ha.
  - by intros tr'' o.
Qed.

(** Pods are deleted only by a purge. *)
Lemma footprint_pods_deleted {A} l (p : prog A) :
  footprint l p → bool_decide ((VDelete, Some KPod) ∈ l) = false →
  wlp p (λ tr _, pods_deleted tr = []).
Proof.
  intros H Hl%bool_decide_eq_false. eapply wlp_mono; [by apply footprint_wlp|].
  cbv beta. intros tr _ Hw. unfold pods_deleted.
  induction Hw as [|w ws Hw _ IH]; [done|]. simpl.
  destruct w as [k o|k o|k orig o|k orig o|k o|ts t reason m]; simpl; auto.
  unfold tag_allowed in Hw. simpl in Hw. apply bool_decide_eq_true in Hw.
  destruct k; done.
Qed.

Definition scaling_tags : list tag :=
  [(VUpdate, Some KStatefulSet); (VUpdate, Some KConfigMap); (VDelete, Some KConfigMap);
   (VPatch, Some KPod)].
Ltac scaling_footprint :=
  footprint_auto; first
    [ eapply footprint_mono; [apply fp_updateConfigMap|by vm_compute]
    | eapply footprint_mono; [apply fp_forcePodsConfigMapUpdate|by vm_compute]
    | done ].
Lemma fp_upgradeQuorum ts cm key : footprint scaling_tags (upgradeQuorum ts cm key).
Proof. unfold upgradeQuorum, ScaleStatefulSet, GetFreshStatefulSet. scaling_footprint. Qed.
Lemma fp_downgradeQuorum ts cm key healthy required :
  ((healthy =? 0) && (required =? 1))%Z = false →
  footprint scaling_tags (downgradeQuorum ts cm key healthy required).
Proof.
  intros E. unfold downgradeQuorum, ScaleStatefulSet, GetFreshStatefulSet. rewrite E.
  scaling_footprint.
Qed.

(** ** The code takes the step that is owed *)

(** A purge deletes the pods it lists, or a call of it fails. *)
Lemma PurgeStatefulSetPods_purges sts ts :
  wlp (PurgeStatefulSetPods sts ts) (λ tr o,
    match o with
    | Done None => purged tr
    | Done (Some e) => purge_failed tr
    | Panicked _ => ss_Selector (sts_Spec sts) = None
    end).
Proof.
  unfold PurgeStatefulSetPods, list_pods. apply wlp_assoc.
  destruct (ss_Selector (sts_Spec sts)) as [sel|] eqn:Es; cbn [deref lift].
  2: { apply wlp_exec. intros tr o H. by inversion H. }
  apply wlp_ret_bind, wlp_trigger_bind. intros [pods|e].
  2: { apply wlp_ret. exists e. left. eexists. by left. }
  eapply wlp_bind_cut.
  { apply (wlp_for_err _ (λ done tr, pods_deleted tr = done)
      (λ tr e, ∃ pod, Ev (Delete KPod pod None) (Some e) ∈ tr) (λ _ _, False)); [done|].
    intros done_ pod rest tr _ Htr. apply wlp_trigger. intros [e|].
    - exists pod. apply elem_of_app. right. by left.
    - by rewrite pods_deleted_app, Htr. }
  2: { by intros tr w. }
  cbv beta. intros tr [e|] H.
  - apply wlp_ret. rewrite app_nil_r. destruct H as [pod H]. exists e. right. exists pod. by right.
  - apply wlp_trigger_bind. intros []. apply wlp_ret. do 2 eexists. split; [by left|].
    change (pods_deleted (tr ++ [Ev (Eventf ts "Warning" ConditionReasonQuorumPurged
      (toTitle "quorum has been purged")) tt]) = pods).
    rewrite pods_deleted_app, H. by rewrite app_nil_r.
Qed.

Lemma purged_r tr1 tr2 : pods_deleted tr1 = [] → purged tr2 → purged (tr1 ++ tr2).
Proof.
  intros H (opts & pods & Hl & E). exists opts, pods. rewrite pods_deleted_app, H, E.
  split; [|done]. apply elem_of_app. by right.
Qed.
Lemma purged_l tr1 tr2 : purged tr1 → pods_deleted tr2 = [] → purged (tr1 ++ tr2).
Proof.
  intros (opts & pods & Hl & E) H. exists opts, pods. rewrite pods_deleted_app, H, E, app_nil_r.
  split; [|done]. apply elem_of_app. by left.
Qed.

(** A downgrade that purges and succeeds has deleted the pods. *)
Lemma downgradeQuorum_purges ts cm key healthy required :
  ((healthy =? 0) && (required =? 1))%Z = true →
  wlp (downgradeQuorum ts cm key healthy required) (λ tr o,
    ∀ size, o = Done (ConditionReasonQuorumDowngraded, size, None) → purged tr).
Proof.
  intros E. unfold downgradeQuorum. rewrite E. apply wlp_trigger_bind.
  intros [sts|e]; [|by apply wlp_ret; intros ? [=]]. cbv zeta.
  eapply wlp_bind_cut.
  { apply (footprint_pods_deleted [(VUpdate, Some KStatefulSet)]); [|done].
    unfold ScaleStatefulSet, GetFreshStatefulSet. footprint_auto. }
  2: { by intros tr w H size [=]. }
  intros tr1 [e|] H1; [by apply wlp_ret; intros ? [=]|].
  eapply wlp_bind_cut; [apply PurgeStatefulSetPods_purges| |by intros tr w H size [=]].
  intros tr2 [e|] H2; [by apply wlp_ret; intros ? [=]|].
  eapply wlp_mono; [apply (footprint_pods_deleted (cm_update ++ [(VPatch, Some KPod)])); [|done]|].
  { scaling_footprint. }
  cbv beta. intros tr3 o H3 size _.
  apply (purged_r [_]); [done|]. apply purged_r; [done|]. by apply purged_l.
Qed.

Lemma downgrade_effect ts cm key healthy required :
  wlp (downgradeQuorum ts cm key healthy required)
    (effect ts key (Downgrade ((healthy =? 0) && (required =? 1))%Z)).
Proof.
  apply wlp_and; [apply downgradeQuorum_scales|].
  destruct ((healthy =? 0) && (required =? 1))%Z eqn:E; [by apply downgradeQuorum_purges|].
  eapply footprint_pods_deleted; [by apply fp_downgradeQuorum|done].
Qed.
Lemma upgrade_effect ts cm key : wlp (upgradeQuorum ts cm key) (effect ts key Upgrade).
Proof.
  apply wlp_and; [|apply upgradeQuorum_scales].
  eapply footprint_pods_deleted; [apply fp_upgradeQuorum|done].
Qed.

Lemma purge_effect sts ts key :
  ss_Selector (sts_Spec sts) ≠ None →
  wlp (err ← PurgeStatefulSetPods sts ts;
       match err with
       | Some err => mret (not_ready err)
       | None => mret (ConditionReasonQuorumNotReady, 0%Z, None)
       end) (effect ts key Purge).
Proof.
  intros Hsel. eapply wlp_bind_cut.
  { apply wlp_and; [apply (quiet_footprint _ _ (fp_PurgeStatefulSetPods sts ts)); done|].
    apply PurgeStatefulSetPods_purges. }
  - intros tr [e|] [Hq H]; apply wlp_ret; rewrite app_nil_r; (split; [done|]); [right|by left].
    split; [done|by exists e].
  - by intros tr w [_ H].
Qed.

(** The situation the code has in its variables when it decides *)
Definition situation_of (ts : TypesenseCluster) (sts : StatefulSet) (q : Quorum)
    (m : gmap string NodeStatus) (queued threshold healthy : Z) : Situation :=
  {| si_nodes := size m; si_leaders := nodes_in LeaderState m; si_unready := unready_nodes m;
     si_queued := queued; si_threshold := threshold; si_healthy := healthy;
     si_required := MinRequiredNodes q; si_available := AvailableNodes q;
     si_ready := st_ReadyReplicas (sts_Status sts);
     si_current := ss_Replicas (sts_Spec sts); si_target := Replicas (Spec ts);
     si_bootstrapping :=
       match hasBootstrapValues ts (NodesListConfigMap q) with Ok b => Some b | Err _ => None end;
     si_first_lost :=
       let state := State (status_of m (ClusterStatefulSet (ts_Name ts) +:+ "-" +:+ itoa 0)) in
       String.eqb state ErrorState || String.eqb state UnreachableState |}.

Section Decision.
Context (ts : TypesenseCluster) (sts : StatefulSet) (q : Quorum) (m : gmap string NodeStatus).
Context (queued threshold healthy : Z) (key : ObjectKey).
Let s := situation_of ts sts q m queued threshold healthy.

Lemma cluster_split : getClusterStatus m = ClusterStatusSplitBrain ↔ split s.
Proof. apply cluster_status_counts. Qed.
Lemma cluster_elected : getClusterStatus m = ClusterStatusOK ↔ elected s.
Proof. apply cluster_status_counts. Qed.
Lemma cluster_deadlocked : getClusterStatus m = ClusterStatusElectionDeadlock ↔ deadlocked s.
Proof. apply cluster_status_counts. Qed.
Lemma cluster_unsettled : getClusterStatus m = ClusterStatusNotReady → unsettled s.
Proof.
  intros E. unfold unsettled. rewrite <-cluster_split, <-cluster_elected, <-cluster_deadlocked.
  by rewrite E.
Qed.
Lemma stalled_eq :
  ((threshold <? queued) && (0 <? healthy))%Z = true ↔ stalled s.
Proof. unfold stalled. rewrite andb_true_iff, !Z.ltb_lt. done. Qed.

(** The downgrade, unless the list is that of a cluster that starts *)
Lemma downgrade_decides h n :
  broken s → (si_bootstrapping s = Some false →
    decides s (Downgrade ((h =? 0) && (n =? 1))%Z)) →
  wlp (downgrade_unless_bootstrapping ts q key h n) (λ tr o,
    ∃ v, decides s v ∧ effect ts key v tr o).
Proof.
  intros Hb Hd. unfold downgrade_unless_bootstrapping.
  assert (si_bootstrapping s = match hasBootstrapValues ts (NodesListConfigMap q) with
    Ok b => Some b | Err _ => None end) as Es by done.
  destruct (hasBootstrapValues ts (NodesListConfigMap q)) as [[]|e].
  - apply wlp_ret. exists (Answer ConditionReasonQuorumNotReadyWaitATerm).
    split; [by apply dec_bootstrapping|done].
  - eapply wlp_mono; [apply downgrade_effect|]. intros tr o H. eexists. split; [by apply Hd|exact H].
  - apply wlp_ret. exists NoList. split; [by apply dec_no_list|]. split; [done|by exists e].
Qed.

Lemma answer_effect v reason :
  v = Answer reason → decides s v →
  wlp (mret (reason, 0%Z, None)) (λ tr o, ∃ v, decides s v ∧ effect ts key v tr o).
Proof. intros -> Hv. apply wlp_ret. by exists (Answer reason). Qed.

Lemma conclude_decides :
  ¬ stalled s → (elected s ∨ unsettled s ∧ si_available s ≠ 1%Z ∧ (si_required s ≤ si_healthy s)%Z) →
  wlp (conclude ts sts q key (getClusterStatus m) queued healthy) (λ tr o,
    ∃ v, decides s v ∧ effect ts key v tr o).
Proof.
  intros Hst Hor. unfold conclude. destruct (decide (getClusterStatus m = ClusterStatusOK)) as [Hok|Hok].
  - apply cluster_elected in Hok. destruct (ss_Replicas (sts_Spec sts)) as [n|] eqn:En; cbn.
    2: { apply wlp_exec. intros tr o He. inversion He; subst. exists Crash.
         split; [by apply dec_crash|]. split; [done|by eexists]. }
    apply wlp_ret_bind. destruct (Z.ltb_spec n (Replicas (Spec ts))) as [Hn|Hn].
    + destruct (Z.ltb_spec 0 queued) as [Hq|Hq].
      * eapply answer_effect; [done|]. by eapply dec_drain.
      * eapply wlp_mono; [apply upgrade_effect|]. intros tr o H. exists Upgrade.
        split; [by eapply dec_upgrade|done].
    + destruct (Z.ltb_spec healthy (MinRequiredNodes q)).
      * eapply answer_effect; [done|]. by eapply dec_not_enough.
      * eapply answer_effect; [done|]. by eapply dec_ready.
  - apply wlp_ret_bind. destruct Hor as [He|(Hu & Ha & Hh)]; [by apply cluster_elected in He|].
    rewrite (proj2 (Z.ltb_ge _ _)) by exact Hh.
    eapply answer_effect; [done|]. by apply dec_ready_unsettled.
Qed.
End Decision.

Lemma evaluate_decides ts sts q key m queued threshold nh :
  ss_Selector (sts_Spec sts) ≠ None → getClusterStatus m ≠ ClusterStatusSplitBrain →
  wlp (evaluate_quorum ts sts q key (getClusterStatus m) m queued threshold nh) (λ tr o,
    ∃ v, decides (situation_of ts sts q m queued threshold (count_healthy nh)) v
      ∧ effect ts key v tr o).
Proof.
  intros Hsel Hsplit. set (s := situation_of ts sts q m queued threshold (count_healthy nh)).
  unfold evaluate_quorum. cbv zeta.
  pose proof (stalled_eq ts sts q m queued threshold (count_healthy nh)) as Hst.
  destruct (_ && _)%bool eqn:Est.
  { eapply answer_effect; [done|]. apply dec_stalled; [|by apply Hst].
    by rewrite <-cluster_split. }
  assert (¬ stalled s) as Hns by (by intros ?%Hst). clear Hst Est.
  destruct (getClusterStatus m) eqn:Ec; try done.
  - rewrite <-Ec. apply conclude_decides; [done|]. left. by apply cluster_elected.
  - pose proof (cluster_unsettled ts sts q m queued threshold (count_healthy nh) Ec) as Hu.
    destruct (Z.eqb_spec (AvailableNodes q) 1) as [Ha|Ha].
    + destruct (_ || _)%bool eqn:Ef.
      * eapply wlp_mono; [by apply purge_effect|]. intros tr o H. exists Purge.
        split; [by apply dec_lost|done].
      * eapply answer_effect; [done|]. by apply dec_wait_first.
    + destruct (Z.ltb_spec (count_healthy nh) (MinRequiredNodes q)) as [Hh|Hh].
      * eapply answer_effect; [done|]. by apply dec_wait.
      * rewrite <-Ec. apply conclude_decides; [done|]. right. by split_and!.
  - apply downgrade_decides; [right; split; [by apply cluster_deadlocked|done]|].
    intros Hb. replace (_ && _)%bool with (purge_if s (int32 (si_healthy s))).
    + apply dec_deadlock; [by apply cluster_deadlocked|done|done].
    + unfold purge_if. apply eq_true_iff_eq.
      rewrite bool_decide_eq_true, andb_true_iff, !Z.eqb_eq. done.
Qed.

(** ** The evidence for a situation *)

Section Shown.
Context (ts : TypesenseCluster) (secret : Secret) (key : ObjectKey).

(** The situation described by the objects read, the threshold, the nodes asked
    with the statuses they reported, and the healths that were published *)
Definition situation_read (sts : StatefulSet) (q : Quorum) (threshold : Z)
    (names : list string) (statuses : list NodeStatus) (healths : list bool) : Situation :=
  {| si_nodes := length statuses;
     si_leaders := length (filter (λ st, State st = LeaderState) statuses);
     si_unready :=
       length (filter (λ st, State st = NotReadyState ∨ State st = UnreachableState) statuses);
     si_queued := most_queued statuses;
     si_threshold := threshold;
     si_healthy := Z.of_nat (length (filter (λ b, b = true) healths));
     si_required := MinRequiredNodes q;
     si_available := AvailableNodes q;
     si_ready := st_ReadyReplicas (sts_Status sts);
     si_current := ss_Replicas (sts_Spec sts);
     si_target := Replicas (Spec ts);
     si_bootstrapping := match hasBootstrapValues ts (NodesListConfigMap q) with Ok b => Some b | Err _ => None end;
     si_first_lost :=
       existsb (λ ns, String.eqb ns.1 (ClusterStatefulSet (ts_Name ts) +:+ "-" +:+ itoa 0)
         && (String.eqb (State ns.2) ErrorState || String.eqb (State ns.2) UnreachableState))
         (zip names statuses) |}.

(** The timeout of every request, in nanoseconds *)
Definition probe_timeout : Z := int64 (HealthProbeTimeoutInMilliseconds (Spec ts) * 1000000).

(** The calls up to the statuses of the nodes: the StatefulSet, the nodes list
    and the pods are read, pods that cannot be scheduled are deleted, and every
    node of the quorum is asked, in the order of the names. *)
Inductive inquired (sts : StatefulSet) (q : Quorum) (threshold : Z)
    (nodes : list (NodeEndpoint * string)) (statuses : list NodeStatus) : trace → Prop :=
| inquired_by logs tr1 tr2 tr3 tr4 tr5 tr6 :
    quorum_shown ts sts (Done (Ok q)) tr1 →
    restarted ts sts tr2 →
    (MinRequiredNodes q ≤ AvailableNodes q)%Z →
    client_made r tr3 →
    lag_shown ts threshold tr4 →
    polled (logs_shown ts) (node_endpoints q) logs tr5 →
    nodes = zip (node_endpoints q) logs →
    polled (status_shown r ts secret probe_timeout) nodes statuses tr6 →
    inquired sts q threshold nodes statuses
      (Ev (Get KStatefulSet key) (Ok sts) :: tr1 ++ tr2 ++ tr3 ++ tr4 ++ tr5 ++ tr6).

(** [shown tr s]: the calls of [tr] show the situation [s].  The gates of the
    nodes are published unless the leaders are in conflict. *)
Inductive shown : trace → Situation → Prop :=
| shown_split sts q threshold nodes statuses tr :
    inquired sts q threshold nodes statuses tr →
    let s := situation_read sts q threshold (PodName <$> nodes.*1) statuses [] in
    split s → shown tr s
| shown_gates sts q threshold nodes statuses healths tr tr' :
    inquired sts q threshold nodes statuses tr →
    polled (gate_shown r ts probe_timeout) nodes healths tr' →
    let s := situation_read sts q threshold (PodName <$> nodes.*1) statuses healths in
    ¬ split s → shown (tr ++ tr') s.

(** The rounds that end before a decision, and why *)
Inductive gave_up : trace → outcome quorum_result → Prop :=
| no_statefulset e :
    gave_up [Ev (Get KStatefulSet key) (Err e)] (Done (not_ready e))
| no_quorum sts tr e :
    quorum_shown ts sts (Done (Err e)) tr →
    gave_up (Ev (Get KStatefulSet key) (Ok sts) :: tr) (Done (not_ready e))
| no_pod_selector sts tr w :
    quorum_shown ts sts (Panicked w) tr →
    gave_up (Ev (Get KStatefulSet key) (Ok sts) :: tr) (Panicked w)
| too_few_listed sts q tr tr' :
    quorum_shown ts sts (Done (Ok q)) tr → restarted ts sts tr' →
    (AvailableNodes q < MinRequiredNodes q)%Z →
    gave_up (Ev (Get KStatefulSet key) (Ok sts) :: tr ++ tr')
      (Done (ConditionReasonStatefulSetNotReady, 0%Z, None))
| no_client sts q tr tr' e :
    quorum_shown ts sts (Done (Ok q)) tr → restarted ts sts tr' →
    (MinRequiredNodes q ≤ AvailableNodes q)%Z → InCluster r = false →
    gave_up (Ev (Get KStatefulSet key) (Ok sts) :: tr ++ tr' ++ [Ev HTTPClientFor (Some e)])
      (Done (not_ready e))
| gate_refused sts q threshold nodes statuses tr tr' e :
    inquired sts q threshold nodes statuses tr →
    ¬ split (situation_read sts q threshold (PodName <$> nodes.*1) statuses []) →
    gates_failed r ts probe_timeout nodes e tr' →
    gave_up (tr ++ tr') (Done (not_ready e)).

(** *** A trace shows at most one situation *)

Lemma inquired_unique sts q lag nodes statuses sts' q' lag' nodes' statuses' tr tr' t t' :
  inquired sts q lag nodes statuses tr → inquired sts' q' lag' nodes' statuses' tr' →
  tr ++ t = tr' ++ t' →
  sts = sts' ∧ q = q' ∧ lag = lag' ∧ nodes = nodes' ∧ statuses = statuses' ∧ t = t'.
Proof.
  intros [logs t1 t2 t3 t4 t5 t6 Hq Hr _ Hc Hl Hlogs -> Hst]
    [logs' t1' t2' t3' t4' t5' t6' Hq' Hr' _ Hc' Hl' Hlogs' -> Hst'].
  rewrite <-!app_comm_cons, <-!(assoc_L (++)). intros [E0 E]%cons_inj_events.
  read_answer sts_answer E0.
  edestruct (quorum_reads_off ts sts' (Done (Ok q)) (Done (Ok q'))) as ([= ->] & _ & E1);
    [by exists q|by exists q'|exact E|].
  edestruct (restarted_reads_off ts sts' tt tt) as (_ & _ & E2); [exact Hr|exact Hr'|exact E1|].
  edestruct (client_reads_off r tt tt) as (_ & _ & E3); [exact Hc|exact Hc'|exact E2|].
  edestruct (lag_reads_off ts lag lag') as (-> & _ & E4); [exact Hl|exact Hl'|exact E3|].
  edestruct (polled_unique (logs_shown ts) (node_endpoints q')) with (x := logs) (y := logs') as (-> & _ & E5);
    [|exact Hlogs|exact Hlogs'|exact E4|].
  { intros ? _. apply logs_reads_off. }
  edestruct (polled_unique (status_shown r ts secret probe_timeout) (zip (node_endpoints q') logs'))
    with (x := statuses) (y := statuses') as (-> & _ & ->); [|exact Hst|exact Hst'|exact E5|done].
  intros ? _. apply status_reads_off.
Qed.

Theorem shown_unique tr tr' t t' s s' :
  shown tr s → shown tr' s' → tr ++ t = tr' ++ t' → s = s' ∧ tr = tr'.
Proof.
  intros H H'.
  destruct H as [sts q lag nodes statuses tr Hi s Hs|sts q lag nodes statuses healths tr1 tr2 Hi Hg s Hs];
  destruct H' as [sts' q' lag' nodes' statuses' tr' Hi' s' Hs'
                 |sts' q' lag' nodes' statuses' healths' tr1' tr2' Hi' Hg' s' Hs'];
    rewrite <-?(assoc_L (++)); intros E;
    destruct (inquired_unique _ _ _ _ _ _ _ _ _ _ _ _ _ _ Hi Hi' E)
      as (-> & -> & -> & -> & -> & Et); try done.
  - subst t'. by apply app_inv_tail in E as ->.
  - edestruct (polled_unique (gate_shown r ts probe_timeout) nodes')
      with (x := healths) (y := healths') (tr := tr2) (tr' := tr2')
      (t := t) (t' := t') as (-> & -> & ->);
      [intros ? _; apply gate_reads_off|exact Hg|exact Hg'|exact Et|].
    by apply app_inv_tail in E as ->.
Qed.

(** *** Reaching a decision leaves the StatefulSet alone *)
Lemma inquired_quiet sts q lag nodes statuses tr :
  inquired sts q lag nodes statuses tr → quiet tr.
Proof.
  intros [logs t1 t2 t3 t4 t5 t6 Hq Hr _ Hc Hl Hlogs _ Hst]. apply quiet_cons; [done|].
  repeat apply quiet_app;
    eauto using quorum_quiet, restarted_quiet, client_quiet, lag_quiet, polled_quiet,
      logs_quiet, status_quiet.
Qed.
Lemma shown_quiet tr s : shown tr s → quiet tr.
Proof.
  intros [sts q lag nodes statuses tr' Hi s' _|sts q lag nodes statuses healths tr' tr'' Hi Hg s' _].
  - by eapply inquired_quiet.
  - apply quiet_app; [by eapply inquired_quiet|].
    eapply polled_quiet; [|exact Hg]. intros a b. apply gate_quiet.
Qed.
Lemma gave_up_quiet tr o : gave_up tr o → quiet tr.
Proof.
  destruct 1; try done; try (apply quiet_cons; [done|]);
    repeat apply quiet_app; eauto using quorum_quiet, restarted_quiet, inquired_quiet; [done|].
  destruct H1 as [before node after healths b tr1 tr2 _ Hp Hb].
  apply quiet_app; [|by eapply gate_quiet]. eapply polled_quiet; [|exact Hp].
  intros ???. apply gate_quiet.
Qed.
End Shown.

(** ** Refinement *)

(** The maps of the code hold what was read node by node. *)
Section Maps.
Context (names : list string) (Hnames : NoDup names).

Lemma count_healthy_names healths :
  length healths = length names →
  count_healthy (list_to_map (zip names healths))
  = Z.of_nat (length (filter (λ b, b = true) healths)).
Proof.
  intros Hl. unfold count_healthy.
  rewrite <-(count_names (λ b, b = true) names healths Hnames Hl).
  by rewrite filter_fmap_list, length_fmap.
Qed.

Lemma first_lost_names (statuses : list NodeStatus) first :
  length statuses = length names →
  (let state := State (status_of (list_to_map (zip names statuses)) first) in
   String.eqb state ErrorState || String.eqb state UnreachableState)
  = existsb (λ ns, String.eqb ns.1 first
      && (String.eqb (State ns.2) ErrorState || String.eqb (State ns.2) UnreachableState))
      (zip names statuses).
Proof.
  intros Hl. apply eq_true_iff_eq. rewrite existsb_exists. cbv zeta. unfold status_of.
  pose proof (λ v, lookup_names names statuses first v Hnames Hl) as Hlook.
  destruct ((list_to_map (zip names statuses) : gmap string NodeStatus) !! first) as [st|] eqn:E.
  - pose proof (proj1 (Hlook st) eq_refl) as Hst. split.
    + intros Hs. exists (first, st). split; [by apply list_elem_of_In|].
      cbn. by rewrite String.eqb_refl.
    + intros ([n st'] & Hin%list_elem_of_In & [Hn Hs]%andb_true_iff). cbn in *.
      apply String.eqb_eq in Hn as ->. apply Hlook in Hin. by simplify_eq.
  - split; [by vm_compute|]. intros ([n st] & Hin%list_elem_of_In & [Hn _]%andb_true_iff).
    cbn in *. apply String.eqb_eq in Hn as ->. by apply Hlook in Hin.
Qed.

Lemma situation_of_read ts sts q statuses lag healths :
  length statuses = length names →
  situation_of ts sts q (list_to_map (zip names statuses)) (most_queued statuses) lag
    (Z.of_nat (length (filter (λ b, b = true) healths)))
  = situation_read ts sts q lag names statuses healths.
Proof.
  intros Hl. unfold situation_of, situation_read. f_equal.
  - by apply size_names.
  - etrans; [exact (size_filter_values (λ s, State s = LeaderState) _)|by apply count_names].
  - etrans; [|by apply count_names]. exact (size_filter_values
      (λ s, State s = NotReadyState ∨ State s = UnreachableState) _).
  - by apply first_lost_names.
Qed.
End Maps.

Section Refinement.
Context (ts : TypesenseCluster) (secret : Secret) (key : ObjectKey).

(** What a round does: it gives up, or it takes the verdict owed. *)
Definition stepped (tr : trace) (o : outcome quorum_result) : Prop :=
  gave_up ts secret key tr o
  ∨ ∃ s v tr1 tr2, tr = tr1 ++ tr2 ∧ shown ts secret key tr1 s
      ∧ decides s v ∧ effect ts key v tr2 o.

Lemma stepped_decision s tr tr' o :
  shown ts secret key tr s → (∃ v, decides s v ∧ effect ts key v tr' o) → stepped (tr ++ tr') o.
Proof. intros Hs (v & Hv & He). right. by exists s, v, tr, tr'. Qed.

(** The logs of a node, in the map of the code *)
Lemma map_get_names nodes (logs : list string) node l :
  NoDup (PodName <$> nodes) → length logs = length nodes → (node, l) ∈ zip nodes logs →
  map_get (list_to_map (zip (PodName <$> nodes) logs)) (PodName node) = l.
Proof.
  intros Hn Hl Hin. unfold map_get.
  assert (length logs = length (PodName <$> nodes)) as Hl' by by rewrite length_fmap.
  rewrite (proj2 (lookup_names _ _ (PodName node) l Hn Hl')); [done|].
  rewrite zip_fmap_l. apply list_elem_of_fmap. by exists (node, l).
Qed.

(** Once the nodes have answered *)
Lemma decision_steps sts q threshold nodes statuses tr logs :
  ss_Selector (sts_Spec sts) ≠ None → NoDup (PodName <$> nodes.*1) →
  (∀ node l, (node, l) ∈ nodes → map_get logs (PodName node) = l) →
  length statuses = length nodes →
  inquired ts secret key sts q threshold nodes statuses tr →
  let m := list_to_map (zip (PodName <$> nodes.*1) statuses) in
  wlp (if decide (getClusterStatus m = ClusterStatusSplitBrain) then
         downgrade_unless_bootstrapping ts q key
           (st_ReadyReplicas (sts_Status sts)) (int32 (MinRequiredNodes q))
       else
         g ← update_gates r (probe_timeout ts) ts m logs false ∅ nodes.*1;
         match g with
         | Err err => mret (not_ready err)
         | Ok (clusterNeedsAttention, nodesHealth) =>
             if (clusterNeedsAttention : bool)
             then mret (ConditionReasonQuorumNeedsAttentionMemoryOrDiskIssue, 0%Z, None)
             else evaluate_quorum ts sts q key (getClusterStatus m) m
                    (most_queued statuses) threshold nodesHealth
         end) (λ tr' o, stepped (tr ++ tr') o).
Proof.
  intros Hsel Hn Hlogs Hl Hi m.
  assert (∀ healths, situation_of ts sts q m (most_queued statuses) threshold
      (Z.of_nat (length (filter (λ b, b = true) healths)))
    = situation_read ts sts q threshold (PodName <$> nodes.*1) statuses healths) as Es.
  { intros healths. apply situation_of_read; [done|]. by rewrite !length_fmap. }
  destruct (decide _) as [Hs|Hs].
  - apply (cluster_split ts sts q m (most_queued statuses) threshold 0) in Hs.
    eapply wlp_mono; [apply (downgrade_decides ts sts q m (most_queued statuses) threshold 0)|].
    + by left.
    + intros Hb. set (s := situation_of ts sts q m (most_queued statuses) threshold 0).
      replace (_ && _)%bool with (purge_if s (si_ready s)); [by apply dec_split|].
      unfold purge_if. apply eq_true_iff_eq.
      rewrite bool_decide_eq_true, andb_true_iff, !Z.eqb_eq. done.
    + intros tr' o. apply stepped_decision.
      change (situation_of ts sts q m (most_queued statuses) threshold 0)
        with (situation_of ts sts q m (most_queued statuses) threshold
                (Z.of_nat (length (filter (λ b, b = true) ([] : list bool))))) in Hs |- *.
      rewrite Es in Hs |- *. by apply shown_split.
  - eapply wlp_bind_cut; [by apply update_gates_shows| |].
    2: { intros tr' w [(? & ? & ?)|(? & ? & ?)]; done. }
    assert (∀ healths,
      ¬ split (situation_read ts sts q threshold (PodName <$> nodes.*1) statuses healths)) as Hns.
    { intros healths. by rewrite <-Es, <-cluster_split. }
    intros tr' g [(healths & Hg & [= ->])|(e & Hf & [= ->])].
    + pose proof (polled_length _ _ _ _ Hg) as Hh.
      assert (length healths = length (PodName <$> nodes.*1)) as Hh' by by rewrite !length_fmap.
      rewrite foldl_insert_names by done.
      eapply wlp_mono; [by apply evaluate_decides|]. cbv beta. intros tr'' o.
      rewrite count_healthy_names, (assoc_L (++)) by done. apply stepped_decision.
      rewrite Es. by eapply shown_gates.
    + apply wlp_ret. left. rewrite app_nil_r. by eapply gate_refused.
Qed.

(** From the threshold on *)
Lemma inquiry_steps sts q tr1 tr2 tr3 :
  quorum_shown ts sts (Done (Ok q)) tr1 → restarted ts sts tr2 →
  (MinRequiredNodes q ≤ AvailableNodes q)%Z → client_made r tr3 →
  wlp (healthyWriteLagThreshold ← getHealthyWriteLagThreshold ts;
       reconcile_nodes r ts secret key sts q (probe_timeout ts) healthyWriteLagThreshold)
    (λ tr o, stepped (Ev (Get KStatefulSet key) (Ok sts) :: tr1 ++ tr2 ++ tr3 ++ tr) o).
Proof.
  intros Hq Hr Hav Hc. assert (ss_Selector (sts_Spec sts) ≠ None) as Hsel by by inversion Hq.
  eapply wlp_bind_cut; [apply getHealthyWriteLagThreshold_shows| |by intros ?? (? & ? & _)].
  intros tr4 lag (lag' & [= <-] & Hlag). unfold reconcile_nodes. cbv zeta.
  pose proof (node_endpoints_NoDup q) as Hn.
  eapply wlp_bind_cut; [by apply gather_logs_shows| |by intros ?? (? & _ & ?)].
  intros tr5 logsm (logs & Hlogs & [= ->]).
  pose proof (polled_length _ _ _ _ Hlogs) as Hl.
  pose proof (λ node l, map_get_names (node_endpoints q) logs node l Hn Hl) as Hm.
  generalize dependent (list_to_map (M := smap) (zip (PodName <$> node_endpoints q) logs)).
  intros logsm Hm. remember (zip (node_endpoints q) logs) as nodes eqn:Enodes.
  assert (node_endpoints q = nodes.*1) as En by (subst; symmetry; apply fst_zip; lia).
  rewrite En in Hn |- *.
  eapply wlp_bind_cut; [by apply gather_status_shows| |by intros ?? (? & _ & ?)].
  intros tr6 [queued m] (statuses & Hst & [= -> ->]).
  eapply wlp_mono; [apply (decision_steps sts q lag nodes statuses); try done|].
  - apply (polled_length _ _ _ _ Hst).
  - by eapply inquired_by.
  - intros tr7 o. cbv beta. by rewrite <-!app_comm_cons, <-!(assoc_L (++)).
Qed.

Lemma ReconcileQuorum_stepped :
  wlp (ReconcileQuorum r ts secret key) stepped.
Proof.
  unfold ReconcileQuorum, GetFreshStatefulSet. apply wlp_trigger_bind.
  intros [sts|err]; [|apply wlp_ret; left; constructor].
  eapply wlp_bind_cut; [apply getQuorum_shows| |].
  2: { intros tr w H. left. by apply no_pod_selector. }
  intros tr1 [q|err] Hq.
  2: { apply wlp_ret. rewrite app_nil_r. left. by apply no_quorum. }
  assert (ss_Selector (sts_Spec sts) ≠ None) as Hsel by by inversion Hq.
  eapply wlp_bind_cut; [by apply GetUnscheduledPods_shows| |by intros ?? (? & ? & _)].
  intros tr2 u (u' & [= <-] & Hu).
  eapply wlp_bind_cut; [by apply (restart_shows ts sts tr2 u)| |by intros ?? [? _]].
  intros tr3 [] [_ Hr].
  destruct (Z.ltb_spec (AvailableNodes q) (MinRequiredNodes q)) as [Hav|Hav].
  { apply wlp_ret. left. rewrite app_nil_r, (assoc_L (++)), <-(assoc_L (++)).
    by eapply too_few_listed. }
  pose proof (λ tr4, inquiry_steps sts q tr1 (tr2 ++ tr3) tr4 Hq Hr Hav) as Hrest.
  unfold getHttpClient. destruct (InCluster r) eqn:Ein.
  { apply wlp_ret_bind. eapply wlp_mono; [apply (Hrest [])|].
    - unfold client_made. by rewrite Ein.
    - intros tr o. cbv beta. by rewrite <-!(assoc_L (++)). }
  apply wlp_assoc, wlp_trigger_bind. intros [e|]; apply wlp_ret_bind.
  - apply wlp_ret. left. rewrite (assoc_L (++) tr2).
    by apply (no_client _ _ _ _ q).
  - eapply wlp_mono; [apply (Hrest [Ev HTTPClientFor None])|].
    + unfold client_made. by rewrite Ein.
    + intros tr o. cbv beta. by rewrite <-!(assoc_L (++)).
Qed.

(** C1 [ReconcileQuorum] refines the specification: every execution either gives
    up for one of six reasons that its calls show, or its first calls show a
    situation, the only one they show; the verdict that is owed there, and no
    other is, is taken, and what the round does from then on is the effect of that verdict and
    nothing else. *)
Theorem ReconcileQuorum_refines :
  wlp (ReconcileQuorum r ts secret key) (λ tr o,
    gave_up ts secret key tr o
    ∨ ∃ s v tr1 tr2, tr = tr1 ++ tr2
        ∧ shown ts secret key tr1 s
        ∧ (∀ s' tr', tr' `prefix_of` tr → shown ts secret key tr' s' → s' = s)
        ∧ decides s v ∧ (∀ v', decides s v' → v' = v) ∧ effect ts key v tr2 o).
Proof.
  eapply wlp_mono; [apply ReconcileQuorum_stepped|].
  intros tr o [H|(s & v & tr1 & tr2 & -> & Hs & Hv & He)]; [by left|right].
  exists s, v, tr1, tr2. split_and!; try done.
  - intros s' tr' [t Et] Hs'. symmetry. by eapply shown_unique.
  - intros v' Hv'. by eapply (proj2 (decides_functional s)).
Qed.

(** *** Consequences of every step *)

Definition reasons : list string :=
  [ConditionReasonQuorumNotReady; ConditionReasonQuorumNotReadyWaitATerm;
   ConditionReasonQuorumDowngraded; ConditionReasonQuorumUpgraded;
   ConditionReasonQuorumQueuedWrites; ConditionReasonQuorumReady;
   ConditionReasonStatefulSetNotReady;
   ConditionReasonQuorumNeedsAttentionClusterIsLagging].
Definition known_reason (o : outcome quorum_result) : Prop :=
  match o with Done (c, _, _) => c ∈ reasons | Panicked _ => True end.

Lemma known_of c n e : bool_decide (c ∈ reasons) = true → known_reason (Done (c, n, e)).
Proof. apply bool_decide_eq_true. Qed.
Lemma known_failed e : known_reason (Done (not_ready e)).
Proof. by apply known_of. Qed.
Lemma scales_known n reason tr o :
  bool_decide (reason ∈ reasons) = true → scales key n reason tr o → known_reason o.
Proof.
  intros Hr (_ & _ & H). destruct o as [[[c size] e]|w]; [|done].
  destruct H as [[-> _]|[-> _]]; by apply known_of.
Qed.
Lemma ReconcileQuorum_known : wlp (ReconcileQuorum r ts secret key) (λ _ o, known_reason o).
Proof.
  eapply wlp_mono; [apply ReconcileQuorum_stepped|].
  intros tr o [H|(s & v & tr1 & tr2 & _ & _ & Hv & He)].
  { destruct H; first [done|apply known_failed|by apply known_of]. }
  destruct Hv; cbn in He;
    try (destruct He as [_ ->]; by apply known_of).
  - destruct He as [_ [e ->]]. apply known_failed.
  - destruct He as [He _]. by eapply scales_known; [|exact He].
  - destruct He as [He _]. by eapply scales_known; [|exact He].
  - destruct He as [_ [[_ ->]|[_ [e ->]]]]; [by apply known_of|apply known_failed].
  - by destruct He as [_ [w ->]].
  - destruct He as [_ [(e & _ & ->)|(sts & _ & He)]]; [apply known_failed|].
    by eapply scales_known; [|exact He].
Qed.

Lemma ReconcileQuorum_updates :
  wlp (ReconcileQuorum r ts secret key) (λ tr _,
    quiet tr ∨ scaled_to key 1 tr ∨ ∃ sts, scaled_to key (upgrade_size ts sts) tr).
Proof.
  eapply wlp_mono; [apply ReconcileQuorum_stepped|].
  intros tr o [H|(s & v & tr1 & tr2 & -> & Hs & Hv & He)]; [left; by eapply gave_up_quiet|].
  apply shown_quiet in Hs.
  destruct v; cbn in He; try (left; destruct He as [He _]; apply quiet_app; [done|by subst]).
  - destruct He as [[[He|He] _] _]; [left; by apply quiet_app|right; left].
    by apply scaled_to_r.
  - destruct He as [_ [(e & -> & _)|(sts & _ & [He|He] & _)]]; [left; by apply quiet_app..|].
    right; right. exists sts. by apply scaled_to_r.
Qed.

(** Nodes are healthy after healthy answers only. *)
Lemma gates_answered nodes healths tr :
  polled (gate_shown r ts (probe_timeout ts)) nodes healths tr →
  length (filter (λ b, b = true) healths) ≤ healthy_answers tr.
Proof.
  induction 1 as [|nl b tr l bs tr' (t1 & t2 & Hh & _ & ->) _ IH]; [by vm_compute|].
  rewrite !healthy_answers_app, filter_cons.
  assert (b = true → 1 ≤ healthy_answers t1).
  { destruct Hh as [|node logs u answer _]; [done|]. unfold health_read, healthy_answers.
    destruct answer as [resp|e]; [|done]. rewrite filter_cons. simpl.
    destruct (hr_Body resp); [|done]. case_match; [|done].
    destruct (health_Ok _); [|done]. intros _. simpl. lia. }
  destruct b; [rewrite decide_True by done|rewrite decide_False by done]; simpl; lia.
Qed.
Lemma shown_answered tr s :
  shown ts secret key tr s →
  (si_healthy s ≤ Z.of_nat (healthy_answers tr))%Z
  ∧ ∃ sts, fetched key tr sts
      ∧ si_required s = getMinimumRequiredNodes (st_Replicas (sts_Status sts)).
Proof.
  assert (∀ sts q lag nodes statuses tr, inquired ts secret key sts q lag nodes statuses tr →
    fetched key tr sts
    ∧ MinRequiredNodes q = getMinimumRequiredNodes (st_Replicas (sts_Status sts))) as Hi.
  { intros ?????? [logs t1 t2 t3 t4 t5 t6 Hq _ _ _ _ _ _ _]. split; [by left|].
    by inversion Hq. }
  intros [sts q lag nodes statuses tr' [Hf Hr]%Hi s' _
         |sts q lag nodes statuses healths tr' tr'' [Hf Hr]%Hi Hg s' _]; cbn.
  - split; [lia|by exists sts].
  - apply gates_answered in Hg. rewrite healthy_answers_app. split; [lia|].
    exists sts. split; [|done]. apply fetched_app. by left.
Qed.

(** C2 [ReconcileQuorum] updates the StatefulSet at most once, and only with
    reason: the object it sends is one it read, with nothing but the number of
    replicas changed.  That number is 1 when the calls before show a split brain,
    or an election deadlock whose healthy nodes do not lag behind, and a nodes
    list without bootstrap entries; it is the size of an upgrade when they show a
    leader with enough ready nodes, fewer replicas than specified and no node
    with writes queued. *)
Theorem ReconcileQuorum_scaling :
  wlp (ReconcileQuorum r ts secret key) (λ tr _,
    sts_updates tr = []
    ∨ ∃ s tr1 tr2, tr = tr1 ++ tr2 ∧ sts_updates tr1 = [] ∧ shown ts secret key tr1 s
        ∧ ((broken s ∧ si_bootstrapping s = Some false ∧ scaled_to key 1 tr2)
           ∨ (elected s ∧ ¬ stalled s ∧ (si_queued s ≤ 0)%Z
              ∧ (∃ n, si_current s = Some n ∧ (n < si_target s)%Z)
              ∧ ∃ sts, fetched key tr2 sts ∧ scaled_to key (upgrade_size ts sts) tr2))).
Proof.
  eapply wlp_mono; [apply ReconcileQuorum_stepped|].
  intros tr o [H|(s & v & tr1 & tr2 & -> & Hs & Hv & He)]; [left; by eapply gave_up_quiet|].
  pose proof (shown_quiet _ _ _ _ _ Hs) as Hq1.
  assert (sts_updates tr2 = [] → sts_updates (tr1 ++ tr2) = []) as Hquiet
    by by apply quiet_app.
  destruct Hv; cbn in He;
    try (left; destruct He as [He _]; apply Hquiet; by subst).
  - destruct He as [[[He|He] _] _]; [left; by apply Hquiet|right].
    exists s, tr1, tr2. split_and!; try done. left. split; [by left|done].
  - destruct He as [[[He|He] _] _]; [left; by apply Hquiet|right].
    exists s, tr1, tr2. split_and!; try done. left. split; [by right|done].
  - destruct He as [_ [(e & -> & _)|(sts & Hf & [He|He] & _)]]; [left; by apply Hquiet..|right].
    exists s, tr1, tr2. split_and!; try done. right. split_and!; eauto.
Qed.

(** Only one verdict is answered with [QuorumReady]. *)
Lemma effect_ready v tr n e :
  effect ts key v tr (Done (ConditionReasonQuorumReady, n, e)) →
  v = Answer ConditionReasonQuorumReady ∧ tr = [] ∧ n = 0%Z ∧ e = None.
Proof.
  destruct v as [reason| | |purge| |]; cbn.
  - by intros [-> [= <- <- <-]].
  - by intros (_ & e' & [=]).
  - by intros (_ & w & [=]).
  - by intros [(_ & _ & [[[=] _]|[[=] _]]) _].
  - by intros [_ [(e' & _ & [=])|(sts & _ & _ & _ & [[[=] _]|[[=] _]])]].
  - by intros [_ [[_ [=]]|[_ [e' [=]]]]].
Qed.

Lemma ReconcileQuorum_ready_shown :
  wlp (ReconcileQuorum r ts secret key) (λ tr o, ∀ n e,
    o = Done (ConditionReasonQuorumReady, n, e) →
    n = 0%Z ∧ e = None ∧ sts_updates tr = []
    ∧ ∃ s, shown ts secret key tr s
        ∧ (si_required s ≤ si_healthy s)%Z
        ∧ ¬ split s ∧ ¬ deadlocked s ∧ ¬ stalled s
        ∧ (elected s → ∃ n, si_current s = Some n ∧ (si_target s ≤ n)%Z)).
Proof.
  eapply wlp_mono; [apply ReconcileQuorum_stepped|].
  intros tr o H n e ->. destruct H as [H|(s & v & tr1 & tr2 & -> & Hs & Hv & He)].
  { by inversion H. }
  apply effect_ready in He as (-> & -> & -> & ->). rewrite app_nil_r.
  split_and!; try done; [by eapply shown_quiet|]. exists s. split; [done|].
  destruct (states_disjoint s) as [Hsplit Helected].
  inversion Hv as [| | | | | | | | | | | |n He Hst Hc Ht Hh|Hu Hst Ha Hh]; subst.
  - split_and!; [done|tauto|tauto|done|by exists n].
  - destruct Hu as (? & ? & ?). by split_and!.
Qed.

(** The same in the answers to the health requests *)
Lemma ReconcileQuorum_ready_answers :
  wlp (ReconcileQuorum r ts secret key) (λ tr o, ∀ n e,
    o = Done (ConditionReasonQuorumReady, n, e) →
    ∃ sts, fetched key tr sts
      ∧ (getMinimumRequiredNodes (st_Replicas (sts_Status sts))
         ≤ Z.of_nat (healthy_answers tr))%Z).
Proof.
  eapply wlp_mono; [apply ReconcileQuorum_ready_shown|].
  intros tr o H n e E. destruct (H n e E) as (_ & _ & _ & s & Hs & Hh & _).
  apply shown_answered in Hs as [Ha (sts & Hf & Er)]. exists sts. split; [done|]. lia.
Qed.

(** C3 When [ReconcileQuorum] answers [QuorumReady], there is no error and the
    StatefulSet was not touched; the calls of the round show at least the minimum
    of required nodes healthy (the minimum for the replicas in the status of the
    StatefulSet that was read), each by an answer to its health request that says
    so, neither a split brain nor an election deadlock, no healthy node lagging
    behind, and, if a leader is elected, no fewer replicas than specified. *)
Theorem ReconcileQuorum_ready :
  wlp (ReconcileQuorum r ts secret key) (λ tr o, ∀ n e,
    o = Done (ConditionReasonQuorumReady, n, e) →
    n = 0%Z ∧ e = None ∧ sts_updates tr = []
    ∧ ∃ s, shown ts secret key tr s
        ∧ (si_required s ≤ si_healthy s)%Z
        ∧ ¬ split s ∧ ¬ deadlocked s ∧ ¬ stalled s
        ∧ (elected s → ∃ n, si_current s = Some n ∧ (si_target s ≤ n)%Z)
        ∧ (si_healthy s ≤ Z.of_nat (healthy_answers tr))%Z
        ∧ ∃ sts, fetched key tr sts
            ∧ si_required s = getMinimumRequiredNodes (st_Replicas (sts_Status sts))).
Proof.
  eapply wlp_mono; [apply ReconcileQuorum_ready_shown|].
  intros tr o H n e Ho. destruct (H n e Ho) as (? & ? & ? & s & Hs & ? & ? & ? & ? & ?).
  destruct (shown_answered tr s Hs) as [? ?]. split_and!; try done. exists s. by split_and!.
Qed.

(** C38 [ReconcileQuorum] never reports that memory or disk needs attention,
    whatever the nodes answer: the reason [NodeNotRecoverable] that
    [calculatePodReadinessGate] assigns to a node out of memory or disk is
    overwritten before it is returned. *)
Theorem ReconcileQuorum_no_resource_alarm :
  wlp (ReconcileQuorum r ts secret key) (λ _ o, ∀ n e,
    o ≠ Done (ConditionReasonQuorumNeedsAttentionMemoryOrDiskIssue, n, e)).
Proof.
  eapply wlp_mono; [apply ReconcileQuorum_known|].
  intros tr o Hr n e ->. revert Hr.
  change (ConditionReasonQuorumNeedsAttentionMemoryOrDiskIssue ∉ reasons).
  by eapply bool_decide_eq_false.
Qed.
End Refinement.
End Effects.
