(* ===== verification/NodesTheory.v ===== *)
(** * Theorems on decoding the nodes' answers (QuorumHelpers, GoJson)

    The parser never runs out of fuel, and a status as Typesense prints it is
    read back exactly. *)
From S2P Require Import Prelude GoLib GoNet GoJson K8s Api Effects Hoare External Concrete.
From S2P Require Import Utils Conditions StatefulSetOps ConfigMap QuorumHelpers Quorum.
From S2P Require Import UtilsTheory QuorumTheory.
From Stdlib Require Import Ascii.
From Stdlib Require String.

#[local] Arguments String.append : simpl nomatch.
#[local] Arguments Ascii.eqb : simpl never.

(** ** Enough fuel *)

Notation len := String.length.

(** A parser did not run out of fuel, and read something. *)
Definition reads {A} (s : string) (p : parsed A) : Prop :=
  match p with Parsed _ rest => len rest < len s | BadSyntax => True | NoFuel => False end.

Lemma reads_le {A} (s t : string) (p : parsed A) : reads s p → len s ≤ len t → reads t p.
Proof. destruct p; simpl; [lia|done|done]. Qed.

Lemma skip_ws_le s : len (skip_ws s) ≤ len s.
Proof. induction s as [|c s IH]; simpl; [lia|]. case_match; simpl; lia. Qed.
Lemma drop_str_le n s : len (drop_str n s) ≤ len s - n.
Proof.
  revert s. induction n as [|n IH]; intros [|c s]; simpl; try lia. apply IH.
Qed.
Lemma u4_le s r rest : u4 s = Some (r, rest) → len rest < len s.
Proof.
  unfold u4. intros H. do 4 (destruct s as [|? s]; [done|]). simpl in *.
  repeat match type of H with
    | (?x ≫= _) = _ => destruct x; simpl in H; [|done]
    end. injection H as <- <-. lia.
Qed.

Lemma parse_string_reads f acc s : len s < f → reads s (parse_string f acc s).
Proof.
  revert acc s. induction f as [|f IH]; intros acc s Hf; [lia|].
  assert (∀ acc t, len t < len s → reads s (parse_string f acc t)) as IH'.
  { intros a t Ht. eapply reads_le; [apply IH; lia|lia]. }
  cbn [parse_string]. destruct s as [|c s]; [done|]. simpl in Hf, IH'. cbv zeta.
  case_match; [simpl; lia|]. case_match; [done|]. case_match.
  - destruct (utf8_len (String c s)) eqn:E; apply IH'; simpl; [lia|].
    pose proof (drop_str_le n s). lia.
  - destruct s as [|e s]; [done|]. simpl in IH'.
    repeat (case_match; [apply IH'; lia|]). case_match; [|done].
    destruct (u4 s) as [[r rest]|] eqn:E4; [|done]. apply u4_le in E4.
    case_match; [apply IH'; lia|].
    destruct rest as [|b1 [|b2 rest2]]; try (apply IH'; simpl in *; lia).
    destruct (if _ && _ then u4 rest2 else None) as [[r2 rest3]|] eqn:E5; [|apply IH'; simpl in *; lia].
    assert (len rest3 < len rest2) by (case_match; [by eapply u4_le|done]).
    destruct (_ && (r2 <=? _)%Z); apply IH'; simpl in *; lia.
Qed.

Lemma span_digits_le s : len (span_digits s).2 ≤ len s
  ∧ ((span_digits s).1 ≠ "" → len (span_digits s).2 < len s).
Proof.
  induction s as [|c s [IH _]]; simpl; [split; [lia|done]|].
  destruct (is_digit c); [|simpl; split; [lia|done]].
  destruct (span_digits s) as [d r]. simpl in *. lia.
Qed.

Lemma parse_number_reads s : reads s (parse_number s).
Proof.
  unfold parse_number.
  destruct (match s with String c s' => _ | "" => _ end) as [sign s1] eqn:E1.
  assert (len s1 ≤ len s) as H1.
  { destruct s; [by injection E1 as <- <-|]. case_match; injection E1 as <- <-; simpl; lia. }
  clear E1.
  destruct (match s1 with String c s' => _ | "" => _ end) as [int s2] eqn:E2.
  destruct (String.eqb_spec int "") as [|Hi]; [done|].
  assert (len s2 < len s1) as H2.
  { destruct s1 as [|c s1]; [by injection E2 as <- <-|].
    destruct (Ascii.eqb c "0"); [injection E2 as <- <-; simpl; lia|].
    pose proof (span_digits_le (String c s1)) as [_ H]. rewrite E2 in H. by apply H. }
  clear E2.
  destruct (match s2 with String c s' => _ | "" => _ end) as [[frac s3] ok] eqn:E3.
  assert (len s3 ≤ len s2) as H3.
  { destruct s2 as [|c s2]; [by injection E3 as <- <- <-|].
    destruct (Ascii.eqb c "."); [|by injection E3 as <- <- <-].
    pose proof (span_digits_le s2) as [H _]. destruct (span_digits s2) as [d r].
    injection E3 as <- <- <-. simpl in *. lia. }
  clear E3. destruct (negb ok); [done|].
  destruct s3 as [|c s3]; [simpl in *; lia|].
  destruct (_ || _); [|simpl in *; lia].
  destruct (match s3 with String c' s'' => _ | "" => _ end) as [sg s4] eqn:E4.
  assert (len s4 ≤ len s3) as H4.
  { destruct s3; [by injection E4 as <- <-|]. case_match; injection E4 as <- <-; simpl; lia. }
  pose proof (span_digits_le s4) as [H5 _]. destruct (span_digits s4) as [d r].
  destruct (String.eqb d ""); simpl in *; [done|lia].
Qed.

Lemma expect_reads lit v s : lit ≠ "" → reads s (expect lit v s).
Proof.
  intros Hl. unfold expect. destruct (String.prefix lit s) eqn:E; [|done]. simpl.
  apply prefix_app_inv in E as [t ->]. rewrite drop_str_app, length_str_app.
  destruct lit; [done|]. simpl. lia.
Qed.

(** A value needs twice its length: a helper is entered with what follows an
    opening bracket, and it calls [parse_value] on that same text. *)
Lemma parse_value_reads f :
  (∀ s, 2 * len s + 2 ≤ f → reads s (parse_value f s))
  ∧ (∀ s, 2 * len s + 3 ≤ f → reads s (parse_elements f s))
  ∧ (∀ acc s, 2 * len s + 3 ≤ f → reads s (parse_members f acc s)).
Proof.
  induction f as [|f (IHv & IHe & IHm)]; [split_and!; intros; lia|]. split_and!.
  - intros s Hf. cbn [parse_value]. pose proof (skip_ws_le s) as Hw.
    destruct (skip_ws s) as [|c s'] eqn:Es; [done|]. simpl in Hw.
    apply (reads_le (String c s')); [|simpl; lia].
    pose proof (skip_ws_le s') as Hw'.
    case_match.
    { assert (reads (String c s') (parse_members f [] s')) as Hm.
      { eapply reads_le; [apply IHm; lia|simpl; lia]. }
      destruct (skip_ws s') as [|a rest]; [exact Hm|].
      destruct (Ascii.eqb_spec a "}") as [->|Ha]; [simpl in *; lia|].
      destruct a as [[] [] [] [] [] [] [] []]; try exact Hm; done. }
    case_match.
    { assert (reads (String c s') (parse_elements f s')) as Hm.
      { eapply reads_le; [apply IHe; lia|simpl; lia]. }
      destruct (skip_ws s') as [|a rest]; [exact Hm|].
      destruct (Ascii.eqb_spec a "]") as [->|Ha]; [simpl in *; lia|].
      destruct a as [[] [] [] [] [] [] [] []]; try exact Hm; done. }
    case_match.
    { pose proof (parse_string_reads f [] s' ltac:(lia)) as Hs.
      destruct (parse_string f [] s'); simpl in *; lia || done. }
    case_match; [by apply expect_reads|]. case_match; [by apply expect_reads|].
    case_match; [by apply expect_reads|].
    pose proof (parse_number_reads (String c s')) as Hn. by destruct (parse_number _).
  - intros s Hf. cbn [parse_elements].
    pose proof (IHv s ltac:(lia)) as Hv. destruct (parse_value f s) as [v rest| |]; [|done..].
    simpl in Hv. pose proof (skip_ws_le rest) as Hw.
    destruct (skip_ws rest) as [|c rest']; [done|]. simpl in Hw.
    case_match; [eapply reads_le; [apply IHe; lia|lia]|]. case_match; simpl; [lia|done].
  - intros acc s Hf. cbn [parse_members]. pose proof (skip_ws_le s) as Hw.
    destruct (skip_ws s) as [|q s']; [done|]. simpl in Hw. case_match; [done|].
    pose proof (parse_string_reads f [] s' ltac:(lia)) as Hs.
    destruct (parse_string f [] s') as [key rest| |]; [|done..]. simpl in Hs.
    pose proof (skip_ws_le rest) as Hw2.
    destruct (skip_ws rest) as [|c rest']; [done|]. simpl in Hw2. case_match; [done|].
    pose proof (IHv rest' ltac:(lia)) as Hv.
    destruct (parse_value f rest') as [v rest2| |]; [|done..]. simpl in Hv.
    pose proof (skip_ws_le rest2) as Hw3.
    destruct (skip_ws rest2) as [|c2 rest3]; [done|]. simpl in Hw3.
    case_match; [eapply reads_le; [apply IHm; lia|lia]|]. case_match; simpl; [lia|done].
Qed.

(** [parse_json] decides: it fails on a syntax error or trailing text only. *)
Lemma parse_json_fuel s : parse_value (2 * len s + 2) s ≠ NoFuel.
Proof. intros E. pose proof (proj1 (parse_value_reads _) s (le_n _)) as H. by rewrite E in H. Qed.

(** ** Printing flat objects *)

Definition dq : string := String (ascii_of_nat 34) "".
Definition quoted (s : string) : string := dq +:+ s +:+ dq.
Definition print_scalar (v : json) : string :=
  match v with
  | JNull => "null"
  | JBool b => format_bool b
  | JNum lit => lit
  | JStr s => quoted s
  | JArr | JObj _ => ""
  end.
Fixpoint print_members (ms : list (string * json)) : string :=
  match ms with
  | [] => ""
  | (k, v) :: ms' =>
      quoted k +:+ ":" +:+ print_scalar v
      +:+ match ms' with [] => "" | _ => "," +:+ print_members ms' end
  end.
Definition print_object (ms : list (string * json)) : string :=
  "{" +:+ print_members ms +:+ "}".

(** Characters that stand for themselves in a string literal *)
Definition plain_char (c : ascii) : bool :=
  (32 <=? byte_val c)%Z && (byte_val c <? 128)%Z && negb (byte_val c =? 34)%Z
  && negb (byte_val c =? 92)%Z.
Fixpoint plain (s : string) : bool :=
  match s with EmptyString => true | String c s' => plain_char c && plain s' end.
Definition scalar_ok (v : json) : Prop :=
  match v with
  | JNull | JBool _ => True
  | JNum lit => ∃ z, lit = itoa z
  | JStr s => plain s = true
  | JArr | JObj _ => False
  end.
Definition member_ok (m : string * json) : Prop := plain m.1 = true ∧ scalar_ok m.2.

(** What may follow a value in an object *)
Definition ends_value (c : ascii) : bool := Ascii.eqb c "," || Ascii.eqb c "}".

Lemma concat_reverse_cons x acc :
  String.concat "" (reverse (x :: acc)) = String.concat "" (reverse acc) +:+ x.
Proof.
  rewrite reverse_cons. generalize (reverse acc). intros l.
  induction l as [|y l IH]; [by simpl; rewrite ?str_app_nil_r|].
  destruct l as [|z l]; [done|]. simpl in *. by rewrite IH, !str_app_assoc.
Qed.

Lemma parse_string_plain f acc s rest :
  plain s = true → len s < f →
  parse_string f acc (s +:+ dq +:+ rest) = Parsed (String.concat "" (reverse acc) +:+ s) rest.
Proof.
  revert f acc. induction s as [|c s IH]; intros [|f] acc Hp Hf; simpl in Hf; try lia.
  - simpl. by rewrite str_app_nil_r.
  - simpl in Hp. apply andb_true_iff in Hp as [Hc Hp]. unfold plain_char in Hc. bool_to_prop.
    change (String c s +:+ dq +:+ rest) with (String c (s +:+ dq +:+ rest)).
    cbn [parse_string]. cbv zeta.
    rewrite (proj2 (Z.eqb_neq (byte_val c) 34)), (proj2 (Z.ltb_ge (byte_val c) 32)),
      (proj2 (Z.eqb_neq (byte_val c) 92)) by done. cbn [negb].
    assert (utf8_len (String c (s +:+ dq +:+ rest)) = 1) as ->.
    { unfold utf8_len. by rewrite (proj2 (Z.ltb_lt (byte_val c) 128)). }
    cbn [take_str drop_str]. rewrite IH by (done || lia).
    rewrite concat_reverse_cons, str_app_assoc. done.
Qed.
Lemma parse_string_quoted f s rest :
  plain s = true → len s < f → parse_string f [] (s +:+ dq +:+ rest) = Parsed s rest.
Proof. intros. by rewrite parse_string_plain. Qed.

(** *** Numbers *)
Lemma span_digits_app d rest c :
  (∀ a, has_char a d = true → is_digit a = true) → is_digit c = false →
  span_digits (d +:+ String c rest) = (d, String c rest).
Proof.
  intros Hd Hc. induction d as [|a d IH].
  - simpl. by rewrite Hc.
  - simpl. rewrite Hd by (simpl; by rewrite Ascii.eqb_refl).
    rewrite IH; [done|]. intros b Hb. apply Hd. simpl. by rewrite Hb, orb_true_r.
Qed.

(** The text of a positive number starts with a digit other than zero. *)
Lemma pretty_N_go_head x s :
  (0 < x)%N → ∃ c t, pretty_N_go x s = String c t ∧ is_digit c = true ∧ Ascii.eqb c "0" = false.
Proof.
  revert s. induction (N.lt_wf_0 x) as [x _ IH]; intros s Hx.
  rewrite pretty_N_go_step by done.
  destruct (decide (x < 10)%N) as [Hl|Hl].
  - rewrite N.div_small, pretty_N_go_0, N.mod_small by done.
    assert (x = 1 ∨ x = 2 ∨ x = 3 ∨ x = 4 ∨ x = 5 ∨ x = 6 ∨ x = 7 ∨ x = 8 ∨ x = 9)%N as Hc by lia.
    repeat destruct Hc as [->|Hc]; try subst; by do 2 eexists.
  - apply IH; [by apply N.div_lt|]. apply N.div_str_pos. lia.
Qed.
Lemma pretty_N_digits (x : N) a : has_char a (pretty_N_go x "") = true → is_digit a = true.
Proof.
  enough (∀ s, has_char a (pretty_N_go x s) = true → is_digit a = true ∨ has_char a s = true) as H.
  { intros Ha. by apply H in Ha as [?|?]. }
  induction (N.lt_wf_0 x) as [x _ IH]; intros s.
  assert (x = 0 ∨ 0 < x)%N as [->|Hx] by lia; [rewrite pretty_N_go_0; auto|].
  rewrite pretty_N_go_step by done. intros [?|H]%IH; [by left| |by apply N.div_lt].
  simpl in H. apply orb_true_iff in H as [H|H]; [left|by right].
  apply Ascii.eqb_eq in H as <-. unfold is_digit. by rewrite pretty_N_char_val by (by apply N.mod_lt).
Qed.

(** The integer part of a number literal *)
Definition int_text (d : string) : Prop :=
  d = "0" ∨ ∃ a t, d = String a t ∧ is_digit a = true ∧ Ascii.eqb a "0" = false
    ∧ ∀ b, has_char b d = true → is_digit b = true.
Lemma int_text_pretty (x : N) : int_text (pretty x).
Proof.
  unfold pretty, pretty_N. case_decide as Hx; [by left|right].
  destruct (pretty_N_go_head x "") as (a & t & E & Ha & Hz); [lia|].
  exists a, t. split_and!; try done. intros b. apply pretty_N_digits.
Qed.

Lemma ends_value_cases c :
  ends_value c = true → c = ","%char ∨ c = "}"%char.
Proof. unfold ends_value. intros [H|H]%orb_true_iff; apply Ascii.eqb_eq in H; auto. Qed.

Lemma parse_number_itoa z c rest :
  ends_value c = true →
  parse_number (itoa z +:+ String c rest) = Parsed (itoa z) (String c rest).
Proof.
  intros Hc.
  assert (∀ d, int_text d →
    (match d +:+ String c rest with
     | String a s' => if Ascii.eqb a "0" then ("0", s') else span_digits (d +:+ String c rest)
     | "" => ("", "") end) = (d, String c rest) ∧ d ≠ ""
     ∧ ∃ a t, d = String a t ∧ Ascii.eqb a "-" = false) as Hint.
  { intros d [->|(a & t & -> & Ha & Hz & Hd)]; [by split_and!; try done; do 2 eexists|].
    split_and!; [|done|].
    - change (String a t +:+ String c rest) with (String a (t +:+ String c rest)). cbv iota.
      rewrite Hz. change (String a (t +:+ String c rest)) with (String a t +:+ String c rest).
      apply span_digits_app; [done|]. by apply ends_value_cases in Hc as [-> | ->].
    - exists a, t. split; [done|]. destruct (Ascii.eqb_spec a "-"); [by subst|done]. }
  assert (∃ sign x, itoa z = sign +:+ pretty (x : N) ∧ (sign = "" ∨ sign = "-")) as (sign & x & -> & Hs).
  { destruct z as [|p|p].
    - exists "", 0%N. auto.
    - exists "", (Npos p). auto.
    - exists "-", (Npos p). auto. }
  destruct (Hint _ (int_text_pretty x)) as (E & Hne & a & t & Ea & Hm).
  unfold parse_number.
  assert ((match (sign +:+ pretty x) +:+ String c rest with
           | String b s' => if Ascii.eqb b "-" then ("-", s') else ("", (sign +:+ pretty x) +:+ String c rest)
           | "" => ("", (sign +:+ pretty x) +:+ String c rest) end)
          = (sign, pretty x +:+ String c rest)) as ->.
  { destruct Hs as [-> | ->]; [|done].
    change ("" +:+ pretty x) with (pretty x). rewrite Ea.
    change (String a t +:+ String c rest) with (String a (t +:+ String c rest)). cbv iota.
    by rewrite Hm. }
  cbv beta iota. rewrite E. cbv beta iota.
  destruct (String.eqb_spec (pretty x) ""); [done|].
  assert (∀ v, Parsed (sign +:+ pretty x +:+ "") v = Parsed (sign +:+ pretty x) v) as Hnil
    by (intros; by rewrite str_app_nil_r).
  apply ends_value_cases in Hc as [-> | ->]; exact (Hnil _).
Qed.

(** *** Values *)
(** The first character of a printed number is none of those that start
    something else. *)
Lemma itoa_head z : ∃ a t, itoa z = String a t ∧ is_num_char a = true.
Proof.
  assert (∀ x : N, ∃ a t, pretty x = String a t ∧ is_num_char a = true) as HN.
  { intros x. destruct (int_text_pretty x) as [->|(a & t & -> & Ha & _)]; [by do 2 eexists|].
    exists a, t. split; [done|]. unfold is_num_char, is_digit in *. by destruct (digit_val a). }
  destruct z as [|p|p]; [apply (HN 0%N)|apply (HN (Npos p))|by do 2 eexists].
Qed.

Lemma num_char_other a c :
  is_num_char a = true → is_num_char c = false → Ascii.eqb a c = false.
Proof. intros Ha Hc. destruct (Ascii.eqb_spec a c); [congruence|done]. Qed.

Lemma parse_value_scalar f v c rest :
  scalar_ok v → ends_value c = true → len (print_scalar v) < f →
  parse_value f (print_scalar v +:+ String c rest) = Parsed v (String c rest).
Proof.
  intros Hv Hc Hf. destruct f as [|f]; [lia|].
  destruct v as [|b|lit|s| |]; [done| | | |done..]; cbn [print_scalar] in *.
  - by destruct b.
  - destruct Hv as [z ->]. pose proof (parse_number_itoa z c rest Hc) as E.
    destruct (itoa_head z) as (a & t & Ea & Hn). rewrite Ea in *.
    change (String a t +:+ String c rest) with (String a (t +:+ String c rest)) in *.
    assert (skip_ws (String a (t +:+ String c rest)) = String a (t +:+ String c rest)) as Ew.
    { assert (48 ≤ byte_val a ∨ byte_val a = 45)%Z as Hb.
      { unfold is_num_char, digit_val in Hn. case_match eqn:Ed; [case_match; [bool_to_prop; by left|done]|].
        apply Ascii.eqb_eq in Hn as ->. by right. }
      simpl. rewrite !(proj2 (Z.eqb_neq _ _)) by lia. done. }
    cbn [parse_value]. cbv zeta. rewrite Ew.
    rewrite !(num_char_other a) by done.
    assert ((byte_val a =? 34)%Z = false) as ->.
    { apply Z.eqb_neq. intros Hb. unfold is_num_char, digit_val, byte_val in *.
      rewrite Hb in Hn. simpl in Hn. apply Ascii.eqb_eq in Hn as ->. done. }
    by rewrite E.
  - assert (quoted s +:+ String c rest = String (ascii_of_nat 34) (s +:+ dq +:+ String c rest)) as ->.
    { unfold quoted. by rewrite !str_app_assoc. }
    assert (len s < f) by (unfold quoted in Hf; rewrite !length_str_app in Hf; simpl in Hf; lia).
    change (match parse_string f [] (s +:+ dq +:+ String c rest) with
            | Parsed str rest => Parsed (JStr str) rest
            | BadSyntax => BadSyntax | NoFuel => NoFuel end = Parsed (JStr s) (String c rest)).
    by rewrite (parse_string_quoted f s (String c rest)).
Qed.

(** One member, once its key and its value are parsed *)
Lemma parse_members_step f acc k t v c rest :
  plain k = true → len k < f → ends_value c = true →
  parse_value f t = Parsed v (String c rest) →
  parse_members (S f) acc (quoted k +:+ ":" +:+ t) =
  if Ascii.eqb c "," then parse_members f (acc ++ [(k, v)]) rest
  else Parsed (JObj (acc ++ [(k, v)])) rest.
Proof.
  intros Hk Hf Hc Hv.
  assert (quoted k +:+ ":" +:+ t = String (ascii_of_nat 34) (k +:+ dq +:+ String ":" t)) as ->.
  { unfold quoted. by rewrite !str_app_assoc. }
  transitivity (match parse_string f [] (k +:+ dq +:+ String ":" t) with
    | BadSyntax => BadSyntax
    | NoFuel => NoFuel
    | Parsed key rest => match skip_ws rest with
      | String c rest' =>
          if negb (Ascii.eqb c ":") then BadSyntax
          else match parse_value f rest' with
          | Parsed v rest2 => match skip_ws rest2 with
            | String c2 rest3 =>
                if Ascii.eqb c2 "," then parse_members f (acc ++ [(key, v)]) rest3
                else if Ascii.eqb c2 "}" then Parsed (JObj (acc ++ [(key, v)])) rest3
                else BadSyntax
            | EmptyString => BadSyntax
            end
          | other => other
          end
      | EmptyString => BadSyntax
      end
    end); [done|].
  rewrite (parse_string_quoted f k) by done.
  change (skip_ws (String ":" t)) with (String ":" t). cbv beta iota.
  change (negb (Ascii.eqb ":" ":")) with false. cbv iota. rewrite Hv.
  by apply ends_value_cases in Hc as [-> | ->].
Qed.

Lemma parse_members_print f acc ms rest :
  ms ≠ [] → Forall member_ok ms → len (print_members ms) < f →
  parse_members f acc (print_members ms +:+ String "}" rest) = Parsed (JObj (acc ++ ms)) rest.
Proof.
  intros Hne Hms. revert f acc.
  induction Hms as [|[k v] ms [Hk Hv] Hms IH]; [done|]. intros [|f] acc Hf; [lia|].
  simpl in Hk, Hv.
  set (tail := match ms with [] => "" | _ => "," +:+ print_members ms end).
  assert (print_members ((k, v) :: ms) = quoted k +:+ ":" +:+ print_scalar v +:+ tail) as E by done.
  rewrite E in *. unfold quoted in *. rewrite !length_str_app in Hf. simpl in Hf.
  assert (∃ c t, tail +:+ String "}" rest = String c t ∧ ends_value c = true) as (c & t & Et & Hc).
  { unfold tail. destruct ms; [by exists "}"%char, rest|]. by eexists ","%char, _. }
  assert (((dq +:+ k +:+ dq) +:+ ":" +:+ print_scalar v +:+ tail) +:+ String "}" rest
    = quoted k +:+ ":" +:+ (print_scalar v +:+ String c t)) as ->.
  { unfold quoted. rewrite <-Et, !str_app_assoc. done. }
  rewrite (parse_members_step f acc k _ v c t); [|done|lia|done|
    by apply parse_value_scalar; (done || lia)].
  unfold tail in *. destruct ms as [|m ms].
  - injection Et as <- <-. done.
  - change (("," +:+ print_members (m :: ms)) +:+ String "}" rest)
      with (String "," (print_members (m :: ms) +:+ String "}" rest)) in Et.
    injection Et as <- <-. change (Ascii.eqb "," ",") with true. cbv iota.
    rewrite IH; [by rewrite <-app_assoc|done|].
    rewrite length_str_app in Hf. simpl in Hf. simpl. lia.
Qed.

(** A printed object is parsed back. *)
Lemma parse_json_object ms :
  ms ≠ [] → Forall member_ok ms → parse_json (print_object ms) = Some (JObj ms).
Proof.
  intros Hne Hms. unfold parse_json, print_object.
  replace (2 * len ("{" +:+ print_members ms +:+ "}") + 2)
    with (S (2 * len (print_members ms) + 5))
    by (rewrite !length_str_app; simpl; lia).
  assert (∃ s, print_members ms +:+ "}" = String (ascii_of_nat 34) s) as [s Es].
  { destruct ms as [|[k v] ms']; [done|]. by eexists. }
  transitivity (match parse_members (2 * len (print_members ms) + 5) [] (print_members ms +:+ "}") with
    | Parsed v rest => if String.eqb (skip_ws rest) "" then Some v else None
    | _ => None
    end); [by rewrite Es|].
  rewrite (parse_members_print _ [] ms "") by (done || lia). done.
Qed.

(** ** The answers of a node *)

Definition health_json (ok : bool) (resource_error : option string) : string :=
  print_object (("ok", JBool ok)
    :: match resource_error with Some e => [("resource_error", JStr e)] | None => [] end).

Lemma unmarshal_health ok e :
  (∀ m, e = Some m → plain m = true) →
  unmarshal NodeHealth_fields NodeHealth_zero (health_json ok e) =
  Some {| health_Ok := ok; ResourceError := e |}.
Proof.
  intros He. unfold unmarshal, health_json. rewrite parse_json_object; [|done|].
  - by destruct e.
  - destruct e as [m|]; repeat constructor; simpl; eauto.
Qed.

Section Nodes.
Context `{L : Libs} (r : Reconciler).

(** A request was answered with this text. *)
Definition answered (tr : trace) (body : string) : Prop := ∃ e, e ∈ tr ∧ http_body e = Some body.
Lemma answered_one e body : answered [e] body ↔ http_body e = Some body.
Proof.
  unfold answered. split; [|intros; exists e; set_solver]. by intros (e' & ->%list_elem_of_singleton & ?).
Qed.
Lemma answered_nil body : ¬ answered [] body.
Proof. by intros (e & H%not_elem_of_nil & _). Qed.




(** C21 A node counts as healthy only on its own word: [getNodeHealth] reports
    ok only if it got an answer that says so and the log holds no fatal message,
    it reads an answer as Typesense prints it exactly, and it returns an error
    only when the URL cannot be built, without asking. *)
Theorem getNodeHealth_reads_health client node ts logs :
  wlp (getNodeHealth r client node ts logs) (λ tr o, ∃ h err, o = Done (h, err)
    ∧ (health_Ok h = true →
         inspectPodLogs logs ErrorsRequirePodTermination = false
         ∧ ∃ body d, answered tr body ∧ health_Ok d = true
             ∧ unmarshal NodeHealth_fields NodeHealth_zero body = Some d)
    ∧ (∀ ok e, answered tr (health_json ok e) → (∀ m, e = Some m → plain m = true) →
         h = {| health_Ok := ok && negb (inspectPodLogs logs ErrorsRequirePodTermination);
                ResourceError := e |})
    ∧ (is_Some err → tr = [] ∧ h = NodeHealth_zero)).
Proof.
  unfold getNodeHealth. cbv zeta. wlp_steps; eexists _, _; (split; [reflexivity|]).
  all: try (split_and!; [done| |by (intros [? [=]] || intros _)];
    intros ok re [ev [He Hb]] Hp; exfalso; revert He Hb;
    first [by intros ?%not_elem_of_nil
          | intros ->%list_elem_of_singleton; simpl; rewrite_eqs; intros [=]; subst;
            pose proof (unmarshal_health ok re Hp); congruence]).
  split_and!.
  - destruct (health_Ok n) eqn:En; cbn [andb]; [|congruence].
    destruct (inspectPodLogs logs ErrorsRequirePodTermination); [done|]. intros _. split; [done|].
    do 2 eexists. split_and!; [apply answered_one; simpl; rewrite_eqs; reflexivity|done|done].
  - intros ok e [e' [->%list_elem_of_singleton Hb]] Hp. simpl in Hb. revert Hb. rewrite_eqs.
    intros [= ->]. rewrite (unmarshal_health ok e Hp) in *. simplify_eq. cbn [health_Ok ResourceError].
    by destruct ok, (inspectPodLogs logs ErrorsRequirePodTermination).
  - by intros [? [=]].
Qed.
End Nodes.
