(* ===== verification/SafetyTheory.v ===== *)
(** * Absence of panics (Quorum, ConfigMap, StatefulSetOps)

    Nil pointers and indices out of range are panics of the model; here the
    quorum reconciler is shown to have none, as long as the StatefulSets it
    reads have the fields the API server fills in. *)
From S2P Require Import Prelude GoLib GoNet K8s Api Effects Hoare External Utils Conditions.
From S2P Require Import StatefulSetOps ConfigMap QuorumHelpers Quorum QuorumTheory.

Section Safety.
Context `{L : Libs}.

(** The API server requires a selector and defaults the replicas. *)
Definition complete (sts : StatefulSet) : Prop :=
  is_Some (ss_Selector (sts_Spec sts)) ∧ is_Some (ss_Replicas (sts_Spec sts)).
#[export] Instance complete_dec sts : Decision (complete sts).
Proof. unfold complete. apply _. Defined.
Definition incomplete_read (tr : trace) : Prop := ∃ key sts, fetched key tr sts ∧ ¬ complete sts.
Lemma incomplete_read_app tr1 tr2 :
  incomplete_read tr1 ∨ incomplete_read tr2 → incomplete_read (tr1 ++ tr2).
Proof.
  intros [(k & s & ? & ?)|(k & s & ? & ?)]; exists k, s; (split; [|done]); apply fetched_app; auto.
Qed.

(** [p] panics only if it read an incomplete StatefulSet. *)
Definition calm {A} (p : prog A) : Prop :=
  wlp p (λ tr o, ∀ w, o = Panicked w → incomplete_read tr).

Lemma calm_ret {A} (a : A) : calm (mret a).
Proof. by apply wlp_ret. Qed.
Lemma calm_trigger {X} (c : call X) : calm (trigger c).
Proof. by apply wlp_trigger. Qed.
Lemma calm_lift {A} (a : A) : calm (lift (Done a)).
Proof. by apply wlp_lift. Qed.
Lemma calm_bind {A B} (p : prog A) (f : A → prog B) :
  calm p → (∀ a, calm (f a)) → calm (p ≫= f).
Proof.
  intros Hp Hf. eapply wlp_bind_cut; [exact Hp| |].
  - intros tr a _. eapply wlp_mono; [apply Hf|]. simpl.
    intros tr' o H w E. apply incomplete_read_app. right. by eapply H.
  - intros tr w H w' E. by eapply H.
Qed.
(** After reading a StatefulSet, it may be taken to be complete. *)
Lemma calm_get {B} key (f : result StatefulSet → prog B) :
  (∀ x, (∀ sts, x = Ok sts → complete sts) → calm (f x)) →
  calm (trigger (Get KStatefulSet key) ≫= f).
Proof.
  intros Hf. apply wlp_trigger_bind. intros x.
  assert (Decision (∀ sts, x = Ok sts → complete sts)) as [H|H].
  { destruct x as [sts|e]; [|by left].
    destruct (decide (complete sts)) as [Hc|Hc]; [left; by intros ? [= <-]|right; eauto]. }
  - eapply wlp_mono; [by apply Hf|]. simpl. intros tr o Ho w E.
    apply (incomplete_read_app [_]). right. by eapply Ho.
  - apply wlp_exec. intros tr o _ w _. destruct x as [sts|e]; [|by exfalso; apply H].
    exists key, sts. split; [left|]. intros Hc. apply H. by intros ? [= <-].
Qed.
Lemma calm_fold {A S} (f : S → A → prog S) s l :
  (∀ s a, calm (f s a)) → calm (fold_prog f s l).
Proof.
  intros H. revert s. induction l as [|a l IH]; intros s; [apply calm_ret|].
  apply calm_bind; [apply H|apply IH].
Qed.
Lemma calm_for_err {A} (f : A → prog (option error)) l :
  (∀ a, calm (f a)) → calm (for_err f l).
Proof.
  intros H. induction l as [|a l IH]; [apply calm_ret|].
  apply calm_bind; [apply H|]. intros [e|]; [apply calm_ret|apply IH].
Qed.
Lemma calm_list_pods sts : complete sts → calm (list_pods sts).
Proof. intros [[sel E] _]. unfold list_pods. rewrite E. apply calm_trigger. Qed.
End Safety.

Ltac calm_step :=
  lazymatch goal with
  | |- calm (mret _) => apply calm_ret
  | |- calm (trigger _) => apply calm_trigger
  | |- calm (list_pods _) => apply calm_list_pods; auto
  | |- calm (lift (Done _)) => apply calm_lift
  | |- calm (trigger (Get KStatefulSet _) ≫= _) => apply calm_get; intros ??
  | |- calm (GetFreshStatefulSet _ ≫= _) => unfold GetFreshStatefulSet; apply calm_get; intros ??
  | |- calm (_ ≫= _) => apply calm_bind; [|intros ?]
  | |- calm (fold_prog _ _ _) => apply calm_fold; intros ??
  | |- calm (for_err _ _) => apply calm_for_err; intros ?
  | |- calm (match ?x with _ => _ end) => destruct x eqn:?
  | |- calm (let _ := _ in _) => cbv zeta
  end; cbv beta.
Ltac calm_auto := repeat calm_step; auto with calm.
Create HintDb calm.

Section Calm.
Context `{L : Libs} (r : Reconciler).

Lemma calm_scale key n : calm (ScaleStatefulSet key n).
Proof. unfold ScaleStatefulSet. calm_auto. Qed.
Lemma calm_purge sts ts : complete sts → calm (PurgeStatefulSetPods sts ts).
Proof. intros. unfold PurgeStatefulSetPods. calm_auto. Qed.
Lemma calm_unscheduled sts : complete sts → calm (GetUnscheduledPods sts).
Proof. intros. unfold GetUnscheduledPods. calm_auto. Qed.
Lemma calm_restart pods ts : calm (RestartUnscheduledPods pods ts).
Proof. unfold RestartUnscheduledPods, delete_unscheduled. calm_auto. Qed.
Lemma calm_force ts : calm (forcePodsConfigMapUpdate ts).
Proof. unfold forcePodsConfigMapUpdate. calm_auto. Qed.
#[local] Hint Resolve calm_scale calm_purge calm_unscheduled calm_restart calm_force : calm.

Lemma calm_getNodes ts n b : calm (getNodes ts n b).
Proof.
  unfold getNodes, getEndpointSlicesForStatefulSet. rewrite Z.eqb_refl. calm_auto.
Qed.
#[local] Hint Resolve calm_getNodes : calm.
Lemma calm_updateConfigMap ts cm n b : calm (updateConfigMap ts cm n b).
Proof. unfold updateConfigMap, deleteConfigMap. calm_auto. Qed.
Lemma calm_getQuorum ts sts : complete sts → calm (getQuorum ts sts).
Proof. intros. unfold getQuorum. calm_auto. Qed.
#[local] Hint Resolve calm_updateConfigMap calm_getQuorum : calm.

Lemma calm_downgrade ts cm key h m : calm (downgradeQuorum ts cm key h m).
Proof. unfold downgradeQuorum. calm_auto. Qed.
Lemma calm_upgrade ts cm key : calm (upgradeQuorum ts cm key).
Proof. unfold upgradeQuorum. calm_auto. Qed.
Lemma calm_client ts : calm (getHttpClient r ts).
Proof. unfold getHttpClient. calm_auto. Qed.
Lemma calm_lag ts : calm (getHealthyWriteLagThreshold ts).
Proof. unfold getHealthyWriteLagThreshold, lag_threshold. calm_auto. Qed.
Lemma calm_status c ne ts secret logs : calm (getNodeStatus r c ne ts secret logs).
Proof. unfold getNodeStatus. calm_auto. Qed.
Lemma calm_health c ne ts logs : calm (getNodeHealth r c ne ts logs).
Proof. unfold getNodeHealth. calm_auto. Qed.
#[local] Hint Resolve calm_downgrade calm_upgrade calm_client calm_lag calm_status calm_health : calm.

Lemma calm_gates c ts m logs attention nh nes :
  calm (update_gates r c ts m logs attention nh nes).
Proof.
  revert attention nh. induction nes as [|ne nes IH]; intros attention nh; [apply calm_ret|].
  cbn [update_gates]. unfold calculatePodReadinessGate, updatePodReadinessGate. calm_auto.
Qed.
Lemma calm_conclude ts sts q key cs qw h : complete sts → calm (conclude ts sts q key cs qw h).
Proof. intros [_ [n E]]. unfold conclude. rewrite E. cbn [deref]. calm_auto. Qed.
#[local] Hint Resolve calm_gates calm_conclude : calm.
Lemma calm_nodes ts secret key sts q c t :
  complete sts → calm (reconcile_nodes r ts secret key sts q c t).
Proof.
  intros. unfold reconcile_nodes, evaluate_quorum, downgrade_unless_bootstrapping, gather_logs,
    gather_status, getPodLogs. calm_auto.
Qed.
#[local] Hint Resolve calm_nodes : calm.

Lemma calm_ReconcileQuorum ts secret key : calm (ReconcileQuorum r ts secret key).
Proof. unfold ReconcileQuorum. calm_auto. Qed.

(** The quorum reconciler has no panic of its own: whatever the server, the
    nodes and the stored ConfigMap answer, it panics only if a StatefulSet it
    read lacks the selector or the number of replicas, which the API server
    never leaves out. *)
Theorem ReconcileQuorum_no_panic ts secret key :
  wlp (ReconcileQuorum r ts secret key) (λ tr o,
    (∀ k sts, fetched k tr sts → complete sts) → ∃ a, o = Done a).
Proof.
  eapply wlp_mono; [apply calm_ReconcileQuorum|]. simpl. intros tr [a|w] Ho Hc; [by exists a|].
  exfalso. destruct (Ho w eq_refl) as (k & sts & Hf & Hn). by apply Hn, (Hc k).
Qed.
End Calm.
