(* ===== verification/ConfigMapTheory.v ===== *)
(** * Theorems on the nodes list (ConfigMap, QuorumHelpers)

    Which endpoints are written, when, and how the quorum reads them back. *)
From S2P Require Import Prelude GoLib GoNet GoJson K8s Api Effects Hoare External Concrete.
From S2P Require Import Utils Conditions StatefulSetOps ConfigMap QuorumHelpers Quorum.
From S2P Require Import Footprint.
From Stdlib Require Import Ascii.
From Stdlib Require String.

#[local] Arguments String.append : simpl nomatch.
#[local] Arguments Ascii.eqb : simpl never.

Section Nodes.
Context `{L : Libs}.

(** ** Bootstrap nodes *)

(** The [i]-th bootstrap endpoint *)
Definition fallback_endpoint (ts : TypesenseCluster) (i : nat) : string :=
  raft_endpoint (fallback_node_name ts i) (PeeringPort (Spec ts)) (ApiPort (Spec ts)).
Definition name_fits (ts : TypesenseCluster) (i : nat) : Prop :=
  (Z.of_nat (String.length (fallback_node_name ts i)) ≤ nodeNameLenLimit)%Z.

Lemma fallback_loop_spec ts idx nodes :
  match fallback_loop ts idx nodes with
  | Ok l => l = nodes ++ (fallback_endpoint ts <$> idx) ∧ Forall (name_fits ts) idx
  | Err _ => Exists (λ i, ¬ name_fits ts i) idx
  end.
Proof.
  revert nodes. induction idx as [|i idx IH]; intros nodes; simpl.
  { split; [by rewrite app_nil_r|constructor]. }
  destruct (Z.ltb_spec nodeNameLenLimit (Z.of_nat (String.length (fallback_node_name ts i)))).
  { left. unfold name_fits. lia. }
  specialize (IH (nodes ++ [fallback_endpoint ts i])).
  change (raft_endpoint (fallback_node_name ts i) (PeeringPort (Spec ts)) (ApiPort (Spec ts)))
    with (fallback_endpoint ts i).
  destruct (fallback_loop _ _ _) as [l|e]; [|by right].
  destruct IH as [-> IH]. split; [|by constructor]. by rewrite <-app_assoc.
Qed.

(** C9 The bootstrap list has one endpoint per replica of the specification, in
    the order of the pods' ordinals, and it is refused exactly when the host
    name of some replica is longer than 64 bytes. *)
Theorem getFallbackNodes_spec ts :
  match getFallbackNodes ts [] with
  | Ok l => l = fallback_endpoint ts <$> seq 0 (Z.to_nat (Replicas (Spec ts)))
            ∧ ∀ i, i < Z.to_nat (Replicas (Spec ts)) → name_fits ts i
  | Err _ => ∃ i, i < Z.to_nat (Replicas (Spec ts)) ∧ ¬ name_fits ts i
  end.
Proof.
  unfold getFallbackNodes.
  pose proof (fallback_loop_spec ts (seq 0 (Z.to_nat (Replicas (Spec ts)))) []) as H.
  destruct (fallback_loop _ _ _) as [l|e].
  - destruct H as [-> H]. split; [done|]. intros i Hi.
    rewrite Forall_forall in H. apply H. apply elem_of_seq. lia.
  - apply Exists_exists in H as (i & Hi & Hn). exists i. apply elem_of_seq in Hi.
    split; [lia|done].
Qed.

(** ** Writing the list *)

(** The two entries the code compares *)
Definition same_entries (cm : ConfigMap) (d : smap) : Prop :=
  map_get (cm_Data cm) "nodes" = map_get d "nodes"
  ∧ map_get (cm_Data cm) "fallback" = map_get d "fallback".

Lemma same_entries_dec cm d :
  negb (String.eqb (map_get (cm_Data cm) "nodes") (map_get d "nodes"))
  || negb (String.eqb (map_get (cm_Data cm) "fallback") (map_get d "fallback")) = false
  ↔ same_entries cm d.
Proof.
  unfold same_entries. rewrite orb_false_iff, !negb_false_iff, !String.eqb_eq. done.
Qed.

Lemma getNodes_writes ts n b : wlp (getNodes ts n b) (λ tr _, writes tr = []).
Proof. apply footprint_nil, fp_getNodes. Qed.

(** C8 [updateConfigMap] writes exactly when the list it computed differs from
    the one stored: on success with the update flag it made the single update
    that installs [nodes] and [fallback]; without the flag it wrote nothing and
    the entries are already there; the list is never empty.  When it fails, no
    ConfigMap is returned, and the only write it can have made besides a failed
    update is the deletion of the ConfigMap, when the StatefulSet is gone. *)
Theorem updateConfigMap_spec ts cm n b :
  wlp (updateConfigMap ts cm n b) (λ tr o,
    match o with
    | Done (Some c, size, updated, None) =>
        ∃ nodes fallback, nodes ≠ [] ∧ size = Z.of_nat (length nodes)
        ∧ let desired := set_cm_Data (nodes_data nodes fallback) cm in
          if (updated : bool)
          then writes tr = [WUpdate KConfigMap desired]
               ∧ ¬ same_entries cm (nodes_data nodes fallback)
          else writes tr = [] ∧ c = desired ∧ same_entries cm (nodes_data nodes fallback)
    | Done (c, size, updated, Some e) =>
        c = None ∧ size = 0%Z ∧ updated = false
        ∧ (writes tr = []
           ∨ (writes tr = [WDelete KConfigMap cm]
              ∧ ∃ err, Ev (Get KStatefulSet (stsObjectKey ts)) (Err err) ∈ tr
                  ∧ IsNotFound err = true)
           ∨ ∃ desired, Ev (Update KConfigMap desired) (Err e) ∈ tr
               ∧ writes tr = [WUpdate KConfigMap desired])
    | Done (None, _, _, None) => False
    | Panicked _ => writes tr = []
    end).
Proof.
  unfold updateConfigMap, deleteConfigMap. apply wlp_trigger_bind. intros [sts|err].
  2: { destruct (IsNotFound err) eqn:E; [|apply wlp_ret; split_and!; try done; by left].
       apply wlp_trigger_bind. intros [e|]; apply wlp_ret; split_and!; try done; right; left;
         (split; [done|]; exists err; split; [by left|done]). }
  eapply wlp_bind_cut; [apply getNodes_writes| |done].
  intros tr1 [nodes|e] Hw1.
  2: { apply wlp_ret. rewrite app_nil_r. split_and!; try done. by left. }
  eapply wlp_bind_cut; [apply getNodes_writes| |].
  2: { intros tr2 w Hw2. change (writes (tr1 ++ tr2) = []). by rewrite writes_app, Hw1, Hw2. }
  intros tr2 [fallback|e] Hw2.
  2: { apply wlp_ret. rewrite app_nil_r.
       assert (writes (Ev (Get KStatefulSet (stsObjectKey ts)) (Ok sts) :: tr1 ++ tr2) = []) as Hw.
       { change (writes (tr1 ++ tr2) = []). by rewrite writes_app, Hw1, Hw2. }
       split_and!; try done. by left. }
  assert (∀ tr3, writes (Ev (Get KStatefulSet (stsObjectKey ts)) (Ok sts) :: tr1 ++ tr2 ++ tr3)
    = writes tr3) as Hw.
  { intros tr3. change (writes (tr1 ++ tr2 ++ tr3) = writes tr3). by rewrite !writes_app, Hw1, Hw2. }
  cbv zeta. destruct (Z.eqb_spec (Z.of_nat (length nodes)) 0).
  { apply wlp_ret. rewrite (Hw []). split_and!; try done. by left. }
  assert (nodes ≠ []) as Hne by (by intros ->).
  destruct (_ || _)%bool eqn:E.
  - apply wlp_trigger_bind. intros [c|e]; apply wlp_ret; rewrite Hw.
    + exists nodes, fallback. split_and!; try done.
      intros Hs%same_entries_dec. simpl in E. congruence.
    + split_and!; try done. right; right. eexists. split; [|done].
      right. apply elem_of_app. right. apply elem_of_app. right. by left.
  - apply wlp_ret. rewrite (Hw []). exists nodes, fallback. split_and!; try done.
    by apply same_entries_dec.
Qed.

(** ** Reading the list back *)

Definition no_comma (s : string) : Prop := has_char "," s = false.

Lemma nodes_data_nodes nodes fallback : nodes_data nodes fallback !! "nodes" = Some (join_str nodes ",").
Proof. unfold nodes_data. by rewrite lookup_insert_eq. Qed.

Lemma split_nodes nodes :
  nodes ≠ [] → Forall no_comma nodes → split_on "," (join_str nodes ",") = nodes.
Proof. apply split_on_join. Qed.

Lemma contains_elem l v : is_Some (contains l v) ↔ v ∈ l.
Proof.
  induction l as [|x l IH]; simpl.
  - split; [intros [? [=]]|by intros ?%elem_of_nil].
  - rewrite elem_of_cons. destruct (String.eqb_spec x v) as [->|Hn]; [by split; eauto|].
    rewrite fmap_is_Some, IH. naive_solver.
Qed.

(** A listed pod with the name and the address of a node *)
Definition node_of_pod (ts : TypesenseCluster) (nodes : list string) (pods : list Pod)
    (k : string) (ip : IP) : Prop :=
  ∃ pod, pod ∈ pods ∧ om_Name (pod_meta pod) = k ∧ pod_PodIP pod ≠ ""
    ∧ raft_endpoint (pod_PodIP pod) (PeeringPort (Spec ts)) (ApiPort (Spec ts)) ∈ nodes
    ∧ ip = ParseIP (pod_PodIP pod).

Lemma quorum_nodes_spec ts nodes pods :
  map_Forall (node_of_pod ts nodes pods) (quorum_nodes ts nodes pods).
Proof.
  unfold quorum_nodes.
  assert (∀ pods' m, map_Forall (node_of_pod ts nodes pods) m → pods' ⊆ pods →
    map_Forall (node_of_pod ts nodes pods) (foldl (add_quorum_node ts nodes) m pods')) as H.
  { induction pods' as [|pod pods' IH]; intros m Hm Hsub; simpl; [done|].
    apply IH; [|set_solver]. unfold add_quorum_node.
    destruct (String.eqb_spec (pod_PodIP pod) "") as [?|Hne]; [done|].
    destruct (contains _ _) as [i|] eqn:Ec; [|done].
    apply map_Forall_insert_2; [|done]. exists pod.
    split_and!; try done; [set_solver|]. apply contains_elem. by rewrite Ec. }
  apply H; [apply map_Forall_empty|done].
Qed.

(** C10 The list written is the list read: when [getQuorum] finds a ConfigMap
    holding [nodes_data nodes fallback], for a non-empty list of endpoints free
    of commas, the available nodes of the quorum are as many as the endpoints,
    and every node of the quorum is a listed pod whose own endpoint is one of
    them. *)
Theorem getQuorum_roundtrip ts sts :
  wlp (getQuorum ts sts) (λ tr o, ∀ q nodes fallback,
    o = Done (Ok q) →
    cm_Data (NodesListConfigMap q) = nodes_data nodes fallback →
    nodes ≠ [] → Forall no_comma nodes →
    AvailableNodes q = Z.of_nat (length nodes)
    ∧ map_Forall (λ k ip, ∃ pod opts pods, Ev (ListObjs KPod opts) (Ok pods) ∈ tr
        ∧ pod ∈ pods ∧ om_Name (pod_meta pod) = k ∧ ip = ParseIP (pod_PodIP pod)
        ∧ raft_endpoint (pod_PodIP pod) (PeeringPort (Spec ts)) (ApiPort (Spec ts)) ∈ nodes)
      (Nodes q)).
Proof.
  unfold getQuorum, list_pods. wlp_steps; intros quorum nodes fallback; try done.
  intros [= <-]. simpl.
  intros Hd Hne Hc.
  match goal with H : cm_Data ?c !! "nodes" = Some ?s |- _ =>
    rewrite Hd, nodes_data_nodes in H; injection H as <- end.
  rewrite split_nodes by done. split; [done|]. intros k ip Hk.
  destruct (quorum_nodes_spec _ _ _ k ip Hk) as (pod & Hp & <- & _ & He & ->).
  eexists pod, _, _. split_and!; try done. right. by left.
Qed.

(** ** Bootstrap detection *)

Lemma fallback_contains_sts ts i :
  contains_str (fallback_endpoint ts i) (ClusterStatefulSet (ts_Name ts)) = true.
Proof.
  unfold fallback_endpoint, raft_endpoint, fallback_node_name, ClusterStatefulSet.
  apply contains_str_spec. exists "". eexists.
  rewrite !str_app_assoc. simpl. reflexivity.
Qed.

Lemma hasBootstrapValues_data ts cm nodes fallback :
  cm_Data cm = nodes_data nodes fallback → nodes ≠ [] → nodes ≠ [""] → Forall no_comma nodes →
  hasBootstrapValues ts cm =
  Ok (existsb (λ node, contains_str node (ClusterStatefulSet (ts_Name ts))) nodes).
Proof.
  intros Hd Hne Hne' Hc. unfold hasBootstrapValues. rewrite Hd, nodes_data_nodes.
  pose proof (split_nodes nodes Hne Hc) as E.
  destruct (join_str nodes ",") eqn:Ej; [|by rewrite E].
  exfalso. apply Hne'. by rewrite <-E.
Qed.

(** A list of bootstrap endpoints is recognised as such, so that a cluster
    that never left it is not scaled down; a list of endpoints none of which
    holds the letter s (addresses) is not. *)
Theorem hasBootstrapValues_spec ts cm nodes fallback :
  cm_Data cm = nodes_data nodes fallback → nodes ≠ [] → Forall no_comma nodes →
  ((∃ i, fallback_endpoint ts i ∈ nodes) → hasBootstrapValues ts cm = Ok true)
  ∧ (Forall (λ n, has_char "s" n = false) nodes → nodes ≠ [""] →
       hasBootstrapValues ts cm = Ok false).
Proof.
  intros Hd Hne Hc. split.
  - intros [i Hi]. assert (nodes ≠ [""]) as Hne'.
    { intros ->. apply list_elem_of_singleton in Hi. pose proof (fallback_contains_sts ts i) as H.
      rewrite Hi in H. unfold ClusterStatefulSet in H. by destruct (ts_Name ts). }
    rewrite (hasBootstrapValues_data _ _ _ _ Hd Hne Hne' Hc). f_equal.
    apply existsb_true_Exists, Exists_exists. eexists. split; [exact Hi|apply fallback_contains_sts].
  - intros Hs Hne'. rewrite (hasBootstrapValues_data _ _ _ _ Hd Hne Hne' Hc). f_equal.
    apply existsb_false_Forall. eapply Forall_impl; [exact Hs|]. intros n Hn.
    eapply contains_str_char; [|exact Hn]. unfold ClusterStatefulSet.
    rewrite has_char_app. apply orb_true_r.
Qed.

(** ** Forcing the pods *)

Definition alive (pod : Pod) : Prop := om_DeletionTimestamp (pod_meta pod) = None.
#[local] Instance alive_dec pod : Decision (alive pod).
Proof. unfold alive. apply _. Defined.
(** [w] annotates [pod] with the time of the update. *)
Definition forces (pod : Pod) (w : write) : Prop :=
  ∃ now, w = WPatch KPod pod (force_annotation now pod).
Definition patch_failed (e : event) : bool :=
  match e with Ev (Patch _ _ _) (Err _) => true | _ => false end.
Definition failed_patch (tr : trace) : Prop := Exists (λ e, patch_failed e = true) tr.

Lemma failed_patch_app tr1 tr2 : failed_patch (tr1 ++ tr2) ↔ failed_patch tr1 ∨ failed_patch tr2.
Proof. apply Exists_app. Qed.

(** [forcePodsConfigMapUpdate] patches every pod it listed that is not
    being deleted, once and in order, and no other object; a failure does not
    stop it, and it returns no error exactly when no patch failed. *)
Theorem forcePodsConfigMapUpdate_spec ts :
  wlp (forcePodsConfigMapUpdate ts) (λ tr o,
    (∃ e, o = Done (Some e) ∧ writes tr = [])
    ∨ ∃ opts pods e, Ev (ListObjs KPod opts) (Ok pods) ∈ tr ∧ o = Done e
        ∧ Forall2 forces (filter alive pods) (writes tr)
        ∧ (e = None ↔ ¬ failed_patch tr)).
Proof.
  unfold forcePodsConfigMapUpdate. apply wlp_trigger_bind. intros [pods|e].
  2: { apply wlp_ret. left. by exists e. }
  set (opts := {| lo_Namespace := _; lo_Labels := _ |}).
  set (I := λ (done : list Pod) (tr : trace) (errs : list error),
    Forall2 forces (filter alive done) (writes tr) ∧ (errs = [] ↔ ¬ failed_patch tr)).
  eapply wlp_bind_cut with (R := λ tr o, match o with Done errs => I pods tr errs | _ => False end).
  - apply (wlp_fold _ I (λ _ _, False)).
    { split; [constructor|]. split; [intros _ ?%Exists_nil|]; done. }
    intros done pod rest tr errs _ [HI Herr].
    destruct (om_DeletionTimestamp (pod_meta pod)) eqn:Ed.
    + apply wlp_ret. rewrite app_nil_r. split; [|done].
      rewrite filter_app, filter_cons, decide_False by (unfold alive; congruence).
      by rewrite app_nil_r.
    + do 2 (apply wlp_trigger_bind; intros ?).
      assert (filter alive (done ++ [pod]) = filter alive done ++ [pod]) as Ef.
      { rewrite filter_app, filter_cons, decide_True by done. done. }
      case_match; apply wlp_ret; unfold I; rewrite Ef, writes_app, failed_patch_app; simpl.
      * split; [apply Forall2_app; [done|]; constructor; [by eexists|constructor]|].
        rewrite Herr. unfold failed_patch at 3. rewrite !Exists_cons, Exists_nil. naive_solver.
      * split; [apply Forall2_app; [done|]; constructor; [by eexists|constructor]|].
        unfold failed_patch at 2. rewrite !Exists_cons, Exists_nil.
        split; [by destruct errs|naive_solver].
  - intros tr errs [HI Herr]. apply wlp_ret. rewrite app_nil_r. right.
    exists opts, pods, (NewAggregate errs). split_and!; [by left|done|done|].
    assert (failed_patch (Ev (ListObjs KPod opts) (Ok pods) :: tr) ↔ failed_patch tr) as ->.
    { change (failed_patch ([Ev (ListObjs KPod opts) (Ok pods)] ++ tr) ↔ failed_patch tr).
      unfold failed_patch. rewrite Exists_app, Exists_cons, Exists_nil. naive_solver. }
    rewrite <-Herr. by destruct errs.
  - done.
Qed.
End Nodes.


(** The bootstrap list of a cluster of three: the flag is set. *)
Definition demo_fallback : list string :=
  fallback_endpoint (K := concreteK) (demo_ts "t1" 3 "QuorumReady") <$> seq 0 3.
Lemma hasBootstrapValues_spec_witness :
  hasBootstrapValues (K := concreteK) (demo_ts "t1" 3 "QuorumReady")
    (set_cm_Data (nodes_data demo_fallback demo_fallback) cm_zero) = Ok true.
Proof.
  refine (proj1 (hasBootstrapValues_spec (K := concreteK) (demo_ts "t1" 3 "QuorumReady")
    (set_cm_Data (nodes_data demo_fallback demo_fallback) cm_zero) demo_fallback demo_fallback
    eq_refl _ _) _).
  - done.
  - repeat constructor.
  - exists 0. by left.
Defined.
