(* ===== verification/StatefulSetTheory.v ===== *)
(** * Theorems on the StatefulSet (StatefulSet, StatefulSetHash)

    The object that is built, when it is applied, and whether applying it
    settles. *)
From S2P Require Import Prelude GoLib GoCrypto K8s Api Effects Hoare External Concrete Utils.
From S2P Require Import Conditions StatefulSetOps ConfigMap QuorumHelpers Quorum Secret.
From S2P Require Import Services StatefulSetHash StatefulSet Footprint UtilsTheory NodesTheory.
From Stdlib Require Import Ascii.
From Stdlib Require String.

Section StatefulSets.
Context `{L : Libs}.

(** ** What is built *)

(** The literal with its hash: what every successful build returns *)
Definition built (key : ObjectKey) (ts : TypesenseCluster) (sts : StatefulSet) : Prop :=
  ∃ ann lit hash, sts_literal key ts ann = Done lit ∧ sts = set_hash_annotation hash lit.

Lemma buildStatefulSet_built key ts :
  wlp (buildStatefulSet key ts) (λ tr o, writes tr = [] ∧ ∀ sts, o = Done (Ok sts) → built key ts sts).
Proof.
  unfold buildStatefulSet.
  assert (footprint [] (getHealthyLagThresholds ts)) as Hf by apply fp_getHealthyLagThresholds.
  eapply wlp_bind_cut; [apply (footprint_nil _ Hf)| |].
  2: { intros tr w H. split; [done|by intros ?]. }
  intros tr [rl wl] Hw. apply wlp_lift_bind.
  2: { intros w E. rewrite app_nil_r. split; [done|by intros ?]. }
  intros lit Elit.
  assert (footprint [] (buildStatefulSetHash lit ts)) as Hf'.
  { unfold buildStatefulSetHash. footprint_auto.
    assert (∀ acs d, footprint [] (additional_conf_data ts acs d)) as H; [|apply H].
    induction acs as [|ac acs IH]; intros d; cbn [additional_conf_data]; footprint_auto; apply IH. }
  eapply wlp_bind_cut; [apply (footprint_nil _ Hf')| |].
  2: { intros tr2 w H. rewrite writes_app, Hw, H. split; [done|by intros ?]. }
  intros tr2 [hash|e] H2; apply wlp_ret; rewrite app_nil_r, writes_app, Hw, H2; (split; [done|]).
  - intros sts [= <-]. by exists (buildPodAnnotations ts rl wl), lit, hash.
  - by intros ?.
Qed.

Lemma sts_literal_inv key ts ann lit :
  sts_literal key ts ann = Done lit →
  ∃ storage, Storage (Spec ts) = Some storage ∧
    lit = {| sts_meta := getObjectMeta ts (Some (key_Name key))
                           (maps_Copy ∅ (StatefulSetAnnotations (Spec ts)));
             sts_Spec := sts_Spec lit;
             sts_Status := {| st_Replicas := 0; st_ReadyReplicas := 0 |} |}
    ∧ ss_Template (sts_Spec lit) =
        {| pt_meta := getObjectMeta ts (Some (key_Name key)) ann; pt_Spec := pod_spec ts |}
    ∧ ss_Selector (sts_Spec lit) = Some (match_labels (getLabels ts))
    ∧ ss_Replicas (sts_Spec lit) = Some (Replicas (Spec ts))
    ∧ ss_ServiceName (sts_Spec lit) = ClusterHeadlessService (ts_Name ts).
Proof.
  unfold sts_literal, data_claim. destruct (Storage (Spec ts)) as [storage|]; [|done].
  intros [= <-]. exists storage. split_and!; done.
Qed.

(** The thresholds that are logged for a built StatefulSet are those it was built
    with, unless the specification sets the annotations itself. *)
Lemma logged_thresholds key ts read write lit hash :
  sts_literal key ts (buildPodAnnotations ts read write) = Done lit →
  (∀ k, k ∈ [readLagAnnotationKey; writeLagAnnotationKey] →
     PodAnnotations (Spec ts) !! k = None ∧ StatefulSetAnnotations (Spec ts) !! k = None) →
  logLagThresholds (set_hash_annotation hash lit) = (itoa read, itoa write).
Proof.
  intros Hlit Hk. apply sts_literal_inv in Hlit as (_ & _ & _ & Ht & _).
  destruct (Hk readLagAnnotationKey) as [Hr1 Hr2]; [set_solver|].
  destruct (Hk writeLagAnnotationKey) as [Hw1 Hw2]; [set_solver|].
  assert (∀ k v, (<[writeLagAnnotationKey := itoa write]> {[readLagAnnotationKey := itoa read]} : smap)
      !! k = Some v → PodAnnotations (Spec ts) !! k = None →
    StatefulSetAnnotations (Spec ts) !! k = None → k ≠ hashAnnotationKey → v ≠ "" →
    map_get (template_annotations (set_hash_annotation hash lit)) k = v ∧ String.eqb v "" = false)
    as Hget.
  { intros k v Hv Hp Hs Hne Hv0. split; [|by apply String.eqb_neq].
    unfold map_get, set_hash_annotation, template_annotations. cbn. rewrite Ht. cbn.
    rewrite lookup_insert_ne by done. unfold buildPodAnnotations, maps_Copy.
    destruct (PodsInheritStatefulSetAnnotations (Spec ts)).
    - by rewrite lookup_union_r, lookup_union_r, Hv by done.
    - by rewrite lookup_union_r, Hv by done. }
  unfold logLagThresholds.
  destruct (Hget readLagAnnotationKey (itoa read)) as [-> ->]; try done.
  { destruct (itoa_head read) as (c & s & -> & _). done. }
  destruct (Hget writeLagAnnotationKey (itoa write)) as [-> ->]; try done.
  destruct (itoa_head write) as (c & s & -> & _). done.
Qed.

Lemma labels_subset ts name ann :
  getLabels ts ⊆ om_Labels (getObjectMeta ts name ann).
Proof.
  unfold getObjectMeta, getMergedLabels, mergeLabels. simpl.
  apply map_union_subseteq_l.
Qed.

(** The volumes a container mounts exist in the pod. *)
Definition mounts_resolve (s : PodSpec) (c : Container) : Prop :=
  Forall (λ m, vm_Name m ∈ (vol_Name <$> ps_Volumes s)) (ct_VolumeMounts c).

(** C11 A StatefulSet that [buildStatefulSet] returns is one the API server
    accepts and the other parts fit: its selector selects the pods of its own
    template, every volume its containers mount is declared, the pods wait for
    the readiness gate the quorum reconciler sets, they mount the ConfigMap the
    nodes list is kept in, its service is the headless service, and the hash
    annotation is there. *)
Theorem buildStatefulSet_wellformed key ts :
  wlp (buildStatefulSet key ts) (λ tr o, ∀ sts, o = Done (Ok sts) →
    let template := ss_Template (sts_Spec sts) in
    writes tr = []
    ∧ ss_Replicas (sts_Spec sts) = Some (Replicas (Spec ts))
    ∧ (∃ sel, ss_Selector (sts_Spec sts) = Some sel
         ∧ ls_MatchLabels sel ⊆ om_Labels (pt_meta template))
    ∧ Forall (mounts_resolve (pt_Spec template)) (ps_Containers (pt_Spec template))
    ∧ ct_Name <$> ps_Containers (pt_Spec template) = ["typesense"; "metrics-exporter"; "healthcheck"]
    ∧ QuorumReadinessGateCondition ∈ ps_ReadinessGates (pt_Spec template)
    ∧ key_Name (configMapObjectKey ts) ∈
        omap (λ v, cmv_Name <$> vol_ConfigMap v) (ps_Volumes (pt_Spec template))
    ∧ ss_ServiceName (sts_Spec sts) = key_Name (headlessObjectKey ts)
    ∧ is_Some (template_annotations sts !! hashAnnotationKey)).
Proof.
  eapply wlp_mono; [apply buildStatefulSet_built|].
  intros tr o [Hw Hb] sts E. destruct (Hb sts E) as (ann & lit & hash & Hlit & ->).
  apply sts_literal_inv in Hlit as (storage & _ & _ & Ht & Hs & Hr & Hn).
  cbn. rewrite Ht. cbn. split_and!; try done.
  - eexists. split; [exact Hs|].
    exact (labels_subset ts (Some (key_Name key)) ann).
  - repeat constructor; cbn; set_solver.
  - set_solver.
  - set_solver.
  - unfold template_annotations. cbn. rewrite lookup_insert_eq. by eexists.
Qed.

(** ** When it is applied *)

Lemma replicas_changed_plain sts ts condition :
  replicas_changed sts ts condition =
  (n ← deref (ss_Replicas (sts_Spec sts)); mret (negb (n =? Replicas (Spec ts))%Z)).
Proof.
  unfold replicas_changed, deref. destruct (ss_Replicas _) as [n|]; [|done].
  unfold mbind, outcome_bind, mret, outcome_ret. f_equal.
  destruct (String.eqb_spec (c_Reason condition) ConditionReasonQuorumDowngraded) as [->|];
    simpl; by rewrite andb_true_r.
Qed.

(** The test on the recorded reason in [shouldUpdateStatefulSet] and
    [shouldEmergencyUpdateStatefulSet] never filters anything: a reason differs
    from [QuorumDowngraded] or from [QuorumQueuedWrites] whatever it is, so the
    replicas count as changed exactly when they differ, also right after a
    downgrade. *)
Theorem replicas_changed_any_reason sts ts condition :
  replicas_changed sts ts condition =
  (n ← deref (ss_Replicas (sts_Spec sts)); mret (negb (n =? Replicas (Spec ts))%Z)).
Proof. apply replicas_changed_plain. Qed.

(** The verdict of [shouldUpdateStatefulSet], read off its triggers *)
Lemma trigger_if_fst b name acc : (trigger_if b name acc).1 = acc.1 || b.
Proof. destruct b; simpl; [by rewrite orb_true_r|by rewrite orb_false_r]. Qed.

Definition update_reasons (sts desired : StatefulSet) (ts : TypesenseCluster) : bool :=
  negb (String.eqb (map_get (template_annotations sts) hashAnnotationKey)
                   (map_get (template_annotations desired) hashAnnotationKey))
  || negb (DeepEqual (filterMap (template_annotations sts) (pod_filters ts))
                     (template_annotations desired))
  || negb (DeepEqual (filterMap (om_Annotations (sts_meta sts)) (sts_filters ts))
                     (om_Annotations (sts_meta desired)))
  || negb (DeepEqual (ps_SecurityContext (pt_Spec (ss_Template (sts_Spec sts))))
                     (GetPodSecurityContext (Spec ts)))
  || (length (containers sts) <? 3)%nat.

Lemma shouldUpdate_inv sts d ts update scaleOnly triggers :
  shouldUpdateStatefulSet sts d ts = Done (update, scaleOnly, triggers) →
  (getConditionReady ts = Done None ∧ update = false ∧ scaleOnly = false)
  ∨ ∃ n desired c0 c1 c2 rest, ss_Replicas (sts_Spec sts) = Some n ∧ d = Some desired
      ∧ containers sts = c0 :: c1 :: c2 :: rest
      ∧ scaleOnly = negb (n =? Replicas (Spec ts))%Z
      ∧ update = update_reasons sts desired ts
          || negb (DeepEqual (ct_SecurityContext c0) (GetTypesenseSecurityContext (Spec ts)))
          || negb (DeepEqual (ct_SecurityContext c1) (GetMetricsSecurityContext (Spec ts)))
          || negb (DeepEqual (ct_SecurityContext c2) (GetHealthcheckSecurityContext (Spec ts))).
Proof.
  unfold shouldUpdateStatefulSet, mbind, outcome_bind, mret, outcome_ret.
  destruct (getConditionReady ts) as [[c|]|]; [|intros [= <- <- <-]; by left|done].
  unfold replicas_changed, deref, mbind, outcome_bind, mret, outcome_ret.
  destruct (ss_Replicas (sts_Spec sts)) as [n|]; [|done].
  destruct d as [desired|]; [|done].
  unfold container_context_changed, index, mbind, outcome_bind, mret, outcome_ret.
  destruct (containers sts) as [|c0 [|c1 [|c2 rest]]] eqn:Ec; cbn [lookup list_lookup]; try done.
  rewrite <-Ec. intros [= <- <- _]. right.
  exists n, desired, c0, c1, c2, rest. split_and!; try done.
  - destruct (String.eqb_spec (c_Reason c) ConditionReasonQuorumDowngraded) as [->|];
      simpl; by rewrite andb_true_r.
  - rewrite !trigger_if_fst. cbn [fst]. unfold update_reasons. by rewrite ?orb_false_l.
Qed.

(** ** Settling *)

Lemma updated_template_annotations now sts desired :
  is_Some (template_annotations desired !! hashAnnotationKey) →
  template_annotations (updated_sts now sts desired) =
  <[restartPodsAnnotationKey := now]> (template_annotations desired).
Proof.
  intros [h Hh]. unfold updated_sts, template_annotations in *. cbn.
  apply insert_id. unfold map_get. rewrite lookup_insert_ne by done. by rewrite Hh.
Qed.

(** C12 Updating settles: once [updateStatefulSet] has made the StatefulSet what
    [buildStatefulSet] wants, [shouldUpdateStatefulSet] asks for nothing,
    provided no annotation of the wanted object is under one of the filters. *)
Theorem update_settles now sts desired key ts c :
  built key ts desired →
  getConditionReady ts = Done (Some c) →
  unfiltered (template_annotations desired) (pod_filters ts) →
  unfiltered (om_Annotations (sts_meta desired)) (sts_filters ts) →
  shouldUpdateStatefulSet (updated_sts now sts desired) (Some desired) ts
  = Done (false, false, []).
Proof.
  intros (ann & lit & hash & Hlit & ->) Hc Hpod Hsts.
  apply sts_literal_inv in Hlit as (storage & _ & _ & Ht & _ & Hr & _).
  set (desired := set_hash_annotation hash lit) in *.
  assert (is_Some (template_annotations desired !! hashAnnotationKey)) as Hh.
  { unfold desired, template_annotations. cbn. rewrite lookup_insert_eq. by eexists. }
  pose proof (updated_template_annotations now sts desired Hh) as Ea.
  assert (template_annotations desired !! restartPodsAnnotationKey = None) as Hnone.
  { apply eq_None_not_Some. intros [v Hv]. by apply Hpod in Hv. }
  unfold shouldUpdateStatefulSet, mbind, outcome_bind, mret, outcome_ret. rewrite Hc.
  rewrite replicas_changed_plain. unfold deref, mbind, outcome_bind, mret, outcome_ret.
  change (ss_Replicas (sts_Spec (updated_sts now sts desired))) with (ss_Replicas (sts_Spec lit)).
  rewrite Hr, Z.eqb_refl. cbn [negb]. rewrite Ea.
  assert (map_get (<[restartPodsAnnotationKey := now]> (template_annotations desired)) hashAnnotationKey
    = map_get (template_annotations desired) hashAnnotationKey) as ->.
  { unfold map_get. by rewrite lookup_insert_ne. }
  rewrite String.eqb_refl, filterMap_insert_hit, !filterMap_id, !DeepEqual_refl; try done.
  change (om_Annotations (sts_meta (updated_sts now sts desired)))
    with (om_Annotations (sts_meta desired)).
  rewrite ?DeepEqual_refl by done.
  change (pt_Spec (ss_Template (sts_Spec (updated_sts now sts desired))))
    with (pt_Spec (ss_Template (sts_Spec lit))).
  unfold container_context_changed, containers.
  change (pt_Spec (ss_Template (sts_Spec (updated_sts now sts desired))))
    with (pt_Spec (ss_Template (sts_Spec lit))).
  rewrite Ht. cbn -[DeepEqual]. by rewrite !DeepEqual_refl.
Qed.

(** C34 Otherwise it never settles: when an annotation the built pod template
    carries is under one of the filters, [shouldUpdateStatefulSet] asks for an
    update of every StatefulSet, the one just updated included, and each update
    restarts the pods. *)
Theorem update_never_settles sts desired ts c update scaleOnly triggers :
  getConditionReady ts = Done (Some c) →
  ¬ unfiltered (template_annotations desired) (pod_filters ts) →
  shouldUpdateStatefulSet sts (Some desired) ts = Done (update, scaleOnly, triggers) →
  update = true.
Proof.
  intros Hc Hu H. apply shouldUpdate_inv in H as [[H _]|H]; [congruence|].
  destruct H as (n & d & c0 & c1 & c2 & rest & _ & [= <-] & _ & _ & ->).
  assert (DeepEqual (filterMap (template_annotations sts) (pod_filters ts))
                    (template_annotations desired) = false) as E.
  { apply bool_decide_eq_false. intros E. apply Hu. rewrite <-E. apply filterMap_unfiltered. }
  unfold update_reasons. rewrite E. simpl. by rewrite orb_true_r.
Qed.

(** ** What is not applied *)

Lemma shouldUpdate_None sts ts x :
  shouldUpdateStatefulSet sts None ts = Done x → getConditionReady ts = Done None.
Proof.
  destruct x as [[u so] tr]. intros H.
  apply shouldUpdate_inv in H as [[H _]|(n & d & ? & ? & ? & ? & _ & [=] & _)]. done.
Qed.

(** The reconciliation of an existing StatefulSet writes only in one of the two
    branches. *)
Lemma reconcile_existing_cases key ts sts (Q : trace → outcome sts_result → Prop) :
  (∀ w, Q [] (Panicked w)) →
  Q [] (Done (Some sts, false, None)) →
  (getConditionReady ts ≠ Done None →
   wlp (buildStatefulSet key ts) (λ tr o,
     match o with
     | Panicked w => Q tr (Panicked w)
     | Done b =>
         let d := match b with Ok d => Some d | Err _ => None end in
         match shouldUpdateStatefulSet sts d ts with
         | Panicked w => Q tr (Panicked w)
         | Done (true, false, _) =>
             ∀ desired, d = Some desired →
               wlp (apply_update ts sts desired) (λ tr' o', Q (tr ++ tr') o')
         | Done (false, true, _) => wlp (apply_scale key ts d) (λ tr' o', Q (tr ++ tr') o')
         | Done _ => Q tr (Done (Some sts, false, None))
         end
     end)) →
  wlp (reconcile_existing key ts sts) Q.
Proof.
  intros Hp H0 Hb. unfold reconcile_existing. cbv zeta.
  apply wlp_lift_bind; [|auto]. intros [c|] Ec; [|by apply wlp_ret].
  specialize (Hb ltac:(congruence)).
  apply wlp_lift_bind; [|auto]. intros em _.
  destruct (_ || _)%bool; [|by apply wlp_ret].
  eapply wlp_bind_cut; [exact Hb| |done]. cbv beta iota zeta.
  intros tr b H. apply wlp_lift_bind; intros v E; rewrite E in H; [|by rewrite app_nil_r].
  destruct v as [[[] []] triggers]; simpl; try (apply wlp_ret; by rewrite app_nil_r); [|done].
  apply wlp_lift_bind; intros d Ed; destruct b as [d'|e];
    try (apply shouldUpdate_None in E; congruence); [|done].
  apply H. by injection Ed as ->.
Qed.

(** When both are asked for, the emergency test has seen the replicas. *)
Lemma shouldUpdate_both sts d ts triggers :
  shouldUpdateStatefulSet sts d ts = Done (true, true, triggers) →
  (∃ c, getConditionReady ts = Done (Some c)) ∧ shouldEmergencyUpdateStatefulSet sts ts = Done true.
Proof.
  unfold shouldUpdateStatefulSet, shouldEmergencyUpdateStatefulSet, or_else, mbind, outcome_bind.
  destruct (getConditionReady ts) as [[c|]|]; [|done..]. intros H. split; [by exists c|].
  destruct (replicas_changed sts ts c) as [[]|]; [done| |done].
  destruct d; [|done]. unfold mbind, outcome_bind, deref, mret, outcome_ret in H.
  repeat match type of H with context [match ?x with _ => _ end] => destruct x end; done.
Qed.

(** The reconciliation of a StatefulSet for which both an update and a scaling
    are asked *)
Definition dropped (key : ObjectKey) (ts : TypesenseCluster) (sts : StatefulSet)
    (tr : trace) (o : outcome sts_result) : Prop :=
  ∀ building desired triggers,
    building `prefix_of` tr →
    exec (buildStatefulSet key ts) building (Done (Ok desired)) →
    shouldUpdateStatefulSet sts (Some desired) ts = Done (true, true, triggers) →
    writes tr = [] ∧ o = Done (Some sts, false, None).

Lemma reconcile_existing_dropped key ts sts :
  wlp (reconcile_existing key ts sts) (dropped key ts sts).
Proof.
  unfold reconcile_existing, dropped. cbv zeta.
  apply wlp_lift_bind.
  2: { intros w E ??? _ _ [[c Hc] _]%shouldUpdate_both. congruence. }
  intros [c|] Ec; [|by apply wlp_ret].
  apply wlp_lift_bind; [intros em _|by intros w E ??? _ _ [_ Hem]%shouldUpdate_both; congruence].
  destruct (_ || _)%bool; [|by apply wlp_ret].
  eapply wlp_bind_cut.
  { apply wlp_and; [by apply wlp_exec|apply buildStatefulSet_built]. }
  2: { intros tr w [He _] building d trig [rest Etr] Hd Hv.
       rewrite <-(app_nil_r tr) in Etr.
       by destruct (exec_det _ _ _ _ _ _ _ He Hd Etr) as [_ [=]]. }
  cbn beta. intros tr b (He & Hw & _).
  assert (∀ tr' building d, building `prefix_of` tr ++ tr' →
    exec (buildStatefulSet key ts) building (Done (Ok d)) → b = Ok d) as Hb.
  { intros tr' building d [rest Etr] Hd.
    by destruct (exec_det _ _ _ _ _ _ _ He Hd Etr) as [_ [= ->]]. }
  apply wlp_lift_bind.
  2: { intros w E building d trig Hpre Hd Hv. rewrite (Hb _ _ _ Hpre Hd) in E. congruence. }
  intros [[u so] trig] E.
  destruct u, so; cbn [andb negb].
  1: { apply wlp_ret. intros _ _ _ _ _ _. by rewrite app_nil_r. }
  all: apply wlp_exec; intros tr' o _ building d trig' Hpre Hd Hv;
    rewrite (Hb _ _ _ Hpre Hd) in E; congruence.
Qed.

(** C35 When the StatefulSet that is read differs from the specification in its
    replicas and, whatever else, in something that asks for an update, so that
    [shouldUpdateStatefulSet] asks for both an update and a scaling against the
    StatefulSet that this round built, the reconciliation of the StatefulSet
    writes nothing at all and reports no update and no error: an update that also
    has to scale is neither the branch that updates nor the branch that scales. *)
Theorem update_and_scale_is_dropped ts :
  wlp (ReconcileStatefulSet ts) (λ tr o, ∀ sts building desired triggers,
    Ev (Get KStatefulSet (stsObjectKey ts)) (Ok sts) :: building `prefix_of` tr →
    exec (buildStatefulSet (stsObjectKey ts) ts) building (Done (Ok desired)) →
    shouldUpdateStatefulSet sts (Some desired) ts = Done (true, true, triggers) →
    writes tr = [] ∧ o = Done (Some sts, false, None)).
Proof.
  unfold ReconcileStatefulSet. apply wlp_trigger_bind. intros g.
  assert (∀ sts building tr,
    Ev (Get KStatefulSet (stsObjectKey ts)) (Ok sts) :: building
      `prefix_of` Ev (Get KStatefulSet (stsObjectKey ts)) g :: tr →
    g = Ok sts ∧ building `prefix_of` tr) as Hg.
  { intros sts building tr [rest E]. split; [|exists rest; by apply (f_equal tail) in E].
    apply (f_equal (λ l, head l ≫= answer_to (Get KStatefulSet (stsObjectKey ts)))) in E.
    cbn [app head mbind option_bind] in E. rewrite !answer_to_same in E. congruence. }
  destruct g as [sts|e].
  - eapply wlp_mono; [apply reconcile_existing_dropped|].
    intros tr o H sts' building desired trig [[= <-] Hpre]%Hg Hd Hv. by eapply H.
  - apply wlp_exec. by intros tr o _ sts building desired trig [[=] _]%Hg.
Qed.

(** A ConfigMap that could not be read *)
Definition unreadable (e : event) : bool :=
  match e with Ev (Get KConfigMap _) (Err _) => true | _ => false end.

Lemma build_unreadable key ts name :
  AdditionalServerConfiguration (Spec ts) = Some name →
  wlp (buildStatefulSet key ts) (λ tr o,
    Forall (λ e, unreadable e = true) tr → ∀ d, o ≠ Done (Ok d)).
Proof.
  intros Hn. unfold buildStatefulSet, getHealthyLagThresholds, buildStatefulSetHash,
    GetAdditionalServerConfiguration. rewrite Hn.
  apply wlp_assoc, wlp_trigger_bind. intros c.
  assert (∀ rl wl, wlp (sts ← lift (sts_literal key ts (buildPodAnnotations ts rl wl));
      h ← (d ← additional_conf_data ts [{| efs_ConfigMapRef := Some name; efs_SecretRef := None |}] ∅;
           match d with
           | Ok additionalConfData =>
               c0 ← lift (index (containers sts) 0); c1 ← lift (index (containers sts) 1);
               c2 ← lift (index (containers sts) 2);
               match HashStructure
                 {| StsSpecAnnotations := template_annotations sts;
                    PodSpecTemplate := pt_Spec (ss_Template (sts_Spec sts));
                    TypesenseContainerResources := MarshalResources (ct_Resources c0);
                    MetricsContainerResources := MarshalResources (ct_Resources c1);
                    HealthcheckContainerResources := MarshalResources (ct_Resources c2);
                    AdditionalConfigurationData := Some additionalConfData |} with
               | Ok h => mret (Ok (sha256_hex (itoa h)))
               | Err e => mret (Err e)
               end
           | Err e => mret (Err e)
           end);
      match h with
      | Ok base16Hash => mret (Ok (set_hash_annotation base16Hash sts))
      | Err e => mret (Err e)
      end)
    (λ tr o, Forall (λ e, unreadable e = true) tr → ∀ d, o ≠ Done (Ok d))) as H.
  { intros rl wl. apply wlp_lift_bind; [|by intros ????]. intros lit _.
    cbn [additional_conf_data efs_ConfigMapRef].
    do 2 apply wlp_assoc. apply wlp_trigger_bind. intros [cm|e].
    - apply wlp_exec. intros tr o _ [? _]%Forall_cons. done.
    - by apply wlp_ret. }
  destruct c as [cm|e]; apply wlp_ret_bind.
  - apply wlp_exec. intros tr o _ [? _]%Forall_cons. done.
  - eapply wlp_mono; [apply H|]. intros tr o Ho [_ ?]%Forall_cons. by apply Ho.
Qed.

(** C36 A failed build of the wanted StatefulSet is not survived: the error is
    only logged, and the nil object is dereferenced.  With an additional server
    configuration that cannot be read, the reconciliation of an existing
    StatefulSet panics as soon as it looks the ConfigMap up. *)
Theorem failed_build_panics key ts sts name :
  wlp (reconcile_existing key ts sts) (λ tr o,
    AdditionalServerConfiguration (Spec ts) = Some name →
    tr ≠ [] → Forall (λ e, unreadable e = true) tr → ∃ w, o = Panicked w).
Proof.
  destruct (decide (AdditionalServerConfiguration (Spec ts) = Some name)) as [Hn|Hn].
  2: { by apply wlp_exec. }
  apply reconcile_existing_cases; [by eauto|done|]. intros Hc.
  eapply wlp_mono; [by apply (build_unreadable key ts name)|]. intros tr [b|w] Hb; [|by eauto].
  destruct b as [d|e]; cbv zeta.
  - assert (∀ tr' : trace, ¬ Forall (λ e, unreadable e = true) (tr ++ tr')) as Hf.
    { intros tr' [H _]%Forall_app. by apply (Hb H d). }
    assert (¬ Forall (λ e, unreadable e = true) tr) as Hf0.
    { specialize (Hf []). by rewrite app_nil_r in Hf. }
    destruct (shouldUpdateStatefulSet sts (Some d) ts) as [[[[] []] ?]|w]; try done.
    + intros desired _. apply wlp_exec. intros tr' o' _ _ _ H. by apply Hf in H.
    + apply wlp_exec. intros tr' o' _ _ _ H. by apply Hf in H.
  - destruct (shouldUpdateStatefulSet sts None ts) as [x|w] eqn:E; [|by eauto].
    by apply shouldUpdate_None in E.
Qed.

(** C37 A StatefulSet with fewer than three containers is meant to be repaired
    (the trigger [InvalidContainerCount]); instead every reconciliation of it
    panics on the container that is missing, without having written anything. *)
Theorem missing_container_panics key ts sts :
  wlp (reconcile_existing key ts sts) (λ tr o,
    length (containers sts) < 3 → ready_first ts →
    writes tr = [] ∧ ∃ w, o = Panicked w).
Proof.
  destruct (decide (length (containers sts) < 3)) as [Hlen|Hlen].
  2: { apply wlp_exec. done. }
  assert (∀ d x, shouldUpdateStatefulSet sts d ts = Done x → getConditionReady ts = Done None) as Hs.
  { intros d [[u so] tr] H. apply shouldUpdate_inv in H as [[H _]|H]; [done|].
    destruct H as (? & ? & ? & ? & ? & ? & _ & _ & E & _). rewrite E in Hlen. simpl in Hlen. lia. }
  unfold reconcile_existing. cbv zeta.
  apply wlp_lift_bind; [|by eauto]. intros cond Hcond.
  destruct cond as [c|]; [|apply wlp_ret; intros _ (c & E & _)%getConditionReady_ready_first; congruence].
  apply wlp_lift_bind; [|by eauto]. intros em Hem.
  assert (em = true) as ->.
  { unfold shouldEmergencyUpdateStatefulSet, or_else, mbind, outcome_bind, mret, outcome_ret in Hem.
    rewrite Hcond in Hem. rewrite (proj2 (Nat.ltb_lt _ _) Hlen) in Hem.
    repeat case_match; congruence. }
  rewrite orb_true_r. eapply wlp_bind_cut; [apply buildStatefulSet_built| |].
  2: { intros tr w [Hw _]. by eauto. }
  intros tr b [Hw _]. apply wlp_lift_bind.
  - intros v E. apply Hs in E. congruence.
  - intros w _ _ _. rewrite app_nil_r. by eauto.
Qed.
(** ** Unscheduled pods *)

(** Deletions of pods that the server accepted *)
Definition deletion_accepted (e : event) : bool :=
  match e with Ev (Delete KPod _ _) None => true | _ => false end.
Definition some_accepted (tr : trace) : bool := existsb deletion_accepted tr.
Definition only_deletes (tr : trace) (pods : list Pod) : Prop := writes tr = WDelete KPod <$> pods.

Lemma only_deletes_app tr1 tr2 l1 l2 :
  only_deletes tr1 l1 → only_deletes tr2 l2 → only_deletes (tr1 ++ tr2) (l1 ++ l2).
Proof. unfold only_deletes. rewrite writes_app, fmap_app. by intros -> ->. Qed.
Lemma some_accepted_app tr1 tr2 :
  some_accepted (tr1 ++ tr2) = some_accepted tr1 || some_accepted tr2.
Proof. apply existsb_app. Qed.

Lemma unscheduled_entries_spec p q :
  q ∈ unscheduled_entries p ↔ q = p ∧ is_unscheduled p = true.
Proof.
  unfold unscheduled_entries, is_unscheduled. case_decide as E; simpl.
  - rewrite bool_decide_true, andb_true_l, existsb_true_Exists, Exists_exists by done.
    rewrite list_elem_of_fmap. setoid_rewrite list_elem_of_filter. naive_solver.
  - rewrite bool_decide_false by done. split; [by intros ?%not_elem_of_nil|by intros [_ ?]].
Qed.

Lemma delete_unscheduled_spec b pod :
  wlp (delete_unscheduled b pod) (λ tr o,
    only_deletes tr (unscheduled_entries pod) ∧ o = Done (b || some_accepted tr)).
Proof.
  unfold delete_unscheduled, unscheduled_entries. case_decide; [|apply wlp_ret; by rewrite orb_false_r].
  eapply wlp_mono.
  - eapply (wlp_fold _ (λ conds tr b', only_deletes tr
        ((λ _, pod) <$> filter (λ c, unschedulable_cond c = true) conds)
        ∧ b' = b || some_accepted tr) (λ _ _, False)).
    + split; [done|]. by rewrite orb_false_r.
    + intros conds c rest tr b' _ [Hd ->]. rewrite filter_app, fmap_app, filter_cons.
      destruct (unschedulable_cond c) eqn:Ec.
      * rewrite decide_True by done. apply wlp_trigger_bind. intros err. apply wlp_ret.
        split; [by apply only_deletes_app|]. rewrite some_accepted_app.
        destruct b, (some_accepted tr), err; done.
      * rewrite decide_False by done. apply wlp_ret. rewrite !app_nil_r. by split.
  - intros tr [b'|w]; [|done]. by intros [? ->].
Qed.

(** [RestartUnscheduledPods] deletes of the pods it is given exactly those
    that are pending and cannot be scheduled, once per condition that says so,
    in order, and no other object; a failed deletion does not stop it and is not
    an error, and the warning event is sent exactly when some deletion was
    accepted. *)
Lemma RestartUnscheduledPods_deletes pods ts :
  wlp (RestartUnscheduledPods pods ts) (λ tr o, o = Done None ∧ ∃ deleted,
    writes tr = (WDelete KPod <$> deleted)
      ++ (if some_accepted tr
          then [WEvent ts "Warning" ConditionReasonStatefulSetNotReady
                  (toTitle "removed unscheduled pods")] else [])
    ∧ deleted = pods ≫= unscheduled_entries
    ∧ ∀ p, p ∈ deleted ↔ p ∈ pods ∧ is_unscheduled p = true).
Proof.
  unfold RestartUnscheduledPods. eapply wlp_bind_cut.
  { apply (wlp_fold _ (λ done_ tr b, only_deletes tr (done_ ≫= unscheduled_entries)
        ∧ b = some_accepted tr) (λ _ _, False)); [done|].
    intros l p rest tr b _ [Hd ->]. eapply wlp_mono; [apply delete_unscheduled_spec|].
    intros tr' o [Hd' ->]. rewrite bind_app, some_accepted_app. split; [|done].
    apply only_deletes_app; [done|]. simpl. by rewrite app_nil_r. }
  2: { done. }
  intros tr b [Hd ->]. destruct (some_accepted tr) eqn:Es.
  - apply wlp_trigger_bind. intros []. apply wlp_ret. split; [done|].
    eexists. rewrite writes_app, some_accepted_app, Es, Hd. split; [done|]. split; [done|].
    intros p. rewrite list_elem_of_bind. setoid_rewrite unscheduled_entries_spec. naive_solver.
  - apply wlp_ret_bind, wlp_ret. split; [done|].
    eexists. rewrite app_nil_r, Es, Hd. split; [by rewrite app_nil_r|]. split; [done|].
    intros p. rewrite list_elem_of_bind. setoid_rewrite unscheduled_entries_spec. naive_solver.
Qed.
End StatefulSets.

(** ** Concrete instances *)
Section Witnesses.
#[local] Existing Instance concreteK.
#[local] Existing Instance concreteL.

Definition demo : TypesenseCluster := demo_ts "t1" 3 "QuorumReady".
(** The same cluster, told to ignore annotations of its own *)
Definition demo_ignoring : TypesenseCluster :=
  {| ts_meta := ts_meta demo;
     Spec := {| Image := "typesense/typesense:29.0"; ImagePullSecrets := []; AdminApiKey := None;
       Replicas := 3; ApiPort := 8108; PeeringPort := 8107;
       HealthProbeTimeoutInMilliseconds := 500; ResetPeersOnError := true; EnableCors := true;
       CorsDomains := None; ForceResetPeersConfigOnUpdate := false; Resources := None;
       Affinity := None; NodeSelector := ∅; Tolerations := [];
       AdditionalServerConfiguration := None; ServiceAnnotations := ∅;
       StatefulSetAnnotations := ∅; PodAnnotations := {["team.io/owner" := "search"]};
       PodsInheritStatefulSetAnnotations := false; Storage := Storage (demo_spec 3);
       IngressOf := None; HttpRoutes := None; Scrapers := None; Metrics := None;
       HealthCheck := None; TopologySpreadConstraints := []; PriorityClassName := None;
       SecurityContextOf := None; IgnoreAnnotationsFromExternalMutations := ["team.io"];
       IncrementalQuorumRecovery := false; PodManagementPolicy := None;
       TerminationGracePeriodSeconds := None |};
     Status := Status demo |}.

Definition demo_annotations (ts : TypesenseCluster) : smap := buildPodAnnotations ts 1000 500.
Definition demo_literal (ts : TypesenseCluster) : StatefulSet :=
  match sts_literal (stsObjectKey ts) ts (demo_annotations ts) with
  | Done lit => lit
  | Panicked _ =>
      {| sts_meta := meta_zero;
         sts_Spec := {| ss_ServiceName := ""; ss_PodManagementPolicy := ""; ss_Replicas := None;
                        ss_Selector := None;
                        ss_Template := {| pt_meta := meta_zero; pt_Spec := pod_spec ts |};
                        ss_VolumeClaimTemplates := [] |};
         sts_Status := {| st_Replicas := 0; st_ReadyReplicas := 0 |} |}
  end.
Definition demo_desired (ts : TypesenseCluster) : StatefulSet :=
  set_hash_annotation (sha256_hex "3") (demo_literal ts).

Lemma demo_built : built (stsObjectKey demo) demo (demo_desired demo).
Proof. exists (demo_annotations demo), (demo_literal demo), (sha256_hex "3"). by split. Qed.

Lemma update_settles_witness :
  shouldUpdateStatefulSet (updated_sts "2025-01-01T00:00:00Z" (demo_desired demo) (demo_desired demo))
    (Some (demo_desired demo)) demo = Done (false, false, []).
Proof.
  apply (update_settles _ _ _ (stsObjectKey demo) demo (mk_condition "Ready" "True" "QuorumReady" "")).
  - exact demo_built.
  - reflexivity.
  - apply unfiltered_dec_spec. vm_compute. reflexivity.
  - apply unfiltered_dec_spec. vm_compute. reflexivity.
Defined.

Lemma update_never_settles_witness :
  ∃ update scaleOnly triggers,
  shouldUpdateStatefulSet (updated_sts "2025-01-01T00:00:00Z" (demo_desired demo_ignoring)
    (demo_desired demo_ignoring)) (Some (demo_desired demo_ignoring)) demo_ignoring
    = Done (update, scaleOnly, triggers) ∧ update = true.
Proof.
  do 3 eexists. split; [vm_compute; reflexivity|].
  eapply (update_never_settles
    (updated_sts "2025-01-01T00:00:00Z" (demo_desired demo_ignoring) (demo_desired demo_ignoring))
    (demo_desired demo_ignoring) demo_ignoring (mk_condition "Ready" "True" "QuorumReady" "")).
  - reflexivity.
  - rewrite <-unfiltered_dec_spec. vm_compute. discriminate.
  - vm_compute. reflexivity.
Defined.

(** A StatefulSet of one replica with another hash *)
Definition demo_behind : StatefulSet :=
  set_hash_annotation "" (with_replicas 1 (demo_desired demo)).

Lemma update_and_scale_is_dropped_witness :
  ∃ desired triggers,
    exec (buildStatefulSet (stsObjectKey demo) demo) [] (Done (Ok desired))
    ∧ shouldUpdateStatefulSet demo_behind (Some desired) demo = Done (true, true, triggers)
    ∧ ∃ tr o, exec (ReconcileStatefulSet demo) tr o
      ∧ tr = [Ev (Get KStatefulSet (stsObjectKey demo)) (Ok demo_behind)]
      ∧ writes tr = [] ∧ o = Done (Some demo_behind, false, None).
Proof.
  assert (∃ d, exec (buildStatefulSet (stsObjectKey demo) demo) [] (Done (Ok d))
    ∧ ∃ trig, shouldUpdateStatefulSet demo_behind (Some d) demo = Done (true, true, trig))
    as (d & Hb & trig & Hv).
  { eexists. split; [vm_compute; constructor|]. eexists. vm_compute. reflexivity. }
  exists d, trig. split; [exact Hb|]. split; [exact Hv|].
  do 2 eexists. eassert (exec (ReconcileStatefulSet demo) _ _) as He.
  { apply (exec_vis _ (Get KStatefulSet (stsObjectKey demo)) _ (Ok demo_behind)).
    vm_compute. constructor. }
  split; [exact He|]. split; [reflexivity|].
  refine (proj1 (wlp_exec _ _) (update_and_scale_is_dropped demo) _ _ He demo_behind [] d trig _ Hb Hv).
  by eexists [].
Defined.
End Witnesses.
