(* ===== verification/PartsTheory.v ===== *)
(** * Theorems on the supporting objects (Secret, Services, Scraper, HttpRoute,
      Ingresses, PodMonitors)

    Which objects are created, when nothing is written, and which states the
    reconcilers cannot leave. *)
From S2P Require Import Prelude GoLib GoCrypto K8s Api Effects Hoare External Concrete Utils.
From S2P Require Import Conditions StatefulSetOps ConfigMap QuorumHelpers Quorum Secret.
From S2P Require Import Services StatefulSetHash StatefulSet Scraper PodMonitors Ingresses.
From S2P Require Import HttpRoute Footprint UtilsTheory.
From Stdlib Require Import Ascii.
From Stdlib Require String.

Section Parts.
Context `{L : Libs}.

(** ** The admin key *)

(** C23 [ReconcileSecret] writes only when no secret is configured and the
    generated one is not found; then it creates one immutable secret whose key
    is the base64 text of the bytes it drew, 256 of which were asked for.  The
    secret it returns is one the server answered with. *)
Theorem ReconcileSecret_spec ts :
  wlp (ReconcileSecret ts) (λ tr o,
    (writes tr = []
     ∨ ∃ err bytes s,
         AdminApiKey (Spec ts) = None
         ∧ Ev (Get KSecret (getAdminApiKeyObjectKey ts)) (Err err) ∈ tr ∧ IsNotFound err = true
         ∧ Ev (RandRead 256) (Ok bytes) ∈ tr
         ∧ writes tr = [WCreate KSecret s] ∧ sec_Immutable s = Some true
         ∧ sec_Data s = {[ClusterAdminApiKeySecretKeyName := base64_encode bytes]})
    ∧ ∀ s, o = Done (Ok s) →
        Ev (Get KSecret (getAdminApiKeyObjectKey ts)) (Ok s) ∈ tr
        ∨ ∃ s', Ev (Create KSecret s') (Ok s) ∈ tr).
Proof.
  unfold ReconcileSecret, createAdminApiKey, generateToken. cbv zeta.
  apply wlp_trigger_bind. intros [s|err].
  { apply wlp_ret. split; [by left|]. intros s' [= ->]. left. by left. }
  destruct (IsNotFound err) eqn:En; [|apply wlp_ret; split; [by left|by intros ?]].
  destruct (bool_decide _) eqn:Ek; [|apply wlp_ret; split; [by left|by intros ?]].
  apply bool_decide_eq_true in Ek.
  apply wlp_assoc, wlp_trigger_bind. intros [bytes|e]; apply wlp_ret_bind.
  2: { apply wlp_ret. split; [by left|by intros ?]. }
  destruct (SetControllerReference _ _ _) as [m|e].
  2: { apply wlp_ret. split; [by left|by intros ?]. }
  apply wlp_trigger. intros [s|e].
  - split; [|intros s' [= ->]; right; eexists; right; right; by left].
    right. do 3 eexists. split_and!; [done|by left|done|right; by left|reflexivity|done|done].
  - split; [|by intros ?].
    right. do 3 eexists. split_and!; [done|by left|done|right; by left|reflexivity|done|done].
Qed.

(** ** Services *)

(** The port the Typesense container listens on *)
Definition listening_port (ts : TypesenseCluster) : option Z :=
  cp_ContainerPort <$> head (ct_Ports (typesense_container ts)).

(** Every service [ReconcileServices] creates publishes the API port of the
    specification, but it forwards to the fixed port 8108: it reaches the port
    the Typesense container listens on only if that is the API port. *)
Theorem ReconcileServices_target_port ts :
  writes_only (λ w, match w with
    | WCreate KService s =>
        ∃ p rest, svc_Ports s = p :: rest ∧ sp_Port p = int32 (ApiPort (Spec ts))
          ∧ (listening_port ts = Some (sp_TargetPort p) ↔ int32 (ApiPort (Spec ts)) = 8108%Z)
    | _ => True
    end) (ReconcileServices ts).
Proof.
  assert (∀ rest, ∃ p rest', http_port ts :: rest = p :: rest'
      ∧ sp_Port p = int32 (ApiPort (Spec ts))
      ∧ (listening_port ts = Some (sp_TargetPort p) ↔ int32 (ApiPort (Spec ts)) = 8108%Z)) as H.
  { intros rest. exists (http_port ts), rest. split_and!; [done|done|]. unfold listening_port.
    simpl. split; [by intros [= ->]|by intros ->]. }
  unfold ReconcileServices, reconcile_headless, reconcile_rest, createHeadlessService,
    createService, updateHeadlessService, updateService, deleteService.
  calls_auto ltac:(intros ? [=]; subst; try exact I; try apply H).
Qed.

(** A service that needs nothing *)
Definition first_port_ok (ts : TypesenseCluster) (s : Service) : Prop :=
  sp_Port <$> head (svc_Ports s) = Some (int32 (ApiPort (Spec ts))).
Definition service_ok (ts : TypesenseCluster) (key : ObjectKey) (s : Service) : Prop :=
  first_port_ok ts s
  ∧ (key = svcObjectKey ts → 2 ≤ length (svc_Ports s)
       ∧ om_Annotations (svc_meta s) = ServiceAnnotations (Spec ts)).

(** The part of the trace that says what the services are *)
Definition service_read (e : event) : option (ObjectKey * result Service) :=
  match e with Ev (Get KService key) r => Some (key, r) | _ => None end.
Definition services_ok (ts : TypesenseCluster) (tr : trace) : Prop :=
  Forall (λ e, match service_read e with
               | Some (key, Ok s) => service_ok ts key s
               | Some (_, Err _) => False
               | None => True
               end) tr.

Lemma first_port_eq ts s : first_port_ok ts s → first_port s = Done (int32 (ApiPort (Spec ts))).
Proof.
  unfold first_port_ok, first_port, index. destruct (svc_Ports s); [done|]. simpl.
  by intros [= <-].
Qed.

Lemma set_first_port_ok ts s s' :
  set_first_port (int32 (ApiPort (Spec ts))) s = Done s' → first_port_ok ts s'.
Proof. unfold set_first_port, first_port_ok. by destruct (svc_Ports s); intros [= <-]. Qed.

Lemma reconcile_headless_settles ts :
  wlp (reconcile_headless ts) (λ tr o, services_ok ts tr → writes tr = [] ∧ o = Done None).
Proof.
  unfold reconcile_headless, services_ok. apply wlp_trigger_bind.
  intros [s|e]; [|by apply wlp_exec; intros tr o _ [? _]%Forall_cons].
  assert (service_ok ts (headlessObjectKey ts) s → first_port s = Done (int32 (ApiPort (Spec ts))))
    as Hs by (intros [H _]; by apply first_port_eq).
  destruct (first_port s) as [p|w] eqn:Ep; cbn [lift].
  - apply wlp_ret_bind. destruct (Z.eqb_spec (int32 (ApiPort (Spec ts))) p); [by apply wlp_ret|].
    apply wlp_exec. intros tr o _ [H%Hs _]%Forall_cons. congruence.
  - intros [H%Hs _]%Forall_cons. congruence.
Qed.

Lemma reconcile_rest_settles ts :
  wlp (reconcile_rest ts) (λ tr o, services_ok ts tr → writes tr = [] ∧ o = Done None).
Proof.
  unfold reconcile_rest, services_ok. apply wlp_trigger_bind.
  intros [s|e]; [|by apply wlp_exec; intros tr o _ [? _]%Forall_cons].
  assert (service_ok ts (svcObjectKey ts) s →
    first_port s = Done (int32 (ApiPort (Spec ts))) ∧ (length (svc_Ports s) <? 2)%nat = false
    ∧ om_Annotations (svc_meta s) = ServiceAnnotations (Spec ts)) as Hs.
  { intros [H [H1 H2]%(λ f, f eq_refl)]. split_and!; [by apply first_port_eq| |done].
    by apply Nat.ltb_ge. }
  destruct (length (svc_Ports s) <? 2)%nat eqn:El.
  { apply wlp_exec. by intros tr o _ [(_ & ? & _)%Hs _]%Forall_cons. }
  apply wlp_ret_bind. destruct (first_port s) as [p|w] eqn:Ep; cbn [lift].
  2: { intros [(? & _)%Hs _]%Forall_cons. congruence. }
  apply wlp_ret_bind. destruct (_ || _)%bool eqn:E; [|by apply wlp_ret].
  apply wlp_exec. intros tr o _ [([= ->] & _ & Ea)%Hs _]%Forall_cons.
  rewrite Z.eqb_refl, Ea in E. simpl in E. apply negb_true_iff, bool_decide_eq_false in E. done.
Qed.

(** Services that are as they should be are left alone: when both are found
    with the port, the number of ports and the annotations wanted, nothing is
    written and no error returned; and whatever is found, every patch that is
    sent installs the port of the specification. *)
Theorem ReconcileServices_settles ts :
  wlp (ReconcileServices ts) (λ tr o,
    (services_ok ts tr → writes tr = [] ∧ o = Done None)
    ∧ Forall (λ w, match w with WPatch KService _ s => first_port_ok ts s | _ => True end)
        (writes tr)).
Proof.
  apply wlp_and.
  - unfold ReconcileServices. eapply wlp_bind_cut; [apply reconcile_headless_settles| |done].
    intros tr [e|] H1.
    + apply wlp_ret. rewrite app_nil_r. intros H. by destruct (H1 H).
    + eapply wlp_mono; [apply reconcile_rest_settles|]. intros tr' o H2 [Ha Hb]%Forall_app.
      rewrite writes_app. destruct (H1 Ha) as [-> _], (H2 Hb) as [-> ->]. done.
  - apply writes_only_Forall.
    unfold ReconcileServices, reconcile_headless, reconcile_rest, createHeadlessService,
      createService, updateHeadlessService, updateService, deleteService.
    calls_auto ltac:(intros ? [=]; subst;
      first [exact I | match goal with
        H : set_first_port _ _ = Done _ |- _ => exact (set_first_port_ok _ _ _ H) end]).
Qed.

(** ** Scrapers *)

(** The scraper [s] of the specification *)
Definition wanted_scraper (ts : TypesenseCluster) (s : DocSearchScraperSpec) : Prop :=
  ∃ scrapers, Scrapers (Spec ts) = Some scrapers ∧ s ∈ scrapers.

Lemma created_scraper_unchanged key ts s m :
  scraper_changed (set_cj_meta m (scraper_cronjob key ts s)) s = Done false.
Proof.
  unfold scraper_changed, index, mbind, outcome_bind, mret, outcome_ret. simpl.
  by rewrite !String.eqb_refl.
Qed.

(** The CronJob that is created for a scraper, under the name that scraper has *)
Definition cronjob_for (ts : TypesenseCluster) (s : DocSearchScraperSpec) (c : CronJob) : Prop :=
  ∃ m, SetControllerReference KTypesenseCluster (ts_meta ts)
         (cj_meta (scraper_cronjob (scraperObjectKey ts s) ts s)) = Ok m
    ∧ c = set_cj_meta m (scraper_cronjob (scraperObjectKey ts s) ts s).

Definition cronjob_listed (tr : trace) (c : CronJob) : Prop :=
  ∃ opts l, Ev (ListObjs KCronJob opts) (Ok l) ∈ tr ∧ c ∈ l.
(** The CronJob read under the name of the scraper differs from it. *)
Definition cronjob_differs (ts : TypesenseCluster) (tr : trace) (s : DocSearchScraperSpec)
    (c : CronJob) : Prop :=
  Ev (Get KCronJob (scraperObjectKey ts s)) (Ok c) ∈ tr ∧ scraper_changed c s = Done true.

(** Why a write is made, given the calls of the round *)
Definition scraper_write (ts : TypesenseCluster) (tr : trace) (w : write) : Prop :=
  match w with
  | WDelete KCronJob c =>
      (cronjob_listed tr c ∧ obsolete_scraper ts c = true)
      ∨ ∃ s, wanted_scraper ts s ∧ cronjob_differs ts tr s c
  | WCreate KCronJob c =>
      ∃ s, wanted_scraper ts s ∧ cronjob_for ts s c ∧ scraper_changed c s = Done false
        ∧ ((∃ e, IsNotFound e = true
              ∧ Ev (Get KCronJob (scraperObjectKey ts s)) (Err e) ∈ tr)
           ∨ ∃ c', cronjob_differs ts tr s c' ∧ Ev (Delete KCronJob c' None) None ∈ tr)
  | _ => False
  end.
(** A scraper whose CronJob was found as wanted, or created *)
Definition scraper_settled (ts : TypesenseCluster) (tr : trace) (s : DocSearchScraperSpec) : Prop :=
  ∃ c, (Ev (Get KCronJob (scraperObjectKey ts s)) (Ok c) ∈ tr ∧ scraper_changed c s = Done false)
     ∨ ∃ c', cronjob_for ts s c ∧ Ev (Create KCronJob c) (Ok c') ∈ tr.

Lemma scraper_write_app ts tr1 tr2 w :
  scraper_write ts tr1 w ∨ scraper_write ts tr2 w → scraper_write ts (tr1 ++ tr2) w.
Proof.
  unfold scraper_write, cronjob_listed, cronjob_differs.
  destruct w as [[]|[]|[]|[]|[]|]; try tauto; setoid_rewrite elem_of_app; naive_solver.
Qed.
Lemma scraper_settled_app ts tr1 tr2 s :
  scraper_settled ts tr1 s ∨ scraper_settled ts tr2 s → scraper_settled ts (tr1 ++ tr2) s.
Proof. unfold scraper_settled. setoid_rewrite elem_of_app. naive_solver. Qed.

Definition scraper_writes (ts : TypesenseCluster) (tr : trace) : Prop :=
  Forall (scraper_write ts tr) (writes tr).
Lemma scraper_writes_app ts tr1 tr2 :
  scraper_writes ts tr1 → scraper_writes ts tr2 → scraper_writes ts (tr1 ++ tr2).
Proof.
  intros H1 H2. unfold scraper_writes. rewrite writes_app. apply Forall_app. split.
  - eapply Forall_impl; [exact H1|]. intros w Hw. apply scraper_write_app. by left.
  - eapply Forall_impl; [exact H2|]. intros w Hw. apply scraper_write_app. by right.
Qed.

Lemma reconcile_scraper_writes ts s :
  wanted_scraper ts s →
  wlp (reconcile_scraper ts s) (λ tr o,
    scraper_writes ts tr ∧ (o = Done None → scraper_settled ts tr s)).
Proof.
  intros Hs. unfold reconcile_scraper, createScraper, deleteScraper, only_err. cbv zeta.
  set (key := scraperObjectKey ts s).
  assert (∀ tr m a, SetControllerReference KTypesenseCluster (ts_meta ts)
      (cj_meta (scraper_cronjob key ts s)) = Ok m →
    (∃ e, IsNotFound e = true ∧ Ev (Get KCronJob key) (Err e) ∈ tr)
    ∨ (∃ c', cronjob_differs ts tr s c' ∧ Ev (Delete KCronJob c' None) None ∈ tr) →
    scraper_writes ts tr →
    let tr' := tr ++ [Ev (Create KCronJob (set_cj_meta m (scraper_cronjob key ts s))) a] in
    scraper_writes ts tr' ∧ (Done (err_of a) = Done None → scraper_settled ts tr' s)) as Hcreate.
  { intros tr m a Hm Hwhy Htr tr'.
    assert (cronjob_for ts s (set_cj_meta m (scraper_cronjob key ts s))) as Hfor by by exists m.
    split.
    - unfold tr', scraper_writes. rewrite writes_app. apply Forall_app. split.
      + eapply Forall_impl; [exact Htr|]. intros w Hw. apply scraper_write_app. by left.
      + constructor; [|done]. apply scraper_write_app. left. exists s.
        split_and!; [done|done|apply created_scraper_unchanged|done].
    - intros [=]. destruct a as [c|e]; [|done]. eexists. right. exists c. split; [exact Hfor|].
      apply elem_of_app. right. by left. }
  apply wlp_trigger_bind. intros [c|e].
  - apply wlp_lift_bind; [intros [] Hch|intros w _; split; [constructor|done]].
    2: { apply wlp_ret. split; [constructor|]. intros _. exists c. left. split; [by left|done]. }
    assert (∀ a, scraper_writes ts [Ev (Get KCronJob key) (Ok c); Ev (Delete KCronJob c None) a]) as Hdel.
    { intros a. constructor; [|done]. right. exists s. split; [done|]. split; [by left|done]. }
    apply wlp_trigger_bind. intros [e|]; [apply wlp_ret; by split|].
    destruct (SetControllerReference _ _ _) as [m|e] eqn:Hm; [|apply wlp_ret; by split].
    apply wlp_trigger_bind. intros a. apply wlp_ret.
    apply (Hcreate [Ev (Get KCronJob key) (Ok c); Ev (Delete KCronJob c None) None] m a); [done| |done].
    right. exists c. split; [split; [by left|done]|]. right. by left.
  - destruct (IsNotFound e) eqn:He; [|apply wlp_ret; split; [constructor|done]].
    destruct (SetControllerReference _ _ _) as [m|e'] eqn:Hm; [|apply wlp_ret; split; [constructor|done]].
    apply wlp_trigger_bind. intros a. apply wlp_ret.
    apply (Hcreate [Ev (Get KCronJob key) (Err e)] m a); [done| |constructor].
    left. exists e. split; [done|by left].
Qed.

(** The two loops of [ReconcileScraper] *)
Definition scraper_list (ts : TypesenseCluster) : ListOptions :=
  {| lo_Namespace := Some (ts_Namespace ts); lo_Labels := getLabels ts |}.
Lemma delete_obsolete_writes ts l :
  wlp (for_err (λ c, if obsolete_scraper ts c then trigger (Delete KCronJob c None) else mret None) l)
    (λ tr o,
      let tr0 := Ev (ListObjs KCronJob (scraper_list ts)) (Ok l) :: tr in
      match o with
      | Done (Some _) => scraper_writes ts tr0
      | Done None => scraper_writes ts tr0
          ∧ ∀ c, c ∈ l → obsolete_scraper ts c = true → Ev (Delete KCronJob c None) None ∈ tr
      | Panicked _ => False
      end).
Proof.
  set (e0 := Ev (ListObjs KCronJob (scraper_list ts)) (Ok l)).
  apply (wlp_for_err _ (λ done tr, scraper_writes ts (e0 :: tr)
      ∧ ∀ c, c ∈ done → obsolete_scraper ts c = true → Ev (Delete KCronJob c None) None ∈ tr)
    (λ tr _, scraper_writes ts (e0 :: tr)) (λ _ _, False)).
  { split; [constructor|]. intros c Hc. by apply elem_of_nil in Hc. }
  intros done_ c rest tr El [Hw Hdel]. destruct (obsolete_scraper ts c) eqn:Eo.
  - apply wlp_trigger. intros a.
    assert (scraper_writes ts (e0 :: tr ++ [Ev (Delete KCronJob c None) a])) as Hw'.
    { unfold scraper_writes. rewrite app_comm_cons, writes_app. apply Forall_app. split.
      - eapply Forall_impl; [exact Hw|]. intros w H. apply scraper_write_app. by left.
      - constructor; [|done]. left. split; [|done]. eexists _, l. split; [by left|].
        rewrite El. set_solver. }
    destruct a as [e|]; [exact Hw'|]. split; [exact Hw'|]. intros c' Hc' Ho.
    apply elem_of_app in Hc' as [Hc'|Heq%list_elem_of_singleton]; apply elem_of_app.
    + left. by apply Hdel.
    + subst c'. right. by left.
  - apply wlp_ret. rewrite app_nil_r. split; [exact Hw|]. intros c' Hc' Ho.
    apply elem_of_app in Hc' as [Hc'|Heq%list_elem_of_singleton]; [by apply Hdel|congruence].
Qed.
Lemma scrapers_writes ts scrapers :
  Scrapers (Spec ts) = Some scrapers →
  wlp (for_err (reconcile_scraper ts) scrapers) (λ tr o, scraper_writes ts tr
    ∧ (o = Done None → ∀ s, wanted_scraper ts s → scraper_settled ts tr s)).
Proof.
  intros Es. eapply wlp_mono.
  { apply (wlp_for_err _ (λ done tr, scraper_writes ts tr ∧ ∀ s, s ∈ done → scraper_settled ts tr s)
      (λ tr _, scraper_writes ts tr) (λ tr _, scraper_writes ts tr)).
    - split; [constructor|]. intros s Hs. by apply elem_of_nil in Hs.
    - intros done_ s rest tr El [Hw Hset].
      eapply wlp_mono; [apply (reconcile_scraper_writes ts s)|].
      { exists scrapers. split; [done|]. rewrite El. set_solver. }
      cbv beta. intros tr' o [Hw' Hs].
      pose proof (scraper_writes_app _ _ _ Hw Hw') as Hall.
      destruct o as [[e|]|w]; [exact Hall| |exact Hall]. split; [exact Hall|].
      intros s' Hs'. apply elem_of_app in Hs' as [Hs'|Heq%list_elem_of_singleton];
        apply scraper_settled_app; [auto|subst s'; auto]. }
  cbv beta. intros tr [[e|]|w]; [by split| |by split].
  intros [Hw Hset]. split; [done|]. intros _ s (l & E & Hin). rewrite Es in E.
  injection E as <-. auto.
Qed.

(** C25 [ReconcileScraper] deletes a CronJob only if it was listed and no scraper
    of the specification has its name, or if it was read under the name of a
    scraper of the specification and differs from that one; it creates a CronJob
    only for a scraper of the specification, under its name, after none was found
    there or the one that differed was deleted, and what it creates does not count
    as changed.  When it succeeds, every CronJob that was listed and is obsolete
    was deleted, and for every scraper the CronJob was found as wanted or created. *)
Theorem ReconcileScraper_writes ts :
  wlp (ReconcileScraper ts) (λ tr o,
    Forall (scraper_write ts tr) (writes tr)
    ∧ (o = Done None →
         (∃ l rest, tr = Ev (ListObjs KCronJob (scraper_list ts)) (Ok l) :: rest
            ∧ ∀ c, c ∈ l → obsolete_scraper ts c = true → Ev (Delete KCronJob c None) None ∈ rest)
         ∧ ∀ s, wanted_scraper ts s → scraper_settled ts tr s)).
Proof.
  unfold ReconcileScraper, deleteScraper. apply wlp_trigger_bind. intros [l|e].
  2: { apply wlp_ret. split; [constructor|done]. }
  eapply wlp_bind_cut; [apply (delete_obsolete_writes ts l)| |by intros tr w []].
  cbv beta. intros tr [e|] H; [apply wlp_ret; rewrite app_nil_r; by split|].
  destruct H as [Hw Hdel]. destruct (Scrapers (Spec ts)) as [scrapers|] eqn:Es.
  2: { apply wlp_ret. rewrite app_nil_r. split; [exact Hw|]. intros _.
       split; [by exists l, tr|]. intros s (? & ? & _). congruence. }
  eapply wlp_mono; [apply (scrapers_writes ts scrapers Es)|]. cbv beta.
  intros tr' o [Hw' Hall]. rewrite app_comm_cons. split; [by apply (scraper_writes_app _ (_ :: _))|].
  intros Ho. split.
  - exists l, (tr ++ tr'). split; [done|]. intros c Hc Hobs. apply elem_of_app. left. auto.
  - intros s Hs. apply scraper_settled_app. right. by apply Hall.
Qed.

(** ** HTTP routes *)

(** The route was looked up and is not there. *)
Definition route_missing (ts : TypesenseCluster) (spec : HttpRouteSpec) (tr : trace) : Prop :=
  ∃ err tr', tr = Ev (Get KHTTPRoute (httpRouteObjectKey ts spec)) (Err err) :: tr'
    ∧ IsNotFound err = true.

(** C39 A route that is switched off cannot be reconciled once it is gone: for a
    disabled route that does not exist the operator deletes an object without a
    name, and whatever the server answers the step ends in an error or in a
    panic, never in success. *)
Theorem disabled_missing_route_fails ts spec :
  wlp (reconcile_route ts spec) (λ tr o,
    hs_Enabled spec = false → route_missing ts spec tr → o ≠ Done None).
Proof.
  unfold reconcile_route. apply wlp_trigger_bind. intros [route|err].
  { apply wlp_exec. intros tr o _ _ (err & tr' & E & _).
    by apply (f_equal (λ t, match t with Ev (Get _ _) (Ok _) :: _ => true | _ => false end)) in E. }
  destruct (IsNotFound err); [|by apply wlp_ret].
  destruct (hs_Enabled spec) eqn:He; [by apply wlp_exec|].
  unfold reconcile_existing_route, disable_route. rewrite He. cbn [negb].
  apply wlp_assoc, wlp_trigger_bind. intros [grants|e]; [|by apply wlp_ret_bind, wlp_ret].
  apply wlp_assoc. eapply wlp_bind_cut with (R := λ _ _, True); [by apply wlp_exec| |done].
  intros tr [] _. apply wlp_assoc, wlp_trigger_bind.
  intros [e|]; apply wlp_ret_bind; [by apply wlp_ret|].
  by apply wlp_lift_bind.
Qed.

(** C40 A change of the labels of a route is never carried out: an update leaves
    the labels alone, so a route whose labels differ still counts as changed
    after it was updated, and is patched again in every round. *)
Theorem route_labels_never_settle ts spec route route' :
  updated_route spec route ts = Done route' →
  hs_Labels spec ≠ getHttpRouteLabels_of route spec ts →
  getHttpRouteLabels_of route' spec ts = getHttpRouteLabels_of route spec ts
  ∧ route_changed spec route' ts ≠ Done false.
Proof.
  intros Hu Hl.
  assert (getHttpRouteLabels_of route' spec ts = getHttpRouteLabels_of route spec ts) as E.
  { unfold updated_route, mbind, outcome_bind, mret, outcome_ret in Hu.
    repeat case_match; try done. by injection Hu as <-. }
  split; [done|]. unfold route_changed, or_else, deref, mbind, outcome_bind, mret, outcome_ret.
  rewrite E.
  assert (DeepEqual (hs_Labels spec) (getHttpRouteLabels_of route spec ts) = false) as ->
    by by apply bool_decide_eq_false.
  destruct (first_path route') as [p|w]; [|done]. destruct (pm_Value p); [|done].
  by destruct (DeepEqual (hs_Hostnames spec) (hr_Hostnames route')).
Qed.

(** ** The reverse proxy *)

(** The generated nginx configuration forwards to the client service of the
    cluster on its API port, whatever directives are configured. *)
Theorem nginx_forwards_to_rest_service ts :
  contains_str (getIngressNginxConf ts)
    ("proxy_pass http://" +:+ key_Name (svcObjectKey ts) +:+ ":" +:+ itoa (ApiPort (Spec ts))
     +:+ "/;") = true.
Proof.
  unfold getIngressNginxConf, svcObjectKey, ClusterRestService. simpl key_Name.
  set (ig := IngressOf (Spec ts)). generalize (directives (ig ≫= is_HttpDirectives)) as h.
  generalize (directives (ig ≫= is_ServerDirectives)) as s.
  generalize (directives (ig ≫= is_LocationDirectives)) as l.
  generalize (match ig ≫= is_Referer with Some r => referer r | None => "" end) as r.
  intros r l s h. apply contains_str_spec.
  exists ("events {}" +:+ nl +:+ tabs 2 +:+ "http {" +:+ directive (tabs 2 +:+ "  ") h +:+ nl
    +:+ tabs 2 +:+ "  server {" +:+ nl +:+ tabs 3 +:+ "listen 80;"
    +:+ directive (tabs 3) r +:+ directive (tabs 3) s +:+ nl
    +:+ tabs 3 +:+ "location / {" +:+ nl +:+ tabs 3 +:+ "  ").
  exists (nl +:+ tabs 3 +:+ "  proxy_pass_request_headers on;"
    +:+ directive (tabs 3 +:+ "  ") l +:+ nl +:+ tabs 3 +:+ "}" +:+ nl +:+ tabs 2 +:+ "  }" +:+ nl
    +:+ tabs 2 +:+ "}").
  unfold confTemplate. by rewrite !str_app_assoc.
Qed.

(** Volumes without a [DefaultMode] *)
Definition no_mode (v : Volume) : Prop := vol_ConfigMap v ≫= cmv_DefaultMode = None.

Lemma clear_default_mode_no_mode v : no_mode (clear_default_mode v).
Proof. unfold no_mode, clear_default_mode. simpl. by destruct (vol_ConfigMap v). Qed.

Lemma sync_volumes_no_mode ts ro p :
  Forall no_mode (px_Volumes (sync_volumes ts ro p).1.2).
Proof.
  assert (∀ vols, Forall no_mode (clear_default_mode <$> vols)) as H.
  { intros vols. apply Forall_fmap, Forall_forall. intros v _. apply clear_default_mode_no_mode. }
  unfold sync_volumes, needsSyncVolumes, normalizeVolumes.
  destruct (negb _); exact (H _).
Qed.

Lemma sync_readonly_no_mode ts igs ro p :
  is_ReadOnlyRootFilesystem igs = Some ro →
  Forall no_mode (px_Volumes (sync_readonly ts igs p).1.2).
Proof.
  intros E. unfold sync_readonly. rewrite E.
  destruct (DeepEqual (Some (ro_context ro)) _).
  - pose proof (sync_volumes_no_mode ts ro p) as H.
    destruct (sync_volumes ts ro p) as [[b p'] ro']. by destruct (needsSyncMounts _ _).
  - set (p0 := {| px_Container := _; px_Volumes := _ |}).
    pose proof (sync_volumes_no_mode ts ro p0) as H.
    destruct (sync_volumes ts ro p0) as [[b p'] ro']. by destruct (needsSyncMounts _ _).
Qed.

Ltac unfold_ingress :=
  unfold ReconcileIngress, reconcile_proxy, reconcile_ingress_object, createIngress, updateIngress,
    deleteIngress, reconcile_ingress_configmap, createIngressConfigMap, updateIngressConfigMap,
    reconcile_ingress_deployment, createIngressDeployment, reconcile_ingress_service,
    createIngressService, updateIngressService; cbv zeta.

(** With a read-only root filesystem, every update of the proxy Deployment
    drops the [DefaultMode] of all its volumes, those of the specification
    included: the comparison that ignores the mode works on shared pointers. *)
Theorem proxy_update_drops_modes ts :
  writes_only (λ w, match w with
    | WUpdate KDeployment d =>
        ∀ igs ro, IngressOf (Spec ts) = Some igs → is_ReadOnlyRootFilesystem igs = Some ro →
          Forall no_mode (ps_Volumes (pt_Spec (dep_Template d)))
    | _ => True
    end) (ReconcileIngress ts).
Proof.
  unfold_ingress. destruct (IngressOf (Spec ts)) as [igs|] eqn:Eig.
  2: { calls_auto ltac:(intros ? [=]; subst; exact I). }
  calls_auto ltac:(intros ? [=]; subst; try exact I);
    intros igs' ro [= <-] Hro; simpl; lazymatch goal with
    | E : sync_readonly ts igs ?p = _ |- _ =>
        pose proof (sync_readonly_no_mode ts igs ro p Hro) as Hm; by rewrite E in Hm
    end.
Qed.

(** C26 HTTP routes take precedence over the Ingress: when the specification has
    no Ingress, or lists HTTP routes, [ReconcileIngress] looks the Ingress up and
    deletes the one it found; without one, or when it cannot be read, it makes no
    further call.  The cluster in memory stays as it is and an error is passed on. *)
Theorem ReconcileIngress_off ts :
  wlp (ReconcileIngress ts) (λ tr o,
    IngressOf (Spec ts) = None ∨ is_Some (HttpRoutes (Spec ts)) →
    (∃ ig err, tr = [Ev (Get KIngress (ingressObjectKey ts)) (Ok ig); Ev (Delete KIngress ig None) err]
       ∧ o = Done (ts, err))
    ∨ ∃ err, tr = [Ev (Get KIngress (ingressObjectKey ts)) (Err err)]
        ∧ o = Done (ts, if IsNotFound err then None else Some err)).
Proof.
  apply wlp_exec. intros tr o He Hoff. revert tr o He. apply wlp_exec.
  unfold ReconcileIngress, deleteIngress. cbv zeta.
  apply wlp_trigger_bind. intros [ig|err].
  - destruct (IngressOf (Spec ts)), (HttpRoutes (Spec ts)); try (by destruct Hoff as [|[]]);
      apply wlp_trigger_bind; intros err; apply wlp_ret; left; by eexists ig, err.
  - destruct (IsNotFound err) eqn:Ee.
    + destruct (IngressOf (Spec ts)), (HttpRoutes (Spec ts)); try (by destruct Hoff as [|[]]);
        apply wlp_ret; right; exists err; by rewrite Ee.
    + apply wlp_ret. right. exists err. by rewrite Ee.
Qed.

(** An updated Ingress counts as up to date: when the wanted annotations are
    not under a filter and a path type is set, [ingress_changed] finds nothing
    to change in what [updateIngress] sent. *)
Theorem ingress_settles ig ig' ts igs :
  updated_ingress ig ts igs = Done ig' →
  unfiltered (is_Annotations igs) (clusterIssuerAnnotationKey :: rancherDomainAnnotationKey
    :: IgnoreAnnotationsFromExternalMutations (Spec ts)) →
  is_Some (is_PathType igs) →
  ingress_changed ig' ts igs = Done false.
Proof.
  intros Hu Hf [pt Hpt].
  unfold updated_ingress, index, deref, set_first, mbind, outcome_bind, mret, outcome_ret in Hu.
  destruct (ing_Rules ig) as [|rule rules]; [done|]. simpl in Hu.
  destruct (ir_Paths rule) as [[|path paths]|]; try done. simpl in Hu.
  destruct (ing_TLS ig) as [|tls tlss]; [done|]. injection Hu as <-.
  unfold ingress_changed, or_else, index, deref, mbind, outcome_bind, mret, outcome_ret.
  assert (is_Annotations igs !! clusterIssuerAnnotationKey = None) as Hn.
  { apply eq_None_not_Some. intros [v Hv]. by apply Hf in Hv. }
  unfold getIngressAnnotations, ingress_annotations, maps_Copy, ingress_tls_secret. simpl.
  rewrite !String.eqb_refl, Hpt. simpl. rewrite !String.eqb_refl. simpl.
  destruct (is_ClusterIssuer igs) as [issuer|].
  - rewrite <-insert_union_singleton_r by done. unfold map_get. rewrite lookup_insert_eq. simpl.
    rewrite String.eqb_refl, filterMap_insert_hit, filterMap_id, DeepEqual_refl by done. simpl.
    destruct (is_TLSSecretName igs); simpl; by rewrite ?String.eqb_refl.
  - rewrite (right_id_L ∅ (∪)), filterMap_id, DeepEqual_refl by done. simpl.
    destruct (is_TLSSecretName igs); simpl; by rewrite ?String.eqb_refl.
Qed.

(** ** The PodMonitor *)

(** The read that decides about the old exporter failed for another reason
    than its absence. *)
Definition exporter_read_failed (tr : trace) : bool :=
  match tr with
  | Ev (Get KDeployment _) (Err err) :: _ => negb (IsNotFound err)
  | _ => false
  end.

(** C27 [ReconcilePodMonitor] creates PodMonitors only when metrics are asked
    for, selecting the pods of this cluster in its namespace at the interval of
    the specification; it deletes one only when metrics are off or it differs,
    and writes nothing else but the deletion of the old exporter.  That deletion
    is sent for an object without a name whenever the exporter cannot be read. *)
Theorem ReconcilePodMonitor_writes ts :
  wlp (ReconcilePodMonitor ts) (λ tr _,
    Forall (λ w, match w with
      | WCreate KPodMonitor p => ∃ metrics, Metrics (Spec ts) = Some metrics
          ∧ pmon_Selector p = getLabels ts ∧ pmon_MatchNames p = [ts_Namespace ts]
          ∧ pme_Interval <$> head (pmon_Endpoints p) = Some (exporter_interval metrics)
      | WDelete KPodMonitor p =>
          ∀ metrics, Metrics (Spec ts) = Some metrics → podmonitor_changed metrics p = Done true
      | WDelete KDeployment _ => True
      | _ => False
      end) (writes tr)
    ∧ (exporter_read_failed tr = true → head (writes tr) = Some (WDelete KDeployment dep_zero))).
Proof.
  apply wlp_and.
  - apply writes_only_Forall.
    unfold ReconcilePodMonitor, deleteMetricsExporterServiceMonitor, IsApiGroupDeployed,
      reconcile_podmonitor, deleteMetricsExporterDeployment, deleteMetricsExporterPodMonitor,
      createMetricsExporterPodMonitor. cbv zeta.
    calls_auto ltac:(intros ? [=]; subst; try exact I).
    all: first [by eexists | by intros ? [= <-] | congruence].
  - unfold ReconcilePodMonitor, deleteMetricsExporterServiceMonitor. cbv zeta.
    apply wlp_assoc, wlp_trigger_bind. intros [d|err]; [by apply wlp_exec|].
    destruct (IsNotFound err) eqn:E.
    { apply wlp_exec. intros tr o _. simpl. by rewrite E. }
    apply wlp_assoc, wlp_trigger_bind. intros x. by apply wlp_exec.
Qed.
End Parts.

(** ** Concrete instances *)
Section Witnesses.
#[local] Existing Instance concreteK.
#[local] Existing Instance concreteL.

(** A route that asks for a label *)
Definition demo_route_spec : HttpRouteSpec :=
  {| hs_Enabled := true; hs_Name := "main";
     hs_ParentRef := {| gp_Name := "gateway"; gp_Namespace := Some "infra"; gp_SectionName := None |};
     hs_Hostnames := ["search.example.com"]; hs_Path := "/"; hs_PathType := Some "PathPrefix";
     hs_Labels := {["team" := "search"]}; hs_Annotations := ∅; hs_ReferenceGrant := Some false |}.
(** The route as it was created before the label was asked for *)
Definition demo_route : HTTPRoute :=
  let ts := demo_ts "t1" 3 "QuorumReady" in
  http_route (httpRouteObjectKey ts demo_route_spec)
    {| hs_Enabled := true; hs_Name := "main"; hs_ParentRef := hs_ParentRef demo_route_spec;
       hs_Hostnames := ["search.example.com"]; hs_Path := "/"; hs_PathType := Some "PathPrefix";
       hs_Labels := ∅; hs_Annotations := ∅; hs_ReferenceGrant := Some false |} ts.

Lemma route_labels_never_settle_witness :
  ∃ route', updated_route demo_route_spec demo_route (demo_ts "t1" 3 "QuorumReady") = Done route'
    ∧ route_changed demo_route_spec route' (demo_ts "t1" 3 "QuorumReady") ≠ Done false.
Proof.
  eexists. split; [reflexivity|].
  eapply (route_labels_never_settle (demo_ts "t1" 3 "QuorumReady") demo_route_spec demo_route);
    [reflexivity|].
  apply (bool_decide_unpack _). by vm_compute.
Defined.

(** An Ingress with a cluster issuer *)
Definition demo_igs : IngressSpec :=
  {| is_Referer := None; is_Host := "search.example.com"; is_HttpDirectives := None;
     is_ServerDirectives := None; is_LocationDirectives := None;
     is_ClusterIssuer := Some "letsencrypt"; is_IngressClassName := "nginx";
     is_ServiceAnnotations := ∅; is_Annotations := {["team" := "search"]};
     is_TLSSecretName := None; is_Resources := None; is_Image := "nginx:alpine";
     is_ReadOnlyRootFilesystem := None; is_Path := "/"; is_PathType := Some "Prefix" |}.
Definition demo_ingress : Ingress :=
  {| ing_meta := meta_zero; ing_IngressClassName := Some "nginx";
     ing_TLS := [{| tls_Hosts := []; tls_SecretName := "" |}];
     ing_Rules := [{| ir_Host := "old.example.com";
                      ir_Paths := Some [{| ip_Path := "/"; ip_PathType := Some "Exact";
                                           ip_BackendService := "t1-reverse-proxy";
                                           ip_BackendPort := 80 |}] |}] |}.

Lemma ingress_settles_witness :
  ∃ ig', updated_ingress demo_ingress (demo_ts "t1" 3 "QuorumReady") demo_igs = Done ig'
    ∧ ingress_changed ig' (demo_ts "t1" 3 "QuorumReady") demo_igs = Done false.
Proof.
  eexists. split; [reflexivity|].
  eapply (ingress_settles demo_ingress); [reflexivity| |by eexists].
  apply unfiltered_dec_spec. by vm_compute.
Defined.
End Witnesses.
