(* ===== verification/Rbac.v ===== *)
(** * Permissions

    The [+kubebuilder:rbac] markers above [Reconcile] say which requests the
    operator's role allows; the deployed ClusterRole is generated from them.
    This file states them as a table and proves, operation by operation, that
    every request of the handlers is covered, but for those that go through the
    proxy of the API server.  The lemmas are in the hint database [effects]. *)
From S2P Require Import Prelude GoLib K8s Api Effects Hoare External Utils Conditions.
From S2P Require Import StatefulSetOps ConfigMap QuorumHelpers Quorum Secret Services.
From S2P Require Import StatefulSetHash StatefulSet Scraper PodMonitors Ingresses HttpRoute.
From S2P Require Import Controller.

Inductive access := AGet | AList | ACreate | AUpdate | APatch | ADelete.
#[export] Instance access_eq_dec : EqDecision access.
Proof. solve_decision. Defined.

Definition full_access : list access := [AGet; AList; ACreate; AUpdate; APatch; ADelete].

(** The markers for objects and for their [status] subresource *)
Definition markers (k : kind) : list access :=
  match k with
  | KPod => [AGet; AList; ADelete; AUpdate; APatch]
  | KEndpointSlice => [AGet; AList]
  | _ => full_access
  end.
Definition status_markers (k : kind) : list access :=
  match k with
  | KTypesenseCluster | KPod => [AGet; AUpdate; APatch]
  | _ => []
  end.

(** What a request is made on: objects of a kind, their [status], the logs of
    pods, events, or a pod through the proxy of the API server *)
Inductive resource := RObject (k : kind) | RStatus (k : kind) | RPodLog | REvent | RPodProxy.
Definition granted (res : resource) : list access :=
  match res with
  | RObject k => markers k
  | RStatus k => status_markers k
  | RPodLog => [AGet]
  | REvent => [ACreate; APatch]
  | RPodProxy => []
  end.

Section Rbac.
Context `{K : K8s} (in_cluster : bool).

(** The request a call makes of the API server.  The clock, the random source
    and the making of a client make none; in the cluster a node is asked
    directly, and out of it through the proxy ([buildUrl]).  Discovery is open to
    every account. *)
Definition request (e : event) : option (access * resource) :=
  match e with
  | Ev (Get k _) _ => Some (AGet, RObject k)
  | Ev (ListObjs k _) _ => Some (AList, RObject k)
  | Ev (Create k _) _ => Some (ACreate, RObject k)
  | Ev (Update k _) _ => Some (AUpdate, RObject k)
  | Ev (Patch k _ _) _ => Some (APatch, RObject k)
  | Ev (StatusPatch k _ _) _ => Some (APatch, RStatus k)
  | Ev (Delete k _ _) _ => Some (ADelete, RObject k)
  | Ev (Eventf _ _ _ _) _ => Some (ACreate, REvent)
  | Ev (GetLogs _ _ _ _) _ => Some (AGet, RPodLog)
  | Ev (HttpGet _ _ _) _ => if in_cluster then None else Some (AGet, RPodProxy)
  | Ev Now _ | Ev (RandRead _) _ | Ev HTTPClientFor _ | Ev ServerVersion _ | Ev ServerGroups _ =>
      None
  end.
(** Whether the role allows it *)
Definition allowed (e : event) : bool :=
  match request e with
  | Some (a, res) => bool_decide (a ∈ granted res)
  | None => true
  end.

(** A request to a node that is made through the proxy *)
Definition through_proxy (e : event) : bool :=
  match e with Ev (HttpGet _ _ _) _ => negb in_cluster | _ => false end.
End Rbac.

Section Covered.
Context `{K : K8s}.

(** Allowed unless it goes through the proxy, in the cluster and out of it *)
Definition covered (e : event) : bool :=
  Bool.eqb (allowed true e) (negb (through_proxy true e))
  && Bool.eqb (allowed false e) (negb (through_proxy false e)).
(** A patch of the status of the custom resource, which only [Reconcile] itself
    makes; the parts make the other requests. *)
Definition cluster_status (e : event) : bool :=
  match e with Ev (StatusPatch KTypesenseCluster _ _) _ => true | _ => false end.
Definition part_event (e : event) : bool := covered e && negb (cluster_status e).
End Covered.

Abbreviation within_role := (all_events (λ e, covered e = true)).
Abbreviation part_calls := (all_events (λ e, part_event e = true)).
Ltac rbac := calls_auto ltac:(reflexivity).

Lemma part_role `{K : K8s} {A} (p : prog A) : part_calls p → within_role p.
Proof.
  intros H. eapply all_events_mono; [exact H|]. simpl. intros e He.
  by apply andb_true_iff in He as [? _].
Qed.

Section Parts.
Context `{L : Libs} (r : Reconciler).

Lemma role_list_pods sts : part_calls (list_pods sts).
Proof. unfold list_pods. rbac. Qed.
#[local] Hint Resolve role_list_pods : effects.
Lemma role_GetFresh key : part_calls (GetFreshStatefulSet key).
Proof. unfold GetFreshStatefulSet. rbac. Qed.
#[local] Hint Resolve role_GetFresh : effects.
Lemma role_patchStatus ts f : within_role (patchStatus ts f).
Proof. unfold patchStatus. rbac. Qed.
#[local] Hint Resolve role_patchStatus : effects.
Lemma role_setConditionNotReady ts s e : within_role (setConditionNotReady ts s e).
Proof. unfold setConditionNotReady. rbac. Qed.
#[local] Hint Resolve role_setConditionNotReady : effects.
Lemma role_getNodes ts n b : part_calls (getNodes ts n b).
Proof. unfold getNodes, getEndpointSlicesForStatefulSet. rbac. Qed.
#[local] Hint Resolve role_getNodes : effects.
Lemma role_updateConfigMap ts cm n b : part_calls (updateConfigMap ts cm n b).
Proof. unfold updateConfigMap, deleteConfigMap. rbac. Qed.
#[local] Hint Resolve role_updateConfigMap : effects.
Lemma role_forcePods ts : part_calls (forcePodsConfigMapUpdate ts).
Proof. unfold forcePodsConfigMapUpdate. rbac. Qed.
#[local] Hint Resolve role_forcePods : effects.
Lemma role_Scale key n : part_calls (ScaleStatefulSet key n).
Proof. unfold ScaleStatefulSet. rbac. Qed.
#[local] Hint Resolve role_Scale : effects.
Lemma role_Purge sts ts : part_calls (PurgeStatefulSetPods sts ts).
Proof. unfold PurgeStatefulSetPods. rbac. Qed.
#[local] Hint Resolve role_Purge : effects.

(** ** The reconcilers *)
Lemma role_secret ts : part_calls (ReconcileSecret ts).
Proof. unfold ReconcileSecret, createAdminApiKey, generateToken. rbac. Qed.
Lemma role_configmap ts : part_calls (ReconcileConfigMap ts).
Proof. unfold ReconcileConfigMap, createConfigMap. rbac. Qed.
Lemma role_services ts : part_calls (ReconcileServices ts).
Proof.
  unfold ReconcileServices, reconcile_headless, reconcile_rest, createHeadlessService,
    createService, updateHeadlessService, updateService, deleteService. rbac.
Qed.
Lemma role_ingress ts : part_calls (ReconcileIngress ts).
Proof.
  unfold ReconcileIngress, reconcile_proxy, reconcile_ingress_object, createIngress, updateIngress,
    deleteIngress, reconcile_ingress_configmap, createIngressConfigMap, updateIngressConfigMap,
    reconcile_ingress_deployment, createIngressDeployment, reconcile_ingress_service,
    createIngressService, updateIngressService. cbv zeta. rbac.
Qed.
Lemma role_httproute ts : part_calls (ReconcileHttpRoute ts).
Proof.
  unfold ReconcileHttpRoute, IsFeatureSupported, IsApiGroupDeployed, deleteOrphanedHttpRoutes,
    deleteOrphanedReferenceGrants, reconcile_route, create_new_route, createHttpRoute,
    reconcile_existing_route, disable_route, deleteReferenceGrant, deleteHttpRoute,
    updateHttpRoute, updateReferenceGrant, createReferenceGrant, deleteReferenceGrant. rbac.
Qed.
Lemma role_scraper ts : part_calls (ReconcileScraper ts).
Proof. unfold ReconcileScraper, reconcile_scraper, createScraper, deleteScraper. rbac. Qed.
Lemma role_podmonitor ts : part_calls (ReconcilePodMonitor ts).
Proof.
  unfold ReconcilePodMonitor, reconcile_podmonitor, deleteMetricsExporterServiceMonitor,
    deleteMetricsExporterDeployment, createMetricsExporterPodMonitor,
    deleteMetricsExporterPodMonitor, IsApiGroupDeployed. cbv zeta. rbac.
Qed.
Lemma role_conf_data ts acs d : part_calls (additional_conf_data ts acs d).
Proof.
  revert d. induction acs as [|ac acs IH]; intros d; cbn [additional_conf_data]; rbac; apply IH.
Qed.
#[local] Hint Resolve role_conf_data : effects.
Lemma role_build key ts : part_calls (buildStatefulSet key ts).
Proof. unfold buildStatefulSet, getHealthyLagThresholds, buildStatefulSetHash. rbac. Qed.
#[local] Hint Resolve role_build : effects.
Lemma role_statefulset ts : part_calls (ReconcileStatefulSet ts).
Proof.
  unfold ReconcileStatefulSet, createStatefulSet, reconcile_existing, apply_update, apply_scale,
    updateStatefulSet, get_nodes_cm, force_if_updated. rbac.
Qed.
Lemma role_update_gates h ts ns logs b nh nes : part_calls (update_gates r h ts ns logs b nh nes).
Proof.
  revert b nh. induction nes as [|ne nes IH]; intros b nh; cbn [update_gates];
    unfold calculatePodReadinessGate, getNodeHealth, updatePodReadinessGate; rbac; apply IH.
Qed.
#[local] Hint Resolve role_update_gates : effects.
Lemma role_quorum ts secret key : part_calls (ReconcileQuorum r ts secret key).
Proof.
  unfold ReconcileQuorum, getQuorum, GetUnscheduledPods, RestartUnscheduledPods,
    delete_unscheduled, getHttpClient, getHealthyWriteLagThreshold, lag_threshold,
    reconcile_nodes, gather_logs, getPodLogs, gather_status, getNodeStatus, evaluate_quorum,
    conclude, downgrade_unless_bootstrapping, downgradeQuorum, upgradeQuorum. rbac.
Qed.
#[local] Hint Resolve role_secret role_configmap role_services role_ingress role_httproute
  role_scraper role_podmonitor role_statefulset role_quorum : effects.

#[local] Hint Resolve part_role : effects.

Lemma role_quorum_phase ts secret sts n : within_role (quorum_phase r ts secret sts n).
Proof.
  unfold quorum_phase, report_quorum, report_not_ready, setConditionReady. cbv zeta. rbac.
Qed.
#[local] Hint Resolve role_quorum_phase : effects.

Lemma role_Reconcile req : within_role (Reconcile r req).
Proof.
  unfold Reconcile, initConditions, reconcile_parts, statefulset_phase, finish, phase, fail,
    report_not_ready. cbv zeta. rbac.
Qed.

(** C13 The role allows every request that [Reconcile] makes, in whatever state it
    finds the cluster and whatever the server answers, with one exception: out of
    the cluster the nodes are asked through the proxy of the API server, and no
    marker grants that.  In the cluster there is no exception. *)
Theorem Reconcile_within_role req :
  all_events (λ e, allowed (InCluster r) e = negb (through_proxy (InCluster r) e))
    (Reconcile r req).
Proof.
  eapply all_events_mono; [apply role_Reconcile|]. cbv beta.
  intros e [H1%eqb_prop H2%eqb_prop]%andb_true_iff. by destruct (InCluster r).
Qed.
End Parts.

#[export] Hint Resolve role_list_pods role_GetFresh role_forcePods role_secret role_configmap
  role_services role_ingress role_httproute role_scraper role_podmonitor role_statefulset
  role_quorum : effects.
