(* ===== verification/ControllerTheory.v ===== *)
(** * Theorems on the reconciliation loop (Controller, Conditions)

    What a round of [Reconcile] reports, whatever the parts do. *)
From S2P Require Import Prelude GoLib GoNet GoJson K8s Api Effects Hoare External Concrete.
From S2P Require Import Utils Conditions StatefulSetOps ConfigMap QuorumHelpers Quorum Secret.
From S2P Require Import Services StatefulSetHash StatefulSet Scraper PodMonitors Ingresses.
From S2P Require Import HttpRoute Controller Footprint QuorumTheory QuorumSpec Rbac.

(** ** Requeueing *)

Lemma requeue_after_exact g :
  (0 ≤ g ≤ 9223371976)%Z → requeue_after g = ((60 + g) * Second)%Z.
Proof.
  intros H. unfold requeue_after, reconcileRequeuePeriod, Second in *.
  rewrite (int64_id (g * _)) by (unfold in_int64; lia).
  rewrite int64_id by (unfold in_int64; lia). lia.
Qed.

(** C28 For the grace periods the CRD admits (1 to 300 seconds) the next round
    is due after one to six minutes, with nothing lost to overflow; the delay
    exceeds the grace period by exactly the requeue period. *)
Theorem requeue_after_bounds g :
  (1 ≤ g ≤ 300)%Z →
  requeue_after g = (reconcileRequeuePeriod + g * Second)%Z
  ∧ (61 * Second ≤ requeue_after g ≤ 360 * Second)%Z.
Proof.
  intros H. rewrite requeue_after_exact by lia.
  unfold reconcileRequeuePeriod, Second. lia.
Qed.
Lemma requeue_after_bounds_witness :
  (1 ≤ 5 ≤ 300)%Z ∧ (61 * Second ≤ requeue_after 5 ≤ 360 * Second)%Z.
Proof. split; [lia|]. apply (requeue_after_bounds 5). lia. Defined.

Section Loop.
Context `{L : Libs} (r : Reconciler).

(** ** Status patches *)

(** The status patches of the custom resource, in order: the cluster as sent *)
Definition status_patches (tr : trace) : list TypesenseCluster :=
  omap (λ w, match w with WStatusPatch KTypesenseCluster _ o => Some o | _ => None end) (writes tr).

Lemma status_patches_app tr1 tr2 :
  status_patches (tr1 ++ tr2) = status_patches tr1 ++ status_patches tr2.
Proof. unfold status_patches. by rewrite writes_app, omap_app. Qed.

Lemma part_no_status {A} (p : prog A) : part_calls p → wlp p (λ tr _, status_patches tr = []).
Proof.
  intros H. eapply wlp_mono; [exact H|]. simpl. intros tr _ Htr.
  induction Htr as [|[X c x] tr He _ IH]; [done|].
  unfold status_patches, writes in *. destruct c; simpl; try exact IH; destruct k; done.
Qed.

(** The phase a status patch of the trace installs *)
Definition phases (tr : trace) : list string := (λ o, Phase (Status o)) <$> status_patches tr.
Lemma phases_app tr1 tr2 : phases (tr1 ++ tr2) = phases tr1 ++ phases tr2.
Proof. unfold phases. by rewrite status_patches_app, fmap_app. Qed.
Lemma part_no_phase {A} (p : prog A) : part_calls p → wlp p (λ tr _, phases tr = []).
Proof.
  intros H. eapply wlp_mono; [by apply part_no_status|]. simpl. unfold phases. by intros tr _ ->.
Qed.

Lemma setConditionNotReady_phases ts reason err :
  wlp (setConditionNotReady ts reason err) (λ tr o,
    phases tr = [reason] ∧ ∃ ts' e, o = Done (ts', e)).
Proof.
  unfold setConditionNotReady, patchStatus. cbv zeta. wlp_steps; (split; [done|]); by do 2 eexists.
Qed.
Lemma setConditionReady_phases ts reason :
  wlp (setConditionReady ts reason) (λ tr o, phases tr = [reason] ∧ ∃ ts' e, o = Done (ts', e)).
Proof.
  unfold setConditionReady, patchStatus. cbv zeta. wlp_steps; (split; [done|]); by do 2 eexists.
Qed.
Lemma initConditions_phases ts :
  wlp (initConditions ts) (λ tr o, phases tr ⊆ ["Bootstrapping"] ∧ ∃ ts' e, o = Done (ts', e)).
Proof.
  unfold initConditions, patchStatus. cbv zeta.
  wlp_steps; (split; [set_solver|]); by do 2 eexists.
Qed.

(** Running a part and looking at the rest *)
Lemma wlp_bind_part {A B} (p : prog A) (f : A → prog B) Q :
  part_calls p →
  (∀ tr a, phases tr = [] → wlp (f a) (λ tr' o, Q (tr ++ tr') o)) →
  (∀ tr w, phases tr = [] → Q tr (Panicked w)) →
  wlp (p ≫= f) Q.
Proof. intros Hp Hf Hw. eapply wlp_bind_cut; [by apply part_no_phase| |]; auto. Qed.

(** ** Reporting the cluster ready *)

(** [ready_marked tr]: some status patch of [tr] reports the quorum as ready. *)
Definition ready_marked (tr : trace) : Prop := ConditionReasonQuorumReady ∈ phases tr.
(** The evidence of [ReconcileQuorum]: it read the StatefulSet, and as many
    nodes as it needs answered their health check. *)
Definition quorum_evidence (tr : trace) : Prop :=
  ∃ key sts, fetched key tr sts
    ∧ (getMinimumRequiredNodes (st_Replicas (sts_Status sts)) ≤ Z.of_nat (healthy_answers tr))%Z.

Lemma quorum_evidence_app tr1 tr2 :
  quorum_evidence tr1 ∨ quorum_evidence tr2 → quorum_evidence (tr1 ++ tr2).
Proof.
  unfold quorum_evidence. rewrite healthy_answers_app.
  intros [(key & sts & Hf & Hl)|(key & sts & Hf & Hl)]; exists key, sts;
    (split; [apply fetched_app; auto|lia]).
Qed.

(** A trace that marks the cluster ready has the evidence. *)
Definition sound (tr : trace) : Prop := ready_marked tr → quorum_evidence tr.
Lemma sound_app tr1 tr2 : sound tr1 → sound tr2 → sound (tr1 ++ tr2).
Proof.
  intros H1 H2 H. apply quorum_evidence_app. unfold ready_marked in H.
  rewrite phases_app, elem_of_app in H. destruct H as [H|H]; [left; by apply H1|right; by apply H2].
Qed.
Lemma sound_phases tr l : phases tr ⊆ l → ConditionReasonQuorumReady ∉ l → sound tr.
Proof. intros Hl Hn H. exfalso. by apply Hn, Hl. Qed.
Lemma sound_part tr : phases tr = [] → sound tr.
Proof. intros H. eapply (sound_phases _ []); [by rewrite H|apply not_elem_of_nil]. Qed.

Lemma sound_bind {A B} (p : prog A) (f : A → prog B) :
  wlp p (λ tr _, sound tr) → (∀ a, wlp (f a) (λ tr _, sound tr)) →
  wlp (p ≫= f) (λ tr _, sound tr).
Proof.
  intros Hp Hf. eapply wlp_bind_cut; [exact Hp| |done]. intros tr a Ht.
  eapply wlp_mono; [apply Hf|]. intros. by apply sound_app.
Qed.
Lemma part_sound {A} (p : prog A) : part_calls p → wlp p (λ tr _, sound tr).
Proof. intros H. eapply wlp_mono; [by apply part_no_phase|]. intros ???. by apply sound_part. Qed.

Lemma not_ready_sound ts reason err :
  reason ≠ ConditionReasonQuorumReady →
  wlp (setConditionNotReady ts reason err) (λ tr _, sound tr).
Proof.
  intros Hr. eapply wlp_mono; [apply setConditionNotReady_phases|]. intros tr o [H _].
  eapply (sound_phases _ [reason]); [by rewrite H|]. by rewrite list_elem_of_singleton.
Qed.
Lemma fail_sound ts reason err :
  reason ≠ ConditionReasonQuorumReady → wlp (fail ts reason err) (λ tr _, sound tr).
Proof.
  intros Hr. unfold fail. apply sound_bind; [by apply not_ready_sound|].
  intros [? ?]. by apply part_sound, all_events_ret.
Qed.
Lemma report_not_ready_sound ts reason err next :
  reason ≠ ConditionReasonQuorumReady → (∀ ts, wlp (next ts) (λ tr _, sound tr)) →
  wlp (report_not_ready ts reason err next) (λ tr _, sound tr).
Proof.
  intros Hr Hn. unfold report_not_ready. apply sound_bind; [by apply not_ready_sound|].
  intros [ts' [e|]]; [by apply part_sound, all_events_ret|].
  apply sound_bind; [apply part_sound; rbac|]. auto.
Qed.

(** The report alone is sound unless the quorum is ready. *)
Lemma report_quorum_sound ts condition err n :
  condition ≠ ConditionReasonQuorumReady →
  wlp (report_quorum ts condition err n) (λ tr _, sound tr).
Proof.
  intros Hc. unfold report_quorum. cbv zeta.
  destruct (contains_str _ _).
  { apply report_not_ready_sound; [done|]. intros. by apply part_sound, all_events_ret. }
  rewrite (proj2 (String.eqb_neq _ _) Hc). cbn [negb].
  apply report_not_ready_sound; [done|]. intros. by apply part_sound, all_events_ret.
Qed.

Lemma quorum_phase_sound ts secret sts n : wlp (quorum_phase r ts secret sts n) (λ tr _, sound tr).
Proof.
  unfold quorum_phase. eapply wlp_bind_cut.
  { apply wlp_and; [apply ReconcileQuorum_ready_answers|apply part_no_phase, role_quorum]. }
  2: { intros tr w [_ H]. by apply sound_part. }
  intros tr [[condition size] err] [Hr Hp].
  destruct (decide (condition = ConditionReasonQuorumReady)) as [->|Hc].
  - apply wlp_exec. intros tr' o _ _. apply quorum_evidence_app. left.
    destruct (Hr _ _ eq_refl) as (sts' & Hs & Hl). by exists (key_of (sts_meta sts)), sts'.
  - eapply wlp_mono; [by apply report_quorum_sound|]. intros tr' o H.
    apply sound_app; [by apply sound_part|done].
Qed.

Lemma phase_sound ts reason p next :
  reason ≠ ConditionReasonQuorumReady → part_calls p →
  wlp next (λ tr _, sound tr) → wlp (phase ts reason p next) (λ tr _, sound tr).
Proof.
  intros Hr Hp Hn. unfold phase. apply sound_bind; [by apply part_sound|].
  intros [e|]; [by apply fail_sound|done].
Qed.

(** C4 The custom resource is reported ready only with evidence from the same
    round: whenever [Reconcile] sends a status with the phase [QuorumReady], it
    has read the StatefulSet, and at least the minimum of required nodes for the
    replicas in its status answered their health check with ok. *)
Theorem Reconcile_ready_sound req :
  wlp (Reconcile r req) (λ tr _, ready_marked tr → quorum_evidence tr).
Proof.
  change (wlp (Reconcile r req) (λ tr _, sound tr)).
  unfold Reconcile. apply sound_bind; [apply part_sound; rbac|].
  intros [ts|err]; [|by apply part_sound, all_events_ret].
  apply sound_bind.
  { eapply wlp_mono; [apply initConditions_phases|]. intros tr o [H _].
    eapply sound_phases; [exact H|]. by rewrite list_elem_of_singleton. }
  intros [ts1 [e|]]; [by apply part_sound, all_events_ret|].
  unfold reconcile_parts. apply sound_bind; [apply part_sound, role_secret|].
  intros [secret|e]; [|by apply fail_sound].
  apply sound_bind; [apply part_sound, role_configmap|].
  intros [updated [e|]]; [by apply fail_sound|].
  apply phase_sound; [done|apply role_services|].
  apply sound_bind; [apply part_sound, role_ingress|]. intros [ts2 err].
  apply phase_sound; [done|apply all_events_ret|].
  apply phase_sound; [done|apply role_httproute|].
  apply phase_sound; [done|apply role_scraper|].
  apply phase_sound; [done|apply role_podmonitor|].
  unfold statefulset_phase. apply sound_bind; [apply part_sound, role_statefulset|].
  intros [[sts b] [e|]]; [by apply fail_sound|].
  apply sound_bind; [apply part_sound, all_events_lift|]. intros s.
  unfold finish. apply sound_bind; [apply part_sound, all_events_lift|]. intros g.
  destruct updated as [[]|]; [|apply quorum_phase_sound|by apply part_sound, all_events_ret].
  apply sound_bind; [apply part_sound, role_forcePods|]. intros _.
  apply report_not_ready_sound; [done|]. intros. apply quorum_phase_sound.
Qed.

(** ** The [Ready] condition *)

(** The status that [setConditionNotReady] sends starts with the [Ready]
    condition, carrying the status False, the reason and the text of the error,
    and its phase is the reason; so [getConditionReady] finds it again. *)
Theorem setConditionNotReady_spec `{!LibsLaws} ts reason err :
  Conditions (Status ts) = [] ∨ ready_first ts →
  wlp (setConditionNotReady ts reason err) (λ tr _, ∃ o c,
    status_patches tr = [o] ∧ Phase (Status o) = reason
    ∧ getConditionReady o = Done (Some c)
    ∧ is_ready_condition "False" reason (error_string err) c).
Proof.
  intros Hts. unfold setConditionNotReady, patchStatus. apply wlp_trigger_bind. intros now. cbv zeta.
  destruct (ready_patcher_head now "False" reason (error_string err) reason (Status ts))
    as (c & rest & Ec & Hc & _); [exact Hts|].
  apply wlp_trigger_bind. intros [ts'|e]; apply wlp_ret.
  all: exists (set_Status (ready_patcher now "False" reason (error_string err) reason (Status ts)) ts), c;
    split_and!; try done; unfold getConditionReady, index; simpl Conditions in *.
  all: change (Conditions (Status (set_Status ?s ts))) with (Conditions s); rewrite Ec; simpl;
    by rewrite decide_True by apply Hc.
Qed.
End Loop.

(** ** Concrete instances *)
Section Witnesses.
#[local] Existing Instance concreteK.
#[local] Existing Instance concreteL.
#[local] Existing Instance concrete_laws.

Lemma setConditionNotReady_spec_witness :
  wlp (setConditionNotReady (demo_ts "t1" 3 "QuorumReady") "SecretNotReady" (Errorf "boom"))
    (λ tr _, ∃ o c, status_patches tr = [o] ∧ Phase (Status o) = "SecretNotReady"
      ∧ getConditionReady o = Done (Some c) ∧ is_ready_condition "False" "SecretNotReady" "boom" c).
Proof.
  apply (setConditionNotReady_spec (demo_ts "t1" 3 "QuorumReady") "SecretNotReady" (Errorf "boom")).
  right. do 2 eexists. split; reflexivity.
Defined.
End Witnesses.
