(* ===== verification/RequeueTheory.v ===== *)
(** * When the next round is due (Controller, ConfigMap, StatefulSet)

    What [reconcile_parts] returns, read off the calls of the round: the list
    stage is everything before the first request for a Service, the rest decides
    on the grace period. *)
From S2P Require Import Prelude GoLib K8s Api Effects Hoare External Utils Conditions.
From S2P Require Import StatefulSetOps ConfigMap QuorumHelpers Quorum Secret Services.
From S2P Require Import StatefulSetHash StatefulSet Scraper PodMonitors Ingresses HttpRoute.
From S2P Require Import Controller Footprint QuorumTheory StatefulSetTheory Rbac ControllerTheory Server.

Section Requeue.
Context `{L : Libs} (r : Reconciler).

(** ** Reading the trace *)

Definition service_read (e : event) : bool :=
  match e with Ev (Get KService _) _ => true | _ => false end.
(** The calls before the first request for a Service, and those from it on *)
Fixpoint before_services (tr : trace) : trace :=
  match tr with
  | [] => []
  | e :: tr => if service_read e then [] else e :: before_services tr
  end.
Fixpoint from_services (tr : trace) : trace :=
  match tr with
  | [] => []
  | e :: tr' => if service_read e then tr else from_services tr'
  end.

(** The nodes list was created, or rewritten, before the services were read. *)
Definition cm_created (e : event) : bool :=
  match e with Ev (Create KConfigMap _) (Ok _) => true | _ => false end.
Definition cm_rewritten (e : event) : bool :=
  match e with Ev (Update KConfigMap _) (Ok _) => true | _ => false end.
Definition list_created (tr : trace) : bool := existsb cm_created (before_services tr).
Definition list_rewritten (tr : trace) : bool := existsb cm_rewritten (before_services tr).

(** The answers to reads of StatefulSets, and the StatefulSets that the server
    returned for a creation or a patch *)
Definition sts_read_of (e : event) : option (result StatefulSet) :=
  match e with Ev (Get KStatefulSet _) a => Some a | _ => None end.
Definition sts_reads (tr : trace) : list (result StatefulSet) := omap sts_read_of tr.
Definition sts_installed_of (e : event) : option StatefulSet :=
  match e with
  | Ev (Create KStatefulSet _) (Ok s) | Ev (Patch KStatefulSet _ _) (Ok s) => Some s
  | _ => None
  end.
Definition sts_installed (tr : trace) : list StatefulSet := omap sts_installed_of tr.

(** Where the grace period comes from: the StatefulSet the server returned when it
    was created or patched; without that the one that was read, or, when its
    number of replicas is not the specified one, the specification. *)
Inductive grace_source (ts : TypesenseCluster) (tr : trace) : option Z → Prop :=
| grace_installed s : sts_installed tr = [s] → grace_source ts tr (grace_period s)
| grace_kept s later :
    sts_installed tr = [] → sts_reads tr = Ok s :: later → grace_source ts tr (grace_period s)
| grace_specified s later :
    sts_installed tr = [] → sts_reads tr = Ok s :: later →
    ss_Replicas (sts_Spec s) ≠ Some (Replicas (Spec ts)) →
    grace_source ts tr (Some (GetTerminationGracePeriodSeconds (Spec ts))).

(** A round returns an error, without a delay of its own and after an attempt to
    record a phase, or a delay that is [due]. *)
Definition ends (due : trace → Z → Prop) (tr : trace) (o : outcome reconcile_result) : Prop :=
  match o with
  | Done (after, Some _) => after = 0%Z ∧ phases tr ≠ []
  | Done (after, None) => due tr after
  | Panicked _ => True
  end.

(** The delay that the calls of a round call for *)
Definition next_round (ts : TypesenseCluster) (tr : trace) (after : Z) : Prop :=
  if list_created tr then after = bootstrapRequeuePeriod
  else if list_rewritten tr then after = configMapRequeuePeriod
  else ∃ grace, grace_source ts (from_services tr) (Some grace) ∧ after = requeue_after grace.

(** ** The list stage *)

Definition none_of (P : event → bool) (tr : trace) : Prop := Forall (λ e, P e = false) tr.
Lemma none_of_existsb P tr : none_of P tr → existsb P tr = false.
Proof. unfold none_of. induction 1 as [|e tr He _ IH]; [done|]. simpl. by rewrite He. Qed.

Lemma services_app tr1 tr2 :
  none_of service_read tr1 →
  before_services (tr1 ++ tr2) = tr1 ++ before_services tr2
  ∧ from_services (tr1 ++ tr2) = from_services tr2.
Proof.
  unfold none_of. induction 1 as [|e tr1 He _ [IH1 IH2]]; [done|].
  simpl. by rewrite He, IH1, IH2.
Qed.

(** No call of the list stage creates or rewrites the list, or reads a Service. *)
Definition aside (e : event) : bool := negb (service_read e || cm_created e || cm_rewritten e).
Ltac aside_calls := calls_auto ltac:(reflexivity).
Lemma aside_split tr :
  Forall (λ e, aside e = true) tr →
  none_of service_read tr ∧ none_of cm_created tr ∧ none_of cm_rewritten tr.
Proof.
  intros H. unfold none_of. split_and!; (eapply Forall_impl; [exact H|]); unfold aside; intros e;
    rewrite negb_true_iff, !orb_false_iff; tauto.
Qed.

Lemma aside_secret ts : all_events (λ e, aside e = true) (ReconcileSecret ts).
Proof. unfold ReconcileSecret, createAdminApiKey, generateToken. aside_calls. Qed.
Lemma aside_getNodes ts n b : all_events (λ e, aside e = true) (getNodes ts n b).
Proof. unfold getNodes, getEndpointSlicesForStatefulSet, GetFreshStatefulSet, list_pods. aside_calls. Qed.

(** What the calls of the list stage say of its result *)
Definition list_shown (updated : option bool) (tr : trace) : Prop :=
  none_of service_read tr
  ∧ existsb cm_created tr = bool_decide (updated = None)
  ∧ existsb cm_rewritten tr = bool_decide (updated = Some true).

Lemma list_shown_aside tr1 tr2 u :
  Forall (λ e, aside e = true) tr1 → list_shown u tr2 → list_shown u (tr1 ++ tr2).
Proof.
  intros (H1 & H2%none_of_existsb & H3%none_of_existsb)%aside_split (H4 & H5 & H6).
  unfold list_shown. rewrite !existsb_app, H2, H3. split_and!; [by apply Forall_app|done|done].
Qed.

Lemma updateConfigMap_shown ts cm n b :
  wlp (updateConfigMap ts cm n b) (λ tr o, ∀ c size u, o = Done (c, size, u, None) →
    list_shown (Some u) tr).
Proof.
  assert (∀ tr, Forall (λ e, aside e = true) tr → list_shown (Some false) tr) as Hsame.
  { intros tr H. rewrite <-(app_nil_r tr). apply list_shown_aside; [done|].
    split; [constructor|done]. }
  unfold updateConfigMap, deleteConfigMap. apply wlp_trigger_bind. intros [sts|e].
  2: { destruct (IsNotFound e); [|apply wlp_ret; by intros ??? [=]].
       apply wlp_trigger_bind. intros [?|]; apply wlp_ret; by intros ??? [=]. }
  cbv zeta. eapply wlp_bind_cut; [apply aside_getNodes| |by intros tr w _ c size u [=]].
  intros tr1 [nodes|e] H1; [|apply wlp_ret; by intros ??? [=]].
  eapply wlp_bind_cut; [apply aside_getNodes| |by intros tr w _ c size u [=]].
  intros tr2 [fallback|e] H2; [|apply wlp_ret; by intros ??? [=]].
  assert (Forall (λ e, aside e = true)
    (Ev (Get KStatefulSet (stsObjectKey ts)) (Ok sts) :: tr1 ++ tr2)) as Ha
    by (constructor; [done|by apply Forall_app]).
  destruct (_ =? _)%Z; [apply wlp_ret; by intros ??? [=]|].
  destruct (_ || _).
  - apply wlp_trigger_bind. intros [cm'|e]; apply wlp_ret; [|by intros ??? [=]].
    intros ??? [= <- <- <-]. rewrite (assoc_L (++)). change (?x :: ?y ++ ?z) with ((x :: y) ++ z).
    apply list_shown_aside; [done|]. split; [by repeat constructor|done].
  - apply wlp_ret. intros ??? [= <- <- <-]. apply Hsame. by rewrite app_nil_r.
Qed.

Lemma ReconcileConfigMap_shown ts :
  wlp (ReconcileConfigMap ts) (λ tr o, ∀ u, o = Done (u, None) → list_shown u tr).
Proof.
  unfold ReconcileConfigMap, createConfigMap. apply wlp_trigger_bind. intros [cm|e].
  - eapply wlp_bind_cut; [apply updateConfigMap_shown| |by intros tr w _ u [=]].
    intros tr [[[c size] u] [e|]] H; apply wlp_ret; [by intros ? [=]|].
    intros ? [= <-]. rewrite app_nil_r. apply (list_shown_aside [_]); [by repeat constructor|].
    by eapply H.
  - destruct (IsNotFound e); [|apply wlp_ret; by intros ? [=]].
    apply wlp_assoc. eapply wlp_bind_cut; [apply aside_getNodes| |by intros tr w _ u [=]].
    intros tr [nodes|e'] H; [|apply wlp_ret_bind, wlp_ret; by intros ? [=]].
    cbv zeta. destruct (SetControllerReference _ _ _) as [m|e']; cbn beta iota;
      [|apply wlp_ret_bind, wlp_ret; by intros ? [=]].
    apply wlp_trigger_bind. intros [cm|e']; apply wlp_ret; [|by intros ? [=]].
    intros ? [= <-]. change (?x :: ?y ++ ?z) with ((x :: y) ++ z).
    apply list_shown_aside; [by constructor|]. split; [by repeat constructor|done].
Qed.

(** ** The StatefulSet *)

(** Calls that neither read StatefulSets nor install one *)
Definition sts_aside (e : event) : bool :=
  match e with
  | Ev (Get KStatefulSet _) _ | Ev (Create KStatefulSet _) _ | Ev (Patch KStatefulSet _ _) _ => false
  | _ => true
  end.
(** Calls that do not install one *)
Definition no_install (e : event) : bool :=
  match e with Ev (Create KStatefulSet _) _ | Ev (Patch KStatefulSet _ _) _ => false | _ => true end.
Ltac sts_aside_calls := calls_auto ltac:(reflexivity).

Lemma omap_none {A B} (f : A → option B) (P : A → bool) l :
  (∀ a, P a = true → f a = None) → Forall (λ a, P a = true) l → omap f l = [].
Proof. intros H. induction 1 as [|a l Ha _ IH]; [done|]. csimpl. by rewrite (H a Ha), IH. Qed.
Lemma sts_aside_nil tr :
  Forall (λ e, sts_aside e = true) tr → sts_reads tr = [] ∧ sts_installed tr = [].
Proof.
  intros H. split; (eapply omap_none; [|exact H]);
    intros [X c x]; destruct c as [[]| |[]|[]|[]|[]|[]| | | | | | | |]; by try destruct x.
Qed.
Lemma no_install_nil tr : Forall (λ e, no_install e = true) tr → sts_installed tr = [].
Proof.
  intros H. eapply omap_none; [|exact H].
  intros [X c x]; destruct c as [[]| |[]|[]|[]|[]|[]| | | | | | | |]; by try destruct x.
Qed.

Lemma aside_services ts : all_events (λ e, sts_aside e = true) (ReconcileServices ts).
Proof.
  unfold ReconcileServices, reconcile_headless, reconcile_rest, createHeadlessService,
    createService, updateHeadlessService, updateService, deleteService. sts_aside_calls.
Qed.
Lemma aside_ingress ts : all_events (λ e, sts_aside e = true) (ReconcileIngress ts).
Proof.
  unfold ReconcileIngress, reconcile_proxy, reconcile_ingress_object, createIngress, updateIngress,
    deleteIngress, reconcile_ingress_configmap, createIngressConfigMap, updateIngressConfigMap,
    reconcile_ingress_deployment, createIngressDeployment, reconcile_ingress_service,
    createIngressService, updateIngressService. cbv zeta. sts_aside_calls.
Qed.
Lemma aside_httproute ts : all_events (λ e, sts_aside e = true) (ReconcileHttpRoute ts).
Proof.
  unfold ReconcileHttpRoute, IsFeatureSupported, IsApiGroupDeployed, deleteOrphanedHttpRoutes,
    deleteOrphanedReferenceGrants, reconcile_route, create_new_route, createHttpRoute,
    reconcile_existing_route, disable_route, deleteReferenceGrant, deleteHttpRoute,
    updateHttpRoute, updateReferenceGrant, createReferenceGrant, deleteReferenceGrant.
  sts_aside_calls.
Qed.
Lemma aside_scraper ts : all_events (λ e, sts_aside e = true) (ReconcileScraper ts).
Proof. unfold ReconcileScraper, reconcile_scraper, createScraper, deleteScraper. sts_aside_calls. Qed.
Lemma aside_podmonitor ts : all_events (λ e, sts_aside e = true) (ReconcilePodMonitor ts).
Proof.
  unfold ReconcilePodMonitor, reconcile_podmonitor, deleteMetricsExporterServiceMonitor,
    deleteMetricsExporterDeployment, createMetricsExporterPodMonitor,
    deleteMetricsExporterPodMonitor, IsApiGroupDeployed. cbv zeta. sts_aside_calls.
Qed.

Definition installs_none {A} (p : prog A) : Prop := all_events (λ e, no_install e = true) p.
Lemma none_getNodes ts n b : installs_none (getNodes ts n b).
Proof.
  unfold installs_none, getNodes, getEndpointSlicesForStatefulSet, GetFreshStatefulSet, list_pods.
  sts_aside_calls.
Qed.
#[local] Hint Resolve none_getNodes : effects.
Lemma none_updateConfigMap ts cm n b : installs_none (updateConfigMap ts cm n b).
Proof. unfold installs_none, updateConfigMap, deleteConfigMap. sts_aside_calls; apply none_getNodes. Qed.
Lemma none_force ts u : installs_none (force_if_updated ts u).
Proof. unfold installs_none, force_if_updated, forcePodsConfigMapUpdate. sts_aside_calls. Qed.
Lemma none_scale key n : installs_none (ScaleStatefulSet key n).
Proof. unfold installs_none, ScaleStatefulSet, GetFreshStatefulSet. sts_aside_calls. Qed.
Lemma none_build key ts : installs_none (buildStatefulSet key ts).
Proof.
  assert (∀ acs d, installs_none (additional_conf_data ts acs d)) as H.
  { unfold installs_none. induction acs as [|ac acs IH]; intros d; cbn [additional_conf_data];
      sts_aside_calls; apply IH. }
  unfold installs_none, buildStatefulSet, getHealthyLagThresholds, buildStatefulSetHash.
  sts_aside_calls; apply H.
Qed.

Lemma updates_only_none {A} (p : prog A) : writes_only updates_only p → installs_none p.
Proof.
  intros H. eapply all_events_mono; [exact H|]. cbv beta. intros [X c x] Hc.
  destruct c as [| |[]|[]|[] u v|[]|[]| | | | | | | |]; try done;
    by destruct (Hc _ eq_refl).
Qed.

Lemma sts_installed_app tr1 tr2 : sts_installed (tr1 ++ tr2) = sts_installed tr1 ++ sts_installed tr2.
Proof. apply omap_app. Qed.
Lemma sts_reads_app tr1 tr2 : sts_reads (tr1 ++ tr2) = sts_reads tr1 ++ sts_reads tr2.
Proof. apply omap_app. Qed.

Lemma grace_source_later ts tr tr' g :
  grace_source ts tr g → Forall (λ e, no_install e = true) tr' → grace_source ts (tr ++ tr') g.
Proof.
  intros Hg H%no_install_nil.
  destruct Hg as [s E|s later E Er|s later E Er Hn];
    [apply grace_installed|eapply (grace_kept _ _ s (later ++ _))
    |eapply (grace_specified _ _ s (later ++ _)); [| |exact Hn]];
    by rewrite ?sts_installed_app, ?sts_reads_app, ?E, ?H, ?Er.
Qed.
Lemma grace_source_after ts tr tr' g :
  Forall (λ e, sts_aside e = true) tr → grace_source ts tr' g → grace_source ts (tr ++ tr') g.
Proof.
  intros [H1 H2]%sts_aside_nil Hg.
  destruct Hg as [s E|s later E Er|s later E Er Hn];
    [apply grace_installed|eapply (grace_kept _ _ s later)
    |eapply (grace_specified _ _ s later); [| |exact Hn]];
    by rewrite ?sts_installed_app, ?sts_reads_app, ?H1, ?H2.
Qed.

(** A StatefulSet that is returned, and where it comes from *)
Definition returned_from (ts : TypesenseCluster) (tr : trace) (o : outcome sts_result) : Prop :=
  ∀ s b, o = Done (Some s, b, None) → grace_source ts tr (grace_period s).

(** Cutting where only the values matter *)
Lemma wlp_bind_value {A B} (p : prog A) (f : A → prog B) (P : outcome B → Prop) :
  (∀ a, wlp (f a) (λ _ o, P o)) → (∀ w, P (Panicked w)) → wlp (p ≫= f) (λ _ o, P o).
Proof.
  intros Hf Hw. eapply wlp_bind_cut with (R := λ _ _, True); [by apply wlp_exec| |auto].
  intros tr a _. apply Hf.
Qed.

(** A tail of calls that installs nothing, and returns what is known already *)
Lemma returned_tail {A} ts tr (p : prog A) (f : A → prog sts_result) :
  installs_none p →
  (∀ tr' a, Forall (λ e, no_install e = true) tr' →
     wlp (f a) (λ tr'' o, returned_from ts (tr ++ tr' ++ tr'') o)) →
  wlp (p ≫= f) (λ tr' o, returned_from ts (tr ++ tr') o).
Proof.
  intros Hp Hf. eapply wlp_bind_cut; [exact Hp|exact Hf|]. by intros tr' w _ s b [=].
Qed.
Lemma returned_keeps ts tr (p : prog sts_result) :
  installs_none p →
  wlp p (λ _ o, ∀ s b, o = Done (Some s, b, None) → grace_source ts tr (grace_period s)) →
  wlp p (λ tr' o, returned_from ts (tr ++ tr') o).
Proof.
  intros Hn Hp. eapply wlp_mono; [apply wlp_and; [exact Hn|exact Hp]|].
  intros tr' o [H1 H2] s b E. apply grace_source_later; [by eapply H2|exact H1].
Qed.

Lemma apply_update_returns ts sts d tr :
  Forall (λ e, no_install e = true) tr →
  wlp (apply_update ts sts d) (λ tr' o, returned_from ts (tr ++ tr') o).
Proof.
  intros Htr. unfold apply_update, updateStatefulSet, get_nodes_cm.
  do 2 (apply wlp_lift_bind; [intros ? _|intros w _ s b [=]]). cbv zeta.
  apply returned_tail; [unfold installs_none; sts_aside_calls|]. intros tr1 [] H1.
  apply wlp_assoc, wlp_trigger_bind. intros now. apply wlp_trigger_bind. intros [u|e].
  2: { apply wlp_ret. by intros s b [=]. }
  assert (∀ tr' : trace, tr ++ tr1 ++ Ev Now now :: Ev (Patch KStatefulSet sts (updated_sts now sts d)) (Ok u) :: tr'
    = (tr ++ tr1 ++ [Ev Now now; Ev (Patch KStatefulSet sts (updated_sts now sts d)) (Ok u)]) ++ tr') as E
    by (intros; by rewrite <-!(assoc_L (++))).
  eapply wlp_mono; [apply (returned_keeps ts
    (tr ++ tr1 ++ [Ev Now now; Ev (Patch KStatefulSet sts (updated_sts now sts d)) (Ok u)]))|].
  - unfold installs_none. sts_aside_calls; first [apply none_updateConfigMap|apply none_force].
  - apply wlp_bind_value; [intros cm|by intros w s b [=]].
    apply wlp_bind_value; [intros [[[c size] updated] err]|by intros w s b [=]].
    apply wlp_bind_value; [intros []|by intros w s b [=]].
    apply wlp_ret. intros s b [= <- <-]. apply grace_installed.
    by rewrite !sts_installed_app, (no_install_nil _ Htr), (no_install_nil _ H1).
  - intros tr' o H. rewrite E. exact H.
Qed.

(** The desired StatefulSet has the grace period of the specification. *)
Lemma built_grace key ts d : built key ts d → grace_period d = Some (GetTerminationGracePeriodSeconds (Spec ts)).
Proof.
  intros (ann & lit & hash & (storage & _ & _ & Ht & _)%sts_literal_inv & ->).
  unfold grace_period, set_hash_annotation. cbn. by rewrite Ht.
Qed.

Lemma apply_scale_returns key ts d tr :
  grace_source ts tr (grace_period d) →
  wlp (apply_scale key ts (Some d)) (λ tr' o, returned_from ts (tr ++ tr') o).
Proof.
  intros Hg. apply returned_keeps.
  - unfold installs_none, apply_scale, get_nodes_cm.
    sts_aside_calls; first [apply none_scale|apply none_updateConfigMap|apply none_force].
  - unfold apply_scale. cbv zeta.
    apply wlp_bind_value; [intros [e|]|by intros w s b [=]]; [apply wlp_ret; by intros s b [=]|].
    apply wlp_bind_value; [intros cm|by intros w s b [=]].
    apply wlp_bind_value; [intros [[[c size] updated] [e|]]|by intros w s b [=]];
      [apply wlp_ret; by intros s b [=]|].
    apply wlp_bind_value; [intros []|by intros w s b [=]].
    apply wlp_ret. by intros s b [= <- <-].
Qed.

(** Only a number of replicas that was changed asks for scaling alone. *)
Lemma scale_replicas sts d ts u tr :
  shouldUpdateStatefulSet sts d ts = Done (u, true, tr) →
  ss_Replicas (sts_Spec sts) ≠ Some (Replicas (Spec ts)).
Proof.
  unfold shouldUpdateStatefulSet. destruct (getConditionReady ts) as [[c|]|]; try done. cbn.
  unfold replicas_changed. destruct (ss_Replicas (sts_Spec sts)) as [n|]; [|done]. cbn.
  intros H [= ->]. rewrite Z.eqb_refl in H. cbn in H.
  repeat (match type of H with context [?o ≫= _] => destruct o; cbn in H; [|done] end). done.
Qed.

Lemma reconcile_existing_returns ts s tr :
  sts_reads tr = [Ok s] → Forall (λ e, no_install e = true) tr →
  wlp (reconcile_existing (stsObjectKey ts) ts s) (λ tr' o, returned_from ts (tr ++ tr') o).
Proof.
  intros Hr Htr. pose proof (no_install_nil _ Htr) as Hi.
  assert (∀ tr', Forall (λ e, no_install e = true) tr' →
    returned_from ts (tr ++ tr') (Done (Some s, false, None))) as Hsame.
  { intros tr' H s' b [= <- <-]. apply grace_source_later; [|done]. by eapply grace_kept. }
  assert (wlp (mret (Some s, false, None) : prog sts_result)
    (λ tr' o, returned_from ts (tr ++ tr') o)) as Hret by (apply wlp_ret; by apply Hsame).
  unfold reconcile_existing. cbv zeta.
  apply wlp_lift_bind; [intros [c|] _|by intros w _ s' b [=]]; [|exact Hret].
  apply wlp_lift_bind; [intros b _|by intros w _ s' b [=]]. destruct (_ || _); [|exact Hret].
  eapply wlp_bind_cut.
  { apply wlp_and; [apply none_build|apply buildStatefulSet_built]. }
  2: { by intros tr' w _ s' b' [=]. }
  intros tr1 d [H1 [_ Hd]]. set (desired := match d with Ok d => Some d | Err _ => None end).
  apply wlp_lift_bind; [intros [[u sc] trig] Hsh|by intros w _ s' b' [=]].
  assert (Forall (λ e, no_install e = true) (tr ++ tr1)) as H01 by by apply Forall_app.
  destruct (u && negb sc)%bool.
  { apply wlp_lift_bind; [intros d' _|by intros w _ s' b' [=]].
    eapply wlp_mono; [by apply (apply_update_returns ts s d' (tr ++ tr1))|].
    intros tr' o H. rewrite (assoc_L (++)). exact H. }
  destruct (negb u && sc)%bool eqn:Esc.
  2: { apply wlp_ret. rewrite app_nil_r. by apply Hsame. }
  apply andb_true_iff in Esc as [_ ->]. destruct d as [d|e]; cbn in desired; subst desired.
  - eapply wlp_mono; [apply (apply_scale_returns (stsObjectKey ts) ts d (tr ++ tr1))|].
    + rewrite (built_grace _ _ _ (Hd d eq_refl)). apply grace_source_later; [|done].
      eapply grace_specified; [done|done|by eapply scale_replicas].
    + intros tr' o H. rewrite (assoc_L (++)). exact H.
  - unfold shouldUpdateStatefulSet in Hsh. exfalso.
    destruct (getConditionReady ts) as [[c'|]|]; try done. cbn in Hsh.
    by destruct (replicas_changed s ts c').
Qed.

Lemma ReconcileStatefulSet_returns ts : wlp (ReconcileStatefulSet ts) (returned_from ts).
Proof.
  unfold ReconcileStatefulSet. apply wlp_trigger_bind. intros [s|e].
  - by apply (reconcile_existing_returns ts s [Ev (Get KStatefulSet (stsObjectKey ts)) (Ok s)]);
      [|constructor].
  - destruct (IsNotFound e); [|apply wlp_ret; by intros ?? [=]].
    unfold createStatefulSet. apply wlp_assoc.
    eapply wlp_bind_cut; [apply none_build| |by intros tr w _ s b [=]].
    intros tr [d|e'] H; [|apply wlp_ret_bind, wlp_ret; by intros ?? [=]].
    destruct (SetControllerReference _ _ _) as [m|e']; [|apply wlp_ret_bind, wlp_ret; by intros ?? [=]].
    apply wlp_trigger_bind. intros [s|e']; apply wlp_ret; [|by intros ?? [=]].
    intros s' b [= <- <-]. apply grace_installed. change (?x :: ?y ++ ?z) with ((x :: y) ++ z).
    rewrite sts_installed_app, (no_install_nil (_ :: tr)); [done|by constructor].
Qed.

(** ** What a round returns *)

Lemma ends_bind {A} (p : prog A) (f : A → prog reconcile_result) R due :
  wlp p R →
  (∀ tr a, R tr (Done a) → wlp (f a) (ends (λ tr', due (tr ++ tr')))) →
  wlp (p ≫= f) (ends due).
Proof.
  intros Hp Hf. eapply wlp_bind_cut; [exact Hp| |done].
  intros tr a Ha. eapply wlp_mono; [by apply Hf|].
  intros tr' [[after [e|]]|w]; simpl; [|done..].
  intros [-> H]. split; [done|]. rewrite phases_app. by intros [_ ?]%app_nil.
Qed.
Lemma ends_any {A} (p : prog A) (f : A → prog reconcile_result) due :
  (∀ tr a, wlp (f a) (ends (λ tr', due (tr ++ tr')))) → wlp (p ≫= f) (ends due).
Proof. intros Hf. eapply ends_bind with (R := λ _ _, True); [by apply wlp_exec|auto]. Qed.
Lemma ends_mono (p : prog reconcile_result) (due due' : trace → Z → Prop) :
  wlp p (ends due) → (∀ tr after, due tr after → due' tr after) → wlp p (ends due').
Proof.
  intros Hp H. eapply wlp_mono; [exact Hp|]. intros tr [[after [e|]]|w]; simpl; [done|apply H|done].
Qed.

Lemma fail_ends ts reason err due : wlp (fail ts reason err) (ends due).
Proof.
  unfold fail. eapply wlp_bind_cut; [apply setConditionNotReady_phases| |].
  - intros tr [ts' e] [H _]. apply wlp_ret. rewrite app_nil_r. split; [done|]. by rewrite H.
  - intros tr w (_ & ? & ? & [=]).
Qed.
Lemma phase_ends ts reason p next (P : event → bool) due :
  all_events (λ e, P e = true) p →
  (∀ tr, Forall (λ e, P e = true) tr → wlp next (ends (λ tr', due (tr ++ tr')))) →
  wlp (phase ts reason p next) (ends due).
Proof.
  intros Hp Hn. eapply ends_bind; [exact Hp|]. intros tr [e|] H; [apply fail_ends|by apply Hn].
Qed.

(** A delay that does not depend on the calls *)
Lemma report_not_ready_ends ts reason err next n :
  (∀ ts, wlp (next ts) (ends (λ _, eq n))) →
  wlp (report_not_ready ts reason err next) (ends (λ _, eq n)).
Proof.
  intros Hn. unfold report_not_ready.
  eapply wlp_bind_cut; [apply setConditionNotReady_phases| |done].
  intros tr [ts' [e|]] [H _].
  - apply wlp_ret. rewrite app_nil_r. split; [done|]. by rewrite H.
  - eapply wlp_mono; [by apply (ends_any _ _ (λ _, eq n)); intros; apply Hn|].
    intros tr' [[after [e|]]|w]; simpl; [|done..].
    intros [-> Hp]. split; [done|]. rewrite phases_app. by intros [_ ?]%app_nil.
Qed.
Lemma quorum_phase_ends ts secret sts n :
  wlp (quorum_phase r ts secret sts n) (ends (λ _, eq n)).
Proof.
  assert (∀ ts : TypesenseCluster, wlp (mret (n, None)) (ends (λ _, eq n))) as Hdone by done.
  unfold quorum_phase. apply ends_any. intros _ [[c size] err]. unfold report_quorum. cbv zeta.
  destruct (contains_str _ _); [by apply report_not_ready_ends|].
  destruct (negb _); [by apply report_not_ready_ends|].
  apply ends_any. intros _ cond.
  eapply wlp_bind_cut; [apply setConditionReady_phases| |done].
  intros tr [ts' [e|]] [H _].
  - apply wlp_ret. rewrite app_nil_r. split; [done|]. by rewrite H.
  - eapply wlp_mono; [by apply (ends_any _ _ (λ _, eq n)); intros; apply Hdone|].
    intros tr' [[after [e|]]|w]; simpl; [|done..].
    intros [-> Hp]. split; [done|]. rewrite phases_app. by intros [_ ?]%app_nil.
Qed.
Lemma none_quorum_phase ts secret sts n : installs_none (quorum_phase r ts secret sts n).
Proof.
  unfold installs_none, quorum_phase, report_quorum, report_not_ready, setConditionReady,
    setConditionNotReady, patchStatus. cbv zeta.
  sts_aside_calls; apply updates_only_none, ReconcileQuorum_updates_only.
Qed.

Lemma deref_inv {A} (p : option A) a : deref p = Done a → p = Some a.
Proof. destruct p; [by intros [= ->]|done]. Qed.

(** After the services: the delay by what became of the list *)
Definition due_after (ts : TypesenseCluster) (updated : option bool) (tr : trace) (after : Z) : Prop :=
  match updated with
  | None => after = bootstrapRequeuePeriod
  | Some true => after = configMapRequeuePeriod
  | Some false => ∃ grace, grace_source ts tr (Some grace) ∧ after = requeue_after grace
  end.

Lemma statefulset_phase_ends ts secret updated :
  wlp (statefulset_phase r ts secret updated) (ends (due_after ts updated)).
Proof.
  unfold statefulset_phase. eapply ends_bind; [apply ReconcileStatefulSet_returns|].
  intros tr [[sts b] [e|]] Hret; [apply fail_ends|].
  apply wlp_lift_bind; [intros s ->%deref_inv|done]. specialize (Hret s b eq_refl).
  unfold finish. apply wlp_lift_bind; [intros g Hg%deref_inv|done].
  unfold grace_period in Hret. rewrite Hg in Hret.
  destruct updated as [[]|]; [| |by apply wlp_ret].
  - apply ends_any. intros tr1 _. eapply ends_mono; [apply report_not_ready_ends; intros;
      apply quorum_phase_ends|]. by intros ? ? <-.
  - eapply wlp_mono; [apply wlp_and; [apply quorum_phase_ends|apply none_quorum_phase]|].
    intros tr1 [[after [e|]]|w] [H Hn]; simpl in *; [done| |done]. subst after.
    exists g. split; [|done]. by apply grace_source_later.
Qed.

(** The Ingress part changes nothing of the cluster that matters here. *)
Definition same_schedule (ts ts' : TypesenseCluster) : Prop :=
  Replicas (Spec ts') = Replicas (Spec ts)
  ∧ GetTerminationGracePeriodSeconds (Spec ts') = GetTerminationGracePeriodSeconds (Spec ts).
Lemma grace_source_same ts ts' tr g :
  same_schedule ts ts' → grace_source ts' tr g → grace_source ts tr g.
Proof.
  intros [Hr Hg] [s E|s later E Er|s later E Er Hn]; [by constructor|by eapply grace_kept|].
  rewrite Hg. rewrite Hr in Hn. by eapply grace_specified.
Qed.
Lemma ingress_schedule ts :
  wlp (ReconcileIngress ts) (λ tr o, Forall (λ e, sts_aside e = true) tr
    ∧ ∀ ts' e, o = Done (ts', e) → same_schedule ts ts').
Proof.
  apply wlp_and; [apply aside_ingress|].
  unfold ReconcileIngress. cbv zeta.
  assert (∀ existing, wlp match IngressOf (Spec ts), HttpRoutes (Spec ts) with
      | Some igs, None =>
          o ← reconcile_ingress_object ts igs existing;
          match o with
          | Err err => mret (ts, Some err)
          | Ok ig =>
              '(igs, err) ← reconcile_proxy ts igs ig;
              mret (set_Spec (set_IngressOf (Some igs) (Spec ts)) ts, err)
          end
      | _, _ => mret (ts, None)
      end (λ _ o, ∀ ts' e, o = Done (ts', e) → same_schedule ts ts')) as Hproceed.
  { intros existing. destruct (IngressOf (Spec ts)) as [igs|], (HttpRoutes (Spec ts));
      try (apply wlp_ret; by intros ?? [= <- _]).
    apply wlp_bind_value; [intros [ig|e]|by intros ??? [=]]; [|apply wlp_ret; by intros ?? [= <- _]].
    apply wlp_bind_value; [intros [igs' err]|by intros ??? [=]]. apply wlp_ret. by intros ?? [= <- _]. }
  apply wlp_bind_value; [intros [ig|e]|by intros ??? [=]].
  - destruct (IngressOf (Spec ts)), (HttpRoutes (Spec ts)); try exact (Hproceed _);
      (apply wlp_bind_value; [intros err|by intros ??? [=]]; apply wlp_ret; by intros ?? [= <- _]).
  - destruct (IsNotFound e); [apply Hproceed|apply wlp_ret; by intros ?? [= <- _]].
Qed.

(** The parts after the list stage; their first call asks for a Service. *)
Definition parts_after (ts : TypesenseCluster) (secret : Secret) (updated : option bool)
    : prog reconcile_result :=
  phase ts ConditionReasonServicesNotReady (ReconcileServices ts)
    ('(ts, err) ← ReconcileIngress ts;
     phase ts ConditionReasonIngressNotReady (mret err)
       (phase ts ConditionReasonHttpRouteNotReady (ReconcileHttpRoute ts)
         (phase ts ConditionReasonScrapersNotReady (ReconcileScraper ts)
           (phase ts ConditionReasonMetricsExporterNotReady (ReconcilePodMonitor ts)
             (statefulset_phase r ts secret updated))))).

Lemma due_after_before ts ts' updated tr1 tr2 after :
  same_schedule ts ts' → Forall (λ e, sts_aside e = true) tr1 →
  due_after ts' updated tr2 after → due_after ts updated (tr1 ++ tr2) after.
Proof.
  intros Hts H1. destruct updated as [[]|]; [done| |done].
  intros (g & Hg & ->). exists g. split; [|done].
  apply grace_source_after; [done|]. by eapply grace_source_same.
Qed.
Lemma parts_after_ends ts secret updated :
  wlp (parts_after ts secret updated) (ends (due_after ts updated)).
Proof.
  unfold parts_after. eapply phase_ends; [apply aside_services|]. intros tr1 H1.
  eapply ends_bind; [apply ingress_schedule|]. intros tr2 [ts2 err] [H2 Hts].
  specialize (Hts _ _ eq_refl).
  eapply phase_ends; [apply (all_events_ret (λ e, sts_aside e = true))|]. intros tr3 H3.
  eapply phase_ends; [apply aside_httproute|]. intros tr4 H4.
  eapply phase_ends; [apply aside_scraper|]. intros tr5 H5.
  eapply phase_ends; [apply aside_podmonitor|]. intros tr6 H6.
  eapply ends_mono; [apply statefulset_phase_ends|]. intros tr after H.
  rewrite !(assoc_L (++)). eapply due_after_before; [exact Hts| |exact H].
  by repeat apply Forall_app_2.
Qed.
Lemma parts_after_head ts secret updated :
  wlp (parts_after ts secret updated) (λ tr _, before_services tr = [] ∧ from_services tr = tr).
Proof.
  unfold parts_after, phase, ReconcileServices, reconcile_headless.
  do 2 apply wlp_assoc. apply wlp_trigger_bind. intros a. by apply wlp_exec.
Qed.

(** C19 Once the cluster was read and initialised, a round either returns an
    error, with no delay of its own and after an attempt to record a phase in
    the status, or it schedules the next round.  The delay is 15 seconds exactly
    when the nodes list was created before the services were read, two minutes
    when it was rewritten there, and otherwise computed from a grace
    period: that of the StatefulSet created or patched in the round, or of the one
    read, or of the specification when the number of replicas differs. *)
Theorem reconcile_parts_result ts : wlp (reconcile_parts r ts) (ends (next_round ts)).
Proof.
  unfold reconcile_parts. eapply ends_bind; [apply aside_secret|].
  intros tr1 [secret|e] H1; [|apply fail_ends].
  eapply ends_bind; [apply ReconcileConfigMap_shown|].
  intros tr2 [updated [e|]] H2; [apply fail_ends|].
  assert (list_shown updated (tr1 ++ tr2)) as (Hs & Hc & Hr) by (by apply list_shown_aside, H2).
  cbn beta iota. change (wlp (parts_after ts secret updated)
    (ends (λ tr, next_round ts (tr1 ++ tr2 ++ tr)))).
  eapply wlp_mono; [apply wlp_and; [apply parts_after_ends|apply parts_after_head]|].
  intros tr o [He [Hb Hf]]. destruct o as [[after [e|]]|w]; [exact He| |done].
  cbn in He |- *. unfold next_round, list_created, list_rewritten.
  destruct (services_app (tr1 ++ tr2) tr Hs) as [E1 E2].
  rewrite (assoc_L (++)), E1, E2, Hb, Hf, app_nil_r, Hc, Hr.
  by destruct updated as [[]|].
Qed.
End Requeue.
