(* ===== verification/PhaseTheory.v ===== *)
(** * The phases of a round (Controller, Conditions)

    The sequence of phases a round writes into the status of the cluster, as a
    language: which values, in which order, how many. *)
From S2P Require Import Prelude GoLib K8s Api Effects Hoare External Utils Conditions.
From S2P Require Import StatefulSetOps ConfigMap QuorumHelpers Quorum Secret Services.
From S2P Require Import StatefulSetHash StatefulSet Scraper PodMonitors Ingresses HttpRoute.
From S2P Require Import Controller Footprint QuorumTheory QuorumSpec Rbac ControllerTheory.
From Stdlib Require Import Ascii.
From Stdlib Require String.

(** ** Reasons as the API server admits them

    [metav1.Condition.Reason]: a letter, then letters, digits, underscores,
    commas and colons, the last of which is not a comma or a colon. *)
Definition in_range (lo hi c : ascii) : bool :=
  (nat_of_ascii lo <=? nat_of_ascii c)%nat && (nat_of_ascii c <=? nat_of_ascii hi)%nat.
Definition is_letter (c : ascii) : bool := in_range "A" "Z" c || in_range "a" "z" c.
Definition is_word (c : ascii) : bool := is_letter c || in_range "0" "9" c || Ascii.eqb c "_".
Definition is_inner (c : ascii) : bool := is_word c || Ascii.eqb c "," || Ascii.eqb c ":".
Fixpoint reason_tail (s : string) : bool :=
  match s with
  | EmptyString => true
  | String c EmptyString => is_word c
  | String c s' => is_inner c && reason_tail s'
  end.
Definition valid_reason (s : string) : bool :=
  match s with
  | EmptyString => false
  | String c s' => is_letter c && reason_tail s'
  end.

(** ** The language of phases *)

(** Recorded when a part fails *)
Definition part_reasons : list string :=
  [ConditionReasonSecretNotReady; ConditionReasonConfigMapNotReady;
   ConditionReasonServicesNotReady; ConditionReasonIngressNotReady;
   ConditionReasonHttpRouteNotReady; ConditionReasonScrapersNotReady;
   ConditionReasonMetricsExporterNotReady; ConditionReasonStatefulSetNotReady].

(** The report of the quorum, if it gets that far *)
Definition quorum_phases (l : list string) : Prop := l = [] ∨ ∃ c, c ∈ reasons ∧ l = [c].
(** ... which a rewritten nodes list precedes *)
Definition parts_phases (l : list string) : Prop :=
  (∃ c, c ∈ part_reasons ∧ l = [c]) ∨ quorum_phases l
  ∨ ∃ l', quorum_phases l' ∧ l = ConditionReasonQuorumNotReadyWaitATerm :: l'.
Definition round_phases (l : list string) : Prop :=
  ∃ l', parts_phases l' ∧ (l = l' ∨ l = "Bootstrapping" :: l').

Lemma round_phases_valid l : round_phases l → Forall (λ s, valid_reason s = true) l ∧ length l ≤ 3.
Proof.
  assert (∀ c, c ∈ reasons ++ part_reasons → valid_reason c = true) as Hv.
  { apply Forall_forall. apply (bool_decide_eq_true_1 _). by vm_compute. }
  assert (∀ l, quorum_phases l → Forall (λ s, valid_reason s = true) l ∧ length l ≤ 1) as Hq.
  { intros l' [->|(c & Hc & ->)]; [by split; [|simpl; lia]|]. split; [|simpl; lia].
    repeat constructor. apply Hv, elem_of_app. by left. }
  assert (∀ l, parts_phases l → Forall (λ s, valid_reason s = true) l ∧ length l ≤ 2) as Hp.
  { intros l' [(c & Hc & ->)|[H|(l'' & H & ->)]].
    - split; [|simpl; lia]. repeat constructor. apply Hv, elem_of_app. by right.
    - destruct (Hq _ H). split; [done|lia].
    - destruct (Hq _ H). split; [by constructor|simpl; lia]. }
  intros (l' & H & [->| ->]); destruct (Hp _ H); [split; [done|lia]|].
  split; [by constructor|simpl; lia].
Qed.

Section Phases.
Context `{L : Libs} (r : Reconciler).

(** Parts do not write phases. *)
Lemma phases_bind {A B} (P : list string → Prop) (p : prog A) (f : A → prog B) :
  part_calls p → P [] → (∀ a, wlp (f a) (λ tr _, P (phases tr))) →
  wlp (p ≫= f) (λ tr _, P (phases tr)).
Proof.
  intros Hp H0 Hf. apply wlp_bind_part; [done| |by intros tr w ->].
  intros tr a Htr. eapply wlp_mono; [apply Hf|]. intros tr2 o. by rewrite phases_app, Htr.
Qed.

Lemma fail_phases ts reason err : wlp (fail ts reason err) (λ tr _, phases tr = [reason]).
Proof.
  unfold fail. eapply wlp_bind_cut; [apply setConditionNotReady_phases| |by intros tr w [H _]].
  intros tr [ts' e] [H _]. apply wlp_ret. by rewrite app_nil_r.
Qed.
Lemma fail_parts_phases ts reason err :
  reason ∈ part_reasons → wlp (fail ts reason err) (λ tr _, parts_phases (phases tr)).
Proof.
  intros Hr. eapply wlp_mono; [apply fail_phases|]. intros tr _ ->. left. by exists reason.
Qed.

Lemma report_not_ready_phases (P : list string → Prop) ts reason err next :
  P [] → (∀ ts, wlp (next ts) (λ tr _, P (phases tr))) →
  wlp (report_not_ready ts reason err next) (λ tr _, ∃ l, P l ∧ phases tr = reason :: l).
Proof.
  intros H0 Hn. unfold report_not_ready.
  eapply wlp_bind_cut; [apply setConditionNotReady_phases| |].
  2: { intros tr w [H _]. by exists []. }
  intros tr [ts' [e|]] [H _].
  { apply wlp_ret. exists []. by rewrite app_nil_r. }
  eapply wlp_mono; [apply (phases_bind P); [rbac|done|intros _; apply Hn]|].
  intros tr' o HP. exists (phases tr'). by rewrite phases_app, H.
Qed.

Lemma report_quorum_phases ts condition err n :
  wlp (report_quorum ts condition err n) (λ tr _, phases tr = [] ∨ phases tr = [condition]).
Proof.
  unfold report_quorum. cbv zeta.
  assert (∀ err, wlp (report_not_ready ts condition err (λ _, mret (n, None)))
    (λ tr _, phases tr = [] ∨ phases tr = [condition])) as Hnot.
  { intros e. eapply wlp_mono; [apply (report_not_ready_phases (λ l, l = [])); [done|]|].
    - intros. by apply wlp_ret.
    - intros tr o (l & -> & ->). by right. }
  destruct (contains_str _ _); [apply Hnot|]. destruct (negb _); [apply Hnot|].
  apply (phases_bind (λ l, l = [] ∨ l = [condition])); [apply all_events_lift|by left|]. intros c.
  eapply wlp_bind_cut; [apply setConditionReady_phases| |].
  2: { intros tr w [H _]. by right. }
  intros tr [ts' [e|]] [H _].
  { apply wlp_ret. right. by rewrite app_nil_r. }
  eapply wlp_mono; [apply (phases_bind (λ l, l = [])); [|done|intros; by apply wlp_ret]|].
  - destruct (negb _); rbac.
  - intros tr' o H'. right. by rewrite phases_app, H, H'.
Qed.

Lemma quorum_phase_phases ts secret sts n :
  wlp (quorum_phase r ts secret sts n) (λ tr _, quorum_phases (phases tr)).
Proof.
  unfold quorum_phase. eapply wlp_bind_cut.
  { apply wlp_and; [apply ReconcileQuorum_known|apply part_no_phase, role_quorum]. }
  2: { intros tr w [_ H]. by left. }
  intros tr [[condition size] err] [Hr Hp].
  eapply wlp_mono; [apply report_quorum_phases|]. intros tr' o H.
  rewrite phases_app, Hp. cbn [app]. destruct H as [->| ->]; [by left|right].
  by exists condition.
Qed.

Lemma phase_phases ts reason p next :
  reason ∈ part_reasons → part_calls p → wlp next (λ tr _, parts_phases (phases tr)) →
  wlp (phase ts reason p next) (λ tr _, parts_phases (phases tr)).
Proof.
  intros Hr Hp Hn. unfold phase. apply phases_bind; [done|by right; left; left|].
  intros [e|]; [by apply fail_parts_phases|done].
Qed.

Lemma reconcile_parts_phases ts : wlp (reconcile_parts r ts) (λ tr _, parts_phases (phases tr)).
Proof.
  assert (parts_phases []) as H0 by by right; left; left.
  unfold reconcile_parts. apply phases_bind; [apply role_secret|done|].
  intros [secret|e]; [|apply fail_parts_phases; set_solver].
  apply phases_bind; [apply role_configmap|done|].
  intros [updated [e|]]; [apply fail_parts_phases; set_solver|].
  apply phase_phases; [set_solver|apply role_services|].
  apply phases_bind; [apply role_ingress|done|]. intros [ts2 err].
  apply phase_phases; [set_solver|apply all_events_ret|].
  apply phase_phases; [set_solver|apply role_httproute|].
  apply phase_phases; [set_solver|apply role_scraper|].
  apply phase_phases; [set_solver|apply role_podmonitor|].
  unfold statefulset_phase. apply phases_bind; [apply role_statefulset|done|].
  intros [[sts b] [e|]]; [apply fail_parts_phases; set_solver|].
  apply phases_bind; [apply all_events_lift|done|]. intros s.
  unfold finish. apply phases_bind; [apply all_events_lift|done|]. intros g.
  destruct updated as [[]|].
  - apply phases_bind; [apply role_forcePods|done|]. intros _.
    eapply wlp_mono; [apply (report_not_ready_phases quorum_phases);
      [by left|intros; apply quorum_phase_phases]|].
    intros tr o (l & Hl & ->). right; right. by exists l.
  - eapply wlp_mono; [apply quorum_phase_phases|]. intros tr o H. by right; left.
  - apply wlp_ret. by right; left; left.
Qed.

(** C16 The status is well typed: the phases a round sends are, in this order,
    [Bootstrapping] for a new cluster, then either the reason of the one part
    that failed, or the reason of a rewritten nodes list and the report of the
    quorum; each is a reason the API server admits, and there are at most
    three. *)
Theorem Reconcile_phases req :
  wlp (Reconcile r req) (λ tr _,
    round_phases (phases tr)
    ∧ Forall (λ s, valid_reason s = true) (phases tr) ∧ length (phases tr) ≤ 3).
Proof.
  eapply wlp_mono with (Q := λ tr _, round_phases (phases tr)).
  2: { intros tr o H. split; [done|by apply round_phases_valid]. }
  assert (∀ l, parts_phases l → round_phases l) as Hp by (intros l H; exists l; auto).
  assert (round_phases []) as H0 by by apply Hp; right; left; left.
  unfold Reconcile. apply phases_bind; [rbac|done|].
  intros [ts|err]; [|by apply wlp_ret].
  unfold initConditions. destruct (decide _).
  - unfold patchStatus. cbv zeta.
    apply wlp_assoc, wlp_trigger_bind. intros now. apply wlp_assoc, wlp_trigger_bind.
    intros [ts1|err1]; apply wlp_ret_bind.
    + eapply wlp_mono; [apply reconcile_parts_phases|]. intros tr o H.
      exists (phases tr). split; [done|by right].
    + apply wlp_ret. exists []. split; [by right; left; left|by right].
  - apply wlp_ret_bind. eapply wlp_mono; [apply reconcile_parts_phases|]. intros tr o. apply Hp.
Qed.
End Phases.
