(* ===== verification/MainTheory.v ===== *)
(** * Theorems on the process entry point (Main)

    The command line is read back as it is written, the process follows its
    script up to the first failure, which decides how it ends, and the servers
    get the TLS options the flags ask for. *)
From S2P Require Import Prelude GoLib K8s Api Effects Controller Main.
From Stdlib Require Import Ascii.
From Stdlib Require String.

(** ** Flags *)
Section Flags.
Context `{FF : ForeignFlags}.

Lemma index_char_app (c : ascii) n v :
  has_char c n = false → index_str (n +:+ String c v) (String c "") = Some (String.length n).
Proof.
  induction n as [|a n IH]; simpl.
  - intros _. destruct (ascii_dec c c); [|done]. by destruct v.
  - intros [Ha Hn]%orb_false_iff. rewrite Ascii.eqb_sym in Ha. apply Ascii.eqb_neq in Ha.
    destruct (ascii_dec c a); [congruence|]. by rewrite IH.
Qed.
Lemma take_str_app n v : take_str (String.length n) (n +:+ v) = n.
Proof. induction n as [|a n IH]; simpl; [by destruct v|by rewrite IH]. Qed.
Lemma drop_str_after n c v : drop_str (S (String.length n)) (n +:+ String c v) = v.
Proof. induction n as [|a n IH]; [by destruct v|exact IH]. Qed.

Lemma split_flag_app n v :
  has_char "=" n = false → split_flag (n +:+ String "=" v) = (n, Some v).
Proof.
  intros Hn. unfold split_flag. rewrite (index_char_app "=") by done.
  by rewrite take_str_app, drop_str_after.
Qed.

(** The names of the flags are not empty and do not start like a bad flag. *)
Definition flag_name_ok (n : string) : bool :=
  negb (String.eqb n "") && negb (has_char "=" n) && negb (String.prefix "-" n).

Lemma flag_names_ok n :
  n ∈ string_flags.*1 ++ bool_flags.*1 → flag_name_ok n = true.
Proof.
  revert n. apply Forall_forall.
  apply (bool_decide_eq_true_1 _). by vm_compute.
Qed.

(** [--name=value] *)
Definition render_flag (name value : string) : string := "--" +:+ name +:+ "=" +:+ value.

Lemma parse_render n v k args f :
  flag_name_ok n = true → formal n = Some k →
  parse_flags (render_flag n v :: args) f =
  match set_flag k n v f with Some f' => parse_flags args f' | None => BadUsage end.
Proof.
  unfold flag_name_ok. intros Hn Hk. bool_to_prop. destruct n as [|a n]; [done|].
  set (m := String a n) in *.
  assert (flag_token (render_flag m v) = Some (m +:+ String "=" v)) as Ht by done.
  assert (String.prefix "-" (m +:+ String "=" v) = false) as E1.
  { unfold m in *. destruct (ascii_dec "-" a) as [<-|Ha].
    - match goal with H : String.prefix _ _ = false |- _ => by destruct n end.
    - change (String a n +:+ ?x) with (String a (n +:+ x)). cbn [String.prefix].
      by destruct (ascii_dec "-" a). }
  assert (String.prefix "=" (m +:+ String "=" v) = false) as E2.
  { unfold m in *. change (String a n +:+ ?x) with (String a (n +:+ x)). cbn [String.prefix].
    destruct (ascii_dec "=" a) as [<-|]; [|done].
    match goal with H : has_char _ _ = false |- _ => by apply orb_false_iff in H as [H _] end. }
  cbn [parse_flags]. rewrite Ht, E1, E2. cbn [orb].
  rewrite split_flag_app by done. by rewrite Hk.
Qed.

Lemma parse_bool_format b : parse_bool (format_bool b) = (b, None).
Proof. by destruct b. Qed.

Lemma formal_string n : n ∈ string_flags.*1 → formal n = Some FString.
Proof. intros Hn. unfold formal. by rewrite decide_True. Qed.
Lemma formal_bool n : n ∈ bool_flags.*1 → formal n = Some FBool.
Proof.
  intros Hn. unfold formal. rewrite (decide_True (P := n ∈ bool_flags.*1)) by done.
  rewrite decide_False; [done|]. revert n Hn. apply Forall_forall.
  apply (bool_decide_eq_true_1 _). by vm_compute.
Qed.

(** The command line that gives every flag a value *)
Definition command_line (s : string → string) (b : string → bool) : list string :=
  ((λ n, render_flag n (s n)) <$> string_flags.*1)
  ++ ((λ n, render_flag n (format_bool (b n))) <$> bool_flags.*1).

Lemma parse_strings s names args f :
  Forall (λ n, n ∈ string_flags.*1) names →
  parse_flags (((λ n, render_flag n (s n)) <$> names) ++ args) f =
  parse_flags args {| strings := foldl (λ m n, <[n := s n]> m) (strings f) names;
                      bools := bools f |}.
Proof.
  intros Hn. revert f. induction Hn as [|n names Hn _ IH]; intros f; [by destruct f|].
  cbn [fmap list_fmap app].
  rewrite (parse_render n (s n) FString); [|apply flag_names_ok; set_solver|by apply formal_string].
  cbn [set_flag]. etransitivity; [apply IH|]. reflexivity.
Qed.
Lemma parse_bools b names args f :
  Forall (λ n, n ∈ bool_flags.*1) names →
  parse_flags (((λ n, render_flag n (format_bool (b n))) <$> names) ++ args) f =
  parse_flags args {| strings := strings f;
                      bools := foldl (λ m n, <[n := b n]> m) (bools f) names |}.
Proof.
  intros Hn. revert f. induction Hn as [|n names Hn _ IH]; intros f; [by destruct f|].
  cbn [fmap list_fmap app].
  rewrite (parse_render n (format_bool (b n)) FBool);
    [|apply flag_names_ok; set_solver|by apply formal_bool].
  cbn [set_flag]. rewrite parse_bool_format. etransitivity; [apply IH|]. reflexivity.
Qed.

Lemma foldl_insert_lookup {A} (s : string → A) names (m : gmap string A) n :
  n ∈ names → foldl (λ m n, <[n := s n]> m) m names !! n = Some (s n).
Proof.
  revert m. induction names as [|x names IH] using rev_ind; intros m Hn; [set_solver|].
  rewrite foldl_app. cbn [foldl]. destruct (decide (n = x)) as [->|].
  - by rewrite lookup_insert_eq.
  - rewrite lookup_insert_ne by done. apply IH. set_solver.
Qed.

(** The flags are read as they are written: the command line that gives
    every flag of the operator a value sets every variable of [main] to exactly
    that value, whatever characters the values contain. *)
Theorem flags_roundtrip (s : string → string) (b : string → bool) :
  ∃ f, parse_flags (command_line s b) default_flags = Parsed f
    ∧ Forall (λ n, string_var n f = s n) string_flags.*1
    ∧ Forall (λ n, bool_var n f = b n) bool_flags.*1.
Proof.
  eexists. split.
  - unfold command_line. rewrite parse_strings by (by apply Forall_forall).
    rewrite <-(app_nil_r (_ <$> bool_flags.*1)).
    rewrite parse_bools by (by apply Forall_forall). reflexivity.
  - split; apply Forall_forall; intros n Hn; unfold string_var, bool_var; cbn [strings bools];
      by rewrite foldl_insert_lookup.
Qed.

(** ** The script of the process *)

(** The calls in order; only looking for the token may fail. *)
Definition watcher_of (path name key : string) : option CertWatcher :=
  if (0 <? String.length path)%nat
  then Some {| watched_cert := Join path name; watched_key := Join path key |} else None.
Definition webhook_of (f : Flags) : option CertWatcher :=
  watcher_of (webhookCertPath f) (webhookCertName f) (webhookCertKey f).
Definition metrics_of (f : Flags) : option CertWatcher :=
  watcher_of (metricsCertPath f) (metricsCertName f) (metricsCertKey f).
Definition in_cluster (answers : setup_call → option error) : bool :=
  match answers (StatFile tokenFile) with None => true | Some _ => false end.

Definition preparation (f : Flags) (inCluster : bool) : list setup_call :=
  (NewCertWatcher <$> option_list (webhook_of f))
  ++ (NewCertWatcher <$> option_list (metrics_of f))
  ++ [GetConfigOrDie; NewManager (manager_options f (webhook_of f) (metrics_of f));
      NewClientSet; StatFile tokenFile;
      CompleteController {| cs_For := KTypesenseCluster;
        cs_Name := "typesense-kubernetes-operator"; cs_InCluster := inCluster |}]
  ++ (AddRunnable <$> option_list (metrics_of f))
  ++ (AddRunnable <$> option_list (webhook_of f))
  ++ [AddHealthzCheck "healthz"; AddReadyzCheck "readyz"].
Definition script (f : Flags) (inCluster : bool) : list setup_call :=
  preparation f inCluster ++ [StartManager].

Definition tolerated (c : setup_call) : bool :=
  match c with StatFile _ => true | _ => false end.
Fixpoint follow (calls : list setup_call) : proc unit :=
  match calls with
  | [] => mret tt
  | c :: cs =>
      e ← do_call c;
      match e with
      | Some _ => if tolerated c then follow cs else stop (ExitCode 1)
      | None => follow cs
      end
  end.
End Flags.

(** Laws of the computations of the process, up to the answers *)
Section Script.
Context `{FF : ForeignFlags} (answers : setup_call → option error).

Record agrees {A} (p q : proc A) : Prop := { agrees_eq : p answers = q answers }.
Arguments agrees_eq {A p q}.

#[local] Instance agrees_equiv {A} : Equivalence (@agrees A).
Proof. split; [done|by intros ?? [?]|intros ??? [E] [E']; split; by rewrite E]. Qed.
#[local] Instance agrees_bind_proper {A B} :
  Proper (pointwise_relation A (@agrees B) ==> (@agrees A) ==> (@agrees B)) mbind.
Proof.
  intros k k' Hk p p' [Hp]. split. unfold mbind, proc_bind. rewrite Hp.
  destruct (p' answers) as [calls [e|a]]; [done|]. by rewrite (agrees_eq (Hk a)).
Qed.

Lemma proc_assoc {A B C} (p : proc A) (f : A → proc B) (g : B → proc C) :
  agrees ((p ≫= f) ≫= g) (p ≫= λ a, f a ≫= g).
Proof.
  split. unfold mbind, proc_bind. destruct (p answers) as [calls [e|a]]; [done|].
  destruct (f a answers) as [calls' [e|b]]; [done|].
  destruct (g b answers) as [calls'' r]. by rewrite (assoc_L (++)).
Qed.
Lemma proc_ret_l {A B} (a : A) (f : A → proc B) : agrees (mret a ≫= f) (f a).
Proof. split. unfold mbind, proc_bind, mret, proc_ret. by destruct (f a answers). Qed.
Lemma proc_ret_r {A} (p : proc A) : agrees (p ≫= mret) p.
Proof.
  split. unfold mbind, proc_bind, mret, proc_ret.
  destruct (p answers) as [calls [e|a]]; [done|]. by rewrite app_nil_r.
Qed.
Lemma stop_l {A B} (e : ending) (f : A → proc B) : agrees (stop e ≫= f) (stop e).
Proof. done. Qed.

Lemma follow_app l l' : agrees (follow (l ++ l')) (follow l;; follow l').
Proof.
  induction l as [|c l IH]; cbn [app follow]; [by rewrite proc_ret_l|].
  rewrite proc_assoc. f_equiv. intros [e|]; [destruct (tolerated c)|]; done.
Qed.
Lemma follow_cons c l : tolerated c = false → agrees (follow (c :: l)) (or_exit c;; follow l).
Proof.
  intros Ht. unfold or_exit. rewrite proc_assoc. cbn [follow]. rewrite Ht.
  f_equiv. intros [e|]; [done|]. by rewrite proc_ret_l.
Qed.
Lemma follow_last c : tolerated c = false → agrees (follow [c]) (or_exit c).
Proof.
  intros Ht. unfold or_exit. cbn [follow]. rewrite Ht. reflexivity.
Qed.
Lemma follow_watcher w :
  agrees (follow (AddRunnable <$> option_list w)) (add_watcher w).
Proof. destruct w as [w|]; [by apply follow_last|done]. Qed.

Lemma cert_watcher_follow path name key :
  agrees (cert_watcher path name key)
    (follow (NewCertWatcher <$> option_list (watcher_of path name key));;
     mret (watcher_of path name key)).
Proof.
  unfold cert_watcher, watcher_of. destruct (0 <? String.length path)%nat.
  - set (w := {| watched_cert := _ |}).
    change (NewCertWatcher <$> option_list (Some w)) with [NewCertWatcher w].
    by rewrite follow_last.
  - change (follow (NewCertWatcher <$> option_list None)) with (mret tt : proc unit).
    by rewrite proc_ret_l.
Qed.

Lemma cert_watcher_bind {B} path name key (k : option CertWatcher → proc B) :
  agrees (cert_watcher path name key ≫= k)
    (follow (NewCertWatcher <$> option_list (watcher_of path name key));;
     k (watcher_of path name key)).
Proof.
  rewrite (cert_watcher_follow path name key), proc_assoc.
  apply agrees_bind_proper; [intros _; apply proc_ret_l|reflexivity].
Qed.

(** Looking for the token never stops the process. *)
Lemma isInCluster_follow l :
  agrees (follow (StatFile tokenFile :: l)) (_ ← isInCluster; follow l).
Proof.
  unfold isInCluster. rewrite proc_assoc. cbn [follow tolerated].
  f_equiv. intros e. rewrite proc_ret_l. by destruct e.
Qed.
Lemma isInCluster_value {B} (k : bool → proc B) :
  agrees (isInCluster ≫= k) (_ ← isInCluster; k (in_cluster answers)).
Proof.
  split. unfold isInCluster, in_cluster, do_call, mbind, proc_bind, mret, proc_ret. simpl.
  by destruct (answers (StatFile tokenFile)).
Qed.

#[local] Ltac step := apply agrees_bind_proper; [intros ?; cbv beta|reflexivity].
Lemma run_manager_script f : agrees (run_manager f) (follow (script f (in_cluster answers))).
Proof.
  unfold script, preparation, run_manager, SetupWithManager. rewrite <-!app_assoc. cbn [app].
  etransitivity; [apply cert_watcher_bind|]. rewrite follow_app. step.
  etransitivity; [apply cert_watcher_bind|]. rewrite follow_app. step.
  fold (webhook_of f) (metrics_of f). cbn [app].
  do 3 (rewrite follow_cons by done; step).
  rewrite isInCluster_follow, isInCluster_value. step.
  rewrite follow_cons by done. step.
  rewrite follow_app, follow_watcher. step.
  rewrite follow_app, follow_watcher. step.
  do 2 (rewrite follow_cons by done; step). symmetry. by apply follow_last.
Qed.

(** What [init] does is the beginning of the script, except that it panics. *)
Lemma add_groups_ok groups :
  Forall (λ g, answers (AddToScheme g) = None) groups →
  add_groups groups answers = (AddToScheme <$> groups, inr tt).
Proof.
  induction 1 as [|g groups Hg _ IH]; [done|]. cbn [add_groups fmap list_fmap].
  unfold mbind, proc_bind, do_call. rewrite Hg. by rewrite IH.
Qed.
End Script.

Section Process.
Context `{FF : ForeignFlags} (answers : setup_call → option error).

(** The call did not stop the process. *)
Definition passed (c : setup_call) : Prop := tolerated c = true ∨ answers c = None.

Definition registered (group : string) : Prop := answers (AddToScheme group) = None.

Lemma follow_inv l :
  (Forall passed l ∧ follow l answers = (l, inr tt))
  ∨ ∃ pre c post, l = pre ++ c :: post ∧ Forall passed pre ∧ ¬ passed c
      ∧ follow l answers = (pre ++ [c], inl (ExitCode 1)).
Proof.
  unfold passed. induction l as [|c l IH]; [by left|]. cbn [follow].
  unfold mbind, proc_bind, do_call. destruct (answers c) as [e|] eqn:Ec.
  1: destruct (tolerated c) eqn:Et.
  2: { right. exists [], c, l. split_and!; [done..| |done]. intros [?|?]; congruence. }
  all: destruct IH as [[Hl ->]|(pre & d & post & -> & Hp & Hd & ->)];
    [left; split; [constructor; auto|done]|right; exists (c :: pre), d, post];
    (split_and!; [done|constructor; auto|done|done]).
Qed.

Lemma add_groups_inv groups :
  (Forall registered groups ∧ add_groups groups answers = (AddToScheme <$> groups, inr tt))
  ∨ ∃ pre g post, groups = pre ++ g :: post ∧ Forall registered pre ∧ ¬ registered g
      ∧ add_groups groups answers = (AddToScheme <$> pre ++ [g], inl InitPanic).
Proof.
  unfold registered. induction groups as [|g groups IH]; [by left|]. cbn [add_groups].
  unfold mbind, proc_bind, do_call. destruct (answers (AddToScheme g)) eqn:Eg.
  - right. exists [], g, groups. by rewrite Eg.
  - destruct IH as [[Hl ->]|(pre & d & post & -> & Hp & Hd & ->)];
      [left; split; [constructor; auto|done]|right; exists (g :: pre), d, post].
    split_and!; [done|constructor; auto|done|done].
Qed.

Lemma groups_not_in (c : setup_call) (groups : list string) :
  (∀ g, c ≠ AddToScheme g) → c ∉ (AddToScheme <$> groups).
Proof. intros Hc (g & -> & _)%list_elem_of_fmap. by apply (Hc g). Qed.

(** The runs of [main]: one ends at the first API group that cannot be
    registered, after the flags, at the first failing call of the script, or
    when the manager returns. *)
Lemma main_inv args :
  let '(calls, r) := main args answers in
  (∃ pre g post, scheme_groups = pre ++ g :: post ∧ Forall registered pre ∧ ¬ registered g
     ∧ calls = AddToScheme <$> pre ++ [g] ∧ r = inl InitPanic)
  ∨ (Forall registered scheme_groups
     ∧ match parse_flags args default_flags with
       | HelpAsked => calls = AddToScheme <$> scheme_groups ∧ r = inl (ExitCode 0)
       | BadUsage => calls = AddToScheme <$> scheme_groups ∧ r = inl (ExitCode 2)
       | Parsed f =>
           (∃ pre c post, script f (in_cluster answers) = pre ++ c :: post
              ∧ Forall passed pre ∧ ¬ passed c
              ∧ calls = (AddToScheme <$> scheme_groups) ++ pre ++ [c] ∧ r = inl (ExitCode 1))
           ∨ (Forall passed (script f (in_cluster answers))
              ∧ calls = (AddToScheme <$> scheme_groups) ++ script f (in_cluster answers)
              ∧ r = inr tt)
       end).
Proof.
  unfold main, init, mbind, proc_bind.
  destruct (add_groups_inv scheme_groups) as [[Hg ->]|(pre & g & post & E & Hp & Hg & ->)].
  2: { left. by exists pre, g, post. }
  destruct (parse_flags args default_flags) as [f| |];
    [|right; by rewrite app_nil_r|right; by rewrite app_nil_r].
  rewrite (agrees_eq answers _ _ (run_manager_script answers f)).
  destruct (follow_inv (script f (in_cluster answers)))
    as [[Hl ->]|(pre & c & post & E & Hp & Hc & ->)].
  - right. split; [done|]. by right.
  - right. split; [done|]. left. by exists pre, c, post.
Qed.

(** The calls of [main]: those of [init] alone, or those of [init] and of the
    script of the flags that were read *)
Lemma main_calls args :
  let '(calls, r) := main args answers in
  (∃ groups e, calls = AddToScheme <$> groups ∧ r = inl e)
  ∨ ∃ f, parse_flags args default_flags = Parsed f
      ∧ calls = (AddToScheme <$> scheme_groups)
                ++ (follow (script f (in_cluster answers)) answers).1
      ∧ r = (follow (script f (in_cluster answers)) answers).2.
Proof.
  unfold main, init, mbind, proc_bind.
  destruct (add_groups_inv scheme_groups) as [[_ ->]|(pre & g & post & _ & _ & _ & ->)].
  2: { left. by eexists _, _. }
  destruct (parse_flags args default_flags) as [f| |] eqn:Ep.
  - rewrite (agrees_eq answers _ _ (run_manager_script answers f)).
    destruct (follow _ _) as [calls r] eqn:E. right. exists f. rewrite E. by split_and!.
  - left. exists scheme_groups, (ExitCode 0). by rewrite app_nil_r.
  - left. exists scheme_groups, (ExitCode 2). by rewrite app_nil_r.
Qed.

Lemma start_not_prepared f b : StartManager ∉ preparation f b.
Proof.
  unfold preparation. rewrite !not_elem_of_app, !not_elem_of_cons.
  assert (∀ (g : CertWatcher → setup_call) (w : option CertWatcher), (∀ x, g x ≠ StartManager) →
    StartManager ∉ (g <$> (option_list w : list CertWatcher))) as Hn.
  { intros g w Hg (x & E & _)%list_elem_of_fmap. by apply (Hg x). }
  split_and!; try done; try (by apply Hn); by apply not_elem_of_nil.
Qed.

(** The last call of a list that a prefix of it already contains *)
Lemma start_is_last before pre c post :
  StartManager ∉ before → before ++ [StartManager] = pre ++ c :: post →
  StartManager ∈ pre ++ [c] → before = pre ∧ c = StartManager.
Proof.
  intros Hb E Hin. destruct post as [|p post _] using rev_ind.
  { by apply app_inj_tail in E as [-> ->]. }
  rewrite app_comm_cons, app_assoc in E. apply app_inj_tail in E as [-> _].
  destruct Hb. set_solver.
Qed.
Lemma main_started args :
  StartManager ∈ (main args answers).1 →
  ∃ f, parse_flags args default_flags = Parsed f
    ∧ (main args answers).1 = (AddToScheme <$> scheme_groups) ++ preparation f (in_cluster answers)
              ++ [StartManager]
    ∧ Forall passed (preparation f (in_cluster answers))
    ∧ ((main args answers).2 = inr tt ↔ answers StartManager = None).
Proof.
  pose proof (main_inv args) as H. destruct (main args answers) as [calls r]. cbn [fst snd].
  assert (∀ l, StartManager ∉ AddToScheme <$> l) as Hn by (intros l; by apply groups_not_in).
  destruct H as [(pre & g & post & _ & _ & _ & -> & _)|[_ H]]; [by intros ?%Hn|].
  destruct (parse_flags args default_flags) as [f| |];
    [|destruct H as [-> _]; by intros ?%Hn|destruct H as [-> _]; by intros ?%Hn].
  intros Hin. exists f. split; [done|]. unfold script in *.
  destruct H as [(pre & c & post & E & Hp & Hc & -> & ->)|(Hl & -> & ->)].
  - apply elem_of_app in Hin as [?%Hn|Hin]; [done|].
    destruct (start_is_last _ _ _ _ (start_not_prepared f (in_cluster answers)) E Hin) as [-> ->].
    split_and!; [done..|]. split; [done|]. intros Ha. destruct Hc. by right.
  - apply Forall_app in Hl as [Hl [[?|Hs] _]%Forall_cons]; [done|]. by split_and!.
Qed.

(** C29 How the process runs and how it ends, whatever its calls answer.  When
    an API group cannot be registered, [init] panics there and nothing else is
    called.  Otherwise the flags are read: a request for help ends the process
    with code 0 and a bad command line with code 2, before any other call.
    Otherwise the calls of the script are made in its order, from the watchers
    of the certificates that are configured to the start of the manager: at the
    first one that fails (the look-up of the token is the only one that may) the
    process makes no further call and ends with code 1; when none fails, all of
    them are made and [main] returns.  So the manager is started only when every
    group, the reconciler, the watchers and both health checks are in place. *)
Theorem main_starts_manager args :
  (let '(calls, r) := main args answers in
   (∃ pre g post, scheme_groups = pre ++ g :: post ∧ Forall registered pre ∧ ¬ registered g
      ∧ calls = AddToScheme <$> pre ++ [g] ∧ r = inl InitPanic)
   ∨ (Forall registered scheme_groups
      ∧ match parse_flags args default_flags with
        | HelpAsked => calls = AddToScheme <$> scheme_groups ∧ r = inl (ExitCode 0)
        | BadUsage => calls = AddToScheme <$> scheme_groups ∧ r = inl (ExitCode 2)
        | Parsed f =>
            (∃ pre c post, script f (in_cluster answers) = pre ++ c :: post
               ∧ Forall passed pre ∧ ¬ passed c
               ∧ calls = (AddToScheme <$> scheme_groups) ++ pre ++ [c] ∧ r = inl (ExitCode 1))
            ∨ (Forall passed (script f (in_cluster answers))
               ∧ calls = (AddToScheme <$> scheme_groups) ++ script f (in_cluster answers)
               ∧ r = inr tt)
        end))
  ∧ (StartManager ∈ (main args answers).1 →
     ∃ f, parse_flags args default_flags = Parsed f
       ∧ (main args answers).1 = (AddToScheme <$> scheme_groups)
                 ++ preparation f (in_cluster answers) ++ [StartManager]
       ∧ Forall passed (preparation f (in_cluster answers))
       ∧ ((main args answers).2 = inr tt ↔ answers StartManager = None)).
Proof. split; [apply main_inv|apply main_started]. Qed.

(** ** The servers *)

Lemma apply_server_opts f w c :
  apply_opts (server_opts f w) c =
  {| NextProtos := if enableHTTP2 f then NextProtos c else ["http/1.1"];
     GetCertificate := match w with Some w => Some w | None => GetCertificate c end |}.
Proof. unfold server_opts, tlsOpts. by destruct (enableHTTP2 f), w, c. Qed.

Lemma script_manager f b o :
  NewManager o ∈ script f b → o = manager_options f (webhook_of f) (metrics_of f).
Proof.
  unfold script, preparation. rewrite !elem_of_app.
  assert (∀ (g : CertWatcher → setup_call) (l : list CertWatcher),
    (∀ x, g x ≠ NewManager o) → NewManager o ∉ (g <$> l)) as Hn.
  { intros g l Hg (x & E & _)%list_elem_of_fmap. by apply (Hg x). }
  repeat first [intros [H|H]; revert H | intros H];
    first [by apply Hn in H | set_solver].
Qed.

(** C30 Whatever manager the process creates, its two servers are configured as
    the flags say: unless HTTP/2 is enabled both servers offer HTTP/1.1 only;
    each server uses the certificate of its own path and never that of the
    other; and metrics served securely are served to authorized users only. *)
Theorem main_servers args o c :
  NewManager o ∈ (main args answers).1 →
  ∃ f, parse_flags args default_flags = Parsed f
    ∧ apply_opts (mo_WebhookTLSOpts o) c =
        {| NextProtos := if enableHTTP2 f then NextProtos c else ["http/1.1"];
           GetCertificate := if String.eqb (webhookCertPath f) "" then GetCertificate c
             else Some {| watched_cert := Join (webhookCertPath f) (webhookCertName f);
                          watched_key := Join (webhookCertPath f) (webhookCertKey f) |} |}
    ∧ apply_opts (mo_MetricsTLSOpts o) c =
        {| NextProtos := if enableHTTP2 f then NextProtos c else ["http/1.1"];
           GetCertificate := if String.eqb (metricsCertPath f) "" then GetCertificate c
             else Some {| watched_cert := Join (metricsCertPath f) (metricsCertName f);
                          watched_key := Join (metricsCertPath f) (metricsCertKey f) |} |}
    ∧ mo_FilterProvider o = mo_SecureServing o.
Proof.
  pose proof (main_calls args) as H. destruct (main args answers) as [calls r]. cbn [fst].
  destruct H as [(groups & e & -> & _)|(f & Hp & -> & _)].
  { intros Hin. by apply groups_not_in in Hin. }
  intros [Hin|Hin]%elem_of_app; [by apply groups_not_in in Hin|].
  exists f. split; [done|].
  assert (NewManager o ∈ script f (in_cluster answers)) as Hs.
  { destruct (follow_inv (script f (in_cluster answers)))
      as [[_ E]|(pre & d & post & E & _ & _ & E')]; [by rewrite E in Hin|].
    rewrite E' in Hin. rewrite E. set_solver. }
  apply script_manager in Hs as ->. unfold manager_options. cbn [mo_WebhookTLSOpts mo_MetricsTLSOpts].
  rewrite !apply_server_opts. unfold webhook_of, metrics_of, watcher_of.
  by destruct (webhookCertPath f), (metricsCertPath f).
Qed.
End Process.

(** ** Concrete instances *)
Section Witnesses.
(** No flags of other packages *)
Definition no_foreign : ForeignFlags :=
  {| foreign_is_bool _ := None; foreign_accepts _ _ := false |}.
#[local] Existing Instance no_foreign.
Definition demo_args : list string := ["--webhook-cert-path=/certs"; "-leader-elect"].

Lemma main_starts_manager_witness :
  StartManager ∈ (main demo_args (λ _, None)).1
  ∧ ∃ f, parse_flags demo_args default_flags = Parsed f
    ∧ (main demo_args (λ _, None)).1 = (AddToScheme <$> scheme_groups) ++ preparation f true
        ++ [StartManager].
Proof.
  assert (StartManager ∈ (main demo_args (λ _, None)).1) as Hin.
  { repeat first [by left | right]. }
  split; [exact Hin|].
  destruct (proj2 (main_starts_manager (λ _, None) demo_args) Hin) as (f & Hf & E & _).
  exists f. split; [exact Hf|exact E].
Defined.

Lemma main_servers_witness :
  ∃ o f, NewManager o ∈ (main demo_args (λ _, None)).1
    ∧ parse_flags demo_args default_flags = Parsed f
    ∧ apply_opts (mo_WebhookTLSOpts o) tls_zero =
        {| NextProtos := if enableHTTP2 f then [] else ["http/1.1"];
           GetCertificate := if String.eqb (webhookCertPath f) "" then None
             else Some {| watched_cert := Join (webhookCertPath f) (webhookCertName f);
                          watched_key := Join (webhookCertPath f) (webhookCertKey f) |} |}.
Proof.
  eassert (NewManager _ ∈ (main demo_args (λ _, None)).1) as Hin by repeat first [by left | right].
  destruct (main_servers (λ _, None) demo_args _ tls_zero Hin) as (f & Hf & E & _).
  eexists _, f. split; [exact Hin|split; [exact Hf|exact E]].
Defined.
End Witnesses.
