(* ===== verification/Convergence.v ===== *)
(** * Convergence of repeated rounds (Secret, Services)

    Runs against an API server ([Server]): what a round of a part leaves behind,
    and that later rounds find nothing to do.  Each part has a predicate on the
    objects ([..._fine]): a fine state is not written to, and a round makes the
    state fine.  Of two clusters whose services share a name, one deletes a service
    of the other. *)
From S2P Require Import Prelude GoLib GoCrypto K8s Api Effects Hoare External Concrete Utils.
From S2P Require Import Conditions StatefulSetOps ConfigMap Secret Services.
From S2P Require Import Footprint UtilsTheory PartsTheory Server ObjectStore.
From Stdlib Require Import Ascii.
From Stdlib Require String.

Section Convergence.
Context `{L : Libs} {W : Type} (h : environment W) {S : ApiServer h}.

(** A round that found nothing to do *)
Definition idle {A} (a : A) (w : W) (tr : trace) (o : outcome A) (w' : W) : Prop :=
  writes tr = [] ∧ o = Done a ∧ same_objects w w'.

Lemma kept_key m m' : key_of m = key_of m' → om_Name m = om_Name m' ∧ om_Namespace m = om_Namespace m'.
Proof. by intros [= -> ->]. Qed.

Section Laws.
Context {LL : LibsLaws} {Acc : Accepting h}.

(** ** Services *)

Lemma svc_keys_ne ts : headlessObjectKey ts ≠ svcObjectKey ts.
Proof.
  unfold headlessObjectKey, svcObjectKey, ClusterHeadlessService, ClusterRestService.
  intros [= E%(f_equal String.length)]. rewrite !length_str_app in E. simpl in E. lia.
Qed.

(** What the server has under the two names, if anything, has a port. *)
Definition has_port (w : W) (key : ObjectKey) : Prop :=
  ∀ s, objects w KService key = Some s → svc_Ports s ≠ [].

Definition headless_fine (ts : TypesenseCluster) (w : W) : Prop :=
  ∃ s, objects w KService (headlessObjectKey ts) = Some s ∧ first_port_ok ts s.
Definition rest_fine (ts : TypesenseCluster) (w : W) : Prop :=
  ∃ s, objects w KService (svcObjectKey ts) = Some s ∧ service_ok ts (svcObjectKey ts) s.
(** The client service with a single port, the right one *)
Definition rest_short (ts : TypesenseCluster) (w : W) : Prop :=
  ∃ s, objects w KService (svcObjectKey ts) = Some s ∧ first_port_ok ts s
    ∧ om_Annotations (svc_meta s) = ServiceAnnotations (Spec ts).

Lemma ports_kept_first ts s s' :
  Forall2 port_kept (svc_Ports s) (svc_Ports s') → first_port_ok ts s → first_port_ok ts s'.
Proof.
  unfold first_port_ok. intros H. destruct H as [|p p' l l' (_ & Hp & _) _]; [done|].
  simpl. by rewrite Hp.
Qed.

(** Creating a service: what the server keeps of it *)
Lemma service_created ts key ann ports typ ip pub sel :
  let s := {| svc_meta := getObjectMeta ts (Some (key_Name key)) ann; svc_Type := typ;
              svc_ClusterIP := ip; svc_PublishNotReadyAddresses := pub; svc_Selector := sel;
              svc_Ports := http_port ts :: ports |} in
  ∃ m, SetControllerReference KTypesenseCluster (ts_meta ts) (svc_meta s) = Ok m
    ∧ ∀ w x w', h _ (Create KService (set_svc_meta m s)) w = (x, w') →
        key_Namespace key = ts_Namespace ts → objects w KService key = None →
        ∃ s', x = Ok s' ∧ changed w w' KService key (Some s') ∧ first_port_ok ts s'
          ∧ length (svc_Ports s') = Datatypes.S (length ports)
          ∧ om_Annotations (svc_meta s') = ann.
Proof.
  intros s. destruct (SetControllerReference_fresh KTypesenseCluster (ts_meta ts) (svc_meta s))
    as [m Hm]; [done|done|].
  exists m. split; [done|]. intros w x w' E Hns Hnone.
  apply SetControllerReference_keeps in Hm as (Hn & Hns' & _ & Ha).
  assert (obj_key KService (set_svc_meta m s) = key) as Hk.
  { unfold obj_key, key_of. cbn. rewrite Hn, Hns'. destruct key. cbn in *. by subst. }
  apply (create_accepted h) in E as (s' & -> & (_ & _ & Hann) & Hkept & Hc); [|by rewrite Hk].
  exists s'. rewrite Hk in Hc. split_and!; [done|done| | |].
  - eapply ports_kept_first; [exact Hkept|done].
  - by apply Forall2_length in Hkept.
  - etrans; [exact Hann|exact Ha].
Qed.

(** Patching a service that is there: the first port and the annotations *)
Lemma service_patched ts key orig s w x w' cur :
  h _ (Patch KService orig s) w = (x, w') →
  objects w KService key = Some cur → obj_key KService s = key → first_port_ok ts s →
  (svc_Ports orig = svc_Ports s → first_port_ok ts cur) →
  ∃ s', x = Ok s' ∧ changed w w' KService key (Some s') ∧ first_port_ok ts s'
    ∧ (∀ a, om_Annotations (svc_meta s') !! a =
         merged_map (om_Annotations (svc_meta orig)) (om_Annotations (svc_meta s))
           (om_Annotations (svc_meta cur)) a)
    ∧ (svc_Ports orig = svc_Ports s → svc_Ports s' = svc_Ports cur)
    ∧ (svc_Ports orig ≠ svc_Ports s → length (svc_Ports s') = length (svc_Ports s)).
Proof.
  intros E Hcur Hk Hp Hpc. rewrite <-Hk in Hcur.
  apply (patch_accepted h) with (cur := cur) in E as (s' & -> & _ & Ha & [Hm1 Hm2] & Hc); [|done].
  rewrite Hk in Hc. exists s'. split_and!; [done|done| |exact Ha|exact Hm1|].
  - destruct (decide (svc_Ports orig = svc_Ports s)) as [Heq|Hne].
    + unfold first_port_ok. rewrite (Hm1 Heq). by apply Hpc.
    + eapply ports_kept_first; [by apply Hm2|done].
  - intros Hne. symmetry. by eapply Forall2_length, Hm2.
Qed.

Lemma first_port_done s p : first_port s = Done p → sp_Port <$> head (svc_Ports s) = Some p.
Proof. unfold first_port, index. destruct (svc_Ports s); [done|]. intros E. injection E as E. cbn. by rewrite E. Qed.
Lemma set_first_port_same port s s' :
  set_first_port port s = Done s' →
  svc_meta s' = svc_meta s ∧ length (svc_Ports s') = length (svc_Ports s)
  ∧ (svc_Ports s = svc_Ports s' → sp_Port <$> head (svc_Ports s) = Some port).
Proof.
  unfold set_first_port. destruct (svc_Ports s) as [|p ports] eqn:E; [done|]. intros [= <-].
  cbn. split_and!; [done|done|]. intros E'. injection E' as Ep. by apply (f_equal sp_Port) in Ep as ->.
Qed.

(** The steps of the rules, with the law of the server for the call *)
Ltac got k key :=
  apply after_trigger_bind; intros x w1 E; apply (get_step h k key) in E as
    [Hsame1 [[Hnone (err & -> & Herr)]|(found & Hfound & ->)]].

Lemma headless_fine_idle ts w :
  headless_fine ts w → after h (reconcile_headless ts) w (idle None w).
Proof.
  intros (s & Hs & Hp). unfold reconcile_headless.
  got KService (headlessObjectKey ts); [congruence|].
  rewrite Hs in Hfound. injection Hfound as <-. cbn beta iota.
  rewrite (first_port_eq _ _ Hp). cbn [lift]. apply after_ret_bind.
  rewrite Z.eqb_refl. by apply after_ret.
Qed.

Lemma reconcile_headless_round ts w :
  has_port w (headlessObjectKey ts) →
  after h (reconcile_headless ts) w (λ _ o w', o = Done None ∧ headless_fine ts w'
    ∧ ∀ key, key ≠ headlessObjectKey ts → objects w' KService key = objects w KService key).
Proof.
  intros Hport. unfold reconcile_headless. got KService (headlessObjectKey ts).
  - rewrite Herr. unfold createHeadlessService, only_err.
    edestruct (service_created ts (headlessObjectKey ts) ∅ []) as (m & Hm & Hcreate).
    cbv zeta. rewrite Hm. apply after_trigger_bind. intros x w2 E2.
    apply Hcreate in E2 as (s' & -> & (Hc1 & Hc2 & _) & Hp & _); [|done|by rewrite Hsame1].
    apply after_ret. split_and!; [done|by exists s'|]. intros key Hk. by rewrite Hc2, Hsame1.
  - cbn beta iota.
    destruct (first_port found) as [p|] eqn:Ep.
    2: { exfalso. apply (Hport _ Hfound). unfold first_port in Ep. by destruct (svc_Ports found). }
    cbn [lift]. apply after_ret_bind.
    destruct (Z.eqb_spec (int32 (ApiPort (Spec ts))) p) as [<-|Hne].
    + apply after_ret. split_and!; [done| |by intros; apply Hsame1].
      exists found. rewrite Hsame1. by split; [|apply first_port_done].
    + unfold updateHeadlessService, only_err. apply after_lift_bind.
      2: { intros s Es. exfalso. apply (Hport _ Hfound). unfold set_first_port in Es.
           by destruct (svc_Ports found). }
      intros s Es. pose proof (set_first_port_same _ _ _ Es) as (Hm & _ & Hp).
      apply after_trigger_bind. intros x w2 E2.
      eapply (service_patched ts (headlessObjectKey ts)) in E2
        as (s' & -> & (Hc1 & Hc2 & _) & Hps & _);
        [|by rewrite Hsame1| |by eapply set_first_port_ok|done].
      2: { unfold obj_key. cbn [meta_of]. rewrite Hm. exact (objects_key _ _ _ _ Hfound). }
      apply after_ret. split_and!; [done|by exists s'|]. intros key Hk. by rewrite Hc2, Hsame1.
Qed.
Lemma rest_fine_idle ts w : rest_fine ts w → after h (reconcile_rest ts) w (idle None w).
Proof.
  intros (s & Hs & Hp & [Hl Ha]%(λ f, f eq_refl)). unfold reconcile_rest.
  got KService (svcObjectKey ts); [congruence|].
  rewrite Hs in Hfound. injection Hfound as <-. cbn beta iota.
  rewrite (proj2 (Nat.ltb_ge _ _) Hl). apply after_ret_bind.
  rewrite (first_port_eq _ _ Hp). cbn [lift]. apply after_ret_bind.
  rewrite Z.eqb_refl, Ha, DeepEqual_refl. by apply after_ret.
Qed.

(** The end of [reconcile_rest], on the service [orig] that was read, when the
    server has [cur] under the key *)
Lemma patched_annotations (orig o cur : smap) res :
  (∀ a, res !! a = merged_map orig o cur a) → cur = o ∨ cur = orig → res = o.
Proof.
  intros H Hcur. apply map_eq. intros a. rewrite H. unfold merged_map.
  case_decide as E; [|done]. by destruct Hcur as [->| ->].
Qed.

Lemma update_rest_round ts w orig cur :
  svc_Ports orig ≠ [] → key_of (svc_meta orig) = svcObjectKey ts →
  objects w KService (svcObjectKey ts) = Some cur →
  service_ok ts (svcObjectKey ts) cur ∨ cur = orig ∧ 2 ≤ length (svc_Ports orig) →
  after h
    (port ← lift (first_port orig);
     if negb (int32 (ApiPort (Spec ts)) =? port)%Z
        || negb (DeepEqual (om_Annotations (svc_meta orig)) (ServiceAnnotations (Spec ts)))
     then updateService orig ts else mret None) w
    (λ _ o w', o = Done None ∧ (rest_fine ts w' ∨ rest_short ts w')
       ∧ (rest_fine ts w' ∨ length (svc_Ports orig) < 2
          ∧ ¬ (first_port_ok ts orig
               ∧ om_Annotations (svc_meta orig) = ServiceAnnotations (Spec ts)))
       ∧ ∀ key, key ≠ svcObjectKey ts → objects w' KService key = objects w KService key).
Proof.
  intros Hne Hkey Hcur Hor. destruct (svc_Ports orig) as [|p0 ports] eqn:Eports; [done|].
  unfold first_port, index. rewrite Eports. cbn [lookup list_lookup lift mbind outcome_bind].
  apply after_ret_bind. set (port := int32 (ApiPort (Spec ts))).
  assert (first_port_ok ts orig ↔ sp_Port p0 = port) as Hfp.
  { unfold first_port_ok. rewrite Eports. cbn. split; [by intros [= ->]|by intros ->]. }
  destruct (_ || _)%bool eqn:Eneed.
  - unfold updateService, only_err, set_first_port. rewrite Eports. cbn [lift].
    apply after_ret_bind. cbv zeta. set (s := set_svc_meta _ _).
    apply after_trigger_bind. intros x w2 E2.
    assert (svc_Ports s = {| sp_Name := sp_Name p0; sp_Protocol := sp_Protocol p0;
      sp_Port := port; sp_TargetPort := sp_TargetPort p0 |} :: ports) as Es by done.
    eapply (service_patched ts (svcObjectKey ts)) with (cur := cur) in E2
      as (s' & -> & (Hc1 & Hc2 & _) & Hp & Ha & Hsame & Hdiff); [|done|exact Hkey|done|].
    2: { intros E. destruct Hor as [[? _]|[-> _]]; [done|]. apply Hfp.
         rewrite Eports, Es in E. injection E as E. by apply (f_equal sp_Port) in E. }
    assert (om_Annotations (svc_meta s') = ServiceAnnotations (Spec ts)) as Hann.
    { eapply patched_annotations; [exact Ha|]. destruct Hor as [[_ H]|[-> _]]; [left|by right].
      by apply H. }
    assert (svc_Ports orig = svc_Ports s ∨ 2 ≤ length (svc_Ports orig) →
      2 ≤ length (svc_Ports s')) as Hlen.
    { intros Hd. destruct (decide (svc_Ports orig = svc_Ports s)) as [E|E].
      - rewrite (Hsame E). destruct Hor as [[_ H]|[-> H]]; [by apply H|by rewrite Eports].
      - rewrite (Hdiff E). destruct Hd as [?|Hd]; [done|]. rewrite Es. by rewrite Eports in Hd. }
    apply after_ret. split_and!; [done|right; by exists s'| |by intros; apply Hc2].
    destruct (decide (svc_Ports orig = svc_Ports s ∨ 2 ≤ length (svc_Ports orig))) as [Hd|Hd].
    + left. exists s'. split; [done|]. split; [done|]. intros _. auto.
    + right. rewrite Eports in Hd. split; [destruct (decide (length (p0 :: ports) < 2)); [done|exfalso; apply Hd; right; lia]|].
      intros [Hf _]. apply Hd. left. rewrite Es. apply Hfp in Hf as <-. by destruct p0.
  - bool_to_prop. apply after_ret.
    assert (rest_fine ts w) as Hfine.
    { exists cur. split; [done|]. destruct Hor as [?|[-> Hl]]; [done|]. split; [by apply Hfp|].
      intros _. split; [by rewrite Eports|]. by apply (bool_decide_eq_true_1 _). }
    split_and!; [done|by left|by left|done].
Qed.
(** A round makes the client service fine, unless it found a service with one
    port that was wrong: that one is deleted and created with both ports, and
    then patched with the single port of the deleted one. *)
Lemma reconcile_rest_round ts w :
  has_port w (svcObjectKey ts) →
  after h (reconcile_rest ts) w (λ _ o w', o = Done None
    ∧ (rest_fine ts w' ∨ rest_short ts w')
    ∧ (rest_short ts w ∨ objects w KService (svcObjectKey ts) = None → rest_fine ts w')
    ∧ ∀ key, key ≠ svcObjectKey ts → objects w' KService key = objects w KService key).
Proof.
  intros Hport. unfold reconcile_rest.
  assert (∀ w0 : W, (∀ key, objects w0 KService key = objects w KService key) ∨
    (∀ key, key ≠ svcObjectKey ts → objects w0 KService key = objects w KService key) →
    objects w0 KService (svcObjectKey ts) = None →
    after h (only_err (createService (svcObjectKey ts) ts)) w0 (λ _ o w', o = Done None
      ∧ (∃ s, objects w' KService (svcObjectKey ts) = Some s ∧ service_ok ts (svcObjectKey ts) s)
      ∧ ∀ key, key ≠ svcObjectKey ts → objects w' KService key = objects w KService key))
    as Hcreate.
  { intros w0 Hw0 Hnone. unfold createService, only_err.
    edestruct (service_created ts (svcObjectKey ts) (ServiceAnnotations (Spec ts))
      [healthcheck_port]) as (m & Hm & Hcreate).
    cbv zeta. rewrite Hm. apply after_trigger_bind. intros x w2 E2.
    apply Hcreate in E2 as (s' & -> & (Hc1 & Hc2 & _) & Hp & Hl & Ha); [|done|done].
    apply after_ret. split_and!; [done| |].
    - exists s'. split; [done|]. split; [done|]. intros _. split; [by rewrite Hl|done].
    - intros key Hk. rewrite Hc2 by done. by destruct Hw0 as [->| ->]. }
  got KService (svcObjectKey ts).
  - rewrite Herr. eapply after_mono; [apply Hcreate; [by left; intros; apply Hsame1|by rewrite Hsame1]|].
    cbn beta. intros tr o w' (-> & (s & Hs & Hok) & Hother).
    split_and!; [done|left; by exists s|intros _; by exists s|done].
  - cbn beta iota. pose proof (Hport _ Hfound) as Hne.
    pose proof (objects_key _ _ _ _ Hfound) as Hkey. unfold obj_key in Hkey. cbn [meta_of] in Hkey.
    destruct (Nat.ltb_spec (length (svc_Ports found)) 2) as [Hlt|Hge].
    + unfold deleteService. apply after_assoc, after_trigger_bind. intros x w2 E2.
      apply (delete_accepted h) in E2 as (-> & Hd1 & Hd2 & _); [|done|].
      2: { unfold obj_key. cbn [meta_of]. rewrite Hkey, Hsame1. by eexists. }
      unfold obj_key in Hd1, Hd2. cbn [meta_of] in Hd1, Hd2. rewrite Hkey in *.
      eapply after_cut; [apply Hcreate; [right|done]| |by intros ??? (? & _)].
      { intros key Hk. by rewrite Hd2, Hsame1. }
      intros tr a w3 ([= ->] & (s & Hs & Hok) & Hother).
      eapply after_mono; [apply (update_rest_round ts w3 found s); auto|].
      intros tr' o w' (-> & H1 & H2 & H3). split_and!; [done|done| |].
      * intros [(s0 & Hs0 & Hp0 & Ha0)|]; [|congruence]. rewrite Hfound in Hs0. injection Hs0 as <-.
        destruct H2 as [H2|[_ H2]]; [done|]. by destruct H2.
      * intros key Hk. by rewrite H3, Hother.
    + apply after_ret_bind.
      eapply after_mono; [apply (update_rest_round ts w1 found found); auto; by rewrite Hsame1|].
      intros tr' o w' (-> & H1 & H2 & H3). split_and!; [done|done| |].
      * intros _. destruct H2 as [H2|[H2 _]]; [done|lia].
      * intros key Hk. by rewrite H3, Hsame1.
Qed.

Definition services_fine (ts : TypesenseCluster) (w : W) : Prop :=
  headless_fine ts w ∧ rest_fine ts w.

Lemma ReconcileServices_round ts w :
  has_port w (headlessObjectKey ts) → has_port w (svcObjectKey ts) →
  after h (ReconcileServices ts) w (λ _ o w', o = Done None
    ∧ headless_fine ts w' ∧ (rest_fine ts w' ∨ rest_short ts w')
    ∧ (rest_short ts w ∨ objects w KService (svcObjectKey ts) = None → rest_fine ts w')).
Proof.
  intros Hp1 Hp2. unfold ReconcileServices. pose proof (svc_keys_ne ts) as Hne.
  eapply after_cut; [by apply reconcile_headless_round| |by intros ??? (? & _)].
  intros tr a w1 ([= ->] & Hh & Hother1).
  assert (objects w1 KService (svcObjectKey ts) = objects w KService (svcObjectKey ts)) as Erest
    by by apply Hother1.
  eapply after_mono; [apply reconcile_rest_round|].
  { unfold has_port. by rewrite Erest. }
  intros tr' o w' (-> & H1 & H2 & Hother2). split_and!; [done| |done|].
  - destruct Hh as (s & Hs & Hp). exists s. by rewrite Hother2.
  - rewrite <-Erest. intros [(s & Hs & H)|H]; apply H2; [left; exists s; by rewrite Erest|by right].
Qed.
Lemma idle_trans {A1 A2} (a1 : A1) (a2 : A2) w w1 w2 tr1 tr2 o1 o2 :
  idle a1 w tr1 o1 w1 → idle a2 w1 tr2 o2 w2 → idle a2 w (tr1 ++ tr2) o2 w2.
Proof.
  intros (H1 & _ & Hs1) (H2 & -> & Hs2). split_and!; [by rewrite writes_app, H1, H2|done|].
  intros k key. by rewrite Hs2.
Qed.

(** A part whose fine states are idle stays idle. *)
Lemma idle_rounds {A} (p : prog A) (a : A) (I : W → Prop) n w :
  (∀ w w', same_objects w w' → I w → I w') →
  (∀ w, I w → after h p w (idle a w)) →
  I w → after h (rounds n p) w (λ tr o w', writes tr = [] ∧ I w' ∧ o = Done tt).
Proof.
  intros Hs Hp. apply after_rounds; [done| |].
  - intros tr tr' H1 H2. by rewrite writes_app, H1, H2.
  - intros w0 H0. eapply after_mono; [by apply Hp|].
    intros tr o w' (Hw & -> & Hsame). split_and!; [done|by eapply Hs|by eexists].
Qed.

Lemma services_fine_same ts w w' : same_objects w w' → services_fine ts w → services_fine ts w'.
Proof.
  intros Hs [(s & H1) (s' & H2)]. split; [exists s|exists s']; by rewrite (Hs KService).
Qed.
Lemma services_fine_idle ts w : services_fine ts w → after h (ReconcileServices ts) w (idle None w).
Proof.
  intros [H1 H2]. unfold ReconcileServices.
  eapply after_cut; [by apply headless_fine_idle| |by intros ??? (? & ? & ?)].
  intros tr a w1 Hi. destruct (Hi) as (_ & [= ->] & Hs).
  eapply after_mono; [apply rest_fine_idle|].
  - destruct H2 as (s & H2). exists s. by rewrite (Hs KService).
  - intros tr' o w2 Hi'. by eapply idle_trans.
Qed.

(** C14 The services converge: on a server that accepts the writes and is not
    changed by others, from any state in which the services that are there have
    a port, two rounds of [ReconcileServices] succeed and leave both services
    as the specification wants them, and no later round writes anything.  Two
    are needed: a client service with one wrong port is replaced by one that the
    same round patches back to a single port. *)
Theorem ReconcileServices_converges ts w n :
  has_port w (headlessObjectKey ts) → has_port w (svcObjectKey ts) →
  after h (rounds 2 (ReconcileServices ts)) w (λ _ o w', o = Done tt ∧ services_fine ts w'
    ∧ after h (rounds n (ReconcileServices ts)) w' (λ tr o' _, writes tr = [] ∧ o' = Done tt)).
Proof.
  intros Hp1 Hp2. cbn [rounds].
  eapply after_cut; [by apply ReconcileServices_round| |by intros ??? (? & _)].
  intros tr a w1 (_ & (s & Hs & Hps) & Hr & _).
  assert (∀ key s, objects w1 KService key = Some s → first_port_ok ts s → has_port w1 key) as Hport.
  { intros key s0 H0 Hok s1 H1. rewrite H0 in H1. injection H1 as <-.
    unfold first_port_ok in Hok. by destruct (svc_Ports s0). }
  assert (has_port w1 (svcObjectKey ts)) as Hport2.
  { destruct Hr as [(s0 & H0 & Hok & _)|(s0 & H0 & Hok & _)]; by eapply Hport. }
  assert (after h (ReconcileServices ts) w1 (λ _ o w', o = Done None ∧ services_fine ts w')) as Hround.
  { destruct Hr as [Hr|Hr].
    - eapply after_mono; [apply services_fine_idle|].
      + split; [by exists s|done].
      + intros tr' o w' (_ & -> & Hsame). split; [done|]. eapply services_fine_same; [done|].
        split; [by exists s|done].
    - eapply after_mono; [apply ReconcileServices_round; [by eapply Hport|done]|].
      intros tr' o w' (-> & Hh & _ & Hf). split; [done|]. split; [done|auto]. }
  eapply after_cut; [exact Hround| |by intros ??? [? _]].
  intros tr' a' w2 [_ Hf]. apply after_ret. split_and!; [done|done|].
  eapply after_mono.
  - apply (idle_rounds _ None (services_fine ts)); [apply services_fine_same|apply services_fine_idle|done].
  - by intros tr'' o w3 (? & _ & ->).
Qed.
(** ** Two clusters, one name *)

Lemma sibling_key ts1 ts2 :
  ts_Namespace ts2 = ts_Namespace ts1 → ts_Name ts2 = ts_Name ts1 +:+ "-sts" →
  svcObjectKey ts2 = headlessObjectKey ts1.
Proof.
  intros Hns Hn. unfold svcObjectKey, headlessObjectKey, ClusterRestService, ClusterHeadlessService.
  rewrite Hns, Hn. f_equal. by rewrite str_app_assoc.
Qed.
(** C33 The services of two clusters can have the same name: the client service
    of the cluster [a-sts] is the headless service of the cluster [a] in the same
    namespace.  A round of [a-sts] deletes the headless service of [a], which
    has a single port. *)
Theorem sibling_deletes_headless_service ts1 ts2 w s :
  ts_Namespace ts2 = ts_Namespace ts1 → ts_Name ts2 = ts_Name ts1 +:+ "-sts" →
  has_port w (headlessObjectKey ts2) →
  objects w KService (headlessObjectKey ts1) = Some s → length (svc_Ports s) < 2 →
  after h (ReconcileServices ts2) w (λ tr _ _, WDelete KService s ∈ writes tr).
Proof.
  intros Hns Hn Hport Hs Hl. rewrite <-(sibling_key ts1 ts2) in Hs by done.
  unfold ReconcileServices. pose proof (svc_keys_ne ts2) as Hne.
  eapply after_cut; [by apply reconcile_headless_round| |by intros ??? (? & _)].
  intros tr a w0 ([= ->] & _ & Hother). rewrite <-Hother in Hs by done.
  unfold reconcile_rest. got KService (svcObjectKey ts2); [congruence|].
  rewrite Hs in Hfound. injection Hfound as <-. cbn beta iota.
  rewrite (proj2 (Nat.ltb_lt _ _) Hl). unfold deleteService.
  apply after_assoc, after_trigger_bind. intros x w2 _.
  apply after_run.
  rewrite writes_app. apply elem_of_app. right. by left.
Qed.
(** ** The admin key *)

(** The secret the cluster uses is there. *)
Definition secret_fine (ts : TypesenseCluster) (s : Secret) (w : W) : Prop :=
  objects w KSecret (getAdminApiKeyObjectKey ts) = Some s.

Lemma secret_fine_idle ts s w :
  secret_fine ts s w → after h (ReconcileSecret ts) w (idle (Ok s) w).
Proof.
  intros Hs. unfold ReconcileSecret. cbv zeta. got KSecret (getAdminApiKeyObjectKey ts).
  - unfold secret_fine in Hs. congruence.
  - unfold secret_fine in Hs. rewrite Hs in Hfound. injection Hfound as <-. by apply after_ret.
Qed.

Lemma ReconcileSecret_round ts w :
  after h (ReconcileSecret ts) w (λ _ o w', ∀ s, o = Done (Ok s) → secret_fine ts s w').
Proof.
  unfold ReconcileSecret. cbv zeta. got KSecret (getAdminApiKeyObjectKey ts).
  2: { apply after_ret. intros s [= <-]. unfold secret_fine. by rewrite Hsame1. }
  rewrite Herr. destruct (bool_decide _) eqn:Ek; [|by apply after_ret].
  apply bool_decide_eq_true in Ek. unfold createAdminApiKey, generateToken.
  apply after_assoc, after_trigger_bind. intros x w2 E2.
  assert (objects w2 KSecret (getAdminApiKeyObjectKey ts) = None) as Hnone2.
  { rewrite (other_step h _ _ _ _ _ _ E2); [by rewrite Hsame1|done]. }
  destruct x as [bytes|e]; apply after_ret_bind; [|by apply after_ret]. cbv zeta.
  destruct (SetControllerReference _ _ _) as [m|e] eqn:Em; [|by apply after_ret].
  apply SetControllerReference_keeps in Em as (Hn & Hns & _).
  apply after_trigger. intros x w3 E3.
  apply (create_step h) in E3 as [(e & -> & _)|(o' & -> & _ & _ & _ & Hc1 & _)]; [done|].
  intros s [= ->]. unfold secret_fine. etrans; [|exact Hc1]. f_equal.
  unfold obj_key, key_of. cbn. rewrite Hn, Hns. unfold getAdminApiKeyObjectKey. by rewrite Ek.
Qed.

(** C24 The admin key is chosen once: after a round of [ReconcileSecret] that
    returned a secret, every later round returns that same secret and writes
    nothing, however many there are and whatever the random source says. *)
Theorem ReconcileSecret_stable ts w n :
  after h (ReconcileSecret ts) w (λ _ o w', ∀ s, o = Done (Ok s) →
    after h (rounds n (ReconcileSecret ts)) w' (λ tr _ w'', writes tr = []
      ∧ after h (ReconcileSecret ts) w'' (λ tr' o' _, writes tr' = [] ∧ o' = Done (Ok s)))).
Proof.
  eapply after_mono; [apply ReconcileSecret_round|]. intros tr o w' H s Ho. specialize (H s Ho).
  eapply after_mono.
  - apply (idle_rounds _ (Ok s) (secret_fine ts s)); [|apply secret_fine_idle|done].
    intros w1 w2 Hs. unfold secret_fine. by rewrite Hs.
  - intros tr' o' w'' (? & Hf & _). split; [done|].
    eapply after_mono; [by apply secret_fine_idle|]. by intros tr'' o'' w3 (? & ? & _).
Qed.
End Laws.
End Convergence.

(** ** Concrete instances *)
Section Witnesses.
#[local] Existing Instance concreteK.
#[local] Existing Instance concreteL.

(** Fixed answers to the calls that are not about objects *)
Definition demo_answers X (c : call X) : X :=
  match c in call X return X with
  | Get _ _ | ListObjs _ _ | Create _ _ | Update _ _ | Patch _ _ _ | StatusPatch _ _ _ =>
      Err not_found
  | Delete _ _ _ => None
  | Eventf _ _ _ _ => tt
  | Now => "2024-01-01T00:00:00Z"
  | RandRead n => Ok (replicate (Z.to_nat n) 7%Z)
  | HTTPClientFor => None
  | HttpGet _ _ _ => Err (Errorf "connection refused")
  | GetLogs _ _ _ _ => Ok ""
  | ServerVersion => Ok "v1.30.0"
  | ServerGroups => Ok ["monitoring.coreos.com"]
  end.
Definition demo_server : environment store := object_store demo_answers.
Definition demo : TypesenseCluster := demo_ts "t1" 3 "QuorumReady".

(** A client service with one port, the wrong one *)
Definition old_service : Service :=
  {| svc_meta := mk_meta "t1-svc" "search" ∅ ∅; svc_Type := "ClusterIP"; svc_ClusterIP := "";
     svc_PublishNotReadyAddresses := false; svc_Selector := ∅;
     svc_Ports := [{| sp_Name := "http"; sp_Protocol := ""; sp_Port := 80; sp_TargetPort := 8108 |}] |}.

Lemma ReconcileServices_converges_witness :
  find (put KService old_service empty_store) KService (svcObjectKey demo)
    = Some old_service
  ∧ after demo_server (rounds 2 (ReconcileServices demo)) (put KService old_service empty_store)
      (λ _ o w', o = Done tt ∧ services_fine demo_server demo w'
         ∧ after demo_server (rounds 5 (ReconcileServices demo)) w'
             (λ tr o' _, writes tr = [] ∧ o' = Done tt)).
Proof.
  split; [by vm_compute|].
  refine (ReconcileServices_converges (LL := concrete_laws) demo_server demo
            (put KService old_service empty_store) 5 _ _).
  - intros s. by vm_compute.
  - intros s Hs. change (find (put KService old_service empty_store) KService (svcObjectKey demo) = Some s) in Hs.
    vm_compute in Hs. by injection Hs as <-.
Defined.

Lemma ReconcileSecret_stable_witness :
  LibsLaws
  ∧ after demo_server (ReconcileSecret demo) empty_store (λ _ o w', ∀ s, o = Done (Ok s) →
      after demo_server (rounds 3 (ReconcileSecret demo)) w' (λ tr _ w'', writes tr = []
        ∧ after demo_server (ReconcileSecret demo) w'' (λ tr' o' _,
            writes tr' = [] ∧ o' = Done (Ok s)))).
Proof.
  split; [exact concrete_laws|].
  exact (ReconcileSecret_stable (LL := concrete_laws) demo_server demo empty_store 3).
Defined.

(** The clusters [t1] and [t1-sts] *)
Definition sibling : TypesenseCluster := demo_ts "t1-sts" 3 "QuorumReady".
Definition demo_headless : Service :=
  {| svc_meta := mk_meta "t1-sts-svc" "search" ∅ ∅; svc_Type := ""; svc_ClusterIP := "None";
     svc_PublishNotReadyAddresses := true; svc_Selector := getLabels demo;
     svc_Ports := [http_port demo] |}.
Lemma sibling_deletes_headless_service_witness :
  svcObjectKey sibling = headlessObjectKey demo
  ∧ after demo_server (ReconcileServices sibling) (put KService demo_headless empty_store)
      (λ tr _ _, WDelete KService demo_headless ∈ writes tr).
Proof.
  split; [by vm_compute|].
  refine (sibling_deletes_headless_service (LL := concrete_laws) demo_server demo sibling
    (put KService demo_headless empty_store) demo_headless eq_refl eq_refl _ _ _).
  - intros s. by vm_compute.
  - by vm_compute.
  - by apply Nat.lt_succ_diag_r.
Defined.
End Witnesses.
