(* ===== verification/Bootstrap.v ===== *)
(** * The first round of a new cluster (Controller, Server)

    The parts composed: on a server that holds nothing under the names of a
    cluster without optional parts, one round brings the admin key, the nodes
    list, the services and the StatefulSet into being, and asks for the next
    round.  Each part has a lemma on what it leaves; a part changes objects of
    one kind only ([only]). *)
From S2P Require Import Prelude GoLib GoCrypto K8s Api Effects Hoare External Concrete Utils.
From S2P Require Import Conditions StatefulSetOps ConfigMap QuorumHelpers Quorum Secret Services.
From S2P Require Import StatefulSetHash StatefulSet Scraper PodMonitors Ingresses HttpRoute.
From S2P Require Import Controller Footprint UtilsTheory StatefulSetTheory Server ObjectStore.
From S2P Require Import Convergence.

Section Bootstrap.
Context `{L : Libs} {W : Type} (h : environment W) {S : ApiServer h} {Acc : Accepting h}.
Context {LL : LibsLaws} (r : Reconciler).

(** A cluster without optional parts *)
Definition plain (ts : TypesenseCluster) : Prop :=
  AdminApiKey (Spec ts) = None ∧ IngressOf (Spec ts) = None ∧ HttpRoutes (Spec ts) = None
  ∧ Scrapers (Spec ts) = None ∧ Metrics (Spec ts) = None.

(** The random source works; discovery works, and there is no Gateway API. *)
Record answering : Prop := {
  answers_random : ∀ n w, ∃ bytes, (h _ (RandRead n) w).1 = Ok bytes;
  answers_groups : ∀ w, ∃ groups, (h _ ServerGroups w).1 = Ok groups ∧ gatewayApiGroup ∉ groups;
  answers_version : ∀ w, ∃ git ver, (h _ ServerVersion w).1 = Ok git ∧ ParseGeneric git = Ok ver;
  minimum_parses : ∃ req, ParseGeneric ("v" +:+ minimumSupportedVersionForGateway) = Ok req;
}.

(** Nothing is there under the names of the cluster: of its optional parts ... *)
Record vacant_options (ts : TypesenseCluster) (w : W) : Prop := {
  vacant_ingress : objects w KIngress (ingressObjectKey ts) = None;
  vacant_monitor : objects w KPodMonitor (podMonitorObjectKey ts) = None;
  vacant_exporter : objects w KDeployment
    {| key_Namespace := ts_Namespace ts;
       key_Name := ClusterPrometheusExporterDeployment (ts_Name ts) |} = None;
  vacant_scrapers : ∀ key c, objects w KCronJob key = Some c →
    ¬ selected {| lo_Namespace := Some (ts_Namespace ts); lo_Labels := getLabels ts |} (cj_meta c);
}.
(** ... and of the others *)
Record vacant (ts : TypesenseCluster) (w : W) : Prop := {
  vacant_secret : objects w KSecret (getAdminApiKeyObjectKey ts) = None;
  vacant_nodes : objects w KConfigMap (configMapObjectKey ts) = None;
  vacant_headless : objects w KService (headlessObjectKey ts) = None;
  vacant_rest : objects w KService (svcObjectKey ts) = None;
  vacant_sts : objects w KStatefulSet (stsObjectKey ts) = None;
  vacant_others : vacant_options ts w;
}.

(** The kinds every cluster has, and two states that agree on all others *)
Definition core_kinds : list kind := [KSecret; KConfigMap; KService; KStatefulSet].
Definition outside (w w' : W) : Prop := ∀ k, k ∉ core_kinds → same_kind h k w w'.

Lemma outside_trans w1 w2 w3 : outside w1 w2 → outside w2 w3 → outside w1 w3.
Proof. intros H1 H2 k Hk. by etrans; [apply H1|apply H2]. Qed.
Lemma outside_same w w' : same_objects w w' → outside w w'.
Proof. intros H k _ key. apply H. Qed.
Lemma outside_only k w w' : k ∈ core_kinds → only h k w w' → outside w w'.
Proof. intros Hk H k' Hk'. apply H. by intros ->. Qed.
Lemma vacant_options_outside ts w w' : outside w w' → vacant_options ts w → vacant_options ts w'.
Proof.
  intros H []. assert (∀ k key, k ∉ core_kinds → objects w' k key = objects w k key) as E.
  { intros k key Hk. by apply H. }
  split; [| | |intros key c]; rewrite E; auto; unfold core_kinds; set_solver.
Qed.

(** An object with the metadata every part gives to what it creates *)
Lemma fresh_reference ts name ann :
  ∃ m, SetControllerReference KTypesenseCluster (ts_meta ts) (getObjectMeta ts (Some name) ann) = Ok m
    ∧ key_of m = {| key_Namespace := ts_Namespace ts; key_Name := name |}.
Proof.
  destruct (SetControllerReference_fresh KTypesenseCluster (ts_meta ts)
    (getObjectMeta ts (Some name) ann)) as [m Hm]; [done|done|].
  exists m. split; [done|]. apply SetControllerReference_keeps in Hm as (Hn & Hns & _).
  unfold key_of. by rewrite Hn, Hns.
Qed.

Definition key_created (ts : TypesenseCluster) (w : W) : Prop :=
  ∃ s, objects w KSecret (getAdminApiKeyObjectKey ts) = Some s ∧ sec_Immutable s = Some true.

Lemma secret_created ts w :
  answering → AdminApiKey (Spec ts) = None →
  objects w KSecret (getAdminApiKeyObjectKey ts) = None →
  after h (ReconcileSecret ts) w (λ _ o w', (∃ s, o = Done (Ok s)) ∧ key_created ts w'
    ∧ only h KSecret w w').
Proof.
  intros Ha Hnone Hkey. unfold ReconcileSecret. cbv zeta.
  apply (after_get_missing h); [done|]. intros e w1 He Hs1.
  rewrite He, Hnone, bool_decide_true by done. cbn [andb].
  unfold createAdminApiKey, generateToken. apply after_assoc, after_trigger_bind.
  intros x w2 E2. destruct (answers_random Ha 256 w1) as [bytes Hb].
  rewrite E2 in Hb. simpl in Hb. subst x. apply after_ret_bind. cbv zeta. cbn [sec_meta].
  assert (same_objects w1 w2) as Hs2.
  { intros k key. by eapply (other_step h _ k key w1 _ w2 E2). }
  destruct (fresh_reference ts (key_Name (getAdminApiKeyObjectKey ts)) ∅) as (m & -> & Hm).
  assert (key_of m = getAdminApiKeyObjectKey ts) as Hk.
  { rewrite Hm. unfold getAdminApiKeyObjectKey. by rewrite Hnone. }
  apply (after_create h KSecret).
  { unfold obj_key. cbn [meta_of sec_meta]. by rewrite Hk, Hs2, Hs1. }
  intros s w3 _ [_ Hi] Hc. unfold obj_key in Hc. cbn [meta_of sec_meta] in Hc. rewrite Hk in Hc.
  split_and!; [by eexists|exists s; split; [apply Hc|done]|].
  eapply only_trans; [eapply only_trans; apply only_same; eassumption|].
  by eapply only_changed.
Qed.

Definition nodes_created (ts : TypesenseCluster) (nodes : list string) (w : W) : Prop :=
  ∃ cm, objects w KConfigMap (configMapObjectKey ts) = Some cm ∧ cm_Data cm = nodes_data nodes nodes.

Lemma configmap_created ts nodes w :
  getFallbackNodes ts [] = Ok nodes → objects w KConfigMap (configMapObjectKey ts) = None →
  after h (ReconcileConfigMap ts) w (λ _ o w', o = Done (None, None) ∧ nodes_created ts nodes w'
    ∧ only h KConfigMap w w').
Proof.
  intros Hn Hkey. unfold ReconcileConfigMap. cbv zeta.
  apply (after_get_missing h); [done|]. intros e w1 He Hs1. rewrite He.
  unfold createConfigMap, getNodes. apply after_assoc, after_ret_bind. rewrite Hn. cbv zeta. cbn [cm_meta].
  destruct (fresh_reference ts (key_Name (configMapObjectKey ts)) ∅) as (m & -> & Hk).
  match goal with |- context [Create KConfigMap ?o] => set (cm := o) end.
  assert (obj_key KConfigMap cm = configMapObjectKey ts) as Hcm by exact Hk.
  eapply after_cut with (R := λ _ o w2, ∃ cm', o = Done (Ok cm') ∧ cm_Data cm' = cm_Data cm
    ∧ changed w1 w2 KConfigMap (configMapObjectKey ts) (Some cm')).
  - apply (after_create h KConfigMap); [by rewrite Hcm, Hs1|]. rewrite Hcm. intros cm' w2 _ Hd Hc.
    by exists cm'.
  - intros tr a w2 (cm' & [= ->] & Hd & Hc). apply after_ret. split_and!; [done| |].
    + exists cm'. split; [apply Hc|done].
    + eapply only_trans; [by apply only_same|by eapply only_changed].
  - by intros ??? (? & ? & _).
Qed.

(** The services, from the lemma of their convergence *)
Ltac no_other := intros ? [=]; subst; cbn; congruence.
Lemma services_frame ts k : k ≠ KService → writes_only (λ v, write_kind v ≠ Some k) (ReconcileServices ts).
Proof.
  intros Hk. unfold ReconcileServices, reconcile_headless, reconcile_rest, createHeadlessService,
    updateHeadlessService, createService, updateService, deleteService.
  calls_auto no_other.
Qed.
Lemma services_created ts w :
  objects w KService (headlessObjectKey ts) = None → objects w KService (svcObjectKey ts) = None →
  after h (ReconcileServices ts) w (λ _ o w', o = Done None ∧ services_fine h ts w'
    ∧ only h KService w w').
Proof.
  intros H1 H2. eapply after_mono.
  - apply after_and; [apply (ReconcileServices_round h)|].
    + intros s E. congruence.
    + intros s E. congruence.
    + instantiate (1 := λ _ _ w', only h KService w w'). unfold only.
      cut (∀ k, k ≠ KService → after h (ReconcileServices ts) w (λ _ _ w', same_kind h k w w')).
      { intros H. unfold after in *. destruct (run h (ReconcileServices ts) w) as [[o tr] w'].
        exact H. }
      intros k Hk. by apply run_frame, services_frame.
  - cbn beta. intros tr o w' [(-> & Hh & _ & Hr) Ho]. split_and!; [done|split; auto|done].
Qed.

(** ** The optional parts, switched off *)

Lemma ingress_idle ts w :
  plain ts → objects w KIngress (ingressObjectKey ts) = None →
  after h (ReconcileIngress ts) w (λ _ o w', o = Done (ts, None) ∧ same_objects w w').
Proof.
  intros (_ & Hi & _) Hkey. unfold ReconcileIngress. cbv zeta. rewrite Hi.
  apply (after_get_missing h); [done|]. intros e w1 He Hs. rewrite He. by apply after_ret.
Qed.

(** A call that writes nothing and whose answer is known *)
Lemma after_answer {X B} (c : call X) (f : X → prog B) w x Q :
  (∀ k, written_kind c ≠ Some k) → (h _ c w).1 = x →
  (∀ w', same_objects w w' → after h (f x) w' (λ tr o w'', Q (Ev c x :: tr) o w'')) →
  after h (trigger c ≫= f) w Q.
Proof.
  intros Hc Hx H. apply (after_other h); [done|]. intros x' w' E Hs.
  rewrite E in Hx. simpl in Hx. subst x'. by apply H.
Qed.

Lemma httproute_idle ts w :
  answering →
  after h (ReconcileHttpRoute ts) w (λ _ o w', o = Done None ∧ same_objects w w').
Proof.
  intros Ha. unfold ReconcileHttpRoute, IsFeatureSupported, IsApiGroupDeployed.
  destruct (answers_version Ha w) as (git & ver & Hv & Hp). apply after_assoc.
  eapply (after_answer ServerVersion); [done|exact Hv|]. intros w1 Hs1. cbn beta iota. rewrite Hp.
  destruct (minimum_parses Ha) as [req ->]. apply after_ret_bind. cbn beta iota.
  destruct (negb _); [by apply after_ret|].
  destruct (answers_groups Ha w1) as (groups & Hg & Hnot). apply after_assoc.
  eapply (after_answer ServerGroups); [done|exact Hg|]. intros w2 Hs2. apply after_ret_bind.
  rewrite bool_decide_false by done. apply after_ret. split; [done|].
  intros k key. by rewrite Hs2.
Qed.

Lemma scraper_idle ts w :
  plain ts →
  (∀ key c, objects w KCronJob key = Some c →
     ¬ selected {| lo_Namespace := Some (ts_Namespace ts); lo_Labels := getLabels ts |} (cj_meta c)) →
  after h (ReconcileScraper ts) w (λ _ o w', o = Done None ∧ same_objects w w').
Proof.
  intros (_ & _ & _ & Hsc & _) Hno. unfold ReconcileScraper. rewrite Hsc.
  apply after_trigger_bind. intros x w1 E.
  pose proof (srv_list w KCronJob {| lo_Namespace := Some (ts_Namespace ts);
    lo_Labels := getLabels ts |}) as Hl. rewrite E in Hl. destruct Hl as [Hs Hl].
  destruct (acc_list w KCronJob {| lo_Namespace := Some (ts_Namespace ts);
    lo_Labels := getLabels ts |}) as [l Hx]. rewrite E in Hx. simpl in Hx. subst x.
  destruct l as [|c l]; [by apply after_ret|].
  destruct (Hl _ eq_refl) as [_ Hin]. exfalso.
  destruct (proj1 (Hin c)) as [Hc Hsel]; [by left|]. by eapply Hno.
Qed.

Lemma podmonitor_idle ts w :
  plain ts → answering → objects w KPodMonitor (podMonitorObjectKey ts) = None →
  objects w KDeployment {| key_Namespace := ts_Namespace ts;
    key_Name := ClusterPrometheusExporterDeployment (ts_Name ts) |} = None →
  after h (ReconcilePodMonitor ts) w (λ _ o w', o = Done None ∧ same_objects w w').
Proof.
  intros (_ & _ & _ & _ & Hm) Ha Hmon Hdep.
  unfold ReconcilePodMonitor, deleteMetricsExporterServiceMonitor, IsApiGroupDeployed.
  apply after_assoc, (after_get_missing h); [done|]. intros e w1 He Hs1. rewrite He.
  apply after_ret_bind, after_assoc. destruct (answers_groups Ha w1) as (groups & Hg & _).
  eapply (after_answer ServerGroups); [done|exact Hg|]. intros w2 Hs2. apply after_ret_bind.
  assert (same_objects w w2) as Hs by (intros k key; by rewrite Hs2).
  cbn beta iota. destruct (bool_decide _); [|by apply after_ret].
  unfold reconcile_podmonitor. apply (after_get_missing h); [by rewrite Hs|].
  intros e' w3 He' Hs3. rewrite He', Hm. apply after_ret. split; [done|].
  intros k key. by rewrite Hs3.
Qed.

(** ** The StatefulSet *)

Definition sts_created (ts : TypesenseCluster) (w : W) : Prop :=
  ∃ sts, objects w KStatefulSet (stsObjectKey ts) = Some sts
    ∧ ss_Replicas (sts_Spec sts) = Some (Replicas (Spec ts))
    ∧ grace_period sts = Some (GetTerminationGracePeriodSeconds (Spec ts)).

Lemma built_fields ts desired :
  built (stsObjectKey ts) ts desired →
  (∃ ann, sts_meta desired = getObjectMeta ts (Some (key_Name (stsObjectKey ts))) ann)
  ∧ ss_Replicas (sts_Spec desired) = Some (Replicas (Spec ts))
  ∧ grace_period desired = Some (GetTerminationGracePeriodSeconds (Spec ts)).
Proof.
  intros (ann & lit & hash & Hlit & ->).
  apply sts_literal_inv in Hlit as (storage & _ & Hlit & Ht & _ & Hr & _). split_and!.
  - eexists. unfold set_hash_annotation. cbn. by rewrite Hlit.
  - exact Hr.
  - unfold grace_period, set_hash_annotation. cbn. by rewrite Ht.
Qed.

Lemma sts_created_round ts desired w :
  buildStatefulSet (stsObjectKey ts) ts = mret (Ok desired) →
  objects w KStatefulSet (stsObjectKey ts) = None →
  after h (ReconcileStatefulSet ts) w (λ _ o w', ∃ sts, o = Done (Some sts, false, None)
    ∧ grace_period sts = Some (GetTerminationGracePeriodSeconds (Spec ts))
    ∧ sts_created ts w' ∧ only h KStatefulSet w w').
Proof.
  intros Hb Hkey. pose proof (buildStatefulSet_built (stsObjectKey ts) ts) as Hbuilt.
  rewrite Hb in Hbuilt. destruct Hbuilt as [_ Hbuilt]. specialize (Hbuilt desired eq_refl).
  apply built_fields in Hbuilt as ((ann & Hm) & Hr & Hg).
  unfold ReconcileStatefulSet. apply (after_get_missing h); [done|]. intros e w1 He Hs1.
  rewrite He. unfold createStatefulSet. rewrite Hb. apply after_assoc, after_ret_bind.
  cbn beta iota. rewrite Hm.
  destruct (fresh_reference ts (key_Name (stsObjectKey ts)) ann) as (m & -> & Hk).
  set (o := set_sts_meta m desired).
  assert (obj_key KStatefulSet o = stsObjectKey ts) as Ho by exact Hk.
  eapply after_cut with (R := λ _ x w2, ∃ sts, x = Done (Ok sts) ∧ kept KStatefulSet o sts
    ∧ changed w1 w2 KStatefulSet (stsObjectKey ts) (Some sts)).
  - apply (after_create h KStatefulSet); [by rewrite Ho, Hs1|]. rewrite Ho.
    intros sts w2 _ Hkept Hc. by exists sts.
  - intros tr a w2 (sts & [= ->] & [Hr' Hg'] & Hc). apply after_ret. exists sts.
    specialize (Hg' _ Hg). split_and!; [done|done| |].
    + exists sts. split; [apply Hc|]. split; [|done]. by rewrite Hr'.
    + eapply only_trans; [by apply only_same|by eapply only_changed].
  - by intros ??? (? & ? & _).
Qed.

(** ** The round *)

(** Everything a cluster without optional parts consists of *)
Definition bootstrapped (ts : TypesenseCluster) (nodes : list string) (w : W) : Prop :=
  key_created ts w ∧ nodes_created ts nodes w ∧ services_fine h ts w ∧ sts_created ts w.

Lemma phase_after ts reason p next w Q :
  after h p w (λ tr o w', o = Done None ∧ after h next w' (λ tr' o' w'', Q (tr ++ tr') o' w'')) →
  after h (phase ts reason p next) w Q.
Proof.
  intros H. unfold phase. eapply after_cut; [exact H| |by intros ??? [? _]].
  by intros tr a w' [[= ->] Hn].
Qed.

(** The parts that are switched off change nothing. *)
Lemma optional_parts_idle ts w (next : TypesenseCluster → prog reconcile_result) Q :
  plain ts → answering → vacant_options ts w →
  (∀ w', same_objects w w' → after h (next ts) w' (λ _, Q)) →
  after h ('(ts, err) ← ReconcileIngress ts;
           phase ts ConditionReasonIngressNotReady (mret err)
             (phase ts ConditionReasonHttpRouteNotReady (ReconcileHttpRoute ts)
               (phase ts ConditionReasonScrapersNotReady (ReconcileScraper ts)
                 (phase ts ConditionReasonMetricsExporterNotReady (ReconcilePodMonitor ts)
                   (next ts))))) w (λ _, Q).
Proof.
  intros Hp Ha Hv Hnext. destruct Hv.
  eapply after_cut; [by apply ingress_idle| |by intros ??? [? _]].
  intros tr1 a1 w1 ([= ->] & H1). cbn beta iota. apply phase_after, after_ret. split; [done|].
  apply phase_after. eapply after_mono; [by apply httproute_idle|]. intros tr2 a2 w2 (-> & H2).
  split; [done|]. apply phase_after. eapply after_mono; [apply scraper_idle; [done|]|].
  { intros key c. rewrite H2, H1. apply vacant_scrapers0. }
  intros tr3 a3 w3 (-> & H3). split; [done|].
  apply phase_after. eapply after_mono; [apply podmonitor_idle; [done|done| |]|].
  { by rewrite H3, H2, H1. }
  { by rewrite H3, H2, H1. }
  intros tr4 a4 w4 (-> & H4). split; [done|]. apply Hnext. intros k key.
  by rewrite H4, H3, H2, H1.
Qed.
Lemma statefulset_phase_bootstraps ts secret desired w :
  buildStatefulSet (stsObjectKey ts) ts = mret (Ok desired) →
  objects w KStatefulSet (stsObjectKey ts) = None →
  after h (statefulset_phase r ts secret None) w (λ _ o w',
    o = Done (bootstrapRequeuePeriod, None) ∧ sts_created ts w' ∧ only h KStatefulSet w w').
Proof.
  intros Hb Hw. unfold statefulset_phase.
  eapply after_cut; [by apply (sts_created_round ts desired)| |by intros ??? (? & ? & _)].
  intros tr a w' (sts & [= ->] & Hg & Hsts & Ho). cbn beta iota. apply after_ret_bind.
  unfold finish. unfold grace_period in Hg. rewrite Hg. by apply after_ret_bind, after_ret.
Qed.

(** C15 The parts of the first round bring a new cluster into being.  The cluster
    has no optional parts (no configured admin key, Ingress, HTTP routes, scrapers
    or metrics); the API server accepts the writes it can carry out, holds nothing
    under the names of the cluster, and offers no Gateway API; the random source
    works, the host names are short enough for the bootstrap list, and the
    StatefulSet is built without reading an additional configuration.  Then
    [reconcile_parts], the part of [Reconcile] that follows the initialisation of
    the status, creates the immutable admin key, the nodes list with one bootstrap
    endpoint for each replica, both services and the StatefulSet with the replicas
    and the grace period of the specification, leaves objects of other kinds as
    they are, and asks for the next round after the bootstrap delay. *)
Theorem reconcile_parts_bootstraps ts nodes desired w :
  plain ts → answering → vacant ts w →
  getFallbackNodes ts [] = Ok nodes →
  buildStatefulSet (stsObjectKey ts) ts = mret (Ok desired) →
  after h (reconcile_parts r ts) w (λ _ o w', o = Done (bootstrapRequeuePeriod, None)
    ∧ bootstrapped ts nodes w' ∧ outside w w').
Proof.
  intros Hp Ha [] Hn Hb. unfold reconcile_parts.
  eapply after_cut; [apply secret_created; [done|apply Hp|done]| |by intros ??? [[? ?] _]].
  intros tr1 a1 w1 ([secret [= ->]] & Hkey & Ho1).
  eapply after_cut; [apply configmap_created; [done|by rewrite Ho1]| |by intros ??? [? _]].
  intros tr2 a2 w2 ([= ->] & Hnodes & Ho2). cbn beta iota.
  apply phase_after. eapply after_mono.
  { apply services_created; rewrite Ho2 by done; by rewrite Ho1. }
  intros tr3 a3 w3 (-> & Hsvc & Ho3). split; [done|].
  assert (outside w w3) as Hout.
  { do 2 (eapply outside_trans; [eapply outside_only; [|eassumption]; set_solver|]).
    eapply outside_only; [|eassumption]. set_solver. }
  apply (optional_parts_idle ts w3 (λ ts, statefulset_phase r ts secret None)
    (λ o w', o = Done (bootstrapRequeuePeriod, None) ∧ bootstrapped ts nodes w' ∧ outside w w'));
    [done|done|by eapply vacant_options_outside|].
  intros w4 Hs. eapply after_mono; [apply (statefulset_phase_bootstraps ts secret desired); [done|]|].
  { by rewrite Hs, Ho3, Ho2, Ho1. }
  intros tr5 o w5 (-> & Hsts & Ho5). split; [done|]. split.
  - destruct Hkey as (s & Hkey & Hi), Hnodes as (cm & Hcm & Hd), Hsvc as [(s1 & H1) (s2 & H2)].
    split_and!; [exists s|exists cm|split; [exists s1|exists s2]|done];
      rewrite Ho5, Hs by done; [by rewrite Ho3, Ho2|by rewrite Ho3|done|done].
  - eapply outside_trans; [done|]. eapply outside_trans; [by apply outside_same|].
    eapply outside_only; [|done]. set_solver.
Qed.
End Bootstrap.

(** ** Concrete instance *)
Section Witnesses.
#[local] Existing Instance concreteK.
#[local] Existing Instance concreteL.

Definition new_cluster : TypesenseCluster := StatefulSetTheory.demo.
Definition new_nodes : list string :=
  ["t1-sts-0.t1-sts-svc:8107:8108"; "t1-sts-1.t1-sts-svc:8107:8108"; "t1-sts-2.t1-sts-svc:8107:8108"].

Lemma demo_answering : answering demo_server.
Proof.
  split.
  - intros n w. by eexists.
  - intros w. eexists. split; [done|]. by apply (bool_decide_unpack _).
  - intros w. by do 2 eexists.
  - by eexists.
Qed.
Lemma demo_vacant : vacant demo_server new_cluster empty_store.
Proof. split; [..|split; [..|intros key c]]; by vm_compute. Qed.

Lemma reconcile_parts_bootstraps_witness :
  getFallbackNodes new_cluster [] = Ok new_nodes
  ∧ after demo_server (reconcile_parts {| InCluster := true |} new_cluster) empty_store
      (λ _ o w', o = Done (bootstrapRequeuePeriod, None)
         ∧ bootstrapped demo_server new_cluster new_nodes w'
         ∧ outside demo_server empty_store w').
Proof.
  split; [by vm_compute|].
  refine (reconcile_parts_bootstraps (LL := concrete_laws) demo_server {| InCluster := true |}
    new_cluster new_nodes (demo_desired demo) empty_store _ demo_answering demo_vacant _ _).
  - by split_and!.
  - by vm_compute.
  - by vm_compute.
Defined.
End Witnesses.
