(* ===== verification/PanicTheory.v ===== *)
(** * Where a round can panic (Controller and all parts)

    The parts dereference pointers and index lists of the objects they read
    without looking.  [odd] lists the answers that lack what they rely on; the
    theorem says that a round panics only after such an answer.  [safe p Φ]: [p]
    was given an odd answer, or ends normally with a result in [Φ]. *)
From S2P Require Import Prelude GoLib GoCrypto K8s Api Effects Hoare External Concrete Utils Conditions.
From S2P Require Import StatefulSetOps ConfigMap QuorumHelpers Quorum Secret Services.
From S2P Require Import StatefulSetHash StatefulSet Scraper PodMonitors Ingresses HttpRoute.
From S2P Require Import Controller QuorumTheory SafetyTheory StatefulSetTheory Server ObjectStore.
From S2P Require Import Convergence Bootstrap.

(** ** Outcomes that are no panic *)
Definition total {A} (o : outcome A) : Prop := ∃ a, o = Done a.

Lemma total_ret {A} (a : A) : total (mret a).
Proof. by exists a. Qed.
Lemma total_bind {A B} (o : outcome A) (f : A → outcome B) :
  total o → (∀ a, o = Done a → total (f a)) → total (o ≫= f).
Proof. intros [a ->] H. by apply H. Qed.
Lemma total_or_else c rest : total c → total rest → total (or_else c rest).
Proof. intros [[] ->] H; [by exists true|exact H]. Qed.
Lemma total_index {A} (l : list A) i : i < length l → total (index l i).
Proof. intros [a H]%lookup_lt_is_Some_2. unfold index. rewrite H. by exists a. Qed.
Ltac total_auto :=
  repeat first
    [ apply total_ret
    | apply total_or_else
    | apply total_bind; [|intros ??]
    | match goal with |- total (match ?x with _ => _ end) => destruct x eqn:? end
    | apply total_index; simpl; lia ];
  try by eexists.

Section Odd.
Context `{L : Libs}.
(** Keys of ConfigMaps that hold an additional server configuration, and of
    routes that are disabled *)
Context (configured disabled : ObjectKey → bool).

(** ** What the code relies on *)

Definition sts_ok (s : StatefulSet) : bool :=
  bool_decide (is_Some (ss_Selector (sts_Spec s)) ∧ is_Some (ss_Replicas (sts_Spec s))
    ∧ 3 ≤ length (containers s)
    ∧ is_Some (ps_TerminationGracePeriodSeconds (pt_Spec (ss_Template (sts_Spec s))))).
Definition ingress_ok (ig : Ingress) : bool :=
  match ing_Rules ig, ing_TLS ig, ing_IngressClassName ig with
  | {| ir_Paths := Some ({| ip_PathType := Some _ |} :: _) |} :: _, _ :: _, Some _ => true
  | _, _, _ => false
  end.
Definition route_ok (h : HTTPRoute) : bool :=
  match hr_Rules h, hr_ParentRefs h with
  | {| rr_Matches := Some {| pm_Type := Some _; pm_Value := Some _ |} :: _ |} :: _, _ :: _ => true
  | _, _ => false
  end.
(** The specification: storage, a path type for the Ingress and the routes, which
    name the namespace of their gateway; what is disabled and what the additional
    configuration is called is known. *)
Definition route_spec_ok (s : HttpRouteSpec) : bool :=
  bool_decide (is_Some (hs_PathType s) ∧ is_Some (hs_ReferenceGrant s)
    ∧ is_Some (gp_Namespace (hs_ParentRef s))).
Definition conf_known (ts : TypesenseCluster) : bool :=
  match AdditionalServerConfiguration (Spec ts) with
  | Some name => configured (additional_config_key ts name)
  | None => true
  end.
Definition route_known (ts : TypesenseCluster) (s : HttpRouteSpec) : bool :=
  hs_Enabled s || disabled (httpRouteObjectKey ts s).
Definition rest_ok (ts : TypesenseCluster) : bool :=
  bool_decide (is_Some (Storage (Spec ts)))
  && conf_known ts
  && forallb (λ d, route_spec_ok d && route_known ts d) (default [] (HttpRoutes (Spec ts))).
Definition spec_ok (ts : TypesenseCluster) : bool :=
  bool_decide (is_PathType <$> IngressOf (Spec ts) ≠ Some None) && rest_ok ts.

Definition nonempty {A} (l : list A) : bool := match l with [] => false | _ => true end.

(** An answer the code does not survive, or does not check for *)
Definition odd (e : event) : bool :=
  match e with
  | Ev (Get KTypesenseCluster _) (Ok ts) => negb (spec_ok ts)
  | Ev (StatusPatch KTypesenseCluster _ _) (Ok ts) =>
      negb (spec_ok ts && nonempty (Conditions (Status ts)))
  | Ev (Get KStatefulSet _) (Ok sts) | Ev (Create KStatefulSet _) (Ok sts)
  | Ev (Patch KStatefulSet _ _) (Ok sts) => negb (sts_ok sts)
  | Ev (Get KService _) (Ok svc) => negb (nonempty (svc_Ports svc))
  | Ev (Get KIngress _) (Ok ig) => negb (ingress_ok ig)
  | Ev (Get KDeployment _) (Ok d) => negb (nonempty (ps_Containers (pt_Spec (dep_Template d))))
  | Ev (Get KHTTPRoute _) (Ok h) => negb (route_ok h)
  | Ev (Get KHTTPRoute key) (Err e) => IsNotFound e && disabled key
  | Ev (Get KConfigMap key) (Err _) => configured key
  | Ev (Get KCronJob _) (Ok c) => negb (nonempty (ps_Containers (pt_Spec (cj_Template c))))
  | Ev (Get KPodMonitor _) (Ok m) => negb (nonempty (pmon_Endpoints m))
  | _ => false
  end.
Definition some_odd (tr : trace) : bool := existsb odd tr.

Lemma some_odd_app tr1 tr2 : some_odd (tr1 ++ tr2) = some_odd tr1 || some_odd tr2.
Proof. apply existsb_app. Qed.

(** ** Programs that survive normal answers *)
Definition safe {A} (p : prog A) (Φ : A → Prop) : Prop :=
  wlp p (λ tr o, some_odd tr = true ∨ ∃ a, o = Done a ∧ Φ a).

Lemma safe_mono {A} (p : prog A) (Φ Ψ : A → Prop) : safe p Φ → (∀ a, Φ a → Ψ a) → safe p Ψ.
Proof. intros H HΦ. eapply wlp_mono; [exact H|]. simpl. intros tr o [?|(a & -> & ?)]; eauto. Qed.
Lemma safe_ret {A} (a : A) (Φ : A → Prop) : Φ a → safe (mret a) Φ.
Proof. intros H. apply wlp_ret. right. by exists a. Qed.
Lemma safe_bind {A B} (p : prog A) (f : A → prog B) Φ Ψ :
  safe p Φ → (∀ a, Φ a → safe (f a) Ψ) → safe (p ≫= f) Ψ.
Proof.
  intros Hp Hf. eapply wlp_bind_cut; [exact Hp| |].
  - intros tr a [H|(a' & [= ->] & H)].
    + apply wlp_exec. intros tr' o _. left. by rewrite some_odd_app, H.
    + eapply wlp_mono; [by apply Hf|]. simpl. intros tr' o [H'|H']; [|by right].
      left. rewrite some_odd_app, H'. apply orb_true_r.
  - intros tr w [H|(a & ? & _)]; [by left|done].
Qed.
Lemma safe_trigger {X} (c : call X) (Φ : X → Prop) :
  (∀ x, odd (Ev c x) = false → Φ x) → safe (trigger c) Φ.
Proof.
  intros H. apply wlp_trigger. intros x. unfold some_odd. simpl. rewrite orb_false_r.
  destruct (odd (Ev c x)) eqn:E; [by left|right; eauto].
Qed.
Lemma safe_lift {A} (o : outcome A) (Φ : A → Prop) : total o → (∀ a, o = Done a → Φ a) → safe (lift o) Φ.
Proof. intros [a ->] H. apply wlp_ret. right. by exists a; auto. Qed.
Lemma safe_lift_bind {A B} (o : outcome A) (f : A → prog B) Φ :
  total o → (∀ a, o = Done a → safe (f a) Φ) → safe (lift o ≫= f) Φ.
Proof. intros [a ->] H. by apply H. Qed.
Lemma safe_trigger_bind {X B} (c : call X) (f : X → prog B) Φ :
  (∀ x, odd (Ev c x) = false → safe (f x) Φ) → safe (trigger c ≫= f) Φ.
Proof.
  intros H. eapply (safe_bind _ _ (λ x, odd (Ev c x) = false)); [by apply safe_trigger|exact H].
Qed.
Lemma safe_ret_bind {A B} (a : A) (f : A → prog B) Φ : safe (f a) Φ → safe (mret a ≫= f) Φ.
Proof. done. Qed.
Lemma safe_assoc {A B C} (p : prog A) (f : A → prog B) (g : B → prog C) Φ :
  safe (p ≫= λ x, f x ≫= g) Φ → safe ((p ≫= f) ≫= g) Φ.
Proof. apply wlp_assoc. Qed.
Lemma safe_calm_bind {A B} (p : prog A) (f : A → prog B) Φ :
  safe p (λ _, True) → (∀ a, safe (f a) Φ) → safe (p ≫= f) Φ.
Proof. intros Hp Hf. eapply safe_bind; [exact Hp|auto]. Qed.
Lemma safe_fold {A S} (f : S → A → prog S) s l (Φ : S → Prop) :
  (∀ s a, safe (f s a) (λ _, True)) → (∀ s, Φ s) → safe (fold_prog f s l) Φ.
Proof.
  intros H HΦ. revert s. induction l as [|a l IH]; intros s; [by apply safe_ret|].
  eapply safe_bind; [apply H|auto].
Qed.
Lemma safe_for_err {A} (f : A → prog (option error)) l (Φ : option error → Prop) :
  (∀ a, a ∈ l → safe (f a) (λ _, True)) → (∀ e, Φ e) → safe (for_err f l) Φ.
Proof.
  intros H HΦ. induction l as [|a l IH]; [by apply safe_ret|].
  cbn [for_err]. eapply safe_bind; [apply H; by left|]. intros [e|] _; [by apply safe_ret|].
  apply IH. intros a' Ha. apply H. by right.
Qed.
(** A program of the quorum, where only StatefulSets matter *)
Lemma safe_calm {A} (p : prog A) : calm p → safe p (λ _, True).
Proof.
  intros H. eapply wlp_mono; [exact H|]. simpl. intros tr [a|w] Ho; [right; by exists a|].
  left. destruct (Ho w eq_refl) as (key & sts & Hin & Hn). apply existsb_exists.
  exists (Ev (Get KStatefulSet key) (Ok sts)). split; [by apply list_elem_of_In|].
  simpl. apply negb_true_iff, bool_decide_eq_false. unfold complete in Hn. tauto.
Qed.

(** What the answers that were not odd say *)
Ltac answers :=
  repeat match goal with
  | H : odd _ = false |- _ => cbn [odd] in H; first [apply negb_false_iff in H | clear H]
  end.
Create HintDb safe.
Ltac safe_step :=
  lazymatch goal with
  | |- safe (mret _) _ => apply safe_ret; try done
  | |- safe (mret _ ≫= _) _ => apply safe_ret_bind
  | |- safe (trigger _) _ => apply safe_trigger; intros ??; try done
  | |- safe (trigger _ ≫= _) _ => apply safe_trigger_bind; intros ??
  | |- safe (lift _ ≫= _) _ => apply safe_lift_bind; [|intros ??]
  | |- safe ((_ ≫= _) ≫= _) _ => apply safe_assoc
  | |- safe (match ?x with _ => _ end ≫= _) _ => case_on x
  | |- safe (fold_prog _ _ _ ≫= _) _ =>
      apply safe_calm_bind; [apply safe_fold; [intros ??|done]|intros ?]
  | |- safe (for_err _ _ ≫= _) _ =>
      apply safe_calm_bind; [apply safe_for_err; [intros ??|done]|intros ?]
  | |- safe (_ ≫= _) _ => apply safe_calm_bind; [solve [auto with safe]|intros ?]
  | |- safe (fold_prog _ _ _) _ => apply safe_fold; [intros ??|try done]
  | |- safe (for_err _ _) _ => apply safe_for_err; [intros ??|try done]
  | |- safe (match ?x with _ => _ end) _ => case_on x
  | |- safe (let _ := _ in _) _ => cbv zeta
  end; cbv beta.
Ltac safe_auto := repeat safe_step; auto with safe.

Context (r : Reconciler).

(** What is known of the cluster in memory, whose Ingress may change *)
Definition cluster_ok (ts : TypesenseCluster) : Prop :=
  rest_ok ts = true ∧ nonempty (Conditions (Status ts)) = true.

Lemma nonempty_length {A} (l : list A) : nonempty l = true → 1 ≤ length l.
Proof. destruct l; simpl; [done|lia]. Qed.

Lemma safe_secret ts : safe (ReconcileSecret ts) (λ _, True).
Proof. unfold ReconcileSecret, createAdminApiKey, generateToken. 
  safe_auto.
Qed.

Lemma safe_update_configmap ts cm n b : safe (updateConfigMap ts cm n b) (λ _, True).
Proof. apply safe_calm, calm_updateConfigMap. Qed.
Lemma safe_getNodes ts n b : safe (getNodes ts n b) (λ _, True).
Proof. apply safe_calm, calm_getNodes. Qed.
Lemma safe_forcePods ts : safe (forcePodsConfigMapUpdate ts) (λ _, True).
Proof. apply safe_calm, calm_force. Qed.
Lemma safe_scale key n : safe (ScaleStatefulSet key n) (λ _, True).
Proof. apply safe_calm, calm_scale. Qed.
Lemma safe_quorum ts secret key : safe (ReconcileQuorum r ts secret key) (λ _, True).
Proof. apply safe_calm, calm_ReconcileQuorum. Qed.
#[local] Hint Resolve safe_update_configmap safe_getNodes safe_forcePods safe_scale safe_quorum : safe.

Lemma safe_configmap ts : safe (ReconcileConfigMap ts) (λ _, True).
Proof. unfold ReconcileConfigMap, createConfigMap. safe_auto. Qed.

Lemma set_first_port_total port s : nonempty (svc_Ports s) = true → total (set_first_port port s).
Proof. unfold set_first_port. destruct (svc_Ports s); [done|]. by eexists. Qed.
Lemma first_port_total s : nonempty (svc_Ports s) = true → total (first_port s).
Proof. intros H. unfold first_port. apply total_bind; [|intros; apply total_ret]. by apply total_index, nonempty_length. Qed.
Lemma safe_services ts : safe (ReconcileServices ts) (λ _, True).
Proof.
  unfold ReconcileServices, reconcile_headless, reconcile_rest, createHeadlessService,
    updateHeadlessService, createService, updateService, deleteService, only_err.
  safe_auto; answers; first [by apply first_port_total | by apply set_first_port_total].
Qed.

(** ** The Ingress and its proxy *)
Ltac shape x := destruct x eqn:?; try done.
Lemma ingress_changed_total ig ts igs :
  ingress_ok ig = true → is_PathType igs ≠ None → total (ingress_changed ig ts igs).
Proof.
  unfold ingress_ok, ingress_changed. intros H Hp.
  destruct (ing_Rules ig) as [|[host [[|[path [pt|] bs bp] ps]|]] rules]; try done.
  destruct (ing_TLS ig) as [|tls tlss]; [done|]. destruct (ing_IngressClassName ig); [|done].
  destruct (is_PathType igs); [|done]. cbv zeta. total_auto.
Qed.
Lemma updated_ingress_total ig ts igs : ingress_ok ig = true → total (updated_ingress ig ts igs).
Proof.
  unfold ingress_ok, updated_ingress. intros H.
  destruct (ing_Rules ig) as [|[host [[|[path [pt|] bs bp] ps]|]] rules]; try done.
  destruct (ing_TLS ig) as [|tls tlss]; [done|]. by eexists.
Qed.
Lemma proxy_pod_total d :
  nonempty (ps_Containers (pt_Spec (dep_Template d))) = true → total (proxy_pod d).
Proof. intros H. apply total_bind; [by apply total_index, nonempty_length|intros; apply total_ret]. Qed.

Lemma safe_ingress_object ts igs ig :
  is_PathType igs ≠ None → (∀ i, ig = Some i → ingress_ok i = true) →
  safe (reconcile_ingress_object ts igs ig) (λ _, True).
Proof.
  intros Hp Hi. unfold reconcile_ingress_object, createIngress, updateIngress. safe_auto.
  - by apply ingress_changed_total; [apply Hi|].
  - by apply updated_ingress_total, Hi.
Qed.
Lemma safe_ingress_configmap ts ig : safe (reconcile_ingress_configmap ts ig) (λ _, True).
Proof.
  unfold reconcile_ingress_configmap, createIngressConfigMap, updateIngressConfigMap. safe_auto.
Qed.
Lemma safe_ingress_deployment ts igs ig b : safe (reconcile_ingress_deployment ts igs ig b) (λ _, True).
Proof.
  unfold reconcile_ingress_deployment, createIngressDeployment, only_err.
  safe_auto; answers; by apply proxy_pod_total.
Qed.
Lemma safe_ingress_service ts igs ig : safe (reconcile_ingress_service ts igs ig) (λ _, True).
Proof.
  unfold reconcile_ingress_service, createIngressService, updateIngressService, only_err. safe_auto.
Qed.
#[local] Hint Resolve safe_ingress_configmap safe_ingress_deployment safe_ingress_service : safe.
Lemma safe_proxy ts igs ig : safe (reconcile_proxy ts igs ig) (λ _, True).
Proof. unfold reconcile_proxy. safe_auto. Qed.

Lemma safe_ingress ts :
  cluster_ok ts → is_PathType <$> IngressOf (Spec ts) ≠ Some None →
  safe (ReconcileIngress ts) (λ x, cluster_ok x.1).
Proof.
  intros Hts Hp. unfold ReconcileIngress. cbv zeta.
  assert (∀ existing, (∀ i, existing = Some i → ingress_ok i = true) →
    safe match IngressOf (Spec ts), HttpRoutes (Spec ts) with
         | Some igs, None =>
             o ← reconcile_ingress_object ts igs existing;
             match o with
             | Err err => mret (ts, Some err)
             | Ok ig =>
                 '(igs, err) ← reconcile_proxy ts igs ig;
                 mret (set_Spec (set_IngressOf (Some igs) (Spec ts)) ts, err)
             end
         | _, _ => mret (ts, None)
         end (λ x, cluster_ok x.1)) as Hproceed.
  { intros existing He. destruct (IngressOf (Spec ts)) as [igs|]; [|by apply safe_ret].
    destruct (HttpRoutes (Spec ts)); [by apply safe_ret|].
    apply safe_calm_bind; [apply safe_ingress_object; [intros E; apply Hp; simpl; by rewrite E|done]|].
    intros [ig|e]; [|by apply safe_ret].
    apply safe_calm_bind; [apply safe_proxy|]. intros [igs' e]. by apply safe_ret. }
  apply safe_trigger_bind. intros [ig|e] H; answers.
  - destruct (IngressOf (Spec ts)), (HttpRoutes (Spec ts)) eqn:E;
      try (apply Hproceed; by intros ? [= <-]);
      (apply safe_trigger_bind; intros; by apply safe_ret).
  - case_on (IsNotFound e); [by apply Hproceed|by apply safe_ret].
Qed.

(** ** Routes *)
Lemma route_spec_ok_inv s : route_spec_ok s = true →
  is_Some (hs_PathType s) ∧ is_Some (hs_ReferenceGrant s) ∧ is_Some (gp_Namespace (hs_ParentRef s)).
Proof. apply bool_decide_eq_true_1. Qed.
Lemma route_changed_total s h ts :
  route_spec_ok s = true → route_ok h = true → total (route_changed s h ts).
Proof.
  intros ([t Ht] & _)%route_spec_ok_inv. unfold route_ok, route_changed, first_path.
  destruct (hr_Rules h) as [|[[|[[[] []]|] ms] bs] rules]; try done.
  destruct (hr_ParentRefs h) as [|p ps]; [done|]. intros _. rewrite Ht. total_auto.
Qed.
Lemma updated_route_total s h ts : route_ok h = true → total (updated_route s h ts).
Proof.
  unfold route_ok, updated_route, set_first_path.
  destruct (hr_Rules h) as [|[[|[[[] []]|] ms] bs] rules]; try done.
  destruct (hr_ParentRefs h) as [|p ps]; [done|]. by eexists.
Qed.
Lemma safe_existing_route ts s h :
  route_spec_ok s = true → route_ok h = true → safe (reconcile_existing_route ts s h) (λ _, True).
Proof.
  intros Hs Hh. destruct (route_spec_ok_inv s Hs) as (_ & [g Hg] & [ns Hns]).
  unfold reconcile_existing_route, disable_route, deleteHttpRoute, updateHttpRoute,
    updateReferenceGrant, createReferenceGrant, deleteReferenceGrant,
    getReferenceGrantObjectMeta, only_err.
  rewrite Hg, Hns. cbn [deref]. destruct (negb (hs_Enabled s)); safe_auto.
  all: first [by apply route_changed_total | by apply updated_route_total | by eexists].
Qed.
Lemma safe_route ts s :
  route_spec_ok s = true → route_known ts s = true → safe (reconcile_route ts s) (λ _, True).
Proof.
  intros Hs Hk. destruct (route_spec_ok_inv s Hs) as (_ & [g Hg] & [ns Hns]).
  unfold reconcile_route. apply safe_trigger_bind. intros [h|e] H; cbn [odd] in H.
  { apply negb_false_iff in H. by apply safe_existing_route. }
  case_on (IsNotFound e); [|by apply safe_ret].
  unfold route_known in Hk. destruct (hs_Enabled s); [|cbn in Hk, H; congruence].
  unfold create_new_route, createHttpRoute, createReferenceGrant, getReferenceGrantObjectMeta,
    only_err. rewrite Hg, Hns. cbn [deref]. safe_auto. all: by eexists.
Qed.
Lemma rest_ok_inv ts : rest_ok ts = true →
  is_Some (Storage (Spec ts)) ∧ conf_known ts = true
  ∧ ∀ d, d ∈ default [] (HttpRoutes (Spec ts)) → route_spec_ok d = true ∧ route_known ts d = true.
Proof.
  intros [[Hs%bool_decide_eq_true Hc]%andb_true_iff Hr]%andb_true_iff. split_and!; try done.
  intros d Hd. rewrite forallb_forall in Hr. by apply andb_true_iff, Hr, list_elem_of_In.
Qed.
Lemma safe_httproute ts : rest_ok ts = true → safe (ReconcileHttpRoute ts) (λ _, True).
Proof.
  intros (_ & _ & Hr)%rest_ok_inv.
  unfold ReconcileHttpRoute, IsFeatureSupported, IsApiGroupDeployed, deleteOrphanedHttpRoutes,
    deleteOrphanedReferenceGrants, deleteHttpRoute, deleteReferenceGrant.
  safe_auto. all: apply safe_route; by apply Hr.
Qed.

(** ** Scrapers and the PodMonitor *)
Lemma safe_scraper ts : safe (ReconcileScraper ts) (λ _, True).
Proof.
  unfold ReconcileScraper, reconcile_scraper, deleteScraper, createScraper, only_err.
  safe_auto; answers. all: apply total_bind; [by apply total_index, nonempty_length|by eexists].
Qed.
Lemma safe_podmonitor ts : safe (ReconcilePodMonitor ts) (λ _, True).
Proof.
  unfold ReconcilePodMonitor, IsApiGroupDeployed, deleteMetricsExporterServiceMonitor,
    deleteMetricsExporterDeployment, reconcile_podmonitor, deleteMetricsExporterPodMonitor,
    createMetricsExporterPodMonitor, only_err.
  safe_auto; answers.
  all: unfold podmonitor_changed; destruct (negb _); [by eexists|].
  all: apply total_bind; [by apply total_index, nonempty_length|by eexists].
Qed.

(** ** The StatefulSet *)
Context (hash_total : ∀ shi, ∃ z, HashStructure shi = Ok z).

(** What is used of a StatefulSet after it was built, created or patched *)
Definition usable (s : StatefulSet) : Prop :=
  3 ≤ length (containers s)
  ∧ is_Some (ps_TerminationGracePeriodSeconds (pt_Spec (ss_Template (sts_Spec s)))).
Lemma sts_ok_inv s : sts_ok s = true → complete s ∧ usable s.
Proof. intros (? & ? & ? & ?)%bool_decide_eq_true_1. unfold complete, usable. tauto. Qed.

(** A build that succeeds with an object that can be used *)
Definition built (b : result StatefulSet) : Prop := ∃ d, b = Ok d ∧ usable d.

Lemma safe_hash lit ts :
  conf_known ts = true → 3 ≤ length (containers lit) →
  safe (buildStatefulSetHash lit ts) (λ h, ∃ s, h = Ok s).
Proof.
  intros Hconf Hc. unfold buildStatefulSetHash.
  apply (safe_bind _ _ (λ d, ∃ data, d = Ok data)).
  - unfold GetAdditionalServerConfiguration. unfold conf_known in Hconf.
    destruct (AdditionalServerConfiguration (Spec ts)) as [name|]; cbn [additional_conf_data].
    2: { apply safe_ret. by eexists. }
    cbn. apply safe_trigger_bind. intros [cm|e] H; [apply safe_ret; by eexists|].
    cbn [odd] in H. unfold additional_config_key in Hconf. congruence.
  - intros d [data ->].
    do 3 (apply safe_lift_bind; [apply total_index; lia|intros ? _]). cbv zeta.
    match goal with |- context [HashStructure ?shi] => destruct (hash_total shi) as [z ->] end.
    apply safe_ret. by eexists.
Qed.
Lemma safe_build key ts : rest_ok ts = true → safe (buildStatefulSet key ts) built.
Proof.
  intros ([storage Hst] & Hconf & _)%rest_ok_inv. unfold buildStatefulSet.
  apply safe_calm_bind.
  { unfold getHealthyLagThresholds. destruct (AdditionalServerConfiguration _); safe_auto. }
  intros [read write].
  destruct (sts_literal key ts _) as [lit|w] eqn:Elit.
  2: { unfold sts_literal, data_claim in Elit. by rewrite Hst in Elit. }
  pose proof (sts_literal_inv _ _ _ _ Elit) as (_ & _ & _ & Ht & _).
  apply safe_ret_bind. eapply safe_bind; [apply safe_hash; [done|]|].
  { unfold containers. rewrite Ht. cbn. lia. }
  intros b [hash ->]. apply safe_ret. eexists. split; [done|].
  unfold usable, containers. cbn. rewrite Ht. cbn. split; [lia|by eexists].
Qed.

Lemma getConditionReady_total ts : cluster_ok ts → total (getConditionReady ts).
Proof.
  intros [_ H]. apply total_bind; [by apply total_index, nonempty_length|intros; apply total_ret].
Qed.
Lemma container_context_total s i c : usable s → i < 3 → total (container_context_changed s i c).
Proof. intros [H _] Hi. apply total_bind; [apply total_index; lia|intros; apply total_ret]. Qed.
Lemma replicas_changed_total s ts c : complete s → total (replicas_changed s ts c).
Proof. intros [_ [n E]]. unfold replicas_changed. rewrite E. by eexists. Qed.
Lemma emergency_total s ts :
  cluster_ok ts → complete s → usable s → total (shouldEmergencyUpdateStatefulSet s ts).
Proof.
  intros Hts Hc Hu. apply total_bind; [by apply getConditionReady_total|]. intros [c|] _; [|by eexists].
  repeat apply total_or_else; try apply total_ret;
    try (apply container_context_total; [done|lia]); [by apply replicas_changed_total|].
  destruct Hu as [Hu _]. apply total_bind; [apply total_index; lia|intros; apply total_ret].
Qed.
Lemma should_update_total s d ts :
  cluster_ok ts → complete s → usable s → total (shouldUpdateStatefulSet s (Some d) ts).
Proof.
  intros Hts Hc Hu. unfold shouldUpdateStatefulSet.
  apply total_bind; [by apply getConditionReady_total|]. intros [c|] _; [|by eexists].
  apply total_bind; [by apply replicas_changed_total|]. intros b _. cbn [deref].
  apply total_bind; [by eexists|]. intros d' _. cbv zeta.
  repeat (apply total_bind; [apply container_context_total; [done|lia]|intros ? _]). by eexists.
Qed.

(** What a part that returns a StatefulSet promises *)
Definition sts_returned (x : sts_result) : Prop :=
  x.2 = None → ∃ s, x.1.1 = Some s ∧ usable s.

Lemma safe_apply_update ts s d :
  usable s → usable d → safe (apply_update ts s d) sts_returned.
Proof.
  intros [Hs _] [Hd _]. unfold apply_update, updateStatefulSet, get_nodes_cm, force_if_updated.
  apply safe_lift_bind; [apply total_index; lia|]. intros c _.
  apply safe_lift_bind; [apply total_index; lia|]. intros c' _. cbv zeta.
  apply safe_calm_bind; [safe_auto|]. intros _. apply safe_assoc, safe_trigger_bind. intros now _.
  apply safe_trigger_bind. intros [u|e] H; answers; [|by apply safe_ret].
  apply sts_ok_inv in H as [_ Hu].
  safe_auto. all: intros _; by exists u.
Qed.
Lemma safe_apply_scale key ts d : usable d → safe (apply_scale key ts (Some d)) sts_returned.
Proof.
  intros Hd. unfold apply_scale, get_nodes_cm, force_if_updated. safe_auto.
  all: intros _; by exists d.
Qed.
Lemma safe_existing ts s :
  cluster_ok ts → complete s → usable s →
  safe (reconcile_existing (stsObjectKey ts) ts s) sts_returned.
Proof.
  intros Hts Hc Hu. unfold reconcile_existing. cbv zeta.
  assert (sts_returned (Some s, false, None)) as Hsame by (intros _; by exists s).
  apply safe_lift_bind; [by apply getConditionReady_total|]. intros [c|] _; [|by apply safe_ret].
  apply safe_lift_bind; [by apply emergency_total|]. intros b _.
  destruct (_ || _); [|by apply safe_ret].
  eapply safe_bind; [apply safe_build, Hts|]. intros d' (d & -> & Hd). cbn beta iota.
  apply safe_lift_bind; [by apply should_update_total|]. intros [[u sc] trig] _. cbn beta iota.
  destruct (u && negb sc)%bool; [by apply safe_apply_update|].
  destruct (_ && _)%bool; [by apply safe_apply_scale|by apply safe_ret].
Qed.
Lemma safe_statefulset ts : cluster_ok ts → safe (ReconcileStatefulSet ts) sts_returned.
Proof.
  intros Hts. unfold ReconcileStatefulSet, createStatefulSet.
  apply safe_trigger_bind. intros [s|e] H; answers.
  - apply sts_ok_inv in H as [Hc Hu]. by apply safe_existing.
  - case_on (IsNotFound e); [|by apply safe_ret].
    apply safe_assoc. eapply safe_bind; [apply safe_build, Hts|].
    intros d' (d & -> & Hd). cbn beta iota.
    case_on (SetControllerReference KTypesenseCluster (ts_meta ts) (sts_meta d)); [|by apply safe_ret].
    apply safe_trigger_bind. intros [s|e'] H; answers; apply safe_ret; [|done].
    apply sts_ok_inv in H as [_ Hu]. intros _. by exists s.
Qed.

(** ** The loop *)
Definition status_returned (x : TypesenseCluster * option error) : Prop :=
  x.2 = None → cluster_ok x.1 ∧ is_PathType <$> IngressOf (Spec x.1) ≠ Some None.

Lemma safe_patchStatus ts f : safe (patchStatus ts f) status_returned.
Proof.
  unfold patchStatus. cbv zeta. apply safe_trigger_bind. intros [ts'|e] H; answers;
    apply safe_ret; [|done].
  apply andb_true_iff in H as [[Hp%bool_decide_eq_true H]%andb_true_iff Hc]. by intros _.
Qed.
Lemma safe_not_ready ts reason e : safe (setConditionNotReady ts reason e) status_returned.
Proof. apply safe_trigger_bind. intros now _. apply safe_patchStatus. Qed.
Lemma safe_ready ts reason : safe (setConditionReady ts reason) status_returned.
Proof. apply safe_trigger_bind. intros now _. apply safe_patchStatus. Qed.

Lemma safe_fail ts reason e : safe (fail ts reason e) (λ _, True).
Proof.
  eapply safe_bind; [apply safe_not_ready|]. intros [ts' e'] _. by apply safe_ret.
Qed.
Lemma safe_phase ts reason p next :
  safe p (λ _, True) → safe next (λ _, True) → safe (phase ts reason p next) (λ _, True).
Proof.
  intros Hp Hn. apply safe_calm_bind; [exact Hp|]. intros [e|]; [apply safe_fail|exact Hn].
Qed.
Lemma safe_report ts c e next :
  (∀ ts, cluster_ok ts → safe (next ts) (λ _, True)) →
  safe (report_not_ready ts c e next) (λ _, True).
Proof.
  intros Hn. eapply safe_bind; [apply safe_not_ready|]. intros [ts' [e'|]] H; [by apply safe_ret|].
  apply safe_trigger_bind. intros _ _. apply Hn. by apply H.
Qed.
Lemma safe_quorum_phase ts secret s n :
  cluster_ok ts → safe (quorum_phase r ts secret s n) (λ _, True).
Proof.
  intros Hts. apply safe_calm_bind; [apply safe_quorum|]. intros [[c size] e].
  unfold report_quorum. cbv zeta.
  case_on (contains_str c "QuorumNeedsAttention"); [apply safe_report; intros; by apply safe_ret|].
  case_on (negb (String.eqb c ConditionReasonQuorumReady));
    [apply safe_report; intros; by apply safe_ret|].
  apply safe_lift_bind; [by apply total_index, nonempty_length, Hts|]. intros c' _.
  eapply safe_bind; [apply safe_ready|]. intros [ts' [e'|]] _; [by apply safe_ret|].
  safe_auto.
Qed.
Lemma safe_statefulset_phase ts secret u :
  cluster_ok ts → safe (statefulset_phase r ts secret u) (λ _, True).
Proof.
  intros Hts. eapply safe_bind; [by apply safe_statefulset|]. intros [[s b] [e|]] H; [apply safe_fail|].
  destruct (H eq_refl) as (s' & E & _ & [g Hg]). simpl in E. subst s.
  apply safe_ret_bind. unfold finish. rewrite Hg. apply safe_ret_bind.
  destruct u as [[]|]; [|by apply safe_quorum_phase|by apply safe_ret].
  apply safe_calm_bind; [apply safe_forcePods|]. intros _.
  apply safe_report. intros ts' Hts'. by apply safe_quorum_phase.
Qed.
Lemma safe_parts ts :
  cluster_ok ts → is_PathType <$> IngressOf (Spec ts) ≠ Some None →
  safe (reconcile_parts r ts) (λ _, True).
Proof.
  intros Hts Hp. apply safe_calm_bind; [apply safe_secret|]. intros [secret|e]; [|apply safe_fail].
  apply safe_calm_bind; [apply safe_configmap|]. intros [u [e|]]; [apply safe_fail|].
  apply safe_phase; [apply safe_services|].
  eapply safe_bind; [by apply safe_ingress|]. intros [ts' e] Hts'.
  apply safe_phase; [by apply safe_ret|]. apply safe_phase; [apply safe_httproute, Hts'|].
  apply safe_phase; [apply safe_scraper|]. apply safe_phase; [apply safe_podmonitor|].
  by apply safe_statefulset_phase.
Qed.

Lemma safe_Reconcile req : safe (Reconcile r req) (λ _, True).
Proof.
  unfold Reconcile. apply safe_trigger_bind. intros [ts|e] H; answers; [|by apply safe_ret].
  apply andb_true_iff in H as [Hp%bool_decide_eq_true Hr].
  unfold initConditions. case_decide as Hc.
  - eapply safe_bind; [apply safe_trigger_bind; intros now _; apply safe_patchStatus|].
    intros [ts' [e|]] Hts'; [by apply safe_ret|]. destruct (Hts' eq_refl). by apply safe_parts.
  - apply safe_ret_bind, safe_parts; [|done]. split; [done|]. by destruct (Conditions (Status ts)).
Qed.
End Odd.

(** ** The catalogue *)
Section Catalogue.
Context `{L : Libs}.

(** The cluster an event answers with *)
Definition cluster_answer (e : event) : option TypesenseCluster :=
  match e with
  | Ev (Get KTypesenseCluster _) (Ok ts) | Ev (StatusPatch KTypesenseCluster _ _) (Ok ts) => Some ts
  | _ => None
  end.
(** Whether [key] is the additional configuration, or a disabled route, of a
    cluster that was read *)
Definition names_conf (key : ObjectKey) (ts : TypesenseCluster) : bool :=
  match AdditionalServerConfiguration (Spec ts) with
  | Some name => bool_decide (key = additional_config_key ts name)
  | None => false
  end.
Definition names_disabled (key : ObjectKey) (ts : TypesenseCluster) : bool :=
  existsb (λ d, negb (hs_Enabled d) && bool_decide (key = httpRouteObjectKey ts d))
    (default [] (HttpRoutes (Spec ts))).
Definition read_by (tr : trace) (P : ObjectKey → TypesenseCluster → bool) (key : ObjectKey) : bool :=
  existsb (P key) (omap cluster_answer tr).

(** One of the answers of the trace is odd. *)
Definition odd_trace (tr : trace) : bool :=
  some_odd (read_by tr names_conf) (read_by tr names_disabled) tr.
End Catalogue.

(** C7 The catalogue of panics.  Provided that hashing does not fail, a round of
    [Reconcile] ends without a panic, whatever the calls answer, unless one of the
    answers is odd: a cluster without storage, with an Ingress without path type,
    with a route that lacks a path type, a grant flag or the namespace of its
    gateway, or left without conditions; a failed read of the additional server
    configuration of a cluster that was read, or NotFound for one of its disabled
    routes; a StatefulSet without selector, replicas, three containers or grace
    period; a Service without ports; an Ingress, a route, a Deployment, a CronJob
    or a PodMonitor without the elements whose first is read. *)
Theorem Reconcile_no_panic `{L : Libs} r req :
  (∀ shi, ∃ z, HashStructure shi = Ok z) →
  wlp (Reconcile r req) (λ tr o, odd_trace tr = false → ∃ a, o = Done a).
Proof.
  intros Hh. apply wlp_exec. intros tr o He Hodd.
  destruct (proj1 (wlp_exec _ _) (safe_Reconcile (read_by tr names_conf) (read_by tr names_disabled)
    r Hh req) _ _ He) as [Ho|(a & -> & _)]; [|by exists a].
  unfold odd_trace in Hodd. congruence.
Qed.

(** ** Concrete instance *)
Section Witnesses.
#[local] Existing Instance concreteK.
#[local] Existing Instance concreteL.

Definition demo_request : ObjectKey := {| key_Namespace := "search"; key_Name := "t1" |}.
Definition demo_world : store := put KTypesenseCluster new_cluster empty_store.
Definition demo_round := run demo_server (Reconcile {| InCluster := true |} demo_request) demo_world.

(** The first round of a new cluster on the concrete server has no odd answer. *)
Lemma Reconcile_no_panic_witness :
  odd_trace demo_round.1.2 = false ∧ 10 ≤ length demo_round.1.2 ∧ ∃ a, demo_round.1.1 = Done a.
Proof.
  assert (odd_trace demo_round.1.2 = false) as H by by vm_compute.
  split; [exact H|]. split; [apply Nat.leb_le; by vm_compute|].
  pose proof (wlp_run demo_server (Reconcile {| InCluster := true |} demo_request) demo_world
    (λ tr o, odd_trace tr = false → ∃ a, o = Done a)
    (Reconcile_no_panic {| InCluster := true |} demo_request (λ shi, ltac:(by eexists)))) as Hrun.
  unfold demo_round in *.
  destruct (run demo_server (Reconcile {| InCluster := true |} demo_request) demo_world)
    as [[o tr] w]. exact (Hrun H).
Defined.
End Witnesses.
