(* ===== verification/QuorumRounds.v ===== *)
(** * The quorum across rounds (Quorum, Server)

    [ReconcileQuorum] run against an API server: what the StatefulSet on the
    server can become, round after round, and a recovery that goes too far. *)
From S2P Require Import Prelude GoLib GoNet GoJson K8s Api Effects Hoare External Concrete.
From S2P Require Import Utils Conditions StatefulSetOps ConfigMap QuorumHelpers Quorum Footprint.
From S2P Require Import QuorumTheory QuorumSpec StatefulSetTheory Server ObjectStore.

Section Rounds.
Context `{L : Libs} {W : Type} (h : environment W) {S : ApiServer h} (r : Reconciler).

(** What a run leaves of a StatefulSet: the object as it was, or what the server
    keeps of an update that was sent *)
Lemma run_updates {A} (p : prog A) w key :
  writes_only updates_only p →
  after h p w (λ tr _ w', objects w' KStatefulSet key = objects w KStatefulSet key
    ∨ ∃ o o', o ∈ sts_updates tr ∧ objects w' KStatefulSet key = Some o'
        ∧ kept KStatefulSet o o').
Proof.
  unfold after. revert w. induction p as [a|s|X c f IH]; intros w H; simpl; [by left|by left|].
  destruct (h X c w) as [x w'] eqn:E. unfold writes_only, all_events in *.
  assert ((∀ v, write_of (Ev c x) = Some v → updates_only v)
    ∧ wlp (f x) (λ tr _, Forall (λ e, ∀ v, write_of e = Some v → updates_only v) tr))
    as [Hc Hf].
  { specialize (H x). split.
    - pose proof (run_exec h (f x) w') as He. destruct (run h (f x) w') as [[o tr] w''].
      pose proof (proj1 (wlp_exec _ _) H _ _ He) as Hf. by apply Forall_cons in Hf as [Hf _].
    - eapply wlp_mono; [exact H|]. by intros tr _ [_ ?]%Forall_cons. }
  specialize (IH x w' Hf). destruct (run h (f x) w') as [[o tr] w''].
  change (Ev c x :: tr) with ([Ev c x] ++ tr). setoid_rewrite sts_updates_app.
  destruct IH as [IH|(u & u' & Hu & IH)].
  2: { right. exists u, u'. split; [apply elem_of_app; by right|done]. }
  rewrite IH. destruct (decide (written_kind c = Some KStatefulSet)) as [Hk|Hk].
  2: { left. exact (other_step h c KStatefulSet key w x w' E Hk). }
  destruct c as [| |k u|k u|k u1 u|k u1 u|k u pp| | | | | | | |]; simpl in Hk; try done;
    injection Hk as ->; try (by destruct (Hc _ eq_refl)).
  pose proof (srv_update w KStatefulSet u) as Hs. rewrite E in Hs.
  destruct x as [u'|e]; [|left; exact (Hs KStatefulSet key)].
  destruct Hs as (_ & _ & Hkept & Hc1 & Hc2 & _).
  destruct (decide (key = obj_key KStatefulSet u)) as [->|Hne]; [|left; exact (Hc2 key Hne)].
  right. exists u, u'. split; [apply elem_of_app; left; by left|done].
Qed.

(** Invariants of any number of rounds, also of one that panics *)
Lemma rounds_invariant {A} (p : prog A) (I : W → Prop) n w :
  (∀ w, I w → after h p w (λ _ _ w', I w')) → I w → after h (rounds n p) w (λ _ _ w', I w').
Proof.
  intros Hp. revert w. induction n as [|n IH]; intros w Hw; [by apply after_ret|].
  cbn [rounds]. eapply after_cut; [by apply Hp| |auto]. intros tr a w' Hw'. by apply IH.
Qed.

(** The StatefulSet on the server, with a number of replicas that satisfies [P] *)
Definition stored_size (key : ObjectKey) (P : option Z → Prop) (w : W) : Prop :=
  ∃ sts, objects w KStatefulSet key = Some sts ∧ P (ss_Replicas (sts_Spec sts)).

Lemma ReconcileQuorum_sizes ts secret key (P : option Z → Prop) w :
  P (Some 1%Z) → (∀ sts, P (Some (upgrade_size ts sts))) → stored_size key P w →
  after h (ReconcileQuorum r ts secret key) w (λ _ _ w', stored_size key P w').
Proof.
  intros H1 Hup (sts & Hs & HP).
  eapply after_mono.
  { apply after_and; [apply run_updates with (key := key), ReconcileQuorum_updates_only|].
    apply after_wlp, (ReconcileQuorum_updates r ts secret key). }
  cbv beta. intros tr o w' [[Hsame|(u & u' & Hu & Hw' & Hk)] Hpost].
  { exists sts. by rewrite Hsame. }
  exists u'. split; [done|]. destruct Hk as [Hk _]. rewrite Hk.
  destruct Hpost as [Hq|[(x & _ & _ & E)|(y & x & _ & _ & E)]].
  - unfold quiet in Hq. rewrite Hq in Hu. by apply elem_of_nil in Hu.
  - rewrite E in Hu. by apply list_elem_of_singleton in Hu as ->.
  - rewrite E in Hu. apply list_elem_of_singleton in Hu as ->. apply Hup.
Qed.

(** C6 Across any number of rounds the quorum reconciler moves the StatefulSet
    only between three sizes: the one it started with, a single node, and the
    size of the specification, whatever the nodes answer and whichever requests
    fail, when recovery is not incremental. *)
Theorem quorum_rounds_sizes ts secret key w n n0 :
  IncrementalQuorumRecovery (Spec ts) = false →
  stored_size key (λ m, m = n0) w →
  after h (rounds n (ReconcileQuorum r ts secret key)) w (λ _ _ w',
    stored_size key (λ m, m ∈ [n0; Some 1%Z; Some (Replicas (Spec ts))]) w').
Proof.
  intros Hi (sts & Hs & Hn). apply rounds_invariant.
  - intros w1. apply ReconcileQuorum_sizes; [set_solver|].
    intros x. unfold upgrade_size. rewrite Hi. set_solver.
  - exists sts. split; [done|]. rewrite Hn. set_solver.
Qed.

(** ** Unschedulable pods *)

(** The deletions of a list of pods come first. *)
Lemma restart_first u ts :
  wlp (match u with
       | Ok ((_ :: _) as pods) => _ ← RestartUnscheduledPods pods ts; mret tt
       | _ => mret tt
       end)
    (λ tr o, ∀ pods, u = Ok pods →
       (WDelete KPod <$> (pods ≫= unscheduled_entries)) `prefix_of` writes tr).
Proof.
  destruct u as [[|p pods]|e]; [apply wlp_ret; by intros ? [= <-]| |by apply wlp_ret].
  eapply wlp_bind_cut; [apply RestartUnscheduledPods_deletes| |].
  - intros tr a (_ & deleted & Hw & -> & _). apply wlp_ret. intros ? [= <-].
    rewrite app_nil_r, Hw. by eexists.
  - intros tr w ([=] & _).
Qed.

Lemma unscheduled_entries_twice p pods :
  p ∈ (pods ≫= unscheduled_entries) ≫= unscheduled_entries ↔ p ∈ pods ∧ is_unscheduled p = true.
Proof.
  rewrite list_elem_of_bind. setoid_rewrite list_elem_of_bind.
  setoid_rewrite unscheduled_entries_spec. naive_solver.
Qed.
(** The answer of a list of pods *)
Definition listed (e : event) : option (list Pod) :=
  match e with Ev (ListObjs KPod _) (Ok pods) => Some pods | _ => None end.
Lemma listed_inj opts opts' x pods tr rest :
  Ev (ListObjs KPod opts) x :: tr = Ev (ListObjs KPod opts') (Ok pods) :: rest →
  x = Ok pods ∧ tr = rest.
Proof.
  intros E. split; [|by apply (f_equal tail) in E].
  apply (f_equal (λ l, head l ≫= listed)) in E. cbn in E. destruct x; congruence.
Qed.
Lemma restart_stage {A} sts ts (f : prog A) :
  wlp (u ← GetUnscheduledPods sts;
       (match u with
        | Ok ((_ :: _) as pods) => _ ← RestartUnscheduledPods pods ts; mret tt
        | _ => mret tt
        end);; f)
    (λ tr _, ∀ opts pods rest, tr = Ev (ListObjs KPod opts) (Ok pods) :: rest →
       ∃ deleted, (WDelete KPod <$> deleted) `prefix_of` writes rest
         ∧ ∀ p, p ∈ deleted ↔ p ∈ pods ∧ is_unscheduled p = true).
Proof.
  unfold GetUnscheduledPods, list_pods. apply wlp_assoc, wlp_assoc, wlp_lift_bind; [|done].
  intros sel _. apply wlp_trigger_bind. intros x.
  destruct x as [pods|e]; apply wlp_ret_bind.
  2: { eapply wlp_mono; [by apply wlp_exec|]. by intros tr o _ opts pods rest [? _]%listed_inj. }
  eapply wlp_bind_cut; [apply (restart_first (Ok (pods ≫= unscheduled_entries)))| |].
  - intros tr [] H. eapply wlp_mono; [by apply wlp_exec|]. intros tr' o _ opts ? rest [[= <-] <-]%listed_inj.
    eexists. split; [|intros p; apply unscheduled_entries_twice].
    rewrite writes_app. etrans; [by apply H|by apply prefix_app_r].
  - intros tr w H opts ? rest [[= <-] <-]%listed_inj.
    eexists. split; [by apply H|intros p; apply unscheduled_entries_twice].
Qed.

(** C18 The first thing a round of the quorum changes: once the StatefulSet, the
    nodes list and its pods have been read and the pods were listed again, the
    round deletes every pod of that last list that is pending and cannot be
    scheduled, and no other, before it writes anything else, whatever it
    decides afterwards. *)
Theorem unscheduled_pods_first ts secret key :
  wlp (ReconcileQuorum r ts secret key) (λ tr _,
    ∀ e1 e2 e3 opts pods rest, tr = e1 :: e2 :: e3 :: Ev (ListObjs KPod opts) (Ok pods) :: rest →
      ∃ deleted, (WDelete KPod <$> deleted) `prefix_of` writes rest
        ∧ ∀ p, p ∈ deleted ↔ p ∈ pods ∧ is_unscheduled p = true).
Proof.
  unfold ReconcileQuorum, GetFreshStatefulSet, getQuorum, list_pods at 1.
  wlp_steps; try (intros ???????; simplify_eq; fail).
  eapply wlp_mono; [apply restart_stage|].
  cbn beta. intros tr o Hstage e1 e2 e3 opts pods rest E.
  eapply Hstage. by apply (f_equal (drop 3)) in E.
Qed.

(** ** Incremental recovery *)

(** Parts of a round that leave every StatefulSet alone *)
Definition aside {A} (p : prog A) : Prop := writes_only (λ v, write_kind v ≠ Some KStatefulSet) p.
Lemma after_aside {A B} (p : prog A) (f : A → prog B) (Q : outcome B → W → Prop) key
    (P : option StatefulSet → Prop) w :
  aside p → P (objects w KStatefulSet key) →
  (∀ a w', P (objects w' KStatefulSet key) → after h (f a) w' (λ _, Q)) →
  (∀ s w', Q (Panicked s) w') →
  after h (p ≫= f) w (λ _, Q).
Proof.
  intros Hp Hw Hf Hs. eapply after_cut; [by apply run_frame| |auto].
  intros tr a w' Hk. apply Hf. by rewrite (Hk key).
Qed.

(** The StatefulSet asks for fewer replicas than the specification. *)
Definition below (ts : TypesenseCluster) (sts : StatefulSet) : Prop :=
  ∃ n, ss_Replicas (sts_Spec sts) = Some n ∧ (n < Replicas (Spec ts))%Z.
(** If a round that found [sts] is answered with [QuorumUpgraded], it has scaled
    [sts] to the size of an upgrade. *)
Definition upgraded_to (ts : TypesenseCluster) (key : ObjectKey) (sts : StatefulSet)
    (o : outcome quorum_result) (w : W) : Prop :=
  ∀ m, o = Done (ConditionReasonQuorumUpgraded, m, None) →
    below ts sts ∧ m = upgrade_size ts sts ∧ stored_size key (λ x, x = Some m) w.
Lemma upgraded_to_other ts key sts c m e w :
  c ≠ ConditionReasonQuorumUpgraded → upgraded_to ts key sts (Done (c, m, e)) w.
Proof. intros Hc ? [= ]. done. Qed.
Lemma upgraded_to_failed ts key sts e w : upgraded_to ts key sts (Done (not_ready e)) w.
Proof. by apply upgraded_to_other. Qed.
Lemma upgraded_to_panic ts key sts s w : upgraded_to ts key sts (Panicked s) w.
Proof. by intros ? [=]. Qed.
#[local] Hint Resolve upgraded_to_failed upgraded_to_panic : core.

Lemma ScaleStatefulSet_size key n w :
  is_Some (objects w KStatefulSet key) →
  after h (ScaleStatefulSet key n) w (λ _ o w',
    o = Done None → stored_size key (λ x, x = Some n) w').
Proof.
  intros [sts Hs]. unfold ScaleStatefulSet, GetFreshStatefulSet.
  apply after_trigger_bind. intros g w1 E.
  apply (get_step h) in E as [Hw [[Hn _]|(o & Ho & ->)]]; [congruence|].
  rewrite Hs in Ho. injection Ho as <-.
  case_decide as Hn; [apply after_ret; intros _; exists sts; by rewrite (Hw KStatefulSet key)|].
  apply after_trigger_bind. intros u w2 E.
  pose proof (srv_update w1 KStatefulSet (with_replicas n sts)) as H. rewrite E in H.
  destruct u as [o|e]; apply after_ret; [intros _|by intros [=]].
  destruct H as (_ & _ & [Hr _] & Hc & _). exists o. split; [|exact Hr].
  rewrite <-Hc. f_equal. symmetry. exact (objects_key w KStatefulSet key sts Hs).
Qed.

Lemma footprint_aside {A} l (p : prog A) :
  footprint l p → bool_decide (Some KStatefulSet ∈ l.*2) = false → aside p.
Proof.
  intros H Hl%bool_decide_eq_false. eapply writes_only_mono; [exact H|].
  intros v Hv Hk. apply bool_decide_eq_true in Hv. apply Hl.
  apply list_elem_of_fmap. exists (write_tag v). split; [|done]. by destruct v.
Qed.
Lemma aside_force ts (b : bool) :
  aside (if b then _ ← forcePodsConfigMapUpdate ts; mret tt else mret tt).
Proof.
  apply (footprint_aside [(VPatch, Some KPod)]); [|done].
  destruct b; footprint_auto. apply fp_forcePodsConfigMapUpdate.
Qed.

Lemma upgradeQuorum_size ts cm key sts w :
  below ts sts → objects w KStatefulSet key = Some sts →
  after h (upgradeQuorum ts cm key) w (λ _, upgraded_to ts key sts).
Proof.
  intros Hb Hs. unfold upgradeQuorum, GetFreshStatefulSet. apply after_trigger_bind. intros g w1 E.
  apply (get_step h) in E as [Hw [[Hn _]|(o & Ho & ->)]]; [congruence|].
  rewrite Hs in Ho. injection Ho as <-. cbv zeta.
  eapply after_cut; [apply ScaleStatefulSet_size; by eexists; rewrite (Hw KStatefulSet key)| |auto].
  intros tr [e|] w2 Hsize; [by apply after_ret|]. specialize (Hsize eq_refl).
  set (P := λ v : option StatefulSet, ∃ x, v = Some x
    ∧ ss_Replicas (sts_Spec x) = Some (upgrade_size ts sts)).
  eapply (after_aside _ _ _ key P); [by eapply footprint_aside; [apply fp_updateConfigMap|]|exact Hsize| |auto].
  intros [[[c s] updated] [err|]] w3 H3; [by apply after_ret|].
  eapply (after_aside _ _ _ key P); [apply aside_force|exact H3| |auto].
  intros [] w4 H4. apply after_ret. by intros m [= <-].
Qed.

(** A part of the round: on the server with [sts], it answers [QuorumUpgraded]
    only after it has scaled to the size of an upgrade of [sts]. *)
Definition upgrades_only (ts : TypesenseCluster) (key : ObjectKey) (sts : StatefulSet)
    (p : prog quorum_result) : Prop :=
  ∀ w, objects w KStatefulSet key = Some sts →
    after h p w (λ _, upgraded_to ts key sts).

Lemma upgrades_only_bind {A} ts key sts (p : prog A) (f : A → prog quorum_result) :
  aside p → (∀ a, upgrades_only ts key sts (f a)) → upgrades_only ts key sts (p ≫= f).
Proof.
  intros Hp Hf w Hw. eapply (after_aside _ _ _ key (λ v, v = Some sts)); [done|exact Hw| |auto].
  intros a w'. apply Hf.
Qed.
Lemma upgrades_only_ret ts key sts c m e :
  c ≠ ConditionReasonQuorumUpgraded → upgrades_only ts key sts (mret (c, m, e)).
Proof. intros Hc w _. by apply after_ret, upgraded_to_other. Qed.
Lemma upgrades_only_downgrade ts key sts ts' q key' a b :
  upgrades_only ts key sts (downgrade_unless_bootstrapping ts' q key' a b).
Proof.
  unfold downgrade_unless_bootstrapping. destruct (hasBootstrapValues _ _) as [[]|e];
    [by apply upgrades_only_ret| |by apply upgrades_only_ret].
  intros w _. eapply after_mono; [apply after_wlp, downgradeQuorum_scales|].
  intros tr o w' (_ & _ & H) m ->. by destruct H as [[[=] _]|[[=] _]].
Qed.

(** From a run on a server with [sts] back to [upgrades_only] *)
Ltac fold_upgrades :=
  lazymatch goal with
  | Hw : objects ?w KStatefulSet ?key = Some ?sts
    |- after _ ?p ?w (λ _, upgraded_to ?ts _ _) =>
      generalize w, Hw; clear Hw; change (upgrades_only ts key sts p)
  | Hw : objects ?w KStatefulSet ?key = Some ?sts
    |- after _ ?p ?w (λ _ _ _, upgraded_to ?ts _ _ _ _) =>
      generalize w, Hw; clear Hw; change (upgrades_only ts key sts p)
  end; cbv beta iota.
Ltac aside_call := intros ? E; first [discriminate E | by simplify_eq/=].
Ltac upgrades_only_auto :=
  repeat first
    [ by apply upgrades_only_ret
    | apply upgrades_only_downgrade
    | intros ? ?; apply upgradeQuorum_size; [by eexists|done]
    | match goal with
      | |- upgrades_only _ _ _ (if ?b then _ else _) => destruct b
      | |- upgrades_only _ _ _ (match ?x with _ => _ end) => destruct x
      end ].

Lemma upgrades_only_conclude ts key sts q status queued healthy :
  upgrades_only ts key sts (conclude ts sts q key status queued healthy).
Proof.
  unfold conclude. destruct (decide (status = ClusterStatusOK)).
  2: { intros w Hw. apply after_ret_bind. fold_upgrades. upgrades_only_auto. }
  intros w Hw. apply after_assoc, after_lift_bind; [|by intros s _ m [=]].
  intros n En. apply after_ret_bind.
  destruct (ss_Replicas (sts_Spec sts)) as [n'|] eqn:Er; [|done]. injection En as ->.
  destruct (Z.ltb_spec n (Replicas (Spec ts))); fold_upgrades; upgrades_only_auto.
Qed.
Lemma upgrades_only_evaluate ts key sts q status ns queued lag nh :
  upgrades_only ts key sts (evaluate_quorum ts sts q key status ns queued lag nh).
Proof.
  unfold evaluate_quorum. cbv zeta. upgrades_only_auto; try apply upgrades_only_conclude.
  apply upgrades_only_bind; [|intros [e|]; upgrades_only_auto].
  by eapply footprint_aside; [apply fp_PurgeStatefulSetPods|].
Qed.
Lemma upgrades_only_nodes ts secret key sts q hc lag :
  upgrades_only ts key sts (reconcile_nodes r ts secret key sts q hc lag).
Proof.
  unfold reconcile_nodes. cbv zeta.
  apply upgrades_only_bind; [eapply footprint_aside; [apply (fp_gather_logs [])|done]|intros logs].
  apply upgrades_only_bind.
  { unfold aside, gather_status, getNodeStatus. calls_auto aside_call. }
  intros [queued ns]. destruct (decide _); [apply upgrades_only_downgrade|].
  apply upgrades_only_bind.
  { generalize false as na, (∅ : gmap string bool) as nh. unfold aside.
    induction (node_endpoints q) as [|ne nes IH]; intros na nh; cbn [update_gates];
      unfold calculatePodReadinessGate, getNodeHealth, updatePodReadinessGate;
      calls_auto aside_call; apply IH. }
  intros [[[] nh]|e]; upgrades_only_auto. apply upgrades_only_evaluate.
Qed.

Lemma ReconcileQuorum_upgraded ts secret key sts :
  upgrades_only ts key sts (ReconcileQuorum r ts secret key).
Proof.
  intros w Hw. unfold ReconcileQuorum, GetFreshStatefulSet.
  apply after_trigger_bind. intros g w1 E.
  apply (get_step h) in E as [Hs [[Hn _]|(o & Ho & ->)]]; [congruence|].
  rewrite Hw in Ho. injection Ho as <-. rewrite <-(Hs KStatefulSet key) in Hw.
  clear Hs. fold_upgrades.
  apply upgrades_only_bind; [eapply footprint_aside; [apply (fp_getQuorum [])|done]|].
  intros [q|e]; [|by apply upgrades_only_ret].
  apply upgrades_only_bind; [eapply footprint_aside; [apply (fp_GetUnscheduledPods [])|done]|intros u].
  apply upgrades_only_bind; [|intros []].
  { destruct u as [[|p pods]|e]; [by unfold aside; calls_auto aside_call| |by unfold aside; calls_auto aside_call].
    eapply footprint_aside; [footprint_auto; apply fp_RestartUnscheduledPods|done]. }
  destruct (_ <? _)%Z; [by apply upgrades_only_ret|].
  apply upgrades_only_bind; [eapply footprint_aside; [apply (fp_getHttpClient r [])|done]|].
  intros [hc|e]; [|by apply upgrades_only_ret].
  apply upgrades_only_bind; [eapply footprint_aside; [apply (fp_getHealthyWriteLagThreshold [])|done]|].
  intros lag. apply upgrades_only_nodes.
Qed.

(** C31 Incremental recovery can go beyond the size of the specification, because
    it adds one to the number of pods in the status of the StatefulSet and not to
    the number it asked for.  For every cluster that recovers incrementally and
    every StatefulSet on the server whose status still counts as many pods as the
    specification or more, a round that scales up finds the StatefulSet asking for
    fewer replicas than specified and leaves it asking for more: the number of
    pods plus one. *)
Theorem incremental_recovery_overshoots ts secret key w sts :
  IncrementalQuorumRecovery (Spec ts) = true →
  objects w KStatefulSet key = Some sts →
  (0 ≤ Replicas (Spec ts) ≤ st_Replicas (sts_Status sts))%Z →
  (st_Replicas (sts_Status sts) < 2147483647)%Z →
  after h (ReconcileQuorum r ts secret key) w (λ _ o w', ∀ n,
    o = Done (ConditionReasonQuorumUpgraded, n, None) →
    (∃ c, ss_Replicas (sts_Spec sts) = Some c ∧ (c < Replicas (Spec ts))%Z)
    ∧ n = (st_Replicas (sts_Status sts) + 1)%Z
    ∧ (Replicas (Spec ts) < n)%Z
    ∧ stored_size key (λ m, m = Some n) w').
Proof.
  intros Hi Hs Hk Hm. eapply after_mono; [by apply ReconcileQuorum_upgraded|].
  cbv beta. intros _ o w' H n Ho. destruct (H n Ho) as (Hb & -> & Hn).
  assert (upgrade_size ts sts = st_Replicas (sts_Status sts) + 1)%Z as E.
  { unfold upgrade_size. rewrite Hi. apply int32_id. unfold in_int32. lia. }
  rewrite E in *. split_and!; [exact Hb|done|lia|exact Hn].
Qed.
End Rounds.

(** ** Concrete instances *)
Section Witnesses.
#[local] Existing Instance concreteK.
#[local] Existing Instance concreteL.

(** A cluster of three nodes that recovers one node at a time: the StatefulSet
    was just scaled down to one replica, its three pods are still there and have
    elected the first one. *)
Definition recovering : TypesenseCluster :=
  let ts := demo_ts "t1" 3 "QuorumDowngraded" in
  {| ts_meta := ts_meta ts; Status := Status ts;
     Spec :=
       {| Image := Image (Spec ts); ImagePullSecrets := []; AdminApiKey := None;
          Replicas := 3; ApiPort := 8108; PeeringPort := 8107;
          HealthProbeTimeoutInMilliseconds := 500; ResetPeersOnError := true;
          EnableCors := true; CorsDomains := None; ForceResetPeersConfigOnUpdate := false;
          Resources := None; Affinity := None; NodeSelector := ∅; Tolerations := [];
          AdditionalServerConfiguration := None; ServiceAnnotations := ∅;
          StatefulSetAnnotations := ∅; PodAnnotations := ∅;
          PodsInheritStatefulSetAnnotations := false; Storage := Storage (Spec ts);
          IngressOf := None; HttpRoutes := None; Scrapers := None; Metrics := None;
          HealthCheck := None; TopologySpreadConstraints := []; PriorityClassName := None;
          SecurityContextOf := None; IgnoreAnnotationsFromExternalMutations := [];
          IncrementalQuorumRecovery := true; PodManagementPolicy := None;
          TerminationGracePeriodSeconds := None |} |}.

Definition demo_sts (replicas : Z) : StatefulSet :=
  {| sts_meta := mk_meta "t1-sts" "search" ∅ ∅;
     sts_Spec :=
       {| ss_ServiceName := "t1-sts-svc"; ss_PodManagementPolicy := "Parallel";
          ss_Replicas := Some replicas;
          ss_Selector := Some (match_labels {["app" := "t1-sts"]});
          ss_Template :=
            {| pt_meta := meta_zero;
               pt_Spec :=
                 {| ps_SecurityContext := None; ps_TerminationGracePeriodSeconds := Some 10%Z;
                    ps_ReadinessGates := []; ps_PriorityClassName := "";
                    ps_ImagePullSecrets := []; ps_RestartPolicy := ""; ps_Containers := [];
                    ps_Affinity := None; ps_NodeSelector := ∅; ps_Tolerations := [];
                    ps_TopologySpreadConstraints := []; ps_Volumes := [] |} |};
          ss_VolumeClaimTemplates := [] |};
     sts_Status := {| st_Replicas := 3; st_ReadyReplicas := 3 |} |}.
Definition demo_pod (i : string) : Pod :=
  {| pod_meta := mk_meta ("t1-sts-" +:+ i) "search" {["app" := "t1-sts"]} ∅;
     pod_Phase := "Running"; pod_PodIP := "10.0.0.1" +:+ i; pod_Conditions := [] |}.
Definition demo_endpoints : EndpointSlice :=
  {| eps_meta := mk_meta "t1-sts-svc-x" "search" {["kubernetes.io/service-name" := "t1-sts-svc"]} ∅;
     eps_Endpoints := (λ i, {| ep_Addresses := ["10.0.0.1" +:+ i]; ep_TargetRef := Some "Pod" |})
                      <$> ["0"; "1"; "2"] |}.
Definition demo_nodeslist : ConfigMap :=
  {| cm_meta := mk_meta "t1-nodeslist" "search" ∅ ∅;
     cm_Data := nodes_data ["10.0.0.10:8107:8108"; "10.0.0.11:8107:8108"; "10.0.0.12:8107:8108"]
                  [] |}.
Definition demo_objects : store :=
  put KStatefulSet (demo_sts 1) (put KConfigMap demo_nodeslist (put KEndpointSlice demo_endpoints
    (put KPod (demo_pod "0") (put KPod (demo_pod "1") (put KPod (demo_pod "2") empty_store))))).

(** The first pod leads, all are healthy. *)
Definition q : string := String (Ascii.ascii_of_nat 34) "".
Definition demo_http (url : string) : HttpResponse :=
  {| hr_StatusCode := 200;
     hr_Body := Ok (if contains_str url "/health" then "{" +:+ q +:+ "ok" +:+ q +:+ ": true}"
                    else "{" +:+ q +:+ "state" +:+ q +:+ ": " +:+ q
                         +:+ (if contains_str url "10.0.0.10" then "LEADER" else "FOLLOWER")
                         +:+ q +:+ "}") |}.
Definition quorum_answers X (c : call X) : X :=
  match c in call X return X with
  | Get _ _ | ListObjs _ _ | Create _ _ | Update _ _ | Patch _ _ _ | StatusPatch _ _ _ =>
      Err not_found
  | Delete _ _ _ => None
  | Eventf _ _ _ _ => tt
  | Now => "2024-01-01T00:00:00Z"
  | RandRead n => Ok (replicate (Z.to_nat n) 7%Z)
  | HTTPClientFor => None
  | HttpGet _ url _ => Ok (demo_http url)
  | GetLogs _ _ _ _ => Ok ""
  | ServerVersion => Ok "v1.30.0"
  | ServerGroups => Ok []
  end.
Definition quorum_server : environment store := object_store quorum_answers.
Definition demo_secret : Secret :=
  {| sec_meta := meta_zero; sec_Type := "Opaque"; sec_Immutable := None; sec_Data := ∅ |}.
Definition demo_key : ObjectKey := {| key_Namespace := "search"; key_Name := "t1-sts" |}.

Lemma quorum_rounds_sizes_witness :
  stored_size quorum_server demo_key (λ m, m = Some 1%Z) demo_objects
  ∧ after quorum_server
      (rounds 4 (ReconcileQuorum {| InCluster := true |} (demo_ts "t1" 3 "QuorumReady")
                   demo_secret demo_key)) demo_objects
      (λ _ _ w', stored_size quorum_server demo_key
                   (λ m, m ∈ [Some 1%Z; Some 1%Z; Some 3%Z]) w').
Proof.
  assert (stored_size quorum_server demo_key (λ m, m = Some 1%Z) demo_objects) as H.
  { exists (demo_sts 1). split; [by vm_compute|done]. }
  split; [exact H|].
  exact (quorum_rounds_sizes quorum_server {| InCluster := true |} (demo_ts "t1" 3 "QuorumReady")
    demo_secret demo_key demo_objects 4 (Some 1%Z) eq_refl H).
Defined.

(** The pods of a downgraded cluster of three are still there: the round scales
    the StatefulSet from one replica to four. *)
Lemma recovering_upgraded :
  after quorum_server
    (ReconcileQuorum {| InCluster := true |} recovering demo_secret demo_key) demo_objects
    (λ _ o _, o = Done (ConditionReasonQuorumUpgraded, 4%Z, None)).
Proof. apply after_run. by vm_compute. Qed.
Lemma incremental_recovery_overshoots_witness :
  Replicas (Spec recovering) = 3%Z
  ∧ after quorum_server
      (ReconcileQuorum {| InCluster := true |} recovering demo_secret demo_key) demo_objects
      (λ _ o w', o = Done (ConditionReasonQuorumUpgraded, 4%Z, None)
         ∧ stored_size quorum_server demo_key (λ m, m = Some 4%Z) w').
Proof.
  split; [done|].
  eapply after_mono; [apply after_and; [exact recovering_upgraded|]|].
  - apply (incremental_recovery_overshoots quorum_server {| InCluster := true |} recovering
      demo_secret demo_key demo_objects (demo_sts 1)); [done|by vm_compute|by vm_compute|by vm_compute].
  - cbv beta. intros tr o w' [Ho H]. split; [exact Ho|]. by destruct (H 4%Z Ho) as (_ & _ & _ & ?).
Defined.
End Witnesses.
