(* ===== verification/CostTheory.v ===== *)
(** * How many requests a round of the quorum makes

    [pays k p Φ]: the calls of [p] are covered by [k] credits and the credits
    that the answers bring in, and [Φ] of its result is left over.  An answer
    that lists pods brings credits for each of them, so the loops over pods and
    nodes are paid for by the list they run over. *)
From S2P Require Import Prelude GoLib GoNet GoJson K8s Api Effects Hoare External Utils.
From S2P Require Import Conditions StatefulSetOps ConfigMap QuorumHelpers Quorum.

(** Credits per item *)
Abbreviation rate := 5 (only parsing).

Section Cost.
Context `{L : Libs}.

(** What the loops do for one pod of a list: one node, and a deletion for every
    two matching conditions *)
Definition load (pod : Pod) : nat := 1 + length (pod_Conditions pod) * length (pod_Conditions pod).
Definition total_load (pods : list Pod) : nat := sum_list_with load pods.
Definition items (e : event) : nat :=
  match e with
  | Ev (ListObjs KPod _) (Ok pods) => total_load pods
  | _ => 0
  end.
Definition supplied (tr : trace) : nat := sum_list_with items tr.

Lemma supplied_app tr1 tr2 : supplied (tr1 ++ tr2) = supplied tr1 + supplied tr2.
Proof. apply sum_list_with_app. Qed.

Definition pays {A} (k : nat) (p : prog A) (Φ : A → nat) : Prop :=
  wlp p (λ tr o, length tr + match o with Done a => Φ a | Panicked _ => 0 end
                 ≤ k + rate * supplied tr).

Lemma pays_mono {A} k k' (p : prog A) (Φ Φ' : A → nat) :
  pays k p Φ → k ≤ k' → (∀ a, Φ' a ≤ Φ a) → pays k' p Φ'.
Proof.
  intros H Hk HΦ. eapply wlp_mono; [exact H|]. simpl. intros tr [a|w]; [|lia].
  specialize (HΦ a). lia.
Qed.
Lemma pays_weaken {A} k k' (p : prog A) (Φ : A → nat) : pays k p Φ → k ≤ k' → pays k' p Φ.
Proof. intros H Hk. by eapply pays_mono. Qed.
Lemma pays_ret {A} k (a : A) (Φ : A → nat) : Φ a ≤ k → pays k (mret a) Φ.
Proof. intros H. apply wlp_ret. simpl. lia. Qed.
Lemma pays_lift {A} k (o : outcome A) (Φ : A → nat) :
  (∀ a, o = Done a → Φ a ≤ k) → pays k (lift o) Φ.
Proof. intros H. apply wlp_lift. destruct o as [a|w]; simpl; [|lia]. specialize (H a eq_refl). lia. Qed.
Lemma pays_bind {A B} k (p : prog A) (f : A → prog B) Φ Ψ :
  pays k p Φ → (∀ a, pays (Φ a) (f a) Ψ) → pays k (p ≫= f) Ψ.
Proof.
  intros Hp Hf. eapply wlp_bind_cut; [exact Hp| |].
  - intros tr a H. cbn beta iota in H. eapply wlp_mono; [apply Hf|]. cbn beta. intros tr' o H'.
    rewrite length_app, supplied_app. lia.
  - cbn beta iota. intros tr w H. exact H.
Qed.
(** A call, and one whose answer brings credits *)
Lemma pays_call {X} k (c : call X) : pays (S k) (trigger c) (λ _, k).
Proof. apply wlp_trigger. intros x. simpl. lia. Qed.
Lemma pays_list k opts :
  pays (S k) (trigger (ListObjs KPod opts)) (λ x, k + match x with Ok pods => rate * total_load pods | Err _ => 0 end).
Proof.
  apply wlp_trigger. intros x. unfold supplied. simpl. destruct x as [pods|e]; simpl; lia.
Qed.
Lemma pays_call_bind {X B} k (c : call X) (f : X → prog B) Ψ :
  (∀ x, pays k (f x) Ψ) → pays (S k) (trigger c ≫= f) Ψ.
Proof. intros H. eapply pays_bind; [apply pays_call|done]. Qed.
Lemma pays_ret_bind {A B} k (a : A) (f : A → prog B) Ψ : pays k (f a) Ψ → pays k (mret a ≫= f) Ψ.
Proof. apply wlp_ret_bind. Qed.
Lemma pays_lift_bind {A B} k (o : outcome A) (f : A → prog B) Ψ :
  (∀ a, o = Done a → pays k (f a) Ψ) → pays k (lift o ≫= f) Ψ.
Proof.
  intros H. destruct o as [a|w]; [by apply H|]. unfold pays, wlp. simpl. lia.
Qed.
Lemma pays_assoc {A B C} k (p : prog A) (f : A → prog B) (g : B → prog C) Ψ :
  pays k (p ≫= λ x, f x ≫= g) Ψ → pays k ((p ≫= f) ≫= g) Ψ.
Proof. apply wlp_assoc. Qed.

(** A loop pays for each element what it costs. *)
Lemma pays_fold {A S'} (f : S' → A → prog S') (c : A → nat) l s k :
  (∀ s a k, a ∈ l → pays (c a + k) (f s a) (λ _, k)) →
  pays (sum_list_with c l + k) (fold_prog f s l) (λ _, k).
Proof.
  revert s. induction l as [|a l IH]; intros s H; cbn [fold_prog]; [by apply pays_ret|].
  cbn [sum_list_with]. rewrite <-Nat.add_assoc. eapply pays_bind; [apply H; by left|].
  intros s'. apply IH. intros s'' a' k' Ha. apply H. by right.
Qed.
Lemma pays_for_err {A} (f : A → prog (option error)) (c : A → nat) l k :
  (∀ a k, a ∈ l → pays (c a + k) (f a) (λ _, k)) →
  pays (sum_list_with c l + k) (for_err f l) (λ _, k).
Proof.
  induction l as [|a l IH]; intros H; cbn [for_err]; [by apply pays_ret|].
  cbn [sum_list_with]. rewrite <-Nat.add_assoc. eapply pays_bind; [apply H; by left|].
  intros [e|]; [apply pays_ret; lia|]. apply IH. intros a' k' Ha. apply H. by right.
Qed.
Lemma sum_const {A} (c : nat) (l : list A) : sum_list_with (λ _, c) l = c * length l.
Proof. induction l; simpl; lia. Qed.
(** A list of pods pays for a loop over it. *)
Lemma pays_load {A} (c : Pod → nat) pods k (p : prog A) Φ :
  (∀ pod, c pod ≤ rate * load pod) →
  pays (sum_list_with c pods + k) p Φ → pays (k + rate * total_load pods) p Φ.
Proof.
  intros Hc H. eapply pays_weaken; [exact H|]. unfold total_load. clear H.
  induction pods as [|pod pods IH]; cbn [sum_list_with]; [lia|]. specialize (Hc pod). lia.
Qed.
Lemma load_pos pod : 1 ≤ load pod.
Proof. unfold load. lia. Qed.
End Cost.

Ltac pays_step :=
  lazymatch goal with
  | |- pays _ (mret _) _ => apply pays_ret; try lia
  | |- pays _ (mret _ ≫= _) _ => apply pays_ret_bind
  | |- pays _ (trigger _) _ => apply pays_call
  | |- pays _ (trigger _ ≫= _) _ => apply pays_call_bind; intros ?
  | |- pays _ (lift _) _ => apply pays_lift; intros; try lia
  | |- pays _ (lift _ ≫= _) _ => apply pays_lift_bind; intros ??
  | |- pays _ ((_ ≫= _) ≫= _) _ => apply pays_assoc
  | |- pays _ (match ?x with _ => _ end) _ => case_on x
  | |- pays _ (match ?x with _ => _ end ≫= _) _ => case_on x
  | |- pays _ (let _ := _ in _) _ => cbv zeta
  end; cbv beta.
Ltac pays_steps := repeat pays_step.

Section Quorum.
Context `{L : Libs} (r : Reconciler).

Lemma pays_list_pods k sts :
  pays (S k) (list_pods sts)
    (λ x, k + match x with Ok pods => rate * total_load pods | Err _ => 0 end).
Proof. unfold list_pods. pays_step. apply pays_list. Qed.

Lemma pays_list_pods0 k sts : pays (S k) (list_pods sts) (λ _, k).
Proof. eapply pays_mono; [apply (pays_list_pods k)|lia|]. intros x; cbn beta; lia. Qed.

Lemma pays_getNodes k ts n b : pays (4 + k) (getNodes ts n b) (λ _, k).
Proof.
  unfold getNodes, GetFreshStatefulSet, getEndpointSlicesForStatefulSet. pays_steps.
  eapply pays_bind; [apply pays_list_pods0|]. intros x. cbn beta. pays_steps.
  eapply pays_bind; [apply pays_list_pods0|]. intros y. cbn beta. pays_steps.
Qed.
Lemma pays_getNodes_bootstrapping k ts n : pays k (getNodes ts n true) (λ _, k).
Proof. unfold getNodes. pays_steps. Qed.
Lemma pays_updateConfigMap k ts cm n b : pays (6 + k) (updateConfigMap ts cm n b) (λ _, k).
Proof.
  unfold updateConfigMap, deleteConfigMap. pays_steps.
  eapply pays_bind; [apply (pays_getNodes (1 + k))|]. intros x. cbn beta. pays_steps.
  eapply pays_bind; [apply (pays_getNodes_bootstrapping (1 + k))|]. intros y. cbn beta. pays_steps.
Qed.

Lemma pays_forcePods k ts : pays (1 + k) (forcePodsConfigMapUpdate ts) (λ _, k).
Proof.
  unfold forcePodsConfigMapUpdate. eapply pays_bind; [apply pays_list|]. intros [pods|e]; cbn beta.
  2: { pays_steps. }
  apply (pays_load (λ _, 2)); [intros pod; pose proof (load_pos pod); lia|].
  eapply pays_bind; [apply pays_fold; intros; pays_steps|]. intros errs. by apply pays_ret.
Qed.

Lemma pays_Purge k sts ts : pays (2 + k) (PurgeStatefulSetPods sts ts) (λ _, k).
Proof.
  unfold PurgeStatefulSetPods. eapply pays_bind; [apply (pays_list_pods (1 + k))|].
  intros [pods|e]; cbn beta iota; [|pays_steps].
  apply (pays_load (λ _, 1)); [intros pod; pose proof (load_pos pod); lia|].
  eapply pays_bind; [apply pays_for_err; intros; apply pays_call|]. intros x. pays_steps.
Qed.

Ltac pays_known :=
  eapply pays_bind;
  [first [apply pays_Purge | apply pays_updateConfigMap | apply pays_forcePods]
  |intros; cbn beta].
Ltac pays_all := repeat first [pays_step | pays_known].

Lemma pays_downgrade k ts cm key healthy required :
  pays (12 + k) (downgradeQuorum ts cm key healthy required) (λ _, k).
Proof. unfold downgradeQuorum, ScaleStatefulSet, GetFreshStatefulSet. pays_all. Qed.
Lemma pays_upgrade k ts cm key : pays (10 + k) (upgradeQuorum ts cm key) (λ _, k).
Proof. unfold upgradeQuorum, ScaleStatefulSet, GetFreshStatefulSet. pays_all. Qed.

(** The nodes of the quorum are pods of the answer. *)
Lemma size_quorum_nodes ts nodes pods : size (quorum_nodes ts nodes pods) ≤ length pods.
Proof.
  unfold quorum_nodes. cut (∀ qn : gmap string IP,
    size (foldl (add_quorum_node ts nodes) qn pods) ≤ size qn + length pods).
  { intros H. specialize (H ∅). rewrite map_size_empty in H. exact H. }
  induction pods as [|pod pods IH]; intros qn; cbn [foldl length]; [lia|].
  etrans; [apply IH|]. unfold add_quorum_node.
  repeat case_match; rewrite ?map_size_insert; repeat case_match; simpl; lia.
Qed.
Lemma length_node_endpoints q : length (node_endpoints q) = size (Nodes q).
Proof.
  unfold node_endpoints. rewrite length_fmap.
  rewrite (Permutation_length (sort_strings_Permutation _)), length_fmap.
  apply length_map_to_list.
Qed.
Lemma pays_getQuorum k ts sts :
  pays (2 + k) (getQuorum ts sts)
    (λ x, k + match x with Ok q => rate * size (Nodes q) | Err _ => 0 end).
Proof.
  unfold getQuorum. pays_steps. eapply pays_bind; [apply (pays_list_pods k)|].
  intros [pods|e]; cbn beta iota; pays_steps. cbn [Nodes].
  match goal with |- context [quorum_nodes ts ?n pods] =>
    pose proof (size_quorum_nodes ts n pods) end.
  assert (length pods ≤ total_load pods); [|lia].
  unfold total_load. clear. induction pods as [|pod pods IH]; cbn [length sum_list_with]; [lia|].
  pose proof (load_pos pod). lia.
Qed.

(** What a restart of unschedulable pods deletes: every entry of the list its
    matching conditions *)
Definition entry_cost (pod : Pod) : nat := length (pod_Conditions pod).
Lemma entries_load pods :
  sum_list_with entry_cost (pods ≫= unscheduled_entries) ≤ rate * total_load pods.
Proof.
  unfold total_load. induction pods as [|pod pods IH]; cbn [mbind list_bind sum_list_with]; [lia|].
  rewrite sum_list_with_app.
  cut (sum_list_with entry_cost (unscheduled_entries pod) ≤ load pod); [lia|].
  unfold unscheduled_entries, load. case_decide; cbn [sum_list_with]; [|lia].
  pose proof (length_filter (λ c, unschedulable_cond c = true) (pod_Conditions pod)) as Hl.
  transitivity (length (filter (λ c, unschedulable_cond c = true) (pod_Conditions pod))
                * entry_cost pod).
  - clear Hl. induction (filter _ _) as [|c l IHl]; cbn; [lia|]. unfold entry_cost in *. lia.
  - unfold entry_cost. nia.
Qed.
Lemma pays_GetUnscheduledPods k sts :
  pays (1 + k) (GetUnscheduledPods sts)
    (λ x, k + match x with Ok pods => sum_list_with entry_cost pods | Err _ => 0 end).
Proof.
  unfold GetUnscheduledPods. eapply pays_bind; [apply (pays_list_pods k)|].
  intros [pods|e]; cbn beta iota; pays_steps. pose proof (entries_load pods). lia.
Qed.
Lemma pays_RestartUnscheduledPods k pods ts :
  pays (1 + k + sum_list_with entry_cost pods) (RestartUnscheduledPods pods ts) (λ _, k).
Proof.
  unfold RestartUnscheduledPods.
  apply (pays_weaken (sum_list_with entry_cost pods + (1 + k)) _); [|lia].
  eapply pays_bind; [apply pays_fold|intros; pays_steps].
  intros s pod k' _. unfold delete_unscheduled, entry_cost. case_decide; pays_steps.
  apply (pays_weaken (sum_list_with (λ _, 1) (pod_Conditions pod) + k') _).
  - apply pays_fold. intros. pays_steps.
  - rewrite sum_const. lia.
Qed.

(** Logs, status and gate of every node *)
Lemma pays_gather_logs k ts nes : pays (length nes + k) (gather_logs ts nes) (λ _, k).
Proof.
  apply (pays_weaken (sum_list_with (λ _, 1) nes + k) _); [|rewrite sum_const; lia].
  apply pays_fold. intros. unfold getPodLogs. pays_steps.
Qed.
Lemma pays_gather_status k http ts secret logs nes :
  pays (length nes + k) (gather_status r http ts secret logs nes) (λ _, k).
Proof.
  apply (pays_weaken (sum_list_with (λ _, 1) nes + k) _); [|rewrite sum_const; lia].
  apply pays_fold. intros. unfold getNodeStatus. pays_steps.
Qed.
Lemma pays_update_gates k http ts st logs b m nes :
  pays (3 * length nes + k) (update_gates r http ts st logs b m nes) (λ _, k).
Proof.
  revert b m k. induction nes as [|ne nes IH]; intros b m k; cbn [update_gates length].
  - apply pays_ret. lia.
  - replace (3 * S (length nes) + k) with (3 + (3 * length nes + k)) by lia.
    unfold calculatePodReadinessGate, getNodeHealth, updatePodReadinessGate.
    pays_steps. all: eapply pays_weaken; [apply IH|lia].
Qed.

Ltac pays_branch :=
  repeat first
    [ pays_step
    | eapply pays_bind;
      [first [apply pays_downgrade | apply pays_upgrade | apply pays_Purge]|intros; cbn beta]
    | eapply pays_weaken; [first [apply pays_downgrade | apply pays_upgrade]|lia] ].

Lemma pays_conclude ts sts q key cs queued healthy :
  pays 12 (conclude ts sts q key cs queued healthy) (λ _, 0).
Proof. unfold conclude. pays_branch. Qed.
Lemma pays_evaluate ts sts q key cs st queued lag health :
  pays 12 (evaluate_quorum ts sts q key cs st queued lag health) (λ _, 0).
Proof.
  unfold evaluate_quorum, downgrade_unless_bootstrapping. pays_branch; apply pays_conclude.
Qed.

(** The part that runs over the nodes: five calls for each *)
Lemma pays_nodes ts secret key sts q http lag :
  pays (12 + rate * size (Nodes q)) (reconcile_nodes r ts secret key sts q http lag) (λ _, 0).
Proof.
  unfold reconcile_nodes. rewrite <-length_node_endpoints.
  set (nes := node_endpoints q).
  apply (pays_weaken (length nes + (length nes + (3 * length nes + 12))) _); [|lia].
  eapply pays_bind; [apply pays_gather_logs|]. intros logs.
  eapply pays_bind; [apply pays_gather_status|]. intros [queued st]. cbn beta iota.
  case_decide.
  - unfold downgrade_unless_bootstrapping. pays_branch.
  - eapply pays_bind; [apply pays_update_gates|]. intros [[b health]|e]; pays_steps.
    apply pays_evaluate.
Qed.
Lemma pays_restart k ts u :
  pays (1 + k + match u with Ok pods => sum_list_with entry_cost pods | Err _ => 0 end)
    (match u with
     | Ok ((_ :: _) as pods) => _ ← RestartUnscheduledPods pods ts; mret tt
     | _ => mret tt
     end) (λ _, k).
Proof.
  destruct u as [[|pod pods]|e]; try (apply pays_ret; lia).
  eapply pays_bind; [apply pays_RestartUnscheduledPods|]. intros x. by apply pays_ret.
Qed.
Lemma pays_ReconcileQuorum ts secret key :
  pays 19 (ReconcileQuorum r ts secret key) (λ _, 0).
Proof.
  unfold ReconcileQuorum, GetFreshStatefulSet. pays_step. case_match; [|pays_steps].
  eapply pays_bind; [apply (pays_getQuorum 16)|]. intros [q|e]; cbn beta iota; [|pays_steps].
  set (n := rate * size (Nodes q)).
  apply (pays_weaken (1 + (15 + n)) _); [|lia].
  eapply pays_bind; [apply pays_GetUnscheduledPods|]. intros u. cbn beta.
  eapply pays_bind.
  { eapply pays_weaken; [apply (pays_restart (14 + n))|lia]. }
  intros ?. unfold getHttpClient, getHealthyWriteLagThreshold, lag_threshold. pays_steps.
  all: eapply pays_weaken; [apply pays_nodes|unfold n; lia].
Qed.
End Quorum.

(** C17 A round of the quorum makes at most 19 calls, and five
    more for every pod that the lists of pods it asks for hold, each pod counted
    once and once more for every pair of its conditions: the loops over pods,
    nodes and conditions run over what one answer brought, the bodies retry
    nothing, and no wait is inside. *)
Theorem ReconcileQuorum_bounded_calls `{L : Libs} r ts secret key :
  wlp (ReconcileQuorum r ts secret key) (λ tr _, length tr ≤ 19 + 5 * supplied tr).
Proof.
  eapply wlp_mono; [exact (pays_ReconcileQuorum r ts secret key)|].
  intros tr [a|w] H; simpl in H; lia.
Qed.
